(* ===== verification/_CoqProject ===== *)
-Q . S2P
Prelude.v
Text.v
Query.v
F64.v
F64Spec.v
Scheduling.v
Db.v
Encoding.v
Exposition.v
Reader.v
Fts.v
Migrations.v
ReadApi.v
Pressure.v
Telemetry.v
Broker.v
Lifecycle.v
RateLimit.v
Ingress.v
Enqueue.v
Leases.v
Claim.v
Finish.v
Flow.v
FlowTree.v
FlowSim.v
FlowSpec.v
Retention.v
Schedulers.v
Config.v
Backup.v
Render.v
Samples.v
System.v
Startup.v
Daemon.v
MetricsPage.v
ReadSpec.v
Http.v
Quotas.v
Fairness.v
Drain.v
Serve.v
Gates.v
Work.v
Gauges.v
Ledgers.v
Chains.v
Keys.v
Examples.v
Suite.v
FlowSuite.v
EnqueueSuite.v
LifecycleSuite.v
JobRuns.v
FlowRuns.v
DaemonRuns.v
ReadRuns.v
ReadSuite.v
