(* ===== verification/Prelude.v ===== *)
(** * AnvilMQ: a verification of the broker

    AnvilMQ is a durable job queue: one process owns an SQLite database, serves workers and
    producers over gRPC, runs background loops (lease recovery, retention, schedulers,
    snapshots, a metrics sampler) and answers read-only HTTP requests.  Every handler takes
    the mutex of the writer connection and does its work in one immediate transaction, so
    that a run of the broker is a sequence of atomic steps on the database; the HTTP
    endpoints read committed states through connections of their own.  This development
    models those steps, statement by statement, and proves what they promise.

    ** The model

    A handler is a function [M E A = World -> result E A * World] (Broker.v).  A [World] is
    the database (Db.v: one finite map per table, the rows as records with the columns of
    the schema), the metrics (Telemetry.v, Pressure.v) and a counter of effects.  Each SQL
    statement, clock reading, UUID and random number takes the next index of the counter;
    what happens at that index is up to an environment [Env]: any statement may fail
    ([fault]), the clock may read anything ([clock]), a statement may visit rows in any order
    ([scan]).  A theorem without a hypothesis on the environment holds for all of them.  Two
    laws are assumed where they are needed: UUIDs do not collide ([UuidLaw]) and a scan
    returns every row once ([ScanLaw]).  [transaction] is BEGIN IMMEDIATE, the body and
    COMMIT: any error rolls the database back, while metrics already moved stay moved.

    The read side has its own small monads: a query on a reader connection sees a snapshot
    per statement and may fail or time out at any of them (Reader.v, ReadApi.v); a backup run
    acts on a directory, any operation of which may fail, and records every directory it
    went through, so that a crash at any point is one of them (Backup.v); the migrations act
    on an untyped schema of tables, columns, rows and indexes (Migrations.v).

    Code that is not in the repository is a parameter: [Prost] (the encoding of a request
    compared with its receipt; different messages have different bytes), [CronLib] (croner and chrono-tz), [Fts5] (what a full-text
    query matches), [Json] (serde_json) and [Axum] (how a path and a query string are taken apart),
    with their laws as classes; [FsEnv] is the file
    system and [Host] what opening the database and binding addresses answer; the number of
    threads of tokio's blocking pool is an argument where it matters (C40).  Rust integers
    are [Z] with wrapping, checked and saturating operations written where the code uses them
    (Prelude.v); f64 is the executable binary64 of the Standard Library (F64.v), with
    the values and errors of its operations in F64Spec.v; its [Display] is in Exposition.v; strings are byte strings with Rust's UTF-8 whitespace,
    trimming and integer parsing (Text.v); ORDER BY and LIMIT are stable sorting and
    truncation (Query.v).

    ** Files and the code they model (src/src)

    - Prelude.v: results, record update, machine integers, tables as maps.
    - Text.v, Query.v, F64.v, F64Spec.v: strings, ordered queries, floating point and the
      error of its operations.
    - Scheduling.v: scheduling.rs (backoff, jitter, cron normalization and evaluation).
    - Db.v: the schema and the data migrations of db.rs.  Migrations.v: [run_migrations] of
      db.rs, statement by statement, on the databases of earlier versions.
    - Encoding.v: base64, LIKE escaping, the full-text query sanitizer, label escaping
      (telemetry.rs, fts.rs), each beside the reader it is written for.  Exposition.v: the
      lines of the Prometheus text format and their reader.
    - Reader.v: reader.rs.  Fts.v: fts.rs and [enable_fts] of db.rs.  ReadApi.v: the HTTP
      handlers of telemetry.rs (failures, rejections, search, job detail, readiness).
      Http.v: the router of telemetry.rs and the requests it serves.
    - Pressure.v, Telemetry.v: pressure.rs and the counters of telemetry.rs.
    - Broker.v: environment, statements, transactions, gRPC status; the inversion rules,
      frames ([keeps]) and fault-free runs ([calm]) the proofs are built from.
    - Lifecycle.v: the UPDATE and INSERT .. SELECT statements as functions on rows, and the
      abstract life cycle of a job ([lstep]) with its invariants: the specification.
    - RateLimit.v, Ingress.v: rate_limit.rs, ingress_limit.rs.
    - Enqueue.v: enqueue.rs (validation, idempotency, ancestry, circuit breaker, quarantine,
      batches, rejection records).
    - Leases.v: leases.rs.  Claim.v: get_next_job of main.rs.  Finish.v: complete_job,
      fail_job and finish_job of main.rs.
    - Flow.v: flow.rs.  FlowTree.v: the shape of prepared trees.  FlowSim.v: flows implement
      the life cycle.  FlowSpec.v: what the flow handlers write.
    - Retention.v: retention.rs.  Schedulers.v: schedulers.rs, scheduler.rs and their SQL in
      db.rs.  Config.v: the parsers of settings in main.rs, db.rs, telemetry.rs and fts.rs.
    - Backup.v: backup.rs and its loop.  Render.v: [Metrics::render], [Pressure::render], RPC
      timers and the sampler.  Samples.v: what the page means.
    - System.v: the RPCs of QueueService and the loops as calls ([perform]), restarts,
      reachable worlds and the theorems on the whole broker.  Startup.v: the start of [main]
      and its end, [with_durability] and [checkpoint] of db.rs.  Daemon.v: the process that
      [main] then is, with its servers, loops, signal task and blocking pool.
      MetricsPage.v: the metrics of a running process.  ReadSpec.v: the endpoints and the
      index over runs of the broker.
    - Quotas.v, Fairness.v: the limits and the turns of the facets along runs of the whole
      broker.  Chains.v: the counter of a lineage beside the jobs admitted into it.  Keys.v:
      idempotency keys along runs.  Drain.v, Serve.v: how many recovery passes end the abandoned claims, how many
      polls hand out the jobs that are due.  Gates.v, Work.v: the gates of flows along runs,
      and how many rounds of work finish every job.  Gauges.v, Ledgers.v: the gauges of the
      states, of the receipts and of the schedulers beside their tables.
    - Examples.v, JobRuns.v, FlowRuns.v, DaemonRuns.v, ReadRuns.v: concrete runs, which also
      show that the hypotheses of the theorems can be met, and the runs behind the defects
      found.
    - Suite.v, ReadSuite.v, FlowSuite.v, EnqueueSuite.v, LifecycleSuite.v: the repository's
      own tests, unit tests and those that drive the service, run on the model.  They all
      pass, which ties the definitions to what the authors expect of the code; tests that
      need a crate, the operating system or a query plan are left out.

    ** What is proved

    - The whole broker (System.v, C1-C5, C27): every call refines the life cycle whatever
      fails; rows stay well formed; no job is lost; the record of a job is permanent; claims
      of a job carry increasing attempt numbers; an acknowledged completion can be repeated
      safely.  The refinement is a forward simulation ([simulates]), proved handler by
      handler in the file of the handler.
    - Claims (C6, C7, C28): the poll serves the least claimable job; along runs no facet is
      served twice while another one waits; as many polls as there are due jobs hand out
      every one of them.
    - Leases and retries (C8-C10): heartbeats, how many passes recover every abandoned claim,
      the delays of retries.
    - Acknowledgements and flows (C11-C15): fencing, what an accepted one settles, children
      complete before their parents run and no cycle of parents can arise, rounds of work
      finish every job of every flow, the failure cascade.
    - The gauges (C16): of every state along runs in which jobs get parents through flows, of
      the schedulers along every run, of the receipts along runs without a failure cascade;
      FlowRuns.v shows the cascade that breaks the last one.
    - Enqueueing: idempotency keys, and how long they hold (C17, Keys.v), batches (C18), the
      place of a new job (C19).  Quotas: rate windows (C20), the counter of a chain counts
      the jobs it admits (C21, Chains.v), ingress admission against the exact load of the
      sliding window (C22).  Flows (C23, C24), retention (C25), schedulers
      (C26).
    - Reads (C29, C30): search returns exactly the page it promises; the page of a job,
      routed and parsed, never misses a job that moves to the archive while it is read.  The full-text index is complete once
      enabled, and every run of the broker changes the history by the insertions and
      deletions that its two triggers follow (C31).
    - Snapshots (C32, C33): never incomplete under their published names, the latest kept
      and no other file touched.
      Migrations (C34): any earlier database is upgraded, nothing else changed.
    - The process (C35-C37): every setting in force is what its variable asks for, and in
      range; whatever the interleaving,
      the writer's work is a run of the broker and a clean exit has answered what was
      accepted; a signal that is heard stops the daemon.
    - The metrics page (C38) reads back as the counters, in every state of a running daemon.
      Full-text queries read back as the tokens that were asked for, one term each (C39).  The
      reader's concurrency bound, and what it does not bound (C40).
    - Also proved, beside those: one recovery pass (Leases.v), a poll is never idle beside
      work (Claim.v), the gate of one completion (Finish.v), every path of the router
      (Http.v), the outcome of a scheduler upsert, the sampled backlog, the feeds and the blobs of a job detail.

    ** Recursion and fuel

    All loops are structural except these.  The failure cascade follows parent links through
    the table: [cascade] takes fuel and the handler gives it one more than the number of live
    jobs; each round deletes a live job, so the fuel never runs out ([cascade_fuel], C15).
    The backfill of the index repeats a batched statement until it adds nothing:
    [backfill_loop] gets one more round than there are missing rows, each round but the last
    indexes at least one, and the loop always returns (C31).  [display_f64] tries up to 17
    digits, which is enough for any binary64; [read_labels] takes the length of its line.

    ** What is not modelled

    Panics of the blocking task (JoinError); tokio, tonic, hyper and axum beyond the steps
    that Daemon.v states for them and the extractors of [Axum]; the text of the console page,
    which is a field of the application; the socket address parser; PRAGMA and WAL internals, which
    appear as answers of the host; SQLite's limit on the length of a LIKE pattern; query
    plans.  In Daemon.v a setting is refused before anything is spawned, while the code reads
    some settings between two spawns; and a closure of the pool runs as one step, which is
    what the writer's mutex makes of it.  A scrape of the metrics is taken as one moment,
    while the code loads each atomic on its own.  States are an enumeration instead of the
    strings of the column.  SQLite integers do not overflow in the model: counters that the
    code increments in SQL are unbounded.  Of an environment variable only absence or valid
    UTF-8 is modelled, and a refused setting is a value that carries what the message prints.

    ** Left open

    Idempotence of cron normalization; the interplay of the ingress and the dequeue limit on
    one facet; the sampled backlog between two ticks of the sampler. *)
From Stdlib Require Export ZArith Lia.
From stdpp Require Export sorting.
From stdpp Require Export base gmap strings list list_relations pretty numbers.

(** ** Results

    Rust's [Result<A, E>]. *)
Inductive result (E A : Type) : Type :=
| Ok (a : A)
| Err (e : E).
Arguments Ok {E A} a.
Arguments Err {E A} e.

Definition res_bind {E A B} (f : A → result E B) (r : result E A) : result E B :=
  match r with Ok a => f a | Err e => Err e end.
#[export] Instance result_ret E : MRet (result E) := λ A a, Ok a.
#[export] Instance result_bind E : MBind (result E) := @res_bind E.

Definition res_map_err {E F A} (f : E → F) (r : result E A) : result F A :=
  match r with Ok a => Ok a | Err e => Err (f e) end.

Definition is_ok {E A} (r : result E A) : bool :=
  match r with Ok _ => true | Err _ => false end.

(** ** Functional update of record fields

    [r <| f := v |>] rebuilds [r] with field [f] replaced.  A record opts in by an
    [Eta] instance that lists its fields once; the updater of a field is then derived
    by abstracting that field in the rebuilt record. *)
Class Eta (R : Type) := rebuild : R → R.
Class Updater {R A : Type} (f : R → A) := update_with : (A → A) → R → R.
Arguments update_with {R A} f {_} g r /.

Ltac derive_updater f :=
  lazymatch goal with
  | |- @Updater ?R ?A _ =>
      let inst := constr:(_ : Eta R) in
      let lam := eval red in inst in
      exact (fun (g : A → A) (r : R) =>
               ltac:(let b := eval cbv beta in (lam r) in
                     lazymatch eval pattern (f r) in b with
                     | ?ctx _ => let x := eval cbv beta in (ctx (g (f r))) in exact x
                     end))
  end.
#[export] Hint Extern 0 (Updater ?f) => derive_updater f : typeclass_instances.

Declare Scope record_scope.
Delimit Scope record_scope with record.
Notation "r <| f := v |>" := (update_with f (λ _, v) r)
  (at level 12, left associativity, format "r  <| f  :=  v |>") : record_scope.
Notation "r <| f ::= g |>" := (update_with f g r)
  (at level 12, left associativity, format "r  <| f  ::=  g |>") : record_scope.
Open Scope record_scope.

(** ** Machine integers *)
Open Scope Z_scope.

Definition i64_min : Z := - 2 ^ 63.
Definition i64_max : Z := 2 ^ 63 - 1.
Definition u32_max : Z := 2 ^ 32 - 1.
Definition u64_max : Z := 2 ^ 64 - 1.

Definition in_i64 (z : Z) : Prop := i64_min ≤ z ≤ i64_max.
Definition in_u32 (z : Z) : Prop := 0 ≤ z ≤ u32_max.
#[export] Instance in_i64_dec z : Decision (in_i64 z).
Proof. unfold in_i64. apply _. Defined.
#[export] Instance in_u32_dec z : Decision (in_u32 z).
Proof. unfold in_u32. apply _. Defined.

(** Two's complement wrap-around, the release-profile behaviour of [+] on [i64] and of
    the atomics' [fetch_add]/[fetch_sub]. *)
Definition wrap_i64 (z : Z) : Z := (z + 2 ^ 63) mod 2 ^ 64 - 2 ^ 63.
Definition wrap_u64 (z : Z) : Z := z mod 2 ^ 64.
Definition wrap_u32 (z : Z) : Z := z mod 2 ^ 32.
Definition wrap_i32 (z : Z) : Z := (z + 2 ^ 31) mod 2 ^ 32 - 2 ^ 31.

Definition sat_i64 (z : Z) : Z := Z.max i64_min (Z.min i64_max z).

(** [i64::checked_add], [saturating_add], [saturating_sub], [saturating_mul]. *)
Definition i64_checked_add (a b : Z) : option Z :=
  if decide (in_i64 (a + b)) then Some (a + b) else None.
Definition i64_saturating_add (a b : Z) : Z := sat_i64 (a + b).
Definition i64_saturating_sub (a b : Z) : Z := sat_i64 (a - b).
Definition i64_saturating_mul (a b : Z) : Z := sat_i64 (a * b).

Lemma wrap_i64_id z : in_i64 z → wrap_i64 z = z.
Proof.
  unfold in_i64, i64_min, i64_max, wrap_i64. intros H.
  rewrite Z.mod_small; lia.
Qed.

Lemma wrap_i64_range z : in_i64 (wrap_i64 z).
Proof.
  unfold in_i64, i64_min, i64_max, wrap_i64.
  pose proof (Z.mod_pos_bound (z + 2 ^ 63) (2 ^ 64)). lia.
Qed.

Lemma sat_i64_range z : in_i64 (sat_i64 z).
Proof. unfold in_i64, sat_i64, i64_min, i64_max. lia. Qed.

Lemma sat_i64_id z : in_i64 z → sat_i64 z = z.
Proof. unfold in_i64, sat_i64. lia. Qed.

Lemma i64_checked_add_Some a b c :
  i64_checked_add a b = Some c ↔ c = a + b ∧ in_i64 (a + b).
Proof. unfold i64_checked_add. case_decide; naive_solver. Qed.

(** ** Automation shared by the components *)
Create HintDb anvil discriminated.
#[export] Hint Resolve wrap_i64_range sat_i64_range : anvil.

(** Case analysis on the scrutinee of the first [match] or [if] of a hypothesis. *)
Ltac case_in H :=
  match type of H with
  | context [match ?x with _ => _ end] => destruct x eqn:?
  end.
(** The same for every hypothesis and the goal, closing what contradicts. *)
Ltac split_cases :=
  repeat first [progress simplify_eq/= | case_match]; try done.

(** Conjunctions of facts and linear arithmetic. *)
Ltac by_parts :=
  repeat (done || match goal with
    | H : _ ∧ _ |- _ => destruct H
    | |- _ ∧ _ => split
    end); try discriminate; try tauto; eauto; try lia.

(** ** Tables *)
Section Tables.
Context {K A : Type} `{Countable K}.
Implicit Types (m : gmap K A) (k : K).

(** Rows of a table that satisfy a condition, with their keys. *)
Definition rows_where (P : K → A → bool) (m : gmap K A) : list (K * A) :=
  base.filter (λ kv : K * A, P kv.1 kv.2) (map_to_list m).

Lemma elem_of_rows_where P m k a :
  (k, a) ∈ rows_where P m ↔ m !! k = Some a ∧ P k a = true.
Proof.
  unfold rows_where. rewrite list_elem_of_filter, elem_of_map_to_list. simpl.
  rewrite Is_true_true. tauto.
Qed.

Lemma rows_where_NoDup P m : NoDup (rows_where P m).*1.
Proof.
  apply NoDup_fmap_fst.
  - intros k a1 a2 [H1 _]%elem_of_rows_where [H2 _]%elem_of_rows_where. congruence.
  - apply list.NoDup_filter, NoDup_map_to_list.
Qed.

Lemma rows_where_ext P P' m :
  (∀ k a, m !! k = Some a → P k a = P' k a) → rows_where P m = rows_where P' m.
Proof.
  intros HP. assert (∀ kv, kv ∈ map_to_list m → P kv.1 kv.2 = P' kv.1 kv.2) as Hl.
  { intros [k a] Hk%elem_of_map_to_list. by apply HP. }
  unfold rows_where. induction (map_to_list m) as [|kv l IH]; [done|].
  rewrite !list.filter_cons, Hl, IH; [done| |by left]. intros ? ?. apply Hl. by right.
Qed.

Lemma rows_where_false m : rows_where (λ _ _, false) m = [].
Proof. unfold rows_where. by induction (map_to_list m). Qed.

(** [UPDATE] of a row that is there, and of one that is not. *)
Lemma partial_alter_Some (f : option A → option A) m k a :
  f (m !! k) = Some a → partial_alter f k m = <[k := a]> m.
Proof.
  intros Hf. apply map_eq. intros i. destruct (decide (i = k)) as [->|].
  - by rewrite lookup_partial_alter_eq, lookup_insert_eq.
  - by rewrite lookup_partial_alter_ne, lookup_insert_ne.
Qed.
Lemma alter_Some (f : A → A) m k a : m !! k = Some a → alter f k m = <[k := f a]> m.
Proof.
  intros Ha. apply map_eq. intros i. destruct (decide (i = k)) as [->|].
  - by rewrite lookup_alter_eq, lookup_insert_eq, Ha.
  - by rewrite lookup_alter_ne, lookup_insert_ne.
Qed.
Lemma alter_None (f : A → A) m k : m !! k = None → alter f k m = m.
Proof.
  intros Ha. apply map_eq. intros i. destruct (decide (i = k)) as [->|].
  - by rewrite lookup_alter_eq, Ha.
  - by rewrite lookup_alter_ne.
Qed.

(** [DELETE ... WHERE key IN (ks)]. *)
Definition delete_keys (ks : list K) (m : gmap K A) : gmap K A := foldr delete m ks.

Lemma lookup_delete_keys ks m k :
  delete_keys ks m !! k = if decide (k ∈ ks) then None else m !! k.
Proof.
  unfold delete_keys. induction ks as [|k' ks IH]; [done|].
  cbn [foldr]. rewrite lookup_delete, IH. repeat case_decide; set_solver.
Qed.
End Tables.
