(* ===== verification/Text.v ===== *)
(** * Rust strings

    A Rust [String] or [&str] is a string of UTF-8 bytes ([String.string], one [ascii] per
    byte): [len] is the byte length, equality and SQLite's BINARY collation compare bytes.
    This file models the [str] methods the broker uses: [trim], [is_empty],
    [to_ascii_lowercase], [split_whitespace], [split], [split_once], [parse::<iN>] and
    decimal [Display]. *)
From Stdlib Require Import Ascii String DecimalString.
From S2P Require Import Prelude.
Local Open Scope string_scope.
Local Open Scope Z_scope.

Definition str_len (s : string) : Z := Z.of_nat (String.length s).
Definition is_empty (s : string) : bool := String.eqb s "".

Fixpoint rev_onto (s acc : string) : string :=
  match s with
  | EmptyString => acc
  | String a s' => rev_onto s' (String a acc)
  end.
Definition str_rev (s : string) : string := rev_onto s "".

(** ** White space

    [char::is_whitespace] is Unicode's White_Space property.  The UTF-8 encodings of its
    members are one byte (U+0009..U+000D, U+0020), two bytes (U+0085, U+00A0) or three
    bytes (U+1680, U+2000..U+200A, U+2028, U+2029, U+202F, U+205F, U+3000). *)
Definition byte_in (lo hi : nat) (a : ascii) : bool :=
  (lo <=? nat_of_ascii a)%nat && (nat_of_ascii a <=? hi)%nat.
Definition byte_is (n : nat) (a : ascii) : bool := (nat_of_ascii a =? n)%nat.

Definition ws1 (a : ascii) : bool := byte_in 9 13 a || byte_is 32 a.
Definition ws2 (a b : ascii) : bool :=
  byte_is 0xC2 a && (byte_is 0x85 b || byte_is 0xA0 b).
Definition ws3 (a b c : ascii) : bool :=
  (byte_is 0xE1 a && byte_is 0x9A b && byte_is 0x80 c)
  || (byte_is 0xE2 a && byte_is 0x80 b
      && (byte_in 0x80 0x8A c || byte_is 0xA8 c || byte_is 0xA9 c || byte_is 0xAF c))
  || (byte_is 0xE2 a && byte_is 0x81 b && byte_is 0x9F c)
  || (byte_is 0xE3 a && byte_is 0x80 b && byte_is 0x80 c).

Fixpoint trim_start (s : string) : string :=
  match s with
  | EmptyString => ""
  | String a s1 =>
      if ws1 a then trim_start s1 else
      match s1 with
      | EmptyString => s
      | String b s2 =>
          if ws2 a b then trim_start s2 else
          match s2 with
          | EmptyString => s
          | String c s3 => if ws3 a b c then trim_start s3 else s
          end
      end
  end.

(** [trim_start] on a reversed string: the bytes of a character come last first. *)
Fixpoint trim_start_rev (s : string) : string :=
  match s with
  | EmptyString => ""
  | String a s1 =>
      if ws1 a then trim_start_rev s1 else
      match s1 with
      | EmptyString => s
      | String b s2 =>
          if ws2 b a then trim_start_rev s2 else
          match s2 with
          | EmptyString => s
          | String c s3 => if ws3 c b a then trim_start_rev s3 else s
          end
      end
  end.

Definition trim_end (s : string) : string := str_rev (trim_start_rev (str_rev s)).
Definition trim (s : string) : string := trim_end (trim_start s).
Definition is_blank (s : string) : bool := is_empty (trim s).

(** ** ASCII case *)
Definition ascii_lower (a : ascii) : ascii :=
  if byte_in 65 90 a then ascii_of_nat (nat_of_ascii a + 32) else a.
Definition ascii_upper (a : ascii) : ascii :=
  if byte_in 97 122 a then ascii_of_nat (nat_of_ascii a - 32) else a.
Fixpoint str_map (f : ascii → ascii) (s : string) : string :=
  match s with EmptyString => "" | String a s' => String (f a) (str_map f s') end.
Definition to_ascii_lowercase : string → string := str_map ascii_lower.
Definition to_ascii_uppercase : string → string := str_map ascii_upper.

(** ** Splitting *)
Definition cons_head (a : ascii) (l : list string) : list string :=
  match l with [] => [String a ""] | x :: l' => String a x :: l' end.

(** [s.split(c)]: always at least one piece. *)
Fixpoint split_on (c : ascii) (s : string) : list string :=
  match s with
  | EmptyString => [""]
  | String a s' =>
      if Ascii.eqb a c then "" :: split_on c s' else cons_head a (split_on c s')
  end.

(** [s.split_once(c)]. *)
Fixpoint split_once (c : ascii) (s : string) : option (string * string) :=
  match s with
  | EmptyString => None
  | String a s' =>
      if Ascii.eqb a c then Some ("", s')
      else match split_once c s' with
           | Some (x, y) => Some (String a x, y)
           | None => None
           end
  end.

(** [s.split_whitespace()]: maximal runs of non-white-space characters. *)
Fixpoint split_ws_aux (s : string) : list string :=
  match s with
  | EmptyString => [""]
  | String a s1 =>
      if ws1 a then "" :: split_ws_aux s1 else
      match s1 with
      | EmptyString => cons_head a (split_ws_aux s1)
      | String b s2 =>
          if ws2 a b then "" :: split_ws_aux s2 else
          match s2 with
          | EmptyString => cons_head a (split_ws_aux s1)
          | String c s3 =>
              if ws3 a b c then "" :: split_ws_aux s3
              else cons_head a (split_ws_aux s1)
          end
      end
  end.
Definition split_whitespace (s : string) : list string :=
  base.filter (λ x, negb (is_empty x)) (split_ws_aux s).

(** [parts.join(sep)]. *)
Definition join (sep : string) (l : list string) : string := String.concat sep l.

Fixpoint str_forall (p : ascii → bool) (s : string) : bool :=
  match s with EmptyString => true | String a s' => p a && str_forall p s' end.
Definition contains_char (p : ascii → bool) (s : string) : bool :=
  negb (str_forall (λ a, negb (p a)) s).

(** ** Decimal integers *)
Definition is_ascii_digit (a : ascii) : bool := byte_in 48 57 a.
Definition digit_val (a : ascii) : Z := Z.of_nat (nat_of_ascii a) - 48.

Fixpoint digits_onto (acc : Z) (s : string) : Z :=
  match s with
  | EmptyString => acc
  | String a s' => digits_onto (10 * acc + digit_val a) s'
  end.

Definition parse_digits (s : string) : option Z :=
  if negb (is_empty s) && str_forall is_ascii_digit s then Some (digits_onto 0 s) else None.

Definition minus_byte : ascii := "-"%char.
Definition plus_byte : ascii := "+"%char.

(** [str::parse] for a signed ([lo < 0]) or unsigned ([lo = 0]) integer type of range
    [lo..=hi]: an optional sign (a minus sign only for signed types), at least one digit,
    and an out-of-range value is an error. *)
Definition parse_int (lo hi : Z) (s : string) : option Z :=
  let checked o :=
    match o with
    | Some z => if (lo <=? z) && (z <=? hi) then Some z else None
    | None => None
    end in
  match s with
  | EmptyString => None
  | String a s' =>
      if Ascii.eqb a plus_byte then checked (parse_digits s')
      else if Ascii.eqb a minus_byte then
        if lo <? 0 then checked (option_map Z.opp (parse_digits s')) else None
      else checked (parse_digits s)
  end.

Definition parse_i64 : string → option Z := parse_int i64_min i64_max.
Definition parse_u32 : string → option Z := parse_int 0 u32_max.
Definition parse_u64 : string → option Z := parse_int 0 u64_max.
(** [usize] on the 64-bit targets the broker is deployed on. *)
Definition parse_usize : string → option Z := parse_int 0 u64_max.

(** [format!("{z}")]. *)
Definition fmt_Z (z : Z) : string := NilZero.string_of_int (Z.to_int z).

Lemma parse_int_range lo hi s z : parse_int lo hi s = Some z → lo ≤ z ≤ hi.
Proof.
  unfold parse_int. intros H. split_cases;
    match goal with E : _ && _ = true |- _ => apply andb_prop in E as [?%Z.leb_le ?%Z.leb_le] end;
    lia.
Qed.

(** ** Byte order

    SQLite's BINARY collation: [memcmp] on the UTF-8 bytes. *)
Definition str_le (s t : string) : Prop := String.leb s t = true.
#[export] Instance str_le_dec s t : Decision (str_le s t).
Proof. unfold str_le. apply _. Defined.

Lemma ascii_compare_N a b : Ascii.compare a b = N.compare (N_of_ascii a) (N_of_ascii b).
Proof. reflexivity. Qed.

Lemma str_compare_refl s : String.compare s s = Eq.
Proof.
  induction s as [|a s IH]; [done|]. simpl. rewrite ascii_compare_N, N.compare_refl. done.
Qed.

Lemma str_compare_trans_lt s t u :
  String.compare s t = Lt → String.compare t u = Lt → String.compare s u = Lt.
Proof.
  revert t u. induction s as [|a s IH]; intros [|b t] [|c u]; simpl; try done.
  rewrite !ascii_compare_N.
  destruct (N.compare_spec (N_of_ascii a) (N_of_ascii b)) as [E1|E1|E1],
    (N.compare_spec (N_of_ascii b) (N_of_ascii c)) as [E2|E2|E2],
    (N.compare_spec (N_of_ascii a) (N_of_ascii c)) as [E3|E3|E3];
    try done; try (exfalso; lia); eauto.
Qed.

#[export] Instance str_le_total : Total str_le.
Proof. intros s t. apply String.leb_total. Qed.

#[export] Instance str_le_antisymm : AntiSymm (=) str_le.
Proof. intros s t. apply String.leb_antisym. Qed.

#[export] Instance str_le_trans : Transitive str_le.
Proof.
  intros s t u. unfold str_le, String.leb.
  destruct (String.compare s t) eqn:E1; [apply String.compare_eq_iff in E1 as ->; done| |done].
  destruct (String.compare t u) eqn:E2; [apply String.compare_eq_iff in E2 as <-; by rewrite E1| |done].
  by rewrite (str_compare_trans_lt _ _ _ E1 E2).
Qed.

#[export] Instance str_le_refl : Reflexive str_le.
Proof. intros s. unfold str_le, String.leb. by rewrite str_compare_refl. Qed.

Example trim_ex : trim "  a b  " = "a b".
Proof. reflexivity. Qed.
Example split_ex : split_whitespace " 0/20  7-19 * " = ["0/20"; "7-19"; "*"].
Proof. reflexivity. Qed.
Example parse_ex : parse_i64 "-42" = Some (-42) ∧ parse_u32 "-1" = None ∧ fmt_Z (-42) = "-42".
Proof. done. Qed.
