(* ===== verification/Query.v ===== *)
(** * ORDER BY and LIMIT

    The queries order rows by integer columns and break ties by a TEXT key (SQLite's BINARY
    collation).  A sort key is the list of the integer columns with the key; [order_by]
    sorts by it and [sql_limit] is LIMIT, where a negative bound means no bound. *)
From Stdlib Require Import Ascii String.
From S2P Require Import Prelude Text.
Local Open Scope Z_scope.

Definition Key : Type := list Z * string.

Fixpoint lex_lt (a b : list Z) : bool :=
  match a, b with
  | x :: a', y :: b' => (x <? y) || ((x =? y) && lex_lt a' b')
  | [], _ :: _ => true
  | _, [] => false
  end.
Definition key_le (a b : Key) : Prop :=
  lex_lt a.1 b.1 = true ∨ (a.1 = b.1 ∧ str_le a.2 b.2).
#[export] Instance key_le_dec a b : Decision (key_le a b).
Proof. unfold key_le. apply _. Defined.

Lemma lex_lt_trichotomy a b : lex_lt a b = true ∨ a = b ∨ lex_lt b a = true.
Proof.
  revert b. induction a as [|x a IH]; intros [|y b]; simpl; [by auto..|].
  destruct (Z.ltb_spec x y), (Z.eqb_spec x y), (Z.ltb_spec y x), (Z.eqb_spec y x);
    simpl; subst; try lia; try (by auto).
  destruct (IH b) as [?|[->|?]]; auto.
Qed.
Lemma lex_lt_trans a b c : lex_lt a b = true → lex_lt b c = true → lex_lt a c = true.
Proof.
  revert b c. induction a as [|x a IH]; intros [|y b] [|z c]; simpl; try done.
  rewrite !orb_true_iff, !andb_true_iff, !Z.ltb_lt, !Z.eqb_eq.
  intros [?|[-> ?]] [?|[-> ?]]; try (left; lia). right. eauto.
Qed.
Lemma lex_lt_irrefl a : lex_lt a a = false.
Proof. induction a as [|x a IH]; simpl; [done|]. by rewrite Z.ltb_irrefl, Z.eqb_refl. Qed.

#[export] Instance key_le_total : Total key_le.
Proof.
  intros [a s] [b t]. unfold key_le. simpl.
  destruct (lex_lt_trichotomy a b) as [?|[->|?]]; [auto| |auto].
  destruct (total str_le s t); auto.
Qed.
#[export] Instance key_le_trans : Transitive key_le.
Proof.
  intros [a s] [b t] [c u]. unfold key_le. simpl.
  intros [?|[-> ?]] [?|[-> ?]]; [left; by eapply lex_lt_trans|auto..|].
  right. split; [done|by etrans].
Qed.
#[export] Instance key_le_antisymm : AntiSymm (=) key_le.
Proof.
  intros [a s] [b t]. unfold key_le. simpl. intros [H1|[-> H1]] [H2|[H2 H3]]; subst.
  - pose proof (lex_lt_trans _ _ _ H1 H2). by rewrite lex_lt_irrefl in H.
  - by rewrite lex_lt_irrefl in H1.
  - by rewrite lex_lt_irrefl in H2.
  - f_equal. by apply (anti_symm str_le).
Qed.

Definition sql_limit {A} (n : Z) (l : list A) : list A :=
  if n <? 0 then l else take (Z.to_nat n) l.

Section OrderBy.
Context {A : Type} (key : A → Key).

Definition key_of_le (x y : A) : Prop := key_le (key x) (key y).
#[export] Instance key_of_le_dec x y : Decision (key_of_le x y).
Proof. unfold key_of_le. apply _. Defined.
#[export] Instance key_of_le_total : Total key_of_le.
Proof. intros x y. apply (total key_le). Qed.
#[export] Instance key_of_le_trans : Transitive key_of_le.
Proof. intros x y z. apply key_le_trans. Qed.

Definition order_by (l : list A) : list A := merge_sort key_of_le l.

Lemma elem_of_order_by x l : x ∈ order_by l ↔ x ∈ l.
Proof. unfold order_by. by rewrite merge_sort_Permutation. Qed.
Lemma length_order_by l : length (order_by l) = length l.
Proof. unfold order_by. by rewrite merge_sort_Permutation. Qed.

(** LIMIT 1 returns a least row, and a row whenever there is one. *)
Lemma head_order_by_least l x :
  head (order_by l) = Some x → x ∈ l ∧ ∀ y, y ∈ l → key_of_le x y.
Proof.
  intros Hh. split.
  - rewrite <-elem_of_order_by. destruct (order_by l); [done|]. simplify_eq/=. by left.
  - intros y Hy%elem_of_order_by. pose proof (StronglySorted_merge_sort key_of_le l) as Hs.
    fold (order_by l) in Hs. destruct (order_by l) as [|z l']; [done|]. simplify_eq/=.
    apply StronglySorted_inv in Hs as [_ Hall]. rewrite list.Forall_forall in Hall.
    apply elem_of_cons in Hy as [->|Hy]; [|by apply Hall].
    by destruct (total key_of_le x x).
Qed.
Lemma head_order_by_None l : head (order_by l) = None ↔ l = [].
Proof.
  split; [|by intros ->]. intros Hh. apply nil_length_inv. rewrite <-length_order_by.
  by destruct (order_by l).
Qed.

(** The rows LIMIT leaves out are not before those it returns. *)
Lemma limit_order_by n l x y :
  x ∈ sql_limit n (order_by l) → y ∈ l → y ∉ sql_limit n (order_by l) → key_of_le x y.
Proof.
  unfold sql_limit. intros Hx Hy Hny. rewrite <-elem_of_order_by in Hy.
  destruct (n <? 0); [done|]. set (k := Z.to_nat n) in *.
  pose proof (StronglySorted_merge_sort key_of_le l) as Hs. fold (order_by l) in Hs.
  rewrite <-(take_drop k (order_by l)) in Hs, Hy.
  apply elem_of_app in Hy as [Hy|Hy]; [done|].
  revert Hs Hx. generalize (take k (order_by l)). intros l1.
  induction l1 as [|z l1 IH]; simpl; intros Hs Hx; [by apply not_elem_of_nil in Hx|].
  apply StronglySorted_inv in Hs as [Hs Hall]. apply elem_of_cons in Hx as [->|Hx]; [|auto].
  rewrite list.Forall_forall in Hall. apply Hall, elem_of_app. by right.
Qed.
End OrderBy.

Lemma elem_of_sql_limit {A} n (l : list A) x : x ∈ sql_limit n l → x ∈ l.
Proof. unfold sql_limit. destruct (n <? 0); [done|]. apply subseteq_take. Qed.
Lemma length_sql_limit {A} n (l : list A) :
  0 ≤ n → Z.of_nat (length (sql_limit n l)) = Z.min n (Z.of_nat (length l)).
Proof.
  intros Hn. unfold sql_limit. destruct (Z.ltb_spec n 0); [lia|]. rewrite length_take. lia.
Qed.
Lemma sql_limit_sublist {A} n (l : list A) : sublist (sql_limit n l) l.
Proof. unfold sql_limit. destruct (n <? 0); [done|]. apply sublist_take. Qed.
