(* ===== verification/F64.v ===== *)
(** * Rust's [f64]

    IEEE 754 binary64 as the Standard Library's executable specification [spec_float] at
    precision 53 and maximal exponent 1024, round to nearest even.  The conversions and
    methods the broker uses ([as f64], [as i64], [as u32], [clamp], [round], comparison)
    are defined on it. *)
From Stdlib Require Import SpecFloat.
From S2P Require Import Prelude.
Local Open Scope Z_scope.

Abbreviation f64 := spec_float.

Definition fadd : f64 → f64 → f64 := SFadd 53 1024.
Definition fsub : f64 → f64 → f64 := SFsub 53 1024.
Definition fmul : f64 → f64 → f64 := SFmul 53 1024.
Definition fdiv : f64 → f64 → f64 := SFdiv 53 1024.
Definition fleb : f64 → f64 → bool := SFleb.
Definition fltb : f64 → f64 → bool := SFltb.
Definition is_nan (x : f64) : bool := match x with S754_nan => true | _ => false end.

(** [z as f64] for an integer [z]. *)
Definition f64_of_Z (z : Z) : f64 := binary_normalize 53 1024 z 0 false.
Definition f64_zero : f64 := S754_zero false.
Definition f64_one : f64 := f64_of_Z 1.

(** [f64::clamp]: a NaN receiver stays NaN. *)
Definition f64_clamp (x lo hi : f64) : f64 :=
  let x1 := if fltb x lo then lo else x in
  if fltb hi x1 then hi else x1.

(** [f64::round]: half-way cases away from zero. *)
Definition f64_round (x : f64) : f64 :=
  match x with
  | S754_finite s m e =>
      if 0 <=? e then x
      else
        let d := 2 ^ (- e) in
        let q := (2 * Z.pos m + d) / (2 * d) in
        binary_normalize 53 1024 (if s then - q else q) 0 s
  | _ => x
  end.

(** Truncation toward zero of a finite value. *)
Definition f64_trunc (s : bool) (m : positive) (e : Z) : Z :=
  let a := if 0 <=? e then Z.pos m * 2 ^ e else Z.pos m / 2 ^ (- e) in
  if s then - a else a.

(** [x as i64] and [x as u32]: truncating, saturating, NaN to 0. *)
Definition f64_as (lo hi : Z) (x : f64) : Z :=
  match x with
  | S754_nan => 0
  | S754_zero _ => 0
  | S754_infinity s => if s then lo else hi
  | S754_finite s m e => Z.max lo (Z.min hi (f64_trunc s m e))
  end.
Definition f64_as_i64 : f64 → Z := f64_as i64_min i64_max.
Definition f64_as_u32 : f64 → Z := f64_as 0 u32_max.

(** [(0.0..=1.0).contains(&x)]. *)
Definition in_unit (x : f64) : bool := fleb f64_zero x && fleb x f64_one.

Lemma f64_as_range lo hi x : lo ≤ 0 ≤ hi → lo ≤ f64_as lo hi x ≤ hi.
Proof. destruct x as [[]|[]| |[] m e]; simpl; lia. Qed.

Example f64_ex1 : f64_as_i64 (f64_round (fdiv (f64_of_Z 5) (f64_of_Z 2))) = 3.
Proof. reflexivity. Qed.
Example f64_ex2 : f64_as_i64 (f64_round (fdiv (f64_of_Z (-5)) (f64_of_Z 2))) = -3.
Proof. reflexivity. Qed.
