(* ===== verification/F64Spec.v ===== *)
(** * The values of floating-point computations

    The numbers that the executable [spec_float] operations of [F64] compute, for results
    that are not negative and far from the ends of the range: the value of a float as an
    integer multiple of the smallest one, and a bound on the error of each operation
    relative to its exact result. *)
From Stdlib Require Import SpecFloat.
From S2P Require Import Prelude F64.
Local Open Scope Z_scope.

(** ** Values *)

(** One, in multiples of the smallest positive float. *)
Definition unit_value : Z := 2 ^ 1074.
Definition normal (m e : Z) : Prop := 2 ^ 52 ≤ m < 2 ^ 53 ∧ -1074 ≤ e ≤ 971.
Definition valued (x : f64) (v : Z) : Prop :=
  match x with
  | S754_zero _ => v = 0
  | S754_finite false m e => normal (Z.pos m) e ∧ v = Z.pos m * 2 ^ (e + 1074)
  | _ => False
  end.

(** [v] is [x] up to [n] units in the last of 52 places. *)
Definition near (n v x : Z) : Prop := 2 ^ 52 * Z.abs (v - x) ≤ n * x.

Lemma unit_value_pos : 0 < unit_value.
Proof. by apply Z.pow_pos_nonneg. Qed.
Lemma pow2_pos n : 0 ≤ n → 0 < 2 ^ n.
Proof. intros. by apply Z.pow_pos_nonneg. Qed.

Lemma near_refl x : 0 ≤ x → near 0 x x.
Proof. unfold near. rewrite Z.sub_diag. simpl. lia. Qed.
Lemma near_trans a b v y x :
  0 ≤ a → 0 ≤ b → a * b ≤ 2 ^ 52 → 0 ≤ x → near a v y → near b y x → near (a + b + 1) v x.
Proof.
  unfold near. intros Ha Hb Hab Hx Hv Hy. set (K := 2 ^ 52) in *. assert (0 < K) by done.
  assert (K * (a * y) ≤ a * (K * x) + a * (b * x)) by nia.
  assert (a * (b * x) ≤ K * x) by nia.
  assert (K * (K * Z.abs (v - y)) ≤ K * (a * y)) by nia.
  assert (K * Z.abs (v - x) ≤ K * Z.abs (v - y) + K * Z.abs (y - x)) by lia. nia.
Qed.
Lemma near_scale n v x k : 0 ≤ k → near n v x → near n (v * k) (x * k).
Proof.
  unfold near. intros Hk H. rewrite <-Z.mul_sub_distr_r, Z.abs_mul, (Z.abs_eq k) by done. nia.
Qed.
Lemma near_unscale n v x k : 0 < k → near n (v * k) (x * k) → near n v x.
Proof.
  unfold near. intros Hk H. rewrite <-Z.mul_sub_distr_r, Z.abs_mul, (Z.abs_eq k) in H by lia. nia.
Qed.
Lemma near_add n v x y : 0 ≤ n → 0 ≤ y → near n v x → near n (v + y) (x + y).
Proof. unfold near. intros. replace (v + y - (x + y)) with (v - x) by lia. nia. Qed.
Lemma near_weaken n k v x : 0 ≤ x → n ≤ k → near n v x → near k v x.
Proof. unfold near. nia. Qed.
Lemma near_between lo ulp v x :
  lo ≤ v ≤ lo + ulp → lo ≤ x ≤ lo + ulp → 2 ^ 52 * ulp ≤ lo → near 1 v x.
Proof. unfold near. intros. assert (Z.abs (v - x) ≤ ulp) by lia. lia. Qed.

(** ** Digits, shifts and rounding *)
Lemma digits2_spec p : 2 ^ (Z.pos (digits2_pos p) - 1) ≤ Z.pos p < 2 ^ Z.pos (digits2_pos p).
Proof.
  induction p as [p IH|p IH|]; cbn [digits2_pos]; [| |done];
    rewrite Pos2Z.inj_succ; replace (Z.succ _ - 1) with (Z.succ (Z.pos (digits2_pos p) - 1)) by lia;
    rewrite !Z.pow_succ_r by lia; lia.
Qed.
Lemma digits2_unique p d : 0 < d → 2 ^ (d - 1) ≤ Z.pos p < 2 ^ d → Z.pos (digits2_pos p) = d.
Proof.
  intros Hd [H1 H2]. pose proof (digits2_spec p) as [H3 H4].
  assert (d - 1 < Z.pos (digits2_pos p)) by (apply (Z.pow_lt_mono_r_iff 2); lia).
  assert (Z.pos (digits2_pos p) - 1 < d) by (apply (Z.pow_lt_mono_r_iff 2); lia). lia.
Qed.
Lemma shr_1_div r : 0 ≤ shr_m r → shr_m (shr_1 r) = shr_m r / 2.
Proof.
  destruct r as [[|p|p] rr ss]; simpl; intros H; [done| |done]. destruct p; simpl; [| |done].
  - apply (Z.div_unique _ _ _ 1); lia.
  - apply (Z.div_unique _ _ _ 0); lia.
Qed.
Lemma iter_shr_div n r :
  0 ≤ shr_m r → shr_m (SpecFloat.iter_pos shr_1 n r) = shr_m r / 2 ^ Z.pos n.
Proof.
  revert r. induction n as [n IH|n IH|]; intros r Hr;
    try pose proof (pow2_pos (Z.pos n) ltac:(lia)); cbn [SpecFloat.iter_pos].
  - assert (0 ≤ shr_m (shr_1 r)) by (rewrite shr_1_div by done; by apply Z.div_pos).
    assert (0 ≤ shr_m (SpecFloat.iter_pos shr_1 n (shr_1 r))).
    { rewrite IH by done. apply Z.div_pos; [done|by apply pow2_pos]. }
    rewrite !IH, shr_1_div, !Z.div_div by (done || lia). f_equal.
    replace (Z.pos n~1) with (1 + Z.pos n + Z.pos n) by lia. rewrite !Z.pow_add_r by lia. lia.
  - assert (0 ≤ shr_m (SpecFloat.iter_pos shr_1 n r)).
    { rewrite IH by done. apply Z.div_pos; [done|by apply pow2_pos]. }
    rewrite !IH, !Z.div_div by (done || lia). f_equal.
    replace (Z.pos n~0) with (Z.pos n + Z.pos n) by lia. rewrite Z.pow_add_r by lia. lia.
  - by rewrite shr_1_div.
Qed.
Lemma record_of_loc_m m l : shr_m (shr_record_of_loc m l) = m.
Proof. by destruct l as [|[]]. Qed.
Lemma round_nearest_bounds m l : m ≤ round_nearest_even m l ≤ m + 1.
Proof. destruct l as [|[]]; simpl; try destruct (Z.even m); lia. Qed.

(** Dropping the digits beyond 53. *)
Lemma shr_fexp_div p e l d :
  Z.pos (digits2_pos p) = 53 + d → 0 ≤ d → -1074 ≤ e →
  shr_m (shr_fexp 53 1024 (Z.pos p) e l).1 = Z.pos p / 2 ^ d
  ∧ (shr_fexp 53 1024 (Z.pos p) e l).2 = e + d.
Proof.
  intros Hp Hd He. unfold shr_fexp, fexp, emin. cbn [Zdigits2]. rewrite Hp.
  replace (Z.max _ _ - e) with d by lia. destruct d as [|n|n]; [| |done]; simpl.
  - rewrite record_of_loc_m, Z.div_1_r. split; [done|lia].
  - by rewrite iter_shr_div, record_of_loc_m by (by rewrite record_of_loc_m).
Qed.

Lemma shr_fexp_normal p e l :
  normal (Z.pos p) e → shr_fexp 53 1024 (Z.pos p) e l = (shr_record_of_loc (Z.pos p) l, e).
Proof.
  intros [Hp He]. pose proof (digits2_unique p 53 ltac:(lia) ltac:(lia)) as Hd.
  unfold shr_fexp, fexp, emin. cbn [Zdigits2]. rewrite Hd.
  by replace (Z.max _ _ - e) with 0 by lia.
Qed.
(** The second normalization: a mantissa that was rounded up to 2^53 has one digit less. *)
Lemma settle_spec q e :
  2 ^ 52 ≤ Z.pos q ≤ 2 ^ 53 → -1074 ≤ e ≤ 970 →
  let '(r, e') := shr_fexp 53 1024 (Z.pos q) e loc_Exact in
  valued (match shr_m r with
          | Z0 => S754_zero false
          | Z.pos m => if e' <=? 1024 - 53 then S754_finite false m e' else S754_infinity false
          | Z.neg _ => S754_nan
          end) (Z.pos q * 2 ^ (e + 1074)).
Proof.
  intros Hq He. destruct (Z.eq_dec (Z.pos q) (2 ^ 53)) as [Eq|Nq].
  - pose proof (digits2_unique q 54 ltac:(lia) ltac:(lia)) as Hdq.
    pose proof (shr_fexp_div q e loc_Exact 1 ltac:(lia) ltac:(lia) ltac:(lia)) as [Hm He'].
    destruct (shr_fexp 53 1024 (Z.pos q) e loc_Exact) as [r e2]. simpl in Hm, He'.
    rewrite Eq in Hm. change (2 ^ 53 / 2 ^ 1) with (2 ^ 52) in Hm.
    destruct (shr_m r) as [|m|m]; try done. rewrite (proj2 (Z.leb_le _ _)) by lia. simpl.
    rewrite Hm, Eq, He'. split; [unfold normal; lia|].
    replace (e + 1 + 1074) with (Z.succ (e + 1074)) by lia. rewrite Z.pow_succ_r by lia. lia.
  - assert (normal (Z.pos q) e) as Hn by (unfold normal; lia). rewrite shr_fexp_normal by done.
    simpl. rewrite (proj2 (Z.leb_le _ _)) by lia. by split.
Qed.

(** Rounding a mantissa of at least 53 digits: the result lies in an interval of one unit
    in the last place that holds the exact value too. *)
Lemma round_aux_spec p e l :
  2 ^ 52 ≤ Z.pos p → -1074 ≤ e → Z.pos (digits2_pos p) + e ≤ 1000 →
  ∃ v lo ulp, valued (binary_round_aux 53 1024 false (Z.pos p) e l) v
    ∧ lo ≤ v ≤ lo + ulp ∧ lo ≤ Z.pos p * 2 ^ (e + 1074)
    ∧ (Z.pos p + 1) * 2 ^ (e + 1074) ≤ lo + ulp ∧ 2 ^ 52 * ulp ≤ lo ∧ 0 < ulp.
Proof.
  intros Hp He Hmax. pose proof (digits2_spec p) as [H1 H2].
  assert (52 < Z.pos (digits2_pos p)) as Hd by (apply (Z.pow_lt_mono_r_iff 2); lia).
  set (d := Z.pos (digits2_pos p) - 53) in *. assert (0 ≤ d) as Hd0 by lia.
  pose proof (shr_fexp_div p e l d ltac:(lia) Hd0 He) as [Hm1 He1].
  unfold binary_round_aux. destruct (shr_fexp 53 1024 (Z.pos p) e l) as [r1 e1]. simpl in Hm1, He1.
  pose proof (round_nearest_bounds (shr_m r1) (loc_of_shr_record r1)) as Hr.
  set (q := round_nearest_even (shr_m r1) (loc_of_shr_record r1)) in *. clearbody q.
  pose proof (pow2_pos d Hd0) as Hpd.
  assert (2 ^ (Z.pos (digits2_pos p) - 1) = 2 ^ 52 * 2 ^ d) as E1.
  { rewrite <-Z.pow_add_r by lia. f_equal. lia. }
  assert (2 ^ Z.pos (digits2_pos p) = 2 ^ 53 * 2 ^ d) as E2.
  { rewrite <-Z.pow_add_r by lia. f_equal. lia. }
  pose proof (Z.div_mod (Z.pos p) (2 ^ d) ltac:(lia)) as Hdm.
  pose proof (Z.mod_pos_bound (Z.pos p) (2 ^ d) Hpd) as Hmod.
  rewrite <-Hm1 in Hdm. assert (2 ^ 52 ≤ shr_m r1 < 2 ^ 53) as Hb by nia.
  exists (q * 2 ^ (e1 + 1074)), (shr_m r1 * 2 ^ (e1 + 1074)), (2 ^ (e1 + 1074)).
  pose proof (pow2_pos (e1 + 1074) ltac:(lia)) as Hu.
  assert (2 ^ (e1 + 1074) = 2 ^ d * 2 ^ (e + 1074)) as E3.
  { rewrite <-Z.pow_add_r by lia. f_equal. lia. }
  pose proof (pow2_pos (e + 1074) ltac:(lia)) as Hu0.
  split; [|split_and!; nia]. destruct q as [|q|q]; try lia.
  pose proof (settle_spec q e1 ltac:(lia) ltac:(lia)) as Hs.
  by destruct (shr_fexp 53 1024 (Z.pos q) e1 loc_Exact).
Qed.
Lemma round_aux_exact p e :
  normal (Z.pos p) e → binary_round_aux 53 1024 false (Z.pos p) e loc_Exact = S754_finite false p e.
Proof.
  intros Hn. unfold binary_round_aux. rewrite (shr_fexp_normal p e loc_Exact Hn). cbn -[Z.leb].
  rewrite (shr_fexp_normal p e loc_Exact Hn). cbn -[Z.leb].
  destruct Hn as [_ He]. by rewrite (proj2 (Z.leb_le _ _)) by lia.
Qed.

(** ** Operations *)

Lemma iter_double m n : Z.pos (Pos.iter xO m n) = Z.pos m * 2 ^ Z.pos n.
Proof.
  induction n as [|n IH] using Pos.peano_ind; [simpl; lia|].
  rewrite Pos.iter_succ, Pos2Z.inj_xO, IH, Pos2Z.inj_succ, Z.pow_succ_r by lia. lia.
Qed.
(** Aligning to a smaller exponent keeps the value. *)
Lemma shl_align_value m ex ez :
  ez ≤ ex → Z.pos (fst (shl_align m ex ez)) = Z.pos m * 2 ^ (ex - ez).
Proof.
  intros Hle. unfold shl_align. destruct (ez - ex) as [|d|d] eqn:E; simpl.
  - replace (ex - ez) with 0 by lia. lia.
  - lia.
  - replace (ex - ez) with (Z.pos d) by lia. apply iter_double.
Qed.

(** A number of at most 53 digits is represented exactly. *)
Lemma binary_round_exact p e :
  Z.pos (digits2_pos p) ≤ 53 → -1074 ≤ e → -1021 ≤ Z.pos (digits2_pos p) + e ≤ 1000 →
  valued (binary_round 53 1024 false p e) (Z.pos p * 2 ^ (e + 1074)).
Proof.
  intros Hd He Hr. unfold binary_round, fexp, emin. pose proof (digits2_spec p) as [H1 H2].
  set (d := Z.pos (digits2_pos p)) in *. replace (Z.max _ _) with (d + e - 53) by lia.
  pose proof (shl_align_value p e (d + e - 53) ltac:(lia)) as Ha.
  assert (shl_align p e (d + e - 53) = (fst (shl_align p e (d + e - 53)), d + e - 53)) as ->.
  { unfold shl_align. destruct (d + e - 53 - e) eqn:E; simpl; (f_equal; lia). }
  set (q := fst (shl_align p e (d + e - 53))) in *. clearbody q.
  replace (e - (d + e - 53)) with (53 - d) in Ha by lia.
  pose proof (pow2_pos (53 - d) ltac:(lia)) as Hs.
  assert (2 ^ 52 = 2 ^ (d - 1) * 2 ^ (53 - d)) as E1 by (rewrite <-Z.pow_add_r by lia; f_equal; lia).
  assert (2 ^ 53 = 2 ^ d * 2 ^ (53 - d)) as E2 by (rewrite <-Z.pow_add_r by lia; f_equal; lia).
  assert (normal (Z.pos q) (d + e - 53)) as Hn by (unfold normal; rewrite E1, E2, Ha; nia).
  rewrite round_aux_exact by done. split; [done|]. rewrite Ha, <-Z.mul_assoc. f_equal.
  rewrite <-Z.pow_add_r by lia. f_equal. lia.
Qed.

(** Rounding any other number makes a small relative error. *)
Lemma binary_normalize_near z e :
  0 < z → -1074 ≤ e → 2 ^ 53 ≤ z * 2 ^ (e + 1074) < 2 ^ 2000 →
  ∃ v, valued (binary_normalize 53 1024 z e false) v ∧ near 1 v (z * 2 ^ (e + 1074)).
Proof.
  intros Hz He [Hlo Hhi]. destruct z as [|p|p]; try lia. unfold binary_normalize.
  pose proof (digits2_spec p) as [H1 H2]. set (d := Z.pos (digits2_pos p)) in *.
  pose proof (pow2_pos (e + 1074) ltac:(lia)) as Hu.
  assert (52 < d + (e + 1074)) as Hd1.
  { apply (Z.pow_lt_mono_r_iff 2); [lia..|]. rewrite Z.pow_add_r by lia. nia. }
  assert (d - 1 + (e + 1074) < 2000) as Hd2.
  { apply (Z.pow_lt_mono_r_iff 2); [lia..|]. rewrite Z.pow_add_r by lia. nia. }
  destruct (Z_le_gt_dec d 53).
  { eexists. split; [apply binary_round_exact; fold d; lia|].
    apply (near_weaken 0); [lia..|apply near_refl; lia]. }
  unfold binary_round, fexp, emin. fold d. replace (Z.max _ _) with (d + e - 53) by lia.
  replace (shl_align p e (d + e - 53)) with (p, e).
  2:{ unfold shl_align. destruct (d + e - 53 - e) eqn:E; [done..|lia]. }
  assert (2 ^ 52 ≤ Z.pos p) by (etrans; [apply (Z.pow_le_mono_r 2 52 (d - 1)); lia|done]).
  destruct (round_aux_spec p e loc_Exact) as (v & lo & ulp & Hv & Hb & Hx1 & Hx2 & Hulp & Hpos);
    [done|lia|fold d; lia|].
  exists v. split; [exact Hv|]. apply (near_between lo ulp); [done|nia|lia].
Qed.

Lemma f64_of_Z_valued z : 0 ≤ z < 2 ^ 53 → valued (f64_of_Z z) (z * unit_value).
Proof.
  intros Hz. unfold f64_of_Z. destruct z as [|p|p]; [done| |lia]. unfold binary_normalize.
  pose proof (digits2_spec p) as [H1 _].
  assert (Z.pos (digits2_pos p) - 1 < 53) by (apply (Z.pow_lt_mono_r_iff 2); lia).
  apply (binary_round_exact p 0); lia.
Qed.

(** A value that is not zero is that of a normal float. *)
Lemma valued_cases x v :
  valued x v →
  (∃ s, x = S754_zero s ∧ v = 0)
  ∨ ∃ m e, x = S754_finite false m e ∧ normal (Z.pos m) e ∧ v = Z.pos m * 2 ^ (e + 1074) ∧ 2 ^ 52 ≤ v.
Proof.
  destruct x as [s|s| |[] m e]; simpl; try done; [left; eauto|]. intros [Hn ->]. right.
  exists m, e. split_and!; try done. destruct Hn as [Hm He].
  pose proof (pow2_pos (e + 1074) ltac:(lia)). nia.
Qed.
(** The exponent of a value in a range. *)
Lemma exponent_above m e k :
  normal (Z.pos m) e → 0 ≤ k → 2 ^ k ≤ Z.pos m * 2 ^ (e + 1074) → k - 53 < e + 1074.
Proof.
  intros [Hm He] Hk H. pose proof (pow2_pos (e + 1074) ltac:(lia)).
  assert (k < e + 1074 + 53); [|lia]. apply (Z.pow_lt_mono_r_iff 2); [lia..|].
  rewrite Z.pow_add_r by lia. nia.
Qed.
Lemma exponent_below m e k :
  normal (Z.pos m) e → 0 ≤ k → Z.pos m * 2 ^ (e + 1074) < 2 ^ k → e + 1074 < k - 52.
Proof.
  intros [Hm He] Hk H. pose proof (pow2_pos (e + 1074) ltac:(lia)).
  assert (e + 1074 + 52 < k); [|lia]. apply (Z.pow_lt_mono_r_iff 2); [lia..|].
  rewrite Z.pow_add_r by lia. nia.
Qed.

Lemma align_value m e ez :
  ez ≤ e → -1074 ≤ ez →
  Z.pos (fst (shl_align m e ez)) * 2 ^ (ez + 1074) = Z.pos m * 2 ^ (e + 1074).
Proof.
  intros. rewrite shl_align_value, <-Z.mul_assoc, <-Z.pow_add_r by lia. do 2 f_equal. lia.
Qed.

Lemma fadd_near x y vx vy :
  valued x vx → valued y vy → vx + vy < 2 ^ 2000 →
  ∃ v, valued (fadd x y) v ∧ near 1 v (vx + vy) ∧ (vx = 0 → v = vy).
Proof.
  intros Hx Hy Hmax.
  destruct (valued_cases x vx Hx) as [(s & -> & ->)|(m & e & -> & Hn & Ex & Hbx)].
  { exists vy. destruct (valued_cases y vy Hy) as [(s' & -> & ->)|(m' & e' & -> & _ & _ & Hb)].
    - split_and!; [by destruct s, s'|by apply (near_weaken 0), near_refl|done].
    - split_and!; [done| |done]. apply (near_weaken 0); [lia..|apply near_refl; lia]. }
  destruct (valued_cases y vy Hy) as [(s' & -> & ->)|(m' & e' & -> & Hn' & Ey & Hby)].
  { exists vx. split_and!; [done| |lia]. rewrite Z.add_0_r.
    apply (near_weaken 0); [lia..|apply near_refl; lia]. }
  unfold fadd, SFadd. cbn [cond_Zopp]. set (ez := Z.min e e').
  destruct Hn as [Hm He], Hn' as [Hm' He'].
  pose proof (align_value m e ez ltac:(lia) ltac:(lia)) as E1.
  pose proof (align_value m' e' ez ltac:(lia) ltac:(lia)) as E2.
  set (a := fst (shl_align m e ez)) in *. set (b := fst (shl_align m' e' ez)) in *.
  assert ((Z.pos a + Z.pos b) * 2 ^ (ez + 1074) = vx + vy) as E by lia. rewrite <-E.
  destruct (binary_normalize_near (Z.pos a + Z.pos b) ez) as (v & ? & ?); [lia..|].
  exists v. split_and!; [done|done|lia].
Qed.

Lemma fsub_near x y vx vy :
  valued x vx → valued y vy → vx < 2 ^ 2000 → 2 ^ 53 ≤ vx - vy →
  ∃ v, valued (fsub x y) v ∧ near 1 v (vx - vy).
Proof.
  intros Hx Hy Hmax Hmin.
  destruct (valued_cases y vy Hy) as [(s' & -> & ->)|(m' & e' & -> & Hn' & Ey & Hby)];
    (destruct (valued_cases x vx Hx) as [(s & -> & ->)|(m & e & -> & Hn & Ex & Hbx)]; [lia|]).
  { exists vx. split; [done|]. rewrite Z.sub_0_r. apply (near_weaken 0); [lia..|apply near_refl; lia]. }
  unfold fsub, SFsub. cbn [cond_Zopp]. set (ez := Z.min e e').
  destruct Hn as [Hm He], Hn' as [Hm' He'].
  pose proof (align_value m e ez ltac:(lia) ltac:(lia)) as E1.
  pose proof (align_value m' e' ez ltac:(lia) ltac:(lia)) as E2.
  set (a := fst (shl_align m e ez)) in *. set (b := fst (shl_align m' e' ez)) in *.
  assert ((Z.pos a - Z.pos b) * 2 ^ (ez + 1074) = vx - vy) as E by lia. rewrite <-E.
  pose proof (pow2_pos (ez + 1074) ltac:(lia)).
  apply binary_normalize_near; [nia|lia|lia].
Qed.

(** A value is of the order of one: a product or a quotient of such stays in range. *)
Definition ordinary (v : Z) : Prop := 2 ^ 900 ≤ v < 2 ^ 1300.

Lemma fmul_near x y vx vy :
  valued x vx → valued y vy → vx = 0 ∨ ordinary vx → ordinary vy →
  ∃ v, valued (fmul x y) v ∧ near 1 (v * unit_value) (vx * vy).
Proof.
  intros Hx Hy Hox Hoy.
  destruct (valued_cases y vy Hy) as [(s' & -> & ->)|(m' & e' & -> & Hn' & Ey & Hby)].
  { by destruct Hoy. }
  destruct (valued_cases x vx Hx) as [(s & -> & ->)|(m & e & -> & Hn & Ex & Hbx)].
  { exists 0. split; [done|]. by apply (near_weaken 0), near_refl. }
  destruct Hox as [->|Hox]; [done|]. unfold fmul, SFmul. simpl xorb.
  pose proof (exponent_above _ _ 900 Hn ltac:(lia) ltac:(rewrite <-Ex; apply Hox)).
  pose proof (exponent_below _ _ 1300 Hn ltac:(lia) ltac:(rewrite <-Ex; apply Hox)).
  pose proof (exponent_above _ _ 900 Hn' ltac:(lia) ltac:(rewrite <-Ey; apply Hoy)).
  pose proof (exponent_below _ _ 1300 Hn' ltac:(lia) ltac:(rewrite <-Ey; apply Hoy)).
  destruct Hn as [Hm He], Hn' as [Hm' He'].
  pose proof (digits2_spec (m * m')) as [Hd _].
  assert (Z.pos (digits2_pos (m * m')) - 1 < 106).
  { apply (Z.pow_lt_mono_r_iff 2); [lia..|]. change (2 ^ 106) with (2 ^ 53 * 2 ^ 53). nia. }
  destruct (round_aux_spec (m * m') (e + e') loc_Exact) as (v & lo & ulp & Hv & Hb & Hx1 & Hx2 & Hulp & _);
    [nia|lia|lia|].
  exists v. split; [exact Hv|]. unfold unit_value.
  assert (vx * vy = Z.pos (m * m') * 2 ^ (e + e' + 1074) * 2 ^ 1074) as ->.
  { rewrite Ex, Ey, Pos2Z.inj_mul.
    assert (2 ^ (e + 1074) * 2 ^ (e' + 1074) = 2 ^ (e + e' + 1074) * 2 ^ 1074) as Ep.
    { rewrite <-!Z.pow_add_r by lia. f_equal. lia. }
    rewrite <-!Z.mul_assoc, <-Ep. ring. }
  apply near_scale; [by apply Z.pow_nonneg|]. pose proof (pow2_pos (e + e' + 1074) ltac:(lia)).
  apply (near_between lo ulp); [done|lia|done].
Qed.

Lemma quotient_between p k q r t lo ulp u :
  p = k * q + r → 0 ≤ r < k → 0 < t → 0 < u → lo ≤ q * t → (q + 1) * t ≤ lo + ulp →
  lo * (k * u) ≤ p * (t * u) ≤ lo * (k * u) + ulp * (k * u).
Proof.
  intros -> Hr Ht Hu H1 H2.
  assert (k * lo ≤ k * (q * t)) by (apply Z.mul_le_mono_nonneg_l; lia).
  assert (k * ((q + 1) * t) ≤ k * (lo + ulp)) by (apply Z.mul_le_mono_nonneg_l; lia).
  assert (0 ≤ r * t ≤ k * t) by nia.
  assert (lo * k ≤ (k * q + r) * t ≤ lo * k + ulp * k) by lia.
  replace (lo * (k * u) + ulp * (k * u)) with ((lo * k + ulp * k) * u) by ring.
  rewrite !Z.mul_assoc. split; apply Z.mul_le_mono_nonneg_r; lia.
Qed.
Lemma fdiv_near x y vx vy :
  valued x vx → valued y vy → ordinary vx → ordinary vy →
  ∃ v, valued (fdiv x y) v ∧ near 1 (v * vy) (vx * unit_value).
Proof.
  intros Hx Hy Hox Hoy.
  destruct (valued_cases y vy Hy) as [(s' & -> & ->)|(m' & e' & -> & Hn' & Ey & Hby)].
  { by destruct Hoy. }
  destruct (valued_cases x vx Hx) as [(s & -> & ->)|(m & e & -> & Hn & Ex & Hbx)].
  { by destruct Hox. }
  pose proof (exponent_above _ _ 900 Hn ltac:(lia) ltac:(rewrite <-Ex; apply Hox)).
  pose proof (exponent_below _ _ 1300 Hn ltac:(lia) ltac:(rewrite <-Ex; apply Hox)).
  pose proof (exponent_above _ _ 900 Hn' ltac:(lia) ltac:(rewrite <-Ey; apply Hoy)).
  pose proof (exponent_below _ _ 1300 Hn' ltac:(lia) ltac:(rewrite <-Ey; apply Hoy)).
  destruct Hn as [Hm He], Hn' as [Hm' He'].
  pose proof (digits2_unique m 53 ltac:(lia) ltac:(lia)) as Hd.
  pose proof (digits2_unique m' 53 ltac:(lia) ltac:(lia)) as Hd'.
  unfold fdiv, SFdiv, SFdiv_core_binary, fexp, emin. simpl xorb. cbn [Zdigits2]. rewrite Hd, Hd'.
  replace (Z.min _ _) with (e - e' - 53) by lia. replace (e - e' - (e - e' - 53)) with 53 by lia.
  rewrite Z.shiftl_mul_pow2 by lia.
  pose proof (Z_div_mod (Z.pos m * 2 ^ 53) (Z.pos m') ltac:(lia)) as Hq.
  destruct (Z.div_eucl (Z.pos m * 2 ^ 53) (Z.pos m')) as [q r]. destruct Hq as [Hq Hr].
  assert (2 ^ 52 ≤ q < 2 ^ 54) as Hb by nia. destruct q as [|q|q]; try lia.
  pose proof (digits2_spec q) as [Hdq _].
  assert (Z.pos (digits2_pos q) - 1 < 54) by (apply (Z.pow_lt_mono_r_iff 2); lia).
  destruct (round_aux_spec q (e - e' - 53) (new_location (Z.pos m') r))
    as (v & lo & ulp & Hv & Hlo & Hx1 & Hx2 & Hulp & Hpos); [lia..|].
  exists v. split; [exact Hv|]. unfold unit_value.
  set (t := 2 ^ (e - e' - 53 + 1074)) in *.
  assert (vx * 2 ^ 1074 = Z.pos m * 2 ^ 53 * (t * 2 ^ (e' + 1074))) as Et.
  { unfold t. rewrite Ex, <-!Z.mul_assoc, <-!Z.pow_add_r by lia. do 2 f_equal. lia. }
  pose proof (pow2_pos (e' + 1074) ltac:(lia)) as Hu. set (u := 2 ^ (e' + 1074)) in *.
  assert (0 < t) as Ht by (apply pow2_pos; lia). rewrite Et, Ey.
  set (p := Z.pos m * 2 ^ 53) in *. set (k := Z.pos m') in *. clearbody p k t u.
  pose proof (quotient_between p k (Z.pos q) r t lo ulp u Hq Hr Ht Hu Hx1 Hx2) as [? ?].
  assert (0 < k * u) by (apply Z.mul_pos_pos; lia).
  apply (near_between (lo * (k * u)) (ulp * (k * u))); [|done|].
  - rewrite <-Z.mul_add_distr_r. split; apply Z.mul_le_mono_nonneg_r; lia.
  - rewrite Z.mul_assoc. apply Z.mul_le_mono_nonneg_r; lia.
Qed.

(** ** Comparison *)
Lemma smaller_exponent m e m' e' :
  normal (Z.pos m) e → normal (Z.pos m') e' → e < e' →
  Z.pos m * 2 ^ (e + 1074) < Z.pos m' * 2 ^ (e' + 1074).
Proof.
  intros [Hm He] [Hm' He'] Hlt. replace (e' + 1074) with (e + 1074 + (e' - e)) by lia.
  rewrite (Z.pow_add_r 2 (e + 1074)) by lia. pose proof (pow2_pos (e + 1074) ltac:(lia)).
  assert (2 ≤ 2 ^ (e' - e)) by (apply (Z.pow_le_mono_r 2 1); lia).
  assert (2 ^ 52 * 2 ≤ Z.pos m' * 2 ^ (e' - e)) by (apply Z.mul_le_mono_nonneg; lia).
  replace (Z.pos m' * _) with (Z.pos m' * 2 ^ (e' - e) * 2 ^ (e + 1074)) by ring.
  apply Z.mul_lt_mono_pos_r; lia.
Qed.
Lemma fcompare_valued x y vx vy :
  valued x vx → valued y vy → SFcompare x y = Some (vx ?= vy).
Proof.
  intros Hx Hy.
  destruct (valued_cases x vx Hx) as [(s & -> & ->)|(m & e & -> & Hn & Ex & Hbx)],
    (valued_cases y vy Hy) as [(s' & -> & ->)|(m' & e' & -> & Hn' & Ey & Hby)];
    cbn [SFcompare]; f_equal.
  - symmetry. apply Z.compare_lt_iff. lia.
  - symmetry. apply Z.compare_gt_iff. lia.
  - rewrite Ex, Ey. destruct (Z.compare_spec e e') as [->|Hlt|Hgt].
    + destruct Hn' as [_ ?].
      rewrite <-(Zmult_compare_compat_r _ _ (2 ^ (e' + 1074))); [done|apply Z.lt_gt, pow2_pos; lia].
    + symmetry. by apply Z.compare_lt_iff, smaller_exponent.
    + symmetry. by apply Z.compare_gt_iff, smaller_exponent.
Qed.
Lemma fleb_valued x y vx vy : valued x vx → valued y vy → fleb x y = (vx <=? vy).
Proof.
  intros Hx Hy. unfold fleb, SFleb. rewrite (fcompare_valued x y vx vy Hx Hy).
  unfold Z.leb. by destruct (vx ?= vy).
Qed.
Lemma fltb_valued x y vx vy : valued x vx → valued y vy → fltb x y = (vx <? vy).
Proof.
  intros Hx Hy. unfold fltb, SFltb. rewrite (fcompare_valued x y vx vy Hx Hy).
  unfold Z.ltb. by destruct (vx ?= vy).
Qed.
(** Clamping to the unit interval. *)
Lemma clamp_valued x v : valued x v → valued (f64_clamp x f64_zero f64_one) (Z.min v unit_value).
Proof.
  intros Hx. pose proof unit_value_pos as Hu.
  assert (valued f64_zero 0) as H0 by done.
  assert (valued f64_one unit_value) as H1.
  { unfold f64_one. rewrite <-(Z.mul_1_l unit_value). by apply f64_of_Z_valued. }
  assert (0 ≤ v) as Hv by (destruct (valued_cases x v Hx) as [(? & _ & ->)|(? & ? & _ & _ & _ & ?)]; lia).
  unfold f64_clamp. rewrite (fltb_valued x f64_zero v 0 Hx H0), (proj2 (Z.ltb_ge _ _)) by lia.
  rewrite (fltb_valued f64_one x unit_value v H1 Hx).
  destruct (Z.ltb_spec unit_value v); [by rewrite Z.min_r by lia|by rewrite Z.min_l by lia].
Qed.

(** The whole numbers, and what is near a value, are ordinary. *)
Lemma ordinary_range n v : 1 ≤ n ≤ 2 ^ 60 → unit_value ≤ n * v → v ≤ n * unit_value → ordinary v.
Proof.
  intros Hn H1 H2. assert (2 ^ 60 * 2 ^ 900 ≤ unit_value ∧ 2 ^ 60 * unit_value < 2 ^ 1300) as [Ha Hb].
  { by split; vm_compute. }
  pose proof unit_value_pos. split.
  - apply (Z.mul_le_mono_pos_l _ _ (2 ^ 60)); [done|]. assert (0 ≤ v) by nia.
    assert (n * v ≤ 2 ^ 60 * v) by (apply Z.mul_le_mono_nonneg_r; lia). lia.
  - assert (n * unit_value ≤ 2 ^ 60 * unit_value) by (apply Z.mul_le_mono_nonneg_r; lia). lia.
Qed.
Lemma near_bounds n v x : 0 ≤ x → n ≤ 2 ^ 51 → near n v x → x ≤ 2 * v ≤ 4 * x.
Proof. unfold near. nia. Qed.
