(* ===== verification/Scheduling.v ===== *)
(** * Backoff, jitter and cron (src/scheduling.rs)

    [retry_delay] and [apply_jitter] compute when a failed attempt is retried;
    [normalize_cron], [parse_cron], [resolve_tz], [validate_cron] and [next_cron_after]
    evaluate a scheduler's pattern.  The crates [croner] and [chrono-tz] are not part of
    the repository: the class [CronLib] is what the code calls of them. *)
From Stdlib Require Import Ascii String.
From S2P Require Import Prelude Text F64.
Local Open Scope string_scope.
Local Open Scope Z_scope.

(** ** Exponential backoff *)

(** [1_i64.checked_shl(n)]: [None] when the shift is at least the width. *)
Definition checked_shl_1 (n : Z) : option Z :=
  if n <? 64 then Some (wrap_i64 (Z.shiftl 1 n)) else None.

Definition retry_delay (base cap attempt : Z) : Z :=
  if base =? 0 then 0
  else
    let shift := Z.max 0 (attempt - 1) in
    let multiplier :=
      match checked_shl_1 shift with
      | Some v => if 0 <? v then v else i64_max
      | None => i64_max
      end in
    Z.min (i64_saturating_mul base multiplier) cap.

(** ** Jitter *)
Definition apply_jitter (delay : Z) (jitter rand_unit : f64) : Z :=
  if fleb jitter f64_zero || (delay <=? 0) then delay
  else
    let jitter := f64_clamp jitter f64_zero f64_one in
    let delay_f := f64_of_Z delay in
    let jittered :=
      f64_round (fadd (fmul (fsub f64_one jitter) delay_f)
                      (fmul (fmul jitter rand_unit) delay_f)) in
    Z.max 0 (Z.min delay (f64_as_i64 jittered)).

(** ** Cron patterns *)
Inductive SchedulerError :=
| InvalidCron (m : string)
| InvalidTimezone (m : string)
| Compute (m : string).

(** What the scheduler uses of [croner] and [chrono-tz]. *)
Class CronLib := {
  Cron : Type;
  Tz : Type;
  Tz_UTC : Tz;
  Tz_from_str : string → option Tz;
  Cron_from_str : string → result string Cron;
  (** [Utc.timestamp_millis_opt(ms).single()] succeeds *)
  timestamp_ok : Z → bool;
  (** [cron.find_next_occurrence(&at_local, false)], as epoch milliseconds *)
  find_next_occurrence : Cron → Tz → Z → result string Z;
}.

Definition bare_number (s : string) : bool :=
  negb (is_empty s) && str_forall is_ascii_digit s.

Definition normalize_step_component (part : string) (max : Z) : string :=
  match split_once "/"%char part with
  | Some (start, step) =>
      if bare_number start && bare_number step
      then start ++ "-" ++ fmt_Z max ++ "/" ++ step
      else part
  | None => part
  end.

Definition cron_maxes (n : nat) : option (list Z) :=
  match n with
  | 5%nat => Some [59; 23; 31; 12; 7]
  | 6%nat => Some [59; 59; 23; 31; 12; 7]
  | _ => None
  end.

Definition normalize_field (field : string) (max : Z) : string :=
  join "," ((λ part, normalize_step_component part max) <$> split_on ","%char field).

Definition normalize_cron (cron : string) : string :=
  let fields := split_whitespace cron in
  match cron_maxes (length fields) with
  | None => cron
  | Some maxes => join " " (zip_with normalize_field fields maxes)
  end.

Section Cron.
Context `{CronLib}.

Definition resolve_tz (tz : string) : result SchedulerError Tz :=
  let trimmed := trim tz in
  if is_empty trimmed then Ok Tz_UTC
  else match Tz_from_str trimmed with
       | Some z => Ok z
       | None => Err (InvalidTimezone tz)
       end.

Definition parse_cron (cron : string) : result SchedulerError Cron :=
  if is_blank cron then Err (InvalidCron "pattern is empty")
  else res_map_err InvalidCron (Cron_from_str (normalize_cron cron)).

Definition validate_cron (cron tz : string) : result SchedulerError unit :=
  match parse_cron cron with
  | Err e => Err e
  | Ok _ => match resolve_tz tz with Err e => Err e | Ok _ => Ok tt end
  end.

Definition next_cron_after (now_ms : Z) (cron tz : string) : result SchedulerError Z :=
  match parse_cron cron with
  | Err e => Err e
  | Ok c =>
      match resolve_tz tz with
      | Err e => Err e
      | Ok z =>
          if timestamp_ok now_ms
          then res_map_err Compute (find_next_occurrence c z now_ms)
          else Err (Compute ("invalid now_ms: " ++ fmt_Z now_ms))
      end
  end.

(** A validated pattern can only fail later for reasons of time, never of syntax. *)
Lemma validate_next cron tz now :
  validate_cron cron tz = Ok tt →
  match next_cron_after now cron tz with
  | Err (InvalidCron _) | Err (InvalidTimezone _) => False
  | _ => True
  end.
Proof.
  unfold validate_cron, next_cron_after. intros Hv.
  destruct (parse_cron cron); [|done]. destruct (resolve_tz tz); [|done].
  destruct (timestamp_ok now); [|done]. by destruct (find_next_occurrence _ _ _).
Qed.
End Cron.

(** ** Properties of the backoff *)
Lemma checked_shl_1_spec n :
  0 ≤ n → checked_shl_1 n = (if n <? 63 then Some (2 ^ n) else
                             if n <? 64 then Some i64_min else None).
Proof.
  intros Hn. unfold checked_shl_1. rewrite Z.shiftl_1_l.
  destruct (Z.ltb_spec n 64) as [H64|H64], (Z.ltb_spec n 63) as [H63|H63]; try lia; try done.
  - f_equal. apply wrap_i64_id. unfold in_i64, i64_min, i64_max.
    pose proof (Z.pow_lt_mono_r 2 n 63 ltac:(lia) ltac:(lia) H63).
    pose proof (Z.pow_nonneg 2 n). lia.
  - replace n with 63 by lia. reflexivity.
Qed.

(** The multiplier the code computes, against the mathematical power of two. *)
Definition backoff_spec (base cap attempt : Z) : Z :=
  Z.min (base * 2 ^ Z.max 0 (attempt - 1)) cap.

Lemma retry_delay_exact base cap attempt :
  0 ≤ base ≤ cap → cap ≤ i64_max → retry_delay base cap attempt = backoff_spec base cap attempt.
Proof.
  intros Hb Hc. unfold retry_delay, backoff_spec.
  destruct (Z.eqb_spec base 0) as [->|Hb0]; [lia|].
  set (n := Z.max 0 (attempt - 1)). assert (0 ≤ n) as Hn by lia.
  rewrite checked_shl_1_spec by done.
  destruct (Z.ltb_spec n 63) as [H63|H63].
  - pose proof (Z.pow_pos_nonneg 2 n ltac:(lia) Hn).
    rewrite (proj2 (Z.ltb_lt _ _)) by lia.
    unfold i64_saturating_mul, sat_i64, i64_min in *. nia.
  - assert (2 ^ 63 ≤ 2 ^ n) by (apply Z.pow_le_mono_r; lia).
    assert (cap ≤ base * 2 ^ n) by (unfold i64_max in *; nia).
    assert (i64_saturating_mul base i64_max = i64_max) as Hs.
    { unfold i64_saturating_mul, sat_i64, i64_min, i64_max in *. nia. }
    destruct (Z.ltb_spec n 64); simpl; rewrite Hs; lia.
Qed.

Lemma apply_jitter_range delay jitter r :
  0 ≤ delay → 0 ≤ apply_jitter delay jitter r ≤ delay.
Proof. intros Hd. unfold apply_jitter. destruct (_ || _); lia. Qed.

Lemma retry_delay_range base cap attempt :
  0 ≤ base ≤ cap → 0 ≤ retry_delay base cap attempt ≤ cap.
Proof.
  intros Hb. unfold retry_delay. destruct (Z.eqb_spec base 0); [lia|].
  set (m := match checked_shl_1 _ with Some _ => _ | None => _ end).
  assert (0 ≤ m).
  { unfold m, i64_max. destruct (checked_shl_1 _); [destruct (Z.ltb_spec 0 z)|]; lia. }
  unfold i64_saturating_mul, sat_i64, i64_min, i64_max. nia.
Qed.

(** C10: the delay before a retry is exactly base * 2^(attempt - 1) capped at the configured
    maximum, in spite of the shift and the multiplication saturating at 64 bits; it never
    decreases from one attempt to the next. *)
Theorem backoff_doubles base cap attempt :
  0 ≤ base ≤ cap → cap ≤ i64_max → 1 ≤ attempt →
  retry_delay base cap attempt = Z.min (base * 2 ^ (attempt - 1)) cap
  ∧ retry_delay base cap attempt ≤ retry_delay base cap (attempt + 1) ≤ cap.
Proof.
  intros Hb Hc Ha. rewrite !retry_delay_exact by done. unfold backoff_spec.
  replace (Z.max 0 (attempt - 1)) with (attempt - 1) by lia.
  replace (Z.max 0 (attempt + 1 - 1)) with (Z.succ (attempt - 1)) by lia.
  rewrite Z.pow_succ_r by lia. pose proof (Z.pow_nonneg 2 (attempt - 1)). nia.
Qed.
