(* ===== verification/Db.v ===== *)
(** * The embedded database (src/db.rs, schema of run_migrations)

    One record per table row and a record [Db] of the tables.  A table with a TEXT primary
    key is a [gmap] from that key, so the key column is not repeated in the row; columns
    declared without NOT NULL are options.  Every value of a column was bound from a Rust
    value of the column's type, so the integer columns are [Z] and reading one back at its
    type succeeds.  [enqueue_rejections] has an AUTOINCREMENT key: the rows are keyed by it
    and the table remembers the largest key ever used. *)
From Stdlib Require Import Ascii String.
From Stdlib Require Import Strings.Byte.
From S2P Require Import Prelude Text F64.
Local Open Scope string_scope.
Local Open Scope Z_scope.

Abbreviation bytes := (list byte).
#[export] Instance byte_eq_decision : EqDecision byte := byte_eq_dec.

(** ** Lifecycle states

    The [state] column of [jobs] and [job_history]. *)
Inductive JobState := Waiting | Delayed | Active | WaitingChildren | Completed | Failed.
#[export] Instance JobState_eq_dec : EqDecision JobState.
Proof. solve_decision. Defined.

Definition state_name (s : JobState) : string :=
  match s with
  | Waiting => "Waiting" | Delayed => "Delayed" | Active => "Active"
  | WaitingChildren => "WaitingChildren" | Completed => "Completed" | Failed => "Failed"
  end.

Definition is_state (s : JobState) (t : JobState) : bool := bool_decide (s = t).
(** [state IN ('Waiting', 'Delayed')] *)
Definition runnable (s : JobState) : bool :=
  match s with Waiting | Delayed => true | _ => false end.

(** ** Rows *)
Record Job := mkJob {
  j_name : string;
  j_state : JobState;
  j_priority : Z;
  j_payload : bytes;
  j_parent_id : option string;
  j_trace_id : string;
  j_execution_depth : Z;
  j_attempts : Z;
  j_max_attempts : Z;
  j_created_at : Z;
  j_updated_at : Z;
  j_rate_limit_facet : option string;
  j_worker_id : option string;
  j_last_error : option string;
  j_lease_expires_at_ms : option Z;
  j_available_at : option Z;
  j_retry_backoff_ms : Z;
  j_retry_backoff_max_ms : Z;
  j_retry_jitter : f64;
  j_pending_children : Z;
  j_fail_parent_on_failure : bool;
  j_tree_id : option string;
  j_tree_depth : Z;
}.
#[export] Instance Job_eta : Eta Job := λ r,
  mkJob (j_name r) (j_state r) (j_priority r) (j_payload r) (j_parent_id r) (j_trace_id r)
    (j_execution_depth r) (j_attempts r) (j_max_attempts r) (j_created_at r) (j_updated_at r)
    (j_rate_limit_facet r) (j_worker_id r) (j_last_error r) (j_lease_expires_at_ms r)
    (j_available_at r) (j_retry_backoff_ms r) (j_retry_backoff_max_ms r) (j_retry_jitter r)
    (j_pending_children r) (j_fail_parent_on_failure r) (j_tree_id r) (j_tree_depth r).

Record HistRow := mkHist {
  h_name : string;
  h_state : JobState;
  h_priority : Z;
  h_payload : bytes;
  h_parent_id : option string;
  h_trace_id : string;
  h_execution_depth : Z;
  h_attempts : Z;
  h_max_attempts : Z;
  h_created_at : Z;
  h_finished_at : Z;
  h_result : option bytes;
  h_worker_id : option string;
  h_last_error : option string;
  h_rate_limit_facet : option string;
  h_fail_parent_on_failure : bool;
  h_tree_id : option string;
  h_tree_depth : Z;
}.

(** [rate_limit_rules] and [ingress_limit_rules] *)
Record Rule := mkRule { r_max_jobs : Z; r_window_duration_ms : Z }.
Record RateCounter := mkRateCounter { c_current_count : Z; c_window_expires_at : Z }.

(** [ingress_limit_counters], the [Bucket] of src/ingress_limit.rs *)
Record Bucket := mkBucket { b_start : Z; b_current : Z; b_previous : Z }.

Record Receipt := mkReceipt {
  rc_request : bytes;
  rc_job_id : string;
  rc_initial_state : JobState;
  rc_created_at : Z;
  rc_release_on_finish : bool;
}.

Record ChainCounter := mkChain { cc_job_count : Z; cc_updated_at : Z }.
Record FacetRow := mkFacet { fd_last_served_seq : Z; fd_last_served_at : Z }.

Record RejRow := mkRej {
  rj_rejected_at : Z;
  rj_kind : string;
  rj_name : string;
  rj_trace_id : option string;
  rj_parent_id : option string;
  rj_execution_depth : option Z;
  rj_rate_limit_facet : option string;
  rj_detail : string;
}.

Record JobSchedulerRow := mkSched {
  s_job_name : string;
  s_payload : bytes;
  s_cron : string;
  s_timezone : option string;
  s_produced_count : Z;
  s_next_run_at : option Z;
  s_last_job_id : option string;
  s_priority : option Z;
  s_max_attempts : option Z;
  s_retry_backoff_ms : option Z;
  s_retry_backoff_max_ms : option Z;
  s_retry_jitter : option f64;
  s_rate_limit_facet : option string;
  s_created_at : Z;
  s_updated_at : Z;
}.
#[export] Instance Sched_eta : Eta JobSchedulerRow := λ r,
  mkSched (s_job_name r) (s_payload r) (s_cron r) (s_timezone r) (s_produced_count r)
    (s_next_run_at r) (s_last_job_id r) (s_priority r) (s_max_attempts r)
    (s_retry_backoff_ms r) (s_retry_backoff_max_ms r) (s_retry_jitter r)
    (s_rate_limit_facet r) (s_created_at r) (s_updated_at r).

(** ** The database *)
Record Db := mkDb {
  jobs : gmap string Job;
  job_history : gmap string HistRow;
  rate_limit_rules : gmap string Rule;
  rate_limit_counters : gmap string RateCounter;
  ingress_limit_rules : gmap string Rule;
  ingress_limit_counters : gmap string Bucket;
  enqueue_receipts : gmap (string * string) Receipt;
  chain_counters : gmap string ChainCounter;
  facet_dispatch : gmap string FacetRow;
  enqueue_rejections : gmap Z RejRow;
  rejections_seq : Z;
  job_schedulers : gmap string JobSchedulerRow;
}.
#[export] Instance Db_eta : Eta Db := λ r,
  mkDb (jobs r) (job_history r) (rate_limit_rules r) (rate_limit_counters r)
    (ingress_limit_rules r) (ingress_limit_counters r) (enqueue_receipts r)
    (chain_counters r) (facet_dispatch r) (enqueue_rejections r) (rejections_seq r)
    (job_schedulers r).

Definition empty_db : Db := mkDb ∅ ∅ ∅ ∅ ∅ ∅ ∅ ∅ ∅ ∅ 0 ∅.

(** ** Data migrations

    The two UPDATE statements of [run_migrations] that touch rows: an Active job without a
    lease is due for recovery at once, and a job that is not Delayed is available from its
    creation. *)
Definition migrate_lease (j : Job) : Job :=
  if bool_decide (j_state j = Active ∧ j_lease_expires_at_ms j = None)
  then j <| j_lease_expires_at_ms := Some 0 |> else j.
Definition migrate_available (j : Job) : Job :=
  if bool_decide (j_available_at j = None ∧ j_state j ≠ Delayed)
  then j <| j_available_at := Some (j_created_at j) |> else j.
Definition migrate (d : Db) : Db :=
  d <| jobs ::= fmap (λ j, migrate_available (migrate_lease j)) |>.

(** ** SQL failures *)
Inductive SqlError := SqlFailure (msg : string).
Abbreviation SqlResult := (result SqlError).

Definition unique_violation (what : string) : SqlError :=
  SqlFailure ("UNIQUE constraint failed: " ++ what).

(** [INSERT INTO t (key, ...) VALUES ...] on a table with a primary key. *)
Definition insert_new {K A} `{Countable K} (what : string) (k : K) (a : A) (m : gmap K A)
  : SqlResult (gmap K A) :=
  match m !! k with
  | Some _ => Err (unique_violation what)
  | None => Ok (<[k := a]> m)
  end.

Lemma insert_new_Ok {K A} `{Countable K} what (k : K) (a : A) m m' :
  insert_new what k a m = Ok m' ↔ m !! k = None ∧ m' = <[k := a]> m.
Proof. unfold insert_new. destruct (m !! k); naive_solver. Qed.

(** ** Statements shared by several handlers *)

(** [INSERT INTO jobs ...] *)
Definition insert_job (id : string) (j : Job) (d : Db) : SqlResult Db :=
  match insert_new "jobs.id" id j (jobs d) with
  | Ok m => Ok (d <| jobs := m |>)
  | Err e => Err e
  end.

(** [INSERT INTO job_history ...] *)
Definition insert_history (id : string) (h : HistRow) (d : Db) : SqlResult Db :=
  match insert_new "job_history.id" id h (job_history d) with
  | Ok m => Ok (d <| job_history := m |>)
  | Err e => Err e
  end.

(** [INSERT INTO enqueue_receipts ...] *)
Definition insert_receipt (q k : string) (r : Receipt) (d : Db) : SqlResult Db :=
  match insert_new "enqueue_receipts.queue_name, enqueue_receipts.idempotency_key"
          (q, k) r (enqueue_receipts d) with
  | Ok m => Ok (d <| enqueue_receipts := m |>)
  | Err e => Err e
  end.

(** [UPDATE jobs SET ... WHERE id = ?]: no row, no change. *)
Definition update_job (f : Job → Job) (id : string) (d : Db) : Db :=
  d <| jobs ::= alter f id |>.

(** [DELETE FROM jobs WHERE id = ?] *)
Definition delete_job (id : string) (d : Db) : Db := d <| jobs ::= delete id |>.

(** [DELETE FROM enqueue_receipts WHERE job_id = ? AND release_on_finish = 1], with the
    number of rows deleted. *)
Definition released_by (id : string) (k : string * string) (r : Receipt) : bool :=
  String.eqb (rc_job_id r) id && rc_release_on_finish r.
Definition release_receipts (id : string) (d : Db) : nat * Db :=
  let ks := (rows_where (released_by id) (enqueue_receipts d)).*1 in
  (length ks, d <| enqueue_receipts ::= delete_keys ks |>).

Lemma insert_job_Ok id j d d' :
  insert_job id j d = Ok d' ↔ jobs d !! id = None ∧ d' = d <| jobs := <[id := j]> (jobs d) |>.
Proof.
  unfold insert_job. destruct (insert_new _ id j (jobs d)) eqn:E.
  - apply insert_new_Ok in E as [? ->]. naive_solver.
  - unfold insert_new in E. destruct (jobs d !! id); naive_solver.
Qed.

Lemma insert_history_Ok id h d d' :
  insert_history id h d = Ok d' ↔
  job_history d !! id = None ∧ d' = d <| job_history := <[id := h]> (job_history d) |>.
Proof.
  unfold insert_history. destruct (insert_new _ id h (job_history d)) eqn:E.
  - apply insert_new_Ok in E as [? ->]. naive_solver.
  - unfold insert_new in E. destruct (job_history d !! id); naive_solver.
Qed.

Lemma insert_receipt_Ok q k r d d' :
  insert_receipt q k r d = Ok d' ↔
  enqueue_receipts d !! (q, k) = None
  ∧ d' = d <| enqueue_receipts := <[(q, k) := r]> (enqueue_receipts d) |>.
Proof.
  unfold insert_receipt. destruct (insert_new _ (q, k) r (enqueue_receipts d)) eqn:E.
  - apply insert_new_Ok in E as [? ->]. naive_solver.
  - unfold insert_new in E. destruct (enqueue_receipts d !! (q, k)); naive_solver.
Qed.

(** What is left of the receipts after releasing those of a finished job. *)
Lemma lookup_release_receipts id d k :
  enqueue_receipts (release_receipts id d).2 !! k =
  match enqueue_receipts d !! k with
  | Some r => if released_by id k r then None else Some r
  | None => None
  end.
Proof.
  unfold release_receipts. simpl. rewrite lookup_delete_keys. case_decide as Hin.
  - apply list_elem_of_fmap in Hin as ([k' r] & -> & Hr). simpl.
    apply elem_of_rows_where in Hr as [-> ->]. done.
  - destruct (enqueue_receipts d !! k) as [r|] eqn:E; [|done].
    destruct (released_by id k r) eqn:Er; [|done].
    exfalso. apply Hin, list_elem_of_fmap. exists (k, r). split; [done|].
    by apply elem_of_rows_where.
Qed.
