(* ===== verification/Encoding.v ===== *)
(** * Encodings of the read side

    The text encodings of src/telemetry.rs and src/fts.rs, each beside the reader it is
    written for: [base64_encode] with an RFC 4648 decoder, [escape_like] with SQLite's LIKE
    under ESCAPE, [sanitize_match] with the quoted-string fragment of the FTS5 query
    language, [escape_label] with the label syntax of the Prometheus text format.  SQLite
    reads a LIKE pattern and an FTS5 query as C strings, up to the first NUL byte
    ([c_str]). *)
From Stdlib Require Import Ascii String.
From Stdlib Require Import Strings.Byte.
From S2P Require Import Prelude Text Db.
Local Open Scope string_scope.
Local Open Scope Z_scope.
#[local] Arguments String.append !_ _ / : simpl nomatch.

Definition nul : ascii := ascii_of_nat 0.
Definition newline : ascii := ascii_of_nat 10.
Definition quote : ascii := ascii_of_nat 34.
Definition backslash : ascii := ascii_of_nat 92.
Definition star : ascii := "*"%char.

(** [s.replace(c, t)] *)
Fixpoint replace_char (c : ascii) (t : string) (s : string) : string :=
  match s with
  | EmptyString => ""
  | String a s' =>
      if Ascii.eqb a c then t ++ replace_char c t s' else String a (replace_char c t s')
  end.

(** [s.trim_end_matches(c)] *)
Fixpoint trim_end_matches (c : ascii) (s : string) : string :=
  match s with
  | EmptyString => ""
  | String a s' =>
      let r := trim_end_matches c s' in
      if is_empty r && Ascii.eqb a c then "" else String a r
  end.

Fixpoint c_str (s : string) : string :=
  match s with
  | EmptyString => ""
  | String a s' => if Ascii.eqb a nul then "" else String a (c_str s')
  end.
Definition nul_free (s : string) : bool := str_forall (λ a, negb (Ascii.eqb a nul)) s.

(** ** Strings *)
Lemma str_app_nil_r s : s ++ "" = s.
Proof. induction s as [|a s IH]; simpl; congruence. Qed.
Lemma str_app_assoc s t u : (s ++ t) ++ u = s ++ (t ++ u).
Proof. induction s as [|a s IH]; simpl; congruence. Qed.
Lemma str_forall_app p s t : str_forall p (s ++ t) = str_forall p s && str_forall p t.
Proof. induction s as [|a s IH]; simpl; [done|]. by rewrite IH, andb_assoc. Qed.
Lemma str_length_app s t :
  String.length (s ++ t) = (String.length s + String.length t)%nat.
Proof. induction s as [|a s IH]; simpl; congruence. Qed.
Lemma c_str_id s : nul_free s = true → c_str s = s.
Proof.
  unfold nul_free. induction s as [|a s IH]; simpl; [done|].
  intros [Ha Hs]%andb_prop. apply negb_true_iff in Ha. rewrite Ha, IH; done.
Qed.

(** ** Base64 *)
Definition ALPHABET : string :=
  "ABCDEFGHIJKLMNOPQRSTUVWXYZabcdefghijklmnopqrstuvwxyz0123456789+/".
Definition pad : ascii := "="%char.

Definition byte_val (b : byte) : Z := Z.of_N (Byte.to_N b).

(** [ALPHABET[i]]; the index is masked to six bits, so it is in range. *)
Definition alphabet_at (i : Z) : ascii :=
  match String.get (Z.to_nat i) ALPHABET with Some a => a | None => pad end.

(** One chunk of up to three bytes. *)
Definition base64_chunk (c0 : byte) (c1 c2 : option byte) (rest : string) : string :=
  let b0 := byte_val c0 in
  let b1 := default 0 (byte_val <$> c1) in
  let b2 := default 0 (byte_val <$> c2) in
  let n := Z.lor (Z.lor (Z.shiftl b0 16) (Z.shiftl b1 8)) b2 in
  String (alphabet_at (Z.land (Z.shiftr n 18) 63))
    (String (alphabet_at (Z.land (Z.shiftr n 12) 63))
       (String (if c1 is Some _ then alphabet_at (Z.land (Z.shiftr n 6) 63) else pad)
          (String (if c2 is Some _ then alphabet_at (Z.land n 63) else pad) rest))).

Fixpoint base64_encode (input : bytes) : string :=
  match input with
  | [] => ""
  | [a] => base64_chunk a None None ""
  | [a; b] => base64_chunk a (Some b) None ""
  | a :: b :: c :: rest => base64_chunk a (Some b) (Some c) (base64_encode rest)
  end.

(** The decoder of RFC 4648, section 4: groups of four characters of the alphabet, padding
    only at the end and unused bits zero. *)
Fixpoint index_in (a : ascii) (s : string) : option Z :=
  match s with
  | EmptyString => None
  | String b s' => if Ascii.eqb a b then Some 0 else Z.succ <$> index_in a s'
  end.
Definition sextet (a : ascii) : option Z := index_in a ALPHABET.
Definition byte_of (z : Z) : option byte := Byte.of_N (Z.to_N z).

Definition decode1 (a b : ascii) : option bytes :=
  s0 ← sextet a; s1 ← sextet b;
  if s1 mod 16 =? 0 then x ← byte_of (s0 * 4 + s1 / 16); Some [x] else None.
Definition decode2 (a b c : ascii) : option bytes :=
  s0 ← sextet a; s1 ← sextet b; s2 ← sextet c;
  if s2 mod 4 =? 0 then
    x ← byte_of (s0 * 4 + s1 / 16); y ← byte_of (s1 mod 16 * 16 + s2 / 4); Some [x; y]
  else None.
Definition decode3 (a b c d : ascii) : option bytes :=
  s0 ← sextet a; s1 ← sextet b; s2 ← sextet c; s3 ← sextet d;
  x ← byte_of (s0 * 4 + s1 / 16); y ← byte_of (s1 mod 16 * 16 + s2 / 4);
  z ← byte_of (s2 mod 4 * 64 + s3); Some [x; y; z].

Fixpoint base64_decode (s : string) : option bytes :=
  match s with
  | EmptyString => Some []
  | String a (String b (String c (String d rest))) =>
      if Ascii.eqb d pad then
        if negb (is_empty rest) then None
        else if Ascii.eqb c pad then decode1 a b else decode2 a b c
      else x ← decode3 a b c d; y ← base64_decode rest; Some (x ++ y)%list
  | _ => None
  end.

Lemma lor_shiftl_add a b k :
  0 ≤ k → 0 ≤ b < 2 ^ k → Z.lor (Z.shiftl a k) b = a * 2 ^ k + b.
Proof.
  intros Hk Hb. pose proof (Z.add_lor_land (Z.shiftl a k) b) as H.
  rewrite Z.shiftl_mul_pow2 in * by done.
  assert (Z.land (a * 2 ^ k) b = 0) as Hz; [|lia].
  apply Z.bits_inj'. intros n Hn. rewrite Z.land_spec, Z.bits_0.
  destruct (Z.lt_ge_cases n k).
  - rewrite Z.mul_pow2_bits_low; done.
  - rewrite <-(Z.mod_small b (2 ^ k)), Z.mod_pow2_bits_high, andb_false_r by lia. done.
Qed.

Lemma byte_val_range b : 0 ≤ byte_val b < 256.
Proof. unfold byte_val. pose proof (Byte.to_N_bounded b). lia. Qed.
Lemma byte_of_val b : byte_of (byte_val b) = Some b.
Proof. unfold byte_of, byte_val. rewrite N2Z.id. apply Byte.of_to_N. Qed.

Lemma pack_bytes b0 b1 b2 :
  0 ≤ b0 < 256 → 0 ≤ b1 < 256 → 0 ≤ b2 < 256 →
  Z.lor (Z.lor (Z.shiftl b0 16) (Z.shiftl b1 8)) b2 = b0 * 65536 + b1 * 256 + b2.
Proof.
  intros H0 H1 H2.
  rewrite (Z.shiftl_mul_pow2 b1 8), (lor_shiftl_add b0 (b1 * 2 ^ 8) 16) by lia.
  replace (b0 * 2 ^ 16 + b1 * 2 ^ 8) with ((b0 * 256 + b1) * 2 ^ 8) by lia.
  rewrite <-Z.shiftl_mul_pow2, lor_shiftl_add by lia. lia.
Qed.

(** Every six-bit value has its character, which the decoder reads back and which is not the
    padding. *)
Lemma sextet_alphabet i :
  0 ≤ i < 64 → sextet (alphabet_at i) = Some i ∧ Ascii.eqb (alphabet_at i) pad = false.
Proof.
  intros Hi.
  assert (Forall (λ n, sextet (alphabet_at (Z.of_nat n)) = Some (Z.of_nat n)
                       ∧ Ascii.eqb (alphabet_at (Z.of_nat n)) pad = false) (seq 0 64)) as H
      by (apply (bool_decide_unpack _); by vm_compute).
  rewrite list.Forall_forall in H. specialize (H (Z.to_nat i)).
  rewrite Z2Nat.id in H by lia. apply H, elem_of_seq. lia.
Qed.

Lemma six_bits n k :
  0 ≤ n → 0 ≤ k → Z.land (Z.shiftr n k) 63 = n / 2 ^ k mod 64.
Proof.
  intros Hn Hk. change 63 with (Z.ones 6). rewrite Z.land_ones, Z.shiftr_div_pow2 by lia. done.
Qed.

Lemma low_six_bits n : Z.land n 63 = n mod 64.
Proof. change 63 with (Z.ones 6). by rewrite Z.land_ones by lia. Qed.

(** Chunks of three. *)
Lemma chunks3_ind {A} (P : list A → Prop) :
  P [] → (∀ a, P [a]) → (∀ a b, P [a; b]) → (∀ a b c l, P l → P (a :: b :: c :: l)) → ∀ l, P l.
Proof.
  intros H0 H1 H2 H3. fix IH 1. intros [|a [|b [|c l]]].
  - exact H0.
  - apply H1.
  - apply H2.
  - apply H3, IH.
Qed.

Ltac sextets :=
  repeat match goal with
  | |- context [sextet (alphabet_at ?i)] =>
      rewrite (proj1 (sextet_alphabet i ltac:(apply Z.mod_pos_bound; lia)))
  | |- context [Ascii.eqb (alphabet_at ?i) pad] =>
      rewrite (proj2 (sextet_alphabet i ltac:(apply Z.mod_pos_bound; lia)))
  end.

(** The chunk of three bytes in arithmetic. *)
Lemma decode_chunk3 a b c rest :
  base64_decode (base64_chunk a (Some b) (Some c) rest)
  = (y ← base64_decode rest; Some (a :: b :: c :: y)).
Proof.
  pose proof (byte_val_range a); pose proof (byte_val_range b); pose proof (byte_val_range c).
  unfold base64_chunk. simpl default. rewrite pack_bytes by done.
  set (n := byte_val a * 65536 + byte_val b * 256 + byte_val c).
  rewrite !six_bits, low_six_bits by lia. cbn [base64_decode]. sextets.
  unfold decode3. sextets. cbn [mbind option_bind].
  replace (n / 2 ^ 18 mod 64 * 4 + n / 2 ^ 12 mod 64 / 16) with (byte_val a)
    by (subst n; Z.to_euclidean_division_equations; lia).
  replace (n / 2 ^ 12 mod 64 mod 16 * 16 + n / 2 ^ 6 mod 64 / 4) with (byte_val b)
    by (subst n; Z.to_euclidean_division_equations; lia).
  replace (n / 2 ^ 6 mod 64 mod 4 * 64 + n mod 64) with (byte_val c)
    by (subst n; Z.to_euclidean_division_equations; lia).
  rewrite !byte_of_val. done.
Qed.

Lemma decode_chunk2 a b :
  base64_decode (base64_chunk a (Some b) None "") = Some [a; b].
Proof.
  pose proof (byte_val_range a); pose proof (byte_val_range b).
  unfold base64_chunk. simpl default. rewrite pack_bytes by lia.
  set (n := byte_val a * 65536 + byte_val b * 256 + 0).
  rewrite !six_bits by lia. cbn [base64_decode is_empty negb]. sextets.
  unfold decode2. sextets. cbn [mbind option_bind].
  replace (n / 2 ^ 6 mod 64 mod 4) with 0
    by (subst n; Z.to_euclidean_division_equations; lia).
  replace (n / 2 ^ 18 mod 64 * 4 + n / 2 ^ 12 mod 64 / 16) with (byte_val a)
    by (subst n; Z.to_euclidean_division_equations; lia).
  replace (n / 2 ^ 12 mod 64 mod 16 * 16 + n / 2 ^ 6 mod 64 / 4) with (byte_val b)
    by (subst n; Z.to_euclidean_division_equations; lia).
  rewrite !byte_of_val. done.
Qed.

Lemma decode_chunk1 a : base64_decode (base64_chunk a None None "") = Some [a].
Proof.
  pose proof (byte_val_range a).
  unfold base64_chunk. simpl default. rewrite pack_bytes by lia.
  set (n := byte_val a * 65536 + 0 * 256 + 0).
  rewrite !six_bits by lia. cbn [base64_decode is_empty negb].
  unfold decode1. sextets. cbn [mbind option_bind].
  replace (n / 2 ^ 12 mod 64 mod 16) with 0
    by (subst n; Z.to_euclidean_division_equations; lia).
  replace (n / 2 ^ 18 mod 64 * 4 + n / 2 ^ 12 mod 64 / 16) with (byte_val a)
    by (subst n; Z.to_euclidean_division_equations; lia).
  rewrite byte_of_val. done.
Qed.

Lemma base64_decode_encode x : base64_decode (base64_encode x) = Some x.
Proof.
  induction x as [|a|a b|a b c x IH] using chunks3_ind; cbn [base64_encode].
  - done.
  - apply decode_chunk1.
  - apply decode_chunk2.
  - by rewrite decode_chunk3, IH.
Qed.

(** The buffer reserved by [String::with_capacity(input.len().div_ceil(3) * 4)] is the length
    of the result. *)
Lemma base64_length x : String.length (base64_encode x) = ((length x + 2) / 3 * 4)%nat.
Proof.
  induction x as [|a|a b|a b c x IH] using chunks3_ind; cbn [base64_encode]; try done.
  cbn [base64_chunk String.length length]. rewrite IH.
  replace (S (S (S (length x))) + 2)%nat with (length x + 2 + 1 * 3)%nat by lia.
  rewrite Nat.div_add by lia. lia.
Qed.

Example base64_ex : base64_encode [x66; x6f; x6f; x62] = "Zm9vYg==".
Proof. reflexivity. Qed.

(** ** LIKE

    SQLite's [X LIKE P ESCAPE '\'] on text: [%] is any run of characters, [_] one
    character, the escape character makes the next one literal and letters are compared
    without ASCII case. *)
Definition percent : ascii := "%"%char.
Definition underscore : ascii := "_"%char.
Definition same_letter (a b : ascii) : bool := Ascii.eqb (ascii_lower a) (ascii_lower b).

(** The bytes that continue a UTF-8 character. *)
Fixpoint drop_continuation (s : string) : string :=
  match s with
  | String a s' => if byte_in 0x80 0xBF a then drop_continuation s' else s
  | EmptyString => ""
  end.

Definition like_literal (a : ascii) (k : string → bool) (s : string) : bool :=
  match s with String b s' => same_letter a b && k s' | EmptyString => false end.
Fixpoint like_any (k : string → bool) (s : string) : bool :=
  k s || match s with String _ s' => like_any k s' | EmptyString => false end.
Definition like_one (k : string → bool) (s : string) : bool :=
  match s with String _ s' => k (drop_continuation s') | EmptyString => false end.

Fixpoint like_pattern (p : string) : string → bool :=
  match p with
  | EmptyString => is_empty
  | String a p' =>
      if Ascii.eqb a backslash then
        match p' with
        | EmptyString => λ _, false
        | String b p'' => like_literal b (like_pattern p'')
        end
      else if Ascii.eqb a percent then like_any (like_pattern p')
      else if Ascii.eqb a underscore then like_one (like_pattern p')
      else like_literal a (like_pattern p')
  end.
Definition sql_like (p s : string) : bool := like_pattern (c_str p) (c_str s).

(** src/telemetry.rs *)
Definition LIKE_ESCAPE : ascii := backslash.
Fixpoint escape_like (input : string) : string :=
  match input with
  | EmptyString => ""
  | String ch s =>
      if Ascii.eqb ch LIKE_ESCAPE || Ascii.eqb ch percent || Ascii.eqb ch underscore
      then String LIKE_ESCAPE (String ch (escape_like s))
      else String ch (escape_like s)
  end.
(** [format!("%{}%", escape_like(q))] *)
Definition like_pattern_of (q : string) : string := String percent (escape_like q ++ "%").

(** The reference: a prefix, and an occurrence anywhere, without ASCII case. *)
Fixpoint prefix_ci (q s : string) : bool :=
  match q, s with
  | EmptyString, _ => true
  | String a q', String b s' => same_letter a b && prefix_ci q' s'
  | String _ _, EmptyString => false
  end.
Fixpoint contains_ci (q s : string) : bool :=
  prefix_ci q s || match s with String _ s' => contains_ci q s' | EmptyString => false end.

Lemma like_any_all s : like_any is_empty s = true.
Proof. by induction s. Qed.

Lemma like_escaped q s : like_pattern (escape_like q ++ "%") s = prefix_ci q s.
Proof.
  revert s. induction q as [|a q IH]; intros s; [by apply like_any_all|].
  cbn [escape_like prefix_ci]. destruct (_ || _) eqn:E; simpl.
  - destruct s as [|b s]; [done|]. simpl. by rewrite IH.
  - apply orb_false_iff in E as [[E1 E2]%orb_false_iff E3].
    unfold LIKE_ESCAPE in E1. rewrite E1, E2, E3. destruct s; [done|]. simpl. by rewrite IH.
Qed.

Lemma nul_free_escape q : nul_free (escape_like q) = nul_free q.
Proof.
  unfold nul_free. induction q as [|a q IH]; [done|]. cbn [escape_like].
  destruct (_ || _); simpl; by rewrite IH.
Qed.

(** A query matches a column exactly when it occurs in it. *)
Lemma like_pattern_of_spec q s :
  nul_free q = true → sql_like (like_pattern_of q) s = contains_ci q (c_str s).
Proof.
  intros Hq. unfold sql_like, like_pattern_of.
  rewrite c_str_id.
  2:{ unfold nul_free. simpl. rewrite str_forall_app. fold (nul_free (escape_like q)).
      by rewrite nul_free_escape, Hq. }
  generalize (c_str s). clear s. intros s. simpl.
  induction s as [|a s IH]; simpl; rewrite like_escaped; [done|]. by rewrite IH.
Qed.

Example like_ex :
  sql_like (like_pattern_of "50%_A") "at 50%_a day" = true
  ∧ sql_like (like_pattern_of "50%_A") "at 50 xa" = false.
Proof. by vm_compute. Qed.

(** ** FTS5 queries

    src/fts.rs, [sanitize_match]. *)
Definition doubled_quote : string := String quote (String quote "").
(** The stem of a token and whether it asked for a prefix query; [None] for a token that is
    skipped. *)
Definition match_term (token : string) : option (string * bool) :=
  let stem := trim_end_matches star token in
  let is_prefix := negb (String.length stem =? String.length token)%nat in
  if str_forall (Ascii.eqb quote) stem then None else Some (stem, is_prefix).
Definition format_term (t : string * bool) : string :=
  String quote
    (replace_char quote doubled_quote t.1 ++ String quote (if t.2 then "*" else "")).

Definition match_terms (query : string) : list (string * bool) :=
  omap match_term (split_whitespace query).
Definition sanitize_match (query : string) : option string :=
  let terms := format_term <$> match_terms query in
  match terms with [] => None | _ => Some (join " " terms) end.

(** The FTS5 query language restricted to phrases written as quoted strings, each with an
    optional star that makes it a prefix query; phrases side by side are a conjunction.
    [None] is a query outside that fragment: a syntax error or an operator. *)
Inductive FtsState :=
| Outside
| Inside (w : string)
| Closing (w : string)
| After (w : string).
Definition fts_space (a : ascii) : bool :=
  byte_is 32 a || byte_is 9 a || byte_is 10 a || byte_is 13 a.

Fixpoint fts_parse_from (st : FtsState) (s : string) : option (list (string * bool)) :=
  match s with
  | EmptyString =>
      match st with
      | Outside => Some []
      | Inside _ => None
      | Closing w | After w => Some [(w, false)]
      end
  | String a s' =>
      match st with
      | Outside =>
          if fts_space a then fts_parse_from Outside s'
          else if Ascii.eqb a quote then fts_parse_from (Inside "") s' else None
      | Inside w =>
          if Ascii.eqb a quote then fts_parse_from (Closing w) s'
          else fts_parse_from (Inside (w ++ String a "")) s'
      | Closing w =>
          if Ascii.eqb a quote then fts_parse_from (Inside (w ++ String quote "")) s'
          else if fts_space a then fts_parse_from (After w) s'
          else if Ascii.eqb a star then cons (w, true) <$> fts_parse_from Outside s' else None
      | After w =>
          if fts_space a then fts_parse_from (After w) s'
          else if Ascii.eqb a star then cons (w, true) <$> fts_parse_from Outside s'
          else if Ascii.eqb a quote then cons (w, false) <$> fts_parse_from (Inside "") s'
          else None
      end
  end.
Definition fts_parse (s : string) : option (list (string * bool)) :=
  fts_parse_from Outside (c_str s).

Lemma fts_inside w stem r :
  fts_parse_from (Inside w) (replace_char quote doubled_quote stem ++ String quote r)
  = fts_parse_from (Closing (w ++ stem)) r.
Proof.
  revert w. induction stem as [|a stem IH]; intros w; cbn [replace_char].
  - by rewrite str_app_nil_r.
  - destruct (Ascii.eqb_spec a quote) as [->|Ha].
    + simpl. rewrite IH, str_app_assoc. done.
    + simpl. destruct (Ascii.eqb_spec a quote) as [|_]; [done|].
      rewrite IH, str_app_assoc. done.
Qed.

Lemma fts_next t r :
  fts_parse_from Outside (format_term t ++ String " " (String quote r))
  = cons t <$> fts_parse_from Outside (String quote r).
Proof.
  destruct t as [stem pre]. unfold format_term. simpl.
  rewrite str_app_assoc. simpl. rewrite fts_inside. by destruct pre.
Qed.
Lemma join_terms_quote t ts : ∃ r, join " " (format_term <$> t :: ts) = String quote r.
Proof. unfold join. destruct ts; simpl; eauto. Qed.
Lemma join_cons sep x y (l : list string) :
  join sep (x :: y :: l) = x ++ sep ++ join sep (y :: l).
Proof. done. Qed.

Lemma fts_terms t ts :
  fts_parse_from Outside (join " " (format_term <$> t :: ts)) = Some (t :: ts).
Proof.
  revert t. induction ts as [|t' ts IH]; intros t.
  - destruct t as [stem pre]. unfold join. simpl. unfold format_term. simpl.
    rewrite fts_inside. by destruct pre.
  - specialize (IH t'). rewrite !fmap_cons, join_cons, <-fmap_cons.
    destruct (join_terms_quote t' ts) as [r Er]. rewrite Er in *.
    change (" " ++ String quote r) with (String " " (String quote r)).
    by rewrite fts_next, IH.
Qed.

(** ** Tokens of a query keep its bytes *)
Lemma cons_head_forall p a l :
  p a = true → Forall (λ x, str_forall p x = true) l
  → Forall (λ x, str_forall p x = true) (cons_head a l).
Proof.
  intros Ha Hl. destruct Hl; constructor; simpl; rewrite ?Ha; auto.
Qed.

Lemma split_ws_step a s :
  split_ws_aux (String a s) = cons_head a (split_ws_aux s)
  ∨ ∃ s', split_ws_aux (String a s) = "" :: split_ws_aux s'
          ∧ (String.length s' ≤ String.length s)%nat
          ∧ ∀ p, str_forall p s = true → str_forall p s' = true.
Proof.
  change (split_ws_aux (String a s)) with
    (if ws1 a then "" :: split_ws_aux s else
     match s with
     | EmptyString => cons_head a (split_ws_aux s)
     | String b s2 =>
         if ws2 a b then "" :: split_ws_aux s2 else
         match s2 with
         | EmptyString => cons_head a (split_ws_aux s)
         | String c s3 =>
             if ws3 a b c then "" :: split_ws_aux s3 else cons_head a (split_ws_aux s)
         end
     end).
  destruct (ws1 a); [right; by exists s|]. destruct s as [|b s2]; [by left|].
  destruct (ws2 a b).
  { right. exists s2. split_and!; [done|simpl; lia|].
    intros p. simpl. by intros [_ ?]%andb_prop. }
  destruct s2 as [|c s3]; [by left|]. destruct (ws3 a b c); [|by left].
  right. exists s3. split_and!; [done|simpl; lia|].
  intros p. simpl. by intros [_ [_ ?]%andb_prop]%andb_prop.
Qed.

Lemma split_ws_forall p s :
  str_forall p s = true → Forall (λ x, str_forall p x = true) (split_ws_aux s).
Proof.
  remember (String.length s) as n eqn:En. revert s En.
  induction (lt_wf n) as [n _ IH]. intros [|a s] -> Hs; [by repeat constructor|].
  simpl in Hs. apply andb_prop in Hs as [Ha Hs].
  destruct (split_ws_step a s) as [->|(s' & -> & Hlen & Hp)].
  - apply cons_head_forall; [done|]. eapply IH; [|done|done]. simpl. lia.
  - constructor; [done|]. eapply IH; [|done|by apply Hp]. simpl. lia.
Qed.

Lemma split_whitespace_forall p s x :
  str_forall p s = true → x ∈ split_whitespace s → str_forall p x = true.
Proof.
  intros Hs [_ Hx]%list_elem_of_filter.
  pose proof (split_ws_forall p s Hs) as H. rewrite list.Forall_forall in H. auto.
Qed.

Lemma trim_end_matches_forall p c s :
  str_forall p s = true → str_forall p (trim_end_matches c s) = true.
Proof.
  induction s as [|a s IH]; [done|]. simpl. intros [Ha Hs]%andb_prop.
  destruct (_ && _); [done|]. simpl. rewrite Ha. auto.
Qed.

Lemma replace_char_forall p c t s :
  str_forall p t = true → str_forall p s = true → str_forall p (replace_char c t s) = true.
Proof.
  intros Ht. induction s as [|a s IH]; [done|]. simpl. intros [Ha Hs]%andb_prop.
  destruct (Ascii.eqb a c); [rewrite str_forall_app, Ht|simpl; rewrite Ha]; auto.
Qed.

Lemma join_forall p sep (l : list string) :
  str_forall p sep = true → Forall (λ x, str_forall p x = true) l
  → str_forall p (join sep l) = true.
Proof.
  intros Hsep. induction 1 as [|x l Hx Hl IH]; [done|].
  destruct l as [|y l]; [done|]. by rewrite join_cons, !str_forall_app, Hx, Hsep, IH.
Qed.

Lemma sanitize_match_nul_free q m :
  nul_free q = true → sanitize_match q = Some m → nul_free m = true.
Proof.
  unfold nul_free, sanitize_match. intros Hq Hm.
  set (ts := format_term <$> match_terms q) in *.
  assert (m = join " " ts) as -> by (destruct ts; congruence).
  clear Hm. apply join_forall; [done|]. apply list.Forall_forall. intros x Hx.
  apply list_elem_of_fmap in Hx as ([stem pre] & -> & Ht).
  apply list_elem_of_omap in Ht as (tok & Htok & Hs). unfold match_term in Hs.
  destruct (str_forall (Ascii.eqb quote) _) eqn:Eq; [done|]. simplify_eq.
  unfold format_term. simpl. rewrite str_forall_app, replace_char_forall.
  - by destruct (negb _).
  - done.
  - apply trim_end_matches_forall. by eapply split_whitespace_forall.
Qed.

(** What the FTS5 engine reads: the terms of the query, as literal strings. *)
Lemma sanitize_match_parse q m :
  nul_free q = true → sanitize_match q = Some m →
  fts_parse m = Some (match_terms q) ∧ match_terms q ≠ [].
Proof.
  intros Hq Hm. unfold fts_parse.
  rewrite c_str_id by (by eapply sanitize_match_nul_free).
  unfold sanitize_match in Hm. destruct (match_terms q) as [|t ts]; [done|].
  change (Some (join " " (format_term <$> t :: ts)) = Some m) in Hm. simplify_eq.
  by rewrite fts_terms.
Qed.

Lemma trim_end_matches_stem c s : ∃ n : nat,
  s = trim_end_matches c s ++ Nat.iter n (String c) "".
Proof.
  induction s as [|a s [n IH]]; [by exists 0%nat|]. simpl.
  destruct (is_empty (trim_end_matches c s)) eqn:Ee; simpl.
  - apply String.eqb_eq in Ee. rewrite Ee in *. simpl in IH.
    destruct (Ascii.eqb_spec a c) as [->|]; [exists (S n)|exists n]; simpl; congruence.
  - exists n. simpl. congruence.
Qed.

(** What a token asks for, written without the functions of the code.  The token is a stem
    that does not end with a star, then [n] stars.  A stem that holds nothing but quotes asks
    for nothing; any other one asks for itself, as a prefix when there were stars. *)
Inductive asks (token : string) : option (string * bool) → Prop :=
| AsksNothing stem (n : nat) :
    token = stem ++ Nat.iter n (String star) "" → (∀ s, stem ≠ s ++ "*") →
    str_forall (Ascii.eqb quote) stem = true → asks token None
| AsksFor stem (n : nat) :
    token = stem ++ Nat.iter n (String star) "" → (∀ s, stem ≠ s ++ "*") →
    str_forall (Ascii.eqb quote) stem = false →
    asks token (Some (stem, bool_decide (n ≠ 0%nat))).

Lemma trim_end_matches_snoc c s : trim_end_matches c (s ++ String c "") = trim_end_matches c s.
Proof.
  induction s as [|a s IH]; simpl; [by rewrite Ascii.eqb_refl|]. by rewrite IH.
Qed.
Lemma trim_end_matches_idem c s :
  trim_end_matches c (trim_end_matches c s) = trim_end_matches c s.
Proof.
  induction s as [|a s IH]; [done|]. simpl.
  destruct (is_empty (trim_end_matches c s)) eqn:Ee; simpl.
  - apply String.eqb_eq in Ee. destruct (Ascii.eqb a c) eqn:Ea; [done|].
    rewrite Ee. simpl. by rewrite Ea.
  - by rewrite IH, Ee.
Qed.
Lemma trim_end_matches_length c s :
  (String.length (trim_end_matches c s) ≤ String.length s)%nat.
Proof. induction s as [|a s IH]; [done|]. simpl. destruct (_ && _); simpl; lia. Qed.
Lemma trim_end_matches_last c s s' : trim_end_matches c s ≠ s' ++ String c "".
Proof.
  intros E. pose proof (trim_end_matches_idem c s) as Hi. rewrite E, trim_end_matches_snoc in Hi.
  pose proof (trim_end_matches_length c s') as Hl. rewrite Hi, str_length_app in Hl.
  simpl in Hl. lia.
Qed.
Lemma stars_length n : String.length (Nat.iter n (String star) "") = n.
Proof. induction n; simpl; congruence. Qed.

Lemma match_term_asks token : asks token (match_term token).
Proof.
  destruct (trim_end_matches_stem star token) as [n Hn]. unfold match_term.
  set (stem := trim_end_matches star token) in *.
  assert (∀ s, stem ≠ s ++ "*") as Hlast by (intros s; apply trim_end_matches_last).
  assert (negb (String.length stem =? String.length token)%nat = bool_decide (n ≠ 0%nat)) as ->.
  { rewrite Hn. rewrite str_length_app, stars_length.
    destruct (Nat.eqb_spec (String.length stem) (String.length stem + n)%nat);
      case_bool_decide; (done || lia). }
  destruct (str_forall _ stem) eqn:E; [by eapply AsksNothing|by apply AsksFor].
Qed.

(** A token is read in one way. *)
Lemma str_app_last x y (a b : ascii) :
  x ++ String a "" = y ++ String b "" → x = y ∧ a = b.
Proof.
  revert y. induction x as [|c x IH]; intros [|d y]; simpl; intros [=]; subst; try done.
  - by destruct y.
  - by destruct x.
  - by destruct (IH y) as [-> ->].
Qed.
Lemma stars_last n : Nat.iter (S n) (String star) "" = Nat.iter n (String star) "" ++ "*".
Proof. induction n as [|n IH]; [done|]. simpl in *. by rewrite IH at 1. Qed.
Lemma stem_unique s1 s2 n1 n2 :
  s1 ++ Nat.iter n1 (String star) "" = s2 ++ Nat.iter n2 (String star) "" →
  (∀ s, s1 ≠ s ++ "*") → (∀ s, s2 ≠ s ++ "*") → s1 = s2 ∧ n1 = n2.
Proof.
  revert n2. induction n1 as [|n1 IH]; intros [|n2] E H1 H2.
  - by rewrite !str_app_nil_r in E.
  - rewrite stars_last, str_app_nil_r, <-str_app_assoc in E. by apply H1 in E.
  - rewrite stars_last, str_app_nil_r, <-str_app_assoc in E. by apply eq_sym, H2 in E.
  - rewrite !stars_last, <-!str_app_assoc in E. apply str_app_last in E as [E _].
    destruct (IH n2 E H1 H2) as [-> ->]. done.
Qed.
Lemma asks_unique token t t' : asks token t → asks token t' → t = t'.
Proof.
  intros [s1 n1 E1 L1 Q1|s1 n1 E1 L1 Q1] [s2 n2 E2 L2 Q2|s2 n2 E2 L2 Q2]; subst; try done;
    destruct (stem_unique _ _ _ _ E2 L1 L2) as [-> ->]; congruence.
Qed.

(** C39: a text query never becomes a syntax error, and loses no word.  Unless it holds a NUL
    byte, each of its tokens asks for one thing: nothing if it holds only quotes before its
    trailing stars, and otherwise the token without its trailing stars, as a prefix query
    exactly when it had some.  With [ts] these requests, one for each token in order, what
    [sanitize_match] writes is read by FTS5 as the conjunction of exactly these strings,
    literally; no operator of the query language survives.  It writes nothing exactly when no
    token asks for anything. *)
Theorem sanitized_query q :
  nul_free q = true →
  ∃ ts, Forall2 asks (split_whitespace q) ts
    ∧ (∀ ts', Forall2 asks (split_whitespace q) ts' → ts' = ts)
    ∧ match sanitize_match q with
      | Some m => fts_parse m = Some (omap id ts) ∧ omap id ts ≠ []
      | None => omap id ts = []
      end.
Proof.
  intros Hq. exists (match_term <$> split_whitespace q).
  assert (omap id (match_term <$> split_whitespace q) = match_terms q) as ->.
  { unfold match_terms. induction (split_whitespace q) as [|tok l IH]; [done|].
    rewrite fmap_cons. simpl. unfold id at 1. by destruct (match_term tok); [f_equal|]. }
  split_and!.
  - apply Forall2_fmap_r, Forall_Forall2_diag, list.Forall_forall. intros tok _. apply match_term_asks.
  - intros ts Hts. induction Hts as [|tok t l ts Ht _ IH]; [done|]. simpl. f_equal; [|done].
    exact (asks_unique _ _ _ Ht (match_term_asks tok)).
  - destruct (sanitize_match q) as [m|] eqn:Em; [by apply sanitize_match_parse|].
    unfold sanitize_match in Em. by destruct (match_terms q).
Qed.

(** A NUL byte ends the C string that FTS5 reads, within a quoted string: the expression is an
    unterminated string, which FTS5 refuses. *)
Theorem nul_query_unterminated :
  let q := String "a" (String nul "b") in
  ∃ m, sanitize_match q = Some m ∧ c_str m = String quote "a" ∧ fts_parse m = None.
Proof. eexists. split; [reflexivity|]. by vm_compute. Qed.

Example sanitize_ex :
  sanitize_match "a* OR (b" =
    Some (join " " [String quote ("a" ++ String quote "*"); String quote ("OR" ++ String quote "");
                    String quote ("(b" ++ String quote "")])
  ∧ sanitize_match " ** " = None.
Proof. by vm_compute. Qed.

(** ** Labels of the metrics text

    src/telemetry.rs, [escape_label]; the reader is the label syntax of the Prometheus text
    format. *)
Definition escape_label (value : string) : string :=
  replace_char quote (String backslash (String quote ""))
    (replace_char newline (String backslash "n")
       (replace_char backslash (String backslash (String backslash "")) value)).

(** A label value up to its closing quote, with what follows it. *)
Fixpoint read_label (s : string) : option (string * string) :=
  match s with
  | EmptyString => None
  | String a s1 =>
      if Ascii.eqb a quote then Some ("", s1)
      else if Ascii.eqb a newline then None
      else if Ascii.eqb a backslash then
        match s1 with
        | EmptyString => None
        | String b s2 =>
            c ← (if Ascii.eqb b backslash then Some backslash
                 else if Ascii.eqb b quote then Some quote
                 else if Ascii.eqb b "n"%char then Some newline else None);
            '(v, r) ← read_label s2; Some (String c v, r)
        end
      else '(v, r) ← read_label s1; Some (String a v, r)
  end.

Definition escape_label_char (a : ascii) : string :=
  if Ascii.eqb a backslash then String backslash (String backslash "")
  else if Ascii.eqb a newline then String backslash "n"
  else if Ascii.eqb a quote then String backslash (String quote "")
  else String a "".

(** The three passes rewrite each character once. *)
Lemma escape_label_cons a s : escape_label (String a s) = escape_label_char a ++ escape_label s.
Proof.
  unfold escape_label, escape_label_char. simpl.
  destruct (Ascii.eqb_spec a backslash) as [->|Hb]; [done|].
  simpl. destruct (Ascii.eqb_spec a newline) as [->|Hn]; [done|].
  simpl. destruct (Ascii.eqb_spec a quote) as [->|Hq]; done.
Qed.

(** A label read back is the value, whatever it holds: it cannot end early. *)
Lemma read_escaped_label v r : read_label (escape_label v ++ String quote r) = Some (v, r).
Proof.
  induction v as [|a v IH]; [done|]. rewrite escape_label_cons, str_app_assoc.
  unfold escape_label_char.
  destruct (Ascii.eqb_spec a backslash) as [->|Hb]; [by simpl; rewrite IH|].
  destruct (Ascii.eqb_spec a newline) as [->|Hn]; [by simpl; rewrite IH|].
  destruct (Ascii.eqb_spec a quote) as [->|Hq]; [by simpl; rewrite IH|].
  simpl. apply Ascii.eqb_neq in Hb, Hn, Hq. rewrite Hb, Hn, Hq, IH. done.
Qed.

(** ** UTF-8

    [std::str::from_utf8]: the well-formed byte sequences of the Unicode standard. *)
Definition is_cont (a : ascii) : bool := byte_in 0x80 0xBF a.
Definition cont_low (a : ascii) : ascii → bool :=
  if byte_is 0xE0 a then byte_in 0xA0 0xBF
  else if byte_is 0xED a then byte_in 0x80 0x9F
  else if byte_is 0xF0 a then byte_in 0x90 0xBF
  else if byte_is 0xF4 a then byte_in 0x80 0x8F
  else is_cont.
Fixpoint utf8_valid (s : string) : bool :=
  match s with
  | EmptyString => true
  | String a s1 =>
      if byte_in 0 0x7F a then utf8_valid s1 else
      match s1 with
      | EmptyString => false
      | String b s2 =>
          if byte_in 0xC2 0xDF a then is_cont b && utf8_valid s2 else
          match s2 with
          | EmptyString => false
          | String c s3 =>
              if byte_in 0xE0 0xEF a then cont_low a b && is_cont c && utf8_valid s3 else
              match s3 with
              | EmptyString => false
              | String d s4 =>
                  byte_in 0xF0 0xF4 a && cont_low a b && is_cont c && is_cont d
                  && utf8_valid s4
              end
          end
      end
  end.
Definition from_utf8 (x : bytes) : option string :=
  let s := String.string_of_list_byte x in if utf8_valid s then Some s else None.

Example utf8_ex :
  from_utf8 [x7b; xc3; xa9; x7d] ≠ None ∧ from_utf8 [xc3; x28] = None
  ∧ from_utf8 [xed; xa0; x80] = None ∧ from_utf8 [xf0; x9f; x98; x80] ≠ None.
Proof. by vm_compute. Qed.
