(* ===== verification/Exposition.v ===== *)
(** * The Prometheus text format

    The lines [Metrics::render] and [Pressure::render] write (src/telemetry.rs,
    src/pressure.rs), with Rust's [Display] of an f64, and a reader of the format: comments,
    samples with quoted and escaped label values, one sample per line.  The reader gives back
    exactly the samples that were written, whatever the label values hold. *)
From Stdlib Require Import Ascii String SpecFloat DecimalString DecimalPos.
From S2P Require Import Prelude Text F64 Db Encoding.
Local Open Scope string_scope.
Local Open Scope Z_scope.
#[local] Arguments String.append !_ _ / : simpl nomatch.

(** ** [format!("{x}")] for an f64

    The shortest digits that read back as [x], the nearest to it among those, without an
    exponent. *)
Fixpoint str_take (n : nat) (s : string) : string :=
  match n, s with S n', String a s' => String a (str_take n' s') | _, _ => "" end.
Fixpoint str_drop (n : nat) (s : string) : string :=
  match n, s with S n', String _ s' => str_drop n' s' | _, _ => s end.
Definition zeros (z : Z) : string := Nat.iter (Z.to_nat z) (String "0") "".

(** [d * 10^q], for [d > 0]. *)
Definition dec_string (d q : Z) : string :=
  let s := fmt_Z d in
  if 0 <=? q then s ++ zeros q
  else
    let int := str_len s + q in
    if 0 <? int then str_take (Z.to_nat int) s ++ "." ++ str_drop (Z.to_nat int) s
    else "0." ++ zeros (- int) ++ s.
Fixpoint strip_zeros (fuel : nat) (d q : Z) : Z * Z :=
  match fuel with
  | O => (d, q)
  | S n => if (q <? 0) && (d mod 10 =? 0) then strip_zeros n (d / 10) (q + 1) else (d, q)
  end.

(** The number of digits before the decimal point of [n / d]; [1 - k] when its first digit
    is the [k]-th one after the point. *)
Fixpoint leading_zeros (fuel : nat) (n d k : Z) : Z :=
  match fuel with
  | O => k
  | S f => if d <=? n then k else leading_zeros f (n * 10) d (k + 1)
  end.
Definition int_digits (n d : Z) : Z :=
  if d <=? n then str_len (fmt_Z (n / d)) else 1 - leading_zeros 400 n d 0.

(** [n / d] with the distances [minus] and [plus] (over [d]) to the ends of the interval
    that rounds to it: the first number of digits at which truncating or rounding up stays
    in the interval. *)
Fixpoint shortest (fuel : nat) (k p n d minus plus : Z) (inclusive : bool) : Z * Z :=
  let a := 10 ^ Z.max (k - p) 0 in
  let scale := d * 10 ^ Z.max (p - k) 0 in
  let digits := n * a / scale in
  let rem := n * a mod scale in
  let within x y := if inclusive then x <=? y else x <? y in
  let down := within rem (minus * a) in
  let up := within scale (rem + plus * a) in
  match fuel with
  | O => (digits, p - k)
  | S f =>
      if up && (negb down || (scale <=? 2 * rem)) then (digits + 1, p - k)
      else if down then (digits, p - k)
      else shortest f (k + 1) p n d minus plus inclusive
  end.

Definition display_f64 (x : f64) : string :=
  match x with
  | S754_nan => "NaN"
  | S754_infinity s => if s then "-inf" else "inf"
  | S754_zero s => if s then "-0" else "0"
  | S754_finite s m e =>
      let unit := 2 ^ Z.max (e - 2) 0 in
      let d := 2 ^ Z.max (2 - e) 0 in
      let n := 4 * Z.pos m * unit in
      let minus := if (Z.pos m =? 2 ^ 52) && (-1074 <? e) then unit else 2 * unit in
      let r := shortest 17 1 (int_digits n d) n d minus (2 * unit) (Z.even (Z.pos m)) in
      let r := strip_zeros 17 r.1 r.2 in
      (if s then "-" else "") ++ dec_string r.1 r.2
  end.

Example display_f64_ex :
  display_f64 <$> [fdiv (f64_of_Z 1) (f64_of_Z 1000); fdiv (f64_of_Z 3600000) (f64_of_Z 1000);
                   fdiv (f64_of_Z 1234567) (f64_of_Z 1000); fdiv (f64_of_Z (-2)) (f64_of_Z 3);
                   f64_of_Z (2 ^ 64); fadd (fdiv (f64_of_Z 1) (f64_of_Z 10)) (fdiv (f64_of_Z 2) (f64_of_Z 10))]
  = ["0.001"; "3600"; "1234.567"; "-0.6666666666666666"; "18446744073709552000";
     "0.30000000000000004"].
Proof. by vm_compute. Qed.

(** ** What is written *)
Inductive Item :=
| Help (name help kind : string)
| Line (name : string) (labels : list (string * string)) (value : string).

Definition NL : string := String newline "".
Definition label_text (l : string * string) : string :=
  l.1 ++ "=" ++ String quote (l.2 ++ String quote "").
Definition item_line (i : Item) : string :=
  match i with
  | Help name help kind =>
      "# HELP " ++ name ++ " " ++ help ++ NL ++ "# TYPE " ++ name ++ " " ++ kind
  | Line name labels value =>
      name ++ (match labels with [] => "" | _ => "{" ++ join "," (label_text <$> labels) ++ "}" end)
           ++ " " ++ value
  end.
Definition print_item (i : Item) : string := item_line i ++ NL.
Definition print_items (l : list Item) : string := foldr (λ i s, print_item i ++ s) "" l.

(** ** What is read *)
Record Sample := mkSample {
  sm_name : string; sm_labels : list (string * string); sm_value : string }.
#[export] Instance Sample_eq_dec : EqDecision Sample.
Proof. solve_decision. Defined.

Definition name_start (a : ascii) : bool :=
  byte_in 65 90 a || byte_in 97 122 a || byte_is 95 a || byte_is 58 a.
Definition name_char (a : ascii) : bool := name_start a || is_ascii_digit a.
Definition name_ok (s : string) : bool :=
  match s with EmptyString => false | String a _ => name_start a end && str_forall name_char s.
Definition value_char (a : ascii) : bool := negb (byte_is 32 a) && negb (Ascii.eqb a newline).
Definition value_ok (s : string) : bool := negb (is_empty s) && str_forall value_char s.

(** The longest prefix of name characters, and the rest. *)
Fixpoint read_name (s : string) : string * string :=
  match s with
  | EmptyString => ("", "")
  | String a s' => if name_char a then let '(x, r) := read_name s' in (String a x, r) else ("", s)
  end.

(** The labels after an opening brace, up to the closing one. *)
Fixpoint read_labels (fuel : nat) (s : string) : option (list (string * string) * string) :=
  match fuel with
  | O => None
  | S f =>
      let '(key, r) := read_name s in
      match r with
      | String eq (String q r1) =>
          if name_ok key && Ascii.eqb eq "=" && Ascii.eqb q quote then
            '(v, r2) ← read_label r1;
            match r2 with
            | String a r3 =>
                if Ascii.eqb a "}" then Some ([(key, v)], r3)
                else if Ascii.eqb a "," then
                  '(ls, r4) ← read_labels f r3; Some ((key, v) :: ls, r4)
                else None
            | EmptyString => None
            end
          else None
      | _ => None
      end
  end.

Definition read_value (name : string) (labels : list (string * string)) (s : string)
  : option Sample :=
  match s with
  | String a v =>
      if byte_is 32 a && value_ok v then Some (mkSample name labels v) else None
  | EmptyString => None
  end.
Definition read_line (s : string) : option Sample :=
  let '(name, r) := read_name s in
  if negb (name_ok name) then None else
  match r with
  | String a r1 =>
      if Ascii.eqb a "{" then
        '(ls, r2) ← read_labels (String.length r1) r1; read_value name ls r2
      else read_value name [] r
  | EmptyString => None
  end.

(** A text is lines that each end in a newline; comments carry no sample. *)
Fixpoint read_lines (l : list string) : option (list Sample) :=
  match l with
  | [] => None
  | [s] => if is_empty s then Some [] else None
  | s :: l' =>
      match s with
      | String a _ =>
          if Ascii.eqb a "#" then read_lines l'
          else x ← read_line s; xs ← read_lines l'; Some (x :: xs)
      | EmptyString => read_lines l'
      end
  end.
Definition exposition (s : string) : option (list Sample) := read_lines (split_on newline s).

(** ** Reading back *)
Definition one_line (s : string) : bool := str_forall (λ a, negb (Ascii.eqb a newline)) s.

Lemma split_on_line s t :
  one_line s = true → split_on newline (s ++ NL ++ t) = s :: split_on newline t.
Proof.
  unfold one_line. induction s as [|a s IH]; cbn [str_forall String.append split_on]; [done|].
  intros [Ha Hs]%andb_prop. apply negb_true_iff in Ha. by rewrite Ha, IH.
Qed.
Lemma split_on_nonempty s : ∃ x l, split_on newline s = x :: l.
Proof.
  destruct s as [|a s]; simpl; [eauto|]. case_match; [eauto|].
  unfold cons_head. case_match; eauto.
Qed.

(** What a printed item means. *)
Definition label_shows (l v : string * string) : Prop :=
  v.1 = l.1 ∧ name_ok l.1 = true ∧ l.2 = escape_label v.2.
Inductive shows : Item → list Sample → Prop :=
| shows_help name help kind :
    one_line (name ++ help ++ kind) = true → shows (Help name help kind) []
| shows_line name labels values value :
    name_ok name = true → Forall2 label_shows labels values → value_ok value = true →
    shows (Line name labels value) [mkSample name values value].

Lemma str_forall_impl p q s :
  (∀ a, p a = true → q a = true) → str_forall p s = true → str_forall q s = true.
Proof.
  intros Hi. induction s as [|a s IH]; simpl; [done|]. intros [? ?]%andb_prop.
  rewrite Hi, IH; done.
Qed.
Lemma name_char_plain a :
  name_char a = true → Ascii.eqb a newline = false ∧ byte_is 32 a = false
                       ∧ Ascii.eqb a "{" = false ∧ Ascii.eqb a "=" = false ∧ Ascii.eqb a "#" = false.
Proof. destruct a as [[] [] [] [] [] [] [] []]; vm_compute; done. Qed.
Lemma name_ok_chars s : name_ok s = true → str_forall name_char s = true ∧ s ≠ "".
Proof. unfold name_ok. destruct s; [done|]. by intros [_ ?]%andb_prop. Qed.
Lemma name_one_line s : name_ok s = true → one_line s = true.
Proof.
  intros [Hs _]%name_ok_chars. eapply str_forall_impl, Hs. intros a Ha.
  by rewrite (proj1 (name_char_plain a Ha)).
Qed.
Lemma value_one_line s : value_ok s = true → one_line s = true.
Proof.
  intros [_ Hs]%andb_prop. eapply str_forall_impl, Hs. by intros a [_ ?]%andb_prop.
Qed.
Lemma escape_label_one_line v : one_line (escape_label v) = true.
Proof.
  unfold one_line. induction v as [|a v IH]; [done|].
  rewrite escape_label_cons, str_forall_app, IH, andb_true_r.
  unfold escape_label_char. repeat case_match; try done. simpl. by rewrite H0.
Qed.

(** Names end where a character that is not theirs begins. *)
Lemma read_name_end s r :
  str_forall name_char s = true →
  match r with EmptyString => True | String a _ => name_char a = false end →
  read_name (s ++ r) = (s, r).
Proof.
  intros Hs Hr. induction s as [|a s IH]; simpl in *.
  - destruct r as [|b r]; simpl; [done|]. by rewrite Hr.
  - apply andb_prop in Hs as [Ha Hs]. by rewrite Ha, IH.
Qed.

Lemma read_labels_shown fuel ls vs r :
  Forall2 label_shows ls vs → ls ≠ [] → (length ls ≤ fuel)%nat →
  read_labels fuel (join "," (label_text <$> ls) ++ "}" ++ r) = Some (vs, r).
Proof.
  intros Hf. revert fuel. induction Hf as [|[k t] [k' v] ls vs Hl Hf IH]; intros fuel Hne Hfuel; [done|].
  destruct fuel as [|fuel]; [simpl in Hfuel; lia|].
  destruct Hl as (Hk & Hn & Ht). simpl in Hk, Hn, Ht. subst k' t.
  destruct (name_ok_chars _ Hn) as [Hc _].
  assert (∀ rest, read_name (label_text (k, escape_label v) ++ rest)
            = (k, String "=" (String quote (escape_label v ++ String quote rest)))) as Hr.
  { intros rest. unfold label_text. simpl. rewrite !str_app_assoc.
    rewrite read_name_end; [|done|done]. simpl. by rewrite !str_app_assoc. }
  destruct Hf as [|l2 v2 ls vs Hl2 Hf].
  - simpl fmap. unfold join. simpl String.concat. cbn [read_labels]. rewrite Hr.
    rewrite Hn. simpl. rewrite read_escaped_label. done.
  - rewrite !fmap_cons, join_cons, <-fmap_cons. cbn [read_labels].
    rewrite !str_app_assoc, Hr, Hn. simpl Ascii.eqb. cbn [andb].
    rewrite read_escaped_label. cbn [mbind option_bind].
    change ("," ++ ?x) with (String "," x). cbv beta iota.
    assert (Ascii.eqb "," "}" = false) as -> by done. assert (Ascii.eqb "," "," = true) as -> by done.
    rewrite IH; [done|done|simpl in *; lia].
Qed.

Lemma labels_fuel ls r : (length ls ≤ String.length (join "," (label_text <$> ls) ++ r))%nat.
Proof.
  induction ls as [|l ls IH]; [simpl; lia|].
  assert (1 ≤ String.length (label_text l))%nat.
  { unfold label_text. rewrite str_length_app. simpl. lia. }
  destruct ls as [|l2 ls]; [simpl; rewrite str_length_app; lia|].
  rewrite !fmap_cons, join_cons, <-fmap_cons, !str_app_assoc, str_length_app.
  change (String.length ("," ++ ?x)) with (S (String.length x)). simpl in *. lia.
Qed.

Lemma read_value_shown name vs value :
  value_ok value = true → read_value name vs (String " " value) = Some (mkSample name vs value).
Proof. intros Hv. simpl. by rewrite Hv. Qed.

Lemma read_line_shown name ls vs value :
  name_ok name = true → Forall2 label_shows ls vs → value_ok value = true →
  read_line (item_line (Line name ls value)) = Some (mkSample name vs value).
Proof.
  intros Hn Hf Hv. destruct (name_ok_chars _ Hn) as [Hc _]. unfold read_line, item_line.
  destruct Hf as [|l v ls vs Hl Hf].
  - change ("" ++ " " ++ value) with (String " " value). rewrite read_name_end by done.
    rewrite Hn. apply (read_value_shown name [] value Hv).
  - rewrite !str_app_assoc. change ("{" ++ ?x) with (String "{" x).
    rewrite read_name_end by done. rewrite Hn. cbn [negb]. change (Ascii.eqb "{" "{") with true.
    cbv iota. rewrite (read_labels_shown _ (l :: ls) (v :: vs)); [|by constructor|done|apply labels_fuel].
    cbn [mbind option_bind]. by apply (read_value_shown name (v :: vs)).
Qed.

Lemma name_head name s :
  name_ok name = true → ∃ a r, name ++ s = String a r ∧ Ascii.eqb a "#" = false.
Proof.
  intros [Hc Hne]%name_ok_chars. destruct name as [|a name]; [done|]. simpl in *.
  apply andb_prop in Hc as [Ha _]. exists a, (name ++ s). split; [done|].
  by apply name_char_plain in Ha as (_ & _ & _ & _ & ?).
Qed.

Lemma labels_one_line ls vs :
  Forall2 label_shows ls vs → one_line (join "," (label_text <$> ls)) = true.
Proof.
  intros Hf. apply join_forall; [done|]. apply Forall_fmap.
  induction Hf as [|l v ls vs (_ & Hn & Ht) _ IH]; constructor; [|done]. simpl.
  pose proof (name_one_line _ Hn) as H1. unfold one_line in H1. unfold label_text.
  rewrite !str_forall_app, H1. simpl. rewrite str_forall_app, Ht.
  pose proof (escape_label_one_line v.2) as H2. unfold one_line in H2. by rewrite H2.
Qed.

Lemma read_item i out rest :
  shows i out →
  read_lines (split_on newline (print_item i ++ rest))
  = xs ← read_lines (split_on newline rest); Some (out ++ xs)%list.
Proof.
  destruct (split_on_nonempty rest) as (y & l & Hr). unfold print_item.
  destruct 1 as [name help kind Ho|name ls vs value Hn Hf Hv]; rewrite str_app_assoc.
  - unfold one_line in Ho. rewrite !str_forall_app in Ho. apply andb_prop in Ho as [H1 H2].
    apply andb_prop in H2 as [H2 H3]. unfold item_line. rewrite !str_app_assoc.
    transitivity (read_lines (split_on newline (("# HELP " ++ name ++ " " ++ help) ++ NL
      ++ (("# TYPE " ++ name ++ " " ++ kind) ++ NL ++ rest)))); [by rewrite !str_app_assoc|].
    rewrite !split_on_line; [|unfold one_line; rewrite !str_forall_app, H1, ?H2, ?H3; done..].
    rewrite Hr. change (read_lines (y :: l) = xs ← read_lines (y :: l); Some ([] ++ xs)%list).
    by destruct (read_lines (y :: l)).
  - rewrite split_on_line.
    + rewrite Hr. destruct (name_head name
        ((match ls with [] => "" | _ => "{" ++ join "," (label_text <$> ls) ++ "}" end)
           ++ " " ++ value) Hn) as (a & s & Hs & Ha).
      pose proof (read_line_shown name ls vs value Hn Hf Hv) as Hl. unfold item_line in *.
      rewrite Hs in *. cbn [read_lines]. rewrite Ha, Hl. done.
    + pose proof (name_one_line _ Hn) as H1. pose proof (value_one_line _ Hv) as H2.
      pose proof (labels_one_line _ _ Hf) as H3. unfold one_line, item_line in *.
      rewrite !str_forall_app, H1, H2. destruct Hf; [done|].
      rewrite !str_forall_app, H3. done.
Qed.

Lemma print_items_app l1 l2 : print_items (l1 ++ l2)%list = print_items l1 ++ print_items l2.
Proof. induction l1 as [|i l1 IH]; simpl; [done|]. by rewrite IH, str_app_assoc. Qed.

(** A text reads back as the samples its items show. *)
Lemma print_items_read items outs :
  Forall2 shows items outs → exposition (print_items items) = Some (mjoin outs).
Proof.
  unfold exposition. induction 1 as [|i out items outs Hi _ IH]; [done|].
  simpl print_items. rewrite (read_item _ _ _ Hi), IH. done.
Qed.

(** *** Values are one token *)
Lemma digits_value d : str_forall is_ascii_digit (NilEmpty.string_of_uint d) = true.
Proof. by induction d. Qed.
Lemma digit_value_char a : is_ascii_digit a = true → value_char a = true.
Proof. destruct a as [[] [] [] [] [] [] [] []]; vm_compute; done. Qed.
Lemma string_of_uint_digits d :
  str_forall is_ascii_digit (NilZero.string_of_uint d) = true ∧ NilZero.string_of_uint d ≠ "".
Proof. destruct d; [done|..]; simpl; split; try done; apply (digits_value _). Qed.
Lemma fmt_Z_digits z : 0 ≤ z → str_forall is_ascii_digit (fmt_Z z) = true ∧ fmt_Z z ≠ "".
Proof.
  intros Hz. unfold fmt_Z, Z.to_int. destruct z; [done| |lia]. apply string_of_uint_digits.
Qed.
Lemma fmt_Z_value z : value_ok (fmt_Z z) = true.
Proof.
  assert (∀ d, value_ok (NilZero.string_of_uint d) = true) as Hd.
  { intros d. destruct (string_of_uint_digits d) as [Hd Hne]. unfold value_ok.
    rewrite (str_forall_impl _ _ _ digit_value_char Hd). by destruct (NilZero.string_of_uint d). }
  unfold fmt_Z, Z.to_int. destruct z as [|p|p]; [done|apply Hd|].
  specialize (Hd (Pos.to_uint p)). unfold value_ok in *. simpl. by apply andb_prop in Hd as [_ ->].
Qed.
Lemma str_take_forall p n s : str_forall p s = true → str_forall p (str_take n s) = true.
Proof.
  revert s. induction n as [|n IH]; intros [|a s]; simpl; try done.
  intros [-> ?]%andb_prop. by rewrite IH.
Qed.
Lemma str_drop_forall p n s : str_forall p s = true → str_forall p (str_drop n s) = true.
Proof.
  revert s. induction n as [|n IH]; intros [|a s]; simpl; try done.
  intros [_ ?]%andb_prop. by apply IH.
Qed.
Lemma zeros_value z : str_forall value_char (zeros z) = true.
Proof. unfold zeros. induction (Z.to_nat z); simpl; done. Qed.
Lemma dec_string_value d q : str_forall value_char (dec_string d q) = true ∧ dec_string d q ≠ "".
Proof.
  pose proof (fmt_Z_value d) as [Hne Hd]%andb_prop. unfold dec_string.
  assert (fmt_Z d ≠ "") by (intros E; by rewrite E in Hne).
  repeat case_match; rewrite !str_forall_app, ?str_take_forall, ?str_drop_forall, ?zeros_value, ?Hd by done;
    (split; [done|]); destruct (fmt_Z d); try done; by destruct (str_take _ _).
Qed.
Lemma display_f64_value x : value_ok (display_f64 x) = true.
Proof.
  destruct x as [[]|[]| |s m e]; try done. unfold display_f64. cbv zeta.
  match goal with |- context [dec_string ?d ?q] =>
    pose proof (dec_string_value d q) as H; revert H; generalize (dec_string d q) end.
  intros t [H1 H2]. unfold value_ok. rewrite str_forall_app, H1. destruct s; [done|].
  by destruct t.
Qed.

(** A counter reads back as its value. *)
Lemma digits_onto_uint d acc :
  0 ≤ acc → digits_onto acc (NilEmpty.string_of_uint d)
  = match acc with Zpos p => Zpos (Pos.of_uint_acc d p) | _ => Z.of_uint d end.
Proof.
  revert acc. induction d; intros acc Ha; [by destruct acc; [|done|lia]|..];
    cbn [NilEmpty.string_of_uint digits_onto];
    match goal with |- context [digit_val ?a] =>
      let v := eval vm_compute in (digit_val a) in change (digit_val a) with v end;
    rewrite IHd by lia; destruct acc as [|p|p]; try lia; try done;
    match goal with |- context [10 * Z.pos ?p + ?v] =>
      destruct (10 * Z.pos p + v) eqn:E; [lia| |lia] end;
    cbn [Pos.of_uint_acc]; f_equal; f_equal; lia.
Qed.
Lemma fmt_Z_reads lo hi z :
  lo ≤ 0 → lo ≤ z ≤ hi → parse_int lo hi (fmt_Z z) = Some z.
Proof.
  intros Hlo Hz.
  assert (∀ d, parse_digits (NilZero.string_of_uint d) = Some (Z.of_uint d)) as Hd.
  { intros d. destruct (string_of_uint_digits d) as [Hd Hne]. unfold parse_digits.
    rewrite Hd. replace (is_empty (NilZero.string_of_uint d)) with false
      by (by destruct (NilZero.string_of_uint d)).
    simpl. f_equal. destruct d; [done|..]; apply (digits_onto_uint (_ _) 0); lia. }
  assert (∀ p, Z.of_uint (Pos.to_uint p) = Z.pos p) as Hp.
  { intros p. unfold Z.of_uint. by rewrite DecimalPos.Unsigned.of_to. }
  assert (∀ v, lo ≤ v ≤ hi → (lo <=? v) && (v <=? hi) = true) as Hr by lia.
  unfold fmt_Z, Z.to_int. destruct z as [|p|p].
  - change (parse_int lo hi _) with (if (lo <=? 0) && (0 <=? hi) then Some 0 else None).
    by rewrite Hr by lia.
  - specialize (Hd (Pos.to_uint p)). rewrite Hp in Hd.
    cbn [NilZero.string_of_int]. unfold parse_int.
    destruct (NilZero.string_of_uint (Pos.to_uint p)) as [|a s] eqn:E; [done|].
    pose proof (proj1 (string_of_uint_digits (Pos.to_uint p))) as Hs. rewrite E in Hs.
    apply andb_prop in Hs as [Ha _].
    destruct (Ascii.eqb_spec a plus_byte) as [->|_]; [done|].
    destruct (Ascii.eqb_spec a minus_byte) as [->|_]; [done|].
    rewrite Hd. by rewrite Hr by lia.
  - specialize (Hd (Pos.to_uint p)). rewrite Hp in Hd.
    cbn [NilZero.string_of_int]. unfold parse_int. simpl Ascii.eqb. cbv iota.
    replace (lo <? 0) with true by lia. rewrite Hd. simpl. by rewrite Hr by lia.
Qed.
