(* ===== verification/Reader.v ===== *)
(** * The read-only connections (src/reader.rs)

    A [Reader] runs a closure of SQL queries on a fresh read-only connection, at most
    [max_concurrency] at a time and within a time budget.  A connection has no transaction
    open, so each of its statements reads its own snapshot of the database, and the writer
    may commit between two of them.  [Q A] is the type of such a closure; what its
    statements meet is in a [Conn], what the rest of the attempt meets in an [Attempt].

    The second part is the reader as a state machine: permits, awaited queries, the tasks
    that outlive their caller and the threads of tokio's blocking pool, whose number is a
    parameter. *)
From Stdlib Require Import Ascii String.
From S2P Require Import Prelude Text Db.
Local Open Scope string_scope.
Local Open Scope Z_scope.

Definition DEFAULT_MAX_CONCURRENCY : Z := 4.
Definition DEFAULT_TIMEOUT_MS : Z := 500.

(** ** Errors

    The [rusqlite::Error]s the code distinguishes. *)
Inductive ErrorCode := DatabaseBusy | DatabaseLocked | OperationInterrupted | OtherCode.
Inductive RusqliteError :=
| SqliteFailure (code : ErrorCode) (message : string)
| OtherError (message : string).

Inductive ReaderError := Busy | Timeout | Unavailable | DbError (error : RusqliteError).

(** [impl From<rusqlite::Error> for ReaderError] *)
Definition ReaderError_from (error : RusqliteError) : ReaderError :=
  match error with
  | SqliteFailure (DatabaseBusy | DatabaseLocked) _ => Busy
  | SqliteFailure OperationInterrupted _ => Timeout
  | _ => DbError error
  end.

(** [impl Display for rusqlite::Error] is not in the repository: its text is the message. *)
Definition RusqliteError_text (error : RusqliteError) : string :=
  match error with SqliteFailure _ m | OtherError m => m end.
Definition ReaderError_display (e : ReaderError) : string :=
  match e with
  | Busy => "reader database busy"
  | Timeout => "reader query timed out"
  | Unavailable => "reader unavailable"
  | DbError error => "reader query failed: " ++ RusqliteError_text error
  end.

(** ** Settings *)
Record Reader := mkReader { rd_path : string; rd_max_concurrency : Z; rd_timeout_ms : Z }.

(** [tokio::sync::Semaphore::MAX_PERMITS], which tokio documents as [usize::MAX >> 3] and as
    the number of permits above which [Semaphore::new] panics. *)
Definition MAX_PERMITS : Z := Z.shiftr u64_max 3.

Section FromEnv.
Context (var : string → option string).

Definition concurrency_setting : Z :=
  match (value ← var "ANVILMQ_READER_MAX_CONCURRENCY"; parse_usize (trim value)) with
  | Some n => if 1 <=? n then n else DEFAULT_MAX_CONCURRENCY
  | None => DEFAULT_MAX_CONCURRENCY
  end.
Definition timeout_setting : Z :=
  default DEFAULT_TIMEOUT_MS (value ← var "ANVILMQ_READER_TIMEOUT_MS"; parse_u64 (trim value)).

(** [Reader::from_env].  [None]: [Semaphore::new] panics. *)
Definition reader_from_env (path : string) : option Reader :=
  if concurrency_setting <=? MAX_PERMITS
  then Some (mkReader path concurrency_setting timeout_setting)
  else None.

Lemma concurrency_setting_range : 1 ≤ concurrency_setting ≤ u64_max.
Proof.
  unfold concurrency_setting. destruct (var _) as [v|]; simpl; [|by vm_compute].
  destruct (parse_usize (trim v)) as [n|] eqn:E; [|by vm_compute].
  apply parse_int_range in E. destruct (Z.leb_spec 1 n); [lia|by vm_compute].
Qed.
Lemma timeout_setting_range : 0 ≤ timeout_setting ≤ u64_max.
Proof.
  unfold timeout_setting. destruct (var _) as [v|]; simpl; [|by vm_compute].
  destruct (parse_u64 (trim v)) as [n|] eqn:E; simpl; [|by vm_compute].
  by apply parse_int_range in E.
Qed.
Lemma reader_from_env_Some path r :
  reader_from_env path = Some r ↔
  concurrency_setting ≤ MAX_PERMITS ∧ r = mkReader path concurrency_setting timeout_setting.
Proof.
  unfold reader_from_env. destruct (Z.leb_spec concurrency_setting MAX_PERMITS);
    simpl; naive_solver lia.
Qed.
End FromEnv.

(** ** Queries *)
Section Queries.
(** [S] is what a snapshot of the database file holds. *)
Context {S : Type}.

(** What the [n]-th statement of a connection meets: its failure, the snapshot it reads and
    the order in which it visits rows. *)
Record Conn := mkConn {
  conn_fault : nat → option RusqliteError;
  conn_snapshot : nat → S;
  conn_scan : nat → ∀ A : Type, list A → list A;
}.

Definition Q (A : Type) : Type := Conn → nat → result RusqliteError A * nat.
#[export] Instance Q_ret : MRet Q := λ A a c n, (Ok a, n).
#[export] Instance Q_bind : MBind Q := λ A B f m c n,
  match m c n with
  | (Ok a, n') => f a c n'
  | (Err e, n') => (Err e, n')
  end.

(** One statement: prepared, run and its rows collected. *)
Definition select {A} (f : (∀ B, list B → list B) → S → result RusqliteError A) : Q A :=
  λ c n,
    match conn_fault c n with
    | Some e => (Err e, Datatypes.S n)
    | None => (f (conn_scan c n) (conn_snapshot c n), Datatypes.S n)
    end.

(** How the blocking task ended for the caller that awaits it. *)
Inductive Joined := Finished | Panicked | Elapsed.
Record Attempt := mkAttempt {
  at_permit : bool;
  at_open : option Conn;
  at_query_only : option RusqliteError;
  at_busy_timeout : option RusqliteError;
  at_joined : Joined;
}.

(** [Reader::query] *)
Definition reader_blocking {A} (t : Attempt) (f : Q A) : result ReaderError A :=
  match at_open t with
  | None => Err Unavailable
  | Some conn =>
      match at_query_only t with
      | Some e => Err (ReaderError_from e)
      | None =>
          match at_busy_timeout t with
          | Some e => Err (ReaderError_from e)
          | None => res_map_err ReaderError_from (f conn 0%nat).1
          end
      end
  end.
Definition reader_query {A} (t : Attempt) (f : Q A) : result ReaderError A :=
  if at_permit t then
    match at_joined t with
    | Finished => reader_blocking t f
    | Panicked => Err Unavailable
    | Elapsed => Err Timeout
    end
  else Err Unavailable.

(** A successful query ran its closure on the connection that was opened. *)
Lemma reader_query_Ok {A} t (f : Q A) a :
  reader_query t f = Ok a ↔
  at_permit t = true ∧ at_joined t = Finished ∧ at_query_only t = None
  ∧ at_busy_timeout t = None
  ∧ ∃ conn, at_open t = Some conn ∧ (f conn 0%nat).1 = Ok a.
Proof.
  unfold reader_query, reader_blocking, res_map_err.
  split.
  - intros Hq. split_cases. eauto 10.
  - intros (-> & -> & -> & -> & c & -> & ->). done.
Qed.

Lemma Q_bind_Ok {A B} (m : Q A) (k : A → Q B) c n b :
  (mbind k m c n).1 = Ok b ↔
  ∃ a, (m c n).1 = Ok a ∧ (k a c (m c n).2).1 = Ok b.
Proof.
  unfold mbind, Q_bind. destruct (m c n) as [[a|e] n']; naive_solver.
Qed.
Lemma select_Ok {A} (f : (∀ B, list B → list B) → S → result RusqliteError A) c n a :
  (select f c n).1 = Ok a ↔
  conn_fault c n = None ∧ f (conn_scan c n) (conn_snapshot c n) = Ok a.
Proof. unfold select. destruct (conn_fault c n); naive_solver. Qed.
Lemma select_next {A} (f : (∀ B, list B → list B) → S → result RusqliteError A) c n :
  (select f c n).2 = Datatypes.S n.
Proof. unfold select. by destruct (conn_fault c n). Qed.
End Queries.
Arguments Conn : clear implicits.
Arguments Q : clear implicits.
Arguments Attempt : clear implicits.

(** Each statement returns every row once. *)
Class ConnLaw {S} (c : Conn S) :=
  conn_scan_perm : ∀ n A (l : list A), conn_scan c n A l ≡ₚ l.

(** ** Permits and tasks

    A caller holds a permit from [acquire] until [query] returns or its future is dropped.
    Its blocking task waits for a thread of the pool and then runs, with its connection open,
    until the closure is done.  When the outer timeout elapses, or the caller goes away, the
    permit is released and the task goes on: a task that still waits will run later.
    [threads] is the number of threads of tokio's blocking pool, 512 for the runtime of
    [main]; other work of the process may hold some of them. *)
Record Pool := mkPool {
  pl_free : Z;      (** permits left in the semaphore *)
  pl_queued : Z;    (** queries whose caller waits and whose task has no thread yet *)
  pl_running : Z;   (** queries whose caller waits and whose task runs *)
  pl_stale : Z;     (** tasks without a thread whose caller is gone *)
  pl_orphans : Z;   (** running tasks whose caller is gone *)
}.
#[export] Instance Pool_eq_dec : EqDecision Pool.
Proof. solve_decision. Defined.
Definition new_pool (r : Reader) : Pool := mkPool (rd_max_concurrency r) 0 0 0 0.

(** Queries that are awaited, each holding a permit, and connections open at once. *)
Definition awaited (p : Pool) : Z := pl_queued p + pl_running p.
Definition open_tasks (p : Pool) : Z := pl_running p + pl_orphans p.

Section Pool.
Context (threads : Z).

Inductive pool_step : Pool → Pool → Prop :=
| pool_acquire f q n s o :
    0 < f → pool_step (mkPool f q n s o) (mkPool (f - 1) (q + 1) n s o)
| pool_start f q n s o :
    0 < q → n + o < threads → pool_step (mkPool f q n s o) (mkPool f (q - 1) (n + 1) s o)
| pool_start_stale f q n s o :
    0 < s → n + o < threads → pool_step (mkPool f q n s o) (mkPool f q n (s - 1) (o + 1))
| pool_finish f q n s o :
    0 < n → pool_step (mkPool f q n s o) (mkPool (f + 1) q (n - 1) s o)
| pool_leave_queued f q n s o :
    0 < q → pool_step (mkPool f q n s o) (mkPool (f + 1) (q - 1) n (s + 1) o)
| pool_leave_running f q n s o :
    0 < n → pool_step (mkPool f q n s o) (mkPool (f + 1) q (n - 1) s (o + 1))
| pool_late f q n s o :
    0 < o → pool_step (mkPool f q n s o) (mkPool f q n s (o - 1)).

Definition pool_wf (r : Reader) (p : Pool) : Prop :=
  0 ≤ pl_free p ∧ 0 ≤ pl_queued p ∧ 0 ≤ pl_running p ∧ 0 ≤ pl_stale p ∧ 0 ≤ pl_orphans p
  ∧ pl_free p + awaited p = rd_max_concurrency r ∧ open_tasks p ≤ threads.

Lemma pool_step_wf r p p' : pool_wf r p → pool_step p p' → pool_wf r p'.
Proof. unfold pool_wf, awaited, open_tasks. intros Hwf Hs. destruct Hs; simpl in *; lia. Qed.

Lemma pool_reachable_wf r p :
  0 ≤ threads → 0 ≤ rd_max_concurrency r → rtc pool_step (new_pool r) p → pool_wf r p.
Proof.
  intros Ht Hr. assert (pool_wf r (new_pool r)) as H0.
  { unfold pool_wf, awaited, open_tasks. simpl. lia. }
  revert H0. generalize (new_pool r). intros q Hq Hrtc.
  induction Hrtc; eauto using pool_step_wf.
Qed.

(** One more caller that gives up before its task has a thread. *)
Lemma pool_give_up f s o : 0 < f → rtc pool_step (mkPool f 0 0 s o) (mkPool f 0 0 (s + 1) o).
Proof.
  intros Hf. eapply rtc_l; [by apply pool_acquire|].
  eapply rtc_l; [by apply pool_leave_queued; lia|].
  replace (f - 1 + 1) with f by lia. by replace (0 + 1 - 1) with 0 by lia.
Qed.
Lemma pool_stales f o (n : nat) :
  0 < f → rtc pool_step (mkPool f 0 0 0 o) (mkPool f 0 0 (Z.of_nat n) o).
Proof.
  intros Hf. induction n as [|n IH]; [done|]. etrans; [exact IH|].
  replace (Z.of_nat (S n)) with (Z.of_nat n + 1) by lia. by apply pool_give_up.
Qed.
(** Tasks without a caller take the threads that are free. *)
Lemma pool_runs f s o (n : nat) :
  Z.of_nat n ≤ s → o + Z.of_nat n ≤ threads →
  rtc pool_step (mkPool f 0 0 s o) (mkPool f 0 0 (s - Z.of_nat n) (o + Z.of_nat n)).
Proof.
  revert s o. induction n as [|n IH]; intros s o Hs Ho.
  { by rewrite Z.sub_0_r, Z.add_0_r. }
  eapply rtc_l; [apply pool_start_stale; lia|].
  replace (s - Z.of_nat (S n)) with (s - 1 - Z.of_nat n) by lia.
  replace (o + Z.of_nat (S n)) with (o + 1 + Z.of_nat n) by lia. apply IH; lia.
Qed.

(** C40: [ANVILMQ_READER_MAX_CONCURRENCY] bounds the queries that are awaited.  Whatever the
    variable holds, the limit is at least one and either within the permits of a semaphore
    or refused by a panic at the start.  With a limit, at most that many callers hold a
    permit at once, and one is free while there are fewer.  It does not bound the
    connections: tasks whose caller timed out or went away keep theirs without a permit, so
    that no caller need wait for every thread of tokio's blocking pool to hold one, with any
    number of further tasks queued for a thread.  Only the size of that pool bounds them. *)
Theorem reader_concurrency var path :
  1 ≤ threads →
  (reader_from_env var path = None ↔ MAX_PERMITS < concurrency_setting var)
  ∧ ∀ r, reader_from_env var path = Some r →
      1 ≤ rd_max_concurrency r ≤ MAX_PERMITS
      ∧ (∀ p, rtc pool_step (new_pool r) p →
           0 ≤ awaited p ≤ rd_max_concurrency r
           ∧ (awaited p < rd_max_concurrency r → 0 < pl_free p)
           ∧ 0 ≤ open_tasks p ≤ threads)
      ∧ ∀ open extra : nat, Z.of_nat open ≤ threads →
          ∃ p, rtc pool_step (new_pool r) p ∧ awaited p = 0
               ∧ open_tasks p = Z.of_nat open ∧ pl_stale p = Z.of_nat extra.
Proof.
  intros Ht. split.
  { unfold reader_from_env.
    destruct (Z.leb_spec (concurrency_setting var) MAX_PERMITS); simpl; split; (done || lia). }
  intros r [Hc ->]%reader_from_env_Some. pose proof (concurrency_setting_range var) as Hr.
  simpl. split_and!; [lia|lia|..].
  - intros p Hp. apply pool_reachable_wf in Hp; [|lia|simpl; lia].
    unfold pool_wf, open_tasks, awaited in *. simpl in *. lia.
  - intros open extra Ho.
    exists (mkPool (concurrency_setting var) 0 0 (Z.of_nat extra) (Z.of_nat open)).
    split_and!; [|done..]. etrans; [apply (pool_stales _ 0 (open + extra)); simpl; lia|].
    etrans; [apply (pool_runs _ _ _ open); lia|].
    replace (Z.of_nat (open + extra) - Z.of_nat open) with (Z.of_nat extra) by lia. done.
Qed.
End Pool.

Example reader_env_ex :
  concurrency_setting (λ _, Some "0") = 4 ∧ concurrency_setting (λ _, Some " 2 ") = 2
  ∧ reader_from_env (λ _, Some "18446744073709551615") "q.db" = None.
Proof. done. Qed.
