(* ===== verification/Fts.v ===== *)
(** * The full-text index (src/fts.rs, [enable_fts] of src/db.rs)

    [job_history] as SQLite stores it, a row per rowid, beside the FTS5 table
    [job_history_fts] and the two triggers that mirror it.  The table itself is the map of
    Db.v; [ar_rowid] gives each row its implicit rowid. *)
From Stdlib Require Import Ascii String.
From S2P Require Import Prelude Text Query Db.
Local Open Scope string_scope.
Local Open Scope Z_scope.

Definition DEFAULT_BACKFILL_BATCH : Z := 1000.

(** The columns of [job_history_fts]. *)
Record FtsDoc := mkDoc {
  fd_id : string; fd_name : string; fd_trace_id : string; fd_last_error : option string }.
Definition fts_doc (id : string) (h : HistRow) : FtsDoc :=
  mkDoc id (h_name h) (h_trace_id h) (h_last_error h).

Record Archive := mkArchive {
  ar_rows : gmap string HistRow;
  ar_rowid : gmap string Z;
  ar_fts : gmap Z FtsDoc;
  (** the virtual table and its triggers exist *)
  ar_installed : bool;
}.
#[export] Instance Archive_eta : Eta Archive := λ r,
  mkArchive (ar_rows r) (ar_rowid r) (ar_fts r) (ar_installed r).

(** ** Writes to [job_history]

    The rowid of a new row of an ordinary table is one more than the largest in use. *)
Definition max_rowid (m : gmap string Z) : Z := map_fold (λ _ r acc, Z.max r acc) 0 m.
Definition fresh_rowid (a : Archive) : Z := max_rowid (ar_rowid a) + 1.

(** [INSERT INTO job_history_fts(rowid, ...)] *)
Definition fts_insert (r : Z) (doc : FtsDoc) (m : gmap Z FtsDoc) : SqlResult (gmap Z FtsDoc) :=
  insert_new "job_history_fts.rowid" r doc m.

(** [INSERT INTO job_history], with the trigger [job_history_fts_ai]. *)
Definition archive_insert (id : string) (h : HistRow) (a : Archive) : SqlResult Archive :=
  insert_new "job_history.id" id h (ar_rows a) ≫= λ rows,
  let r := fresh_rowid a in
  let stored := a <| ar_rows := rows |> <| ar_rowid := <[id := r]> (ar_rowid a) |> in
  if ar_installed a then
    fts_insert r (fts_doc id h) (ar_fts a) ≫= λ fts, Ok (stored <| ar_fts := fts |>)
  else Ok stored.

(** [DELETE FROM job_history WHERE id = ?], with the trigger [job_history_fts_ad]. *)
Definition archive_delete (id : string) (a : Archive) : Archive :=
  match ar_rowid a !! id with
  | None => a
  | Some r =>
      a <| ar_rows ::= delete id |> <| ar_rowid ::= delete id |>
        <| ar_fts ::= if ar_installed a then delete r else (λ m, m) |>
  end.

(** ** Start-up *)

(** [setup_blocking]: everything is IF NOT EXISTS. *)
Definition setup_blocking (a : Archive) : Archive := a <| ar_installed := true |>.

(** [WHERE NOT EXISTS (SELECT 1 FROM job_history_fts f WHERE f.rowid = h.rowid)] *)
Definition missing (a : Archive) : list (string * Z) :=
  rows_where (λ _ r, bool_decide (ar_fts a !! r = None)) (ar_rowid a).

Definition index_row (a : Archive) (m : gmap Z FtsDoc) (kr : string * Z) : gmap Z FtsDoc :=
  match ar_rows a !! kr.1 with
  | Some h => <[kr.2 := fts_doc kr.1 h]> m
  | None => m
  end.
Definition index_rows (l : list (string * Z)) (a : Archive) : Archive :=
  a <| ar_fts := foldl (index_row a) (ar_fts a) l |>.

Section Backfill.
(** The order in which the [n]-th statement finds the missing rows, and its failure. *)
Context (order : nat → list (string * Z) → list (string * Z)).
Context (fault : nat → option SqlError).

(** One [INSERT .. SELECT .. LIMIT]: its row count, and the table after it. *)
Definition backfill_stmt (n : nat) (batch : Z) (a : Archive) : SqlResult (nat * Archive) :=
  match fault n with
  | Some e => Err e
  | None =>
      let l := sql_limit batch (order n (missing a)) in Ok (length l, index_rows l a)
  end.

(** The loop.  [None] is out of fuel. *)
Fixpoint backfill_loop (fuel : nat) (n : nat) (batch : Z) (total : nat) (a : Archive)
  : option (SqlResult nat * Archive) :=
  match fuel with
  | O => None
  | S fuel' =>
      match backfill_stmt n batch a with
      | Err e => Some (Err e, a)
      | Ok (inserted, a') =>
          if (inserted =? 0)%nat then Some (Ok (total + inserted)%nat, a')
          else backfill_loop fuel' (S n) batch (total + inserted)%nat a'
      end
  end.

(** Each round but the last indexes a row, so one more round than missing rows is enough. *)
Definition backfill_blocking (n : nat) (batch : Z) (a : Archive)
  : option (SqlResult nat * Archive) :=
  backfill_loop (S (length (missing a))) n (Z.max batch 1) 0 a.

(** [DatabaseManager::enable_fts] *)
Definition enable_fts (n : nat) (batch : Z) (a : Archive) : option (SqlResult nat * Archive) :=
  match fault n with
  | Some e => Some (Err e, a)
  | None => backfill_blocking (S n) batch (setup_blocking a)
  end.
End Backfill.

(** ** Invariants *)

(** Rows have distinct positive rowids, and a document of the index is that of the row with
    its rowid: never stale, never of a row that is gone. *)
Record archive_wf (a : Archive) : Prop := {
  wf_dom : dom (ar_rowid a) = dom (ar_rows a);
  wf_inj : ∀ id id' r, ar_rowid a !! id = Some r → ar_rowid a !! id' = Some r → id = id';
  wf_sound : ∀ r doc, ar_fts a !! r = Some doc →
    ∃ id h, ar_rowid a !! id = Some r ∧ ar_rows a !! id = Some h ∧ doc = fts_doc id h;
  wf_off : ar_installed a = false → ar_fts a = ∅;
}.

(** Every row is indexed. *)
Definition synced (a : Archive) : Prop :=
  ar_installed a = true
  ∧ ∀ id h r, ar_rows a !! id = Some h → ar_rowid a !! id = Some r →
              ar_fts a !! r = Some (fts_doc id h).

Lemma max_rowid_le m id r : m !! id = Some r → r ≤ max_rowid m.
Proof.
  unfold max_rowid. revert r.
  apply (map_fold_weak_ind (λ acc (m : gmap string Z), ∀ r, m !! id = Some r → r ≤ acc)).
  - intros r. by rewrite lookup_empty.
  - intros i x m' acc Hi IH r. destruct (decide (i = id)) as [->|].
    + rewrite lookup_insert_eq. intros [= <-]. lia.
    + rewrite lookup_insert_ne by done. intros Hr%IH. lia.
Qed.
Lemma fresh_rowid_unused a id : ar_rowid a !! id ≠ Some (fresh_rowid a).
Proof. intros H%max_rowid_le. unfold fresh_rowid in H. lia. Qed.
Lemma fresh_rowid_unindexed a : archive_wf a → ar_fts a !! fresh_rowid a = None.
Proof.
  intros Hwf. destruct (ar_fts a !! _) as [doc|] eqn:E; [|done].
  apply (wf_sound _ Hwf) in E as (id & h & Hr & _). by apply fresh_rowid_unused in Hr.
Qed.

Lemma wf_rowid a id h : archive_wf a → ar_rows a !! id = Some h → ∃ r, ar_rowid a !! id = Some r.
Proof.
  intros Hwf Hh%elem_of_dom_2. rewrite <-(wf_dom _ Hwf) in Hh. by apply elem_of_dom in Hh.
Qed.
Lemma wf_row a id r : archive_wf a → ar_rowid a !! id = Some r → ∃ h, ar_rows a !! id = Some h.
Proof.
  intros Hwf Hh%elem_of_dom_2. rewrite (wf_dom _ Hwf) in Hh. by apply elem_of_dom in Hh.
Qed.

(** An insertion of a new id succeeds, triggers included. *)
Lemma archive_insert_new a id h :
  archive_wf a → ar_rows a !! id = None →
  archive_insert id h a =
  Ok (mkArchive (<[id := h]> (ar_rows a)) (<[id := fresh_rowid a]> (ar_rowid a))
        (if ar_installed a then <[fresh_rowid a := fts_doc id h]> (ar_fts a) else ar_fts a)
        (ar_installed a)).
Proof.
  intros Hwf Hn. unfold archive_insert, fts_insert, insert_new. rewrite Hn. simpl.
  rewrite fresh_rowid_unindexed by done. destruct a as [? ? ? []]; done.
Qed.

Lemma archive_insert_wf a id h a' :
  archive_wf a → archive_insert id h a = Ok a' →
  ar_rows a !! id = None ∧ ar_rows a' = <[id := h]> (ar_rows a)
  ∧ archive_wf a' ∧ (synced a → synced a').
Proof.
  intros Hwf Hi. destruct (ar_rows a !! id) eqn:Hn.
  { unfold archive_insert, insert_new in Hi. by rewrite Hn in Hi. }
  rewrite archive_insert_new in Hi by done. injection Hi as <-. split_and!; [done|done| |].
  - assert (ar_rowid a !! id = None) as Hr.
    { apply not_elem_of_dom. rewrite (wf_dom _ Hwf). by apply not_elem_of_dom. }
    split; simpl.
    + by rewrite !dom_insert_L, (wf_dom _ Hwf).
    + intros i j r. rewrite !lookup_insert. repeat case_decide; simplify_eq; try done.
      * intros [= <-] ?%fresh_rowid_unused. done.
      * intros Hi' [= <-]. by apply fresh_rowid_unused in Hi'.
      * apply (wf_inj _ Hwf).
    + intros r doc Hd.
      assert ((r = fresh_rowid a ∧ doc = fts_doc id h) ∨ ar_fts a !! r = Some doc) as [[-> ->]|Ho].
      { destruct (ar_installed a); [|by right]. rewrite lookup_insert in Hd.
        case_decide; [left; naive_solver|by right]. }
      * exists id, h. by rewrite !lookup_insert_eq.
      * apply (wf_sound _ Hwf) in Ho as (i & hi & Hri & Hhi & ->). exists i, hi.
        rewrite !lookup_insert_ne by congruence. done.
    + intros Hoff. rewrite Hoff. by apply (wf_off _ Hwf).
  - intros [Hon Hs]. split; [done|]. simpl. rewrite Hon. intros i hi r.
    rewrite !lookup_insert. repeat case_decide; simplify_eq; try (naive_solver).
    intros Hhi Hri. exfalso. by apply fresh_rowid_unused in Hri.
Qed.

Lemma archive_delete_wf a id :
  archive_wf a →
  ar_rows (archive_delete id a) = delete id (ar_rows a)
  ∧ archive_wf (archive_delete id a) ∧ (synced a → synced (archive_delete id a)).
Proof.
  intros Hwf. unfold archive_delete. destruct (ar_rowid a !! id) as [r|] eqn:Hr.
  2:{ split_and!; [|done|done]. rewrite delete_id; [done|].
      apply not_elem_of_dom. rewrite <-(wf_dom _ Hwf). by apply not_elem_of_dom. }
  split_and!; [done| |].
  - split; simpl.
    + by rewrite !dom_delete_L, (wf_dom _ Hwf).
    + intros i j r'. rewrite !lookup_delete_Some. intros [_ ?] [_ ?]. by eapply wf_inj.
    + intros r' doc Hd.
      assert (ar_fts a !! r' = Some doc ∧ r ≠ r') as [Ho Hne].
      { destruct (ar_installed a) eqn:Hon; [by apply lookup_delete_Some in Hd as [??]|].
        rewrite (wf_off _ Hwf Hon) in Hd. by rewrite lookup_empty in Hd. }
      apply (wf_sound _ Hwf) in Ho as (i & hi & Hri & Hhi & ->). exists i, hi.
      rewrite !lookup_delete_ne by congruence. done.
    + intros Hoff. rewrite Hoff. by apply (wf_off _ Hwf).
  - intros [Hon Hs]. split; [done|]. simpl. rewrite Hon. intros i hi r'.
    rewrite !lookup_delete_Some. intros [Hi Hhi] [_ Hri]. split; [|by apply Hs].
    intros ->. apply Hi. by eapply wf_inj.
Qed.

(** ** Backfilling *)
Lemma elem_of_missing a id r :
  (id, r) ∈ missing a ↔ ar_rowid a !! id = Some r ∧ ar_fts a !! r = None.
Proof. unfold missing. by rewrite elem_of_rows_where, bool_decide_eq_true. Qed.
Lemma missing_NoDup a : NoDup (missing a).
Proof. eapply NoDup_fmap_1, rows_where_NoDup. Qed.

Lemma index_row_other a l m r :
  r ∉ l.*2 → foldl (index_row a) m l !! r = m !! r.
Proof.
  revert m. induction l as [|[id r'] l IH]; intros m; [done|]. cbn [foldl fmap list_fmap].
  rewrite not_elem_of_cons. intros [Hne Hr]. rewrite IH by done. unfold index_row. simpl in *.
  destruct (ar_rows a !! id); [|done]. by rewrite lookup_insert_ne.
Qed.

Lemma index_row_in a l m id h r :
  archive_wf a → (∀ i q, (i, q) ∈ l → ar_rowid a !! i = Some q) →
  (id, r) ∈ l → ar_rows a !! id = Some h →
  foldl (index_row a) m l !! r = Some (fts_doc id h).
Proof.
  intros Hwf. revert m. induction l as [|[i q] l IH] using rev_ind; intros m Hl Hin Hh.
  { by apply not_elem_of_nil in Hin. }
  rewrite foldl_snoc. unfold index_row at 1. simpl.
  destruct (wf_row a i q Hwf) as [hi Hhi]; [apply Hl; set_solver|]. rewrite Hhi.
  destruct (decide (q = r)) as [->|].
  - assert (i = id) as -> by (eapply (wf_inj _ Hwf); apply Hl; set_solver).
    rewrite lookup_insert_eq. congruence.
  - rewrite lookup_insert_ne by done. apply IH; [set_solver|set_solver|done].
Qed.

(** Indexing a list of missing rows: the index stays sound, and they are missing no more. *)
Lemma index_rows_spec a l :
  archive_wf a → ar_installed a = true → NoDup l → l ⊆ missing a →
  archive_wf (index_rows l a) ∧ missing a ≡ₚ l ++ missing (index_rows l a).
Proof.
  intros Hwf Hon Hnd Hl.
  assert (∀ i q, (i, q) ∈ l → ar_rowid a !! i = Some q) as Hq.
  { intros i q Hi. by apply Hl, elem_of_missing in Hi as [? _]. }
  assert (∀ i q, (i, q) ∈ l → ∃ h, ar_rows a !! i = Some h
            ∧ ar_fts (index_rows l a) !! q = Some (fts_doc i h)) as Hidx.
  { intros i q Hi. destruct (wf_row a i q Hwf (Hq _ _ Hi)) as [h Hh]. exists h.
    split; [done|]. by eapply index_row_in. }
  assert (∀ q, q ∉ l.*2 → ar_fts (index_rows l a) !! q = ar_fts a !! q) as Hout.
  { intros q ?. by apply index_row_other. }
  split.
  - split; [apply Hwf|apply Hwf| |by simpl; rewrite Hon].
    intros r doc Hd. destruct (decide (r ∈ l.*2)) as [Hin|Hin].
    + apply list_elem_of_fmap in Hin as ([i q] & -> & Hi).
      destruct (Hidx _ _ Hi) as (h & Hh & Hd'). exists i, h. simpl in *.
      split_and!; [by apply Hq|done|congruence].
    + rewrite Hout in Hd by done. by apply (wf_sound _ Hwf).
  - apply NoDup_Permutation; [apply missing_NoDup| |].
    + apply list.NoDup_app. split_and!; [done| |apply missing_NoDup].
      intros [i q] Hi [_ Hn]%elem_of_missing. destruct (Hidx _ _ Hi) as (? & _ & ?). congruence.
    + intros [i q]. rewrite elem_of_app, !elem_of_missing. split.
      * intros [Hr Hn]. destruct (decide ((i, q) ∈ l)) as [|Hni]; [by left|right].
        split; [done|]. rewrite Hout; [done|]. intros Hin.
        apply list_elem_of_fmap in Hin as ([i' q'] & Heq & Hi'). simpl in Heq. subst q'.
        assert (i' = i) as -> by (eapply (wf_inj _ Hwf); eauto). done.
      * intros [Hi|[Hr Hn]].
        -- by apply elem_of_missing, Hl.
        -- split; [done|]. destruct (decide (q ∈ l.*2)) as [Hin|Hin].
           ++ apply list_elem_of_fmap in Hin as ([i' q'] & -> & Hi').
              destruct (Hidx _ _ Hi') as (? & _ & ?). simpl in *. congruence.
           ++ by rewrite <-Hout.
Qed.

Lemma missing_nil_synced a :
  archive_wf a → ar_installed a = true → missing a = [] → synced a.
Proof.
  intros Hwf Hon Hm. split; [done|]. intros id h r Hh Hr.
  destruct (ar_fts a !! r) as [doc|] eqn:E.
  - apply (wf_sound _ Hwf) in E as (i & hi & Hri & Hhi & ->).
    assert (i = id) as -> by (by eapply (wf_inj _ Hwf)). congruence.
  - assert ((id, r) ∈ missing a) as Hin by (by apply elem_of_missing).
    rewrite Hm in Hin. by apply not_elem_of_nil in Hin.
Qed.
Lemma synced_missing_nil a : archive_wf a → synced a → missing a = [].
Proof.
  intros Hwf [_ Hs]. destruct (missing a) as [|[id r] l] eqn:E; [done|].
  assert ((id, r) ∈ missing a) as [Hr Hn]%elem_of_missing by (rewrite E; by left).
  destruct (wf_row a id r Hwf Hr) as [h Hh]. rewrite (Hs id h r) in Hn; done.
Qed.

Section BackfillSpec.
Context (order : nat → list (string * Z) → list (string * Z)).
Context (order_perm : ∀ n l, order n l ≡ₚ l).
Context (fault : nat → option SqlError).

(** One statement of the loop takes its share of the missing rows. *)
Lemma backfill_stmt_spec n batch a k a' :
  archive_wf a → ar_installed a = true → 1 ≤ batch →
  backfill_stmt order fault n batch a = Ok (k, a') →
  archive_wf a' ∧ ar_rows a' = ar_rows a ∧ ar_rowid a' = ar_rowid a ∧ ar_installed a' = true
  ∧ length (missing a) = (k + length (missing a'))%nat
  ∧ Z.of_nat k = Z.min batch (Z.of_nat (length (missing a))).
Proof.
  intros Hwf Hon Hb. unfold backfill_stmt. destruct (fault n); [done|].
  set (l := sql_limit batch (order n (missing a))). intros [= <- <-].
  destruct (index_rows_spec a l) as [Hwf' Hp]; [done|done| | |].
  - eapply sublist_NoDup; [|apply sql_limit_sublist]. rewrite order_perm. apply missing_NoDup.
  - intros x Hx%elem_of_sql_limit. by rewrite order_perm in Hx.
  - split_and!; try done.
    + by rewrite Hp at 1; rewrite length_app.
    + subst l. rewrite length_sql_limit by lia. by rewrite order_perm.
Qed.

Lemma backfill_loop_spec fuel n batch total a :
  archive_wf a → ar_installed a = true → 1 ≤ batch → (length (missing a) < fuel)%nat →
  ∃ r a', backfill_loop order fault fuel n batch total a = Some (r, a')
    ∧ archive_wf a' ∧ ar_rows a' = ar_rows a ∧ ar_installed a' = true
    ∧ match r with
      | Ok k => k = (total + length (missing a))%nat ∧ synced a'
      | Err e => ∃ i, fault i = Some e
      end.
Proof.
  intros Hwf Hon Hb. revert n total a Hwf Hon.
  induction fuel as [|fuel IH]; intros n total a Hwf Hon Hf; [lia|]. simpl.
  destruct (backfill_stmt order fault n batch a) as [[k a1]|e] eqn:Hs.
  2:{ exists (Err e), a. split_and!; try done. unfold backfill_stmt in Hs.
      destruct (fault n) as [e'|] eqn:He; [|done]. injection Hs as ->. eauto. }
  destruct (backfill_stmt_spec n batch a k a1 Hwf Hon Hb Hs)
    as (Hwf1 & Hr1 & _ & Hon1 & Hlen & Hk).
  destruct (Nat.eqb_spec k 0) as [->|Hne].
  - exists (Ok (total + 0)%nat), a1.
    assert (missing a1 = []) as Hm by (apply nil_length_inv; lia).
    split_and!; [done|done|done|done|lia|by apply missing_nil_synced].
  - destruct (IH (S n) (total + k)%nat a1 Hwf1 Hon1) as (r & a' & -> & Hwf' & Hr & Hon' & Hres);
      [lia|]. exists r, a'. split_and!; [done|done|congruence|done|].
    destruct r; [|done]. destruct Hres as [-> ?]. split; [lia|done].
Qed.

Lemma setup_wf a : archive_wf a → archive_wf (setup_blocking a) ∧ missing (setup_blocking a) = missing a.
Proof. intros [? ? ? ?]. by split; [split|]. Qed.

(** Enabling the full-text index ends, whatever the order in which rows are found and
    whichever statements fail.  It never touches the history; a successful run reports the
    number of rows that were not indexed and leaves every row indexed, so that running it
    again indexes nothing; a failed one leaves a sound index, from which the next run can go
    on. *)
Lemma enable_fts_completes n batch a :
  archive_wf a →
  ∃ r a', enable_fts order fault n batch a = Some (r, a')
    ∧ archive_wf a' ∧ ar_rows a' = ar_rows a
    ∧ match r with
      | Ok k => k = length (missing a) ∧ synced a'
                ∧ ∀ m, (∀ i, fault i = None) → enable_fts order fault m batch a' = Some (Ok 0%nat, a')
      | Err e => ∃ i, fault i = Some e
      end.
Proof.
  intros Hwf. unfold enable_fts. destruct (fault n) as [e|] eqn:He.
  { exists (Err e), a. by split_and!; [..|exists n]. }
  destruct (setup_wf a Hwf) as [Hwf1 Hm]. unfold backfill_blocking.
  destruct (backfill_loop_spec (S (length (missing (setup_blocking a)))) (S n)
              (Z.max batch 1) 0 (setup_blocking a)) as (r & a' & -> & Hwf' & Hr & Hon & Hres);
    [done|done|lia|lia|].
  exists r, a'. split_and!; [done|done|done|]. destruct r as [k|e]; [|done].
  destruct Hres as [-> Hs]. split_and!; [by rewrite Hm|done|].
  intros m Hok. rewrite Hok.
  assert (setup_blocking a' = a') as -> by (destruct a'; simpl in Hon; by subst).
  rewrite (synced_missing_nil a') by done. simpl. unfold backfill_stmt. rewrite Hok.
  rewrite (synced_missing_nil a') by done.
  assert (order (S m) [] = []) as -> by (apply Permutation_nil_r, order_perm).
  unfold sql_limit. rewrite take_nil. destruct (_ <? 0); simpl; destruct a'; done.
Qed.
End BackfillSpec.
