(* ===== verification/Migrations.v ===== *)
(** * Schema migrations (src/db.rs, [run_migrations])

    The schema as SQLite holds it: tables with their columns and rows, and indexes.  A row
    maps column names to values; a column it does not mention reads as NULL.  The statements
    of [run_migrations] are data ([migrations]), executed in order in one transaction
    ([run_migrations]); the Rust code around each ALTER TABLE, which adds a column only when
    [PRAGMA table_info] does not list it, is [EnsureColumn].  The two UPDATE statements are
    also the row functions [migrate_lease] and [migrate_available] of Db.v. *)
From Stdlib Require Import Ascii String.
From S2P Require Import Prelude Text F64 Db.
Local Open Scope string_scope.
Local Open Scope Z_scope.

Inductive ColType := TEXT | INTEGER | BLOB | REAL.
Inductive SqlValue := Null | Int (z : Z) | Txt (s : string) | Blob (b : bytes) | Real (x : f64).
#[export] Instance f64_eq_dec : EqDecision f64.
Proof. solve_decision. Defined.
#[export] Instance SqlValue_eq_dec : EqDecision SqlValue.
Proof. solve_decision. Defined.

Record Column := mkCol {
  col_name : string; col_type : ColType; col_not_null : bool; col_default : SqlValue }.
Abbreviation Row := (gmap string SqlValue).
Definition field (r : Row) (c : string) : SqlValue := default Null (r !! c).

Record Table := mkTable { tb_cols : list Column; tb_rows : list Row }.
Record Schema := mkSchema {
  sc_tables : gmap string Table;
  sc_indexes : gmap string (string * list string);
}.
#[export] Instance Schema_eta : Eta Schema := λ s, mkSchema (sc_tables s) (sc_indexes s).

Definition col_names (tb : Table) : list string := col_name <$> tb_cols tb.

(** ** Statements *)
Inductive Stmt :=
| CreateTable (t : string) (cols : list Column)
| CreateIndex (ix t : string) (cols : list string)
| EnsureColumn (t : string) (col : Column)
| UpdateLease
| UpdateAvailable.

Inductive MigrationError :=
| NoSuchTable (t : string) | NoSuchColumn (t c : string) | StatementFailed.

Definition has_columns (tb : Table) (cs : list string) : bool :=
  forallb (λ c, bool_decide (c ∈ col_names tb)) cs.

(** [UPDATE jobs SET lease_expires_at_ms = 0
     WHERE state = 'Active' AND lease_expires_at_ms IS NULL] *)
Definition update_lease (r : Row) : Row :=
  if bool_decide (field r "state" = Txt "Active" ∧ field r "lease_expires_at_ms" = Null)
  then <["lease_expires_at_ms" := Int 0]> r else r.
(** [UPDATE jobs SET available_at = created_at
     WHERE available_at IS NULL AND state != 'Delayed']; a comparison with NULL is not true. *)
Definition update_available (r : Row) : Row :=
  if bool_decide (field r "available_at" = Null
                  ∧ field r "state" ≠ Txt "Delayed" ∧ field r "state" ≠ Null)
  then <["available_at" := field r "created_at"]> r else r.

Definition map_rows (f : Row → Row) (tb : Table) : Table :=
  mkTable (tb_cols tb) (f <$> tb_rows tb).
Definition update_jobs (needs : list string) (f : Row → Row) (s : Schema)
  : result MigrationError Schema :=
  match sc_tables s !! "jobs" with
  | None => Err (NoSuchTable "jobs")
  | Some tb =>
      if has_columns tb needs
      then Ok (s <| sc_tables ::= insert "jobs" (map_rows f tb) |>)
      else Err (NoSuchColumn "jobs" "")
  end.

(** [ALTER TABLE t ADD COLUMN]: every row gets the default. *)
Definition add_column (col : Column) (tb : Table) : Table :=
  mkTable (tb_cols tb ++ [col]) (<[col_name col := col_default col]> <$> tb_rows tb).

Definition exec (st : Stmt) (s : Schema) : result MigrationError Schema :=
  match st with
  | CreateTable t cols =>
      match sc_tables s !! t with
      | Some _ => Ok s
      | None => Ok (s <| sc_tables ::= insert t (mkTable cols []) |>)
      end
  | CreateIndex ix t cols =>
      match sc_indexes s !! ix with
      | Some _ => Ok s
      | None =>
          match sc_tables s !! t with
          | None => Err (NoSuchTable t)
          | Some tb =>
              if has_columns tb cols then Ok (s <| sc_indexes ::= insert ix (t, cols) |>)
              else Err (NoSuchColumn t "")
          end
      end
  | EnsureColumn t col =>
      match sc_tables s !! t with
      | None => Err (NoSuchTable t)
      | Some tb =>
          if bool_decide (col_name col ∈ col_names tb) then Ok s
          else Ok (s <| sc_tables ::= insert t (add_column col tb) |>)
      end
  | UpdateLease => update_jobs ["state"; "lease_expires_at_ms"] update_lease s
  | UpdateAvailable => update_jobs ["available_at"; "created_at"; "state"] update_available s
  end.

(** ** The migrations *)
Definition text (c : string) : Column := mkCol c TEXT false Null.
Definition text_nn (c : string) : Column := mkCol c TEXT true Null.
Definition integer (c : string) : Column := mkCol c INTEGER false Null.
Definition integer_nn (c : string) : Column := mkCol c INTEGER true Null.
Definition integer_dflt (c : string) (z : Z) : Column := mkCol c INTEGER true (Int z).
Definition blob (c : string) : Column := mkCol c BLOB false Null.
Definition blob_nn (c : string) : Column := mkCol c BLOB true Null.
Definition real (c : string) : Column := mkCol c REAL false Null.
Definition real_dflt (c : string) (x : f64) : Column := mkCol c REAL true (Real x).

(** The batch of CREATE statements. *)
Definition create_batch : list Stmt := [
  CreateTable "jobs"
    [text "id"; text_nn "name"; text_nn "state"; integer_nn "priority"; blob_nn "payload";
     text "parent_id"; text_nn "trace_id"; integer_nn "execution_depth";
     integer_dflt "attempts" 0; integer_dflt "max_attempts" 3; integer_nn "created_at";
     integer_nn "updated_at"; text "rate_limit_facet"];
  CreateIndex "idx_jobs_waiting_queue" "jobs" ["state"; "priority"; "created_at"];
  CreateTable "job_history"
    [text "id"; text_nn "name"; text_nn "state"; integer_nn "priority"; blob_nn "payload";
     text "parent_id"; text_nn "trace_id"; integer_nn "execution_depth"; integer_nn "attempts";
     integer_nn "max_attempts"; integer_nn "created_at"; integer_nn "finished_at";
     blob "result"];
  CreateTable "rate_limit_rules"
    [text "facet_pattern"; integer_nn "max_jobs"; integer_nn "window_duration_ms"];
  CreateTable "enqueue_receipts"
    [text_nn "queue_name"; text_nn "idempotency_key"; blob_nn "request"; text_nn "job_id";
     text_nn "initial_state"; integer_nn "created_at"; integer_dflt "release_on_finish" 0];
  CreateTable "rate_limit_counters"
    [text "facet_key"; integer_nn "current_count"; integer_nn "window_expires_at"];
  CreateTable "ingress_limit_rules"
    [text "facet_pattern"; integer_nn "max_jobs"; integer_nn "window_duration_ms"];
  CreateTable "ingress_limit_counters"
    [text "facet_key"; integer_nn "current_window_start"; integer_nn "current_count";
     integer_nn "previous_count"];
  CreateTable "chain_counters"
    [text "trace_id"; integer_nn "job_count"; integer_nn "updated_at"];
  CreateIndex "idx_chain_counters_updated" "chain_counters" ["updated_at"];
  CreateTable "facet_dispatch"
    [text "facet_key"; integer_nn "last_served_seq"; integer_nn "last_served_at"];
  CreateIndex "idx_facet_dispatch_seq" "facet_dispatch" ["last_served_seq"];
  CreateIndex "idx_facet_dispatch_served_at" "facet_dispatch" ["last_served_at"];
  CreateTable "enqueue_rejections"
    [integer "id"; integer_nn "rejected_at"; text_nn "kind"; text_nn "name"; text "trace_id";
     text "parent_id"; integer "execution_depth"; text "rate_limit_facet"; text_nn "detail"];
  CreateIndex "idx_rejections_rejected_at" "enqueue_rejections" ["rejected_at"];
  CreateIndex "idx_rejections_name_rejected" "enqueue_rejections" ["name"; "rejected_at"];
  CreateTable "job_schedulers"
    [text "id"; text_nn "job_name"; blob_nn "payload"; text_nn "cron"; text "timezone";
     integer_dflt "produced_count" 0; integer "next_run_at"; text "last_job_id";
     integer "priority"; integer "max_attempts"; integer "retry_backoff_ms";
     integer "retry_backoff_max_ms"; real "retry_jitter"; text "rate_limit_facet";
     integer_nn "created_at"; integer_nn "updated_at"];
  CreateIndex "idx_schedulers_due" "job_schedulers" ["next_run_at"]
].

(** Worker ownership and leases. *)
Definition lease_columns : list Stmt := [
  EnsureColumn "jobs" (text "worker_id");
  EnsureColumn "jobs" (text "last_error");
  EnsureColumn "job_history" (text "worker_id");
  EnsureColumn "job_history" (text "last_error");
  EnsureColumn "job_history" (text "rate_limit_facet");
  EnsureColumn "jobs" (integer "lease_expires_at_ms")
].
(** Scheduling. *)
Definition schedule_columns : list Stmt := [
  CreateIndex "idx_jobs_active_lease" "jobs" ["lease_expires_at_ms"; "state"];
  EnsureColumn "jobs" (integer "available_at");
  EnsureColumn "jobs" (integer_dflt "retry_backoff_ms" 0);
  EnsureColumn "jobs" (integer_dflt "retry_backoff_max_ms" 60000);
  EnsureColumn "jobs" (real_dflt "retry_jitter" f64_zero)
].
(** Receipts, results, flows and the remaining indexes. *)
Definition flow_columns : list Stmt := [
  CreateIndex "idx_jobs_schedulable" "jobs"
    ["priority"; "created_at"; "id"; "available_at"; "state"];
  EnsureColumn "enqueue_receipts" (integer_dflt "release_on_finish" 0);
  EnsureColumn "job_history" (blob "result");
  EnsureColumn "jobs" (integer_dflt "pending_children" 0);
  EnsureColumn "jobs" (integer_dflt "fail_parent_on_failure" 0);
  EnsureColumn "jobs" (text "tree_id");
  EnsureColumn "jobs" (integer_dflt "tree_depth" 0);
  EnsureColumn "job_history" (integer_dflt "fail_parent_on_failure" 0);
  EnsureColumn "job_history" (text "tree_id");
  EnsureColumn "job_history" (integer_dflt "tree_depth" 0);
  CreateIndex "idx_jobs_parent" "jobs" ["parent_id"];
  CreateIndex "idx_receipts_release" "enqueue_receipts" ["job_id"; "release_on_finish"];
  CreateIndex "idx_jobs_pressure" "jobs"
    ["name"; "state"; "available_at"; "created_at"; "lease_expires_at_ms"];
  CreateIndex "idx_history_state_finished" "job_history" ["state"; "finished_at"];
  CreateIndex "idx_history_name_state_finished" "job_history" ["name"; "state"; "finished_at"];
  CreateIndex "idx_history_trace" "job_history" ["trace_id"; "finished_at"]
].
Definition migrations : list Stmt :=
  create_batch ++ lease_columns ++ [UpdateLease] ++ schedule_columns ++ [UpdateAvailable]
  ++ flow_columns.

(** Statements in order; the [n]-th may fail for a reason of SQLite's own. *)
Fixpoint exec_all (fault : nat → bool) (n : nat) (l : list Stmt) (s : Schema)
  : result MigrationError Schema :=
  match l with
  | [] => Ok s
  | st :: l' =>
      if fault n then Err StatementFailed
      else exec st s ≫= exec_all fault (S n) l'
  end.

(** BEGIN IMMEDIATE and COMMIT are statements too. *)
Definition run_migrations (fault : nat → bool) (s : Schema)
  : result MigrationError unit * Schema :=
  if fault 0%nat then (Err StatementFailed, s) else
  match exec_all fault 1 migrations s with
  | Err e => (Err e, s)
  | Ok s' => if fault (S (length migrations)) then (Err StatementFailed, s) else (Ok tt, s')
  end.

(** ** Columns that are there *)
Definition has (s : Schema) (tc : string * string) : Prop :=
  ∃ tb, sc_tables s !! tc.1 = Some tb ∧ tc.2 ∈ col_names tb.

(** The columns ALTER TABLE adds, and those every version of a table has had: the columns of
    its CREATE TABLE that no ALTER TABLE adds. *)
Definition ensured : list (string * Column) :=
  omap (λ st, match st with EnsureColumn t col => Some (t, col) | _ => None end) migrations.
Definition created (t : string) : list Column :=
  mjoin (omap (λ st, match st with
                     | CreateTable t' cols => if String.eqb t t' then Some cols else None
                     | _ => None
                     end) migrations).
Definition base_columns (t : string) : list string :=
  base.filter (λ c, bool_decide ((t, c) ∉ prod_map id col_name <$> ensured))
    (col_name <$> created t).

(** A database of this or an earlier version of the broker: its tables have the columns they
    were created with, and the NOT NULL creation time of its jobs is set. *)
Record legacy (s : Schema) : Prop := {
  legacy_base : ∀ t tb c, sc_tables s !! t = Some tb → c ∈ base_columns t → c ∈ col_names tb;
  legacy_created : ∀ tb r, sc_tables s !! "jobs" = Some tb → r ∈ tb_rows tb →
                           field r "created_at" ≠ Null;
}.

(** The columns of the current version, and its indexes. *)
Definition current_columns : list (string * string) :=
  mjoin (omap (λ st, match st with
                     | CreateTable t cols => Some ((λ c, (t, col_name c)) <$> cols)
                     | EnsureColumn t col => Some [(t, col_name col)]
                     | _ => None
                     end) migrations).
Definition current_indexes : list string :=
  omap (λ st, match st with CreateIndex ix _ _ => Some ix | _ => None end) migrations.
Definition current (s : Schema) : Prop :=
  (∀ tc, tc ∈ current_columns → has s tc)
  ∧ ∀ ix, ix ∈ current_indexes → is_Some (sc_indexes s !! ix).

(** ** A static check that no statement misses a column

    [known] are columns that are there whatever version the database had. *)
Definition needs (st : Stmt) : list (string * string) :=
  match st with
  | CreateTable _ _ => []
  | CreateIndex _ t cols => (λ c, (t, c)) <$> cols
  | EnsureColumn t _ => (λ c, (t, c)) <$> base_columns t
  | UpdateLease => [("jobs", "state"); ("jobs", "lease_expires_at_ms")]
  | UpdateAvailable => [("jobs", "available_at"); ("jobs", "created_at"); ("jobs", "state")]
  end.
Definition gives (st : Stmt) : list (string * string) :=
  match st with
  | CreateTable t cols => (λ c, (t, c)) <$> base_columns t
  | EnsureColumn t col => [(t, col_name col)]
  | _ => []
  end.
Definition checked (known : list (string * string)) (st : Stmt) : bool :=
  bool_decide (Forall (λ tc, tc ∈ known) (needs st))
  && match st with
     | CreateTable t cols => bool_decide (Forall (λ c, c ∈ col_name <$> cols) (base_columns t))
     | CreateIndex _ _ cols => bool_decide (cols ≠ [])
     | EnsureColumn t _ => bool_decide (base_columns t ≠ [])
     | _ => true
     end.
Fixpoint checked_all (known : list (string * string)) (l : list Stmt) : bool :=
  match l with
  | [] => true
  | st :: l' => checked known st && checked_all (gives st ++ known) l'
  end.
Definition given (l : list Stmt) : list (string * string) := mjoin (gives <$> l).

Lemma migrations_checked : checked_all [] migrations = true.
Proof. by vm_compute. Qed.
Lemma migrations_complete : Forall (λ tc, tc ∈ given migrations) current_columns.
Proof. apply (bool_decide_unpack _). by vm_compute. Qed.

Lemma has_table s t c : has s (t, c) → ∃ tb, sc_tables s !! t = Some tb.
Proof. intros (tb & Ht & _). by exists tb. Qed.
Lemma has_lookup s t tb c : sc_tables s !! t = Some tb → has s (t, c) ↔ c ∈ col_names tb.
Proof. intros Ht. unfold has. simpl. rewrite Ht. naive_solver. Qed.

Lemma has_columns_spec tb cs : has_columns tb cs = true ↔ ∀ c, c ∈ cs → c ∈ col_names tb.
Proof.
  unfold has_columns. rewrite forallb_forall. setoid_rewrite bool_decide_eq_true.
  setoid_rewrite <-list_elem_of_In. done.
Qed.

(** ** What a statement does to a table *)
Definition rows_of (s : Schema) (t : string) : list Row :=
  match sc_tables s !! t with Some tb => tb_rows tb | None => [] end.
(** The value of a column once the columns [extra] have been added. *)
Definition fill (extra : list Column) (c : string) (v : SqlValue) : SqlValue :=
  foldl (λ v col, if String.eqb (col_name col) c then col_default col else v) v extra.

Lemma fill_app e1 e2 c v : fill (e1 ++ e2) c v = fill e2 c (fill e1 c v).
Proof. unfold fill. apply foldl_app. Qed.
Lemma fill_other e c v : c ∉ col_name <$> e → fill e c v = v.
Proof.
  unfold fill. revert v. induction e as [|col e IH]; intros v; [done|]. simpl.
  rewrite not_elem_of_cons. intros [Hne Hn]. rewrite IH by done.
  destruct (String.eqb_spec (col_name col) c); congruence.
Qed.

Record evolves (t : string) (extra : list Column) (s s' : Schema) : Prop := {
  ev_rows : Forall2 (λ r r', ∀ c, field r' c = fill extra c (field r c)) (rows_of s t) (rows_of s' t);
  ev_table : is_Some (sc_tables s !! t) → is_Some (sc_tables s' !! t);
  ev_mono : ∀ c, has s (t, c) → has s' (t, c);
  ev_new : ∀ c, c ∈ col_name <$> extra → ¬ has s (t, c) ∧ has s' (t, c);
  ev_only : ∀ c, has s' (t, c) → is_Some (sc_tables s !! t) → has s (t, c) ∨ c ∈ col_name <$> extra;
  ev_src : ∀ col, col ∈ extra → (t, col) ∈ ensured;
}.

Lemma evolves_refl t s s' :
  sc_tables s !! t = sc_tables s' !! t → evolves t [] s s'.
Proof.
  intros E. split; unfold rows_of, has; simpl; rewrite ?E; try done.
  - apply Forall2_same_length_lookup_2; [done|]. intros i x y Hx Hy c. simpl. congruence.
  - intros c Hc. by apply not_elem_of_nil in Hc.
  - intros c Hc _. by left.
  - intros col Hc. by apply not_elem_of_nil in Hc.
Qed.

Lemma evolves_trans t e1 e2 s s1 s2 :
  evolves t e1 s s1 → evolves t e2 s1 s2 → evolves t (e1 ++ e2) s s2.
Proof.
  intros [R1 T1 M1 N1 O1 S1] [R2 T2 M2 N2 O2 S2]. split.
  - eapply Forall2_trans; [|exact R1|exact R2]. simpl.
    intros x y z Hxy Hyz c. by rewrite Hyz, Hxy, fill_app.
  - auto.
  - auto.
  - intros c. rewrite fmap_app, elem_of_app. intros [Hc|Hc].
    + apply N1 in Hc as [? ?]. auto.
    + apply N2 in Hc as [? ?]. auto.
  - intros c Hc Ht. rewrite fmap_app, elem_of_app. destruct (O2 c Hc (T1 Ht)) as [Hc1|]; [|auto].
    destruct (O1 c Hc1 Ht); auto.
  - intros col [Hc|Hc]%elem_of_app; auto.
Qed.

(** Only the two UPDATE statements change values. *)
Definition structural (st : Stmt) : bool :=
  match st with UpdateLease | UpdateAvailable => false | _ => true end.

Definition base_ok (s : Schema) : Prop :=
  ∀ t tb c, sc_tables s !! t = Some tb → c ∈ base_columns t → c ∈ col_names tb.
Definition indexed_by (st : Stmt) (s : Schema) : Prop :=
  match st with CreateIndex ix _ _ => is_Some (sc_indexes s !! ix) | _ => True end.

(** The outcome of a structural statement whose columns are known. *)
Record stepped (st : Stmt) (s s' : Schema) : Prop := {
  st_base : base_ok s';
  st_gives : ∀ tc, tc ∈ gives st → has s' tc;
  st_evolves : ∀ t, ∃ extra, evolves t extra s s';
  st_index : indexed_by st s';
  st_indexes : sc_indexes s ⊆ sc_indexes s';
}.

Lemma elem_of_pair_list (t t' c : string) (l : list string) : (t, c) ∈ (λ c, (t', c)) <$> l ↔ t = t' ∧ c ∈ l.
Proof. rewrite list_elem_of_fmap. naive_solver. Qed.

Lemma exec_create_table known t cols s :
  base_ok s → checked known (CreateTable t cols) = true →
  ∃ s', exec (CreateTable t cols) s = Ok s' ∧ stepped (CreateTable t cols) s s'.
Proof.
  intros Hb [_ Hc]%andb_prop. apply bool_decide_eq_true in Hc. rewrite list.Forall_forall in Hc.
  simpl. destruct (sc_tables s !! t) as [tb|] eqn:Ht.
  - exists s. split; [done|]. split; [done| |by intros u; exists []; apply evolves_refl|done|done].
    intros [u c] [-> Hin]%elem_of_pair_list. exists tb. eauto.
  - eexists. split; [done|].
    assert (∀ u, u ≠ t → sc_tables s !! u = insert t (mkTable cols []) (sc_tables s) !! u) as Hother.
    { intros u Hu. by rewrite lookup_insert_ne. }
    split; simpl; [| | |done|done].
    + intros u tb c. simpl. rewrite lookup_insert. case_decide; [|apply Hb].
      intros [= <-]. subst. apply Hc.
    + intros [u c] [-> Hin]%elem_of_pair_list. exists (mkTable cols []). simpl.
      rewrite lookup_insert_eq. split; [done|by apply Hc].
    + intros u. exists []. destruct (decide (u = t)) as [->|Hu]; [|by apply evolves_refl, Hother].
      split; unfold rows_of, has; simpl; rewrite ?Ht, ?lookup_insert_eq; simpl.
      * constructor.
      * intros [? ?]; done.
      * by intros c (tb & ? & _).
      * by intros c Hin%not_elem_of_nil.
      * by intros c _ [? ?].
      * by intros col Hin%not_elem_of_nil.
Qed.

Lemma exec_create_index known ix t cols s :
  base_ok s → (∀ tc, tc ∈ known → has s tc) → checked known (CreateIndex ix t cols) = true →
  ∃ s', exec (CreateIndex ix t cols) s = Ok s' ∧ stepped (CreateIndex ix t cols) s s'.
Proof.
  intros Hb Hk [Hn Hc]%andb_prop. apply bool_decide_eq_true in Hn, Hc.
  rewrite list.Forall_forall in Hn. simpl in *.
  assert (∀ s', sc_tables s' = sc_tables s → ∀ u, ∃ extra, evolves u extra s s') as Hev.
  { intros s' E u. exists []. apply evolves_refl. by rewrite E. }
  destruct (sc_indexes s !! ix) eqn:Hix.
  { exists s. split; [done|]. split; [done|by intros tc Hin%not_elem_of_nil|by apply Hev| |done].
    simpl. by rewrite Hix. }
  destruct cols as [|c0 cols]; [done|].
  destruct (Hk (t, c0)) as (tb & Ht & _); [apply Hn; by left|]. simpl in Ht. rewrite Ht.
  destruct (has_columns tb (c0 :: cols)) eqn:Hh.
  - eexists. split; [done|]. split; simpl; [done|by intros tc Hin%not_elem_of_nil|by apply Hev| |].
    + by rewrite lookup_insert_eq.
    + by apply insert_subseteq.
  - exfalso. apply not_true_iff_false in Hh. apply Hh, has_columns_spec. intros c Hin.
    apply (has_lookup s t); [done|]. apply Hk, Hn, elem_of_pair_list. done.
Qed.

Lemma exec_ensure_column known t col s :
  base_ok s → (∀ tc, tc ∈ known → has s tc) → EnsureColumn t col ∈ migrations →
  checked known (EnsureColumn t col) = true →
  ∃ s', exec (EnsureColumn t col) s = Ok s' ∧ stepped (EnsureColumn t col) s s'.
Proof.
  intros Hb Hk Hm [Hn Hc]%andb_prop. apply bool_decide_eq_true in Hn, Hc.
  rewrite list.Forall_forall in Hn. simpl in *.
  destruct (base_columns t) as [|c0 l] eqn:Eb; [done|].
  destruct (Hk (t, c0)) as (tb & Ht & _); [apply Hn; by left|]. simpl in Ht. rewrite Ht.
  assert ((t, col) ∈ ensured) as Hsrc by (unfold ensured; apply list_elem_of_omap; by exists (EnsureColumn t col)).
  case_bool_decide as Hin.
  - exists s. split; [done|]. split; [done| |by intros u; exists []; apply evolves_refl|done|done].
    intros tc ->%list_elem_of_singleton. by exists tb.
  - set (tb' := add_column col tb). eexists. split; [done|].
    assert (col_names tb' = (col_names tb ++ [col_name col])%list) as Hnames
      by (unfold tb', col_names; simpl; by rewrite fmap_app).
    assert (∀ u, u ≠ t → sc_tables s !! u = insert t tb' (sc_tables s) !! u) as Hother.
    { intros u Hu. by rewrite lookup_insert_ne. }
    split; simpl; [| | |done|done].
    + intros u tbu c. simpl. rewrite lookup_insert. case_decide; [|apply Hb]. intros [= <-] Hcu.
      subst. rewrite Hnames. apply elem_of_app. left. by eapply Hb.
    + intros tc ->%list_elem_of_singleton. exists tb'. simpl. rewrite lookup_insert_eq.
      split; [done|]. rewrite Hnames. apply elem_of_app. rewrite ?list_elem_of_singleton. auto.
    + intros u. destruct (decide (u = t)) as [->|Hu]; [|exists []; by apply evolves_refl, Hother].
      exists [col]. split; unfold rows_of, has; simpl; rewrite ?Ht, ?lookup_insert_eq; simpl.
      * apply Forall2_fmap_r, Forall_Forall2_diag, list.Forall_forall. intros r _ c. unfold field.
        destruct (String.eqb_spec (col_name col) c) as [->|Hne];
          [by rewrite lookup_insert_eq|by rewrite lookup_insert_ne].
      * done.
      * intros c (tb0 & [= <-] & Hc0). exists tb'. split; [done|]. rewrite Hnames. apply elem_of_app. rewrite ?list_elem_of_singleton. auto.
      * intros c ->%list_elem_of_singleton. split; [by intros (? & [= <-] & ?)|].
        exists tb'. split; [done|]. rewrite Hnames. apply elem_of_app. rewrite ?list_elem_of_singleton. auto.
      * intros c (tb0 & [= <-] & Hc0) _. rewrite Hnames in Hc0.
        apply elem_of_app in Hc0 as [?|?]; [left; eauto|by right].
      * by intros col' ->%list_elem_of_singleton.
Qed.

(** ** Runs of structural statements *)
Definition no_fault (n : nat) : bool := false.
Definition known_after (known : list (string * string)) (l : list Stmt) : list (string * string) :=
  foldl (λ k st, gives st ++ k)%list known l.

Record phase (l : list Stmt) (known : list (string * string)) (s s' : Schema) : Prop := {
  ph_base : base_ok s';
  ph_known : ∀ tc, tc ∈ known_after known l → has s' tc;
  ph_evolves : ∀ t, ∃ extra, evolves t extra s s';
  ph_index : ∀ st, st ∈ l → indexed_by st s';
  ph_indexes : sc_indexes s ⊆ sc_indexes s';
}.

Lemma exec_structural known st s :
  structural st = true → st ∈ migrations → base_ok s → (∀ tc, tc ∈ known → has s tc) →
  checked known st = true → ∃ s', exec st s = Ok s' ∧ stepped st s s'.
Proof.
  destruct st; intros Hst Hm Hb Hk Hc; [..|done|done].
  - by eapply exec_create_table.
  - by eapply exec_create_index.
  - by eapply exec_ensure_column.
Qed.

Lemma stepped_has st s s' tc : stepped st s s' → has s tc → has s' tc.
Proof.
  destruct tc as [t c]. intros Hs Hc. destruct (st_evolves _ _ _ Hs t) as [e He].
  by apply (ev_mono _ _ _ _ He).
Qed.
Lemma indexed_by_mono st s s' : sc_indexes s ⊆ sc_indexes s' → indexed_by st s → indexed_by st s'.
Proof. intros Hs. destruct st; simpl; [done| |done..]. intros [x Hx]. exists x. by eapply lookup_weaken. Qed.

Lemma exec_all_structural l known n s :
  Forall (λ st, structural st = true ∧ st ∈ migrations) l → base_ok s →
  (∀ tc, tc ∈ known → has s tc) → checked_all known l = true →
  ∃ s', exec_all no_fault n l s = Ok s' ∧ phase l known s s'.
Proof.
  intros Hl. revert known n s. induction Hl as [|st l [Hst Hm] _ IH]; intros known n s Hb Hk Hc.
  - exists s. split; [done|]. split; [done|done|by intros t; exists []; apply evolves_refl| |done].
    by intros st Hin%not_elem_of_nil.
  - simpl in Hc. apply andb_prop in Hc as [Hc1 Hc2].
    destruct (exec_structural known st s Hst Hm Hb Hk Hc1) as (s1 & E1 & Hs1).
    destruct (IH (gives st ++ known)%list (S n) s1) as (s' & E2 & [P1 P2 P3 P4 P5]);
      [by apply Hs1| |done|].
    { intros tc [Hin|Hin]%elem_of_app; [by apply (st_gives _ _ _ Hs1)|].
      eapply stepped_has; [exact Hs1|by apply Hk]. }
    exists s'. split; [simpl; by rewrite E1|]. split; [done|exact P2| | |].
    + intros t. destruct (st_evolves _ _ _ Hs1 t) as [e1 He1], (P3 t) as [e2 He2].
      exists (e1 ++ e2)%list. by eapply evolves_trans.
    + intros st' [->|Hin]%elem_of_cons; [|by apply P4].
      eapply indexed_by_mono; [exact P5|]. apply Hs1.
    + etrans; [apply Hs1|exact P5].
Qed.

Lemma exec_all_app l1 l2 n s :
  exec_all no_fault n (l1 ++ l2) s
  = exec_all no_fault n l1 s ≫= exec_all no_fault (n + length l1) l2.
Proof.
  revert n s. induction l1 as [|st l1 IH]; intros n s; simpl.
  - by rewrite Nat.add_0_r.
  - destruct (exec st s) as [s1|e]; simpl; [|done]. rewrite IH.
    by replace (n + S (length l1))%nat with (S n + length l1)%nat by lia.
Qed.
Lemma checked_all_app known l1 l2 :
  checked_all known (l1 ++ l2) = checked_all known l1 && checked_all (known_after known l1) l2.
Proof.
  revert known. induction l1 as [|st l1 IH]; intros known; [done|]. simpl. by rewrite IH, andb_assoc.
Qed.

(** ** The two UPDATE statements *)
Record updated (f : Row → Row) (s s' : Schema) : Prop := {
  up_rows : rows_of s' "jobs" = f <$> rows_of s "jobs";
  up_other : ∀ t, t ≠ "jobs" → sc_tables s' !! t = sc_tables s !! t;
  up_has : ∀ tc, has s' tc ↔ has s tc;
  up_base : base_ok s → base_ok s';
  up_index : sc_indexes s' = sc_indexes s;
}.

Lemma update_jobs_Ok cs f s :
  cs ≠ [] → (∀ c, c ∈ cs → has s ("jobs", c)) →
  ∃ s', update_jobs cs f s = Ok s' ∧ updated f s s'.
Proof.
  intros Hne Hc. destruct cs as [|c0 cs]; [done|].
  destruct (Hc c0) as (tb & Ht & _); [by left|]. simpl in Ht. unfold update_jobs. rewrite Ht.
  assert (has_columns tb (c0 :: cs) = true) as ->.
  { apply has_columns_spec. intros c Hin. by apply (has_lookup s "jobs"), Hc. }
  eexists. split; [done|]. split; unfold rows_of, has, base_ok; simpl.
  - by rewrite Ht, lookup_insert_eq.
  - intros t Hne'. by rewrite lookup_insert_ne.
  - intros [t c]. simpl. rewrite lookup_insert. case_decide; [|done]. subst. rewrite Ht.
    split; intros (tb' & [= <-] & ?); eexists; (split; [done|]); done.
  - intros Hb t tb' c. rewrite lookup_insert. case_decide; [|apply Hb]. intros [= <-]. subst.
    by apply (Hb _ _ _ Ht).
  - done.
Qed.

Lemma field_update_lease r c :
  field (update_lease r) c =
  if String.eqb c "lease_expires_at_ms"
     && bool_decide (field r "state" = Txt "Active" ∧ field r "lease_expires_at_ms" = Null)
  then Int 0 else field r c.
Proof.
  unfold update_lease. case_bool_decide; [|by rewrite andb_false_r]. unfold field at 1.
  rewrite lookup_insert. destruct (String.eqb_spec c "lease_expires_at_ms") as [->|];
    by case_decide.
Qed.
Lemma field_update_available r c :
  field (update_available r) c =
  if String.eqb c "available_at"
     && bool_decide (field r "available_at" = Null
                     ∧ field r "state" ≠ Txt "Delayed" ∧ field r "state" ≠ Null)
  then field r "created_at" else field r c.
Proof.
  unfold update_available. case_bool_decide; [|by rewrite andb_false_r]. unfold field at 1.
  rewrite lookup_insert. destruct (String.eqb_spec c "available_at") as [->|];
    by case_decide.
Qed.

(** ** The upgrade *)

(** The value a row of table [t] has in column [c] after the migrations: the old one, or the
    default of a column that was added; an Active job without a lease is due for recovery at
    once, and a job that is not Delayed and has no due time is due from its creation. *)
Definition expected (t : string) (extra : list Column) (r : Row) (c : string) : SqlValue :=
  let v := fill extra c (field r c) in
  if negb (String.eqb t "jobs") then v
  else if String.eqb c "lease_expires_at_ms" then
    if bool_decide (field r "state" = Txt "Active" ∧ v = Null) then Int 0 else v
  else if String.eqb c "available_at" then
    if bool_decide (v = Null ∧ field r "state" ≠ Txt "Delayed" ∧ field r "state" ≠ Null)
    then field r "created_at" else v
  else v.

(** Table [t] of [s'] is that of [s] with columns added and its rows migrated. *)
Record upgraded (t : string) (extra : list Column) (s s' : Schema) : Prop := {
  ug_rows : Forall2 (λ r r', ∀ c, field r' c = expected t extra r c) (rows_of s t) (rows_of s' t);
  ug_src : ∀ col, col ∈ extra → (t, col) ∈ ensured ∧ ¬ has s (t, col_name col);
  ug_only : ∀ c, has s' (t, c) → is_Some (sc_tables s !! t) → has s (t, c) ∨ c ∈ col_name <$> extra;
}.

Lemma upgraded_other t e1 e2 e3 s s1 s2 s3 s4 s5 :
  t ≠ "jobs" → evolves t e1 s s1 → updated update_lease s1 s2 → evolves t e2 s2 s3 →
  updated update_available s3 s4 → evolves t e3 s4 s5 → ∃ e, upgraded t e s s5.
Proof.
  intros Ht H1 U1 H2 U2 H3.
  assert (evolves t [] s1 s2) as V1 by (apply evolves_refl; by rewrite (up_other _ _ _ U1)).
  assert (evolves t [] s3 s4) as V2 by (apply evolves_refl; by rewrite (up_other _ _ _ U2)).
  pose proof (evolves_trans _ _ _ _ _ _ (evolves_trans _ _ _ _ _ _ (evolves_trans _ _ _ _ _ _
    (evolves_trans _ _ _ _ _ _ H1 V1) H2) V2) H3) as [R _ _ N O S].
  eexists. split; [|intros col Hc; split; [by apply S|apply N, list_elem_of_fmap_2, Hc]|exact O].
  eapply list.Forall2_impl; [exact R|]. intros r r' Hr c. rewrite Hr. unfold expected.
  by rewrite (proj2 (String.eqb_neq _ _) Ht).
Qed.

(** One row of [jobs] through the three groups of added columns and the two updates. *)
Lemma upgraded_row e1 e2 e3 r r1 r3 r5 c :
  (∀ c, field r1 c = fill e1 c (field r c)) →
  (∀ c, field r3 c = fill e2 c (field (update_lease r1) c)) →
  (∀ c, field r5 c = fill e3 c (field (update_available r3) c)) →
  ("state" ∉ col_name <$> e1) → ("state" ∉ col_name <$> e2) →
  ("created_at" ∉ col_name <$> e1) → ("created_at" ∉ col_name <$> e2) →
  ("lease_expires_at_ms" ∉ col_name <$> e2) → ("lease_expires_at_ms" ∉ col_name <$> e3) →
  ("available_at" ∉ col_name <$> e3) →
  field r5 c = expected "jobs" (e1 ++ e2 ++ e3) r c.
Proof.
  intros H1 H3 H5 Hst1 Hst2 Hcr1 Hcr2 Hl2 Hl3 Ha3.
  rewrite H5, field_update_available, !H3, !field_update_lease, !H1.
  rewrite !(fill_other e1 "state"), !(fill_other e2 "state"),
    !(fill_other e1 "created_at"), !(fill_other e2 "created_at") by done.
  unfold expected. rewrite String.eqb_refl. rewrite !fill_app. cbn [negb].
  destruct (String.eqb_spec c "lease_expires_at_ms") as [->|Hcl]; simpl.
  - rewrite !(fill_other e3 "lease_expires_at_ms"), !(fill_other e2 "lease_expires_at_ms") by done.
    done.
  - destruct (String.eqb_spec c "available_at") as [->|Hca]; simpl; [|done].
    by rewrite !(fill_other e3 "available_at") by done.
Qed.

Lemma upgraded_jobs e1 e2 e3 s s1 s2 s3 s4 s5 :
  base_ok s → evolves "jobs" e1 s s1 → has s1 ("jobs", "lease_expires_at_ms") →
  updated update_lease s1 s2 → evolves "jobs" e2 s2 s3 → has s3 ("jobs", "available_at") →
  updated update_available s3 s4 → evolves "jobs" e3 s4 s5 →
  upgraded "jobs" (e1 ++ e2 ++ e3) s s5.
Proof.
  intros Hb [R1 T1 M1 N1 O1 S1] Hl U1 [R2 T2 M2 N2 O2 S2] Ha U2 [R3 T3 M3 N3 O3 S3].
  assert (∀ c, has s ("jobs", c) →
            (c ∉ (col_name <$> e1)) ∧ (c ∉ (col_name <$> e2)) ∧ c ∉ (col_name <$> e3)) as Hold.
  { intros c Hc. split_and!; intros Hin.
    - by apply N1 in Hin as [? _].
    - apply N2 in Hin as [Hn _]. apply Hn, (up_has _ _ _ U1). auto.
    - apply N3 in Hin as [Hn _]. apply Hn, (up_has _ _ _ U2), M2, (up_has _ _ _ U1). auto. }
  assert (("lease_expires_at_ms" ∉ (col_name <$> e2)) ∧ "lease_expires_at_ms" ∉ (col_name <$> e3))
    as [Hl2 Hl3].
  { split; intros Hin.
    - apply N2 in Hin as [Hn _]. by apply Hn, (up_has _ _ _ U1).
    - apply N3 in Hin as [Hn _]. apply Hn, (up_has _ _ _ U2), M2, (up_has _ _ _ U1). auto. }
  assert ("available_at" ∉ col_name <$> e3) as Ha3.
  { intros Hin. apply N3 in Hin as [Hn _]. by apply Hn, (up_has _ _ _ U2). }
  split.
  - destruct (sc_tables s !! "jobs") as [tb|] eqn:Ht.
    2:{ unfold rows_of in R1 at 1. rewrite Ht in R1. apply Forall2_nil_inv_l in R1.
        rewrite (up_rows _ _ _ U1), R1 in R2. apply Forall2_nil_inv_l in R2.
        rewrite (up_rows _ _ _ U2), R2 in R3. apply Forall2_nil_inv_l in R3.
        unfold rows_of at 1. rewrite Ht, R3. constructor. }
    assert (has s ("jobs", "state")) as (Hst1 & Hst2 & Hst3)%Hold.
    { exists tb. split; [done|]. apply (Hb _ _ _ Ht). apply (bool_decide_unpack _). by vm_compute. }
    assert (has s ("jobs", "created_at")) as (Hcr1 & Hcr2 & Hcr3)%Hold.
    { exists tb. split; [done|]. apply (Hb _ _ _ Ht). apply (bool_decide_unpack _). by vm_compute. }
    rewrite (up_rows _ _ _ U1) in R2. rewrite (up_rows _ _ _ U2) in R3.
    apply Forall2_fmap_l in R2, R3.
    pose proof (Forall2_trans _ _ _ _ _ _ (λ x y z Hxy Hyz, ex_intro _ y (conj Hxy Hyz)) R1 R2) as R12.
    pose proof (Forall2_trans _ _ _ _ _ _ (λ x y z Hxy Hyz, ex_intro _ y (conj Hxy Hyz)) R12 R3) as R.
    eapply list.Forall2_impl; [exact R|]. intros r r5 (r3 & (r1 & H1 & H3) & H5) c.
    by eapply upgraded_row; eauto.
  - intros col Hcol. rewrite !elem_of_app in Hcol. split.
    + destruct Hcol as [?|[?|?]]; auto.
    + intros (Hn1 & Hn2 & Hn3)%Hold.
      destruct Hcol as [Hin|[Hin|Hin]]; apply (list_elem_of_fmap_2 col_name) in Hin; done.
  - intros c Hc Ht. rewrite !fmap_app, !elem_of_app.
    assert (is_Some (sc_tables s2 !! "jobs")) as Ht2.
    { apply (up_has _ _ _ U1) in Hl as (tb & Htb & _). by exists tb. }
    assert (is_Some (sc_tables s4 !! "jobs")) as Ht4.
    { apply (up_has _ _ _ U2) in Ha as (tb & Htb & _). by exists tb. }
    destruct (O3 c Hc Ht4) as [H3|]; [|auto]. apply (up_has _ _ _ U2) in H3.
    destruct (O2 c H3 Ht2) as [H2|]; [|auto]. apply (up_has _ _ _ U1) in H2.
    destruct (O1 c H2 Ht); auto.
Qed.

Lemma structural_phases :
  Forall (λ st, structural st = true ∧ st ∈ migrations) (create_batch ++ lease_columns)
  ∧ Forall (λ st, structural st = true ∧ st ∈ migrations) schedule_columns
  ∧ Forall (λ st, structural st = true ∧ st ∈ migrations) flow_columns.
Proof.
  assert (∀ l, forallb structural l = true → (∀ st, st ∈ l → st ∈ migrations) →
               Forall (λ st, structural st = true ∧ st ∈ migrations) l) as H.
  { intros l Hl Hm. apply list.Forall_forall. intros st Hin. split; [|by apply Hm].
    rewrite forallb_forall in Hl. by apply Hl, list_elem_of_In. }
  split_and!; (apply H; [by vm_compute|]); intros st; unfold migrations; rewrite !elem_of_app; tauto.
Qed.

Lemma checked_phases :
  let k1 := known_after [] (create_batch ++ lease_columns) in
  let k2 := known_after k1 schedule_columns in
  checked_all [] (create_batch ++ lease_columns) = true
  ∧ checked_all k1 schedule_columns = true ∧ checked_all k2 flow_columns = true
  ∧ ("jobs", "state") ∈ k1 ∧ ("jobs", "created_at") ∈ k1
  ∧ ("jobs", "lease_expires_at_ms") ∈ k1 ∧ ("jobs", "available_at") ∈ k2
  ∧ Forall (λ tc, tc ∈ known_after k2 flow_columns) current_columns.
Proof.
  cbv zeta. do 3 (split; [vm_compute; reflexivity|]).
  do 4 (split; [apply (bool_decide_unpack _); vm_compute; exact I|]).
  apply (bool_decide_unpack _). vm_compute. exact I.
Qed.

Lemma known_after_mono known l tc : tc ∈ known → tc ∈ known_after known l.
Proof.
  unfold known_after. revert known. induction l as [|st l IH]; intros known Hin; [done|].
  simpl. apply IH, elem_of_app. by right.
Qed.

Lemma exec_all_from n m l s : exec_all no_fault n l s = exec_all no_fault m l s.
Proof.
  revert n m s. induction l as [|st l IH]; intros n m s; [done|].
  simpl. destruct (exec st s); [|done]. apply IH.
Qed.

(** Every index of the current version is created by one of the stages, and stays. *)
Lemma migration_indexes s1 s3 s5 :
  (∀ st, st ∈ (create_batch ++ lease_columns)%list → indexed_by st s1) →
  (∀ st, st ∈ schedule_columns → indexed_by st s3) →
  (∀ st, st ∈ flow_columns → indexed_by st s5) →
  sc_indexes s1 ⊆ sc_indexes s3 → sc_indexes s3 ⊆ sc_indexes s5 →
  ∀ ix, ix ∈ current_indexes → is_Some (sc_indexes s5 !! ix).
Proof.
  intros X1 X3 X5 I13 I35 ix (st & Hst & Hix)%list_elem_of_omap.
  destruct st as [|ix' t cols| | |]; try discriminate Hix. injection Hix as ->.
  unfold migrations in Hst. rewrite app_assoc, !elem_of_app, !list_elem_of_singleton in Hst.
  change (indexed_by (CreateIndex ix t cols) s5).
  destruct Hst as [Hst|[?|[Hst|[?|Hst]]]]; [|discriminate| |discriminate|exact (X5 _ Hst)].
  - eapply indexed_by_mono; [exact I35|]. eapply indexed_by_mono; [exact I13|].
    apply X1, elem_of_app, Hst.
  - eapply indexed_by_mono; [exact I35|]. exact (X3 _ Hst).
Qed.

(** The migrations of a database of any version run to the end; the five stages. *)
Lemma exec_migrations s :
  base_ok s →
  ∃ s', exec_all no_fault 1 migrations s = Ok s'
    ∧ base_ok s' ∧ current s' ∧ ∀ t, ∃ e, upgraded t e s s'.
Proof.
  intros Hb. destruct structural_phases as (F1 & F2 & F3).
  destruct checked_phases as (C1 & C2 & C3 & Kst & Kcr & Kle & Kav & Kall).
  set (k1 := known_after [] (create_batch ++ lease_columns)) in *.
  set (k2 := known_after k1 schedule_columns) in *.
  destruct (exec_all_structural _ [] 1 s F1 Hb) as (s1 & E1 & [B1 P1 V1 X1 I1]);
    [intros tc Hin%not_elem_of_nil; destruct Hin|exact C1|]. fold k1 in P1.
  destruct (update_jobs_Ok ["state"; "lease_expires_at_ms"] update_lease s1) as (s2 & E2 & U2);
    [intros [=]|intros c [->|[->|[]%not_elem_of_nil]%elem_of_cons]%elem_of_cons; apply P1; assumption|].
  destruct (exec_all_structural _ k1 0 s2 F2 (up_base _ _ _ U2 B1)) as (s3 & E3 & [B3 P3 V3 X3 I3]);
    [intros tc Hin; apply (up_has _ _ _ U2), P1, Hin|exact C2|]. fold k2 in P3.
  destruct (update_jobs_Ok ["available_at"; "created_at"; "state"] update_available s3)
    as (s4 & E4 & U4); [intros [=]| |].
  { intros c [->|[->|[->|[]%not_elem_of_nil]%elem_of_cons]%elem_of_cons]%elem_of_cons;
      apply P3; [exact Kav|apply known_after_mono; assumption..]. }
  destruct (exec_all_structural _ k2 0 s4 F3 (up_base _ _ _ U4 B3)) as (s5 & E5 & [B5 P5 V5 X5 I5]);
    [intros tc Hin; apply (up_has _ _ _ U4), P3, Hin|exact C3|].
  clear C1 C2 C3 F1 F2 F3. exists s5. split_and!.
  - unfold migrations. rewrite app_assoc, exec_all_app.
    rewrite E1. cbn [mbind result_bind res_bind]. rewrite exec_all_app.
    cbn [exec_all no_fault exec]. rewrite E2. cbn [mbind result_bind res_bind].
    rewrite exec_all_app, (exec_all_from _ 0%nat), E3. cbn [mbind result_bind res_bind]. rewrite exec_all_app.
    cbn [exec_all no_fault exec]. rewrite E4. cbn [mbind result_bind res_bind].
    by rewrite (exec_all_from _ 0%nat), E5.
  - exact B5.
  - split; [intros tc Hin; apply P5; rewrite list.Forall_forall in Kall; exact (Kall tc Hin)|].
    apply (migration_indexes s1 s3 s5); [exact X1|exact X3|exact X5|..].
    + rewrite <-(up_index _ _ _ U2). exact I3.
    + rewrite <-(up_index _ _ _ U4). exact I5.
  - intros t. destruct (V1 t) as [e1 H1], (V3 t) as [e2 H2], (V5 t) as [e3 H3].
    destruct (decide (t = "jobs")) as [->|Ht].
    + exists (e1 ++ e2 ++ e3)%list.
      exact (upgraded_jobs _ _ _ _ _ _ _ _ _ Hb H1 (P1 _ Kle) U2 H2 (P3 _ Kav) U4 H3).
    + exact (upgraded_other _ _ _ _ _ _ _ _ _ _ Ht H1 U2 H2 U4 H3).
Qed.

Lemma exec_all_noop l n s :
  (∀ st, st ∈ l → exec st s = Ok s) → exec_all no_fault n l s = Ok s.
Proof.
  revert n. induction l as [|st l IH]; intros n Hl; [done|]. cbn [exec_all no_fault].
  rewrite Hl by left. cbn [mbind result_bind res_bind]. apply IH. intros st' Hst. apply Hl. by right.
Qed.

Lemma update_jobs_noop cs f s :
  cs ≠ [] → (∀ c, c ∈ cs → has s ("jobs", c)) → (∀ r, r ∈ rows_of s "jobs" → f r = r) →
  update_jobs cs f s = Ok s.
Proof.
  intros Hne Hc Hf. destruct cs as [|c0 cs]; [done|].
  destruct (Hc c0) as (tb & Ht & _); [by left|]. simpl in Ht. unfold update_jobs, rows_of in *.
  rewrite Ht in *. assert (has_columns tb (c0 :: cs) = true) as ->.
  { apply has_columns_spec. intros c Hin. by apply (has_lookup s "jobs"), Hc. }
  f_equal. destruct s as [ts ix]. simpl in *. unfold update_with. simpl. f_equal.
  rewrite insert_id; [done|]. rewrite Ht. f_equal. destruct tb as [cols rows]. unfold map_rows.
  simpl in *. f_equal. rewrite <-(list_fmap_id rows) at 1.
  apply list_fmap_ext. intros i r Hr. symmetry. apply Hf. by eapply list_elem_of_lookup_2.
Qed.

(** The columns the statements mention are columns of the current version. *)
Lemma current_statements :
  Forall (λ st, match st with
                | CreateTable t cols => ∃ c, head cols = Some c ∧ (t, col_name c) ∈ current_columns
                | EnsureColumn t col => (t, col_name col) ∈ current_columns
                | CreateIndex ix _ _ => ix ∈ current_indexes
                | _ => True
                end) migrations.
Proof.
  apply list.Forall_forall. intros st Hst.
  destruct st as [t cols|ix t cols|t col| |]; [|..|done|done].
  - destruct cols as [|c cols].
    + exfalso. assert (forallb (λ st, match st with CreateTable _ [] => false | _ => true end) migrations
        = true) as H by (vm_compute; reflexivity).
      rewrite forallb_forall in H. apply list_elem_of_In, H in Hst. discriminate Hst.
    + exists c. split; [reflexivity|]. apply list_elem_of_join.
      eexists. split; [|apply list_elem_of_omap; exists (CreateTable t (c :: cols)); split; [exact Hst|reflexivity]].
      by left.
  - apply list_elem_of_omap. by exists (CreateIndex ix t cols).
  - apply list_elem_of_join. eexists.
    split; [|apply list_elem_of_omap; exists (EnsureColumn t col); split; [exact Hst|reflexivity]].
    by left.
Qed.

(** On an upgraded database the migrations change nothing. *)
Lemma migrations_noop s :
  current s →
  (∀ r, r ∈ rows_of s "jobs" → update_lease r = r ∧ update_available r = r) →
  exec_all no_fault 1 migrations s = Ok s.
Proof.
  intros [Hc Hix] Hr. apply exec_all_noop. intros st Hst.
  pose proof current_statements as Hs. rewrite list.Forall_forall in Hs. specialize (Hs st Hst).
  clear Hst. destruct st as [t cols|ix t cols|t col| |]; cbn [exec].
  - destruct Hs as (c & _ & Hin). destruct (Hc _ Hin) as (tb & Ht & _). cbn [fst] in Ht.
    by rewrite Ht.
  - destruct (Hix ix Hs) as [x Hx]. by rewrite Hx.
  - destruct (Hc _ Hs) as (tb & Ht & Hin). cbn [fst snd] in *. rewrite Ht.
    by rewrite bool_decide_eq_true_2.
  - apply update_jobs_noop; [intros [=]| |intros r Hin; apply (Hr r Hin)].
    intros c Hin. apply Hc. clear -Hin.
    apply elem_of_cons in Hin as [->|[->|[]%not_elem_of_nil]%elem_of_cons];
      apply (bool_decide_unpack _); vm_compute; exact I.
  - apply update_jobs_noop; [intros [=]| |intros r Hin; apply (Hr r Hin)].
    intros c Hin. apply Hc. clear -Hin.
    apply elem_of_cons in Hin as [->|[->|[->|[]%not_elem_of_nil]%elem_of_cons]%elem_of_cons];
      apply (bool_decide_unpack _); vm_compute; exact I.
Qed.

(** A migrated job row is left alone by the UPDATE statements. *)
Lemma migrated_row_stable extra r r' :
  (∀ c, field r' c = expected "jobs" extra r c) → fill extra "state" (field r "state") = field r "state" →
  field r "created_at" ≠ Null → update_lease r' = r' ∧ update_available r' = r'.
Proof.
  intros Hr Hst Hcr.
  assert (field r' "state" = field r "state") as Est by (rewrite Hr; exact Hst).
  split.
  - unfold update_lease. rewrite bool_decide_eq_false_2; [done|]. intros [H1 H2].
    rewrite Hr in H2. unfold expected in H2. simpl in H2. rewrite Est in H1.
    case_bool_decide as Hd; [done|]. by apply Hd.
  - unfold update_available. rewrite bool_decide_eq_false_2; [done|]. intros (H1 & H2 & H3).
    rewrite Hr in H1. unfold expected in H1. simpl in H1. rewrite Est in H2, H3.
    case_bool_decide as Hd; [done|]. by apply Hd.
Qed.

(** C34: the migrations upgrade the database of any earlier version.  They never fail for
    want of a table or a column; they leave every column and index of the current version;
    they add columns only where one was missing, with its default, and change no other value
    but the lease of an Active job that had none and the due time of a job that had none and
    is not Delayed; run again they change nothing; and a run that fails changes nothing. *)
Theorem migrations_upgrade s :
  legacy s →
  (∃ s', run_migrations no_fault s = (Ok tt, s')
    ∧ current s' ∧ legacy s'
    ∧ (∀ t, ∃ extra, upgraded t extra s s')
    ∧ run_migrations no_fault s' = (Ok tt, s'))
  ∧ ∀ fault e s', run_migrations fault s = (Err e, s') → s' = s.
Proof.
  intros [Hb Hcr]. split.
  2:{ intros fault e s'. unfold run_migrations. destruct (fault 0%nat); [congruence|].
      destruct (exec_all _ _ _ _) as [s1|]; [|congruence]. destruct (fault _); congruence. }
  destruct (exec_migrations s Hb) as (s' & E & Hb' & Hcur & Hup).
  assert (∀ r', r' ∈ rows_of s' "jobs" →
    field r' "created_at" ≠ Null ∧ update_lease r' = r' ∧ update_available r' = r') as Hrows.
  { intros r' Hr'. destruct (Hup "jobs") as [extra [R S _]].
    destruct (list_elem_of_lookup_1 _ _ Hr') as [i Hi].
    destruct (Forall2_lookup_r _ _ _ _ _ R Hi) as (r & Hri & Hr).
    assert (∃ tb, sc_tables s !! "jobs" = Some tb ∧ r ∈ tb_rows tb) as (tb & Ht & Hin).
    { unfold rows_of in Hri. destruct (sc_tables s !! "jobs") as [tb|]; [|done].
      exists tb. split; [done|]. by eapply list_elem_of_lookup_2. }
    assert (∀ c, c ∈ base_columns "jobs" → fill extra c (field r c) = field r c) as Hold.
    { intros c Hc. apply fill_other. intros (col & -> & Hcol)%list_elem_of_fmap.
      apply S in Hcol as [_ Hn]. apply Hn. exists tb. split; [done|]. by apply (Hb _ _ _ Ht). }
    assert (fill extra "state" (field r "state") = field r "state") as Hst
      by (apply Hold; apply (bool_decide_unpack _); vm_compute; exact I).
    assert (fill extra "created_at" (field r "created_at") = field r "created_at") as Hcre
      by (apply Hold; apply (bool_decide_unpack _); vm_compute; exact I).
    pose proof (Hcr _ _ Ht Hin) as Hn.
    split; [|by eapply migrated_row_stable].
    rewrite Hr. unfold expected. simpl. by rewrite Hcre. }
  assert (exec_all no_fault 1 migrations s' = Ok s') as E'
    by (apply migrations_noop; [exact Hcur|]; intros r Hr; apply (Hrows r Hr)).
  exists s'. unfold run_migrations. cbn [no_fault]. rewrite E, E'. cbn [no_fault].
  split; [reflexivity|]. split; [exact Hcur|]. split; [|split; [exact Hup|reflexivity]].
  split; [exact Hb'|]. intros tb r Ht Hr. apply Hrows. unfold rows_of. rewrite Ht. exact Hr.
Qed.
