(* ===== verification/ReadApi.v ===== *)
(** * The HTTP read endpoints (src/telemetry.rs)

    [/v1/failures], [/v1/rejections], [/v1/search], [/v1/jobs/:id] and [/readyz]: the query
    each builds from its parameters, run by the [Reader], and the status it answers.  The
    parameters arrive parsed at their types; how a request gets here, and what axum refuses
    before the handler runs, is in Http.v.  A snapshot of the database file is the database
    of Db.v with the rowids and the index of its history (Fts.v).  FTS5 and serde_json are
    parameters. *)
From Stdlib Require Import Ascii String.
From Stdlib Require Import Strings.Byte.
From S2P Require Import Prelude Text Query F64 Scheduling Db Encoding Reader Fts.
Local Open Scope string_scope.
Local Open Scope Z_scope.

Inductive StatusCode := OK | BAD_REQUEST | NOT_FOUND | SERVICE_UNAVAILABLE | INTERNAL_SERVER_ERROR.
#[export] Instance StatusCode_eq_dec : EqDecision StatusCode.
Proof. solve_decision. Defined.

(** The closure every endpoint passes to [map_err]. *)
Definition status_of (error : ReaderError) : StatusCode :=
  match error with
  | Busy | Timeout | Unavailable => SERVICE_UNAVAILABLE
  | DbError _ => INTERNAL_SERVER_ERROR
  end.

Record Snapshot := mkSnapshot { sn_db : Db; sn_archive : Archive }.

(** ** Pages

    [ORDER BY key LIMIT n] over the rows a statement finds. *)
Definition order_page {A} (key : A → Key) (limit : Z) (rows : list A) : list A :=
  sql_limit limit (order_by key rows).
(** [params.limit.unwrap_or(default).min(cap) as i64] *)
Definition page_size (dflt cap : Z) (limit : option Z) : Z := Z.min (default dflt limit) cap.
(** [if let Some(x) = param { sql.push_str(" AND ...") }] *)
Definition if_given {A} (p : A → bool) (param : option A) : bool :=
  match param with Some x => p x | None => true end.

(** ** GET /v1/failures *)
Definition FAILURES_DEFAULT_LIMIT : Z := 100.
Definition FAILURES_MAX_LIMIT : Z := 1000.

Record FailuresParams := mkFailuresParams {
  fp_name : option string; fp_since_ms : option Z; fp_limit : option Z }.
Record FailureRow := mkFailureRow {
  fr_id : string; fr_name : string; fr_attempts : Z; fr_finished_at : Z;
  fr_last_error : option string; fr_trace_id : option string; fr_execution_depth : Z }.
Definition failure_row (r : string * HistRow) : FailureRow :=
  let h := r.2 in
  mkFailureRow r.1 (h_name h) (h_attempts h) (h_finished_at h) (h_last_error h)
    (Some (h_trace_id h)) (h_execution_depth h).

Definition failure_where (p : FailuresParams) (id : string) (h : HistRow) : bool :=
  is_state (h_state h) Failed
  && if_given (λ name, String.eqb (h_name h) name) (fp_name p)
  && if_given (λ since, since <=? h_finished_at h) (fp_since_ms p).
(** [ORDER BY finished_at DESC]: rows finished together come in the order they are found. *)
Definition latest (r : string * HistRow) : Key := ([- h_finished_at r.2], "").

Definition failures (t : Attempt Snapshot) (p : FailuresParams)
  : result StatusCode (list FailureRow) :=
  let limit := page_size FAILURES_DEFAULT_LIMIT FAILURES_MAX_LIMIT (fp_limit p) in
  res_map_err status_of
    (reader_query t
       (select (λ scan s,
          Ok (failure_row
                <$> order_page latest limit
                      (scan _ (rows_where (failure_where p) (job_history (sn_db s)))))))).

(** ** GET /v1/rejections *)
Record RejectionsParams := mkRejectionsParams {
  rp_kind : option string; rp_name : option string; rp_trace_id : option string;
  rp_since_ms : option Z; rp_limit : option Z }.
(** A [RejectionRow] is the row with its key. *)
Definition RejectionRow : Type := Z * RejRow.

Definition rejection_where (p : RejectionsParams) (id : Z) (r : RejRow) : bool :=
  if_given (λ kind, String.eqb (rj_kind r) kind) (rp_kind p)
  && if_given (λ name, String.eqb (rj_name r) name) (rp_name p)
  && if_given (λ trace, bool_decide (rj_trace_id r = Some trace)) (rp_trace_id p)
  && if_given (λ since, since <=? rj_rejected_at r) (rp_since_ms p).
(** [ORDER BY rejected_at DESC, id DESC] *)
Definition latest_rejection (r : RejectionRow) : Key := ([- rj_rejected_at r.2; - r.1], "").

Definition rejections (t : Attempt Snapshot) (p : RejectionsParams)
  : result StatusCode (list RejectionRow) :=
  let limit := page_size FAILURES_DEFAULT_LIMIT FAILURES_MAX_LIMIT (rp_limit p) in
  res_map_err status_of
    (reader_query t
       (select (λ scan s,
          Ok (order_page latest_rejection limit
                (scan _ (rows_where (rejection_where p) (enqueue_rejections (sn_db s)))))))).

(** ** GET /v1/search *)
Definition SEARCH_DEFAULT_LIMIT : Z := 100.
Definition SEARCH_MAX_LIMIT : Z := 1000.

(** FTS5: [MATCH expr] over the documents of a table, as the rowids it returns or the error
    it raises; [fts_hit] is what it means for a document to satisfy a conjunction of
    phrases. *)
Class Fts5 := {
  fts_query : string → gmap Z FtsDoc → result RusqliteError (list Z);
  fts_hit : list (string * bool) → FtsDoc → bool;
}.
(** A query made of quoted phrases is accepted and returns the documents that satisfy it. *)
Class FtsLaw `{Fts5} :=
  fts_query_spec : ∀ expr terms docs, fts_parse expr = Some terms → terms ≠ [] →
    ∃ l, fts_query expr docs = Ok l
         ∧ ∀ r, r ∈ l ↔ ∃ doc, docs !! r = Some doc ∧ fts_hit terms doc = true.

Record SearchParams := mkSearchParams {
  sp_q : option string; sp_name : option string; sp_state : option string;
  sp_trace_id : option string; sp_since_ms : option Z; sp_limit : option Z }.
Record SearchRow := mkSearchRow {
  sr_id : string; sr_name : string; sr_state : string; sr_attempts : Z; sr_created_at : Z;
  sr_finished_at : Z; sr_last_error : option string; sr_trace_id : option string;
  sr_execution_depth : Z }.
Definition search_row (r : string * HistRow) : SearchRow :=
  let h := r.2 in
  mkSearchRow r.1 (h_name h) (state_name (h_state h)) (h_attempts h) (h_created_at h)
    (h_finished_at h) (h_last_error h) (Some (h_trace_id h)) (h_execution_depth h).

(** The query text, trimmed; blank is absent. *)
Definition search_text (p : SearchParams) : option string :=
  match sp_q p with
  | Some v => let v := trim v in if is_empty v then None else Some v
  | None => None
  end.
Definition no_predicate (p : SearchParams) : bool :=
  bool_decide (search_text p = None) && bool_decide (sp_name p = None)
  && bool_decide (sp_state p = None) && bool_decide (sp_trace_id p = None)
  && bool_decide (sp_since_ms p = None).

(** [AND (id LIKE ? ESCAPE '\' OR name LIKE ? ... OR last_error LIKE ? ...)]; a NULL column
    does not match. *)
Definition like_clause (q : string) (id : string) (h : HistRow) : bool :=
  let pattern := like_pattern_of q in
  sql_like pattern id || sql_like pattern (h_name h) || sql_like pattern (h_trace_id h)
  || match h_last_error h with Some e => sql_like pattern e | None => false end.
Definition filter_where (p : SearchParams) (h : HistRow) : bool :=
  if_given (λ name, String.eqb (h_name h) name) (sp_name p)
  && if_given (λ state, String.eqb (state_name (h_state h)) state) (sp_state p)
  && if_given (λ trace, String.eqb (h_trace_id h) trace) (sp_trace_id p)
  && if_given (λ since, since <=? h_finished_at h) (sp_since_ms p).

Section Search.
Context `{Fts5}.

(** The rows of the FROM and WHERE clauses: [job_history], or its join with the matches of
    the index on [rowid]. *)
Definition like_rows (q : option string) (p : SearchParams) (s : Snapshot)
  : list (string * HistRow) :=
  rows_where (λ id h, if_given (λ q, like_clause q id h) q && filter_where p h)
    (job_history (sn_db s)).
Definition fts_rows (expr : string) (p : SearchParams) (s : Snapshot)
  : result RusqliteError (list (string * HistRow)) :=
  let ar := sn_archive s in
  fts_query expr (ar_fts ar) ≫= λ l,
  Ok (rows_where
        (λ id h,
           match ar_rowid ar !! id with Some r => bool_decide (r ∈ l) | None => false end
           && filter_where p h)
        (job_history (sn_db s))).

Definition run_search (t : Attempt Snapshot) (p : SearchParams)
    (rows : Snapshot → result RusqliteError (list (string * HistRow)))
  : result StatusCode (list SearchRow) :=
  let limit := page_size SEARCH_DEFAULT_LIMIT SEARCH_MAX_LIMIT (sp_limit p) in
  res_map_err status_of
    (reader_query t
       (select (λ scan s,
          rows s ≫= λ l, Ok (search_row <$> order_page latest limit (scan _ l))))).

Definition search (fts_enabled : bool) (t : Attempt Snapshot) (p : SearchParams)
  : result StatusCode (list SearchRow) :=
  if no_predicate p then Err BAD_REQUEST else
  match (if fts_enabled then search_text p else None) with
  | Some q =>
      match sanitize_match q with
      | Some expr => run_search t p (fts_rows expr p)
      | None => Ok []
      end
  | None => run_search t p (λ s, Ok (like_rows (search_text p) p s))
  end.
End Search.

(** ** GET /v1/jobs/:id *)

(** serde_json *)
Class Json := {
  Value : Type;
  json_from_str : string → option Value;
  json_string : string → Value;
}.

Inductive Source := Live | History.
Record RawJob := mkRaw {
  rw_id : string; rw_name : string; rw_state : JobState; rw_source : Source;
  rw_priority : Z; rw_attempts : Z; rw_max_attempts : Z; rw_created_at : Z;
  rw_finished_at : option Z; rw_parent_id : option string; rw_trace_id : string;
  rw_execution_depth : Z; rw_rate_limit_facet : option string; rw_last_error : option string;
  rw_worker_id : option string; rw_lease_expires_at_ms : option Z; rw_available_at : option Z;
  rw_payload : bytes; rw_result : option bytes }.

Definition raw_live (id : string) (j : Job) : RawJob :=
  mkRaw id (j_name j) (j_state j) Live (j_priority j) (j_attempts j) (j_max_attempts j)
    (j_created_at j) None (j_parent_id j) (j_trace_id j) (j_execution_depth j)
    (j_rate_limit_facet j) None (j_worker_id j) (j_lease_expires_at_ms j) (j_available_at j)
    (j_payload j) None.
Definition raw_history (id : string) (h : HistRow) : RawJob :=
  mkRaw id (h_name h) (h_state h) History (h_priority h) (h_attempts h) (h_max_attempts h)
    (h_created_at h) (Some (h_finished_at h)) (h_parent_id h) (h_trace_id h)
    (h_execution_depth h) (h_rate_limit_facet h) (h_last_error h) (h_worker_id h) None None
    (h_payload h) (h_result h).

(** The closure: two statements, each on its own snapshot. *)
Definition find_job (id : string) : Q Snapshot (option RawJob) :=
  live ← select (λ _ s, Ok (raw_live id <$> jobs (sn_db s) !! id));
  match live with
  | Some job => mret (Some job)
  | None => select (λ _ s, Ok (raw_history id <$> job_history (sn_db s) !! id))
  end.

Inductive Encoded := AsJson | AsBase64.
Section JobDetail.
Context `{Json}.

Definition encode_blob (x : bytes) : Value * Encoded :=
  match (text ← from_utf8 x; json_from_str text) with
  | Some value => (value, AsJson)
  | None => (json_string (base64_encode x), AsBase64)
  end.

(** [JobDetail]: the raw row with its blobs encoded. *)
Record JobDetail := mkDetail {
  jd_raw : RawJob; jd_payload : Value * Encoded; jd_result : option (Value * Encoded) }.
Definition detail_of (raw : RawJob) : JobDetail :=
  mkDetail raw (encode_blob (rw_payload raw)) (encode_blob <$> rw_result raw).

Definition job_detail (t : Attempt Snapshot) (id : string) : result StatusCode JobDetail :=
  if is_blank id then Err BAD_REQUEST else
  match res_map_err status_of (reader_query t (find_job id)) with
  | Err e => Err e
  | Ok None => Err NOT_FOUND
  | Ok (Some raw) => Ok (detail_of raw)
  end.
End JobDetail.

(** ** GET /readyz

    What the probe meets: whether the writer's mutex is free, whether the transaction, its
    query and its rollback succeed, and whether that happens within a second. *)
Record Probe := mkProbe {
  pb_lock_free : bool; pb_begin : bool; pb_query : bool; pb_rollback : bool;
  pb_joined : bool; pb_in_time : bool }.
Definition line (s : string) : string := s ++ String newline "".
Definition ready (p : Probe) : StatusCode * string :=
  if negb (pb_lock_free p) then (SERVICE_UNAVAILABLE, line "database busy")
  else if pb_in_time p && pb_joined p && pb_begin p && pb_query p && pb_rollback p
  then (OK, line "ready")
  else (SERVICE_UNAVAILABLE, line "database unavailable").

(** ** Pages are the latest rows *)
Record is_page {A} (key : A → Key) (limit : Z) (rows page : list A) : Prop := {
  page_sub : page ⊆+ rows;
  page_length : Z.of_nat (length page) = Z.min limit (Z.of_nat (length rows));
  page_sorted : StronglySorted (key_of_le key) page;
  page_rest : ∀ x y, x ∈ page → y ∈ rows → y ∉ page → key_of_le key x y;
}.

Lemma page_elem {A} (key : A → Key) limit rows page x :
  is_page key limit rows page → x ∈ page → x ∈ rows.
Proof. intros Hp Hx. by apply (elem_of_submseteq _ _ _ Hx (page_sub _ _ _ _ Hp)). Qed.
(** A page shorter than the limit leaves nothing out. *)
Lemma page_all {A} (key : A → Key) limit rows page :
  is_page key limit rows page → Z.of_nat (length page) < limit → page ≡ₚ rows.
Proof.
  intros [Hsub Hlen _ _] Hl. apply submseteq_length_Permutation; [done|]. lia.
Qed.

Lemma order_page_spec {A} (key : A → Key) limit (rows found : list A) :
  found ≡ₚ rows → 0 ≤ limit → is_page key limit rows (order_page key limit found).
Proof.
  intros Hp Hl. unfold order_page. split.
  - rewrite <-Hp. transitivity (order_by key found).
    + apply sublist_submseteq, sql_limit_sublist.
    + unfold order_by. by rewrite merge_sort_Permutation.
  - rewrite length_sql_limit, length_order_by, Hp by done. done.
  - unfold sql_limit. destruct (limit <? 0).
    + apply (StronglySorted_merge_sort (key_of_le key)).
    + eapply StronglySorted_app_1_l. rewrite (take_drop (Z.to_nat limit) (order_by key found)).
      apply (StronglySorted_merge_sort (key_of_le key)).
  - intros x y Hx Hy. apply (limit_order_by key); [done|]. by rewrite Hp.
Qed.

Lemma page_nil {A} (key : A → Key) limit : 0 ≤ limit → is_page key limit [] [].
Proof.
  intros Hl. split; [done|simpl; lia|constructor|]. by intros x y ?%not_elem_of_nil.
Qed.

Lemma page_size_nonneg dflt cap limit :
  0 ≤ dflt → 0 ≤ cap → (∀ n, limit = Some n → 0 ≤ n) → 0 ≤ page_size dflt cap limit ≤ cap.
Proof.
  intros Hd Hc Hn. unfold page_size. destruct limit as [n|]; simpl; [|lia].
  specialize (Hn n eq_refl). lia.
Qed.

(** ** Attempts that meet no failure *)
Definition healthy (t : Attempt Snapshot) (c : Conn Snapshot) : Prop :=
  at_permit t = true ∧ at_joined t = Finished ∧ at_query_only t = None
  ∧ at_busy_timeout t = None ∧ at_open t = Some c ∧ ∀ n, conn_fault c n = None.

Lemma healthy_query {A} t c (f : Q Snapshot A) :
  healthy t c → reader_query t f = res_map_err ReaderError_from (f c 0%nat).1.
Proof.
  intros (Hp & Hj & Hq & Hb & Ho & _). unfold reader_query, reader_blocking.
  by rewrite Hp, Hj, Ho, Hq, Hb.
Qed.
Lemma healthy_select {A} t c n (f : (∀ B, list B → list B) → Snapshot → result RusqliteError A) :
  healthy t c → select f c n = (f (conn_scan c n) (conn_snapshot c n), S n).
Proof. intros (_ & _ & _ & _ & _ & Hf). unfold select. by rewrite Hf. Qed.

(** ** Search *)
Section SearchSpec.
Context `{HF : Fts5, HL : !FtsLaw}.

(** What the text of a query means for a row: with the index, the row's document satisfies
    the terms of the query; without it, the query occurs in one of the four columns,
    whatever its ASCII case. *)
Definition text_match (fts_enabled : bool) (q id : string) (h : HistRow) : bool :=
  if fts_enabled then
    match match_terms q with [] => false | ts => fts_hit ts (fts_doc id h) end
  else
    contains_ci q (c_str id) || contains_ci q (c_str (h_name h))
    || contains_ci q (c_str (h_trace_id h))
    || match h_last_error h with Some e => contains_ci q (c_str e) | None => false end.
Definition search_match (fts_enabled : bool) (p : SearchParams) (id : string) (h : HistRow)
  : bool :=
  if_given (λ q, text_match fts_enabled q id h) (search_text p) && filter_where p h.

Lemma like_clause_spec q id h :
  nul_free q = true → like_clause q id h = text_match false q id h.
Proof.
  intros Hq. unfold like_clause, text_match. rewrite !like_pattern_of_spec by done.
  destruct (h_last_error h); [by rewrite like_pattern_of_spec|done].
Qed.

(** The index a snapshot must hold for a search through it. *)
Definition indexed (s : Snapshot) : Prop :=
  archive_wf (sn_archive s) ∧ synced (sn_archive s)
  ∧ ar_rows (sn_archive s) = job_history (sn_db s).

Lemma fts_rows_spec q expr p s :
  nul_free q = true → sanitize_match q = Some expr → indexed s →
  search_text p = Some q →
  fts_rows expr p s = Ok (rows_where (search_match true p) (job_history (sn_db s))).
Proof.
  intros Hq He (Hwf & [_ Hs] & Hrows) Ht.
  destruct (sanitize_match_parse q expr Hq He) as [Hparse Hne].
  unfold fts_rows. destruct (fts_query_spec expr _ (ar_fts (sn_archive s)) Hparse Hne)
    as (l & -> & Hl). simpl. f_equal. apply rows_where_ext. intros id h Hh.
  unfold search_match. rewrite Ht. simpl. f_equal.
  rewrite <-Hrows in Hh. destruct (wf_rowid _ _ _ Hwf Hh) as [r Hr]. rewrite Hr.
  unfold text_match. destruct (match_terms q) as [|t ts] eqn:Em; [done|].
  apply eq_bool_prop_intro. rewrite bool_decide_spec, Hl. rewrite Is_true_true.
  rewrite (Hs id h r Hh Hr). naive_solver.
Qed.

Lemma run_search_spec t c p rows l :
  healthy t c → ConnLaw c → (∀ n, sp_limit p = Some n → 0 ≤ n) →
  rows (conn_snapshot c 0) = Ok l →
  ∃ sel, run_search t p rows = Ok (search_row <$> sel)
         ∧ is_page latest (page_size SEARCH_DEFAULT_LIMIT SEARCH_MAX_LIMIT (sp_limit p)) l sel.
Proof.
  intros Ht Hc Hn Hl. unfold run_search. rewrite (healthy_query _ _ _ Ht).
  rewrite (healthy_select _ _ _ _ Ht). simpl. rewrite Hl. simpl. eexists. split; [done|].
  apply order_page_spec; [apply Hc|]. by apply page_size_nonneg.
Qed.

End SearchSpec.

(** ** Blobs *)
Section BlobSpec.
Context `{HJ : Json}.

(** What a client makes of an encoded blob. *)
Definition blob_of (v : Value * Encoded) (x : bytes) : Prop :=
  match v.2 with
  | AsJson => ∃ text, from_utf8 x = Some text ∧ json_from_str text = Some v.1
  | AsBase64 => ∃ s, v.1 = json_string s ∧ base64_decode s = Some x
  end.

(** The bytes of a job are served faithfully.  A payload or a result that is UTF-8 JSON
    is embedded as its value; any other is a base64 string from which an RFC 4648 decoder
    gives back exactly the bytes, and the encoding named beside it says which; a job without
    a result has none. *)
Theorem job_detail_blobs raw :
  let d := detail_of raw in
  blob_of (jd_payload d) (rw_payload raw)
  ∧ match rw_result raw, jd_result d with
    | Some x, Some v => blob_of v x
    | None, None => True
    | _, _ => False
    end
  ∧ ((jd_payload d).2 = AsJson ↔
     ∃ text, from_utf8 (rw_payload raw) = Some text ∧ is_Some (json_from_str text)).
Proof.
  assert (∀ x, blob_of (encode_blob x) x
            ∧ ((encode_blob x).2 = AsJson ↔
               ∃ text, from_utf8 x = Some text ∧ is_Some (json_from_str text))) as Hx.
  { intros x. unfold blob_of, encode_blob. destruct (from_utf8 x) as [text|]; simpl.
    - destruct (json_from_str text) as [v|] eqn:E; simpl.
      + split; [by exists text|]. split; [|done]. intros _. exists text. by rewrite E.
      + split; [eexists; split; [done|apply base64_decode_encode]|].
        split; [done|]. intros (? & [= <-] & [? ?]). congruence.
    - split; [eexists; split; [done|apply base64_decode_encode]|].
      split; [done|]. by intros (? & ? & _). }
  intros d. split_and!; [apply Hx| |apply Hx].
  simpl. destruct (rw_result raw); simpl; [apply Hx|done].
Qed.
End BlobSpec.
