(* ===== verification/Pressure.v ===== *)
(** * Pressure metrics (src/pressure.rs)

    Claim-delay histograms updated by [claimed], and the sampled backlog gauges computed by
    [sample] from the [jobs] table.  Counters are atomics of 64 bits. *)
From Stdlib Require Import Ascii String.
From S2P Require Import Prelude Text F64 Db.
Local Open Scope string_scope.
Local Open Scope Z_scope.

(** [fetch_add] on an [AtomicU64] and on an [AtomicI64]. *)
Definition u64_add (n : Z) (c : Z) : Z := wrap_u64 (c + n).
Definition i64_fetch_add (n : Z) (c : Z) : Z := wrap_i64 (c + n).

(** ** Histograms *)
Definition BOUNDS_MS : list Z := [1; 10; 100; 500; 1000; 5000; 15000; 60000; 300000; 3600000].

Record Histogram := mkHistogram { hg_buckets : list Z; hg_count : Z; hg_millis : Z }.
#[export] Instance Histogram_eta : Eta Histogram := λ r,
  mkHistogram (hg_buckets r) (hg_count r) (hg_millis r).
Definition empty_histogram : Histogram := mkHistogram (replicate 10 0) 0 0.

(** [Histogram::observe]: cumulative buckets. *)
Definition observe (ms : Z) (h : Histogram) : Histogram :=
  let ms := Z.max ms 0 in
  mkHistogram
    (zip_with (λ bound c, if ms <=? bound then u64_add 1 c else c) BOUNDS_MS (hg_buckets h))
    (u64_add 1 (hg_count h))
    (u64_add ms (hg_millis h)).

(** ** Backlog *)
Record Backlog := mkBacklog { bl_counts : list Z; bl_oldest_due_ms : Z }.
Definition empty_backlog : Backlog := mkBacklog (replicate 6 0) 0.

Record Pressure := mkPressure {
  pr_all : Backlog;
  pr_queues : list (string * Backlog);
  pr_sampled_at_ms : Z;
  pr_errors : Z;
  pr_duration_us : Z;
  pr_first_claim : Histogram;
  pr_due_wait : Histogram;
}.
#[export] Instance Pressure_eta : Eta Pressure := λ r,
  mkPressure (pr_all r) (pr_queues r) (pr_sampled_at_ms r) (pr_errors r) (pr_duration_us r)
    (pr_first_claim r) (pr_due_wait r).
Definition default_pressure : Pressure :=
  mkPressure empty_backlog [] 0 0 0 empty_histogram empty_histogram.

Definition queue_name_ok (n : string) : bool :=
  negb (is_blank n) && String.eqb (trim n) n && (str_len n <=? 256).

(** [Pressure::configured] *)
Definition configured (value : string) : option Pressure :=
  let names := if is_empty value then [] else split_on ","%char value in
  if (Z.of_nat (length names) >? 32) || negb (forallb queue_name_ok names)
     || bool_decide (¬ NoDup names)
  then None
  else Some (default_pressure <| pr_queues := (λ n, (n, empty_backlog)) <$> names |>).

Definition queue_names (p : Pressure) : list string := (pr_queues p).*1.

(** [Pressure::claimed] *)
Definition claimed (created available now attempt : Z) (p : Pressure) : Pressure :=
  let p1 := if attempt =? 1
            then p <| pr_first_claim ::= observe (i64_saturating_sub now created) |>
            else p in
  p1 <| pr_due_wait ::= observe (i64_saturating_sub now (Z.max available created)) |>.

(** ** Sampling *)
Definition count_where (P : Job → bool) (l : list Job) : Z :=
  Z.of_nat (length (base.filter P l)).

(** [available_at <= ?1] with SQL's NULL *)
Definition due_by (now : Z) (o : option Z) : bool :=
  match o with Some t => t <=? now | None => false end.

Definition job_due (now : Z) (j : Job) : bool :=
  runnable (j_state j) && due_by now (j_available_at j).
Definition job_unscheduled (j : Job) : bool :=
  runnable (j_state j) && bool_decide (j_available_at j = None).
Definition job_lease_expired (now : Z) (j : Job) : bool :=
  is_state (j_state j) Active
  && match j_lease_expires_at_ms j with Some e => e <=? now | None => true end.

Definition due_since (j : Job) : Z := Z.max (j_created_at j) (default 0 (j_available_at j)).

Definition min_opt (l : list Z) : option Z :=
  match l with [] => None | x :: l' => Some (foldr Z.min x l') end.

(** The aggregates of one group: the six counts and the oldest due time. *)
Definition group_counts (now : Z) (l : list Job) : list Z * option Z :=
  ([ count_where (λ j, is_state (j_state j) Waiting) l;
     count_where (λ j, is_state (j_state j) Delayed) l;
     count_where (λ j, is_state (j_state j) Active) l;
     count_where (job_due now) l;
     count_where job_unscheduled l;
     count_where (job_lease_expired now) l ],
   min_opt (due_since <$> base.filter (job_due now) l)).

(** [CASE WHEN name IN (...) THEN name ELSE NULL END] *)
Definition queue_group (names : list string) (j : Job) : option string :=
  if decide (j_name j ∈ names) then Some (j_name j) else None.

Definition group_rows (names : list string) (l : list Job) (g : option string) : list Job :=
  base.filter (λ j, queue_group names j = g) l.

(** The rows of the GROUP BY: one per group that has a job. *)
Definition sample_rows (names : list string) (now : Z) (l : list Job)
  : list (option string * (list Z * option Z)) :=
  base.filter (λ r, group_rows names l r.1 ≠ [])
    ((λ g, (g, group_counts now (group_rows names l g))) <$> (None :: (Some <$> names))).

Definition add_counts (a b : list Z) : list Z := zip_with Z.add a b.
Definition min_oldest (a b : option Z) : option Z :=
  match b with
  | Some o => Some (match a with Some v => Z.min v o | None => o end)
  | None => a
  end.

Definition accumulate (acc : list Z * option Z) (row : option string * (list Z * option Z))
  : list Z * option Z :=
  (add_counts acc.1 row.2.1, min_oldest acc.2 row.2.2).

Definition publish (now : Z) (v : list Z * option Z) : Backlog :=
  mkBacklog v.1
    (match v.2 with Some t => Z.max (i64_saturating_sub now t) 0 | None => 0 end).

(** The row of a configured queue, or zeros when no job carries its name. *)
Definition queue_row (rows : list (option string * (list Z * option Z))) (n : string)
  : list Z * option Z :=
  match list_find (λ r, r.1 = Some n) rows with
  | Some (_, r) => r.2
  | None => (replicate 6 0, None)
  end.

(** [Pressure::sample] on the committed jobs. *)
Definition sample (d : Db) (now : Z) (p : Pressure) : Pressure :=
  let rows := sample_rows (queue_names p) now (map_to_list (jobs d)).*2 in
  let all := foldl accumulate (replicate 6 0, None) rows in
  p <| pr_all := publish now all |>
    <| pr_queues ::= fmap (λ q : string * Backlog, (q.1, publish now (queue_row rows q.1))) |>
    <| pr_sampled_at_ms := now |>.

(** ** The sample is the table

    [sample] adds up the groups of one grouped query; the result is the aggregate over all
    jobs, since the groups partition them. *)
Definition no_jobs : list Z * option Z := (replicate 6 0, None).
Definition plus_counts (a b : list Z * option Z) : list Z * option Z :=
  (add_counts a.1 b.1, min_oldest a.2 b.2).

Lemma count_where_app P l1 l2 : count_where P (l1 ++ l2) = count_where P l1 + count_where P l2.
Proof. unfold count_where. rewrite list.filter_app, length_app. lia. Qed.
(** The minimum one element at a time. *)
Definition min_cons (x : Z) (o : option Z) : option Z :=
  Some (match o with Some y => Z.min x y | None => x end).
Lemma min_opt_cons x l : min_opt (x :: l) = min_cons x (min_opt l).
Proof.
  destruct l as [|y l]; simpl; [done|]. unfold min_cons. f_equal.
  induction l as [|z l IH]; simpl; lia.
Qed.
Lemma min_opt_app l1 l2 : min_opt (l1 ++ l2) = min_oldest (min_opt l1) (min_opt l2).
Proof.
  induction l1 as [|x l1 IH]; cbn [app].
  - simpl. by destruct (min_opt l2).
  - rewrite !min_opt_cons, IH. unfold min_cons, min_oldest.
    destruct (min_opt l1), (min_opt l2); f_equal; lia.
Qed.
Lemma min_opt_perm l l' : l ≡ₚ l' → min_opt l = min_opt l'.
Proof.
  induction 1 as [|x l l' _ IH|x y l|l1 l2 l3 _ IH1 _ IH2]; [done|..].
  - by rewrite !min_opt_cons, IH.
  - rewrite !min_opt_cons. unfold min_cons. destruct (min_opt l); f_equal; lia.
  - by rewrite IH1.
Qed.
Lemma group_counts_app now l1 l2 :
  group_counts now (l1 ++ l2) = plus_counts (group_counts now l1) (group_counts now l2).
Proof.
  unfold group_counts, plus_counts. cbn [fst snd add_counts zip_with].
  by rewrite !count_where_app, list.filter_app, fmap_app, min_opt_app.
Qed.

Lemma group_counts_perm now l l' : l ≡ₚ l' → group_counts now l = group_counts now l'.
Proof.
  intros Hp. unfold group_counts, count_where. f_equal.
  - by rewrite Hp.
  - apply min_opt_perm. by rewrite Hp.
Qed.

(** A list is the concatenation of its groups, up to order. *)
Lemma partition_perm {A B} `{EqDecision B} (f : A → B) (gs : list B) (l : list A) :
  NoDup gs → (∀ a, a ∈ l → f a ∈ gs) →
  l ≡ₚ mjoin ((λ g, base.filter (λ a, f a = g) l) <$> gs).
Proof.
  intros Hnd. revert l. induction Hnd as [|g gs Hg _ IH]; intros l Hall.
  { destruct l as [|a l]; [done|]. exfalso. eapply not_elem_of_nil, (Hall a). by left. }
  simpl. rewrite <-(filter_app_complement (λ a, f a = g) l) at 1. f_equiv.
  rewrite (IH (base.filter (λ a, ¬ f a = g) l)).
  - apply Permutation_refl'. f_equal. apply list_fmap_ext. intros i g' Hi. simpl.
    rewrite list_filter_filter. apply list_filter_iff. intros a.
    apply list_elem_of_lookup_2 in Hi. split; [by intros []|]. intros <-. split; [done|].
    intros Heq. by rewrite Heq in Hi.
  - intros a [Hne Ha]%list_elem_of_filter. apply Hall in Ha. by apply elem_of_cons in Ha as [|].
Qed.

Lemma groups_perm names l :
  NoDup names → l ≡ₚ mjoin (group_rows names l <$> (None :: (Some <$> names))).
Proof.
  intros Hnd. apply (partition_perm (queue_group names)).
  - constructor; [by intros (? & ? & _)%list_elem_of_fmap|by apply (NoDup_fmap_2 _)].
  - intros j _. unfold queue_group. case_decide; [right; by apply list_elem_of_fmap_2|by left].
Qed.

Lemma plus_counts_assoc a b c : plus_counts (plus_counts a b) c = plus_counts a (plus_counts b c).
Proof.
  unfold plus_counts, add_counts. simpl. f_equal.
  - generalize b.1 as y, c.1 as z. induction a.1 as [|n x IH]; intros [|m y] [|k z]; simpl; try done.
    f_equal; [lia|apply IH].
  - unfold min_oldest. destruct a.2, b.2, c.2; f_equal; lia.
Qed.
Lemma plus_counts_empty now a : length a.1 = 6%nat → plus_counts a (group_counts now []) = a.
Proof.
  destruct a as [c o]. simpl. intros Hl. unfold plus_counts. f_equal. simpl.
  by do 7 (destruct c as [|? c]; try done); simpl; rewrite !Z.add_0_r.
Qed.
Lemma accumulate_groups now names l gs acc :
  length acc.1 = 6%nat →
  foldl accumulate acc (base.filter (λ r, group_rows names l r.1 ≠ [])
     ((λ g, (g, group_counts now (group_rows names l g))) <$> gs))
  = plus_counts acc (group_counts now (mjoin (group_rows names l <$> gs))).
Proof.
  revert acc. induction gs as [|g gs IH]; intros acc Hl; simpl.
  { by rewrite plus_counts_empty. }
  rewrite group_counts_app, list.filter_cons. case_decide as Hg; simpl in *.
  - rewrite IH; [|unfold accumulate, add_counts; simpl; by rewrite length_zip_with, Hl].
    by rewrite <-plus_counts_assoc.
  - rewrite IH, Hg, <-plus_counts_assoc, plus_counts_empty by done. done.
Qed.

Lemma sample_rows_total names now l :
  NoDup names → foldl accumulate no_jobs (sample_rows names now l) = group_counts now l.
Proof.
  intros Hnd. unfold sample_rows. rewrite accumulate_groups by done.
  rewrite <-(group_counts_perm now _ _ (groups_perm names l Hnd)).
  unfold plus_counts, no_jobs, group_counts, min_oldest. cbn -[min_opt count_where].
  by destruct (min_opt _).
Qed.

Lemma queue_row_group names now l n :
  n ∈ names →
  queue_row (sample_rows names now l) n
  = group_counts now (base.filter (λ j, j_name j = n) l).
Proof.
  intros Hn. assert (group_rows names l (Some n) = base.filter (λ j, j_name j = n) l) as Hg.
  { apply list_filter_iff. intros j. unfold queue_group. case_decide; naive_solver. }
  unfold queue_row. destruct (list_find _ _) as [[i r]|] eqn:Hf.
  - apply list_find_Some in Hf as (Hi%list_elem_of_lookup_2 & Hr & _).
    apply list_elem_of_filter in Hi as [_ (g & -> & _)%list_elem_of_fmap]. simpl in *. subst g.
    by rewrite Hg.
  - apply list_find_None in Hf. rewrite list.Forall_forall in Hf.
    destruct (decide (group_rows names l (Some n) = [])) as [E|E].
    { rewrite <-Hg, E. done. }
    exfalso. apply (Hf (Some n, group_counts now (group_rows names l (Some n)))); [|done].
    apply list_elem_of_filter. split; [done|]. apply list_elem_of_fmap. eexists. split; [done|].
    right. by apply list_elem_of_fmap_2.
Qed.

(** The sampled gauges are the table.  One pass over the grouped query publishes, as
    the totals, the counts and the oldest due age over all live jobs, and for every
    configured queue those of the jobs that carry its name, queues without jobs
    included. *)
Theorem sample_counts_jobs value p d now :
  configured value = Some p →
  let l := (map_to_list (jobs d)).*2 in
  pr_all (sample d now p) = publish now (group_counts now l)
  ∧ pr_queues (sample d now p)
    = (λ n, (n, publish now (group_counts now (base.filter (λ j, j_name j = n) l))))
        <$> queue_names p.
Proof.
  unfold configured. intros Hc. destruct (_ || bool_decide _) eqn:Hb; [done|].
  apply orb_false_iff in Hb as [_ Hnd%bool_decide_eq_false]. apply dec_stable in Hnd.
  injection Hc as <-. unfold sample, queue_names. simpl. split.
  - f_equal. apply sample_rows_total. rewrite <-list_fmap_compose. by rewrite list_fmap_id.
  - rewrite <-!list_fmap_compose. apply list_fmap_ext. intros i n Hi. simpl.
    do 2 f_equal. apply queue_row_group. apply list_elem_of_lookup_2 in Hi.
    by rewrite list_fmap_id.
Qed.

Example configured_ex :
  queue_names <$> configured "a,b" = Some ["a"; "b"]
  ∧ configured "a,a" = None ∧ configured " a" = None ∧ configured "a," = None.
Proof. done. Qed.

Example claimed_ex :
  let p := claimed 1000 10000 10500 2 (claimed 1000 5000 6000 1 default_pressure) in
  hg_count (pr_first_claim p) = 1 ∧ hg_millis (pr_first_claim p) = 5000
  ∧ hg_count (pr_due_wait p) = 2 ∧ hg_millis (pr_due_wait p) = 1500.
Proof. done. Qed.
