(* ===== verification/Telemetry.v ===== *)
(** * Metrics (src/telemetry.rs)

    The counters and gauges of [Metrics], the per-name series of [NamedLifecycle] and the
    operations that move them.  Atomics wrap at 64 bits.  The RPC latency histograms and the
    text of the page are in Render.v. *)
From Stdlib Require Import Ascii String.
From S2P Require Import Prelude Text F64 Db Pressure.
Local Open Scope string_scope.
Local Open Scope Z_scope.

Fixpoint position (x : string) (l : list string) : option nat :=
  match l with
  | [] => None
  | y :: l' => if String.eqb x y then Some 0%nat else S <$> position x l'
  end.

Definition STATES : list string := ["Waiting"; "Delayed"; "Active"; "Completed"; "Failed"].
Definition EVENTS : list string :=
  ["enqueued"; "claimed"; "completed"; "failed"; "retried"; "lease_expired"].
Definition NAMED_EVENTS : list string :=
  ["enqueued"; "claimed"; "completed"; "failed"; "retried"].
Definition RETENTION_TARGETS : list string := ["completed"; "failed"; "receipt"].
Definition RETENTION_REASONS : list string := ["age"; "count"; "orphan"].
Definition REJECTION_KINDS : list string :=
  ["ingress_velocity"; "parent_not_found"; "inconsistent_depth"; "circuit_breaker";
   "chain_quarantine"].

(** ** Per-name series *)
Record NamedSeries := mkSeries { ns_events : list Z; ns_duration : Histogram }.
#[export] Instance NamedSeries_eta : Eta NamedSeries := λ r,
  mkSeries (ns_events r) (ns_duration r).
Definition default_series : NamedSeries := mkSeries (replicate 5 0) empty_histogram.

Inductive NamedLifecycle :=
| Bounded (names : list (string * NamedSeries))
| AllNames (cap : Z) (series : gmap string NamedSeries) (dropped : Z).

(** [NamedLifecycle::configured] and [NamedLifecycle::all] *)
Definition named_configured (names : list string) : NamedLifecycle :=
  Bounded ((λ n, (n, default_series)) <$> names).

Definition preseed_one (m : gmap string NamedSeries) (n : string)
  : gmap string NamedSeries :=
  match m !! n with Some _ => m | None => <[n := default_series]> m end.
Fixpoint preseed (cap : Z) (m : gmap string NamedSeries) (l : list string)
  : gmap string NamedSeries :=
  match l with
  | [] => m
  | n :: l' => if cap <=? Z.of_nat (size m) then m else preseed cap (preseed_one m n) l'
  end.
Definition named_all (cap : Z) (names : list string) : NamedLifecycle :=
  AllNames cap (preseed cap ∅ names) 0.

(** [names.iter().find(..)] then an update of the series found. *)
Fixpoint update_first (name : string) (f : NamedSeries → NamedSeries)
    (l : list (string * NamedSeries)) : list (string * NamedSeries) :=
  match l with
  | [] => []
  | (n, s) :: l' =>
      if String.eqb n name then (n, f s) :: l' else (n, s) :: update_first name f l'
  end.

(** The common shape of [NamedLifecycle::event] and [::observe_duration]: update the
    series of [name], registering it when the mode and the cap allow. *)
Definition with_series (name : string) (f : NamedSeries → NamedSeries) (n : NamedLifecycle)
  : NamedLifecycle :=
  match n with
  | Bounded names => Bounded (update_first name f names)
  | AllNames cap series dropped =>
      match series !! name with
      | Some s => AllNames cap (<[name := f s]> series) dropped
      | None =>
          if Z.of_nat (size series) <? cap
          then AllNames cap (<[name := f default_series]> series) dropped
          else AllNames cap series (u64_add 1 dropped)
      end
  end.

Definition named_event (name event : string) (n : NamedLifecycle) : NamedLifecycle :=
  match position event NAMED_EVENTS with
  | None => n
  | Some i => with_series name (λ s, s <| ns_events ::= alter (u64_add 1) i |>) n
  end.

Definition named_observe_duration (name : string) (ms : Z) (n : NamedLifecycle)
  : NamedLifecycle :=
  with_series name (λ s, s <| ns_duration ::= observe ms |>) n.

(** ** The metrics record *)
Record Metrics := mkMetrics {
  pressure : Pressure;
  named : NamedLifecycle;
  enqueue_replays : Z;
  enqueue_conflicts : Z;
  enqueue_receipts_gauge : Z;
  dedup_released_total : Z;
  results_stored : Z;
  throttled_polls : Z;
  states : list Z;
  events : list Z;
  recovery_errors : Z;
  retention_deleted_total : list (list Z);
  retention_errors : Z;
  ancestry_rejections : Z;
  chain_quarantines : Z;
  chain_counters_pruned_total : Z;
  facet_dispatch_pruned_total : Z;
  ingress_rejections : Z;
  enqueue_rejections_by_kind : list Z;
  rejections_pruned_total : Z;
  scheduler_jobs_produced : Z;
  scheduler_errors : Z;
  schedulers_active : Z;
  flows_created : Z;
  flow_nodes_created_total : Z;
  flow_waiting_children : Z;
  flow_parent_failures : Z;
  flows_rejected : Z;
  flow_merges : Z;
  flow_merge_nodes_total : Z;
}.
#[export] Instance Metrics_eta : Eta Metrics := λ r,
  mkMetrics (pressure r) (named r) (enqueue_replays r) (enqueue_conflicts r)
    (enqueue_receipts_gauge r) (dedup_released_total r) (results_stored r)
    (throttled_polls r) (states r) (events r) (recovery_errors r)
    (retention_deleted_total r) (retention_errors r) (ancestry_rejections r)
    (chain_quarantines r) (chain_counters_pruned_total r) (facet_dispatch_pruned_total r)
    (ingress_rejections r) (enqueue_rejections_by_kind r) (rejections_pruned_total r)
    (scheduler_jobs_produced r) (scheduler_errors r) (schedulers_active r)
    (flows_created r) (flow_nodes_created_total r) (flow_waiting_children r)
    (flow_parent_failures r) (flows_rejected r) (flow_merges r) (flow_merge_nodes_total r).

Definition default_metrics : Metrics :=
  mkMetrics default_pressure (Bounded []) 0 0 0 0 0 0 (replicate 5 0) (replicate 6 0) 0
    (replicate 3 (replicate 3 0)) 0 0 0 0 0 0 (replicate 5 0) 0 0 0 0 0 0 0 0 0 0 0.

(** [Metrics::event] and [Metrics::transition] *)
Definition event (e : string) (m : Metrics) : Metrics :=
  match position e EVENTS with
  | Some i => m <| events ::= alter (u64_add 1) i |>
  | None => m
  end.

Definition bump_state (n : Z) (s : JobState) (m : Metrics) : Metrics :=
  match position (state_name s) STATES with
  | Some i => m <| states ::= alter (i64_fetch_add n) i |>
  | None => m
  end.

Definition transition (from : option JobState) (to : JobState) (e : string) (m : Metrics)
  : Metrics :=
  let m1 := match from with Some s => bump_state (-1) s m | None => m end in
  event e (bump_state 1 to m1).

Definition throttled (m : Metrics) : Metrics := m <| throttled_polls ::= u64_add 1 |>.
Definition enqueue_replay (m : Metrics) : Metrics := m <| enqueue_replays ::= u64_add 1 |>.
Definition enqueue_conflict (m : Metrics) : Metrics := m <| enqueue_conflicts ::= u64_add 1 |>.
Definition enqueue_receipt_created (m : Metrics) : Metrics :=
  m <| enqueue_receipts_gauge ::= i64_fetch_add 1 |>.
Definition dedup_released (n : Z) (m : Metrics) : Metrics :=
  if n =? 0 then m
  else m <| dedup_released_total ::= u64_add n |>
         <| enqueue_receipts_gauge ::= i64_fetch_add (- n) |>.
Definition result_stored (m : Metrics) : Metrics := m <| results_stored ::= u64_add 1 |>.

(** [Metrics::retention_deleted] *)
Definition retention_deleted (target reason : string) (n : Z) (m : Metrics) : Metrics :=
  if n =? 0 then m
  else
    let m1 :=
      match position target RETENTION_TARGETS, position reason RETENTION_REASONS with
      | Some t, Some r => m <| retention_deleted_total ::= alter (alter (u64_add n) r) t |>
      | _, _ => m
      end in
    if String.eqb target "completed" then bump_state (- n) Completed m1
    else if String.eqb target "failed" then bump_state (- n) Failed m1
    else if String.eqb target "receipt"
    then m1 <| enqueue_receipts_gauge ::= i64_fetch_add (- n) |>
    else m1.

Definition retention_error (m : Metrics) : Metrics := m <| retention_errors ::= u64_add 1 |>.
Definition recovery_error (m : Metrics) : Metrics := m <| recovery_errors ::= u64_add 1 |>.
Definition scheduler_job_produced (m : Metrics) : Metrics :=
  m <| scheduler_jobs_produced ::= u64_add 1 |>.
Definition scheduler_error (m : Metrics) : Metrics := m <| scheduler_errors ::= u64_add 1 |>.
Definition scheduler_activated (m : Metrics) : Metrics :=
  m <| schedulers_active ::= i64_fetch_add 1 |>.
Definition scheduler_deactivated (m : Metrics) : Metrics :=
  m <| schedulers_active ::= i64_fetch_add (-1) |>.
Definition flow_created (m : Metrics) : Metrics := m <| flows_created ::= u64_add 1 |>.
Definition flow_nodes_created (n : Z) (m : Metrics) : Metrics :=
  if 0 <? n then m <| flow_nodes_created_total ::= u64_add n |> else m.
Definition flow_waiting_children_inc (n : Z) (m : Metrics) : Metrics :=
  if 0 <? n then m <| flow_waiting_children ::= i64_fetch_add n |> else m.
Definition flow_waiting_children_dec (n : Z) (m : Metrics) : Metrics :=
  if 0 <? n then m <| flow_waiting_children ::= i64_fetch_add (- n) |> else m.
Definition flow_parent_failure (m : Metrics) : Metrics :=
  m <| flow_parent_failures ::= u64_add 1 |>.
Definition flow_rejected (m : Metrics) : Metrics := m <| flows_rejected ::= u64_add 1 |>.
Definition flow_merge (m : Metrics) : Metrics := m <| flow_merges ::= u64_add 1 |>.
Definition flow_merge_nodes (n : Z) (m : Metrics) : Metrics :=
  if 0 <? n then m <| flow_merge_nodes_total ::= u64_add n |> else m.
Definition ancestry_rejection (m : Metrics) : Metrics :=
  m <| ancestry_rejections ::= u64_add 1 |>.
Definition chain_quarantine (m : Metrics) : Metrics := m <| chain_quarantines ::= u64_add 1 |>.
Definition chain_counters_pruned (n : Z) (m : Metrics) : Metrics :=
  if 0 <? n then m <| chain_counters_pruned_total ::= u64_add n |> else m.
Definition facet_dispatch_pruned (n : Z) (m : Metrics) : Metrics :=
  if 0 <? n then m <| facet_dispatch_pruned_total ::= u64_add n |> else m.
Definition rejections_pruned (n : Z) (m : Metrics) : Metrics :=
  if 0 <? n then m <| rejections_pruned_total ::= u64_add n |> else m.
Definition ingress_rejection (m : Metrics) : Metrics :=
  m <| ingress_rejections ::= u64_add 1 |>.
Definition rejection_recorded (kind : string) (m : Metrics) : Metrics :=
  match position kind REJECTION_KINDS with
  | Some i => m <| enqueue_rejections_by_kind ::= alter (u64_add 1) i |>
  | None => m
  end.

(** [SELECT state, COUNT] over live jobs and history, [Metrics::initialize]. *)
Definition count_state (s : JobState) (d : Db) : Z :=
  Z.of_nat (length (rows_where (λ _ j, is_state (j_state j) s) (jobs d)))
  + Z.of_nat (length (rows_where (λ _ h, is_state (h_state h) s) (job_history d))).

Definition initialize (d : Db) : Metrics :=
  default_metrics
    <| enqueue_receipts_gauge := Z.of_nat (size (enqueue_receipts d)) |>
    <| states := (λ s, count_state s d) <$> [Waiting; Delayed; Active; Completed; Failed] |>
    <| schedulers_active :=
         Z.of_nat (length (rows_where (λ _ s, bool_decide (s_next_run_at s ≠ None))
                             (job_schedulers d))) |>
    <| flow_waiting_children :=
         Z.of_nat (length (rows_where (λ _ j, is_state (j_state j) WaitingChildren) (jobs d))) |>.

(** The gauges that follow the tables; the other metrics count events. *)
Definition levels (m : Metrics) : list Z * Z * Z :=
  (states m, flow_waiting_children m, schedulers_active m).

Example transition_ex :
  states (transition (Some Active) Completed "completed" default_metrics) = [0; 0; -1; 1; 0]
  ∧ events (transition (Some Active) Completed "completed" default_metrics) = [0; 0; 1; 0; 0; 0].
Proof. done. Qed.
