(* ===== verification/Broker.v ===== *)
(** * The broker's effects: environment, transactions, status codes

    Every handler of the broker runs with the writer connection's mutex held, so it is an
    atomic step on a [World]: the database, the metrics and a counter of the effects
    performed.  [M E A] is the type of such steps: it returns a Rust [Result<A, E>] and the
    world after it.  An SQL statement, a reading of the clock, a fresh UUID and a random
    number each draw the next effect index; what SQLite, the clock, [uuid] and [rand]
    answer at that index is given by the environment [Env].  In particular a statement may
    fail at any point ([fault]) and rows may be visited in any order ([scan]). *)
From Stdlib Require Import Ascii String.
From S2P Require Import Prelude Text F64 Db Pressure Telemetry.
Local Open Scope string_scope.
Local Open Scope Z_scope.

(** ** gRPC status *)
Inductive Code :=
| InvalidArgument | NotFound | AlreadyExists | PermissionDenied
| ResourceExhausted | FailedPrecondition | Internal.
#[export] Instance Code_eq_dec : EqDecision Code.
Proof. solve_decision. Defined.
Record Status := mkStatus { code : Code; message : string }.

(** [|e| Status::internal(e.to_string())] *)
Definition internal (e : SqlError) : Status :=
  match e with SqlFailure m => mkStatus Internal m end.

(** ** The environment *)
Class Env := {
  (** SQLite's [julianday('now')] in epoch milliseconds *)
  clock : nat → Z;
  (** [uuid::Uuid::new_v4().to_string()] *)
  new_v4 : nat → string;
  (** [rand::random::<f64>()] *)
  rand_f64 : nat → f64;
  (** the failure of a statement, if it fails *)
  fault : nat → option SqlError;
  (** the order in which a statement visits the rows of a table *)
  scan : nat → ∀ A : Type, list A → list A;
}.

(** SQLite returns every row of a table once, in an order of its choice. *)
Class ScanLaw (E : Env) := scan_perm : ∀ n A (l : list A), scan n A l ≡ₚ l.

(** Version 4 UUIDs do not collide. *)
Class UuidLaw (E : Env) := new_v4_inj : Inj (=) (=) new_v4.

(** ** Worlds and steps *)
Record World := mkWorld { w_db : Db; w_metrics : Metrics; w_step : nat }.
#[export] Instance World_eta : Eta World := λ r, mkWorld (w_db r) (w_metrics r) (w_step r).

Definition M (E A : Type) : Type := World → result E A * World.

#[export] Instance M_ret E : MRet (M E) := λ A a w, (Ok a, w).
#[export] Instance M_bind E : MBind (M E) := λ A B f m w,
  match m w with
  | (Ok a, w') => f a w'
  | (Err e, w') => (Err e, w')
  end.

Definition fail {E A} (e : E) : M E A := λ w, (Err e, w).
Definition map_err {E F A} (f : E → F) (m : M E A) : M F A := λ w,
  match m w with
  | (Ok a, w') => (Ok a, w')
  | (Err e, w') => (Err (f e), w')
  end.
(** A validation that needs no effect. *)
Definition lift {E A} (r : result E A) : M E A := λ w, (r, w).
(** A result inspected by the caller instead of propagated with [?]. *)
Definition attempt {E F A} (m : M E A) : M F (result E A) := λ w,
  let '(r, w') := m w in (Ok r, w').
(** An update of the metrics. *)
Definition metric {E} (f : Metrics → Metrics) : M E unit := λ w,
  (Ok tt, w <| w_metrics ::= f |>).

(** The notation of the handlers: Rust's [let x = e?;] *)
Declare Scope broker_scope.
Delimit Scope broker_scope with broker.
Notation "'let?' x ':=' m 'in' k" := (mbind (λ x, k) m)
  (at level 10, x name, m at level 100, k at level 200,
   format "'[v' 'let?'  x  ':='  m  'in' '/' k ']'") : broker_scope.
Notation "'let?' ' p ':=' m 'in' k" := (mbind (λ x, match x with p => k end) m)
  (at level 10, p strict pattern, m at level 100, k at level 200)
  : broker_scope.
Notation "'do?' m 'in' k" := (mbind (λ _ : unit, k) m)
  (at level 10, m at level 100, k at level 200,
   format "'[v' 'do?'  m  'in' '/' k ']'") : broker_scope.
Open Scope broker_scope.

Section Effects.
Context `{Env}.

Definition tick (w : World) : World := w <| w_step ::= S |>.

(** One SQL statement. *)
Definition stmt {A} (f : nat → Db → SqlResult (A * Db)) : M SqlError A := λ w,
  match fault (w_step w) with
  | Some e => (Err e, tick w)
  | None =>
      match f (w_step w) (w_db w) with
      | Ok (a, d) => (Ok a, tick w <| w_db := d |>)
      | Err e => (Err e, tick w)
      end
  end.
(** A query, an update, and an insertion that may violate a constraint. *)
Definition query {A} (f : Db → A) : M SqlError A := stmt (λ _ d, Ok (f d, d)).
Definition execute (f : Db → Db) : M SqlError unit := stmt (λ _ d, Ok (tt, f d)).
Definition try_execute (f : Db → SqlResult Db) : M SqlError unit :=
  stmt (λ _ d, match f d with Ok d' => Ok (tt, d') | Err e => Err e end).

Definition uuid : ∀ {E}, M E string := λ E w, (Ok (new_v4 (w_step w)), tick w).
Definition random : ∀ {E}, M E f64 := λ E w, (Ok (rand_f64 (w_step w)), tick w).

(** [leases::now_ms]: a statement that reads the clock. *)
Definition now_ms : M SqlError Z := stmt (λ n d, Ok (clock n, d)).

(** [conn.transaction_with_behavior(Immediate)?; ...; tx.commit()?]: BEGIN and COMMIT are
    statements, and any error before the end of COMMIT leaves the database as it was.
    Metrics already moved stay moved. *)
Definition transaction {E A} (of_sql : SqlError → E) (body : M E A) : M E A := λ w,
  match fault (w_step w) with
  | Some e => (Err (of_sql e), tick w)
  | None =>
      match body (tick w) with
      | (Err e, w') => (Err e, w' <| w_db := w_db w |>)
      | (Ok a, w') =>
          match fault (w_step w') with
          | Some e => (Err (of_sql e), tick w' <| w_db := w_db w |>)
          | None => (Ok a, tick w')
          end
      end
  end.

(** A [for] loop whose body may fail. *)
Fixpoint for_each {E A B} (f : A → M E B) (l : list A) : M E (list B) :=
  match l with
  | [] => mret []
  | a :: l' => let? b := f a in let? bs := for_each f l' in mret (b :: bs)
  end.

Fixpoint fold_m {E A S} (f : S → A → M E S) (s : S) (l : list A) : M E S :=
  match l with
  | [] => mret s
  | a :: l' => let? s' := f s a in fold_m f s' l'
  end.
End Effects.

(** ** Reasoning about steps

    Inversion of successful runs, and the state they leave. *)
Section Rules.
Context `{Env}.
Implicit Types w : World.

Lemma bind_Ok {E A B} (m : M E A) (k : A → M E B) w b w' :
  mbind k m w = (Ok b, w') → ∃ a w1, m w = (Ok a, w1) ∧ k a w1 = (Ok b, w').
Proof.
  unfold mbind, M_bind. destruct (m w) as [[a|e] w1] eqn:Hm; [eauto|done].
Qed.

Lemma bind_Err {E A B} (m : M E A) (k : A → M E B) w e w' :
  mbind k m w = (Err e, w') →
  m w = (Err e, w') ∨ ∃ a w1, m w = (Ok a, w1) ∧ k a w1 = (Err e, w').
Proof.
  unfold mbind, M_bind. destruct (m w) as [[a|e'] w1] eqn:Hm; [eauto|naive_solver].
Qed.

Lemma bind_run {E A B} (m : M E A) (k : A → M E B) w a w1 :
  m w = (Ok a, w1) → mbind k m w = k a w1.
Proof. unfold mbind, M_bind. by intros ->. Qed.

Lemma map_err_inv {E F A} (f : E → F) (m : M E A) w r w' :
  map_err f m w = (r, w') → ∃ r1, m w = (r1, w').
Proof. unfold map_err. destruct (m w) as [[]]; naive_solver. Qed.

(** A run of a bind, whatever its outcome. *)
Lemma bind_inv {E A B} (m : M E A) (k : A → M E B) w r w' :
  mbind k m w = (r, w') →
  ∃ r1 w1, m w = (r1, w1)
           ∧ match r1 with Ok a => k a w1 = (r, w') | Err e => r = Err e ∧ w' = w1 end.
Proof.
  unfold mbind, M_bind. destruct (m w) as [[a|e] w1] eqn:Hm; intros Hr; eexists _, w1; [eauto|].
  split; [done|]. by injection Hr as <- <-.
Qed.

Lemma map_err_Ok {E F A} (f : E → F) (m : M E A) w a w' :
  map_err f m w = (Ok a, w') ↔ m w = (Ok a, w').
Proof. unfold map_err. destruct (m w) as [[]]; naive_solver. Qed.

Lemma map_err_Err {E F A} (f : E → F) (m : M E A) w e w' :
  map_err f m w = (Err e, w') → ∃ e', m w = (Err e', w') ∧ e = f e'.
Proof. unfold map_err. destruct (m w) as [[]]; naive_solver. Qed.

Lemma stmt_Ok {A} (f : nat → Db → SqlResult (A * Db)) w a w' :
  stmt f w = (Ok a, w') →
  ∃ d, fault (w_step w) = None ∧ f (w_step w) (w_db w) = Ok (a, d)
       ∧ w' = mkWorld d (w_metrics w) (S (w_step w)).
Proof.
  unfold stmt. destruct (fault _); [done|].
  destruct (f _ _) as [[? d]|] eqn:E; [|done]. intros [= <- <-]. eauto.
Qed.

Lemma query_Ok {A} (f : Db → A) w a w' :
  query f w = (Ok a, w') → a = f (w_db w) ∧ w' = tick w.
Proof. intros (d & _ & [= <- <-] & ->)%stmt_Ok. done. Qed.

Lemma execute_Ok (f : Db → Db) w a w' :
  execute f w = (Ok a, w') → w' = mkWorld (f (w_db w)) (w_metrics w) (S (w_step w)).
Proof. by intros (d & _ & [= <- <-] & ->)%stmt_Ok. Qed.

Lemma try_execute_Ok (f : Db → SqlResult Db) w a w' :
  try_execute f w = (Ok a, w') →
  ∃ d, f (w_db w) = Ok d ∧ w' = mkWorld d (w_metrics w) (S (w_step w)).
Proof.
  intros (d & _ & Hf & ->)%stmt_Ok. destruct (f (w_db w)); naive_solver.
Qed.

Lemma now_ms_Ok w a w' :
  now_ms w = (Ok a, w') → a = clock (w_step w) ∧ w' = tick w.
Proof. by intros (d & _ & [= <- <-] & ->)%stmt_Ok. Qed.

Lemma stmt_Err {A} (f : nat → Db → SqlResult (A * Db)) w e w' :
  stmt f w = (Err e, w') → w' = tick w.
Proof.
  unfold stmt. destruct (fault _); [naive_solver|].
  destruct (f _ _) as [[? d]|]; naive_solver.
Qed.

(** After a query or a reading of the clock the step goes on from the same database. *)
Lemma bind_query_inv {A B} (f : Db → A) (k : A → M SqlError B) w r w' :
  mbind k (query f) w = (r, w') →
  w_db w' = w_db w ∨ k (f (w_db w)) (tick w) = (r, w').
Proof.
  intros ([a|e] & w1 & H1 & Hr)%bind_inv.
  - apply query_Ok in H1 as [-> ->]. by right.
  - destruct Hr as [_ ->]. apply stmt_Err in H1 as ->. by left.
Qed.
Lemma bind_now_inv {B} (k : Z → M SqlError B) w r w' :
  mbind k now_ms w = (r, w') → w_db w' = w_db w ∨ k (clock (w_step w)) (tick w) = (r, w').
Proof.
  intros ([a|e] & w1 & H1 & Hr)%bind_inv.
  - apply now_ms_Ok in H1 as [-> ->]. by right.
  - destruct Hr as [_ ->]. apply stmt_Err in H1 as ->. by left.
Qed.

(** Atomicity of a transaction: an error leaves the database as it was. *)
Lemma transaction_Err {E A} (g : SqlError → E) (body : M E A) w e w' :
  transaction g body w = (Err e, w') → w_db w' = w_db w.
Proof.
  unfold transaction. destruct (fault _); [naive_solver|].
  destruct (body _) as [[a|e'] w1]; [|naive_solver]. destruct (fault _); naive_solver.
Qed.

(** It comes from BEGIN, from COMMIT or from the body. *)
Lemma transaction_Err_cases {E A} (g : SqlError → E) (body : M E A) w e w' :
  transaction g body w = (Err e, w') →
  (∃ s, e = g s) ∨ ∃ w1, body (tick w) = (Err e, w1).
Proof.
  unfold transaction. destruct (fault _); [naive_solver|].
  destruct (body _) as [[a|e'] w1]; [|naive_solver]. destruct (fault _); naive_solver.
Qed.

(** The database after a transaction is that before it, or that of its body. *)
Lemma transaction_inv {E A} (g : SqlError → E) (body : M E A) w r w' :
  transaction g body w = (r, w') →
  w_db w' = w_db w ∨ ∃ r1 w1, body (tick w) = (r1, w1) ∧ w_db w' = w_db w1.
Proof.
  unfold transaction. destruct (fault _); [naive_solver|].
  destruct (body _) as [[a|e'] w1]; [|naive_solver]. destruct (fault _); naive_solver.
Qed.

Lemma transaction_Ok {E A} (g : SqlError → E) (body : M E A) w a w' :
  transaction g body w = (Ok a, w') →
  ∃ w1, body (tick w) = (Ok a, w1) ∧ w' = tick w1.
Proof.
  unfold transaction. destruct (fault _); [done|].
  destruct (body _) as [[a'|e'] w1]; [|done]. destruct (fault _); naive_solver.
Qed.

Lemma for_each_Ok {E A B} (f : A → M E B) (I : World → Prop) l w bs w' :
  (∀ a b w1 w2, a ∈ l → I w1 → f a w1 = (Ok b, w2) → I w2) →
  for_each f l w = (Ok bs, w') → I w → I w' ∧ length bs = length l.
Proof.
  revert w bs. induction l as [|a l IH]; intros w bs Hf Hrun HI; simpl in Hrun.
  - by injection Hrun as <- <-.
  - apply bind_Ok in Hrun as (b & w1 & Ha & Hrun).
    apply bind_Ok in Hrun as (bs' & w2 & Hl & Hrun). injection Hrun as <- <-.
    destruct (IH w1 bs') as [? ?]; simpl; auto with lia.
    + intros. eapply Hf; eauto. by constructor.
    + eapply Hf; eauto. by constructor.
Qed.

Lemma fold_m_Ok {E A S} (f : S → A → M E S) (I : S → World → Prop) l s w s' w' :
  (∀ a s1 s2 w1 w2, a ∈ l → I s1 w1 → f s1 a w1 = (Ok s2, w2) → I s2 w2) →
  fold_m f s l w = (Ok s', w') → I s w → I s' w'.
Proof.
  revert s w. induction l as [|a l IH]; intros s w Hf Hrun HI; simpl in Hrun.
  - by injection Hrun as <- <-.
  - apply bind_Ok in Hrun as (s1 & w1 & Ha & Hrun).
    eapply IH; [|exact Hrun|].
    + intros. eapply Hf; eauto. by constructor.
    + eapply Hf; eauto. by constructor.
Qed.
End Rules.

(** ** Runs without faults

    [calm w]: no statement from [w] on fails.  A run from a calm world is computed
    statement by statement. *)
Section Calm.
Context `{Env}.

Definition calm (w : World) : Prop := ∀ k, (w_step w ≤ k)%nat → fault k = None.
Lemma calm_step w w' : calm w → (w_step w ≤ w_step w')%nat → calm w'.
Proof. intros Hc Hle k Hk. apply Hc. lia. Qed.

Lemma query_calm {A} (f : Db → A) w : calm w → query f w = (Ok (f (w_db w)), tick w).
Proof. intros Hc. unfold query, stmt. by rewrite Hc. Qed.
Lemma execute_calm f w :
  calm w → execute f w = (Ok tt, mkWorld (f (w_db w)) (w_metrics w) (S (w_step w))).
Proof. intros Hc. unfold execute, stmt. by rewrite Hc. Qed.
Lemma now_calm w : calm w → now_ms w = (Ok (clock (w_step w)), tick w).
Proof. intros Hc. unfold now_ms, stmt. by rewrite Hc. Qed.
Lemma transaction_calm {E A} (g : SqlError → E) (body : M E A) w a w1 :
  calm w → body (tick w) = (Ok a, w1) → calm w1 → transaction g body w = (Ok a, tick w1).
Proof. intros Hc Hb Hc1. unfold transaction. by rewrite Hc, Hb, Hc1. Qed.
End Calm.

(** Decompose a successful run of a handler into the runs of its statements. *)
Ltac inv_run H :=
  lazymatch type of H with
  | mbind _ _ _ = (Ok _, _) =>
      let a := fresh "x" in let w1 := fresh "w" in let H1 := fresh "Hr" in
      apply bind_Ok in H as (a & w1 & H1 & H); inv_run H1; inv_run H
  | map_err _ _ _ = (Ok _, _) => apply map_err_Ok in H; inv_run H
  | query _ _ = (Ok _, _) => apply query_Ok in H as [? ?]; simplify_eq/=
  | execute _ _ = (Ok _, _) => apply execute_Ok in H; simplify_eq/=
  | try_execute _ _ = (Ok _, _) =>
      let d := fresh "d" in let Hd := fresh "Hd" in
      apply try_execute_Ok in H as (d & Hd & ?); simplify_eq/=
  | now_ms _ = (Ok _, _) => apply now_ms_Ok in H as [? ?]; simplify_eq/=
  | transaction _ _ _ = (Ok _, _) =>
      let w1 := fresh "w" in apply transaction_Ok in H as (w1 & H & ?); inv_run H
  | mret _ _ = (Ok _, _) => injection H as ? ?; simplify_eq/=
  | uuid _ = (Ok _, _) => injection H as ? ?; simplify_eq/=
  | random _ = (Ok _, _) => injection H as ? ?; simplify_eq/=
  | metric _ _ = (Ok _, _) => injection H as ? ?; simplify_eq/=
  | lift _ _ = (Ok _, _) => injection H as ? ?; simplify_eq/=
  | fail _ _ = (Ok _, _) => discriminate H
  | _ => idtac
  end.

Lemma for_each_lift_Ok `{Env} {E A B} (f : A → result E B) l w bs w' :
  for_each (λ a, lift (f a)) l w = (Ok bs, w') → w' = w ∧ Forall2 (λ a b, f a = Ok b) l bs.
Proof.
  revert bs. induction l as [|a l IH]; simpl; intros bs Hr.
  - by injection Hr as <- <-.
  - apply bind_Ok in Hr as (b & w1 & Ha & Hr). apply bind_Ok in Hr as (bs' & w2 & Hl & Hr).
    unfold lift in Ha. injection Ha as Ha <-. injection Hr as <- <-.
    apply IH in Hl as [-> ?]. by repeat constructor.
Qed.

(** ** Frames

    [keeps D m]: every run of [m], successful or not, relates the databases before and
    after by [D] and does not turn the effect counter back.  With a preorder [D] the
    property is compositional; a transaction has it when its body has it. *)
Definition keeps (D : relation Db) {E A} (m : M E A) : Prop :=
  ∀ w r w', m w = (r, w') → D (w_db w) (w_db w') ∧ (w_step w ≤ w_step w')%nat.

(** Frames that state what part of the database is left alone. *)
Definition same {X} (f : Db → X) : relation Db := λ d d', f d' = f d.
#[export] Instance same_preorder {X} (f : Db → X) : PreOrder (same f).
Proof. split; unfold same; [by intros ?|]. intros ??? H1 H2. by rewrite H2. Qed.
Definition any : relation Db := λ _ _, True.
#[export] Instance any_preorder : PreOrder any.
Proof. by split. Qed.

Lemma keeps_weaken {D D' : relation Db} {E A} (m : M E A) :
  (∀ d d', D d d' → D' d d') → keeps D m → keeps D' m.
Proof. intros Hi Hk w r w' Hm. apply Hk in Hm as [? ?]. auto. Qed.
Lemma keeps_any {D : relation Db} {E A} (m : M E A) : keeps D m → keeps any m.
Proof. by apply keeps_weaken. Qed.

Section Frames.
Context `{Env} (D : relation Db) `{!PreOrder D}.

Lemma keeps_ret {E A} (a : A) : keeps D (mret a : M E A).
Proof. by intros w r w' [= <- <-]. Qed.
Lemma keeps_fail {E A} (e : E) : keeps D (fail e : M E A).
Proof. by intros w r w' [= <- <-]. Qed.
Lemma keeps_lift {E A} (x : result E A) : keeps D (lift x).
Proof. by intros w r w' [= <- <-]. Qed.
Lemma keeps_metric {E} f : keeps D (metric f : M E unit).
Proof. by intros w r w' [= <- <-]. Qed.
Lemma keeps_uuid {E} : keeps D (uuid : M E string).
Proof. intros w r w' [= <- <-]. simpl. split; [done|lia]. Qed.
Lemma keeps_random {E} : keeps D (random : M E f64).
Proof. intros w r w' [= <- <-]. simpl. split; [done|lia]. Qed.

Lemma keeps_bind {E A B} (m : M E A) (k : A → M E B) :
  keeps D m → (∀ a, keeps D (k a)) → keeps D (mbind k m).
Proof.
  intros Hm Hk w r w'. unfold mbind, M_bind. destruct (m w) as [[a|e] w1] eqn:E1.
  - intros E2. apply Hm in E1 as [? ?]. apply Hk in E2 as [? ?].
    split; [by etrans|lia].
  - intros [= <- <-]. by apply Hm in E1.
Qed.

Lemma keeps_map_err {E F A} (f : E → F) (m : M E A) : keeps D m → keeps D (map_err f m).
Proof.
  intros Hm w r w'. unfold map_err.
  destruct (m w) as [[a|e] w1] eqn:E1; intros [= <- <-]; by apply Hm in E1.
Qed.

Lemma keeps_attempt {E F A} (m : M E A) : keeps D m → keeps D (attempt m : M F _).
Proof.
  intros Hm w r w'. unfold attempt. destruct (m w) as [x w1] eqn:E1.
  intros [= <- <-]. by apply Hm in E1.
Qed.

Lemma keeps_stmt {A} (f : nat → Db → SqlResult (A * Db)) :
  (∀ n d a d', f n d = Ok (a, d') → D d d') → keeps D (stmt f).
Proof.
  intros Hf w r w'. unfold stmt. destruct (fault _).
  { intros [= <- <-]. simpl. split; [done|lia]. }
  destruct (f _ _) as [[a d]|e] eqn:E1; intros [= <- <-]; simpl; split; try lia; [|done].
  by eapply Hf.
Qed.
Lemma keeps_query {A} (f : Db → A) : keeps D (query f).
Proof. apply keeps_stmt. by intros ???? [= <- <-]. Qed.
Lemma keeps_now : keeps D now_ms.
Proof. apply keeps_stmt. by intros ???? [= <- <-]. Qed.
Lemma keeps_execute f : (∀ d, D d (f d)) → keeps D (execute f).
Proof. intros Hf. apply keeps_stmt. by intros ???? [= <- <-]. Qed.
Lemma keeps_try_execute f :
  (∀ d d', f d = Ok d' → D d d') → keeps D (try_execute f).
Proof.
  intros Hf. apply keeps_stmt. intros n d a d'.
  destruct (f d) eqn:E1; intros [= <- <-]. by apply Hf.
Qed.

Lemma keeps_transaction {E A} (g : SqlError → E) (body : M E A) :
  keeps D body → keeps D (transaction g body).
Proof.
  intros Hb w r w'. unfold transaction. destruct (fault _).
  { intros [= <- <-]. simpl. split; [done|lia]. }
  destruct (body _) as [[a|e] w1] eqn:E1; apply Hb in E1 as [? ?]; simpl in *.
  - destruct (fault _); intros [= <- <-]; simpl; split; first [done|lia].
  - intros [= <- <-]. simpl. split; [done|lia].
Qed.

Lemma keeps_for_each {E A B} (f : A → M E B) l :
  (∀ a, a ∈ l → keeps D (f a)) → keeps D (for_each f l).
Proof.
  induction l as [|a l IH]; intros Hf; simpl; [apply keeps_ret|].
  apply keeps_bind; [apply Hf; by left|]. intros b.
  apply keeps_bind; [|intros; apply keeps_ret]. apply IH. intros. apply Hf. by right.
Qed.

Lemma keeps_fold_m {E A S} (f : S → A → M E S) s l :
  (∀ s a, a ∈ l → keeps D (f s a)) → keeps D (fold_m f s l).
Proof.
  revert s. induction l as [|a l IH]; intros s Hf; simpl; [apply keeps_ret|].
  apply keeps_bind; [apply Hf; by left|]. intros s'. apply IH. intros. apply Hf. by right.
Qed.
End Frames.

(** Prove a frame by the structure of the step; what is left are the updates. *)
Ltac frame_step :=
  lazymatch goal with
  | |- PreOrder _ => typeclasses eauto
  | |- ∀ _, _ => intros ?
  | |- keeps _ (mbind _ _) => apply keeps_bind
  | |- keeps _ (mret _) => apply keeps_ret
  | |- keeps _ (fail _) => apply keeps_fail
  | |- keeps _ (lift _) => apply keeps_lift
  | |- keeps _ (metric _) => apply keeps_metric
  | |- keeps _ uuid => apply keeps_uuid
  | |- keeps _ random => apply keeps_random
  | |- keeps _ now_ms => apply keeps_now
  | |- keeps _ (query _) => apply keeps_query
  | |- keeps _ (execute _) => apply keeps_execute
  | |- keeps _ (try_execute _) => apply keeps_try_execute
  | |- keeps _ (stmt _) => apply keeps_stmt
  | |- keeps _ (map_err _ _) => apply keeps_map_err
  | |- keeps _ (attempt _) => apply keeps_attempt
  | |- keeps _ (transaction _ _) => apply keeps_transaction
  | |- keeps _ (for_each _ _) => apply keeps_for_each
  | |- keeps _ (fold_m _ _ _) => apply keeps_fold_m
  | |- keeps _ (match ?x with _ => _ end) => destruct x
  end.
Ltac frame := repeat (frame_step || (progress eauto 2 with frames)); try (exact I); try done.
Create HintDb frames discriminated.

(** ** What a step does to the metrics

    [meters R m]: every run of [m], successful or not, relates the metrics before and after
    by the preorder [R].  An aborted transaction keeps the metrics its body has moved. *)
Definition meters (R : relation Metrics) {E A} (m : M E A) : Prop :=
  ∀ w r w', m w = (r, w') → R (w_metrics w) (w_metrics w').

Section Meters.
Context `{Env} (R : relation Metrics) `{!PreOrder R}.

Lemma meters_ret {E A} (a : A) : meters R (mret a : M E A).
Proof. by intros w r w' [= <- <-]. Qed.
Lemma meters_fail {E A} (e : E) : meters R (fail e : M E A).
Proof. by intros w r w' [= <- <-]. Qed.
Lemma meters_lift {E A} (x : result E A) : meters R (lift x).
Proof. by intros w r w' [= <- <-]. Qed.
Lemma meters_metric {E} f : (∀ m, R m (f m)) → meters R (metric f : M E unit).
Proof. intros Hf w r w' [= <- <-]. apply Hf. Qed.
Lemma meters_uuid {E} : meters R (uuid : M E string).
Proof. by intros w r w' [= <- <-]. Qed.
Lemma meters_random {E} : meters R (random : M E f64).
Proof. by intros w r w' [= <- <-]. Qed.
Lemma meters_bind {E A B} (m : M E A) (k : A → M E B) :
  meters R m → (∀ a, meters R (k a)) → meters R (mbind k m).
Proof.
  intros Hm Hk w r w'. unfold mbind, M_bind. destruct (m w) as [[a|e] w1] eqn:E1.
  - intros E2. apply Hm in E1. apply Hk in E2. by etrans.
  - intros [= <- <-]. by apply Hm in E1.
Qed.
Lemma meters_map_err {E F A} (f : E → F) (m : M E A) : meters R m → meters R (map_err f m).
Proof.
  intros Hm w r w'. unfold map_err.
  destruct (m w) as [[a|e] w1] eqn:E1; intros [= <- <-]; by apply Hm in E1.
Qed.
Lemma meters_attempt {E F A} (m : M E A) : meters R m → meters R (attempt m : M F _).
Proof.
  intros Hm w r w'. unfold attempt. destruct (m w) as [x w1] eqn:E1.
  intros [= <- <-]. by apply Hm in E1.
Qed.
Lemma meters_stmt {A} (f : nat → Db → SqlResult (A * Db)) : meters R (stmt f).
Proof.
  intros w r w'. unfold stmt. destruct (fault _); [by intros [= <- <-]|].
  by destruct (f _ _) as [[a d]|e]; intros [= <- <-].
Qed.
Lemma meters_transaction {E A} (g : SqlError → E) (body : M E A) :
  meters R body → meters R (transaction g body).
Proof.
  intros Hb w r w'. unfold transaction. destruct (fault _); [by intros [= <- <-]|].
  destruct (body _) as [[a|e] w1] eqn:E1.
  - destruct (fault _); intros [= <- <-]; exact (Hb _ _ _ E1).
  - intros [= <- <-]. exact (Hb _ _ _ E1).
Qed.
Lemma meters_for_each {E A B} (f : A → M E B) l :
  (∀ a, meters R (f a)) → meters R (for_each f l).
Proof.
  induction l as [|a l IH]; intros Hf; simpl; [apply meters_ret|].
  apply meters_bind; [apply Hf|]. intros b.
  apply meters_bind; [by apply IH|]. intros bs. apply meters_ret.
Qed.
Lemma meters_fold_m {E A S} (f : S → A → M E S) s l :
  (∀ s a, a ∈ l → meters R (f s a)) → meters R (fold_m f s l).
Proof.
  revert s. induction l as [|a l IH]; intros s Hf; simpl; [apply meters_ret|].
  apply meters_bind; [apply Hf; by left|]. intros s'. apply IH. intros. apply Hf. by right.
Qed.
End Meters.

(** Descend through a step; what is left are the updates of the metrics. *)
Ltac meter_step :=
  lazymatch goal with
  | |- PreOrder _ => typeclasses eauto
  | |- ∀ _, _ => intros ?
  | |- meters _ (mbind _ _) => apply meters_bind
  | |- meters _ (mret _) => apply meters_ret
  | |- meters _ (fail _) => apply meters_fail
  | |- meters _ (lift _) => apply meters_lift
  | |- meters _ (metric _) => apply meters_metric
  | |- meters _ uuid => apply meters_uuid
  | |- meters _ random => apply meters_random
  | |- meters _ now_ms => apply meters_stmt
  | |- meters _ (query _) => apply meters_stmt
  | |- meters _ (execute _) => apply meters_stmt
  | |- meters _ (try_execute _) => apply meters_stmt
  | |- meters _ (stmt _) => apply meters_stmt
  | |- meters _ (map_err _ _) => apply meters_map_err
  | |- meters _ (attempt _) => apply meters_attempt
  | |- meters _ (transaction _ _) => apply meters_transaction
  | |- meters _ (for_each _ _) => apply meters_for_each
  | |- meters _ (fold_m _ _ _) => apply meters_fold_m
  | |- meters _ (match ?x with _ => _ end) => destruct x
  | |- meters _ (let _ := _ in _) => cbv zeta
  end.

(** Metrics frames that state what part of the metrics is left alone. *)
Definition still {X} (f : Metrics → X) : relation Metrics := λ m m', f m' = f m.
#[export] Instance still_preorder {X} (f : Metrics → X) : PreOrder (still f).
Proof. split; unfold still; [by intros ?|]. intros ??? H1 H2. by rewrite H2. Qed.
Create HintDb still discriminated.
Ltac meter_still := repeat (meter_step || solve [eauto 2 with still] || by repeat case_match).
