(* ===== verification/Lifecycle.v ===== *)
(** * The life cycle of a job

    The abstract machine the handlers implement.  Its state is the live rows, the archived
    rows and the set of identifiers ever used; a step inserts a new job, updates a live row
    ([job_step]: claim, lease renewal, retry, the dependency gate of flows), archives a live
    row, or prunes an archived one.  The UPDATE and INSERT .. SELECT statements of the
    handlers are the row functions of this file. *)
From Stdlib Require Import Ascii String.
From S2P Require Import Prelude Text F64 Db Pressure Telemetry Broker.
Local Open Scope string_scope.
Local Open Scope Z_scope.

(** ** Row updates of the handlers *)

(** get_next_job: [UPDATE jobs SET state = 'Active', worker_id, attempts, ...] *)
Definition claim_row (worker : string) (attempts now lease : Z) (j : Job) : Job :=
  j <| j_state := Active |> <| j_worker_id := Some worker |> <| j_attempts := attempts |>
    <| j_updated_at := now |> <| j_lease_expires_at_ms := Some lease |>.

(** renew_lease: [UPDATE jobs SET lease_expires_at_ms, updated_at ...] *)
Definition renew_row (expiry now : Z) (j : Job) : Job :=
  j <| j_lease_expires_at_ms := Some expiry |> <| j_updated_at := now |>.

(** finish_job and recover_expired: the retry of a failed attempt *)
Definition retry_row (state : JobState) (available_at : Z) (error : option string) (now : Z)
    (j : Job) : Job :=
  j <| j_state := state |> <| j_available_at := Some available_at |> <| j_worker_id := None |>
    <| j_lease_expires_at_ms := None |> <| j_last_error := error |> <| j_updated_at := now |>.

(** finish_job: the gate of the parent *)
Definition dec_pending (j : Job) : Job := j <| j_pending_children ::= Z.pred |>.
Definition release_row (state : JobState) (now : Z) (j : Job) : Job :=
  j <| j_state := state |> <| j_updated_at := now |>.

(** add_flow_merge: the target becomes the root of its tree, then waits for new children *)
Definition adopt_row (tree_id : string) (j : Job) : Job := j <| j_tree_id := Some tree_id |>.
Definition add_pending (n now : Z) (j : Job) : Job :=
  j <| j_pending_children ::= (λ p, p + n) |> <| j_updated_at := now |>.
Definition regate_row (now : Z) (j : Job) : Job :=
  j <| j_state := WaitingChildren |> <| j_updated_at := now |>.

(** finish_job: [INSERT INTO job_history ... SELECT ... FROM jobs] *)
Definition finish_row (state : JobState) (error : option string) (result : option bytes)
    (now : Z) (j : Job) : HistRow :=
  mkHist (j_name j) state (j_priority j) (j_payload j) (j_parent_id j) (j_trace_id j)
    (j_execution_depth j) (j_attempts j) (j_max_attempts j) (j_created_at j) now result
    (j_worker_id j) (match error with None => j_last_error j | Some _ => error end)
    (j_rate_limit_facet j) (j_fail_parent_on_failure j) (j_tree_id j) (j_tree_depth j).

(** finish_job: an ancestor failed by [fail_parent_on_failure] *)
Definition cascade_row (error : string) (now : Z) (j : Job) : HistRow :=
  mkHist (j_name j) Failed (j_priority j) (j_payload j) (j_parent_id j) (j_trace_id j)
    (j_execution_depth j) (j_attempts j) (j_max_attempts j) (j_created_at j) now None
    (j_worker_id j) (Some error) (j_rate_limit_facet j) (j_fail_parent_on_failure j)
    (j_tree_id j) (j_tree_depth j).

(** recover_expired: the flow columns are not listed, so they take their defaults. *)
Definition expire_row (now : Z) (j : Job) : HistRow :=
  mkHist (j_name j) Failed (j_priority j) (j_payload j) (j_parent_id j) (j_trace_id j)
    (j_execution_depth j) (j_attempts j) (j_max_attempts j) (j_created_at j) now None
    (j_worker_id j) (Some "Worker lease expired") (j_rate_limit_facet j) false None 0.

(** ** The abstract machine *)
Record LState := mkL {
  l_jobs : gmap string Job;
  l_history : gmap string HistRow;
  l_used : gset string;
}.

(** A row as an enqueue or a flow creates it. *)
Definition unowned (j : Job) : Prop :=
  j_worker_id j = None ∧ j_lease_expires_at_ms j = None.
Definition dormant (s : JobState) : bool :=
  match s with Waiting | Delayed | WaitingChildren => true | _ => false end.
Definition backoff_ok (j : Job) : Prop :=
  0 ≤ j_retry_backoff_ms j ≤ j_retry_backoff_max_ms j.
Record born (j : Job) : Prop := {
  born_state : dormant (j_state j) = true;
  born_attempts : j_attempts j = 0;
  born_max : 0 < j_max_attempts j ≤ u32_max;
  born_unowned : unowned j;
  born_backoff : backoff_ok j;
  born_available : is_Some (j_available_at j);
}.

Inductive job_step : Job → Job → Prop :=
| JClaim worker now lease j :
    runnable (j_state j) = true →
    job_step j (claim_row worker (j_attempts j + 1) now lease j)
| JRenew expiry lease now j :
    j_state j = Active → j_lease_expires_at_ms j = Some lease → lease ≤ expiry →
    job_step j (renew_row expiry now j)
| JRetry state available error now j :
    j_state j = Active → j_attempts j < j_max_attempts j → runnable state = true →
    job_step j (retry_row state available error now j)
| JDecPending j : job_step j (dec_pending j)
| JRelease state now j :
    j_state j = WaitingChildren → j_pending_children j ≤ 0 → runnable state = true →
    job_step j (release_row state now j)
| JAdopt tree j : j_tree_id j = None → job_step j (adopt_row tree j)
| JAddPending n now j :
    dormant (j_state j) = true → 0 ≤ n → job_step j (add_pending n now j)
| JRegate now j : runnable (j_state j) = true → job_step j (regate_row now j).

Inductive archive_step : Job → HistRow → Prop :=
| AComplete result now j :
    j_state j = Active → archive_step j (finish_row Completed None result now j)
| AFail error now j :
    j_state j = Active → archive_step j (finish_row Failed (Some error) None now j)
| AExpire now j :
    j_state j = Active → j_max_attempts j ≤ j_attempts j → archive_step j (expire_row now j)
| ACascade error now j : archive_step j (cascade_row error now j).

(** The steps; only those of [lstep true] may prune the archive. *)
Inductive lstep (prune : bool) : LState → LState → Prop :=
| LInsert id j js hs used :
    id ∉ used → born j →
    lstep prune (mkL js hs used) (mkL (<[id := j]> js) hs ({[id]} ∪ used))
| LUpdate id j j' js hs used :
    js !! id = Some j → job_step j j' →
    lstep prune (mkL js hs used) (mkL (<[id := j']> js) hs used)
| LArchive id j h js hs used :
    js !! id = Some j → archive_step j h →
    lstep prune (mkL js hs used) (mkL (delete id js) (<[id := h]> hs) used)
| LPrune id h js hs used :
    prune = true → hs !! id = Some h →
    lstep prune (mkL js hs used) (mkL js (delete id hs) used).

Definition lsteps (prune : bool) : relation LState := rtc (lstep prune).

(** ** Invariants of the machine *)

(** A live row: an owner and a lease exactly while Active, attempts within the limit. *)
Definition job_wf (j : Job) : Prop :=
  match j_state j with
  | Active => is_Some (j_worker_id j) ∧ is_Some (j_lease_expires_at_ms j)
              ∧ 1 ≤ j_attempts j ≤ j_max_attempts j
  | Waiting | Delayed | WaitingChildren =>
      unowned j ∧ 0 ≤ j_attempts j < j_max_attempts j
  | Completed | Failed => False
  end ∧ j_max_attempts j ≤ u32_max ∧ backoff_ok j ∧ is_Some (j_available_at j).

(** An archived row: a terminal state, attempts within the limit; a completion has an
    owner. *)
Definition hist_wf (h : HistRow) : Prop :=
  0 ≤ h_attempts h ≤ h_max_attempts h
  ∧ match h_state h with
    | Completed => is_Some (h_worker_id h) ∧ 1 ≤ h_attempts h
    | Failed => is_Some (h_last_error h)
    | _ => False
    end.

(** What never changes of a job, live or archived. *)
Record Identity := mkIdent {
  i_name : string; i_payload : bytes; i_priority : Z; i_parent_id : option string;
  i_trace_id : string; i_execution_depth : Z; i_max_attempts : Z; i_created_at : Z;
  i_facet : option string }.
Definition job_ident (j : Job) : Identity :=
  mkIdent (j_name j) (j_payload j) (j_priority j) (j_parent_id j) (j_trace_id j)
    (j_execution_depth j) (j_max_attempts j) (j_created_at j) (j_rate_limit_facet j).
Definition hist_ident (h : HistRow) : Identity :=
  mkIdent (h_name h) (h_payload h) (h_priority h) (h_parent_id h) (h_trace_id h)
    (h_execution_depth h) (h_max_attempts h) (h_created_at h) (h_rate_limit_facet h).

Record linv (s : LState) : Prop := {
  linv_jobs : map_Forall (λ _ j, job_wf j) (l_jobs s);
  linv_history : map_Forall (λ _ h, hist_wf h) (l_history s);
  linv_disjoint : dom (l_jobs s) ## dom (l_history s);
  linv_used : dom (l_jobs s) ∪ dom (l_history s) ⊆ l_used s;
}.

Lemma job_step_wf j j' : job_wf j → job_step j j' → job_wf j'.
Proof.
  unfold job_wf, unowned, backoff_ok. intros Hwf Hs. destruct Hs; simpl in *;
    destruct (j_state j); try destruct state; by_parts.
Qed.

Lemma job_step_ident j j' : job_step j j' → job_ident j' = job_ident j.
Proof. by destruct 1. Qed.

Lemma archive_step_wf j h : job_wf j → archive_step j h → hist_wf h.
Proof.
  unfold job_wf, hist_wf. intros Hwf Hs. destruct Hs; simpl in *;
    destruct (j_state j); by_parts.
Qed.

Lemma archive_step_ident j h : archive_step j h → hist_ident h = job_ident j.
Proof. by destruct 1. Qed.

Lemma born_wf j : born j → job_wf j.
Proof. intros [Hs ? ? [] ? ?]. unfold job_wf, unowned. destruct (j_state j); by_parts. Qed.

Lemma lstep_inv p s s' : linv s → lstep p s s' → linv s'.
Proof.
  intros [Hj Hh Hd Hu] Hs. destruct Hs as [id j js hs used Hid Hb|id j j' js hs used Hid Hstep
    |id j h js hs used Hid Hstep|id h js hs used _ Hid]; simpl in *.
  - split; simpl; [| done | |].
    + apply map_Forall_insert_2; [by apply born_wf|done].
    + rewrite dom_insert_L. set_solver.
    + rewrite dom_insert_L. set_solver.
  - pose proof (elem_of_dom_2 _ _ _ Hid). split; simpl; [| done | |].
    + apply map_Forall_insert_2; [|done]. by eapply job_step_wf; [eapply Hj|].
    + rewrite dom_insert_L. set_solver.
    + rewrite dom_insert_L. set_solver.
  - pose proof (elem_of_dom_2 _ _ _ Hid). split; simpl.
    + by apply map_Forall_delete.
    + apply map_Forall_insert_2; [|done]. by eapply archive_step_wf; [eapply Hj|].
    + rewrite dom_insert_L, dom_delete_L. set_solver.
    + rewrite dom_insert_L, dom_delete_L. set_solver.
  - split; simpl; [done | by apply map_Forall_delete | |]; rewrite dom_delete_L; set_solver.
Qed.

Lemma lsteps_inv p s s' : linv s → lsteps p s s' → linv s'.
Proof. intros Hs. induction 1; eauto using lstep_inv. Qed.

Lemma lsteps_prune s s' : lsteps false s s' → lsteps true s s'.
Proof.
  apply rtc_subrel. intros ?? Hs. destruct Hs; [by eapply LInsert|by eapply LUpdate|by eapply LArchive|done].
Qed.

(** Nothing but pruning removes a job: it stays live or is archived. *)
Lemma lstep_keeps_jobs s s' :
  lstep false s s' →
  dom (l_jobs s) ∪ dom (l_history s) ⊆ dom (l_jobs s') ∪ dom (l_history s').
Proof.
  destruct 1 as [id|id|id|]; simpl; rewrite ?dom_insert_L, ?dom_delete_L; [set_solver..| |done].
  intros x. destruct (decide (x = id)); set_solver.
Qed.

Lemma lsteps_keeps_jobs s s' :
  lsteps false s s' →
  dom (l_jobs s) ∪ dom (l_history s) ⊆ dom (l_jobs s') ∪ dom (l_history s').
Proof. induction 1; [done|]. etrans; [by apply lstep_keeps_jobs|done]. Qed.

(** An archived row is final: it never changes, and its job never comes back. *)
Definition settled (id : string) (h : HistRow) (s : LState) : Prop :=
  id ∈ l_used s ∧ l_jobs s !! id = None
  ∧ (l_history s !! id = Some h ∨ l_history s !! id = None).

Lemma settled_step p id h s s' : lstep p s s' → settled id h s → settled id h s'.
Proof.
  unfold settled. destruct 1 as [i j js hs used Hi Hb|i j j' js hs used Hi Hs
    |i j h' js hs used Hi Hs|i h' js hs used _ Hi]; simpl; intros (Hu & Hj & Hh);
    split_and!; try done.
  - set_solver.
  - rewrite lookup_insert_ne; [done|]. by intros ->.
  - rewrite lookup_insert_ne; [done|]. intros ->. congruence.
  - rewrite lookup_delete. by case_decide.
  - rewrite lookup_insert_ne; [done|]. intros ->. congruence.
  - rewrite lookup_delete. case_decide; naive_solver.
Qed.

Lemma settled_steps p id h s s' : lsteps p s s' → settled id h s → settled id h s'.
Proof. induction 1; eauto using settled_step. Qed.

Lemma archived_settled s id h :
  linv s → l_history s !! id = Some h → settled id h s.
Proof.
  intros [_ _ Hd Hu] Hh. pose proof (elem_of_dom_2 _ _ _ Hh).
  split_and!; [set_solver| apply not_elem_of_dom; set_solver | by left].
Qed.

(** The identity and the attempts of a job along its life. *)
Definition tracks (id : string) (i : Identity) (n : Z) (s : LState) : Prop :=
  id ∈ l_used s
  ∧ (∀ j, l_jobs s !! id = Some j → job_ident j = i ∧ n ≤ j_attempts j)
  ∧ (∀ h, l_history s !! id = Some h → hist_ident h = i ∧ n ≤ h_attempts h).

Lemma job_step_attempts j j' : job_step j j' → j_attempts j ≤ j_attempts j'.
Proof. destruct 1; simpl; lia. Qed.
Lemma archive_step_attempts j h : archive_step j h → h_attempts h = j_attempts j.
Proof. by destruct 1. Qed.

Lemma tracks_step p id i n s s' : lstep p s s' → tracks id i n s → tracks id i n s'.
Proof.
  unfold tracks. destruct 1 as [k j js hs used Hk Hb|k j j' js hs used Hk Hs
    |k j h js hs used Hk Hs|k h js hs used _ Hk]; simpl; intros (Hu & Hj & Hh);
    (split_and!; [set_solver| |]); try done; intros x.
  - rewrite lookup_insert_ne; [apply Hj|]. by intros ->.
  - destruct (decide (id = k)) as [->|]; [|rewrite lookup_insert_ne by done; apply Hj].
    rewrite lookup_insert_eq. intros [= <-]. apply Hj in Hk.
    rewrite (job_step_ident _ _ Hs). pose proof (job_step_attempts _ _ Hs). naive_solver lia.
  - rewrite lookup_delete. case_decide; [done|]. apply Hj.
  - destruct (decide (id = k)) as [->|]; [|rewrite lookup_insert_ne by done; apply Hh].
    rewrite lookup_insert_eq. intros [= <-]. apply Hj in Hk.
    by rewrite (archive_step_ident _ _ Hs), (archive_step_attempts _ _ Hs).
  - rewrite lookup_delete. case_decide; [done|]. apply Hh.
Qed.

Lemma tracks_steps p id i n s s' : lsteps p s s' → tracks id i n s → tracks id i n s'.
Proof. induction 1; eauto using tracks_step. Qed.

Lemma live_tracks s id j :
  linv s → l_jobs s !! id = Some j → tracks id (job_ident j) (j_attempts j) s.
Proof.
  intros [_ _ Hd Hu] Hj. pose proof (elem_of_dom_2 _ _ _ Hj). split_and!.
  - set_solver.
  - intros j' Hj'. rewrite Hj in Hj'. by injection Hj' as <-.
  - intros h Hh%elem_of_dom_2. set_solver.
Qed.

(** ** Simulation

    A world implements an abstract state when its two tables are the state's and every
    identifier in use was drawn from the generator. *)
Section Simulation.
Context `{HE : Env, !UuidLaw HE}.

Definition drawn (w : World) : gset string :=
  list_to_set (new_v4 <$> seq 0 (w_step w)).

Record implements (w : World) (s : LState) : Prop := {
  im_jobs : l_jobs s = jobs (w_db w);
  im_history : l_history s = job_history (w_db w);
  im_used : l_used s ⊆ drawn w;
  im_inv : linv s;
}.

(** [m] performs abstract steps. *)
Definition simulates (p : bool) {E A} (m : M E A) : Prop :=
  ∀ w r w' s, m w = (r, w') → implements w s →
  ∃ s', lsteps p s s' ∧ implements w' s'.
(** The same for the successful runs of a transaction's body. *)
Definition simulates_ok (p : bool) {E A} (m : M E A) : Prop :=
  ∀ w a w' s, m w = (Ok a, w') → implements w s →
  ∃ s', lsteps p s s' ∧ implements w' s'.

Lemma elem_of_drawn w x : x ∈ drawn w ↔ ∃ n, x = new_v4 n ∧ (n < w_step w)%nat.
Proof.
  unfold drawn. rewrite elem_of_list_to_set, list_elem_of_fmap.
  setoid_rewrite elem_of_seq. naive_solver lia.
Qed.

Lemma drawn_mono w w' : (w_step w ≤ w_step w')%nat → drawn w ⊆ drawn w'.
Proof. intros Hle x. rewrite !elem_of_drawn. naive_solver lia. Qed.

(** The next identifier is a new one. *)
Lemma new_v4_fresh w n : (w_step w ≤ n)%nat → new_v4 n ∉ drawn w.
Proof.
  rewrite elem_of_drawn. intros Hn (m & Heq & Hm). apply new_v4_inj in Heq. lia.
Qed.

Lemma implements_frame w w' s :
  jobs (w_db w') = jobs (w_db w) → job_history (w_db w') = job_history (w_db w) →
  (w_step w ≤ w_step w')%nat → implements w s → implements w' s.
Proof.
  intros Hj Hh Hle [? ? Hu ?]. split; [congruence..| |done].
  etrans; [done|]. by apply drawn_mono.
Qed.

Lemma simulates_of_ok p {E A} (g : SqlError → E) (body : M E A) :
  keeps any body → simulates_ok p body → simulates p (transaction g body).
Proof.
  intros Hk Hok w r w' s. unfold transaction. destruct (fault _).
  { intros [= <- <-] Hi. exists s. split; [done|].
    eapply implements_frame; [..|exact Hi]; simpl; [done..|lia]. }
  assert (∀ wi, implements wi s → implements (tick wi) s) as Htick.
  { intros wi. apply implements_frame; simpl; [done..|lia]. }
  destruct (body _) as [[a|e] w1] eqn:E1; pose proof (Hk _ _ _ E1) as [_ Hle]; simpl in Hle.
  - destruct (fault _); intros [= <- <-] Hi.
    + exists s. split; [done|]. eapply implements_frame; [..|exact Hi]; simpl; [done..|lia].
    + destruct (Hok _ _ _ _ E1 (Htick _ Hi)) as (s' & ? & Hi'). exists s'. split; [done|].
      eapply implements_frame; [..|exact Hi']; simpl; [done..|lia].
  - intros [= <- <-] Hi. exists s. split; [done|].
    eapply implements_frame; [..|exact Hi]; simpl; [done..|lia].
Qed.

(** The two outcomes of a transaction. *)
Lemma transaction_cases {E A} (g : SqlError → E) (body : M E A) w r w' :
  keeps any body → transaction g body w = (r, w') →
  (∃ e, r = Err e ∧ w_db w' = w_db w ∧ (w_step w ≤ w_step w')%nat)
  ∨ ∃ a w1, r = Ok a ∧ body (tick w) = (Ok a, w1) ∧ w' = tick w1.
Proof.
  intros Hk. unfold transaction. destruct (fault _).
  { intros [= <- <-]. left. eexists. split_and!; [done..|simpl; lia]. }
  destruct (body _) as [[a|e] w1] eqn:E1; pose proof (Hk _ _ _ E1) as [_ Hle]; simpl in Hle.
  - destruct (fault _); intros [= <- <-].
    + left. eexists. split_and!; [done..|simpl; lia].
    + right. eauto.
  - intros [= <- <-]. left. eexists. split_and!; [done..|simpl; lia].
Qed.
Lemma implements_tick w s : implements w s → implements (tick w) s.
Proof. apply implements_frame; simpl; [done..|lia]. Qed.

(** Steps that leave the two tables alone. *)
Definition tables (d : Db) : gmap string Job * gmap string HistRow :=
  (jobs d, job_history d).
Lemma simulates_frame p {E A} (m : M E A) : keeps (same tables) m → simulates p m.
Proof.
  intros Hk w r w' s Hm Hi. apply Hk in Hm as [Hd Hle]. exists s. split; [done|].
  unfold same, tables in Hd. eapply implements_frame; [..|exact Hi]; [congruence..|done].
Qed.
Lemma simulates_frame_ok p {E A} (m : M E A) : keeps (same tables) m → simulates_ok p m.
Proof. intros Hk w a w' s. by apply simulates_frame. Qed.

Lemma simulates_ok_bind p {E A B} (m : M E A) (k : A → M E B) :
  simulates_ok p m → (∀ a, simulates_ok p (k a)) → simulates_ok p (mbind k m).
Proof.
  intros Hm Hk w b w' s (a & w1 & H1 & H2)%bind_Ok Hi.
  destruct (Hm _ _ _ _ H1 Hi) as (s1 & ? & Hi1).
  destruct (Hk _ _ _ _ _ H2 Hi1) as (s2 & ? & ?). exists s2. split; [by etrans|done].
Qed.
Lemma simulates_bind p {E A B} (m : M E A) (k : A → M E B) :
  simulates p m → (∀ a, simulates p (k a)) → simulates p (mbind k m).
Proof.
  intros Hm Hk w r w' s. unfold mbind, M_bind. destruct (m w) as [[a|e] w1] eqn:E1.
  - intros E2 Hi. destruct (Hm _ _ _ _ E1 Hi) as (s1 & ? & Hi1).
    destruct (Hk _ _ _ _ _ E2 Hi1) as (s2 & ? & ?). exists s2. split; [by etrans|done].
  - intros [= <- <-] Hi. by eapply Hm.
Qed.
Lemma simulates_ok_map_err p {E F A} (f : E → F) (m : M E A) :
  simulates_ok p m → simulates_ok p (map_err f m).
Proof. intros Hm w a w' s Hr%map_err_Ok. by eapply Hm. Qed.
Lemma simulates_map_err p {E F A} (f : E → F) (m : M E A) :
  simulates p m → simulates p (map_err f m).
Proof.
  intros Hm w r w' s. unfold map_err.
  destruct (m w) as [[a|e] w1] eqn:E1; intros [= <- <-]; by eapply Hm.
Qed.
Lemma simulates_attempt p {E F A} (m : M E A) :
  simulates p m → simulates p (attempt m : M F _).
Proof.
  intros Hm w r w' s. unfold attempt. destruct (m w) as [x w1] eqn:E1.
  intros [= <- <-]. by eapply Hm.
Qed.
Lemma simulates_weaken {E A} (m : M E A) : simulates false m → simulates true m.
Proof.
  intros Hm w r w' s Hr Hi. destruct (Hm _ _ _ _ Hr Hi) as (s' & ? & ?).
  exists s'. split; [by apply lsteps_prune|done].
Qed.

(** One abstract step, performed by one database update. *)
Lemma implements_step p w w' s s' :
  implements w s → lstep p s s' →
  l_jobs s' = jobs (w_db w') → l_history s' = job_history (w_db w') →
  l_used s' ⊆ drawn w' → ∃ s'', lsteps p s s'' ∧ implements w' s''.
Proof.
  intros Hi Hs Hj Hh Hu. exists s'. split; [by apply rtc_once|].
  split; [done..|]. eapply lstep_inv, Hs. apply Hi.
Qed.

Lemma implements_update_used p w w' s id j j' :
  implements w s → jobs (w_db w) !! id = Some j → job_step j j' →
  jobs (w_db w') = <[id := j']> (jobs (w_db w)) →
  job_history (w_db w') = job_history (w_db w) → (w_step w ≤ w_step w')%nat →
  ∃ s', lsteps p s s' ∧ implements w' s' ∧ l_used s' = l_used s.
Proof.
  intros Hi Hj Hs Hj' Hh' Hle. destruct s as [js hs used].
  pose proof Hi as [Hij Hih Hiu Hinv]. simpl in *. subst js hs.
  assert (lstep p (mkL (jobs (w_db w)) (job_history (w_db w)) used)
            (mkL (<[id := j']> (jobs (w_db w))) (job_history (w_db w)) used)) as Hstep
    by (by eapply LUpdate).
  eexists. split_and!; [by apply rtc_once| |done].
  split; simpl; [done..| |by eapply lstep_inv]. etrans; [done|by apply drawn_mono].
Qed.
Lemma implements_update p w w' s id j j' :
  implements w s → jobs (w_db w) !! id = Some j → job_step j j' →
  jobs (w_db w') = <[id := j']> (jobs (w_db w)) →
  job_history (w_db w') = job_history (w_db w) → (w_step w ≤ w_step w')%nat →
  ∃ s', lsteps p s s' ∧ implements w' s'.
Proof.
  intros. destruct (implements_update_used p w w' s id j j') as (s' & ? & ? & _); eauto.
Qed.

Lemma implements_archive p w w' s id j h :
  implements w s → jobs (w_db w) !! id = Some j → archive_step j h →
  jobs (w_db w') = delete id (jobs (w_db w)) →
  job_history (w_db w') = <[id := h]> (job_history (w_db w)) → (w_step w ≤ w_step w')%nat →
  ∃ s', lsteps p s s' ∧ implements w' s'.
Proof.
  intros Hi Hj Hs Hj' Hh' Hle. destruct s as [js hs used].
  pose proof Hi as [Hij Hih Hiu _]. simpl in *. subst js hs.
  eapply implements_step; [done|by eapply LArchive| | |]; simpl; [done..|].
  etrans; [done|by apply drawn_mono].
Qed.

(** Two phases of a run. *)
Lemma steps_then p w' s s1 :
  lsteps p s s1 → (∃ s2, lsteps p s1 s2 ∧ implements w' s2) →
  ∃ s2, lsteps p s s2 ∧ implements w' s2.
Proof. intros H1 (s2 & ? & ?). exists s2. split; [by etrans|done]. Qed.

(** The well-formedness of the rows of a world. *)
Lemma implements_job_wf w s id j :
  implements w s → jobs (w_db w) !! id = Some j → job_wf j.
Proof. intros [Hj _ _ [Hwf _ _ _]]. rewrite <-Hj. apply Hwf. Qed.
Lemma implements_used w s id j :
  implements w s → jobs (w_db w) !! id = Some j → id ∈ l_used s.
Proof.
  intros [Hj _ _ [_ _ _ Hu]] Hl%elem_of_dom_2. rewrite <-Hj in Hl. set_solver.
Qed.
Lemma implements_disjoint w s id j :
  implements w s → jobs (w_db w) !! id = Some j → job_history (w_db w) !! id = None.
Proof.
  intros [Hj Hh _ [_ _ Hd _]] Hl%elem_of_dom_2. rewrite <-Hj in Hl. rewrite <-Hh.
  apply not_elem_of_dom. set_solver.
Qed.
End Simulation.
