(* ===== verification/RateLimit.v ===== *)
(** * Dequeue rate limits (src/rate_limit.rs)

    Fixed-window limits per facet: rules are administered by [upsert], [delete] and
    [status]; a claim is blocked while its facet's window is full ([blocked], the condition
    [get_next_job] puts in its WHERE clause) and a successful claim [consume]s one unit. *)
From Stdlib Require Import Ascii String.
From S2P Require Import Prelude Text F64 Db Pressure Telemetry Broker.
Local Open Scope string_scope.
Local Open Scope Z_scope.

Definition is_wildcard (a : ascii) : bool := Ascii.eqb a "*"%char || Ascii.eqb a "?"%char.

Definition validate_facet (key : string) : result Status unit :=
  if is_blank key || negb (String.eqb key (trim key)) || contains_char is_wildcard key
  then Err (mkStatus InvalidArgument
    "facet must be an exact nonblank key without surrounding whitespace or wildcards")
  else Ok tt.

Record UpsertRuleRequest := mkUpsertRule {
  ur_facet_pattern : string; ur_max_jobs : Z; ur_window_duration_ms : Z }.

Record RateLimitStatus := mkRateStatus {
  rs_facet_key : string;
  rs_current_count : Z;
  rs_max_jobs : Z;
  rs_window_expires_at : Z;
  rs_is_throttled : bool;
  rs_rule_exists : bool;
  rs_window_duration_ms : Z;
}.

(** The facet is blocked for a claim at [now]. *)
Definition rule_blocked (now : Z) (r : Rule) (c : option RateCounter) : bool :=
  (r_max_jobs r =? 0)
  || match c with
     | Some c => (now <? c_window_expires_at c) && (r_max_jobs r <=? c_current_count c)
     | None => false
     end.

Definition blocked (d : Db) (now : Z) (j : Job) : bool :=
  match j_rate_limit_facet j with
  | None => false
  | Some f =>
      match rate_limit_rules d !! f with
      | Some r => rule_blocked now r (rate_limit_counters d !! f)
      | None => false
      end
  end.

(** The upsert of [consume]: a window that is over restarts at one. *)
Definition consume_counter (now duration : Z) (c : option RateCounter) : RateCounter :=
  match c with
  | None => mkRateCounter 1 (i64_saturating_add now duration)
  | Some c =>
      if c_window_expires_at c <=? now
      then mkRateCounter 1 (i64_saturating_add now duration)
      else mkRateCounter (c_current_count c + 1) (c_window_expires_at c)
  end.

Definition consume_rule (d : Db) (id : string) : option (string * Z) :=
  j ← jobs d !! id;
  f ← j_rate_limit_facet j;
  r ← rate_limit_rules d !! f;
  Some (f, r_window_duration_ms r).

Section Handlers.
Context `{Env}.

Definition rate_limit_upsert (req : UpsertRuleRequest) : M Status bool :=
  do? lift (validate_facet (ur_facet_pattern req)) in
  if ur_window_duration_ms req <=? 0
  then fail (mkStatus InvalidArgument "window_duration_ms must be positive")
  else transaction internal (
    let? now := map_err internal now_ms in
    match i64_checked_add now (ur_window_duration_ms req) with
    | None => fail (mkStatus InvalidArgument "window timestamp overflows")
    | Some _ =>
        do? map_err internal (execute (λ d, d <| rate_limit_rules ::=
          insert (ur_facet_pattern req)
                 (mkRule (ur_max_jobs req) (ur_window_duration_ms req)) |>)) in
        do? map_err internal (execute (λ d, d <| rate_limit_counters ::=
          delete (ur_facet_pattern req) |>)) in
        mret true
    end).

Definition rate_limit_delete (facet_key : string) : M Status bool :=
  do? lift (validate_facet facet_key) in
  transaction internal (
    let? deleted := map_err internal (stmt (λ _ d,
      Ok (bool_decide (rate_limit_rules d !! facet_key ≠ None),
          d <| rate_limit_rules ::= delete facet_key |>))) in
    do? map_err internal (execute (λ d, d <| rate_limit_counters ::= delete facet_key |>)) in
    mret deleted).

Definition rate_limit_status (facet_key : string) : M Status RateLimitStatus :=
  do? lift (validate_facet facet_key) in
  let? now := map_err internal now_ms in
  let? rule := map_err internal (query (λ d,
    r ← rate_limit_rules d !! facet_key;
    let c := rate_limit_counters d !! facet_key in
    Some (r_max_jobs r, r_window_duration_ms r, default 0 (c_current_count <$> c),
          default 0 (c_window_expires_at <$> c)))) in
  match rule with
  | None => mret (mkRateStatus facet_key 0 0 0 false false 0)
  | Some (max_jobs, duration, count, expires) =>
      let count := if now <? expires then count else 0 in
      mret (mkRateStatus facet_key count max_jobs (if now <? expires then expires else 0)
              ((max_jobs =? 0) || (max_jobs <=? count)) true duration)
  end.

Definition consume (id : string) (now : Z) : M SqlError unit :=
  let? rule := query (λ d, consume_rule d id) in
  match rule with
  | None => mret tt
  | Some (facet, duration) =>
      execute (λ d, d <| rate_limit_counters ::=
        partial_alter (λ c, Some (consume_counter now duration c)) facet |>)
  end.
End Handlers.

(** ** The window invariant

    No window has admitted more claims than its rule allows. *)
Definition counter_ok (r : Rule) (c : RateCounter) : Prop :=
  0 ≤ c_current_count c ≤ r_max_jobs r.

Definition rate_limits_ok (d : Db) : Prop :=
  ∀ f r c, rate_limit_rules d !! f = Some r → rate_limit_counters d !! f = Some c →
           counter_ok r c.

(** The units of a counter, and of a facet's window, that are in use at [now]. *)
Definition counter_used (c : option RateCounter) (now : Z) : Z :=
  match c with
  | Some c => if now <? c_window_expires_at c then c_current_count c else 0
  | None => 0
  end.
Definition window_used (d : Db) (f : string) (now : Z) : Z :=
  counter_used (rate_limit_counters d !! f) now.

Lemma consume_counter_ok now r c :
  0 ≤ r_max_jobs r →
  rule_blocked now r c = false → (∀ c', c = Some c' → counter_ok r c') →
  counter_ok r (consume_counter now (r_window_duration_ms r) c).
Proof.
  unfold rule_blocked, consume_counter, counter_ok. intros H0 [Hm Hb]%orb_false_iff Hc.
  apply Z.eqb_neq in Hm. destruct c as [c|]; simpl; [|lia].
  specialize (Hc c eq_refl).
  destruct (Z.leb_spec (c_window_expires_at c) now); simpl; [lia|].
  apply andb_false_iff in Hb as [Hb%Z.ltb_ge|Hb%Z.leb_gt]; lia.
Qed.

(** One unit is free when the facet is not blocked, and consuming uses exactly one. *)
Lemma not_blocked_free now r c :
  0 ≤ r_max_jobs r → rule_blocked now r c = false → counter_used c now < r_max_jobs r.
Proof.
  unfold rule_blocked, counter_used. intros H0 [Hm Hb]%orb_false_iff. apply Z.eqb_neq in Hm.
  destruct c as [c|]; [|lia]. destruct (now <? _); simpl in Hb; [|lia].
  by apply Z.leb_gt in Hb.
Qed.
Lemma consume_uses_one now dur c :
  now < i64_saturating_add now dur →
  counter_used (Some (consume_counter now dur c)) now = counter_used c now + 1.
Proof.
  intros Hd. unfold counter_used, consume_counter. destruct c as [c|].
  - destruct (Z.leb_spec (c_window_expires_at c) now) as [Hle|Hlt]; simpl.
    + rewrite (proj2 (Z.ltb_lt _ _) Hd), (proj2 (Z.ltb_ge _ _) Hle). done.
    + rewrite (proj2 (Z.ltb_lt _ _) Hlt). done.
  - simpl. by rewrite (proj2 (Z.ltb_lt _ _) Hd).
Qed.

Section StatusRuns.
Context `{Env}.

(** The status a client reads is the condition claims are held to.  It leaves the
    database alone, counts the units of the window that contains the clock reading, and
    reports a facet as throttled exactly when the claim query would skip every job of that
    facet at the same time; a facet without a rule is never throttled. *)
Lemma status_reports_block f w st w' :
  rate_limit_status f w = (Ok st, w') →
  (∀ r, rate_limit_rules (w_db w) !! f = Some r → 0 ≤ r_max_jobs r) →
  let now := clock (w_step w) in
  w_db w' = w_db w
  ∧ (rs_rule_exists st = true ↔ is_Some (rate_limit_rules (w_db w) !! f))
  ∧ (rs_rule_exists st = true → rs_current_count st = window_used (w_db w) f now)
  ∧ (∀ j, j_rate_limit_facet j = Some f → blocked (w_db w) now j = rs_is_throttled st).
Proof.
  unfold rate_limit_status, blocked, window_used, counter_used. intros Hr Hmax.
  apply bind_Ok in Hr as (u & w1 & H1 & Hr). injection H1 as _ <-.
  apply bind_Ok in Hr as (now & w1 & H1 & Hr). apply map_err_Ok, now_ms_Ok in H1 as [-> ->].
  apply bind_Ok in Hr as (rule & w1 & H1 & Hr). apply map_err_Ok, query_Ok in H1 as [-> ->].
  simpl in *. destruct (rate_limit_rules (w_db w) !! f) as [r|] eqn:Hrule; simpl in Hr;
    injection Hr as <- <-; simpl.
  - specialize (Hmax r eq_refl). split_and!; [done|by split| |].
    + intros _. destruct (rate_limit_counters _ !! f); simpl; [done|by destruct (_ <? 0)].
    + intros j ->. rewrite Hrule. unfold rule_blocked.
      destruct (Z.eqb_spec (r_max_jobs r) 0) as [|Hz]; simpl; [done|].
      assert ((r_max_jobs r <=? 0) = false) as Hpos by (apply Z.leb_gt; lia).
      destruct (rate_limit_counters _ !! f) as [c|]; simpl.
      * by destruct (_ <? c_window_expires_at c).
      * by destruct (_ <? 0).
  - split_and!; [done|split; [done|by intros []]|done|]. intros j ->. by rewrite Hrule.
Qed.
End StatusRuns.
