(* ===== verification/Ingress.v ===== *)
(** * Ingress velocity limits (src/ingress_limit.rs)

    A two-bucket sliding-window approximation per facet: [roll] moves the buckets to the
    window of [now], [estimate] weighs the previous window, [ingress_admit] is the check-and-consume
    run inside an enqueue transaction. *)
From Stdlib Require Import Ascii String.
From S2P Require Import Prelude Text F64 F64Spec Db Pressure Telemetry Broker RateLimit.
Local Open Scope string_scope.
Local Open Scope Z_scope.

(** Rust's [/] and [%] truncate toward zero ([Z.quot], [Z.rem]). *)
Definition roll (b : Bucket) (now w : Z) : Bucket :=
  let elapsed := wrap_i64 (now - b_start b) in
  if w <=? elapsed then
    if Z.quot elapsed w =? 1
    then mkBucket (wrap_i64 (b_start b + w)) 0 (b_current b)
    else mkBucket (wrap_i64 (now - Z.rem elapsed w)) 0 0
  else b.

Definition estimate (b : Bucket) (now w : Z) : f64 :=
  let elapsed_in_current := f64_of_Z (wrap_i64 (now - b_start b)) in
  let weight :=
    f64_clamp (fdiv (fsub (f64_of_Z w) elapsed_in_current) (f64_of_Z w)) f64_zero f64_one in
  fadd (fmul (f64_of_Z (b_previous b)) weight) (f64_of_Z (b_current b)).

Record IngressStatus := mkIngressStatus {
  is_facet_key : string;
  is_estimated_count : Z;
  is_max_jobs : Z;
  is_window_duration_ms : Z;
  is_window_started_at : Z;
  is_is_throttled : bool;
  is_rule_exists : bool;
}.

Definition fresh_bucket (now : Z) : Bucket := mkBucket now 0 0.

Section Handlers.
Context `{Env}.

Definition ingress_upsert (req : UpsertRuleRequest) : M Status bool :=
  do? lift (validate_facet (ur_facet_pattern req)) in
  if ur_window_duration_ms req <=? 0
  then fail (mkStatus InvalidArgument "window_duration_ms must be positive")
  else transaction internal (
    let? now := map_err internal now_ms in
    match i64_checked_add now (ur_window_duration_ms req) with
    | None => fail (mkStatus InvalidArgument "window timestamp overflows")
    | Some _ =>
        do? map_err internal (execute (λ d, d <| ingress_limit_rules ::=
          insert (ur_facet_pattern req)
                 (mkRule (ur_max_jobs req) (ur_window_duration_ms req)) |>)) in
        do? map_err internal (execute (λ d, d <| ingress_limit_counters ::=
          delete (ur_facet_pattern req) |>)) in
        mret true
    end).

Definition ingress_delete (facet_key : string) : M Status bool :=
  do? lift (validate_facet facet_key) in
  transaction internal (
    let? deleted := map_err internal (stmt (λ _ d,
      Ok (bool_decide (ingress_limit_rules d !! facet_key ≠ None),
          d <| ingress_limit_rules ::= delete facet_key |>))) in
    do? map_err internal (execute (λ d, d <| ingress_limit_counters ::= delete facet_key |>)) in
    mret deleted).

Definition ingress_status (facet_key : string) : M Status IngressStatus :=
  do? lift (validate_facet facet_key) in
  let? now := map_err internal now_ms in
  let? rule := map_err internal (query (λ d,
    r ← ingress_limit_rules d !! facet_key;
    Some (r_max_jobs r, r_window_duration_ms r, ingress_limit_counters d !! facet_key))) in
  match rule with
  | None => mret (mkIngressStatus facet_key 0 0 0 0 false false)
  | Some (max_jobs, duration, bucket) =>
      let '(estimated, window_started_at) :=
        match bucket with
        | Some b => let rolled := roll b now duration in
                    (estimate rolled now duration, b_start rolled)
        | None => (f64_zero, 0)
        end in
      let estimated_count :=
        f64_as_u32 (f64_clamp (f64_round estimated) f64_zero (f64_of_Z u32_max)) in
      mret (mkIngressStatus facet_key estimated_count max_jobs duration window_started_at
              ((max_jobs =? 0) || fleb (f64_of_Z max_jobs) estimated) true)
  end.

Definition ingress_admit (facet : string) (now : Z) : M SqlError bool :=
  let? rule := query (λ d, ingress_limit_rules d !! facet) in
  match rule with
  | None => mret true
  | Some r =>
      if r_max_jobs r =? 0 then mret false
      else
        let? existing := query (λ d, ingress_limit_counters d !! facet) in
        let bucket := roll (default (fresh_bucket now) existing) now
                           (r_window_duration_ms r) in
        if fleb (f64_of_Z (r_max_jobs r)) (estimate bucket now (r_window_duration_ms r))
        then mret false
        else
          do? execute (λ d, d <| ingress_limit_counters ::=
            insert facet (mkBucket (b_start bucket) (wrap_i64 (b_current bucket + 1))
                                   (b_previous bucket)) |>) in
          mret true
  end.
End Handlers.

(** ** What the buckets mean *)

(** The bucket a submission at [now] is counted in, from the stored one.  Its window holds
    [now]; it is the stored window moved by a whole number [k] of windows.  Within the same
    window the counts are the stored ones; in the next one the count becomes the previous
    count; further on nothing is carried over.  Without a stored bucket a window starts. *)
Definition rolled (old : option Bucket) (now width : Z) (b : Bucket) : Prop :=
  b_start b ≤ now < b_start b + width
  ∧ match old with
    | None => b_start b = now ∧ b_current b = 0 ∧ b_previous b = 0
    | Some o =>
        ∃ k, 0 ≤ k ∧ b_start b = b_start o + k * width
          ∧ (k = 0 → b_current b = b_current o ∧ b_previous b = b_previous o)
          ∧ (k = 1 → b_current b = 0 ∧ b_previous b = b_current o)
          ∧ (2 ≤ k → b_current b = 0 ∧ b_previous b = 0)
    end.
(** The submissions in the window of the length [width] that ends at [now], times [width]:
    the previous ones weighted by the part of their window that is left, and the current
    ones. *)
Definition load (b : Bucket) (now width : Z) : Z :=
  b_previous b * (b_start b + width - now) + b_current b * width.

Lemma roll_rolled b now w :
  0 < w → 0 ≤ now ≤ i64_max → 0 ≤ b_start b ≤ now → rolled (Some b) now w (roll b now w).
Proof.
  intros Hw Hn Hs. unfold rolled, roll.
  rewrite wrap_i64_id by (unfold in_i64, i64_min in *; lia).
  set (e := now - b_start b). assert (0 ≤ e) as He by lia.
  destruct (Z.leb_spec w e) as [Hwe|Hwe].
  2:{ split; [lia|]. exists 0. split_and!; lia. }
  rewrite Z.quot_div_nonneg, Z.rem_mod_nonneg by lia.
  pose proof (Z.div_mod e w ltac:(lia)) as Hdm. pose proof (Z.mod_pos_bound e w Hw) as Hm.
  destruct (Z.eqb_spec (e / w) 1) as [Hq|Hq]; simpl;
    rewrite wrap_i64_id by (unfold in_i64, i64_min in *; lia).
  - rewrite Hq in Hdm. split; [lia|]. exists 1. split_and!; lia.
  - assert (1 ≤ e / w) by (apply Z.div_le_lower_bound; lia).
    split; [lia|]. exists (e / w). split_and!; lia.
Qed.
Lemma fresh_rolled now w : 0 < w → rolled None now w (roll (fresh_bucket now) now w).
Proof.
  intros Hw. unfold roll, fresh_bucket. simpl. rewrite Z.sub_diag. change (wrap_i64 0) with 0.
  rewrite (proj2 (Z.leb_gt _ _)) by done. split; simpl; lia.
Qed.

(** Counts as the arithmetic of doubles represents them exactly. *)
Definition countable (b : Bucket) : Prop := 0 ≤ b_current b < 2 ^ 53 ∧ 0 ≤ b_previous b < 2 ^ 53.
Lemma rolled_countable o now w b : countable o → rolled (Some o) now w b → countable b.
Proof.
  intros [H1 H2] (_ & k & Hk & _ & H0 & Ha & Hm). unfold countable.
  assert (k = 0 ∨ k = 1 ∨ 2 ≤ k) as [?|[?|?]] by lia; lia.
Qed.

(** The weight of the previous window is the part of it that is left. *)
Lemma weight_near start now w :
  0 < w < 2 ^ 53 → start ≤ now < start + w →
  ∃ v, valued (f64_clamp (fdiv (fsub (f64_of_Z w) (f64_of_Z (now - start))) (f64_of_Z w))
                 f64_zero f64_one) v
       ∧ near 3 (v * w) ((start + w - now) * unit_value) ∧ ordinary v.
Proof.
  intros Hw Hs. pose proof unit_value_pos as HU. set (U := unit_value) in *.
  set (d := start + w - now). assert (1 ≤ d ≤ w) as Hd by lia.
  pose proof (f64_of_Z_valued w ltac:(lia)) as Vw.
  pose proof (f64_of_Z_valued (now - start) ltac:(lia)) as Ve. fold U in Vw, Ve.
  assert (2 ^ 53 ≤ U ∧ 2 ^ 53 * U < 2 ^ 2000) as [HU1 HU2] by (by split; vm_compute).
  assert (w * U - (now - start) * U = d * U) as Ed by (unfold d; ring).
  assert (1 * U ≤ d * U ∧ d * U ≤ w * U ∧ w * U ≤ 2 ^ 53 * U) as (H1 & H2 & H3).
  { split_and!; apply Z.mul_le_mono_nonneg_r; lia. }
  destruct (fsub_near _ _ _ _ Vw Ve) as (vs & Vs & Ns); [lia..|]. rewrite Ed in Ns.
  pose proof (near_bounds 1 vs (d * U) ltac:(lia) ltac:(lia) Ns) as Bs.
  destruct (fdiv_near _ _ _ _ Vs Vw) as (vq & Vq & Nq).
  { apply (ordinary_range (2 ^ 54)); fold U; lia. }
  { apply (ordinary_range (2 ^ 53)); fold U; lia. }
  apply clamp_valued in Vq. fold U in Vq, Nq. rewrite Z.mul_assoc in Nq.
  apply near_unscale in Nq; [|done].
  pose proof (near_bounds 1 (vq * w) vs ltac:(lia) ltac:(lia) Nq) as Bq.
  pose proof (near_trans 1 1 (vq * w) vs (d * U) ltac:(lia) ltac:(lia) ltac:(lia) ltac:(lia) Nq Ns) as N3.
  clear Nq Ns. exists (Z.min vq U). split_and!; [exact Vq| |].
  - destruct (Z.le_gt_cases vq U); [by rewrite Z.min_l by lia|]. rewrite Z.min_r by lia.
    unfold near in *. assert (U * w ≤ vq * w) by (apply Z.mul_le_mono_nonneg_r; lia). lia.
  - assert (0 ≤ vq) as Hq by (apply (Z.mul_le_mono_pos_r _ _ w); lia).
    apply (ordinary_range (2 ^ 55)); fold U; [lia| |lia].
    destruct (Z.le_gt_cases vq U); [|rewrite Z.min_r by lia; lia]. rewrite Z.min_l by lia.
    assert (vq * w ≤ vq * 2 ^ 53) by (apply Z.mul_le_mono_nonneg_l; lia). lia.
Qed.

(** The estimate is the load over the width, up to seven units of 2^-52; it is exact with
    nothing in the previous window. *)
Lemma estimate_near b now w :
  0 < w < 2 ^ 53 → 0 ≤ now ≤ i64_max → 0 ≤ b_start b → b_start b ≤ now < b_start b + w → countable b →
  ∃ v, valued (estimate b now w) v ∧ near 7 (v * w) (load b now w * unit_value)
       ∧ (b_previous b = 0 → v = b_current b * unit_value).
Proof.
  intros Hw Hn Hs Hb [Hc Hp]. unfold estimate.
  rewrite wrap_i64_id by (unfold in_i64, i64_min in *; lia).
  destruct (weight_near (b_start b) now w Hw Hb) as (vq & Vq & Nq & Oq).
  set (q := f64_clamp _ _ _) in *. clearbody q. pose proof unit_value_pos as HU.
  set (d := b_start b + w - now) in *. set (p := b_previous b) in *. set (c := b_current b) in *.
  pose proof (f64_of_Z_valued p Hp) as Vp. pose proof (f64_of_Z_valued c Hc) as Vc.
  assert (2 ^ 53 * unit_value < 2 ^ 1300) as HU2 by (by vm_compute).
  set (U := unit_value) in *. assert (p * U ≤ 2 ^ 53 * U ∧ c * U ≤ 2 ^ 53 * U) as [? ?] by nia.
  destruct (fmul_near _ _ _ _ Vp Vq) as (vt & Vt & Nt); [|done|].
  { destruct (Z.eq_dec p 0) as [->|]; [by left|right].
    assert (1 * U ≤ p * U) by (apply Z.mul_le_mono_nonneg_r; lia).
    apply (ordinary_range (2 ^ 53)); fold U; lia. }
  replace (p * U * vq) with (p * vq * U) in Nt by ring. apply near_unscale in Nt; [|done].
  assert (0 < vq < 2 ^ 1300) as Hq by (destruct Oq; pose proof (pow2_pos 900); lia).
  assert (0 ≤ p * vq ≤ 2 ^ 53 * 2 ^ 1300) as Bt.
  { split; [apply Z.mul_nonneg_nonneg; lia|apply Z.mul_le_mono_nonneg; lia]. }
  pose proof (near_bounds 1 vt (p * vq) ltac:(lia) ltac:(lia) Nt) as Bt2.
  assert (2 * (2 ^ 53 * 2 ^ 1300) + 2 ^ 1300 < 2 ^ 2000) as HU3 by (by vm_compute).
  destruct (fadd_near _ _ _ _ Vt Vc) as (v & Vv & Nv & Ev); [lia|].
  exists v. split_and!; [exact Vv| |].
  2:{ intros E. apply Ev. unfold near in Nt. rewrite E in Nt. lia. }
  apply (near_scale _ _ _ w) in Nv; [|lia]. apply (near_scale _ _ _ w) in Nt; [|lia].
  apply (near_scale _ _ _ p) in Nq; [|lia].
  replace (vq * w * p) with (p * vq * w) in Nq by ring.
  assert (0 ≤ d * U * p) as H1 by (apply Z.mul_nonneg_nonneg; [apply Z.mul_nonneg_nonneg|]; lia).
  pose proof (near_trans 1 3 (vt * w) (p * vq * w) (d * U * p) ltac:(lia) ltac:(lia) ltac:(lia) H1 Nt Nq)
    as N5.
  assert (0 ≤ c * U * w) as H2 by (apply Z.mul_nonneg_nonneg; [apply Z.mul_nonneg_nonneg|]; lia).
  apply (near_add _ _ _ (c * U * w)) in N5; [|lia|lia].
  rewrite Z.mul_add_distr_r in Nv.
  pose proof (near_trans 1 5 (v * w) (vt * w + c * U * w) (d * U * p + c * U * w) ltac:(lia) ltac:(lia)
    ltac:(lia) ltac:(lia) Nv N5) as N7.
  replace (load b now w * U) with (d * U * p + c * U * w) by (unfold load; fold p c d; ring). exact N7.
Qed.

(** ** Admission *)
Section AdmissionRuns.
Context `{Env}.

(** The check, with the bucket it sees. *)
Lemma ingress_admit_outcome facet now w admitted w' :
  ingress_admit facet now w = (Ok admitted, w') →
  match ingress_limit_rules (w_db w) !! facet with
  | None => admitted = true ∧ w_db w' = w_db w
  | Some r =>
      let old := ingress_limit_counters (w_db w) !! facet in
      let b := roll (default (fresh_bucket now) old) now (r_window_duration_ms r) in
      let full := (r_max_jobs r =? 0)
        || fleb (f64_of_Z (r_max_jobs r)) (estimate b now (r_window_duration_ms r)) in
      admitted = negb full
      ∧ w_db w' =
        if full then w_db w
        else w_db w <| ingress_limit_counters ::=
               insert facet (mkBucket (b_start b) (wrap_i64 (b_current b + 1)) (b_previous b)) |>
  end.
Proof.
  unfold ingress_admit. intros Hr.
  apply bind_Ok in Hr as (rule & w1 & H1 & Hr). apply query_Ok in H1 as [-> ->]. simpl in *.
  destruct (ingress_limit_rules (w_db w) !! facet) as [r|]; [|by injection Hr as <- <-].
  destruct (r_max_jobs r =? 0); simpl; [by injection Hr as <- <-|].
  apply bind_Ok in Hr as (b & w1 & H1 & Hr). apply query_Ok in H1 as [-> ->]. simpl in *.
  destruct (fleb _ _); simpl; [by injection Hr as <- <-|].
  apply bind_Ok in Hr as (u & w1 & H1 & Hr). apply execute_Ok in H1 as ->.
  by injection Hr as <- <-.
Qed.

(** The comparison with the limit decides like the exact load. *)
Lemma full_load b now width max :
  0 < width < 2 ^ 53 → 0 ≤ now ≤ i64_max → 0 ≤ b_start b → b_start b ≤ now < b_start b + width →
  countable b → 0 ≤ max < 2 ^ 53 →
  let full := fleb (f64_of_Z max) (estimate b now width) in
  (full = false → (2 ^ 49 - 1) * load b now width < 2 ^ 49 * (max * width))
  ∧ (full = true → 2 ^ 49 * (max * width) ≤ (2 ^ 49 + 1) * load b now width)
  ∧ (b_previous b = 0 → full = (max <=? b_current b)).
Proof.
  intros Hw Hn Hs Hb Hc Hm. destruct (estimate_near b now width Hw Hn Hs Hb Hc) as (v & Vv & Nv & Ev).
  cbv zeta. rewrite (fleb_valued _ _ _ _ (f64_of_Z_valued max Hm) Vv).
  pose proof unit_value_pos as HU. set (U := unit_value) in *. set (L := load b now width) in *.
  split_and!.
  - intros Hf%Z.leb_gt. assert (v * width < max * U * width) by (apply Z.mul_lt_mono_pos_r; lia).
    apply (Z.mul_lt_mono_pos_r U); [done|]. unfold near in Nv.
    replace (2 ^ 49 * (max * width) * U) with (2 ^ 49 * (max * U * width)) by ring. lia.
  - intros Hf%Z.leb_le. assert (max * U * width ≤ v * width) by (apply Z.mul_le_mono_nonneg_r; lia).
    apply (Z.mul_le_mono_pos_r _ _ U); [done|]. unfold near in Nv.
    replace (2 ^ 49 * (max * width) * U) with (2 ^ 49 * (max * U * width)) by ring. lia.
  - intros ->%Ev. destruct (Z.leb_spec max (b_current b)); [apply Z.leb_le|apply Z.leb_gt].
    + by apply Z.mul_le_mono_nonneg_r; [lia|].
    + by apply Z.mul_lt_mono_pos_r.
Qed.

(** C22: the admission check.  A facet without a rule is admitted and nothing is counted; a
    rule of zero jobs refuses; a refusal leaves the database alone.  Otherwise, for counts,
    limits and windows below 2^53 and a stored window that has started: the submission is
    counted in the stored bucket moved by whole windows to the one that holds its time, an
    admission adds exactly one to the current count of that bucket and changes nothing else,
    and the submission is admitted exactly when the load of the sliding window is below the
    limit, up to one part in 2^49; with nothing in the previous window the decision is
    exact. *)
Theorem admission_outcome facet now w admitted w' :
  ingress_admit facet now w = (Ok admitted, w') →
  match ingress_limit_rules (w_db w) !! facet with
  | None => admitted = true ∧ w_db w' = w_db w
  | Some r =>
      let width := r_window_duration_ms r in
      let max := r_max_jobs r in
      let old := ingress_limit_counters (w_db w) !! facet in
      (max = 0 → admitted = false)
      ∧ (admitted = false → w_db w' = w_db w)
      ∧ (0 < width < 2 ^ 53 → 0 ≤ max ≤ u32_max → 0 ≤ now ≤ i64_max →
         (∀ o, old = Some o → 0 ≤ b_start o ≤ now ∧ countable o) →
         ∃ b, rolled old now width b
           ∧ (admitted = true →
                w_db w' = w_db w <| ingress_limit_counters := <[facet :=
                  mkBucket (b_start b) (b_current b + 1) (b_previous b)]> (ingress_limit_counters (w_db w)) |>)
           ∧ (admitted = true → (2 ^ 49 - 1) * load b now width < 2 ^ 49 * (max * width))
           ∧ (admitted = false → max = 0 ∨ 2 ^ 49 * (max * width) ≤ (2 ^ 49 + 1) * load b now width)
           ∧ (b_previous b = 0 → admitted = (b_current b <? max)))
  end.
Proof.
  intros Hr. apply ingress_admit_outcome in Hr.
  destruct (ingress_limit_rules (w_db w) !! facet) as [r|]; [|done]. cbv zeta in *.
  set (old := ingress_limit_counters (w_db w) !! facet) in *.
  set (b := roll _ _ _) in *. destruct Hr as [-> ->]. split_and!.
  - by intros ->.
  - by intros ->%negb_false_iff.
  - intros Hw Hm Hn Hold.
    assert (rolled old now (r_window_duration_ms r) b ∧ 0 ≤ b_start b ∧ countable b) as (Hb & Hs & Hc).
    { destruct old as [o|]; simpl in b.
      - destruct (Hold o eq_refl) as [Ho Hc]. pose proof (roll_rolled o now _ (proj1 Hw) Hn Ho) as Hb. fold b in Hb.
        split_and!; [exact Hb| |by eapply rolled_countable]. destruct Hb as (_ & k & ? & -> & _). nia.
      - pose proof (fresh_rolled now _ (proj1 Hw)) as Hb. fold b in Hb.
        pose proof Hb as (_ & Es & Ec & Ep). split_and!; [exact Hb|lia|unfold countable; lia]. }
    exists b. split; [exact Hb|]. unfold u32_max in Hm.
    pose proof (full_load b now _ (r_max_jobs r) Hw Hn Hs (proj1 Hb) Hc ltac:(lia)) as (F1 & F2 & F3).
    destruct (Z.eqb_spec (r_max_jobs r) 0) as [E0|N0]; simpl.
    { split_and!; try done; [by left|]. rewrite E0. intros _. symmetry. apply Z.ltb_ge. apply Hc. }
    split_and!.
    + intros ->%negb_true_iff. rewrite wrap_i64_id; [done|]. destruct Hc. unfold in_i64, i64_min, i64_max. lia.
    + by intros ?%negb_true_iff%F1.
    + intros ?%negb_false_iff%F2. by right.
    + intros ->%F3. by rewrite Z.leb_antisym, negb_involutive.
Qed.
End AdmissionRuns.

Example roll_ex :
  roll (mkBucket 0 10 4) 1500 1000 = mkBucket 1000 0 10
  ∧ roll (mkBucket 0 10 4) 3200 1000 = mkBucket 3000 0 0.
Proof. done. Qed.
Example estimate_ex :
  f64_as_i64 (estimate (mkBucket 1000 3 10) 1500 1000) = 8.
Proof. reflexivity. Qed.
