(* ===== verification/Enqueue.v ===== *)
(** * Enqueueing (src/enqueue.rs)

    [validate_and_prepare] normalizes a request before any transaction, [enqueue_one] is
    the admission core run inside one (idempotency replay, ingress velocity, ancestry and
    depth, circuit breaker, chain quarantine, insertion), [execute_batch] runs a list of
    requests all or nothing, and [enqueue], [enqueue_bulk], [enqueue_scheduled] are its
    three entry points.  The bytes of a receipt are prost's encoding of the normalized
    request, a parameter ([Prost]). *)
From Stdlib Require Import Ascii String.
From Stdlib Require Import Strings.Byte.
From S2P Require Import Prelude Text F64 Db Pressure Telemetry Broker Lifecycle RateLimit.
From S2P Require Import Ingress.
Local Open Scope string_scope.
Local Open Scope Z_scope.

(** ** Messages *)
Record JobMetadata := mkMeta {
  m_parent_id : string;
  m_trace_id : string;
  m_execution_depth : Z;
}.
Definition default_metadata : JobMetadata := mkMeta "" "" 0.

Record AddJobRequest := mkReq {
  q_name : string;
  q_payload : bytes;
  q_priority : Z;
  q_metadata : option JobMetadata;
  q_max_attempts : Z;
  q_delay_ms : Z;
  q_rate_limit_facet : string;
  q_retry_backoff_ms : Z;
  q_retry_backoff_max_ms : Z;
  q_idempotency_key : string;
  q_retry_jitter : f64;
  q_release_on_finish : bool;
}.
#[export] Instance AddJobRequest_eta : Eta AddJobRequest := λ r,
  mkReq (q_name r) (q_payload r) (q_priority r) (q_metadata r) (q_max_attempts r)
    (q_delay_ms r) (q_rate_limit_facet r) (q_retry_backoff_ms r) (q_retry_backoff_max_ms r)
    (q_idempotency_key r) (q_retry_jitter r) (q_release_on_finish r).

Record AddJobResponse := mkResp { rp_id : string; rp_state : JobState; rp_replayed : bool }.

(** [prost::Message::encode_to_vec] of an [AddJobRequest]. *)
Class Prost := encode_to_vec : AddJobRequest → bytes.

(** The types of the fields on the wire. *)
Record on_wire (r : AddJobRequest) : Prop := mkOnWire {
  ow_priority : - 2 ^ 31 ≤ q_priority r < 2 ^ 31;
  ow_attempts : 0 ≤ q_max_attempts r ≤ u32_max;
  ow_delay : i64_min ≤ q_delay_ms r ≤ i64_max;
  ow_backoff : i64_min ≤ q_retry_backoff_ms r ≤ i64_max;
  ow_backoff_max : i64_min ≤ q_retry_backoff_max_ms r ≤ i64_max;
  ow_depth : ∀ md, q_metadata r = Some md → 0 ≤ m_execution_depth md ≤ u32_max;
  ow_jitter : SpecFloat.valid_binary 53 1024 (q_retry_jitter r) = true;
}.
(** The same message: the fields are equal, the two zeros of a double being one value (a
    field that equals its default is not written). *)
Definition same_message (r r' : AddJobRequest) : Prop :=
  r <| q_retry_jitter := f64_zero |> = r' <| q_retry_jitter := f64_zero |>
  ∧ (q_retry_jitter r = q_retry_jitter r' ∨ SpecFloat.SFeqb (q_retry_jitter r) (q_retry_jitter r') = true).
(** What prost promises: an encoding can be decoded, so that different messages have
    different bytes. *)
Class ProstLaw (HP : Prost) := encode_same : ∀ r r',
  on_wire r → on_wire r' → encode_to_vec r = encode_to_vec r' → same_message r r'.

Definition MAX_BULK_BATCH_SIZE : Z := 5000.

(** The limits of [MyQueueService] that admission reads. *)
Record Limits := mkLimits { max_execution_depth : Z; max_chain_size : Z }.

(** ** Failures and deferred metrics *)
Record RejectionRecord := mkRejection {
  rr_kind : string;
  rr_trace_id : option string;
  rr_parent_id : option string;
  rr_execution_depth : option Z;
  rr_rate_limit_facet : option string;
  rr_detail : string;
}.

Inductive EnqueueFailure :=
| FailStatus (s : Status)
| Rejected (status : Status) (record : RejectionRecord) (name : string).

Definition db_fail (e : SqlError) : EnqueueFailure := FailStatus (internal e).

Inductive SuccessMetric :=
| Inserted (job_id : string) (state : JobState) (name : string) (receipt_created : bool)
| Replayed (job_id : string).

Definition flush (s : SuccessMetric) (m : Metrics) : Metrics :=
  match s with
  | Inserted _ state name receipt_created =>
      let m1 := if receipt_created then enqueue_receipt_created m else m in
      transition None state "enqueued" m1 <| named ::= named_event name "enqueued" |>
  | Replayed _ => enqueue_replay m
  end.

Record EnqueueOutcome := mkOutcome { response : AddJobResponse; success : SuccessMetric }.

Definition fire_rejection_metric (r : RejectionRecord) (m : Metrics) : Metrics :=
  let m1 :=
    if String.eqb (rr_kind r) "ingress_velocity" then ingress_rejection m
    else if String.eqb (rr_kind r) "chain_quarantine" then chain_quarantine m
    else ancestry_rejection m in
  rejection_recorded (rr_kind r) m1.

(** ** Validation *)
Definition normalize_backoff (req : AddJobRequest) : AddJobRequest :=
  if q_retry_backoff_max_ms req =? 0
  then req <| q_retry_backoff_max_ms := Z.max 60000 (q_retry_backoff_ms req) |>
  else req.
Definition normalize_attempts (req : AddJobRequest) : AddJobRequest :=
  if q_max_attempts req =? 0 then req <| q_max_attempts := 3 |> else req.

Definition invalid {A} (m : string) : result Status A := Err (mkStatus InvalidArgument m).

Definition breaker_message (depth limit : Z) : string :=
  "Circuit breaker tripped: execution depth " ++ fmt_Z depth ++ " exceeds max allowed "
  ++ fmt_Z limit.

(** The source updates the request in place: the normalized request is returned next to
    the receipt bytes. *)
Definition validate_and_prepare `{Prost} (req : AddJobRequest) (max_execution_depth : Z)
  : result Status (AddJobRequest * option bytes) :=
  if negb (is_empty (q_idempotency_key req))
     && (is_blank (q_idempotency_key req) || (256 <? str_len (q_idempotency_key req)))
  then invalid "idempotency_key must be nonblank and at most 256 UTF-8 bytes"
  else if q_release_on_finish req && is_empty (q_idempotency_key req)
  then invalid "release_on_finish requires an idempotency_key"
  else if (q_delay_ms req <? 0) || (q_retry_backoff_ms req <? 0)
          || (q_retry_backoff_max_ms req <? 0)
  then invalid "delays must not be negative"
  else
    let req := normalize_backoff req in
    if q_retry_backoff_max_ms req <? q_retry_backoff_ms req
    then invalid "backoff cap must be at least the base"
    else if is_nan (q_retry_jitter req) || negb (in_unit (q_retry_jitter req))
    then invalid "retry_jitter must be a fraction in [0, 1]"
    else
      let req := normalize_attempts req in
      let metadata := default default_metadata (q_metadata req) in
      let req := req <| q_metadata := Some metadata |> in
      if max_execution_depth <? m_execution_depth metadata
      then Err (mkStatus ResourceExhausted
                  (breaker_message (m_execution_depth metadata) max_execution_depth))
      else Ok (req, if is_empty (q_idempotency_key req) then None
                    else Some (encode_to_vec req)).

(** ** The admission core *)

(** [SELECT .. FROM jobs WHERE id = ?1 UNION ALL SELECT .. FROM job_history .. LIMIT 1] *)
Definition lineage (d : Db) (id : string) : option (Z * string) :=
  match jobs d !! id with
  | Some j => Some (j_execution_depth j, j_trace_id j)
  | None => h ← job_history d !! id; Some (h_execution_depth h, h_trace_id h)
  end.

Definition non_empty (s : string) : option string := if is_empty s then None else Some s.

(** The upsert of [chain_counters]. *)
Definition bump_chain (now : Z) (c : option ChainCounter) : option ChainCounter :=
  match c with
  | None => Some (mkChain 1 now)
  | Some c => Some (mkChain (cc_job_count c + 1) now)
  end.

Definition reject {A} (c : Code) (kind : string) (trace parent : option string)
    (depth : option Z) (facet : option string) (detail name : string)
  : M EnqueueFailure A :=
  fail (Rejected (mkStatus c detail) (mkRejection kind trace parent depth facet detail) name).

(** The row inserted for an admitted request. *)
Definition new_job_row (req : AddJobRequest) (now available_at : Z) (parent_id : option string)
    (trace_id : string) (depth : Z) (state : JobState) : Job :=
  mkJob (q_name req) state (q_priority req) (q_payload req) parent_id trace_id depth
    0 (q_max_attempts req) now now (non_empty (q_rate_limit_facet req)) None None None
    (Some available_at) (q_retry_backoff_ms req) (q_retry_backoff_max_ms req)
    (q_retry_jitter req) 0 false None 0.

Section Core.
Context `{Env}.

(** The idempotency receipt of the request, when there is one. *)
Definition replay (req : AddJobRequest) (receipt_request : option bytes)
  : M EnqueueFailure (option EnqueueOutcome) :=
  match receipt_request with
  | None => mret None
  | Some expected =>
      let? existing := map_err db_fail (query (λ d,
        enqueue_receipts d !! (q_name req, q_idempotency_key req))) in
      match existing with
      | None => mret None
      | Some r =>
          if decide (rc_request r = expected)
          then mret (Some (mkOutcome (mkResp (rc_job_id r) (rc_initial_state r) true)
                                     (Replayed (rc_job_id r))))
          else
            do? metric enqueue_conflict in
            fail (FailStatus (mkStatus AlreadyExists
              "idempotency key was already used for a different enqueue request"))
      end
  end.

Definition admit_ingress (req : AddJobRequest) (now : Z) : M EnqueueFailure unit :=
  if is_empty (q_rate_limit_facet req) then mret tt
  else
    let? ok := map_err db_fail (ingress_admit (q_rate_limit_facet req) now) in
    if (ok : bool) then mret tt
    else reject ResourceExhausted "ingress_velocity" None None None
           (Some (q_rate_limit_facet req))
           ("ingress velocity limit exceeded for facet " ++ q_rate_limit_facet req)
           (q_name req).

(** The depth and the trace of the new job. *)
Definition ancestry (req : AddJobRequest) (metadata : JobMetadata)
    (parent_id : option string) : M EnqueueFailure (Z * string) :=
  match parent_id with
  | Some parent =>
      let? parent_row := map_err db_fail (query (λ d, lineage d parent)) in
      match parent_row with
      | None =>
          reject FailedPrecondition "parent_not_found" None (Some parent) None None
            ("ancestry: parent " ++ parent ++ " not found") (q_name req)
      | Some (parent_depth, parent_trace) =>
          let derived_depth := wrap_i64 (parent_depth + 1) in
          if m_execution_depth metadata =? 0 then mret (derived_depth, parent_trace)
          else if m_execution_depth metadata =? derived_depth
          then mret (m_execution_depth metadata, parent_trace)
          else reject InvalidArgument "inconsistent_depth" (Some parent_trace) (Some parent)
                 (Some (m_execution_depth metadata)) None
                 ("ancestry: execution_depth " ++ fmt_Z (m_execution_depth metadata)
                  ++ " must equal parent depth + 1 (" ++ fmt_Z derived_depth ++ ")")
                 (q_name req)
      end
  | None =>
      if is_empty (m_trace_id metadata)
      then let? t := uuid in mret (m_execution_depth metadata, t)
      else mret (m_execution_depth metadata, m_trace_id metadata)
  end.

Definition circuit_breaker (l : Limits) (req : AddJobRequest) (parent_id : option string)
    (depth : Z) (trace_id : string) : M EnqueueFailure unit :=
  if max_execution_depth l <? depth
  then reject ResourceExhausted "circuit_breaker" (Some trace_id) parent_id (Some depth) None
         (breaker_message depth (max_execution_depth l)) (q_name req)
  else mret tt.

Definition quarantine (l : Limits) (req : AddJobRequest) (now : Z)
    (parent_id : option string) (depth : Z) (trace_id : string) : M EnqueueFailure unit :=
  if 0 <? max_chain_size l then
    let? current := map_err db_fail (query (λ d,
      default 0 (cc_job_count <$> chain_counters d !! trace_id))) in
    if max_chain_size l <=? wrap_u64 current
    then reject ResourceExhausted "chain_quarantine" (Some trace_id) parent_id (Some depth)
           None ("chain quarantined: lineage " ++ trace_id ++ " exceeded max chain size "
                 ++ fmt_Z (max_chain_size l)) (q_name req)
    else map_err db_fail (execute (λ d,
           d <| chain_counters ::= partial_alter (bump_chain now) trace_id |>))
  else mret tt.

Definition write_receipt (req : AddJobRequest) (now : Z) (id : string) (state : JobState)
    (receipt_request : option bytes) : M EnqueueFailure unit :=
  match receipt_request with
  | None => mret tt
  | Some original =>
      map_err db_fail (try_execute (insert_receipt (q_name req) (q_idempotency_key req)
        (mkReceipt original id state now (q_release_on_finish req))))
  end.

Definition admit_new (l : Limits) (req : AddJobRequest) (now : Z)
    (receipt_request : option bytes) : M EnqueueFailure EnqueueOutcome :=
  do? admit_ingress req now in
  match i64_checked_add now (q_delay_ms req) with
  | None => fail (FailStatus (mkStatus InvalidArgument "delay timestamp overflows"))
  | Some available_at =>
      let? id := uuid in
      let state := if 0 <? q_delay_ms req then Delayed else Waiting in
      let metadata := default default_metadata (q_metadata req) in
      let parent_id := non_empty (m_parent_id metadata) in
      let? '(depth, trace_id) := ancestry req metadata parent_id in
      do? circuit_breaker l req parent_id depth trace_id in
      do? quarantine l req now parent_id depth trace_id in
      do? map_err db_fail (try_execute (insert_job id
            (new_job_row req now available_at parent_id trace_id depth state))) in
      do? write_receipt req now id state receipt_request in
      mret (mkOutcome (mkResp id state false)
              (Inserted id state (q_name req) (bool_decide (receipt_request ≠ None))))
  end.

Definition enqueue_one (l : Limits) (req : AddJobRequest) (now : Z)
    (receipt_request : option bytes) : M EnqueueFailure EnqueueOutcome :=
  let? replayed := replay req receipt_request in
  match replayed with
  | Some o => mret o
  | None => admit_new l req now receipt_request
  end.

(** [INSERT INTO enqueue_rejections ...]: the next AUTOINCREMENT key. *)
Definition insert_rejection (now : Z) (name : string) (r : RejectionRecord) (d : Db) : Db :=
  let id := rejections_seq d + 1 in
  d <| enqueue_rejections ::= insert id
         (mkRej now (rr_kind r) name (rr_trace_id r) (rr_parent_id r)
            (rr_execution_depth r) (rr_rate_limit_facet r) (rr_detail r)) |>
    <| rejections_seq := id |>.

(** A failure to persist the record is swallowed. *)
Definition record_rejection {E} (now : Z) (name : string) (r : RejectionRecord) : M E unit :=
  let? _ := attempt (transaction id (execute (insert_rejection now name r))) in
  mret tt.

(** Why a batch stopped: the failure, with the time and position a rejection is
    recorded with. *)
Inductive BatchFailure :=
| BatchStatus (s : Status)
| BatchRejected (now : Z) (index : nat) (s : Status) (r : RejectionRecord) (name : string).

Definition at_index (now : Z) (index : nat) (f : EnqueueFailure) : BatchFailure :=
  match f with
  | FailStatus s => BatchStatus s
  | Rejected s r name => BatchRejected now index s r name
  end.

Fixpoint batch_loop (l : Limits) (now : Z) (index : nat)
    (reqs : list (AddJobRequest * option bytes)) : M BatchFailure (list EnqueueOutcome) :=
  match reqs with
  | [] => mret []
  | (req, receipt_request) :: reqs' =>
      let? o := map_err (at_index now index) (enqueue_one l req now receipt_request) in
      let? os := batch_loop l now (S index) reqs' in
      mret (o :: os)
  end.

Definition bulk_message (index : nat) (s : Status) : Status :=
  mkStatus (code s) ("bulk job " ++ fmt_Z (Z.of_nat index) ++ ": " ++ message s).

Definition execute_batch (l : Limits) (reqs : list (AddJobRequest * option bytes))
    (index_prefix : bool) : M Status (list AddJobResponse) :=
  let? outcome := attempt (transaction (λ e, BatchStatus (internal e)) (
    let? now := map_err (λ e, BatchStatus (internal e)) now_ms in
    batch_loop l now 0 reqs)) in
  match outcome with
  | Err (BatchStatus s) => fail s
  | Err (BatchRejected now index s r name) =>
      do? record_rejection now name r in
      do? metric (fire_rejection_metric r) in
      fail (if index_prefix then bulk_message index s else s)
  | Ok outcomes =>
      do? metric (λ m, foldl (λ m o, flush (success o) m) m outcomes) in
      mret (response <$> outcomes)
  end.

Context `{Prost}.

Definition enqueue_scheduled (l : Limits) (req : AddJobRequest) (now : Z)
  : M Status (string * SuccessMetric) :=
  let? '(req, receipt_request) := lift (validate_and_prepare req (max_execution_depth l)) in
  let? o := map_err (λ f, match f with FailStatus s => s | Rejected s _ _ => s end)
                    (enqueue_one l req now receipt_request) in
  mret (rp_id (response o), success o).

(** [responses.pop()] of the one response. *)
Definition enqueue (l : Limits) (req : AddJobRequest) : M Status AddJobResponse :=
  let? prepared := lift (validate_and_prepare req (max_execution_depth l)) in
  let? responses := execute_batch l [prepared] false in
  match list.last responses with
  | Some r => mret r
  | None => fail (mkStatus Internal "single enqueue yields one response")
  end.

Definition enqueue_bulk (l : Limits) (reqs : list AddJobRequest)
  : M Status (list AddJobResponse) :=
  if (Z.of_nat (length reqs) =? 0)
  then fail (mkStatus InvalidArgument "bulk enqueue requires at least one job")
  else if MAX_BULK_BATCH_SIZE <? Z.of_nat (length reqs)
  then fail (mkStatus InvalidArgument
         ("bulk enqueue exceeds max batch size " ++ fmt_Z MAX_BULK_BATCH_SIZE))
  else
    let? prepared :=
      for_each (λ r, lift (validate_and_prepare r (max_execution_depth l))) reqs in
    execute_batch l prepared true.
End Core.

(** ** Frames: what the parts of an admission leave alone *)
Section Frames.
Context `{Env}.

(** Everything but the ingress buckets. *)
Definition but_ingress (d : Db) :=
  (tables d, rate_limit_rules d, rate_limit_counters d, ingress_limit_rules d,
   enqueue_receipts d, chain_counters d, facet_dispatch d, enqueue_rejections d,
   rejections_seq d, job_schedulers d).

Lemma admit_frame f now : keeps (same but_ingress) (ingress_admit f now).
Proof. unfold ingress_admit. frame. Qed.
Lemma admit_ingress_frame req now : keeps (same but_ingress) (admit_ingress req now).
Proof. unfold admit_ingress, reject. frame. apply admit_frame. Qed.

Lemma ancestry_frame (D : relation Db) `{!PreOrder D} req md p :
  keeps D (ancestry req md p).
Proof. unfold ancestry, reject. frame. Qed.
Lemma circuit_breaker_frame (D : relation Db) `{!PreOrder D} l req p depth t :
  keeps D (circuit_breaker l req p depth t).
Proof. unfold circuit_breaker, reject. frame. Qed.
Lemma replay_frame (D : relation Db) `{!PreOrder D} req r : keeps D (replay req r).
Proof. unfold replay. frame. Qed.
Lemma quarantine_frame l req now p depth t :
  keeps (same tables) (quarantine l req now p depth t).
Proof. unfold quarantine, reject. frame. Qed.
Lemma write_receipt_frame req now id state r :
  keeps (same tables) (write_receipt req now id state r).
Proof.
  unfold write_receipt. frame. apply insert_receipt_Ok in H0 as [_ ->]. done.
Qed.
Lemma record_rejection_frame {E} now name r :
  keeps (same tables) (record_rejection now name r : M E unit).
Proof. unfold record_rejection. frame. Qed.
End Frames.

(** ** The rows an admission writes *)
Section Admission.
Context `{HE : Env}.
Implicit Types (req : AddJobRequest) (l : Limits).

(** The place of a new job: under its parent when it names one, one level below and in the
    same trace, and a depth it states itself must agree; without a parent where the request
    says, in the trace it names or in a fresh one. *)
Definition placed (d : Db) (md : JobMetadata) (parent : option string) (depth : Z)
    (trace : string) : Prop :=
  match parent with
  | Some p =>
      ∃ pd, lineage d p = Some (pd, trace) ∧ depth = wrap_i64 (pd + 1)
            ∧ (m_execution_depth md = 0 ∨ m_execution_depth md = depth)
  | None =>
      depth = m_execution_depth md
      ∧ (trace = m_trace_id md ∨ m_trace_id md = "" ∧ ∃ n, trace = new_v4 n)
  end.
Lemma ancestry_Ok req md parent w depth trace w' :
  ancestry req md parent w = (Ok (depth, trace), w') →
  placed (w_db w) md parent depth trace.
Proof.
  unfold ancestry, reject. destruct parent as [p|].
  - intros (row & w1 & Hq & Hr)%bind_Ok. apply map_err_Ok, query_Ok in Hq as [-> ->].
    destruct (lineage _ p) as [[pd pt]|] eqn:Hlin; [|done].
    destruct (Z.eqb_spec (m_execution_depth md) 0).
    { injection Hr as <- <- <-. exists pd. by split_and!; [..|left]. }
    destruct (Z.eqb_spec (m_execution_depth md) (wrap_i64 (pd + 1))); [|done].
    injection Hr as <- <- <-. exists pd. by split_and!; [..|right].
  - destruct (is_empty _) eqn:He.
    + intros (t & w1 & H1 & Hr)%bind_Ok. injection H1 as <- <-. injection Hr as <- <- <-.
      split; [done|]. right. apply String.eqb_eq in He. eauto.
    + intros [= <- <- <-]. split; [done|by left].
Qed.

(** What the successful end of [admit_new] did, after the checks: the database [d1]
    differs from the first one outside the tables of jobs only. *)
Lemma admit_new_Ok l req now rr w o w' :
  admit_new l req now rr w = (Ok o, w') →
  ∃ n w1 depth trace available,
    let id := new_v4 n in
    let md := default default_metadata (q_metadata req) in
    let state := if 0 <? q_delay_ms req then Delayed else Waiting in
    let row := new_job_row req now available (non_empty (m_parent_id md)) trace depth state in
    (w_step w ≤ n < w_step w1)%nat
    ∧ tables (w_db w1) = tables (w_db w)
    ∧ i64_checked_add now (q_delay_ms req) = Some available
    ∧ jobs (w_db w) !! id = None
    ∧ jobs (w_db w') = <[id := row]> (jobs (w_db w))
    ∧ job_history (w_db w') = job_history (w_db w)
    ∧ (w_step w1 ≤ w_step w')%nat
    ∧ depth ≤ max_execution_depth l
    ∧ placed (w_db w) md (non_empty (m_parent_id md)) depth trace
    ∧ response o = mkResp id state false.
Proof.
  unfold admit_new. intros (u & w1 & H1 & Hr)%bind_Ok.
  apply admit_ingress_frame in H1 as [H1 Hs1].
  destruct (i64_checked_add now (q_delay_ms req)) as [available|] eqn:Hav; [|done].
  apply bind_Ok in Hr as (id & w2 & H2 & Hr). injection H2 as <- <-.
  apply bind_Ok in Hr as ([depth trace] & w3 & H3 & Hr).
  pose proof (ancestry_frame (same but_ingress) _ _ _ _ _ _ H3) as [H3a Hs3].
  apply bind_Ok in Hr as (u1 & w4 & H4 & Hr).
  pose proof (circuit_breaker_frame (same but_ingress) _ _ _ _ _ _ _ _ H4) as [H4a Hs4].
  apply bind_Ok in Hr as (u2 & w5 & H5 & Hr).
  apply quarantine_frame in H5 as [H5 Hs5].
  apply bind_Ok in Hr as (u3 & w6 & H6 & Hr). apply map_err_Ok in H6.
  apply try_execute_Ok in H6 as (d6 & [Hnone Hd6]%insert_job_Ok & ->).
  apply bind_Ok in Hr as (u4 & w7 & H7 & Hr).
  apply write_receipt_frame in H7 as [H7 Hs7]. injection Hr as <- <-.
  simpl in *.
  assert (tables (w_db w1) = tables (w_db w)) as T1 by (unfold same, but_ingress in H1; congruence).
  assert (tables (w_db w5) = tables (w_db w)) as T5.
  { unfold same, but_ingress in *. congruence. }
  exists (w_step w1), w5, depth, trace, available. unfold tables in *. simpl in *.
  unfold same in H7. subst d6. simpl in *.
  injection T5 as T5a T5b. injection H7 as H7a H7b. rewrite T5a in *.
  split_and!; try lia; try done; try congruence.
  - unfold circuit_breaker, reject in H4.
    destruct (Z.ltb_spec (max_execution_depth l) depth); [done|lia].
  - apply ancestry_Ok in H3. unfold placed in *. destruct (non_empty _); [|done].
    unfold lineage in *. simpl in H3. injection T1 as T1a T1b. by rewrite T1a, T1b in H3.
Qed.

(** A request as [validate_and_prepare] returns it. *)
Definition prepared req : Prop :=
  0 < q_max_attempts req ≤ u32_max ∧ 0 ≤ q_retry_backoff_ms req ≤ q_retry_backoff_max_ms req.

Lemma new_job_born req now available parent trace depth :
  prepared req →
  born (new_job_row req now available parent trace depth
          (if 0 <? q_delay_ms req then Delayed else Waiting)).
Proof. intros []. split; simpl; try done. by destruct (0 <? _). Qed.

Lemma admit_new_frame l req now rr : keeps any (admit_new l req now rr).
Proof.
  unfold admit_new. frame; eauto using ancestry_frame, circuit_breaker_frame, any_preorder.
  all: eauto using keeps_any, admit_ingress_frame, quarantine_frame, write_receipt_frame.
Qed.
Lemma enqueue_one_frame l req now rr : keeps any (enqueue_one l req now rr).
Proof. unfold enqueue_one. frame; eauto using replay_frame, admit_new_frame, any_preorder. Qed.
Lemma batch_loop_frame l now i reqs : keeps any (batch_loop l now i reqs).
Proof.
  revert i. induction reqs as [|[req rr] reqs IH]; intros i; simpl; frame;
    eauto using enqueue_one_frame.
Qed.

Context `{!UuidLaw HE}.

Lemma admit_new_sim l req now rr : prepared req → simulates_ok false (admit_new l req now rr).
Proof.
  intros Hp w o w' s Hr Hi.
  apply admit_new_Ok in Hr as (n & w1 & depth & trace & av & Hn & Ht & _ & _ & Hj & Hh & Hle & _).
  destruct s as [js hs used]. destruct Hi as [Hij Hih Hiu Hinv]; simpl in *. subst js hs.
  eapply implements_step; [by split| |..].
  - apply LInsert with (id := new_v4 n); [|by apply new_job_born].
    intros Hin%Hiu. eapply (new_v4_fresh w n); [lia|done].
  - done.
  - done.
  - simpl. apply union_subseteq. split.
    + apply singleton_subseteq_l, elem_of_drawn. exists n. split; [done|lia].
    + etrans; [done|]. apply drawn_mono. lia.
Qed.

Lemma enqueue_one_sim l req now rr :
  prepared req → simulates_ok false (enqueue_one l req now rr).
Proof.
  intros Hp. unfold enqueue_one. apply simulates_ok_bind.
  - apply simulates_frame_ok, replay_frame, _.
  - intros [o|]; [apply simulates_frame_ok; frame|by apply admit_new_sim].
Qed.

Lemma batch_loop_sim l now i reqs :
  Forall (λ r, prepared r.1) reqs → simulates_ok false (batch_loop l now i reqs).
Proof.
  intros Hp. revert i. induction Hp as [|[req rr] reqs Hreq _ IH]; intros i; simpl.
  - apply simulates_frame_ok. frame.
  - apply simulates_ok_bind; [by apply simulates_ok_map_err, enqueue_one_sim|]. intros o.
    apply simulates_ok_bind; [apply IH|]. intros os. apply simulates_frame_ok. frame.
Qed.

Lemma execute_batch_sim l reqs prefix :
  Forall (λ r, prepared r.1) reqs → simulates false (execute_batch l reqs prefix).
Proof.
  intros Hp. unfold execute_batch. apply simulates_bind.
  - apply simulates_attempt, simulates_of_ok.
    + frame; eauto using batch_loop_frame.
    + apply simulates_ok_bind; [apply simulates_frame_ok; frame|].
      intros now. by apply batch_loop_sim.
  - intros out. apply simulates_frame. frame; eauto using record_rejection_frame.
Qed.

Context `{Prost}.

(** The types of the wire: [max_attempts] is a [uint32]. *)
Definition typed req : Prop := 0 ≤ q_max_attempts req ≤ u32_max.

Lemma validate_prepared req depth req' rr :
  typed req → validate_and_prepare req depth = Ok (req', rr) → prepared req'.
Proof.
  unfold typed, validate_and_prepare, invalid. intros Ht Hv.
  destruct (negb _ && _); [done|]. destruct (q_release_on_finish req && _); [done|].
  destruct (_ || (q_retry_backoff_max_ms req <? 0)) eqn:Hneg; [done|].
  destruct (q_retry_backoff_max_ms (normalize_backoff req) <? _) eqn:Hcap; [done|].
  destruct (is_nan _ || _); [done|]. destruct (depth <? _); [done|].
  injection Hv as <- _. apply Z.ltb_ge in Hcap.
  apply orb_false_iff in Hneg as [[_ ?%Z.ltb_ge]%orb_false_iff _].
  unfold prepared, normalize_attempts, normalize_backoff, u32_max in *.
  destruct (Z.eqb_spec (q_retry_backoff_max_ms req) 0); simpl in *;
    destruct (Z.eqb_spec (q_max_attempts req) 0); simpl in *; lia.
Qed.

Ltac by_normalize :=
  unfold normalize_backoff; destruct (_ =? 0); unfold normalize_attempts; simpl;
  destruct (_ =? 0); done.

(** Validation normalizes the backoff, the attempts and the metadata, nothing else. *)
Lemma validate_Ok req depth req' rr :
  validate_and_prepare req depth = Ok (req', rr) →
  req' = normalize_attempts (normalize_backoff req)
           <| q_metadata := Some (default default_metadata (q_metadata req)) |>
  ∧ rr = (if is_empty (q_idempotency_key req) then None else Some (encode_to_vec req'))
  ∧ m_execution_depth (default default_metadata (q_metadata req)) ≤ depth
  ∧ 0 ≤ q_delay_ms req.
Proof.
  unfold validate_and_prepare, invalid. intros Hv.
  destruct (negb _ && _); [done|]. destruct (q_release_on_finish req && _); [done|].
  destruct (_ || (q_retry_backoff_max_ms req <? 0)) eqn:Hneg; [done|].
  destruct (_ <? q_retry_backoff_ms _); [done|]. destruct (is_nan _ || _); [done|].
  apply orb_false_iff in Hneg as [[?%Z.ltb_ge _]%orb_false_iff _].
  assert (∀ r, q_metadata (normalize_attempts (normalize_backoff r)) = q_metadata r) as Hm.
  { intros r. by_normalize. }
  assert (∀ r, q_idempotency_key (normalize_attempts (normalize_backoff r))
               = q_idempotency_key r) as Hk.
  { intros r. by_normalize. }
  rewrite Hm in Hv. destruct (Z.ltb_spec depth
    (m_execution_depth (default default_metadata (q_metadata req)))); [done|].
  simpl in Hv. rewrite Hk in Hv. injection Hv as <- <-. simpl. rewrite Hk. by split_and!.
Qed.

Lemma normalize_same req :
  let req' := normalize_attempts (normalize_backoff req) in
  q_name req' = q_name req ∧ q_payload req' = q_payload req ∧ q_priority req' = q_priority req
  ∧ q_delay_ms req' = q_delay_ms req ∧ q_rate_limit_facet req' = q_rate_limit_facet req
  ∧ q_idempotency_key req' = q_idempotency_key req
  ∧ q_release_on_finish req' = q_release_on_finish req
  ∧ q_retry_backoff_ms req' = q_retry_backoff_ms req ∧ q_retry_jitter req' = q_retry_jitter req.
Proof. by_normalize. Qed.

Lemma enqueue_sim l req : typed req → simulates false (enqueue l req).
Proof.
  intros Ht. unfold enqueue. intros w r w' s Hr Hi. revert Hr.
  unfold mbind at 1, M_bind at 1, lift at 1.
  destruct (validate_and_prepare _ _) as [[req' rr]|e] eqn:Hv.
  - intros Hr. revert Hr Hi. apply simulates_bind.
    + apply execute_batch_sim, list.Forall_singleton. by eapply validate_prepared.
    + intros rs. apply simulates_frame. frame.
  - intros [= <- <-]. by exists s.
Qed.

Lemma enqueue_bulk_sim l reqs : Forall typed reqs → simulates false (enqueue_bulk l reqs).
Proof.
  intros Ht. unfold enqueue_bulk. destruct (_ =? 0); [apply simulates_frame; frame|].
  destruct (_ <? _); [apply simulates_frame; frame|].
  intros w r w' s Hr Hi. unfold mbind, M_bind in Hr.
  destruct (for_each _ reqs w) as [[ps|e] w1] eqn:Hf.
  - apply for_each_lift_Ok in Hf as [-> Hf].
    eapply execute_batch_sim; [|exact Hr|exact Hi].
    apply list.Forall_forall. intros [req rr] Hin. simpl.
    apply list_elem_of_lookup in Hin as [i Hi'].
    eapply Forall2_lookup_r in Hf as (req0 & Hi0 & Hv); [|done].
    eapply validate_prepared; [|done]. by eapply Forall_lookup_1.
  - injection Hr as <- <-. eapply simulates_frame; [|exact Hf|exact Hi]. frame.
Qed.

Lemma enqueue_scheduled_sim l req now :
  typed req → simulates_ok false (enqueue_scheduled l req now).
Proof.
  intros Ht w o w' s Hr Hi. unfold enqueue_scheduled in Hr.
  apply bind_Ok in Hr as ([req' rr] & w1 & Hv & Hr). unfold lift in Hv.
  injection Hv as Hv <-. apply bind_Ok in Hr as (o' & w2 & Ho & Hr).
  injection Hr as <- <-. apply map_err_Ok in Ho.
  eapply enqueue_one_sim; [|done..]. by eapply validate_prepared.
Qed.
End Admission.

(** ** What an enqueue does *)
Section EnqueueOutcomes.
Context `{HE : Env, HP : Prost}.
Implicit Types (req : AddJobRequest) (l : Limits).

(** An admitted request with a key leaves a receipt that answers the same bytes; a new one
    says whether it goes with the end of the job. *)
Definition receipt_of (req : AddJobRequest) (expected : bytes) (r : AddJobResponse) (d : Db)
  : Prop :=
  ∃ rc, enqueue_receipts d !! (q_name req, q_idempotency_key req) = Some rc
        ∧ rc_request rc = expected ∧ rc_job_id rc = rp_id r ∧ rc_initial_state rc = rp_state r
        ∧ (rp_replayed r = false → rc_release_on_finish rc = q_release_on_finish req).

Lemma admit_new_receipt l req now expected w o w' :
  admit_new l req now (Some expected) w = (Ok o, w') → receipt_of req expected (response o) (w_db w').
Proof.
  unfold admit_new. intros (u & w1 & H1 & Hr)%bind_Ok.
  destruct (i64_checked_add now (q_delay_ms req)) as [available|]; [|done].
  apply bind_Ok in Hr as (id & w2 & H2 & Hr). apply bind_Ok in Hr as ([depth trace] & w3 & H3 & Hr).
  apply bind_Ok in Hr as (u1 & w4 & H4 & Hr). apply bind_Ok in Hr as (u2 & w5 & H5 & Hr).
  apply bind_Ok in Hr as (u3 & w6 & H6 & Hr). apply bind_Ok in Hr as (u4 & w7 & H7 & Hr).
  injection Hr as <- <-. apply map_err_Ok, try_execute_Ok in H7 as (d & Hd & ->).
  apply insert_receipt_Ok in Hd as [_ ->]. eexists. simpl. by rewrite lookup_insert_eq.
Qed.

(** A registered key is answered from its receipt, without a new job. *)
Lemma enqueue_one_known l req now expected rc w r w' :
  enqueue_receipts (w_db w) !! (q_name req, q_idempotency_key req) = Some rc →
  enqueue_one l req now (Some expected) w = (r, w') →
  w_db w' = w_db w
  ∧ match r with
    | Ok o => rc_request rc = expected
              ∧ response o = mkResp (rc_job_id rc) (rc_initial_state rc) true
    | Err f => (rc_request rc ≠ expected ∧ ∃ m, f = FailStatus (mkStatus AlreadyExists m))
               ∨ ∃ e, f = db_fail e
    end.
Proof.
  intros Hrc Hr. unfold enqueue_one, replay in Hr.
  destruct (map_err db_fail (query (λ d, enqueue_receipts d !! (q_name req, q_idempotency_key req))) w)
    as [[x|e] w1] eqn:Hq; unfold mbind, M_bind in Hr; rewrite Hq in Hr; simpl in Hr.
  - apply map_err_Ok, query_Ok in Hq as [-> ->]. rewrite Hrc in Hr.
    destruct (decide _); simpl in Hr; injection Hr as <- <-; [done|]. split; [done|]. left. eauto.
  - injection Hr as <- <-. apply map_err_Err in Hq as (e' & Hq & ->).
    apply stmt_Err in Hq as ->. split; [done|]. right. eauto.
Qed.

Lemma enqueue_one_receipt l req now expected w o w' :
  enqueue_one l req now (Some expected) w = (Ok o, w') →
  receipt_of req expected (response o) (w_db w').
Proof.
  intros Hr. destruct (enqueue_receipts (w_db w) !! (q_name req, q_idempotency_key req))
    as [rc|] eqn:Hrc.
  - destruct (enqueue_one_known _ _ _ _ _ _ _ _ Hrc Hr) as [-> [? ->]]. by exists rc.
  - unfold enqueue_one in Hr. apply bind_Ok in Hr as (o1 & w1 & H1 & Hr). simpl in H1.
    apply bind_Ok in H1 as (x & w2 & H2 & H1). apply map_err_Ok, query_Ok in H2 as [-> ->].
    rewrite Hrc in H1. injection H1 as <- <-. by eapply admit_new_receipt.
Qed.

Lemma batch_one_Ok l now i req rr w os w' :
  batch_loop l now i [(req, rr)] w = (Ok os, w') →
  ∃ o, enqueue_one l req now rr w = (Ok o, w') ∧ os = [o].
Proof.
  simpl. intros (o & w1 & H1 & Hr)%bind_Ok. apply map_err_Ok in H1. inv_run Hr. eauto.
Qed.

(** A successful batch: the loop inside a committed transaction. *)
Lemma execute_batch_Ok l reqs prefix w rs w' :
  execute_batch l reqs prefix w = (Ok rs, w') →
  ∃ os w1, batch_loop l (clock (S (w_step w))) 0 reqs (tick (tick w)) = (Ok os, w1)
           ∧ rs = response <$> os ∧ w_db w' = w_db w1.
Proof.
  unfold execute_batch. intros (out & w1 & H1 & Hr)%bind_Ok. unfold attempt in H1.
  destruct (transaction _ _ w) as [r w2] eqn:Ht. injection H1 as -> ->.
  destruct out as [os|[s|now i s rj nm]]; [|done|by inv_run Hr].
  apply transaction_Ok in Ht as (w3 & Ht & ->). apply bind_Ok in Ht as (now & w4 & H4 & Ht).
  apply map_err_Ok, now_ms_Ok in H4 as [-> ->]. inv_run Hr. by exists os, w3.
Qed.

Lemma record_rejection_Ok {E} now name r w u w' :
  (record_rejection now name r : M E unit) w = (u, w') →
  u = Ok tt ∧ (w_db w' = w_db w ∨ w_db w' = insert_rejection now name r (w_db w)).
Proof.
  unfold record_rejection. unfold mbind, M_bind, attempt.
  destruct (transaction _ _ w) as [[x|e] w1] eqn:Ht; intros [= <- <-]; split; try done.
  - apply transaction_Ok in Ht as (w2 & Ht & ->). apply execute_Ok in Ht as ->. by right.
  - left. by eapply transaction_Err.
Qed.

(** A failed batch: nothing but the record of a rejection. *)
Lemma execute_batch_Err l reqs prefix w s w' :
  execute_batch l reqs prefix w = (Err s, w') →
  w_db w' = w_db w ∨ ∃ now name r, w_db w' = insert_rejection now name r (w_db w).
Proof.
  unfold execute_batch, mbind at 1, M_bind at 1, attempt at 1.
  destruct (transaction _ _ w) as [[os|f] w2] eqn:Ht; [by intros Hr|].
  apply transaction_Err in Ht as <-. destruct f as [s'|now i s' r nm].
  { intros [= _ <-]. by left. }
  intros Hr. apply bind_Err in Hr as [Hr|(u & w3 & H3 & Hr)].
  - by apply record_rejection_Ok in Hr as [? _].
  - apply record_rejection_Ok in H3 as [_ H3].
    apply bind_Err in Hr as [Hr|(u2 & w4 & H4 & Hr)]; [done|].
    injection H4 as _ <-. injection Hr as _ <-. destruct H3; [by left|right]. eauto.
Qed.

Lemma enqueue_Ok l req w r w' :
  enqueue l req w = (Ok r, w') →
  ∃ req' rr o w1, validate_and_prepare req (max_execution_depth l) = Ok (req', rr)
    ∧ enqueue_one l req' (clock (S (w_step w))) rr (tick (tick w)) = (Ok o, w1)
    ∧ r = response o ∧ w_db w' = w_db w1.
Proof.
  unfold enqueue. intros ([req' rr] & w1 & H1 & Hr)%bind_Ok. unfold lift in H1.
  injection H1 as Hv <-. apply bind_Ok in Hr as (rs & w2 & H2 & Hr).
  apply execute_batch_Ok in H2 as (os & w3 & H3 & -> & Hd).
  apply batch_one_Ok in H3 as (o & H3 & ->). injection Hr as <- <-. by exists req', rr, o, w3.
Qed.

(** The message a request stands for: validated with its defaults filled in. *)
Definition filled_in req : AddJobRequest :=
  normalize_attempts (normalize_backoff req)
    <| q_metadata := Some (default default_metadata (q_metadata req)) |>.
Lemma filled_in_on_wire req : on_wire req → on_wire (filled_in req).
Proof.
  intros []. unfold filled_in, normalize_attempts, normalize_backoff, i64_min, i64_max, u32_max in *.
  destruct (Z.eqb_spec (q_retry_backoff_max_ms req) 0); simpl;
    destruct (Z.eqb_spec (q_max_attempts req) 0);
    constructor; simpl; unfold i64_min, i64_max, u32_max; try done; try lia.
  all: intros md [= <-]; destruct (q_metadata req); simpl in *; [eauto|lia].
Qed.

(** The name and the key of a request survive validation. *)
Lemma validate_key req depth req' rr :
  validate_and_prepare req depth = Ok (req', rr) →
  q_name req' = q_name req ∧ q_idempotency_key req' = q_idempotency_key req
  ∧ rr = (if is_empty (q_idempotency_key req) then None else Some (encode_to_vec req')).
Proof.
  intros (-> & -> & _)%validate_Ok. destruct (normalize_same req) as (? & _ & _ & _ & _ & ? & _).
  by split_and!.
Qed.
Lemma nonempty_key (k : string) : k ≠ "" → is_empty k = false.
Proof. intros. unfold is_empty. by apply String.eqb_neq. Qed.

(** An accepted request with a key has its receipt. *)
Lemma enqueue_receipt l req w r w' :
  enqueue l req w = (Ok r, w') → q_idempotency_key req ≠ "" →
  validate_and_prepare req (max_execution_depth l) = Ok (filled_in req, Some (encode_to_vec (filled_in req)))
  ∧ receipt_of req (encode_to_vec (filled_in req)) r (w_db w').
Proof.
  intros (req' & rr & o & w1 & Hv & Ho & -> & ->)%enqueue_Ok Hk%nonempty_key.
  pose proof (validate_Ok _ _ _ _ Hv) as (E & -> & _). rewrite Hk in *.
  change (req' = filled_in req) in E. subst req'.
  split; [exact Hv|]. apply enqueue_one_receipt in Ho as (rc & Hrc & ? & ? & ? & Hf). exists rc.
  destruct (normalize_same req) as (En & _ & _ & _ & _ & Ek & Er & _). simpl in Hrc, Hf.
  rewrite En, Ek in Hrc. rewrite Er in Hf. by split_and!.
Qed.

Lemma for_each_lift_frame (D : relation Db) `{!PreOrder D} {E A B} (f : A → result E B) xs :
  keeps D (for_each (λ x, lift (f x)) xs).
Proof. frame. Qed.

(** The jobs of a batch. *)
Definition created (d : Db) (d' : Db) (req : AddJobRequest) (r : AddJobResponse) : Prop :=
  rp_replayed r = false →
  ∃ j, jobs d' !! rp_id r = Some j ∧ jobs d !! rp_id r = None ∧ j_name j = q_name req
       ∧ j_payload j = q_payload req ∧ j_state j = rp_state r.

Lemma created_mono d0 d d' d1 req r :
  jobs d0 ⊆ jobs d → jobs d' ⊆ jobs d1 → created d d' req r → created d0 d1 req r.
Proof.
  intros H0 H1 Hc Hrep. destruct (Hc Hrep) as (j & Hj & Hn & ?). exists j.
  split_and!; [by eapply lookup_weaken| |naive_solver..].
  destruct (jobs d0 !! rp_id r) as [x|] eqn:Hx; [|done].
  eapply lookup_weaken in Hx; [|exact H0]. congruence.
Qed.

Lemma enqueue_one_created l req now rr w o w' :
  enqueue_one l req now rr w = (Ok o, w') →
  jobs (w_db w) ⊆ jobs (w_db w') ∧ created (w_db w) (w_db w') req (response o).
Proof.
  unfold enqueue_one. intros (x & w1 & H1 & Hr)%bind_Ok.
  apply (replay_frame (same tables)) in H1 as Hf. destruct Hf as [[= Ej Eh] _].
  destruct x as [o'|].
  - injection Hr as -> <-. split; [by rewrite Ej|]. intros Hrep. exfalso. unfold replay in H1.
    destruct rr; [|done]. apply bind_Ok in H1 as (y & w3 & H3 & H1). destruct y as [rc|]; [|done].
    destruct (decide _); [|done]. injection H1 as <- _. done.
  - apply admit_new_Ok in Hr as (n & w3 & depth & trace & av & _ & _ & _ & Hnone & Hj & _ & _ & _ &
      _ & Hresp). rewrite Ej in *. rewrite Hj, Hresp. split; [by apply insert_subseteq|].
    intros _. simpl. rewrite Hj. eexists. rewrite lookup_insert_eq. by split_and!.
Qed.

Lemma batch_loop_Ok l now i reqs w os w' :
  batch_loop l now i reqs w = (Ok os, w') →
  jobs (w_db w) ⊆ jobs (w_db w')
  ∧ Forall2 (λ q o, created (w_db w) (w_db w') q.1 (response o)) reqs os.
Proof.
  revert i w os. induction reqs as [|[req rr] reqs IH]; intros i w os Hr; simpl in Hr.
  - injection Hr as <- <-. split; [done|constructor].
  - apply bind_Ok in Hr as (o & w1 & H1 & Hr). apply map_err_Ok, enqueue_one_created in H1 as [Hs1 Hc1].
    apply bind_Ok in Hr as (os' & w2 & H2 & Hr). injection Hr as <- <-.
    apply IH in H2 as [Hs2 Hall]. split; [by etrans|]. constructor.
    + eapply created_mono; [|exact Hs2|exact Hc1]. done.
    + eapply list.Forall2_impl; [exact Hall|]. simpl. intros q o'. by apply created_mono.
Qed.

(** ** Theorems *)

(** A request whose receipt is there is answered from the receipt, unless a statement
    fails: the job it made, or a refusal when it was made by other bytes. *)
Lemma enqueue_known l req req' expected rc w r w' :
  validate_and_prepare req (max_execution_depth l) = Ok (req', Some expected) →
  enqueue_receipts (w_db w) !! (q_name req, q_idempotency_key req) = Some rc →
  enqueue l req w = (r, w') →
  w_db w' = w_db w
  ∧ ((∃ k e, (w_step w ≤ k < w_step w')%nat ∧ fault k = Some e ∧ r = Err (internal e))
     ∨ if decide (rc_request rc = expected)
       then r = Ok (mkResp (rc_job_id rc) (rc_initial_state rc) true)
       else ∃ m, r = Err (mkStatus AlreadyExists m)).
Proof.
  intros Hv Hrc. destruct (validate_key _ _ _ _ Hv) as (En & Ek & _).
  unfold enqueue. erewrite bind_run by (unfold lift; by rewrite Hv).
  unfold execute_batch, attempt, transaction, now_ms, batch_loop, enqueue_one, replay, map_err,
    query, stmt, mbind, M_bind. simpl.
  destruct (fault (w_step w)) as [e|] eqn:F0.
  { intros [= <- <-]. split; [done|left]. exists (w_step w), e. simpl. auto with lia. }
  simpl. destruct (fault (S (w_step w))) as [e|] eqn:F1.
  { intros [= <- <-]. split; [done|left]. exists (S (w_step w)), e. simpl. auto with lia. }
  simpl. destruct (fault (S (S (w_step w)))) as [e|] eqn:F2.
  { intros [= <- <-]. split; [done|left]. exists (S (S (w_step w))), e. simpl. auto with lia. }
  simpl. rewrite En, Ek, Hrc. destruct (decide (rc_request rc = expected)); simpl.
  2:{ intros [= <- <-]. split; [done|right]. eauto. }
  destruct (fault (S (S (S (w_step w))))) as [e3|] eqn:F3; simpl; intros [= <- <-].
  - split; [done|left]. exists (S (S (S (w_step w)))), e3. simpl. auto with lia.
  - by split; [|right].
Qed.

(** C18: a bulk enqueue is all or nothing.  When it is refused or fails, no job, receipt,
    counter or bucket changes: at most one row that records the rejection is added.  When it
    succeeds every request has one answer, in order, and each new job is live under the
    identifier returned. *)
Theorem bulk_all_or_nothing l reqs w r w' :
  enqueue_bulk l reqs w = (r, w') →
  match r with
  | Err _ => w_db w' = w_db w ∨ ∃ now name rj, w_db w' = insert_rejection now name rj (w_db w)
  | Ok rs =>
      jobs (w_db w) ⊆ jobs (w_db w')
      ∧ Forall2 (created (w_db w) (w_db w')) reqs rs
  end.
Proof.
  unfold enqueue_bulk. destruct (_ =? 0); [intros [= <- <-]; by left|].
  destruct (_ <? _); [intros [= <- <-]; by left|]. intros Hr. destruct r as [rs|s].
  - apply bind_Ok in Hr as (ps & w1 & H1 & Hr). apply for_each_lift_Ok in H1 as [-> Hps].
    apply execute_batch_Ok in Hr as (os & w2 & Hloop & -> & ->).
    apply batch_loop_Ok in Hloop as [Hsub Hall]. split; [done|].
    apply Forall2_fmap_r. eapply Forall2_trans; [|exact Hps|exact Hall].
    intros req [req' rr] o Hv Ho Hrep. destruct (Ho Hrep) as (j & ? & ? & Hn & Hp & ?).
    exists j. simpl in *. apply validate_Ok in Hv as (-> & _).
    destruct (normalize_same req) as (? & ? & _). split_and!; simpl in *; congruence.
  - apply bind_Err in Hr as [Hr|(ps & w1 & H1 & Hr)].
    + left. apply (for_each_lift_frame (same id)) in Hr as [? _]. done.
    + apply for_each_lift_Ok in H1 as [-> _]. by eapply execute_batch_Err.
Qed.

(** C19: lineage.  An accepted request that is not a replay adds one job and changes no other
    row of the tables of jobs.  The job is the one that was asked for: it carries the name,
    the payload and the facet of the request, and it is recorded under the parent the request
    names, or under none if it names none.  Under a parent it inherits the parent's trace and
    sits one level below it, and a depth the request states itself must be that one; without
    a parent it has the depth and the trace of the request, or a fresh trace if it names
    none.  A depth beyond the limit is never accepted. *)
Theorem enqueue_lineage l req w r w' :
  enqueue l req w = (Ok r, w') → rp_replayed r = false →
  let md := default default_metadata (q_metadata req) in
  ∃ j, jobs (w_db w) !! rp_id r = None ∧ jobs (w_db w') = <[rp_id r := j]> (jobs (w_db w))
    ∧ job_history (w_db w') = job_history (w_db w)
    ∧ j_name j = q_name req ∧ j_payload j = q_payload req
    ∧ default "" (j_rate_limit_facet j) = q_rate_limit_facet req
    ∧ default "" (j_parent_id j) = m_parent_id md ∧ j_parent_id j ≠ Some ""
    ∧ j_execution_depth j ≤ max_execution_depth l
    ∧ match j_parent_id j with
      | Some p =>
          ∃ depth, lineage (w_db w) p = Some (depth, j_trace_id j)
            ∧ j_execution_depth j = wrap_i64 (depth + 1)
            ∧ (m_execution_depth md = 0 ∨ m_execution_depth md = j_execution_depth j)
      | None =>
          j_execution_depth j = m_execution_depth md
          ∧ (j_trace_id j = m_trace_id md ∨ m_trace_id md = "" ∧ ∃ n, j_trace_id j = new_v4 n)
      end.
Proof.
  intros Hr Hrep. apply enqueue_Ok in Hr as (req' & rr & o & w1 & Hv & Ho & -> & ->).
  unfold enqueue_one in Ho. apply bind_Ok in Ho as (x & w2 & H2 & Ho). destruct x as [o'|].
  { injection Ho as -> ->. exfalso. unfold replay in H2. destruct rr; [|done].
    apply bind_Ok in H2 as (y & w3 & H3 & H2). destruct y as [rc|]; [|done].
    destruct (decide _); [|done]. injection H2 as <- _. done. }
  apply (replay_frame (same tables)) in H2 as [[= Ej Eh] _].
  apply admit_new_Ok in Ho as (n & w3 & depth & trace & av & _ & _ & _ & Hnone & Hj & Hh & _ &
    Hdepth & Hpar & Hresp). rewrite Hresp in *. simpl in *. rewrite Ej, Eh in *.
  apply validate_Ok in Hv as (-> & _). destruct (normalize_same req) as (En & Ep & _ & _ & Ef & _).
  simpl in *. assert (∀ s, default "" (non_empty s) = s ∧ non_empty s ≠ Some "") as Hne.
  { intros s. unfold non_empty. destruct (is_empty s) eqn:E; simpl; split; try done.
    - symmetry. by apply String.eqb_eq.
    - intros [= ->]. done. }
  eexists. split_and!; [done|exact Hj|done|done|done| |apply Hne|apply Hne|done|].
  - simpl. rewrite Ef. apply Hne.
  - simpl. unfold placed, lineage in *. rewrite Ej, Eh in Hpar. exact Hpar.
Qed.
End EnqueueOutcomes.
