(* ===== verification/Leases.v ===== *)
(** * Worker leases (src/leases.rs)

    [renew_lease] extends the lease of an active claim; [recover_expired] is one pass of the
    recovery loop: it takes a bounded batch of active jobs whose lease is over and retries
    or fails each of them. *)
From Stdlib Require Import Ascii String.
From S2P Require Import Prelude Text Query F64 Scheduling Db Pressure Telemetry Broker.
From S2P Require Import Lifecycle.
Local Open Scope string_scope.
Local Open Scope Z_scope.

Definition LEASE_DURATION_MS : Z := 30000.
Definition DEFAULT_RECOVERY_BATCH_SIZE : Z := 100.

Record HeartbeatRequest := mkHeartbeat { hb_id : string; hb_worker_id : string; hb_attempt : Z }.

(** The job is held by [worker] under claim [attempt], and its lease runs at [now]. *)
Definition lease_over (now : Z) (lease : option Z) : bool :=
  match lease with None => true | Some e => e <=? now end.

(** Rows whose lease is over: [state = 'Active' AND lease_expires_at_ms <= ?1] *)
Definition expired (now : Z) (id : string) (j : Job) : bool :=
  is_state (j_state j) Active && due_by now (j_lease_expires_at_ms j).
Definition expiry_key (r : string * Job) : Key :=
  ([default 0 (j_lease_expires_at_ms r.2)], r.1).
(** [ORDER BY lease_expires_at_ms, id LIMIT ?2], the bound cast from [usize] *)
Definition expired_batch (now batch_size : Z) (d : Db) : list (string * Job) :=
  sql_limit (wrap_i64 batch_size) (order_by expiry_key (rows_where (expired now) (jobs d))).

Definition job_retry_delay (j : Job) : Z :=
  retry_delay (j_retry_backoff_ms j) (j_retry_backoff_max_ms j) (j_attempts j).
Definition delay_state (delay : Z) : JobState := if delay =? 0 then Waiting else Delayed.

Section Leases.
Context `{Env}.

Definition renew_lease (lease_duration_ms : Z) (req : HeartbeatRequest) : M Status Z :=
  if is_blank (hb_id req) || is_blank (hb_worker_id req) || (hb_attempt req =? 0)
  then fail (mkStatus InvalidArgument "id, worker_id, and a positive attempt are required")
  else transaction internal (
    let? job := map_err internal (query (λ d, jobs d !! hb_id req)) in
    match job with
    | None =>
        let? archived := map_err internal (query (λ d,
          bool_decide (is_Some (job_history d !! hb_id req)))) in
        fail (if (archived : bool)
              then mkStatus FailedPrecondition "job already finished"
              else mkStatus NotFound "job not found")
    | Some j =>
        if negb (is_state (j_state j) Active)
        then fail (mkStatus FailedPrecondition "job is not Active")
        else if bool_decide (j_worker_id j ≠ Some (hb_worker_id req))
        then fail (mkStatus PermissionDenied "worker does not own this job")
        else
          let? now := map_err internal now_ms in
          match j_lease_expires_at_ms j with
          | Some expiry =>
              if negb (j_attempts j =? hb_attempt req) || (expiry <=? now)
              then fail (mkStatus FailedPrecondition "claim is stale or expired")
              else
                let expiry := Z.max expiry (wrap_i64 (now + lease_duration_ms)) in
                do? map_err internal (execute (update_job (renew_row expiry now)
                                                          (hb_id req))) in
                mret expiry
          | None => fail (mkStatus FailedPrecondition "claim is stale or expired")
          end
    end).

(** One job of the batch: retried, or failed for good; the receipts it released. *)
Definition recover_one (now : Z) (row : string * Job) : M SqlError nat :=
  let '(id, j) := row in
  if j_attempts j <? j_max_attempts j then
    let delay := job_retry_delay j in
    do? execute (update_job (retry_row (delay_state delay) (i64_saturating_add now delay)
                                       (Some "Worker lease expired") now) id) in
    mret 0%nat
  else
    do? try_execute (λ d,
      match jobs d !! id with
      | Some j => insert_history id (expire_row now j) d
      | None => Ok d
      end) in
    do? execute (delete_job id) in
    stmt (λ _ d, Ok (release_receipts id d)).

Definition recovered_metrics (now : Z) (m : Metrics) (row : string * Job) : Metrics :=
  let j := row.2 in
  let retry := j_attempts j <? j_max_attempts j in
  let to := if negb retry then Failed else delay_state (job_retry_delay j) in
  let m1 := transition (Some Active) to "lease_expired" m in
  if retry
  then event "retried" m1 <| named ::= named_event (j_name j) "retried" |>
  else m1 <| named ::= named_event (j_name j) "failed" |>
          <| named ::= named_observe_duration (j_name j)
                         (i64_saturating_sub now (j_created_at j)) |>.

Definition recover_expired (batch_size : Z) : M Status nat :=
  map_err internal (
    let? '(now, batch, released) := transaction id (
      let? now := now_ms in
      let? batch := query (expired_batch now batch_size) in
      let? released := fold_m (λ n row, let? k := recover_one now row in
                                        mret (n + k)%nat) 0%nat batch in
      mret (now, batch, released)) in
    do? metric (dedup_released (Z.of_nat released)) in
    do? metric (λ m, foldl (recovered_metrics now) m batch) in
    mret (length batch)).
End Leases.

Lemma delay_state_runnable n : runnable (delay_state n) = true.
Proof. unfold delay_state. by destruct (n =? 0). Qed.

Lemma release_receipts_tables id d : tables (release_receipts id d).2 = tables d.
Proof. done. Qed.

Lemma expired_batch_spec now n d id j :
  (id, j) ∈ expired_batch now n d →
  jobs d !! id = Some j ∧ j_state j = Active
  ∧ ∃ e, j_lease_expires_at_ms j = Some e ∧ e ≤ now.
Proof.
  unfold expired_batch. intros Hin%elem_of_sql_limit%elem_of_order_by.
  apply elem_of_rows_where in Hin as [Hj [Hs Hd]%andb_true_iff].
  unfold is_state, due_by in *. apply bool_decide_eq_true in Hs.
  destruct (j_lease_expires_at_ms j); [|done]. apply Z.leb_le in Hd. eauto.
Qed.

Lemma expired_batch_NoDup now n d : NoDup (expired_batch now n d).*1.
Proof.
  unfold expired_batch. eapply sublist_NoDup; [|apply fmap_sublist, sql_limit_sublist].
  unfold order_by. rewrite merge_sort_Permutation. apply rows_where_NoDup.
Qed.

Section LeaseRuns.
Context `{HE : Env}.

(** The row a recovered job is left with: retried or archived. *)
Definition recovered_retry (now : Z) (j : Job) : Job :=
  retry_row (delay_state (job_retry_delay j)) (i64_saturating_add now (job_retry_delay j))
    (Some "Worker lease expired") now j.

Lemma recover_one_Ok now id j w k w' :
  recover_one now (id, j) w = (Ok k, w') → jobs (w_db w) !! id = Some j →
  (w_step w ≤ w_step w')%nat
  ∧ if j_attempts j <? j_max_attempts j
    then jobs (w_db w') = <[id := recovered_retry now j]> (jobs (w_db w))
         ∧ job_history (w_db w') = job_history (w_db w)
    else jobs (w_db w') = delete id (jobs (w_db w))
         ∧ job_history (w_db w') = <[id := expire_row now j]> (job_history (w_db w)).
Proof.
  unfold recover_one. intros Hr Hj. destruct (_ <? _) eqn:Hc.
  - inv_run Hr. split; [lia|]. by rewrite (alter_Some _ _ _ j).
  - apply bind_Ok in Hr as (u & w1 & H1 & Hr). apply try_execute_Ok in H1 as (d1 & H1 & ->).
    rewrite Hj in H1. apply insert_history_Ok in H1 as [_ ->].
    apply bind_Ok in Hr as (u2 & w2 & H2 & Hr). apply execute_Ok in H2 as ->.
    apply stmt_Ok in Hr as (d3 & _ & Hd & ->). injection Hd as _ <-. simpl.
    split; [lia|done].
Qed.

Lemma recover_one_frame now row : keeps any (recover_one now row).
Proof. destruct row. unfold recover_one. frame. Qed.

Context `{!UuidLaw HE}.

Lemma recover_one_sim now id j w k w' s :
  recover_one now (id, j) w = (Ok k, w') → jobs (w_db w) !! id = Some j →
  j_state j = Active → implements w s → ∃ s', lsteps false s s' ∧ implements w' s'.
Proof.
  intros Hr Hj Ha Hi. apply recover_one_Ok in Hr as [Hle Hr]; [|done].
  destruct (Z.ltb_spec (j_attempts j) (j_max_attempts j)); destruct Hr as [Hj' Hh'].
  - eapply implements_update; [done..| |done|done|done].
    apply JRetry; [done|done|apply delay_state_runnable].
  - eapply implements_archive; [done..| |done|done|done]. by apply AExpire.
Qed.

(** The whole batch: the rows still to be visited are as they were read. *)
Lemma recover_loop_sim now n rows :
  NoDup rows.*1 → ∀ w m w' s,
  fold_m (λ n row, let? k := recover_one now row in mret (n + k)%nat) n rows w = (Ok m, w') →
  Forall (λ r : string * Job, jobs (w_db w) !! r.1 = Some r.2 ∧ j_state r.2 = Active) rows →
  implements w s → ∃ s', lsteps false s s' ∧ implements w' s'.
Proof.
  revert n. induction rows as [|[id j] rows IH]; intros n Hnd w m w' s Hr Hall Hi; simpl in *.
  - injection Hr as <- <-. by exists s.
  - apply bind_Ok in Hr as (n' & w1 & H1 & Hr). apply bind_Ok in H1 as (k & w1' & H1 & H1').
    injection H1' as <- <-. apply list.NoDup_cons in Hnd as [Hnin Hnd].
    apply list.Forall_cons in Hall as [[Hj Ha] Hall]. simpl in *.
    destruct (recover_one_sim _ _ _ _ _ _ _ H1 Hj Ha Hi) as (s1 & Hs1 & Hi1).
    apply recover_one_Ok in H1 as [_ H1]; [|done].
    destruct (IH _ Hnd _ _ _ s1 Hr) as (s2 & Hs2 & Hi2); [|done|exists s2; split; [by etrans|done]].
    apply list.Forall_forall. intros [id' j'] Hin. simpl.
    rewrite list.Forall_forall in Hall. destruct (Hall _ Hin) as [Hj' Ha']. split; [|done].
    assert (id' ≠ id). { intros ->. apply Hnin, list_elem_of_fmap. by exists (id, j'). }
    destruct (_ <? _); destruct H1 as [-> _]; simpl in *;
      by rewrite ?lookup_insert_ne, ?lookup_delete_ne by done.
Qed.

Lemma recover_expired_sim n : simulates false (recover_expired n).
Proof.
  unfold recover_expired. apply simulates_map_err, simulates_bind;
    [|intros [[? ?] ?]; apply simulates_frame; frame].
  apply simulates_of_ok; [frame; apply recover_one_frame|].
  intros w r w' s Hr Hi.
  apply bind_Ok in Hr as (now & w1 & H1 & Hr). apply now_ms_Ok in H1 as [_ ->].
  apply bind_Ok in Hr as (rows & w2 & H2 & Hr). apply query_Ok in H2 as [-> ->].
  apply bind_Ok in Hr as (m & w3 & H3 & Hr). injection Hr as <- <-. simpl in *.
  eapply recover_loop_sim; [|exact H3|..].
  - apply expired_batch_NoDup.
  - apply list.Forall_forall. intros [id j] Hin.
    apply expired_batch_spec in Hin as (? & ? & _). done.
  - eapply implements_frame; [..|exact Hi]; simpl; [done..|lia].
Qed.

Lemma renew_lease_sim duration req : simulates false (renew_lease duration req).
Proof.
  unfold renew_lease. destruct (_ || _); [apply simulates_frame; frame|].
  apply simulates_of_ok; [frame|].
  intros w r w' s Hr Hi. apply bind_Ok in Hr as (row & w1 & H1 & Hr). inv_run H1.
  destruct (jobs (w_db w) !! hb_id req) as [j|] eqn:Hj; [|by inv_run Hr].
  destruct (is_state (j_state j) Active) eqn:Ha; simpl in Hr; [|done].
  destruct (bool_decide _); [done|].
  apply bind_Ok in Hr as (now & w2 & H2 & Hr). inv_run H2.
  destruct (j_lease_expires_at_ms j) as [e|] eqn:He; [|done].
  destruct (_ || _); [done|]. inv_run Hr.
  eapply implements_update; [done|exact Hj| |simpl; by apply alter_Some|done|simpl; lia].
  eapply JRenew; [|done|lia]. by apply bool_decide_eq_true in Ha.
Qed.
End LeaseRuns.

(** ** Theorems *)
Section LeaseTheorems.
Context `{HE : Env}.

(** C8: a heartbeat renews a lease only for the worker that holds the claim, under the
    attempt it holds, while the lease still runs; the lease never gets shorter, no other
    row changes, and a refused or failed heartbeat leaves the database alone. *)
Theorem heartbeat_extends_own_lease duration req w r w' :
  renew_lease duration req w = (r, w') →
  match r with
  | Err _ => w_db w' = w_db w
  | Ok expiry =>
      let now := clock (S (S (w_step w))) in
      ∃ j lease, jobs (w_db w) !! hb_id req = Some j ∧ j_state j = Active
        ∧ j_worker_id j = Some (hb_worker_id req) ∧ j_attempts j = hb_attempt req
        ∧ j_lease_expires_at_ms j = Some lease ∧ now < lease
        ∧ expiry = Z.max lease (wrap_i64 (now + duration))
        ∧ w_db w' = update_job (renew_row expiry now) (hb_id req) (w_db w)
  end.
Proof.
  unfold renew_lease. destruct (_ || _); [by intros [= <- <-]|]. intros Hr.
  destruct r as [e|s]; [|by eapply transaction_Err].
  apply transaction_Ok in Hr as (w1 & Hr & ->). apply bind_Ok in Hr as (row & w2 & H2 & Hr).
  inv_run H2. destruct (jobs (w_db w) !! hb_id req) as [j|] eqn:Hj; [|by inv_run Hr].
  destruct (is_state (j_state j) Active) eqn:Ha; simpl in Hr; [|done].
  apply bool_decide_eq_true in Ha. case_bool_decide as Hw; [done|].
  apply bind_Ok in Hr as (now & w2 & H2 & Hr). inv_run H2.
  destruct (j_lease_expires_at_ms j) as [lease|] eqn:He; [|done].
  destruct (Z.eqb_spec (j_attempts j) (hb_attempt req)); simpl in Hr; [|done].
  destruct (Z.leb_spec lease (clock (S (S (w_step w))))); [done|]. inv_run Hr.
  exists j, lease. by split_and!.
Qed.

(** The batch after the loop: each row retried or archived, the others as they were. *)
Lemma recover_loop_Ok now n rows :
  NoDup rows.*1 → ∀ w m w',
  fold_m (λ n row, let? k := recover_one now row in mret (n + k)%nat) n rows w = (Ok m, w') →
  Forall (λ r : string * Job, jobs (w_db w) !! r.1 = Some r.2) rows →
  (∀ id j, (id, j) ∈ rows →
     if j_attempts j <? j_max_attempts j
     then jobs (w_db w') !! id = Some (recovered_retry now j)
          ∧ job_history (w_db w') !! id = job_history (w_db w) !! id
     else jobs (w_db w') !! id = None ∧ job_history (w_db w') !! id = Some (expire_row now j))
  ∧ ∀ id, id ∉ rows.*1 → jobs (w_db w') !! id = jobs (w_db w) !! id
                        ∧ job_history (w_db w') !! id = job_history (w_db w) !! id.
Proof.
  revert n. induction rows as [|[id j] rows IH]; intros n Hnd w m w' Hr Hall; simpl in *.
  - injection Hr as <- <-. split; [by intros ?? ?%not_elem_of_nil|done].
  - apply bind_Ok in Hr as (n' & w1 & H1 & Hr). apply bind_Ok in H1 as (k & w1' & H1 & H1').
    injection H1' as <- <-. apply list.NoDup_cons in Hnd as [Hnin Hnd].
    apply list.Forall_cons in Hall as [Hj Hall]. simpl in Hj.
    apply recover_one_Ok in H1 as [_ H1]; [|done].
    assert (∀ i, i ≠ id → jobs (w_db w1') !! i = jobs (w_db w) !! i
                          ∧ job_history (w_db w1') !! i = job_history (w_db w) !! i) as Hsame.
    { intros i Hi. destruct (_ <? _); destruct H1 as [-> ->];
        by rewrite ?lookup_insert_ne, ?lookup_delete_ne by done. }
    destruct (IH _ Hnd _ _ _ Hr) as [IH1 IH2].
    { apply list.Forall_forall. intros [i x] Hin. rewrite list.Forall_forall in Hall.
      rewrite <-(Hall _ Hin). apply Hsame. simpl. intros ->.
      apply Hnin, list_elem_of_fmap. by exists (id, x). }
    destruct (IH2 id Hnin) as [Ej Eh]. split.
    + intros i x [Heq|Hin]%elem_of_cons.
      * injection Heq as -> ->. rewrite Ej, Eh. destruct (_ <? _); destruct H1 as [-> ->];
          by rewrite ?lookup_insert_eq, ?lookup_delete_eq.
      * specialize (IH1 i x Hin). destruct (Hsame i) as [_ Es].
        { intros ->. apply Hnin, list_elem_of_fmap. by exists (id, x). }
        by rewrite Es in IH1.
    + intros i [Hi Hi']%not_elem_of_cons. destruct (IH2 i Hi'), (Hsame i Hi). split; congruence.
Qed.

(** The outcome of a pass. *)
Lemma recovered_pass batch_size w r w' :
  0 ≤ batch_size ≤ i64_max → recover_expired batch_size w = (r, w') →
  match r with
  | Err _ => w_db w' = w_db w
  | Ok n =>
      let now := clock (S (w_step w)) in
      let batch := expired_batch now batch_size (w_db w) in
      n = length batch ∧ Z.of_nat n ≤ batch_size
      ∧ (∀ id j, (id, j) ∈ batch →
           jobs (w_db w) !! id = Some j ∧ expired now id j = true
           ∧ if j_attempts j <? j_max_attempts j
             then jobs (w_db w') !! id = Some (recovered_retry now j)
             else jobs (w_db w') !! id = None
                  ∧ job_history (w_db w') !! id = Some (expire_row now j))
      ∧ (∀ id, id ∉ batch.*1 → jobs (w_db w') !! id = jobs (w_db w) !! id
                              ∧ job_history (w_db w') !! id = job_history (w_db w) !! id)
      ∧ (Z.of_nat n < batch_size → ∀ id j, jobs (w_db w) !! id = Some j →
           expired now id j = true → (id, j) ∈ batch)
  end.
Proof.
  intros Hb Hr. unfold recover_expired in Hr. destruct r as [n|s].
  2:{ apply map_err_Err in Hr as (e & Hr & _).
      apply bind_Err in Hr as [Hr|([[? ?] ?] & ? & ? & ?)]; [|done]. by eapply transaction_Err. }
  apply map_err_Ok in Hr. apply bind_Ok in Hr as ([[now batch] released] & w1 & H1 & Hr).
  apply transaction_Ok in H1 as (w2 & H1 & ->). apply bind_Ok in H1 as (now' & w3 & H3 & H1).
  apply now_ms_Ok in H3 as [-> ->]. apply bind_Ok in H1 as (rows & w4 & H4 & H1).
  apply query_Ok in H4 as [-> ->]. apply bind_Ok in H1 as (m & w5 & H5 & H1).
  injection H1 as <- <- <- <-. inv_run Hr.
  set (now := clock (S (w_step w))) in *. set (rows := expired_batch now batch_size (w_db w)) in *.
  assert (∀ id j, (id, j) ∈ rows → jobs (w_db w) !! id = Some j ∧ expired now id j = true) as Hrows.
  { intros id j Hin%elem_of_sql_limit%elem_of_order_by. by apply elem_of_rows_where in Hin. }
  destruct (recover_loop_Ok _ _ _ (expired_batch_NoDup _ _ _) _ _ _ H5) as [Hin Hout].
  { apply list.Forall_forall. intros [id j] Hin. simpl. by apply Hrows. }
  assert (wrap_i64 batch_size = batch_size) as Hwrap.
  { apply wrap_i64_id. unfold in_i64, i64_min, i64_max in *. lia. }
  assert (Z.of_nat (length rows) = Z.min batch_size
            (Z.of_nat (length (rows_where (expired now) (jobs (w_db w)))))) as Hlen.
  { unfold rows, expired_batch. rewrite Hwrap, length_sql_limit, length_order_by by lia. done. }
  split_and!; [done|lia| |done|].
  - intros id j Hi. destruct (Hrows _ _ Hi). split_and!; [done..|]. specialize (Hin _ _ Hi).
    destruct (_ <? _); [by destruct Hin|done].
  - intros Hlt id j Hj He. unfold rows, expired_batch, sql_limit. rewrite Hwrap.
    destruct (Z.ltb_spec batch_size 0); [lia|]. rewrite take_ge.
    + apply elem_of_order_by. by apply elem_of_rows_where.
    + rewrite length_order_by. lia.
Qed.

(** One recovery pass.  Exactly the jobs of the batch change: each was Active with its
    lease over, and is retried with its backoff while attempts remain, or archived as Failed
    when they are spent.  The batch holds at most [batch_size] jobs, those whose leases ended
    first, and when it is not full no expired claim is left.  A failed pass changes
    nothing. *)
Lemma recovery_pass batch_size w r w' :
  0 ≤ batch_size ≤ i64_max → recover_expired batch_size w = (r, w') →
  match r with
  | Err _ => w_db w' = w_db w
  | Ok n =>
      let now := clock (S (w_step w)) in
      let batch := expired_batch now batch_size (w_db w) in
      n = length batch ∧ Z.of_nat n ≤ batch_size
      ∧ (∀ id j, (id, j) ∈ batch →
           jobs (w_db w) !! id = Some j ∧ expired now id j = true
           ∧ if j_attempts j <? j_max_attempts j
             then jobs (w_db w') !! id = Some (recovered_retry now j)
             else jobs (w_db w') !! id = None
                  ∧ job_history (w_db w') !! id = Some (expire_row now j))
      ∧ (∀ id, id ∉ batch.*1 → jobs (w_db w') !! id = jobs (w_db w) !! id
                              ∧ job_history (w_db w') !! id = job_history (w_db w) !! id)
      ∧ (Z.of_nat n < batch_size → ∀ id j, jobs (w_db w) !! id = Some j →
           expired now id j = true → (id, j) ∈ batch)
  end.
Proof. apply recovered_pass. Qed.
End LeaseTheorems.
