(* ===== verification/Claim.v ===== *)
(** * Claiming (get_next_job of src/main.rs)

    A claim picks, among the due jobs of the requested queues whose facet is not blocked by
    a rate limit, the least by priority, then (with fairness) by the facet served longest
    ago, then by age; it consumes one unit of the rate limit, marks the job Active under a
    new attempt and a lease, and records the facet served. *)
From Stdlib Require Import Ascii String.
From S2P Require Import Prelude Text Query F64 Scheduling Db Pressure Telemetry Broker.
From S2P Require Import Lifecycle RateLimit Enqueue.
Local Open Scope string_scope.
Local Open Scope Z_scope.

Record GetNextJobRequest := mkGetNext { gn_worker_id : string; gn_queue_names : list string }.
Record GetNextJobResponse := mkNext {
  n_found : bool;
  n_id : string;
  n_name : string;
  n_payload : bytes;
  n_metadata : option JobMetadata;
  n_attempts : Z;
  n_lease_expires_at_ms : Z;
}.
Definition default_next : GetNextJobResponse := mkNext false "" "" [] None 0 0.

(** [state IN ('Waiting', 'Delayed') AND available_at <= ?1 [AND name IN (...)]] *)
Definition candidate (names : list string) (now : Z) (j : Job) : bool :=
  job_due now j
  && (bool_decide (names = []) || bool_decide (j_name j ∈ names)).
Definition claimable (d : Db) (names : list string) (now : Z) (id : string) (j : Job) : bool :=
  candidate names now j && negb (blocked d now j).

(** throttled_poll_sql: a candidate is held back by a rule. *)
Definition throttled_poll (d : Db) (names : list string) (now : Z) : bool :=
  if decide (rate_limit_rules d = ∅) then false
  else bool_decide (rows_where (λ _ j, candidate names now j && blocked d now j) (jobs d) ≠ []).

Definition facet_key (j : Job) : string := default "" (j_rate_limit_facet j).
Definition served_seq (d : Db) (j : Job) : Z :=
  default 0 (fd_last_served_seq <$> facet_dispatch d !! facet_key j).

(** The two ORDER BY clauses. *)
Definition claim_key (fairness : bool) (d : Db) (r : string * Job) : Key :=
  let '(id, j) := r in
  (if fairness then [j_priority j; served_seq d j; j_created_at j]
   else [j_priority j; j_created_at j], id).

Definition claim_candidate (fairness : bool) (names : list string) (now : Z) (d : Db)
  : option (string * Job) :=
  head (order_by (claim_key fairness d) (rows_where (claimable d names now) (jobs d))).

(** [COALESCE(MAX(last_served_seq), 0) + 1] *)
Definition next_seq (d : Db) : Z :=
  match (map_to_list (facet_dispatch d)).*2 with
  | [] => 1
  | r :: rs => foldr (λ r m, Z.max (fd_last_served_seq r) m) (fd_last_served_seq r) rs + 1
  end.

Record ClaimConfig := mkClaimCfg { fairness_enabled : bool; lease_duration_ms : Z }.

Section Claim.
Context `{Env}.

(** [checked_add(1).ok_or(rusqlite::Error::InvalidQuery)] *)
Definition bump_attempts (n : Z) : M SqlError Z :=
  if n + 1 <=? u32_max then mret (n + 1) else fail (SqlFailure "Query is not read-only").

Definition serve_facet (id : string) (now : Z) : M SqlError unit :=
  let? facet := query (λ d, facet_key <$> jobs d !! id) in
  match facet with
  | None => fail (SqlFailure "Query returned no rows")
  | Some facet =>
      let? seq := query next_seq in
      execute (λ d, d <| facet_dispatch ::= insert facet (mkFacet seq now) |>)
  end.

(** The claim inside the transaction: the response and what the metrics need. *)
Definition claim_selected (cfg : ClaimConfig) (worker : string) (now : Z) (id : string)
    (j : Job) : M SqlError (GetNextJobResponse * (JobState * Z * Z * Z)) :=
  do? consume id now in
  let? row := query (λ d, jobs d !! id) in
  match row with
  | None => fail (SqlFailure "Query returned no rows")
  | Some r =>
      match j_available_at r with
      | None => fail (SqlFailure "Invalid column type Null at index: 2, name: available_at")
      | Some available_at =>
          let? attempts := bump_attempts (j_attempts j) in
          let? now := now_ms in
          let lease := wrap_i64 (now + lease_duration_ms cfg) in
          do? execute (λ d,
            match jobs d !! id with
            | Some j0 => if runnable (j_state j0)
                         then update_job (claim_row worker attempts now lease) id d else d
            | None => d
            end) in
          do? (if fairness_enabled cfg then serve_facet id now else mret tt) in
          mret (mkNext true id (j_name j) (j_payload j)
                  (Some (mkMeta (default "" (j_parent_id j)) (j_trace_id j)
                                (j_execution_depth j))) attempts lease,
                (j_state r, j_created_at r, available_at, now))
      end
  end.

Definition claim_metrics (name : string) (prior : JobState)
    (created_at available_at now attempts : Z) (m : Metrics) : Metrics :=
  transition (Some prior) Active "claimed" m
    <| named ::= named_event name "claimed" |>
    <| pressure ::= claimed created_at available_at now attempts |>.

Definition get_next_job (cfg : ClaimConfig) (req : GetNextJobRequest)
  : M Status GetNextJobResponse :=
  if is_blank (gn_worker_id req)
  then fail (mkStatus InvalidArgument "worker_id must not be blank")
  else if existsb is_blank (gn_queue_names req)
  then fail (mkStatus InvalidArgument "queue_names must not contain blank names")
  else map_err internal (
    let? '(throttled_flag, claimed_job) := transaction id (
      let? now := now_ms in
      let? throttled_flag := query (λ d, throttled_poll d (gn_queue_names req) now) in
      let? selected := query (claim_candidate (fairness_enabled cfg) (gn_queue_names req)
                                              now) in
      match selected with
      | None => mret (throttled_flag, None)
      | Some (id, j) =>
          let? r := claim_selected cfg (gn_worker_id req) now id j in
          mret (throttled_flag, Some r)
      end) in
    do? metric (λ m, if (throttled_flag : bool) then throttled m else m) in
    match claimed_job with
    | None => mret default_next
    | Some (job, (prior, created_at, available_at, now)) =>
        do? metric (claim_metrics (n_name job) prior created_at available_at now
                                  (n_attempts job)) in
        mret job
    end).
End Claim.

Lemma claim_candidate_claimable fair names now d id j :
  claim_candidate fair names now d = Some (id, j) →
  jobs d !! id = Some j ∧ claimable d names now id j = true.
Proof. intros [Hin _]%head_order_by_least. by apply elem_of_rows_where in Hin. Qed.

Lemma claim_candidate_least fair names now d id j id' j' :
  claim_candidate fair names now d = Some (id, j) →
  jobs d !! id' = Some j' → claimable d names now id' j' = true →
  key_le (claim_key fair d (id, j)) (claim_key fair d (id', j')).
Proof.
  intros [_ Hleast]%head_order_by_least Hj Hc. apply (Hleast (id', j')).
  by apply elem_of_rows_where.
Qed.
Lemma claimable_inv d names now id j :
  claimable d names now id j = true →
  runnable (j_state j) = true ∧ due_by now (j_available_at j) = true
  ∧ (names = [] ∨ j_name j ∈ names) ∧ blocked d now j = false.
Proof.
  unfold claimable, candidate, job_due.
  rewrite !andb_true_iff, orb_true_iff, !bool_decide_eq_true, negb_true_iff. tauto.
Qed.

Section ClaimRuns.
Context `{HE : Env}.

Lemma consume_frame id now :
  keeps (same (λ d, (tables d, rate_limit_rules d, facet_dispatch d))) (consume id now).
Proof. unfold consume. frame. Qed.
Lemma serve_facet_frame id now :
  keeps (same (λ d, (tables d, rate_limit_rules d, rate_limit_counters d)))
    (serve_facet id now).
Proof. unfold serve_facet. frame. Qed.

(** What a successful claim of a selected job does to the tables. *)
Lemma claim_selected_Ok cfg worker now id j w r w' :
  claim_selected cfg worker now id j w = (Ok r, w') →
  jobs (w_db w) !! id = Some j → runnable (j_state j) = true →
  ∃ now2, let lease := wrap_i64 (now2 + lease_duration_ms cfg) in
    jobs (w_db w') = <[id := claim_row worker (j_attempts j + 1) now2 lease j]> (jobs (w_db w))
    ∧ job_history (w_db w') = job_history (w_db w)
    ∧ j_attempts j + 1 ≤ u32_max
    ∧ r.1 = mkNext true id (j_name j) (j_payload j)
              (Some (mkMeta (default "" (j_parent_id j)) (j_trace_id j)
                            (j_execution_depth j))) (j_attempts j + 1) lease.
Proof.
  intros Hr Hj Hrun. unfold claim_selected in Hr.
  apply bind_Ok in Hr as (u & w1 & H1 & Hr). apply consume_frame in H1 as [H1 _].
  apply bind_Ok in Hr as (row & w2 & H2 & Hr). apply query_Ok in H2 as [-> ->].
  assert (jobs (w_db w1) = jobs (w_db w) ∧ job_history (w_db w1) = job_history (w_db w))
    as [E1 E2] by (unfold same, tables in H1; split; congruence).
  rewrite E1, Hj in Hr. destruct (j_available_at j) as [at_|]; [|done].
  apply bind_Ok in Hr as (att & w3 & H3 & Hr). unfold bump_attempts in H3.
  destruct (Z.leb_spec (j_attempts j + 1) u32_max); [|done]. injection H3 as <- <-.
  apply bind_Ok in Hr as (now2 & w4 & H4 & Hr). apply now_ms_Ok in H4 as [_ ->].
  apply bind_Ok in Hr as (u2 & w5 & H5 & Hr). apply execute_Ok in H5 as ->. simpl in Hr.
  apply bind_Ok in Hr as (u3 & w6 & H6 & Hr). injection Hr as <- <-.
  assert (tables (w_db w6) = (<[id := claim_row worker (j_attempts j + 1) now2
      (wrap_i64 (now2 + lease_duration_ms cfg)) j]> (jobs (w_db w)), job_history (w_db w))) as T6.
  { rewrite E1, Hj, Hrun in H6. simpl in H6.
    destruct (fairness_enabled cfg);
      [apply serve_facet_frame in H6 as [H6 _]|injection H6 as _ <-];
      unfold same, tables in *; simpl in *; rewrite E1, (alter_Some _ _ _ j) in * by done;
      rewrite E2 in *; congruence. }
  exists now2. unfold tables in T6. injection T6 as -> ->. by split_and!.
Qed.

(** The lease of a claim counts from a reading of the clock at most five effects before its
    end. *)
Lemma claim_selected_lease cfg worker now id j w x w' :
  claim_selected cfg worker now id j w = (Ok x, w') →
  ∃ n, n_lease_expires_at_ms x.1 = wrap_i64 (clock n + lease_duration_ms cfg)
       ∧ (n ≤ w_step w' ≤ n + 5)%nat.
Proof.
  intros Hr. unfold claim_selected in Hr. apply bind_Ok in Hr as (u & w1 & _ & Hr).
  apply bind_Ok in Hr as (row & w2 & _ & Hr). destruct row as [j0|]; [|done].
  destruct (j_available_at j0) as [at_|]; [|done]. apply bind_Ok in Hr as (att & w3 & _ & Hr).
  apply bind_Ok in Hr as (now2 & w4 & H4 & Hr). apply now_ms_Ok in H4 as [-> ->].
  apply bind_Ok in Hr as (u2 & w5 & H5 & Hr). apply execute_Ok in H5 as ->.
  apply bind_Ok in Hr as (u3 & w6 & H6 & Hr). injection Hr as <- <-. exists (w_step w3).
  split; [done|]. destruct (fairness_enabled cfg); [|injection H6 as _ <-; simpl; lia].
  unfold serve_facet in H6. apply bind_Ok in H6 as (f & w7 & H7 & H6).
  apply query_Ok in H7 as [_ ->]. destruct f as [f|]; [|done].
  apply bind_Ok in H6 as (q & w8 & H8 & H6). apply query_Ok in H8 as [_ ->].
  apply execute_Ok in H6 as ->. simpl. lia.
Qed.

Lemma claim_selected_frame cfg worker now id j :
  keeps any (claim_selected cfg worker now id j).
Proof.
  unfold claim_selected, bump_attempts. frame;
    eauto using keeps_any, consume_frame, serve_facet_frame.
Qed.

(** The claim inside a successful poll: its transaction runs after the time, the throttle
    and the candidate are read. *)
Lemma get_next_job_claim cfg req w r w' :
  get_next_job cfg req w = (Ok r, w') →
  let now := clock (S (w_step w)) in
  match claim_candidate (fairness_enabled cfg) (gn_queue_names req) now (w_db w) with
  | None => r = default_next ∧ w_db w' = w_db w
  | Some (id, j) =>
      jobs (w_db w) !! id = Some j
      ∧ claimable (w_db w) (gn_queue_names req) now id j = true
      ∧ ∃ w0 x w1, w_db w0 = w_db w
          ∧ claim_selected cfg (gn_worker_id req) now id j w0 = (Ok x, w1)
          ∧ r = x.1 ∧ w_db w' = w_db w1 ∧ w_step w' = S (w_step w1)
  end.
Proof.
  unfold get_next_job. destruct (is_blank _); [done|]. destruct (existsb _ _); [done|].
  intros Hr%map_err_Ok. apply bind_Ok in Hr as ([fl cl] & w1 & H1 & Hr).
  apply transaction_Ok in H1 as (w2 & H1 & ->). apply bind_Ok in H1 as (now & w3 & H3 & H1).
  apply now_ms_Ok in H3 as [-> ->]. apply bind_Ok in H1 as (fl' & w4 & H4 & H1).
  apply query_Ok in H4 as [_ ->]. apply bind_Ok in H1 as (sel & w5 & H5 & H1).
  apply query_Ok in H5 as [-> ->]. simpl in *.
  destruct (claim_candidate _ _ _ _) as [[id j]|] eqn:Hsel.
  - apply claim_candidate_claimable in Hsel as [Hj Hc].
    apply bind_Ok in H1 as (x & w6 & H6 & H1). injection H1 as <- <- <-.
    split_and!; [done..|]. exists (tick (tick (tick (tick w)))), x, w6. split; [done|]. split; [done|].
    destruct x as [job [[[? ?] ?] ?]]. by inv_run Hr.
  - injection H1 as <- <- <-. by inv_run Hr.
Qed.
(** The outcomes of a successful poll: the job the query selects, claimed, or none. *)
Lemma get_next_job_Ok cfg req w r w' :
  get_next_job cfg req w = (Ok r, w') →
  match claim_candidate (fairness_enabled cfg) (gn_queue_names req) (clock (S (w_step w)))
          (w_db w) with
  | None => r = default_next ∧ w_db w' = w_db w
  | Some (id, j) =>
      ∃ now2, let lease := wrap_i64 (now2 + lease_duration_ms cfg) in
        jobs (w_db w')
          = <[id := claim_row (gn_worker_id req) (j_attempts j + 1) now2 lease j]> (jobs (w_db w))
        ∧ job_history (w_db w') = job_history (w_db w)
        ∧ j_attempts j + 1 ≤ u32_max
        ∧ r = mkNext true id (j_name j) (j_payload j)
                (Some (mkMeta (default "" (j_parent_id j)) (j_trace_id j)
                              (j_execution_depth j))) (j_attempts j + 1) lease
  end.
Proof.
  intros Hr%get_next_job_claim. simpl in Hr. destruct (claim_candidate _ _ _ _) as [[id j]|]; [|done].
  destruct Hr as (Hj & (Hrun & _)%claimable_inv & w0 & x & w1 & E0 & Hc & -> & -> & _).
  eapply claim_selected_Ok in Hc as (now2 & Hj' & Hh' & Hle & Hres); [|by rewrite ?E0..].
  rewrite E0 in Hj', Hh'. by exists now2.
Qed.

Context `{!UuidLaw HE}.

Lemma get_next_job_sim cfg req : simulates false (get_next_job cfg req).
Proof.
  unfold get_next_job. destruct (is_blank _); [apply simulates_frame; frame|].
  destruct (existsb _ _); [apply simulates_frame; frame|].
  apply simulates_map_err, simulates_bind; [|intros [fl [[job [[[? ?] ?] ?]]|]];
    apply simulates_frame; frame].
  apply simulates_of_ok; [frame; eauto using claim_selected_frame|].
  intros w r w' s Hr Hi.
  apply bind_Ok in Hr as (now & w1 & H1 & Hr). apply now_ms_Ok in H1 as [_ ->].
  apply bind_Ok in Hr as (fl & w2 & H2 & Hr). apply query_Ok in H2 as [_ ->].
  apply bind_Ok in Hr as (sel & w3 & H3 & Hr). apply query_Ok in H3 as [-> ->].
  destruct (claim_candidate _ _ _ _) as [[id j]|] eqn:Hsel.
  2:{ injection Hr as <- <-. exists s. split; [done|].
      eapply implements_frame; [..|exact Hi]; simpl; [done..|lia]. }
  apply claim_candidate_claimable in Hsel as [Hj Hc].
  apply claimable_inv in Hc as (Hrun & _).
  apply bind_Ok in Hr as (x & w4 & H4 & Hr). injection Hr as <- <-.
  pose proof (claim_selected_frame _ _ _ _ _ _ _ _ H4) as [_ Hle].
  eapply claim_selected_Ok in H4 as (now2 & Hj' & Hh' & _); [|done..].
  eapply (implements_update false w w4 s); [done|exact Hj|by apply JClaim|done..|].
  simpl in Hle. lia.
Qed.
End ClaimRuns.

(** ** Theorems *)
Section ClaimTheorems.
Context `{HE : Env}.

(** C6: a poll serves the most urgent job, and fails to find one only when there is none.
    The job returned is live, due, of a requested queue and not held back by a rate limit;
    every other such job comes after it in the order of the query (priority, then, with
    fairness, the facet served longest ago, then age).  Its row becomes Active, owned by
    the worker under a new attempt, and no other row of the tables of jobs changes.  An
    empty answer means no such job existed, and leaves the database alone. *)
Theorem claim_serves_least cfg req w r w' :
  get_next_job cfg req w = (Ok r, w') →
  let d := w_db w in
  let ok := claimable d (gn_queue_names req) (clock (S (w_step w))) in
  if n_found r then
    ∃ j now, jobs d !! n_id r = Some j ∧ ok (n_id r) j = true
      ∧ (∀ id' j', jobs d !! id' = Some j' → ok id' j' = true →
           key_le (claim_key (fairness_enabled cfg) d (n_id r, j))
                  (claim_key (fairness_enabled cfg) d (id', j')))
      ∧ n_attempts r = j_attempts j + 1
      ∧ n_lease_expires_at_ms r = wrap_i64 (now + lease_duration_ms cfg)
      ∧ jobs (w_db w') = <[n_id r := claim_row (gn_worker_id req) (n_attempts r) now
                                       (n_lease_expires_at_ms r) j]> (jobs d)
      ∧ job_history (w_db w') = job_history d
  else (∀ id j, jobs d !! id = Some j → ok id j = false) ∧ w_db w' = d.
Proof.
  intros Hr%get_next_job_Ok. simpl.
  destruct (claim_candidate _ _ _ _) as [[id j]|] eqn:Hsel.
  - destruct Hr as (now2 & Hj' & Hh' & _ & ->). simpl. exists j, now2.
    destruct (claim_candidate_claimable _ _ _ _ _ _ Hsel) as [? ?]. split_and!; try done.
    intros id' j'. by apply claim_candidate_least.
  - destruct Hr as [-> ->]. simpl. split; [|done]. intros id j Hj.
    apply head_order_by_None in Hsel. destruct (claimable _ _ _ _ _) eqn:Hc; [|done].
    assert ((id, j) ∈ rows_where (claimable (w_db w) (gn_queue_names req) (clock (S (w_step w))))
              (jobs (w_db w))) as Hin by (by apply elem_of_rows_where).
    rewrite Hsel in Hin. by apply not_elem_of_nil in Hin.
Qed.

(** Without faults the claim of a selected job goes through. *)
Lemma consume_calm id now w :
  calm w → ∃ w', consume id now w = (Ok tt, w') ∧ calm w' ∧ jobs (w_db w') = jobs (w_db w).
Proof.
  intros Hc. unfold consume. erewrite bind_run by (by apply query_calm).
  assert (calm (tick w)) as Hc1 by (eapply calm_step; [exact Hc|simpl; lia]).
  destruct (consume_rule _ _) as [[f dur]|]; [|by eexists].
  rewrite execute_calm by done. eexists. split_and!; [done| |done].
  eapply calm_step; [exact Hc1|simpl; lia].
Qed.
Lemma serve_facet_calm id now j w :
  calm w → jobs (w_db w) !! id = Some j →
  ∃ w', serve_facet id now w = (Ok tt, w') ∧ calm w'.
Proof.
  intros Hc Hj. unfold serve_facet. erewrite bind_run by (by apply query_calm).
  rewrite Hj. simpl. assert (calm (tick w)) as Hc1 by (eapply calm_step; [exact Hc|simpl; lia]).
  erewrite bind_run by (by apply query_calm).
  assert (calm (tick (tick w))) as Hc2 by (eapply calm_step; [exact Hc|simpl; lia]).
  rewrite execute_calm by done. eexists. split; [done|].
  eapply calm_step; [exact Hc2|simpl; lia].
Qed.
Lemma claim_selected_calm cfg worker now id j w :
  calm w → jobs (w_db w) !! id = Some j → is_Some (j_available_at j) →
  j_attempts j < u32_max →
  ∃ r w', claim_selected cfg worker now id j w = (Ok r, w') ∧ calm w'.
Proof.
  intros Hc Hj [at_ Hat] Hn. unfold claim_selected.
  destruct (consume_calm id now w Hc) as (w1 & H1 & Hc1 & E1). rewrite (bind_run _ _ _ _ _ H1).
  erewrite bind_run by (by apply query_calm). rewrite E1, Hj, Hat.
  assert (calm (tick w1)) as Hc2 by (eapply calm_step; [exact Hc1|simpl; lia]).
  unfold bump_attempts. rewrite (proj2 (Z.leb_le _ _)) by lia.
  erewrite bind_run by done. erewrite bind_run by (by apply now_calm).
  assert (calm (tick (tick w1))) as Hc3 by (eapply calm_step; [exact Hc1|simpl; lia]).
  erewrite bind_run by (by apply execute_calm). simpl. rewrite E1, Hj.
  set (w4 := mkWorld _ _ _).
  assert (calm w4) as Hc4 by (eapply calm_step; [exact Hc1|simpl; lia]).
  assert (is_Some (jobs (w_db w4) !! id)) as [j4 Hj4].
  { simpl. destruct (runnable _); simpl; rewrite ?lookup_alter_eq, E1, Hj; by eexists. }
  destruct (fairness_enabled cfg).
  - destruct (serve_facet_calm id (clock (w_step (tick w1))) j4 w4 Hc4 Hj4) as (w5 & H5 & Hc5).
    rewrite (bind_run _ _ _ _ _ H5). by do 2 eexists.
  - erewrite bind_run by done. by do 2 eexists.
Qed.

Lemma get_next_job_calm cfg req w :
  calm w → is_blank (gn_worker_id req) = false → existsb is_blank (gn_queue_names req) = false →
  (∀ id j, jobs (w_db w) !! id = Some j → runnable (j_state j) = true → j_attempts j < u32_max) →
  ∃ r w', get_next_job cfg req w = (Ok r, w') ∧ calm w'.
Proof.
  intros Hc Hb1 Hb2 Hn. unfold get_next_job. rewrite Hb1, Hb2. setoid_rewrite map_err_Ok.
  set (body := mbind _ now_ms).
  assert (∃ a w1, body (tick w) = (Ok a, w1) ∧ calm w1) as (a & w1 & H1 & Hc1).
  { subst body. assert (calm (tick w)) as Hc1 by (eapply calm_step; [exact Hc|simpl; lia]).
    erewrite bind_run by (by apply now_calm).
    assert (calm (tick (tick w))) as Hc2 by (eapply calm_step; [exact Hc|simpl; lia]).
    erewrite bind_run by (by apply query_calm).
    assert (calm (tick (tick (tick w)))) as Hc3 by (eapply calm_step; [exact Hc|simpl; lia]).
    erewrite bind_run by (by apply query_calm).
    assert (calm (tick (tick (tick (tick w))))) as Hc4
      by (eapply calm_step; [exact Hc|simpl; lia]).
    destruct (claim_candidate _ _ _ _) as [[i x]|] eqn:Hsel; [|by do 2 eexists].
    apply claim_candidate_claimable in Hsel as [Hx Hcl]. simpl in Hx.
    apply claimable_inv in Hcl as (Hrun & Hdue & _).
    edestruct (claim_selected_calm cfg (gn_worker_id req)) as (a & w1 & H1 & Hcw);
      [exact Hc4|exact Hx| |by eapply Hn|].
    { by destruct (j_available_at x). }
    rewrite (bind_run _ _ _ _ _ H1). by do 2 eexists. }
  erewrite bind_run by (by eapply transaction_calm).
  destruct a as [fl [[job [[[? ?] ?] ?]]|]]; (do 2 eexists; split; [done|]);
    (eapply calm_step; [exact Hc1|simpl; lia]).
Qed.

(** A poll is never idle beside work.  Unless a statement fails, a well-formed poll is
    answered, and if some live job is due, of a requested queue, not held back by a rate
    limit and with attempts left to count, the answer is a job. *)
Lemma poll_finds_work cfg req w id j :
  calm w → is_blank (gn_worker_id req) = false → existsb is_blank (gn_queue_names req) = false →
  (∀ id' j', jobs (w_db w) !! id' = Some j' → runnable (j_state j') = true →
     j_attempts j' < u32_max) →
  jobs (w_db w) !! id = Some j →
  claimable (w_db w) (gn_queue_names req) (clock (S (w_step w))) id j = true →
  ∃ r w', get_next_job cfg req w = (Ok r, w') ∧ n_found r = true.
Proof.
  intros Hc Hb1 Hb2 Hn Hj Hok.
  destruct (get_next_job_calm cfg req w Hc Hb1 Hb2 Hn) as (r & w' & Hr & _).
  exists r, w'. split; [done|]. apply get_next_job_Ok in Hr.
  destruct (claim_candidate _ _ _ _) as [[i x]|] eqn:Hsel.
  { by destruct Hr as (now2 & _ & _ & _ & ->). }
  apply head_order_by_None in Hsel. exfalso.
  assert ((id, j) ∈ rows_where (claimable (w_db w) (gn_queue_names req) (clock (S (w_step w))))
            (jobs (w_db w))) as Hin by (by apply elem_of_rows_where).
  rewrite Hsel in Hin. by apply not_elem_of_nil in Hin.
Qed.

Lemma foldr_max_ge (r : FacetRow) rs x :
  x ∈ r :: rs →
  fd_last_served_seq x ≤ foldr (λ r m, Z.max (fd_last_served_seq r) m) (fd_last_served_seq r) rs.
Proof.
  intros [->|Hx]%elem_of_cons.
  - induction rs as [|y rs IH]; simpl; lia.
  - induction Hx; simpl; lia.
Qed.
Lemma next_seq_gt d f r :
  facet_dispatch d !! f = Some r → fd_last_served_seq r < next_seq d.
Proof.
  intros Hf. unfold next_seq. assert (r ∈ (map_to_list (facet_dispatch d)).*2) as Hin.
  { apply list_elem_of_fmap. exists (f, r). split; [done|]. by apply elem_of_map_to_list. }
  destruct (map_to_list (facet_dispatch d)).*2 as [|r0 rs]; [by apply not_elem_of_nil in Hin|].
  apply foldr_max_ge in Hin. lia.
Qed.
End ClaimTheorems.
