(* ===== verification/Finish.v ===== *)
(** * Acknowledgements (complete_job, fail_job and finish_job of src/main.rs)

    [finish_job] checks that the acknowledgement comes from the owner of the running claim,
    then retries the job, or archives it and acts on its parent: a completion counts down
    the parent's gate, a final failure of a flagged child fails its ancestors ([cascade]). *)
From Stdlib Require Import Ascii String.
From S2P Require Import Prelude Text Query F64 Scheduling Db Pressure Telemetry Broker.
From S2P Require Import Lifecycle Leases.
Local Open Scope string_scope.
Local Open Scope Z_scope.

Definition MAX_RESULT_BYTES : Z := 256 * 1024.

Record Ack := mkAck {
  a_id : string;
  a_worker_id : string;
  a_attempt : Z;
  a_error : option string;
  a_non_retryable : bool;
  a_result : option bytes;
}.
Definition failed (a : Ack) : bool := bool_decide (a_error a ≠ None).

(** The deferred metric intentions of a committed finish. *)
Record Finished := mkFinished {
  f_name : string;
  f_created_at : Z;
  f_now : Z;
  f_retry : bool;
  f_next_state : JobState;
  f_released : nat;
  f_stored_result : bool;
  f_parent_released : option JobState;
  f_flow_parent_failures : nat;
  f_flow_parents_left_waiting : nat;
}.

Definition finish_metrics (fl : bool) (f : Finished) (m : Metrics) : Metrics :=
  let m := dedup_released (Z.of_nat (f_released f)) m in
  let m := if f_stored_result f then result_stored m else m in
  let m := transition (Some Active) (f_next_state f) (if fl then "failed" else "completed") m in
  let m :=
    if f_retry f
    then event "retried" m <| named ::= named_event (f_name f) "retried" |>
    else m <| named ::= named_event (f_name f) (if fl then "failed" else "completed") |>
           <| named ::= named_observe_duration (f_name f)
                          (i64_saturating_sub (f_now f) (f_created_at f)) |> in
  let m :=
    match f_parent_released f with
    | Some s => transition None s "flow_released" (flow_waiting_children_dec 1 m)
    | None => m
    end in
  let m := flow_waiting_children_dec (Z.of_nat (f_flow_parents_left_waiting f)) m in
  Nat.iter (f_flow_parent_failures f)
    (λ m, transition None Failed "flow_parent_failed" (flow_parent_failure m)) m.

Section Finish.
Context `{Env}.

(** [INSERT INTO job_history ... SELECT ... FROM jobs WHERE id = ?]: the clock is read by
    the statement; no row, no insertion. *)
Definition archive_stmt (row : Z → Job → HistRow) (id : string) : M SqlError unit :=
  stmt (λ n d,
    match jobs d !! id with
    | Some j => match insert_history id (row (clock n) j) d with
                | Ok d' => Ok (tt, d')
                | Err e => Err e
                end
    | None => Ok (tt, d)
    end).
(** [UPDATE jobs SET ..., updated_at = <now> WHERE id = ?] *)
Definition update_stmt (row : Z → Job → Job) (id : string) : M SqlError unit :=
  stmt (λ n d, Ok (tt, update_job (row (clock n)) id d)).
Definition release_stmt (id : string) : M SqlError nat :=
  stmt (λ _ d, Ok (release_receipts id d)).

(** A child completed: count its parent down and open the gate at zero. *)
Definition child_completed (now : Z) (parent : string) : M SqlError (option JobState) :=
  do? execute (update_job dec_pending parent) in
  let? row := query (λ d, jobs d !! parent) in
  match row with
  | Some p =>
      if is_state (j_state p) WaitingChildren && (j_pending_children p <=? 0) then
        let new_state :=
          match j_available_at p with
          | Some at_ => if now <? at_ then Delayed else Waiting
          | None => Waiting
          end in
        do? update_stmt (release_row new_state) parent in
        mret (Some new_state)
      else mret None
  | None => mret None
  end.

(** The loop that fails flagged ancestors: how many, and how many of them waited.  Each
    round deletes a live job, so [fuel] at the number of live jobs is never exhausted. *)
Fixpoint cascade (fuel : nat) (child : string) (flag : bool) (ancestor : option string)
  : M SqlError (nat * nat) :=
  match fuel, flag, ancestor with
  | S fuel, true, Some parent =>
      let? row := query (λ d, jobs d !! parent) in
      match row with
      | None => mret (0, 0)%nat
      | Some p =>
          do? archive_stmt (cascade_row ("failParentOnFailure: child " ++ child ++ " failed"))
                           parent in
          do? execute (delete_job parent) in
          let? _ := release_stmt parent in
          let? '(n, k) := cascade fuel child (j_fail_parent_on_failure p) (j_parent_id p) in
          mret (S n, if is_state (j_state p) WaitingChildren then S k else k)%nat
      end
  | _, _, _ => mret (0, 0)%nat
  end.

(** The loop as the handler runs it: fuel for every live job. *)
Definition cascade_all (child : string) (flag : bool) (ancestor : option string)
  : M SqlError (nat * nat) := λ w,
  cascade (S (size (jobs (w_db w)))) child flag ancestor w.

(** The job runs again. *)
Definition retry_job (a : Ack) (j : Job) (now : Z) : M SqlError Finished :=
  let? row := query (λ d, jobs d !! a_id a) in
  match row with
  | None => fail (SqlFailure "Query returned no rows")
  | Some r =>
      let delay := retry_delay (j_retry_backoff_ms r) (j_retry_backoff_max_ms r)
                               (j_attempts j) in
      let? u := random in
      let delay := apply_jitter delay (j_retry_jitter r) u in
      do? update_stmt (retry_row (delay_state delay) (i64_saturating_add now delay)
                                 (a_error a)) (a_id a) in
      mret (mkFinished (j_name j) (j_created_at j) now true (delay_state delay) 0 false None
              0 0)
  end.

(** The job is over. *)
Definition settle_job (a : Ack) (j : Job) (now : Z) : M SqlError Finished :=
  let state := if failed a then Failed else Completed in
  do? archive_stmt (finish_row state (a_error a) (a_result a)) (a_id a) in
  do? execute (delete_job (a_id a)) in
  let? released := release_stmt (a_id a) in
  let stored := bool_decide (a_result a ≠ None) in
  if failed a then
    let? '(failures, waiting) :=
      cascade_all (a_id a) (j_fail_parent_on_failure j) (j_parent_id j) in
    mret (mkFinished (j_name j) (j_created_at j) now false state released stored None
            failures waiting)
  else
    let? parent_released :=
      match j_parent_id j with
      | Some parent => child_completed now parent
      | None => mret None
      end in
    mret (mkFinished (j_name j) (j_created_at j) now false state released stored
            parent_released 0 0).

(** No live row: an exact replay of a completion, or an error. *)
Definition finish_archived (a : Ack) : M Status (option Finished) :=
  let? archived := map_err internal (query (λ d, job_history d !! a_id a)) in
  match archived with
  | Some h =>
      if negb (failed a) && is_state (h_state h) Completed
         && bool_decide (h_worker_id h = Some (a_worker_id a))
         && (h_attempts h =? Z.max (a_attempt a) 1)
      then mret None
      else fail (mkStatus FailedPrecondition
                   "job already finished with a different outcome or claim")
  | None => fail (mkStatus NotFound "job not found")
  end.

Definition finish_job (a : Ack) : M Status bool :=
  if is_blank (a_id a) || is_blank (a_worker_id a)
  then fail (mkStatus InvalidArgument "id and worker_id must not be blank")
  else
    let? finished := transaction internal (
      let? job := map_err internal (query (λ d, jobs d !! a_id a)) in
      match job with
      | None => finish_archived a
      | Some j =>
          if negb (is_state (j_state j) Active)
          then fail (mkStatus FailedPrecondition "job is not Active")
          else if bool_decide (j_worker_id j ≠ Some (a_worker_id a))
          then fail (mkStatus PermissionDenied "worker does not own this job")
          else if negb ((if a_attempt a =? 0 then 1 else a_attempt a) =? j_attempts j)
          then fail (mkStatus FailedPrecondition "attempt does not match the active claim")
          else
            let? now := map_err internal now_ms in
            let? expiry := map_err internal (query (λ d,
              j ← jobs d !! a_id a; j_lease_expires_at_ms j)) in
            if lease_over now expiry
            then fail (mkStatus FailedPrecondition "claim lease has expired")
            else
              let retry := failed a && (j_attempts j <? j_max_attempts j)
                           && negb (a_non_retryable a) in
              let? f := map_err internal
                          (if retry then retry_job a j now else settle_job a j now) in
              mret (Some f)
      end) in
    match finished with
    | None => mret false
    | Some f =>
        do? metric (finish_metrics (failed a) f) in
        mret (failed a && negb (f_retry f))
    end.

Definition complete_job (id worker_id : string) (attempt : Z) (result : bytes)
  : M Status bool :=
  if MAX_RESULT_BYTES <? Z.of_nat (length result)
  then fail (mkStatus InvalidArgument
               ("result exceeds " ++ fmt_Z MAX_RESULT_BYTES ++ " bytes"))
  else
    let? _ := finish_job (mkAck id worker_id attempt None false
                            (if decide (result = []) then None else Some result)) in
    mret true.

Definition fail_job (id worker_id error_message : string) (attempt : Z)
    (non_retryable : bool) : M Status bool :=
  finish_job (mkAck id worker_id attempt (Some error_message) non_retryable None).
End Finish.

(** ** Runs *)
Section FinishRuns.
Context `{HE : Env}.

Lemma archive_stmt_Ok row id j w u w' :
  archive_stmt row id w = (Ok u, w') → jobs (w_db w) !! id = Some j →
  job_history (w_db w) !! id = None
  ∧ w' = mkWorld ((w_db w) <| job_history :=
                    <[id := row (clock (w_step w)) j]> (job_history (w_db w)) |>)
           (w_metrics w) (S (w_step w)).
Proof.
  intros Hr Hj. apply stmt_Ok in Hr as (d & _ & Hd & ->). rewrite Hj in Hd.
  destruct (insert_history _ _ _) as [d'|] eqn:Hi; [|done]. injection Hd as _ <-.
  by apply insert_history_Ok in Hi as [? ->].
Qed.
Lemma update_stmt_Ok row id w u w' :
  update_stmt row id w = (Ok u, w') →
  w' = mkWorld (update_job (row (clock (w_step w))) id (w_db w)) (w_metrics w) (S (w_step w)).
Proof. by intros (d & _ & [= <- <-] & ->)%stmt_Ok. Qed.
Lemma release_stmt_Ok id w n w' :
  release_stmt id w = (Ok n, w') →
  n = (release_receipts id (w_db w)).1
  ∧ w' = mkWorld (release_receipts id (w_db w)).2 (w_metrics w) (S (w_step w)).
Proof. by intros (d & _ & [= <- <-] & ->)%stmt_Ok. Qed.

(** Archive, delete and release together: the end of a job. *)
Lemma end_job_Ok row id j w u1 w1 u2 w2 n w3 :
  archive_stmt row id w = (Ok u1, w1) → execute (delete_job id) w1 = (Ok u2, w2) →
  release_stmt id w2 = (Ok n, w3) → jobs (w_db w) !! id = Some j →
  job_history (w_db w) !! id = None
  ∧ jobs (w_db w3) = delete id (jobs (w_db w))
  ∧ job_history (w_db w3) = <[id := row (clock (w_step w)) j]> (job_history (w_db w))
  ∧ n = (release_receipts id (w_db w)).1
  ∧ w_step w3 = S (S (S (w_step w))).
Proof.
  intros H1 H2 H3 Hj. destruct (archive_stmt_Ok _ _ _ _ _ _ H1 Hj) as [? ->].
  apply execute_Ok in H2 as ->. apply release_stmt_Ok in H3 as [-> ->]. done.
Qed.

Lemma archive_stmt_frame row id : keeps any (archive_stmt row id).
Proof. unfold archive_stmt. frame. Qed.
Lemma update_stmt_frame row id : keeps any (update_stmt row id).
Proof. unfold update_stmt. frame. Qed.
Lemma release_stmt_frame id : keeps any (release_stmt id).
Proof. unfold release_stmt. frame. Qed.
#[local] Hint Resolve archive_stmt_frame update_stmt_frame release_stmt_frame : frames.

Lemma child_completed_frame now parent : keeps any (child_completed now parent).
Proof. unfold child_completed. frame. Qed.
Lemma cascade_frame fuel child flag anc : keeps any (cascade fuel child flag anc).
Proof.
  revert flag anc. induction fuel as [|fuel IH]; intros flag anc; simpl; [frame|].
  destruct flag; [|frame]. destruct anc; frame.
Qed.
Lemma cascade_all_frame child flag anc : keeps any (cascade_all child flag anc).
Proof. intros w r w'. apply cascade_frame. Qed.
#[local] Hint Resolve child_completed_frame cascade_all_frame : frames.
Lemma retry_job_frame a j now : keeps any (retry_job a j now).
Proof. unfold retry_job. frame. Qed.
Lemma settle_job_frame a j now : keeps any (settle_job a j now).
Proof. unfold settle_job. frame. Qed.

(** Enough fuel: the loop visits each live job at most once, so more fuel than live jobs
    never changes the run. *)
Lemma cascade_fuel fuel fuel' child flag anc w :
  (size (jobs (w_db w)) < fuel)%nat → (fuel ≤ fuel')%nat →
  cascade fuel child flag anc w = cascade fuel' child flag anc w.
Proof.
  revert fuel' flag anc w. induction fuel as [|fuel IH]; intros [|fuel'] flag anc w Hsz Hle;
    try lia; simpl. destruct flag, anc as [parent|]; try done.
  unfold mbind, M_bind at 1 6. destruct (query _ w) as [[row|e] w1] eqn:Hq; [|done].
  apply query_Ok in Hq as [-> ->]. destruct (jobs (w_db w) !! parent) as [p|] eqn:Hp; [|done].
  unfold M_bind. destruct (archive_stmt _ _ _) as [[u1|e] w1] eqn:H1; [|done].
  destruct (execute _ _) as [[u2|e] w2] eqn:H2; [|done].
  destruct (release_stmt _ _) as [[n|e] w3] eqn:H3; [|done].
  assert (jobs (w_db w3) = delete parent (jobs (w_db w))) as Hd.
  { by destruct (end_job_Ok _ _ p _ _ _ _ _ _ _ H1 H2 H3 Hp) as (_ & -> & _). }
  rewrite (IH fuel'); [done| |lia].
  rewrite Hd. rewrite map_size_delete, Hp. simpl.
  assert (size (jobs (w_db w)) ≠ 0%nat); [|lia].
  apply map_size_ne_0_lookup. by exists parent, p.
Qed.

Context `{!UuidLaw HE}.

Lemma child_completed_sim now parent : simulates_ok false (child_completed now parent).
Proof.
  intros w r w' s Hr Hi. unfold child_completed in Hr.
  apply bind_Ok in Hr as (u & w1 & H1 & Hr). apply execute_Ok in H1 as ->.
  apply bind_Ok in Hr as (row & w2 & H2 & Hr). apply query_Ok in H2 as [-> ->]. simpl in Hr.
  destruct (jobs (w_db w) !! parent) as [p|] eqn:Hp.
  2:{ rewrite alter_None, Hp in Hr by done. injection Hr as <- <-. exists s. split; [done|].
      eapply implements_frame; [..|exact Hi]; simpl; [by apply alter_None|done|lia]. }
  rewrite (alter_Some _ _ _ p), lookup_insert_eq in Hr by done.
  set (w1 := mkWorld (update_job dec_pending parent (w_db w)) (w_metrics w) (S (w_step w))).
  destruct (implements_update false w w1 s parent p (dec_pending p))
    as (s1 & Hs1 & Hi1); [done|done|constructor|simpl; by apply alter_Some|done|simpl; lia|].
  assert (jobs (w_db w1) !! parent = Some (dec_pending p)) as Hp1.
  { simpl. by rewrite (alter_Some _ _ _ p), lookup_insert_eq. }
  destruct (is_state _ _ && _) eqn:Hg.
  - apply andb_true_iff in Hg as [Hg1%bool_decide_eq_true Hg2%Z.leb_le].
    apply bind_Ok in Hr as (u2 & w3 & H3 & Hr). apply update_stmt_Ok in H3 as ->.
    injection Hr as <- <-.
    eapply steps_then; [exact Hs1|].
    eapply (implements_update false w1 _ s1 parent (dec_pending p)); [done|done| | | |];
        [|simpl; by apply alter_Some|done|simpl; lia].
    apply JRelease; [done|done|]. simpl. repeat case_match; done.
  - injection Hr as <- <-. exists s1. split; [done|].
    eapply implements_frame; [..|exact Hi1]; simpl; [done..|lia].
Qed.

Lemma cascade_sim fuel child flag anc : simulates_ok false (cascade fuel child flag anc).
Proof.
  revert flag anc. induction fuel as [|fuel IH]; intros flag anc w r w' s Hr Hi; simpl in Hr.
  { injection Hr as <- <-. by exists s. }
  destruct flag, anc as [parent|]; try (injection Hr as <- <-; by exists s).
  apply bind_Ok in Hr as (row & w1 & H1 & Hr). apply query_Ok in H1 as [-> ->].
  assert (implements (tick w) s) as Hi'.
  { eapply implements_frame; [..|exact Hi]; simpl; [done..|lia]. }
  destruct (jobs (w_db w) !! parent) as [p|] eqn:Hp; [|injection Hr as <- <-; by exists s].
  apply bind_Ok in Hr as (u1 & w1 & H1 & Hr). apply bind_Ok in Hr as (u2 & w2 & H2 & Hr).
  apply bind_Ok in Hr as (n & w3 & H3 & Hr).
  destruct (end_job_Ok _ _ p _ _ _ _ _ _ _ H1 H2 H3 Hp) as (_ & Hj & Hh & _ & Hst).
  destruct (implements_archive false (tick w) w3 s parent p _ Hi' Hp (ACascade _ _ _) Hj Hh)
    as (s1 & Hs1 & Hi1); [lia|].
  apply bind_Ok in Hr as ([k1 k2] & w4 & H4 & Hr). injection Hr as <- <-.
  eapply steps_then; [exact Hs1|]. by eapply IH.
Qed.

Lemma settle_job_sim a j now w r w' s :
  settle_job a j now w = (Ok r, w') → jobs (w_db w) !! a_id a = Some j →
  j_state j = Active → (failed a = true → a_result a = None) → implements w s →
  ∃ s', lsteps false s s' ∧ implements w' s'.
Proof.
  unfold settle_job. intros Hr Hj Ha Hres Hi.
  apply bind_Ok in Hr as (u1 & w1 & H1 & Hr). apply bind_Ok in Hr as (u2 & w2 & H2 & Hr).
  apply bind_Ok in Hr as (n & w3 & H3 & Hr).
  destruct (end_job_Ok _ _ j _ _ _ _ _ _ _ H1 H2 H3 Hj) as (_ & Hj3 & Hh3 & _ & Hst).
  assert (archive_step j (finish_row (if failed a then Failed else Completed) (a_error a)
            (a_result a) (clock (w_step w)) j)) as Harch.
  { unfold failed in *. destruct (a_error a) as [e|] eqn:He; simpl in *.
    - rewrite Hres by done. by apply AFail.
    - by apply AComplete. }
  destruct (implements_archive false w w3 s _ _ _ Hi Hj Harch Hj3 Hh3) as (s1 & Hs1 & Hi1);
    [lia|].
  eapply steps_then; [exact Hs1|].
  destruct (failed a).
  - apply bind_Ok in Hr as ([k1 k2] & w4 & H4 & Hr). injection Hr as <- <-.
    by eapply cascade_sim.
  - apply bind_Ok in Hr as (x & w4 & H4 & Hr). injection Hr as <- <-.
    destruct (j_parent_id j); [by eapply child_completed_sim|].
    injection H4 as <- <-. by exists s1.
Qed.

Lemma retry_job_sim a j now w r w' s :
  retry_job a j now w = (Ok r, w') → jobs (w_db w) !! a_id a = Some j →
  j_state j = Active → j_attempts j < j_max_attempts j → implements w s →
  ∃ s', lsteps false s s' ∧ implements w' s'.
Proof.
  unfold retry_job. intros Hr Hj Ha Hlt Hi.
  apply bind_Ok in Hr as (row & w1 & H1 & Hr). apply query_Ok in H1 as [-> ->].
  rewrite Hj in Hr. apply bind_Ok in Hr as (x & w2 & H2 & Hr). injection H2 as <- <-.
  apply bind_Ok in Hr as (u & w3 & H3 & Hr). apply update_stmt_Ok in H3 as ->.
  injection Hr as <- <-.
  eapply implements_update; [done|exact Hj| |simpl; by apply alter_Some|done|simpl; lia].
  apply JRetry; [done|done|apply delay_state_runnable].
Qed.

Lemma finish_job_sim a :
  (failed a = true → a_result a = None) → simulates false (finish_job a).
Proof.
  intros Hres. unfold finish_job. destruct (_ || _); [apply simulates_frame; frame|].
  apply simulates_bind; [|intros [f|]; apply simulates_frame; frame].
  apply simulates_of_ok.
  { frame; eauto using retry_job_frame, settle_job_frame. unfold finish_archived. frame. }
  intros w r w' s Hr Hi. apply bind_Ok in Hr as (row & w1 & H1 & Hr). inv_run H1.
  destruct (jobs (w_db w) !! a_id a) as [j|] eqn:Hj.
  2:{ eapply simulates_frame_ok; [|exact Hr|]; [unfold finish_archived; frame|].
      eapply implements_frame; [..|exact Hi]; simpl; [done..|lia]. }
  destruct (is_state (j_state j) Active) eqn:Ha; simpl in Hr; [|done].
  apply bool_decide_eq_true in Ha. destruct (bool_decide _); [done|].
  destruct (negb _); [done|]. apply bind_Ok in Hr as (now & w2 & H2 & Hr). inv_run H2.
  apply bind_Ok in Hr as (e & w3 & H3 & Hr). inv_run H3. destruct (lease_over _ _); [done|].
  apply bind_Ok in Hr as (f & w4 & H4 & Hr). injection Hr as <- <-. apply map_err_Ok in H4.
  assert (implements (tick (tick (tick w))) s) as Hi3.
  { eapply implements_frame; [..|exact Hi]; simpl; [done..|lia]. }
  destruct (failed a && _ && _) eqn:Hretry; [|by eapply settle_job_sim].
  apply andb_true_iff in Hretry as [[_ Hlt%Z.ltb_lt]%andb_true_iff _].
  by eapply retry_job_sim.
Qed.

Lemma complete_job_sim id worker n res : simulates false (complete_job id worker n res).
Proof.
  unfold complete_job. destruct (_ <? _); [apply simulates_frame; frame|].
  apply simulates_bind; [by apply finish_job_sim|]. intros b. apply simulates_frame. frame.
Qed.
Lemma fail_job_sim id worker e n nr : simulates false (fail_job id worker e n nr).
Proof. by apply finish_job_sim. Qed.
End FinishRuns.

(** ** What an acknowledgement does *)
Section FinishOutcomes.
Context `{HE : Env}.

(** The attempt an acknowledgement names: 0 stands for the first. *)
Definition acked_attempt (a : Ack) : Z := if a_attempt a =? 0 then 1 else a_attempt a.

(** The job is held by the acknowledging worker, under that attempt, with a lease that runs
    at [now]. *)
Definition holds_claim (a : Ack) (now : Z) (j : Job) : Prop :=
  j_state j = Active ∧ j_worker_id j = Some (a_worker_id a) ∧ j_attempts j = acked_attempt a
  ∧ ∃ lease, j_lease_expires_at_ms j = Some lease ∧ now < lease.

(** The archive holds the completion this acknowledgement repeats. *)
Definition replays_completion (a : Ack) (d : Db) : Prop :=
  failed a = false ∧ jobs d !! a_id a = None
  ∧ ∃ h, job_history d !! a_id a = Some h ∧ h_state h = Completed
         ∧ h_worker_id h = Some (a_worker_id a) ∧ h_attempts h = Z.max (a_attempt a) 1.

(** A failed attempt runs again while attempts remain, unless the worker forbids it. *)
Definition will_retry (a : Ack) (j : Job) : bool :=
  failed a && (j_attempts j <? j_max_attempts j) && negb (a_non_retryable a).

(** The two ways an acknowledgement succeeds. *)
Lemma finish_job_Ok a w b w' :
  finish_job a w = (Ok b, w') →
  let now := clock (S (S (w_step w))) in
  (replays_completion a (w_db w) ∧ b = false ∧ w_db w' = w_db w ∧ w_metrics w' = w_metrics w)
  ∨ ∃ j f w1, jobs (w_db w) !! a_id a = Some j ∧ holds_claim a now j
      ∧ (if will_retry a j then retry_job a j now else settle_job a j now)
          (tick (tick (tick (tick w)))) = (Ok f, w1)
      ∧ w_db w' = w_db w1 ∧ b = failed a && negb (f_retry f).
Proof.
  unfold finish_job. destruct (_ || _); [done|]. intros Hr. simpl.
  apply bind_Ok in Hr as (fin & w1 & H1 & Hr). apply transaction_Ok in H1 as (w2 & H1 & ->).
  apply bind_Ok in H1 as (row & w3 & H3 & H1). inv_run H3.
  destruct (jobs (w_db w) !! a_id a) as [j|] eqn:Hj.
  - right. destruct (is_state (j_state j) Active) eqn:Ha; simpl in H1; [|done].
    apply bool_decide_eq_true in Ha. case_bool_decide as Hw; [done|].
    destruct (Z.eqb_spec (acked_attempt a) (j_attempts j)) as [Hn|Hn];
      unfold acked_attempt in Hn; [rewrite (proj2 (Z.eqb_eq _ _) Hn) in H1
                                  |rewrite (proj2 (Z.eqb_neq _ _) Hn) in H1; done].
    simpl in H1. apply bind_Ok in H1 as (now & w3 & H3 & H1). inv_run H3.
    apply bind_Ok in H1 as (e & w3 & H3 & H1). inv_run H3. rewrite Hj in H1. simpl in H1.
    destruct (lease_over _ (j_lease_expires_at_ms j)) eqn:Hl; [done|].
    apply bind_Ok in H1 as (f & w3 & H3 & H1). injection H1 as <- <-. apply map_err_Ok in H3.
    exists j, f, w3. inv_run Hr. split_and!; try done. split_and!; try done.
    unfold lease_over in Hl.
    destruct (j_lease_expires_at_ms j) as [lease|]; [|done]. apply Z.leb_gt in Hl. eauto.
  - left. unfold finish_archived in H1. apply bind_Ok in H1 as (ar & w3 & H3 & H1). inv_run H3.
    destruct (job_history (w_db w) !! a_id a) as [h|] eqn:Hh; [|done].
    destruct (negb (failed a) && _ && _ && _) eqn:Hc; [|done]. injection H1 as <- <-.
    injection Hr as <- <-. rewrite !andb_true_iff, negb_true_iff, Z.eqb_eq in Hc.
    destruct Hc as [[[? Hs%bool_decide_eq_true] Ho%bool_decide_eq_true] ?].
    split_and!; try done. split_and!; try done. by exists h.
Qed.

Lemma finish_job_Err a w s w' : finish_job a w = (Err s, w') → w_db w' = w_db w.
Proof.
  unfold finish_job. destruct (_ || _); [by intros [= <- <-]|]. intros Hr.
  apply bind_Err in Hr as [Hr|([f|] & ? & ? & ?)]; [|done..]. by eapply transaction_Err.
Qed.

Lemma retry_job_Ok a j now w f w' :
  retry_job a j now w = (Ok f, w') → jobs (w_db w) !! a_id a = Some j → backoff_ok j →
  ∃ delay t, 0 ≤ delay ≤ job_retry_delay j ∧ f_retry f = true
    ∧ jobs (w_db w') = <[a_id a := retry_row (delay_state delay) (i64_saturating_add now delay)
                                     (a_error a) t j]> (jobs (w_db w))
    ∧ job_history (w_db w') = job_history (w_db w).
Proof.
  unfold retry_job. intros Hr Hj Hb. apply bind_Ok in Hr as (row & w1 & H1 & Hr). inv_run H1.
  rewrite Hj in Hr. apply bind_Ok in Hr as (u & w1 & H1 & Hr). injection H1 as <- <-.
  apply bind_Ok in Hr as (x & w1 & H1 & Hr). apply update_stmt_Ok in H1 as ->.
  injection Hr as <- <-. simpl. eexists _, _. split_and!;
    [..|done|by rewrite (alter_Some _ _ _ j)|done];
    by apply apply_jitter_range, retry_delay_range.
Qed.

(** A job that is gone stays gone, and its archived row is left alone. *)
Definition gone (id : string) : relation Db := λ d d',
  jobs d !! id = None → jobs d' !! id = None ∧ job_history d' !! id = job_history d !! id.
#[local] Instance gone_preorder id : PreOrder (gone id).
Proof.
  split; [by intros d|]. intros d1 d2 d3 H12 H23 H1. destruct (H12 H1) as [H2 E2].
  destruct (H23 H2) as [? ?]. split; congruence.
Qed.

Lemma update_job_gone id f k d : gone id d (update_job f k d).
Proof.
  intros Hd. split; [|done]. simpl. destruct (decide (id = k)) as [->|].
  - by rewrite lookup_alter_eq, Hd.
  - by rewrite lookup_alter_ne.
Qed.
Lemma archive_stmt_gone id row k : keeps (gone id) (archive_stmt row k).
Proof.
  unfold archive_stmt. frame. destruct (jobs d !! k) as [j|] eqn:Hk; [|naive_solver].
  destruct (insert_history _ _ _) as [d2|] eqn:Hi; [|done].
  apply insert_history_Ok in Hi as [_ ->]. injection H as <- <-.
  intros Hd. simpl. split; [done|]. rewrite lookup_insert_ne; [done|]. intros ->. congruence.
Qed.
Lemma delete_job_gone id k d : gone id d (delete_job k d).
Proof. intros Hd. simpl. split; [|done]. rewrite lookup_delete. by case_decide. Qed.
Lemma release_stmt_gone id k : keeps (gone id) (release_stmt k).
Proof. unfold release_stmt. frame. by injection H as <- <-. Qed.
#[local] Hint Resolve archive_stmt_gone release_stmt_gone : frames.

Lemma child_completed_gone id now parent : keeps (gone id) (child_completed now parent).
Proof.
  unfold child_completed, update_stmt. frame; try apply update_job_gone.
  injection H as <- <-. apply update_job_gone.
Qed.
Lemma cascade_gone id fuel child flag anc : keeps (gone id) (cascade fuel child flag anc).
Proof.
  revert flag anc. induction fuel as [|fuel IH]; intros flag anc; simpl; [frame|].
  destruct flag; [|frame]. destruct anc; frame. apply delete_job_gone.
Qed.

Lemma settle_job_Ok a j now w f w' :
  settle_job a j now w = (Ok f, w') → jobs (w_db w) !! a_id a = Some j →
  f_retry f = false ∧ jobs (w_db w') !! a_id a = None
  ∧ ∃ t, job_history (w_db w') !! a_id a
         = Some (finish_row (if failed a then Failed else Completed) (a_error a) (a_result a) t j).
Proof.
  unfold settle_job. intros Hr Hj.
  apply bind_Ok in Hr as (u1 & w1 & H1 & Hr). apply bind_Ok in Hr as (u2 & w2 & H2 & Hr).
  apply bind_Ok in Hr as (n & w3 & H3 & Hr).
  destruct (end_job_Ok _ _ j _ _ _ _ _ _ _ H1 H2 H3 Hj) as (_ & Hj3 & Hh3 & _ & _).
  assert (jobs (w_db w3) !! a_id a = None) as Hg by (by rewrite Hj3, lookup_delete_eq).
  assert (gone (a_id a) (w_db w3) (w_db w') ∧ f_retry f = false) as [Hd Hf].
  { destruct (failed a).
    - apply bind_Ok in Hr as ([k1 k2] & w4 & H4 & Hr). injection Hr as <- <-.
      split; [|done]. by eapply cascade_gone.
    - apply bind_Ok in Hr as (x & w4 & H4 & Hr). injection Hr as <- <-. split; [|done].
      destruct (j_parent_id j); [by eapply child_completed_gone|]. by injection H4 as _ <-. }
  destruct (Hd Hg) as [? ->]. split_and!; [done..|]. rewrite Hh3, lookup_insert_eq. eauto.
Qed.

(** While no statement fails, a repeated completion is answered from the archive. *)
Lemma finish_job_replay a w :
  replays_completion a (w_db w) → is_blank (a_id a) || is_blank (a_worker_id a) = false →
  calm w →
  finish_job a w = (Ok false, tick (tick (tick (tick w)))).
Proof.
  intros (Hf & Hj & h & Hh & Hs & Ho & Hn) Hb Hfault. unfold finish_job, finish_archived.
  rewrite Hb. unfold transaction, mbind, M_bind, map_err, query, stmt. simpl.
  rewrite !Hfault by lia. simpl. rewrite Hj. simpl. rewrite Hfault by lia. simpl.
  rewrite Hh, Hf, Hs, Ho, Hn, Z.eqb_refl. unfold is_state.
  rewrite !bool_decide_eq_true_2 by done. simpl. by rewrite Hfault by lia.
Qed.
Lemma finish_job_named a w b w' :
  finish_job a w = (Ok b, w') → is_blank (a_id a) || is_blank (a_worker_id a) = false.
Proof. unfold finish_job. by destruct (_ || _). Qed.

(** An acknowledged completion is in the archive, in the form a repetition looks for. *)
Lemma completion_archived a w b w' :
  finish_job a w = (Ok b, w') → failed a = false → 0 ≤ a_attempt a →
  replays_completion a (w_db w').
Proof.
  intros Hr Hf Hn. apply finish_job_Ok in Hr as [(Hrep & _ & -> & _)|
    (j & f & w1 & Hj & (_ & Ho & Ha & _) & Hrun & -> & _)]; [done|].
  unfold will_retry in Hrun. rewrite Hf in Hrun. simpl in Hrun.
  destruct (settle_job_Ok _ _ _ _ _ _ Hrun Hj) as (_ & Hnone & t & Hh). rewrite Hf in Hh.
  split_and!; [done|done|]. eexists. split; [exact Hh|]. simpl. split_and!; [done|done|].
  rewrite Ha. unfold acked_attempt. destruct (Z.eqb_spec (a_attempt a) 0); lia.
Qed.

(** ** Theorems *)

(** C11: acknowledgements are fenced.  A completion or a failure has an effect only when it
    comes from the worker that holds the claim, under the attempt of that claim, while the
    lease runs.  The only other acknowledgement that succeeds repeats a completion already
    archived for the same worker and attempt, and changes nothing, metrics included.  A
    refused or failed acknowledgement leaves the database alone. *)
Theorem acknowledgement_fenced a w r w' :
  finish_job a w = (r, w') →
  match r with
  | Err _ => w_db w' = w_db w
  | Ok _ =>
      (∃ j, jobs (w_db w) !! a_id a = Some j ∧ holds_claim a (clock (S (S (w_step w)))) j)
      ∨ (replays_completion a (w_db w) ∧ w_db w' = w_db w ∧ w_metrics w' = w_metrics w)
  end.
Proof.
  intros Hr. destruct r as [b|s]; [|by eapply finish_job_Err].
  apply finish_job_Ok in Hr as [(? & _ & ? & ?)|(j & f & w1 & ? & ? & _)]; eauto.
Qed.

(** A failed attempt is retried while attempts remain.  The job goes back to the queue
    without owner or lease, with its error, after a delay between zero and its exponential
    backoff; it is not archived and the caller is told it did not fail for good. *)
Lemma failed_attempt_retried a w b w' j :
  finish_job a w = (Ok b, w') → jobs (w_db w) !! a_id a = Some j → backoff_ok j →
  will_retry a j = true →
  b = false ∧ job_history (w_db w') = job_history (w_db w)
  ∧ ∃ delay t, 0 ≤ delay ≤ job_retry_delay j
      ∧ jobs (w_db w') = <[a_id a := retry_row (delay_state delay)
            (i64_saturating_add (clock (S (S (w_step w)))) delay) (a_error a) t j]> (jobs (w_db w)).
Proof.
  intros Hr Hj Hb Hw. apply finish_job_Ok in Hr as [((_ & ? & _) & _)|
    (j' & f & w1 & Hj' & _ & Hrun & -> & ->)]; [congruence|].
  rewrite Hj in Hj'. injection Hj' as <-. rewrite Hw in Hrun.
  destruct (retry_job_Ok _ _ _ _ _ _ Hrun Hj Hb) as (delay & t & ? & -> & Hjs & Hhs).
  split_and!; [by destruct (failed a)|done|]. by exists delay, t.
Qed.

(** Otherwise the job is over: it leaves the live jobs and its archived row carries its
    columns, the outcome, the error and the result of the acknowledgement. *)
Lemma finished_job_archived a w b w' j :
  finish_job a w = (Ok b, w') → jobs (w_db w) !! a_id a = Some j → will_retry a j = false →
  b = failed a ∧ jobs (w_db w') !! a_id a = None
  ∧ ∃ t, job_history (w_db w') !! a_id a
         = Some (finish_row (if failed a then Failed else Completed) (a_error a) (a_result a) t j).
Proof.
  intros Hr Hj Hw. apply finish_job_Ok in Hr as [((_ & ? & _) & _)|
    (j' & f & w1 & Hj' & _ & Hrun & -> & ->)]; [congruence|].
  rewrite Hj in Hj'. injection Hj' as <-. rewrite Hw in Hrun.
  destruct (settle_job_Ok _ _ _ _ _ _ Hrun Hj) as (-> & ? & ?).
  split_and!; [by destruct (failed a)|done..].
Qed.

(** C12: an accepted acknowledgement settles the attempt.  A failed one with attempts left
    goes back to the queue without owner or lease, with its error, after a delay between
    zero and its exponential backoff; it is not archived and the caller is told it did not
    fail for good.  Otherwise the job is over: it leaves the live jobs and its archived row
    carries its columns, the outcome, the error and the result. *)
Theorem attempt_settled a w b w' j :
  finish_job a w = (Ok b, w') → jobs (w_db w) !! a_id a = Some j → backoff_ok j →
  if will_retry a j then
    b = false ∧ job_history (w_db w') = job_history (w_db w)
    ∧ ∃ delay t, 0 ≤ delay ≤ job_retry_delay j
        ∧ jobs (w_db w') = <[a_id a := retry_row (delay_state delay)
              (i64_saturating_add (clock (S (S (w_step w)))) delay) (a_error a) t j]> (jobs (w_db w))
  else
    b = failed a ∧ jobs (w_db w') !! a_id a = None
    ∧ ∃ t, job_history (w_db w') !! a_id a
           = Some (finish_row (if failed a then Failed else Completed) (a_error a) (a_result a) t j).
Proof.
  intros Hr Hj Hb. destruct (will_retry a j) eqn:Hw.
  - by eapply failed_attempt_retried.
  - by eapply finished_job_archived.
Qed.

(** The completion of a child of a live parent. *)
Lemma child_completed_Ok now parent p w r w' :
  child_completed now parent w = (Ok r, w') → jobs (w_db w) !! parent = Some p →
  match r with
  | None => (j_state p ≠ WaitingChildren ∨ 1 < j_pending_children p)
            ∧ jobs (w_db w') = <[parent := dec_pending p]> (jobs (w_db w))
  | Some s => j_state p = WaitingChildren ∧ j_pending_children p ≤ 1
              ∧ runnable s = true
              ∧ (s = Delayed ↔ ∃ t, j_available_at p = Some t ∧ now < t)
              ∧ ∃ t, jobs (w_db w') = <[parent := release_row s t (dec_pending p)]> (jobs (w_db w))
  end ∧ job_history (w_db w') = job_history (w_db w).
Proof.
  unfold child_completed. intros Hr Hp.
  apply bind_Ok in Hr as (u & w1 & H1 & Hr). apply execute_Ok in H1 as ->.
  apply bind_Ok in Hr as (row & w2 & H2 & Hr). apply query_Ok in H2 as [-> ->]. simpl in Hr.
  rewrite (alter_Some _ _ _ p), lookup_insert_eq in Hr by done. unfold is_state in Hr.
  simpl in Hr. case_bool_decide as Hs; simpl in Hr.
  - destruct (Z.leb_spec (Z.pred (j_pending_children p)) 0).
    + apply bind_Ok in Hr as (u2 & w3 & H3 & Hr). apply update_stmt_Ok in H3 as ->.
      injection Hr as <- <-. split; [|done]. split_and!; [done|lia|..].
      * by repeat case_match.
      * destruct (j_available_at p) as [t|]; [destruct (Z.ltb_spec now t)|]; naive_solver lia.
      * eexists. simpl. rewrite (alter_Some dec_pending _ _ p) by done.
        rewrite (alter_Some _ _ _ (dec_pending p)) by (by rewrite lookup_insert_eq).
        by rewrite insert_insert_eq.
    + injection Hr as <- <-. split; [|done]. split; [right; lia|]. simpl. by apply alter_Some.
  - injection Hr as <- <-. split; [|done]. split; [by left|]. simpl. by apply alter_Some.
Qed.
(** The completion of a child whose parent is gone changes no table of jobs. *)
Lemma child_completed_gone_parent now parent w r w' :
  child_completed now parent w = (Ok r, w') → jobs (w_db w) !! parent = None →
  r = None ∧ tables (w_db w') = tables (w_db w).
Proof.
  unfold child_completed. intros Hr Hp.
  apply bind_Ok in Hr as (u & w1 & H1 & Hr). apply execute_Ok in H1 as ->.
  apply bind_Ok in Hr as (row & w2 & H2 & Hr). apply query_Ok in H2 as [-> ->]. simpl in Hr.
  rewrite alter_None, Hp in Hr by done. injection Hr as <- <-. unfold tables. simpl.
  by rewrite alter_None.
Qed.

(** The gate of a flow parent.  The completion of a child counts its parent down by
    one; the parent is released exactly when it waits for children and none is left, into
    Waiting, or Delayed while its own due time lies ahead, and no other row changes. *)
Theorem parent_gate_opens_at_zero now parent p w r w' :
  child_completed now parent w = (Ok r, w') → jobs (w_db w) !! parent = Some p →
  match r with
  | None => (j_state p ≠ WaitingChildren ∨ 1 < j_pending_children p)
            ∧ jobs (w_db w') = <[parent := dec_pending p]> (jobs (w_db w))
  | Some s => j_state p = WaitingChildren ∧ j_pending_children p ≤ 1
              ∧ runnable s = true
              ∧ (s = Delayed ↔ ∃ t, j_available_at p = Some t ∧ now < t)
              ∧ ∃ t, jobs (w_db w') = <[parent := release_row s t (dec_pending p)]> (jobs (w_db w))
  end ∧ job_history (w_db w') = job_history (w_db w).
Proof. apply child_completed_Ok. Qed.

(** The ancestors a failure propagates to: from the first parent up, each is live and each
    but the last sets the flag; the line ends at an unflagged job, at the root or at an
    ancestor that is no longer live. *)
Inductive flagged_line : gmap string Job → bool → option string → list string → Prop :=
| line_unflagged js anc : flagged_line js false anc []
| line_root js flag : flagged_line js flag None []
| line_gone js flag p : js !! p = None → flagged_line js flag (Some p) []
| line_up js p j ids :
    js !! p = Some j →
    flagged_line (delete p js) (j_fail_parent_on_failure j) (j_parent_id j) ids →
    flagged_line js true (Some p) (p :: ids).

Definition cascade_error (child : string) : string :=
  "failParentOnFailure: child " ++ child ++ " failed".

(** The line is failed: its jobs are archived with the error that names the child and are no
    longer live; nothing else of the tables of jobs changes. *)
Definition line_failed (child : string) (ids : list string) (d d' : Db) : Prop :=
  jobs d' = delete_keys ids (jobs d)
  ∧ (∀ id, id ∈ ids → ∃ j t, jobs d !! id = Some j
       ∧ job_history d' !! id = Some (cascade_row (cascade_error child) t j))
  ∧ (∀ id, id ∉ ids → job_history d' !! id = job_history d !! id).

Lemma line_failed_nil child d d' : tables d' = tables d → line_failed child [] d d'.
Proof.
  intros [= Hj Hh]. split_and!; [done| |by rewrite Hh]. by intros ? ?%not_elem_of_nil.
Qed.
Lemma line_failed_cons child p j t ids d d1 d' :
  jobs d !! p = Some j → jobs d1 = delete p (jobs d) →
  job_history d1 = <[p := cascade_row (cascade_error child) t j]> (job_history d) →
  line_failed child ids d1 d' → line_failed child (p :: ids) d d'.
Proof.
  intros Hp Hj Hh (Hjs & Hin & Hout). rewrite Hj in Hjs. assert (p ∉ ids) as Hnin.
  { intros Hi. apply Hin in Hi as (? & ? & Hx & _). by rewrite Hj, lookup_delete_eq in Hx. }
  split_and!.
  - rewrite Hjs. apply map_eq. intros i. simpl. rewrite lookup_delete, !lookup_delete_keys,
      lookup_delete. repeat case_decide; done.
  - intros id [->|Hi]%elem_of_cons.
    + exists j, t. split; [done|]. by rewrite (Hout p Hnin), Hh, lookup_insert_eq.
    + destruct (Hin id Hi) as (x & t' & Hx & ?). exists x, t'. split; [|done].
      rewrite Hj, lookup_delete in Hx. by case_decide.
  - intros id [Hne Hi]%not_elem_of_cons. by rewrite (Hout id Hi), Hh, lookup_insert_ne.
Qed.

(** C15: the failure cascade terminates and fails exactly the flagged line.  With fuel for
    every live job the loop ends by itself: it archives, with the error that names the
    failed child, exactly the ancestors of the line, removes them from the live jobs, and
    reports how many they are. *)
Theorem cascade_fails_flagged_line fuel child flag anc w n k w' :
  (size (jobs (w_db w)) < fuel)%nat → cascade fuel child flag anc w = (Ok (n, k), w') →
  ∃ ids, flagged_line (jobs (w_db w)) flag anc ids ∧ n = length ids
         ∧ line_failed child ids (w_db w) (w_db w').
Proof.
  revert flag anc w n k. induction fuel as [|fuel IH]; intros flag anc w n k Hf Hr; [lia|].
  simpl in Hr. destruct flag, anc as [p|];
    try (injection Hr as <- _ <-; exists []; split_and!; [constructor|done|by apply line_failed_nil]).
  apply bind_Ok in Hr as (row & w1 & H1 & Hr). apply query_Ok in H1 as [-> ->].
  destruct (jobs (w_db w) !! p) as [j|] eqn:Hp.
  2:{ injection Hr as <- _ <-. exists [].
      split_and!; [by apply line_gone|done|by apply line_failed_nil]. }
  apply bind_Ok in Hr as (u1 & w1 & H1 & Hr). apply bind_Ok in Hr as (u2 & w2 & H2 & Hr).
  apply bind_Ok in Hr as (m & w3 & H3 & Hr).
  destruct (end_job_Ok _ _ j _ _ _ _ _ _ _ H1 H2 H3 Hp) as (_ & Hj3 & Hh3 & _ & _).
  apply bind_Ok in Hr as ([n' k'] & w4 & H4 & Hr). injection Hr as <- _ <-.
  apply IH in H4 as (ids & Hl & -> & Hfail).
  2:{ rewrite Hj3. simpl in *. rewrite map_size_delete, Hp.
      assert (size (jobs (w_db w)) ≠ 0%nat); [|simpl; lia].
      apply map_size_ne_0_lookup. by exists p, j. }
  rewrite Hj3 in Hl. exists (p :: ids). split_and!; [by eapply line_up|done|].
  by eapply line_failed_cons.
Qed.
End FinishOutcomes.
