(* ===== verification/Flow.v ===== *)
(** * Flows: parent/child dependency trees (src/flow.rs)

    [prepare_node] validates a tree and flattens it root first, with a fresh identifier per
    node and a gate counting its children; [insert_prepared_tree] writes the nodes;
    [add_flow], [add_flow_bulk] and [add_flow_merge] are the three entry points and
    [get_children_values] reads the results of completed children. *)
From Stdlib Require Import Ascii String.
From S2P Require Import Prelude Text F64 Db Pressure Telemetry Broker Lifecycle RateLimit.
From S2P Require Import Ingress Enqueue.
Local Open Scope string_scope.
Local Open Scope Z_scope.

(** ** Messages *)
Record FlowFields := mkFlowFields {
  fj_name : string;
  fj_payload : bytes;
  fj_priority : Z;
  fj_max_attempts : Z;
  fj_delay_ms : Z;
  fj_rate_limit_facet : string;
  fj_retry_backoff_ms : Z;
  fj_retry_backoff_max_ms : Z;
  fj_retry_jitter : f64;
  fj_idempotency_key : string;
  fj_fail_parent_on_failure : bool;
}.
Inductive FlowJob := mkFlow (fields : FlowFields) (children : list FlowJob).
Definition fields (f : FlowJob) : FlowFields := match f with mkFlow x _ => x end.
Definition children (f : FlowJob) : list FlowJob := match f with mkFlow _ cs => cs end.

Record FlowNode := mkNode {
  fn_id : string; fn_parent_id : string; fn_name : string; fn_depth : Z; fn_state : JobState }.
Record AddFlowResponse := mkFlowResp { fr_root_id : string; fr_nodes : list FlowNode }.
Record AddFlowMergeResponse := mkMergeResp { mr_parent_id : string; mr_attached : list FlowNode }.

Record FlowLimits := mkFlowLimits {
  max_flow_depth : Z; max_flow_nodes : Z; max_flow_bulk : Z }.

(** ** Preparation *)
Record PreparedNode := mkPrepared {
  p_id : string;
  p_parent_id : option string;
  p_name : string;
  p_payload : bytes;
  p_priority : Z;
  p_max_attempts : Z;
  p_delay_ms : Z;
  p_rate_limit_facet : string;
  p_retry_backoff_ms : Z;
  p_retry_backoff_max_ms : Z;
  p_retry_jitter : f64;
  p_idempotency_key : string;
  p_fail_parent_on_failure : bool;
  p_depth : Z;
  p_pending_children : Z;
  p_state : JobState;
}.
Definition has_children (n : PreparedNode) : bool := is_state (p_state n) WaitingChildren.

Definition flow_backoff_max (f : FlowFields) : Z :=
  if fj_retry_backoff_max_ms f =? 0 then Z.max 60000 (fj_retry_backoff_ms f)
  else fj_retry_backoff_max_ms f.
Definition flow_attempts (f : FlowFields) : Z :=
  if fj_max_attempts f =? 0 then 3 else fj_max_attempts f.

(** The checks on the fields of one node. *)
Definition validate_fields (f : FlowFields) : result Status unit :=
  if negb (is_empty (fj_idempotency_key f))
     && (is_blank (fj_idempotency_key f) || (256 <? str_len (fj_idempotency_key f)))
  then invalid "idempotency_key must be nonblank and at most 256 UTF-8 bytes"
  else if (fj_delay_ms f <? 0) || (fj_retry_backoff_ms f <? 0)
          || (fj_retry_backoff_max_ms f <? 0)
  then invalid "delays must not be negative"
  else if flow_backoff_max f <? fj_retry_backoff_ms f
  then invalid "backoff cap must be at least the base"
  else if is_nan (fj_retry_jitter f) || negb (in_unit (fj_retry_jitter f))
  then invalid "retry_jitter must be a fraction in [0, 1]"
  else Ok tt.

Definition resting_state (f : FlowFields) (child_count : nat) : JobState :=
  if (0 <? child_count)%nat then WaitingChildren
  else if 0 <? fj_delay_ms f then Delayed else Waiting.

Definition prepared_node (f : FlowFields) (id : string) (parent : option string) (depth : Z)
    (child_count : nat) : PreparedNode :=
  mkPrepared id parent (fj_name f) (fj_payload f) (fj_priority f) (flow_attempts f)
    (fj_delay_ms f) (fj_rate_limit_facet f) (fj_retry_backoff_ms f) (flow_backoff_max f)
    (fj_retry_jitter f) (fj_idempotency_key f) (fj_fail_parent_on_failure f) depth
    (Z.of_nat child_count) (resting_state f child_count).

(** The [seen_keys] and [out] the recursion threads. *)
Definition Prep : Type := gset (string * string) * list PreparedNode.

Section Prepare.
Context `{Env}.

(** The checks and the push of one node. *)
Definition prepare_one (f : FlowFields) (child_count : nat) (parent : option string)
    (depth max_depth max_nodes : Z) (st : Prep) : M Status (string * Prep) :=
  let '(seen, out) := st in
  if max_depth <? depth
  then fail (mkStatus InvalidArgument
               ("flow tree height exceeds max allowed " ++ fmt_Z max_depth))
  else if max_nodes <=? wrap_u32 (Z.of_nat (length out))
  then fail (mkStatus InvalidArgument
               ("flow tree node count exceeds max allowed " ++ fmt_Z max_nodes))
  else
    do? lift (validate_fields f) in
    let key := (fj_name f, fj_idempotency_key f) in
    if negb (is_empty (fj_idempotency_key f)) && bool_decide (key ∈ seen)
    then fail (mkStatus InvalidArgument "duplicate idempotency_key within flow")
    else
      let seen := if is_empty (fj_idempotency_key f) then seen else {[key]} ∪ seen in
      let? id := uuid in
      mret (id, (seen, (out ++ [prepared_node f id parent depth child_count])%list)).

Fixpoint prepare_node (node : FlowJob) (parent : option string)
    (depth max_depth max_nodes : Z) (st : Prep) {struct node} : M Status Prep :=
  match node with
  | mkFlow f cs =>
      let? '(id, st) := prepare_one f (length cs) parent depth max_depth max_nodes st in
      fold_m (λ st c, prepare_node c (Some id) (wrap_u32 (depth + 1)) max_depth max_nodes st)
        st cs
  end.

(** A preparation that fails is counted. *)
Definition or_rejected {A} (m : M Status A) : M Status A :=
  let? r := attempt m in
  match r with
  | Ok a => mret a
  | Err s => do? metric flow_rejected in fail s
  end.
Definition flow_reject {A} (c : Code) (m : string) : M Status A :=
  do? metric flow_rejected in fail (mkStatus c m).
End Prepare.

(** ** Insertion *)
Definition receipt_request `{Prost} (n : PreparedNode) (tree_id parent_id : string) (depth : Z)
  : bytes :=
  encode_to_vec (mkReq (p_name n) (p_payload n) (p_priority n)
    (Some (mkMeta parent_id tree_id depth)) (p_max_attempts n) (p_delay_ms n)
    (p_rate_limit_facet n) (p_retry_backoff_ms n) (p_retry_backoff_max_ms n)
    (p_idempotency_key n) (p_retry_jitter n) false).

Definition flow_job_row (n : PreparedNode) (tree_id : string) (parent : option string)
    (depth now available_at : Z) : Job :=
  mkJob (p_name n) (p_state n) (p_priority n) (p_payload n) parent tree_id depth
    0 (p_max_attempts n) now now (non_empty (p_rate_limit_facet n)) None None None
    (Some available_at) (p_retry_backoff_ms n) (p_retry_backoff_max_ms n) (p_retry_jitter n)
    (p_pending_children n) (p_fail_parent_on_failure n) (Some tree_id) depth.

Section Insert.
Context `{Env, Prost}.

(** One node of a tree, under its resolved parent and depth; [taken] answers a key that
    is already registered. *)
Definition insert_node (taken : M Status unit) (tree_id : string) (now : Z)
    (n : PreparedNode) (parent : option string) (depth : Z) : M Status unit :=
  match i64_checked_add now (p_delay_ms n) with
  | None => fail (mkStatus InvalidArgument "delay timestamp overflows")
  | Some available_at =>
      do? (if is_empty (p_idempotency_key n) then mret tt
           else
             let? existing := map_err internal (query (λ d,
               enqueue_receipts d !! (p_name n, p_idempotency_key n))) in
             match existing with Some _ => taken | None => mret tt end) in
      do? map_err internal (try_execute (insert_job (p_id n)
            (flow_job_row n tree_id parent depth now available_at))) in
      if is_empty (p_idempotency_key n) then mret tt
      else map_err internal (try_execute (insert_receipt (p_name n) (p_idempotency_key n)
             (mkReceipt (receipt_request n tree_id (default "" parent) depth) (p_id n)
                        (p_state n) now false)))
  end.

Definition flow_node (n : PreparedNode) : FlowNode :=
  mkNode (p_id n) (default "" (p_parent_id n)) (p_name n) (p_depth n) (p_state n).

Definition waiting_nodes (ns : list PreparedNode) : nat := length (base.filter has_children ns).
Definition keyed_nodes (ns : list PreparedNode) : nat :=
  length (base.filter (λ n, negb (is_empty (p_idempotency_key n))) ns).

(** [nodes[0].id]: the root comes first. *)
Definition tree_root (ns : list PreparedNode) : string := default "" (p_id <$> head ns).

Definition insert_prepared_tree (nodes : list PreparedNode) (now : Z)
  : M Status (nat * nat * AddFlowResponse) :=
  let tree_id := tree_root nodes in
  let? _ := for_each (λ n,
    insert_node (fail (mkStatus FailedPrecondition
        "flow node idempotency_key already used; AddFlow creates fresh trees only"))
      tree_id now n (p_parent_id n) (p_depth n)) nodes in
  mret (waiting_nodes nodes, keyed_nodes nodes, mkFlowResp tree_id (flow_node <$> nodes)).
End Insert.

Definition enqueued_node (m : Metrics) (n : PreparedNode) : Metrics :=
  transition None (p_state n) "enqueued" m <| named ::= named_event (p_name n) "enqueued" |>.

Definition flush_tree_metrics (nodes : list PreparedNode) (waiting receipts : nat)
    (m : Metrics) : Metrics :=
  let m := foldl enqueued_node m nodes in
  let m := flow_waiting_children_inc (Z.of_nat waiting) m in
  let m := Nat.iter receipts enqueue_receipt_created m in
  flow_nodes_created (Z.of_nat (length nodes)) (flow_created m).

(** ** Entry points *)
Section Flows.
Context `{Env, Prost}.

Definition add_flow (l : FlowLimits) (flow : option FlowJob) : M Status AddFlowResponse :=
  match flow with
  | None => flow_reject InvalidArgument "flow is required"
  | Some flow =>
      let? st := or_rejected (prepare_node flow None 0 (max_flow_depth l) (max_flow_nodes l)
                                           (∅, [])) in
      let nodes := st.2 in
      let? '(waiting, receipts, response) := transaction internal (
        let? now := map_err internal now_ms in
        insert_prepared_tree nodes now) in
      do? metric (flush_tree_metrics nodes waiting receipts) in
      mret response
  end.

(** Every tree of a batch, with one set of keys and a fresh output each. *)
Fixpoint prepare_trees (l : FlowLimits) (seen : gset (string * string))
    (flows : list FlowJob) : M Status (list (list PreparedNode)) :=
  match flows with
  | [] => mret []
  | f :: flows' =>
      let? '(seen, nodes) := prepare_node f None 0 (max_flow_depth l) (max_flow_nodes l)
                                          (seen, []) in
      let? trees := prepare_trees l seen flows' in
      mret (nodes :: trees)
  end.

Definition add_flow_bulk (l : FlowLimits) (flows : list FlowJob)
  : M Status (list AddFlowResponse) :=
  if decide (flows = [])
  then flow_reject InvalidArgument "AddFlowBulk requires at least one flow"
  else if max_flow_bulk l <? wrap_u32 (Z.of_nat (length flows))
  then flow_reject InvalidArgument
         ("AddFlowBulk exceeds max batch size " ++ fmt_Z (max_flow_bulk l))
  else
    let? trees := or_rejected (prepare_trees l ∅ flows) in
    let? results := transaction internal (
      let? now := map_err internal now_ms in
      for_each (λ nodes, insert_prepared_tree nodes now) trees) in
    do? metric (λ m, foldl (λ m (t : list PreparedNode * (nat * nat * AddFlowResponse)),
          flush_tree_metrics t.1 t.2.1.1 t.2.1.2 m) m (zip trees results)) in
    mret (snd <$> results).

Definition attach_node (target_id tree_id : string) (target_depth now : Z)
    (n : PreparedNode) : M Status FlowNode :=
  let parent := default target_id (p_parent_id n) in
  let depth := wrap_u32 (wrap_u32 target_depth + p_depth n) in
  do? insert_node (flow_reject FailedPrecondition
                     "only the merge root may reference an existing job")
        tree_id now n (Some parent) depth in
  mret (mkNode (p_id n) parent (p_name n) depth (p_state n)).

(** The live job a merge attaches to. *)
Definition merge_target (name key : string) : M Status (string * Job) :=
  let? receipt := map_err internal (query (λ d, enqueue_receipts d !! (name, key))) in
  match receipt with
  | None => flow_reject NotFound
              "no existing job matches the merge root's name/idempotency_key"
  | Some r =>
      let? target := map_err internal (query (λ d, jobs d !! rc_job_id r)) in
      match target with
      | None => flow_reject FailedPrecondition "cannot attach children to a finished job"
      | Some t =>
          match j_state t with
          | Waiting | Delayed | WaitingChildren => mret (rc_job_id r, t)
          | Active => flow_reject FailedPrecondition
                        "cannot attach children to an in-flight (Active) job"
          | other => flow_reject FailedPrecondition
                       ("cannot attach children to a job in state " ++ state_name other)
          end
      end
  end.

(** The caps of the merged tree. *)
Definition merge_caps (l : FlowLimits) (t : Job) (tree_id : string)
    (nodes : list PreparedNode) : M Status unit :=
  let height := foldr (λ n h, Z.max (p_depth n) h) 1 nodes in
  if max_flow_depth l <? wrap_i64 (j_tree_depth t + height)
  then flow_reject InvalidArgument
         ("merged flow tree height exceeds max allowed " ++ fmt_Z (max_flow_depth l))
  else
    let? live_count := map_err internal (query (λ d, Z.of_nat (length (rows_where
      (λ _ j, bool_decide (j_tree_id j = Some tree_id)) (jobs d))))) in
    if max_flow_nodes l <? wrap_i64 (live_count + Z.of_nat (length nodes))
    then flow_reject InvalidArgument
           ("merged flow tree node count exceeds max allowed " ++ fmt_Z (max_flow_nodes l))
    else mret tt.

(** The body of the merge transaction. *)
Definition merge_body (l : FlowLimits) (name key : string) (nodes : list PreparedNode)
  : M Status (string * Job * list FlowNode) :=
  let direct := Z.of_nat (length (base.filter (λ n, p_parent_id n = None) nodes)) in
  let? now := map_err internal now_ms in
  let? '(target_id, t) := merge_target name key in
  let tree_id := default target_id (j_tree_id t) in
  do? (match j_tree_id t with
       | None => map_err internal (execute (update_job (adopt_row tree_id) target_id))
       | Some _ => mret tt
       end) in
  do? merge_caps l t tree_id nodes in
  let? attached := for_each (attach_node target_id tree_id (j_tree_depth t) now) nodes in
  do? map_err internal (stmt (λ n d,
        Ok (tt, update_job (add_pending direct (clock n)) target_id d))) in
  do? (if runnable (j_state t)
       then map_err internal (stmt (λ n d,
              Ok (tt, update_job (regate_row (clock n)) target_id d)))
       else mret tt) in
  mret (target_id, t, attached).

Definition merge_metrics (nodes : list PreparedNode) (target_state : JobState) (m : Metrics)
  : Metrics :=
  let m := foldl enqueued_node m nodes in
  let m := flow_waiting_children_inc (Z.of_nat (waiting_nodes nodes)) m in
  let m := if runnable target_state
           then flow_waiting_children_inc 1
                  (transition (Some target_state) WaitingChildren "flow_merge_regate" m)
           else m in
  let m := Nat.iter (keyed_nodes nodes) enqueue_receipt_created m in
  let m := flow_nodes_created (Z.of_nat (length nodes)) m in
  flow_merge_nodes (Z.of_nat (length nodes)) (flow_merge m).

Definition add_flow_merge (l : FlowLimits) (flow : option FlowJob)
  : M Status AddFlowMergeResponse :=
  match flow with
  | None => flow_reject InvalidArgument "flow is required"
  | Some (mkFlow f cs) =>
      if is_empty (fj_idempotency_key f)
      then flow_reject InvalidArgument
        "AddFlowMerge requires an idempotency_key on the root to identify the attach target"
      else if decide (cs = [])
      then flow_reject InvalidArgument
             "AddFlowMerge root must have at least one child to attach"
      else
        let? st := or_rejected (fold_m (λ st c, prepare_node c None 1 u32_max u32_max st)
                                      (∅, []) cs) in
        let nodes := st.2 in
        let? '(target_id, t, attached) := transaction internal (
          merge_body l (fj_name f) (fj_idempotency_key f) nodes) in
        do? metric (merge_metrics nodes (j_state t)) in
        mret (mkMergeResp target_id attached)
  end.

Definition children_values (parent_id : string) (d : Db) : gmap string bytes :=
  omap (λ h, if bool_decide (h_parent_id h = Some parent_id) && is_state (h_state h) Completed
             then h_result h else None) (job_history d).

Definition get_children_values (parent_id : string) : M Status (gmap string bytes) :=
  if is_blank parent_id
  then fail (mkStatus InvalidArgument "parent_id must not be blank")
  else map_err internal (query (children_values parent_id)).
End Flows.
