(* ===== verification/FlowTree.v ===== *)
(** * The shape of prepared flow trees

    [prepare_node] computes the pre-order flattening of a tree ([flatten]), its checks hold
    of every node, and every gate counts exactly the children of its node. *)
From Stdlib Require Import Ascii String.
From S2P Require Import Prelude Text F64 Db Pressure Telemetry Broker Lifecycle RateLimit.
From S2P Require Import Ingress Enqueue Flow.
Local Open Scope string_scope.
Local Open Scope Z_scope.

(** ** The shape of a prepared tree

    [flatten] is the specification of [prepare_node]: the nodes in pre-order, numbered by
    consecutive identifiers. *)
Fixpoint tree_size (t : FlowJob) : nat :=
  match t with mkFlow _ cs => S (sum_list_with tree_size cs) end.

Lemma FlowJob_tree_ind (P : FlowJob → Prop) :
  (∀ f cs, Forall P cs → P (mkFlow f cs)) → ∀ t, P t.
Proof.
  intros Hind. fix IH 1. intros [f cs]. apply Hind.
  induction cs as [|c cs IHcs]; constructor; [apply IH|apply IHcs].
Qed.

Section Flatten.
Context `{HE : Env}.

Definition flatten_all (fl : FlowJob → nat → list PreparedNode) :=
  fix go (cs : list FlowJob) (n : nat) : list PreparedNode :=
    match cs with
    | [] => []
    | c :: cs' => (fl c n ++ go cs' (n + tree_size c)%nat)%list
    end.

Fixpoint flatten (t : FlowJob) (parent : option string) (depth : Z) (n : nat)
  : list PreparedNode :=
  match t with
  | mkFlow f cs =>
      prepared_node f (new_v4 n) parent depth (length cs)
      :: flatten_all (λ c, flatten c (Some (new_v4 n)) (wrap_u32 (depth + 1))) cs (S n)
  end.

Lemma flatten_all_ids fl cs n :
  Forall (λ c, ∀ n, p_id <$> fl c n = new_v4 <$> seq n (tree_size c)) cs →
  p_id <$> flatten_all fl cs n = new_v4 <$> seq n (sum_list_with tree_size cs).
Proof.
  intros Hall. revert n. induction Hall as [|c cs Hc _ IH]; intros n; [done|]. simpl.
  by rewrite fmap_app, Hc, IH, seq_app, fmap_app.
Qed.
Lemma flatten_ids t parent depth n :
  p_id <$> flatten t parent depth n = new_v4 <$> seq n (tree_size t).
Proof.
  revert parent depth n. induction t as [f cs IH] using FlowJob_tree_ind. intros parent depth n.
  simpl. f_equal. apply flatten_all_ids. eapply list.Forall_impl; [exact IH|]. simpl. auto.
Qed.
Lemma flatten_length t parent depth n : length (flatten t parent depth n) = tree_size t.
Proof.
  pose proof (f_equal length (flatten_ids t parent depth n)) as Hl.
  by rewrite !length_fmap, length_seq in Hl.
Qed.

(** What the checks of [prepare_node] establish of every node. *)
Definition node_ok (max_depth : Z) (n : PreparedNode) : Prop :=
  p_depth n ≤ max_depth ∧ 0 ≤ p_delay_ms n
  ∧ 0 ≤ p_retry_backoff_ms n ≤ p_retry_backoff_max_ms n
  ∧ (has_children n = true ↔ 0 < p_pending_children n) ∧ dormant (p_state n) = true.

Lemma validate_fields_Ok f :
  validate_fields f = Ok tt →
  0 ≤ fj_delay_ms f ∧ 0 ≤ fj_retry_backoff_ms f ≤ flow_backoff_max f.
Proof.
  unfold validate_fields, invalid. intros Hv. destruct (negb _ && _); [done|].
  destruct (_ || (fj_retry_backoff_max_ms f <? 0)) eqn:Hneg; [done|].
  destruct (flow_backoff_max f <? _) eqn:Hcap; [done|]. apply Z.ltb_ge in Hcap.
  apply orb_false_iff in Hneg as [[?%Z.ltb_ge ?%Z.ltb_ge]%orb_false_iff _]. lia.
Qed.

Lemma resting_state_ok f k :
  dormant (resting_state f k) = true ∧ (resting_state f k = WaitingChildren ↔ (0 < k)%nat).
Proof.
  unfold resting_state. destruct (Nat.ltb_spec 0 k); [done|].
  destruct (0 <? _); (split; [done|split; [done|lia]]).
Qed.

(** One successful push. *)
Lemma prepare_one_Ok f k parent depth md mn seen out w id seen' out' w' :
  prepare_one f k parent depth md mn (seen, out) w = (Ok (id, (seen', out')), w') →
  id = new_v4 (w_step w) ∧ w' = tick w
  ∧ out' = (out ++ [prepared_node f id parent depth k])%list
  ∧ node_ok md (prepared_node f id parent depth k)
  ∧ wrap_u32 (Z.of_nat (length out)) < mn.
Proof.
  unfold prepare_one. intros Hr. destruct (Z.ltb_spec md depth); [done|].
  destruct (Z.leb_spec mn (wrap_u32 (Z.of_nat (length out)))); [done|].
  apply bind_Ok in Hr as (u & w1 & H1 & Hr). unfold lift in H1. injection H1 as Hv <-.
  destruct u. apply validate_fields_Ok in Hv as (? & ?).
  destruct (negb _ && _); [done|]. apply bind_Ok in Hr as (i & w2 & Hu & Hr).
  injection Hu as <- <-. injection Hr as <- _ <- <-. split_and!; try done.
  pose proof (resting_state_ok f k) as [Hd Hw].
  unfold node_ok, has_children. simpl. split_and!; try done; try lia.
  unfold is_state. rewrite bool_decide_eq_true, Hw. lia.
Qed.

Lemma fold_prepare_Ok parent depth md mn cs :
  Forall (λ t, ∀ seen out w seen' out' w',
    prepare_node t parent depth md mn (seen, out) w = (Ok (seen', out'), w') →
    w' = mkWorld (w_db w) (w_metrics w) (w_step w + tree_size t)
    ∧ out' = (out ++ flatten t parent depth (w_step w))%list
    ∧ Forall (node_ok md) (flatten t parent depth (w_step w))
    ∧ (Z.of_nat (length out) ≤ mn ≤ u32_max → Z.of_nat (length out') ≤ mn)) cs →
  ∀ seen out w seen' out' w',
    fold_m (λ st c, prepare_node c parent depth md mn st) (seen, out) cs w
      = (Ok (seen', out'), w') →
    let ns := flatten_all (λ c, flatten c parent depth) cs (w_step w) in
    w' = mkWorld (w_db w) (w_metrics w) (w_step w + sum_list_with tree_size cs)
    ∧ out' = (out ++ ns)%list ∧ Forall (node_ok md) ns
    ∧ (Z.of_nat (length out) ≤ mn ≤ u32_max → Z.of_nat (length out') ≤ mn).
Proof.
  induction 1 as [|c cs Hc _ IH]; intros seen out w seen' out' w' Hr; simpl in *.
  - injection Hr as <- <- <-. rewrite Nat.add_0_r, app_nil_r.
    split_and!; [by destruct w|done|constructor|lia].
  - apply bind_Ok in Hr as ([seen1 out1] & w1 & H1 & Hr).
    apply Hc in H1 as (-> & -> & Hok & Hcap). apply IH in Hr as (-> & -> & Hok' & Hcap').
    simpl in *. split_and!; [by rewrite Nat.add_assoc|by rewrite app_assoc| |lia].
    by apply list.Forall_app.
Qed.

(** [prepare_node] computes [flatten], and its checks hold of every node. *)
Lemma prepare_node_Ok t parent depth md mn seen out w seen' out' w' :
  prepare_node t parent depth md mn (seen, out) w = (Ok (seen', out'), w') →
  w' = mkWorld (w_db w) (w_metrics w) (w_step w + tree_size t)
  ∧ out' = (out ++ flatten t parent depth (w_step w))%list
  ∧ Forall (node_ok md) (flatten t parent depth (w_step w))
  ∧ (Z.of_nat (length out) ≤ mn ≤ u32_max → Z.of_nat (length out') ≤ mn).
Proof.
  revert parent depth seen out w seen' out' w'.
  induction t as [f cs IH] using FlowJob_tree_ind. intros parent depth seen out w seen' out' w' Hr.
  simpl in Hr. apply bind_Ok in Hr as ([id [seen1 out1]] & w1 & H1 & Hr).
  apply prepare_one_Ok in H1 as (-> & -> & -> & Hok & Hcap).
  apply fold_prepare_Ok in Hr as (-> & -> & Hoks & Hcap').
  2:{ eapply list.Forall_impl; [exact IH|]. simpl. intros c Hc seen0 out0 w0 s0 o0 w0' H0.
      by eapply Hc. }
  simpl in *. split_and!.
  - f_equal. lia.
  - by rewrite <-app_assoc.
  - by constructor.
  - intros Hle. apply Hcap'. rewrite length_app. simpl.
    unfold wrap_u32, u32_max in *. rewrite Z.mod_small in Hcap by lia. lia.
Qed.

(** *** The gates of a prepared tree *)
Context `{!UuidLaw HE}.

Definition child_count (id : string) (ns : list PreparedNode) : nat :=
  length (base.filter (λ y, p_parent_id y = Some id) ns).
Lemma child_count_app id ns ns' :
  child_count id (ns ++ ns') = (child_count id ns + child_count id ns')%nat.
Proof. unfold child_count. by rewrite list.filter_app, length_app. Qed.
Lemma child_count_cons id x ns :
  child_count id (x :: ns) =
  ((if decide (p_parent_id x = Some id) then 1 else 0) + child_count id ns)%nat.
Proof. unfold child_count. rewrite list.filter_cons. by case_decide. Qed.

(** A subtree refers to an identifier outside it only as the parent of its root. *)
Definition outside (k n size : nat) : Prop := (k < n ∨ n + size ≤ k)%nat.
Definition refers (parent : option string) (k : nat) : nat :=
  if decide (parent = Some (new_v4 k)) then 1%nat else 0%nat.

Lemma flatten_all_outside parent depth cs :
  Forall (λ t, ∀ n k, outside k n (tree_size t) →
    child_count (new_v4 k) (flatten t parent depth n) = refers parent k) cs →
  ∀ n k, outside k n (sum_list_with tree_size cs) →
    child_count (new_v4 k) (flatten_all (λ c, flatten c parent depth) cs n)
    = (length cs * refers parent k)%nat.
Proof.
  unfold outside. induction 1 as [|c cs Hc _ IH]; intros n k Hk; [done|]. simpl in *.
  rewrite child_count_app, Hc, IH by lia. lia.
Qed.

Lemma flatten_outside t parent depth n k :
  outside k n (tree_size t) →
  child_count (new_v4 k) (flatten t parent depth n) = refers parent k.
Proof.
  revert parent depth n k. induction t as [f cs IH] using FlowJob_tree_ind.
  intros parent depth n k Hk. cbn [flatten tree_size] in *. rewrite child_count_cons. simpl.
  rewrite (flatten_all_outside (Some (new_v4 n))); unfold outside, refers in *.
  - rewrite (decide_False (P := Some _ = Some _)); [case_decide; lia|].
    intros [= ?%new_v4_inj]. lia.
  - eapply list.Forall_impl; [exact IH|]. simpl. auto.
  - lia.
Qed.

(** Every gate counts the children of its node. *)
Definition gates (ns : list PreparedNode) (rest : list PreparedNode) : Prop :=
  ∀ x, x ∈ rest → p_pending_children x = Z.of_nat (child_count (p_id x) ns).

Lemma flatten_id_range t parent depth n x :
  x ∈ flatten t parent depth n →
  ∃ k, p_id x = new_v4 k ∧ (n ≤ k < n + tree_size t)%nat.
Proof.
  intros Hx. apply (list_elem_of_fmap_2 p_id) in Hx. rewrite flatten_ids in Hx.
  apply list_elem_of_fmap in Hx as (k & -> & Hk%elem_of_seq). eauto with lia.
Qed.

(** The parent given to a list of trees was numbered before them. *)
Definition older (parent : option string) (n : nat) : Prop :=
  ∀ k, parent = Some (new_v4 k) → (k < n)%nat.

Lemma flatten_all_gates parent depth cs :
  Forall (λ t, ∀ n, older parent n →
    gates (flatten t parent depth n) (flatten t parent depth n)) cs →
  ∀ n, older parent n →
    let ns := flatten_all (λ c, flatten c parent depth) cs n in gates ns ns.
Proof.
  unfold gates, older.
  induction 1 as [|c cs Hc _ IH]; intros n Hm x; simpl; [by intros ?%not_elem_of_nil|].
  rewrite child_count_app. intros [Hx|Hx]%elem_of_app.
  - rewrite (Hc n Hm x Hx). apply flatten_id_range in Hx as (k & -> & Hk).
    rewrite flatten_all_outside; unfold outside, refers in *.
    + rewrite decide_False by (intros ?%Hm; lia). lia.
    + apply list.Forall_forall. intros. by apply flatten_outside.
    + lia.
  - rewrite (IH (n + tree_size c)%nat) with (x := x); [|intros k ?%Hm; lia|done].
    assert (∃ k, p_id x = new_v4 k ∧ n + tree_size c ≤ k)%nat as (k & -> & Hk).
    { apply (list_elem_of_fmap_2 p_id) in Hx. rewrite flatten_all_ids in Hx.
      - apply list_elem_of_fmap in Hx as (k & -> & [? ?]%elem_of_seq). eauto.
      - apply list.Forall_forall. intros. apply flatten_ids. }
    rewrite flatten_outside by (unfold outside; lia). unfold refers.
    rewrite decide_False by (intros ?%Hm; lia). lia.
Qed.

Lemma flatten_gates t parent depth n :
  (∀ k, parent = Some (new_v4 k) → outside k n (tree_size t)) →
  gates (flatten t parent depth n) (flatten t parent depth n).
Proof.
  revert parent depth n. induction t as [f cs IH] using FlowJob_tree_ind.
  intros parent depth n Hp x. unfold outside in *. cbn [flatten tree_size] in *.
  rewrite child_count_cons. simpl. intros [->|Hx]%elem_of_cons; simpl.
  - rewrite decide_False by (intros ?%Hp; lia).
    rewrite flatten_all_outside; unfold outside, refers; [|..].
    + rewrite decide_True by done. lia.
    + apply list.Forall_forall. intros. by apply flatten_outside.
    + lia.
  - rewrite (flatten_all_gates (Some (new_v4 n)) (wrap_u32 (depth + 1)) cs)
      with (n := S n) (x := x); [|..].
    + assert (∃ k, p_id x = new_v4 k ∧ n < k < S n + sum_list_with tree_size cs)%nat
        as (k & -> & Hk).
      { apply (list_elem_of_fmap_2 p_id) in Hx. rewrite flatten_all_ids in Hx.
        - apply list_elem_of_fmap in Hx as (k & -> & [? ?]%elem_of_seq). eauto with lia.
        - apply list.Forall_forall. intros. apply flatten_ids. }
      rewrite decide_False by (intros ?%Hp; lia). done.
    + eapply list.Forall_impl; [exact IH|]. simpl. intros t Ht m Hm. apply Ht.
      intros k ?%Hm. unfold outside. lia.
    + intros k [= ?%new_v4_inj]. lia.
    + done.
Qed.

(** The trees of a list that hang below no node of the request. *)
Lemma flatten_all_roots_gates depth cs n :
  let ns := flatten_all (λ c, flatten c None depth) cs n in gates ns ns.
Proof.
  apply flatten_all_gates; [|done]. apply list.Forall_forall. intros t _ m _.
  by apply flatten_gates.
Qed.

(** A node hangs below the parent given, or below a node of its own tree numbered before. *)
Definition parent_within (parent : option string) (n size : nat) (x : PreparedNode) : Prop :=
  p_parent_id x = parent
  ∨ ∃ k i, p_parent_id x = Some (new_v4 k) ∧ p_id x = new_v4 i ∧ (n ≤ k < i)%nat ∧ (i < n + size)%nat.

Lemma parent_within_mono parent n size n' size' x :
  (n' ≤ n)%nat → (n + size ≤ n' + size')%nat →
  parent_within parent n size x → parent_within parent n' size' x.
Proof. intros ? ? [?|(k & i & ? & ? & ? & ?)]; [by left|right]. exists k, i. split_and!; auto with lia. Qed.

Lemma flatten_all_parents parent depth cs n :
  Forall (λ t, ∀ n, Forall (parent_within parent n (tree_size t)) (flatten t parent depth n)) cs →
  Forall (parent_within parent n (sum_list_with tree_size cs))
    (flatten_all (λ c, flatten c parent depth) cs n).
Proof.
  intros Hall. revert n. induction Hall as [|c cs Hc _ IH]; intros n; simpl; [constructor|].
  apply list.Forall_app. split; (eapply list.Forall_impl; [first [apply Hc|apply IH]|]);
    intros x; apply parent_within_mono; lia.
Qed.
Lemma flatten_parents t parent depth n :
  Forall (parent_within parent n (tree_size t)) (flatten t parent depth n).
Proof.
  revert parent depth n. induction t as [f cs IH] using FlowJob_tree_ind. intros parent depth n.
  cbn [flatten tree_size]. constructor; [by left|].
  set (fl := λ c, flatten c (Some (new_v4 n)) (wrap_u32 (depth + 1))).
  apply list.Forall_forall. intros x Hx.
  assert (∃ i, p_id x = new_v4 i ∧ (n < i < n + S (sum_list_with tree_size cs))%nat) as (i & Hi & ?).
  { apply (list_elem_of_fmap_2 p_id) in Hx. rewrite flatten_all_ids in Hx.
    - apply list_elem_of_fmap in Hx as (i & -> & ?%elem_of_seq). exists i. auto with lia.
    - apply list.Forall_forall. intros. apply flatten_ids. }
  assert (parent_within (Some (new_v4 n)) (S n) (sum_list_with tree_size cs) x) as Hp.
  { revert Hx. apply list.Forall_forall, flatten_all_parents.
    eapply list.Forall_impl; [exact IH|]. simpl. auto. }
  destruct Hp as [Hp|(k & i' & ? & ? & ? & ?)]; right; [exists n, i|exists k, i']; split_and!; auto with lia.
Qed.
End Flatten.
