(* ===== verification/FlowSim.v ===== *)
(** * Flows implement the life cycle

    The three ways to create flow nodes are insertions of new jobs (and, for a merge,
    updates of the target's gate) in the machine of Lifecycle.v. *)
From Stdlib Require Import Ascii String.
From S2P Require Import Prelude Text F64 Db Pressure Telemetry Broker Lifecycle RateLimit.
From S2P Require Import Ingress Enqueue Flow FlowTree.
Local Open Scope string_scope.
Local Open Scope Z_scope.

(** ** Simulation *)

(** The types of the wire, at every node. *)
Fixpoint typed_flow (t : FlowJob) : Prop :=
  match t with
  | mkFlow f cs => 0 ≤ fj_max_attempts f ≤ u32_max ∧ foldr (λ c P, typed_flow c ∧ P) True cs
  end.

Section FlowRuns.
Context `{HE : Env, HP : Prost}.

Lemma flatten_attempts t parent depth n :
  typed_flow t → Forall (λ x, 0 < p_max_attempts x ≤ u32_max) (flatten t parent depth n).
Proof.
  revert parent depth n. induction t as [f cs IH] using FlowJob_tree_ind.
  intros parent depth n [Hf Hcs]. simpl. constructor.
  { simpl. unfold flow_attempts, u32_max in *. destruct (Z.eqb_spec (fj_max_attempts f) 0); lia. }
  generalize (S n). revert Hcs. induction IH as [|c cs Hc _ IHcs]; simpl; intros Hcs m;
    [constructor|]. apply list.Forall_app. naive_solver.
Qed.

Lemma flow_row_born md x tree parent depth now av :
  node_ok md x → 0 < p_max_attempts x ≤ u32_max → born (flow_job_row x tree parent depth now av).
Proof. intros (? & ? & ? & ? & ?) ?. by split. Qed.

(** A step that inserts new jobs under the identifiers [ids]. *)
Definition inserts (ids : list string) {E A} (m : M E A) : Prop :=
  ∀ w a w' s, m w = (Ok a, w') → implements w s → list_to_set ids ⊆ drawn w →
  list_to_set ids ## l_used s →
  ∃ s', lsteps false s s' ∧ implements w' s' ∧ l_used s' ⊆ list_to_set ids ∪ l_used s
        ∧ (∀ id, id ∉ ids → jobs (w_db w') !! id = jobs (w_db w) !! id)
        ∧ (w_step w ≤ w_step w')%nat.

(** The same without a frame. *)
Definition adds (ids : list string) {E A} (m : M E A) : Prop :=
  ∀ w a w' s, m w = (Ok a, w') → implements w s → list_to_set ids ⊆ drawn w →
  list_to_set ids ## l_used s → ∃ s', lsteps false s s' ∧ implements w' s'.
Lemma inserts_adds ids {E A} (m : M E A) : inserts ids m → adds ids m.
Proof.
  intros Hm w a w' s Hr Hi Hd Hu. destruct (Hm _ _ _ _ Hr Hi Hd Hu) as (s' & ? & ? & _). eauto.
Qed.

Lemma inserts_for_each {E A B} (g : A → list string) (f : A → M E B) l :
  (∀ a, a ∈ l → inserts (g a) (f a)) → NoDup (l ≫= g) → inserts (l ≫= g) (for_each f l).
Proof.
  induction l as [|a l IH]; intros Hf Hnd w bs w' s Hr Hi Hdr Hdis; simpl in *.
  { injection Hr as <- <-. exists s. split_and!; [done..|set_solver|done|done]. }
  apply list.NoDup_app in Hnd as (Hnd1 & Hsep & Hnd2).
  rewrite list_to_set_app_L in *.
  apply bind_Ok in Hr as (b & w1 & H1 & Hr). apply bind_Ok in Hr as (bs' & w2 & H2 & Hr).
  injection Hr as <- <-.
  apply disjoint_union_l in Hdis as [Hdis1 Hdis2]. apply union_subseteq in Hdr as [Hdr1 Hdr2].
  destruct (Hf a (list_elem_of_here _ _) _ _ _ _ H1 Hi Hdr1 Hdis1)
    as (s1 & Hs1 & Hi1 & Hu1 & Hfr1 & Hle1).
  destruct (IH (λ x Hx, Hf x (list_elem_of_further _ _ _ Hx)) Hnd2 _ _ _ s1 H2 Hi1)
    as (s2 & Hs2 & Hi2 & Hu2 & Hfr2 & Hle2).
  - etrans; [exact Hdr2|]. by apply drawn_mono.
  - intros x Hx [Hxg|Hxs]%Hu1%elem_of_union; [|by eapply Hdis2].
    rewrite elem_of_list_to_set in Hx, Hxg. by apply (Hsep x).
  - exists s2. split_and!; [by etrans|done| | |lia].
    + etrans; [exact Hu2|]. clear -Hu1. set_solver.
    + intros id [Hid1 Hid2]%not_elem_of_app. by rewrite Hfr2, Hfr1.
Qed.

Lemma insert_node_inserts taken tree now n parent depth md :
  node_ok md n → 0 < p_max_attempts n ≤ u32_max → (∀ w a w', taken w ≠ (Ok a, w')) →
  inserts [p_id n] (insert_node taken tree now n parent depth).
Proof.
  intros Hok Hat Htaken w u w' s Hr Hi Hdr Hdis. unfold insert_node in Hr.
  destruct (i64_checked_add _ _) as [av|]; [|done].
  apply bind_Ok in Hr as (u1 & w1 & H1 & Hr).
  assert (w_db w1 = w_db w ∧ (w_step w ≤ w_step w1)%nat) as [E1 Hle1].
  { destruct (is_empty _); [by injection H1 as _ <-|].
    apply bind_Ok in H1 as (x & w1' & Hq & H1). apply map_err_Ok, query_Ok in Hq as [-> ->].
    destruct (enqueue_receipts _ !! _); [by apply Htaken in H1|].
    injection H1 as _ <-. simpl. auto. }
  apply bind_Ok in Hr as (u2 & w2 & H2 & Hr). apply map_err_Ok in H2.
  apply try_execute_Ok in H2 as (d2 & [_ ->]%insert_job_Ok & ->). rewrite E1 in Hr.
  assert (tables (w_db w') = (<[p_id n := flow_job_row n tree parent depth now av]>
            (jobs (w_db w)), job_history (w_db w)) ∧ (w_step w ≤ w_step w')%nat) as [T Hle].
  { destruct (is_empty _); [injection Hr as _ <-; split; [done|simpl; lia]|].
    apply map_err_Ok in Hr. apply try_execute_Ok in Hr as (d3 & [_ ->]%insert_receipt_Ok & ->).
    split; [done|simpl; lia]. }
  unfold tables in T. injection T as Tj Th.
  destruct s as [js hs used]. pose proof Hi as [Hij Hih Hiu Hinv]. simpl in *. subst js hs.
  exists (mkL (<[p_id n := flow_job_row n tree parent depth now av]> (jobs (w_db w)))
            (job_history (w_db w)) ({[p_id n]} ∪ used)).
  assert (lstep false (mkL (jobs (w_db w)) (job_history (w_db w)) used)
    (mkL (<[p_id n := flow_job_row n tree parent depth now av]> (jobs (w_db w)))
       (job_history (w_db w)) ({[p_id n]} ∪ used))) as Hstep.
  { apply LInsert; [set_solver|by eapply flow_row_born]. }
  pose proof (drawn_mono _ _ Hle).
  split_and!; [by apply rtc_once| |set_solver| |done].
  - split; simpl; [done..|set_solver|by eapply lstep_inv].
  - intros id Hid. rewrite Tj, lookup_insert_ne; [done|set_solver].
Qed.

Lemma insert_tree_inserts nodes now md :
  Forall (node_ok md) nodes → Forall (λ x, 0 < p_max_attempts x ≤ u32_max) nodes →
  NoDup (p_id <$> nodes) → inserts (p_id <$> nodes) (insert_prepared_tree nodes now).
Proof.
  intros Hok Hat Hnd w r w' s Hr Hi Hdr Hdis. unfold insert_prepared_tree in Hr.
  apply bind_Ok in Hr as (us & w1 & H1 & Hr). injection Hr as <- <-.
  assert (nodes ≫= (λ n, [p_id n]) = p_id <$> nodes) as Heq.
  { clear. induction nodes; simpl; by f_equal. }
  rewrite <-Heq in *. eapply (inserts_for_each (λ n, [p_id n])); try done.
  intros n Hn. rewrite list.Forall_forall in Hok, Hat. by eapply insert_node_inserts; eauto.
Qed.

(** Frames of the preparation and of the insertions. *)
Lemma prepare_node_frame (D : relation Db) `{!PreOrder D} t parent depth md mn st :
  keeps D (prepare_node t parent depth md mn st).
Proof.
  revert parent depth st. induction t as [f cs IH] using FlowJob_tree_ind.
  intros parent depth st. simpl. apply keeps_bind; [done| |intros [id st']].
  - unfold prepare_one. frame.
  - apply keeps_fold_m; [done|]. intros st1 c Hc. rewrite list.Forall_forall in IH. by apply IH.
Qed.
Lemma prepare_trees_frame (D : relation Db) `{!PreOrder D} l seen fs :
  keeps D (prepare_trees l seen fs).
Proof. revert seen. induction fs; intros; simpl; frame. by apply prepare_node_frame. Qed.
Lemma flow_reject_frame (D : relation Db) `{!PreOrder D} {A} c m :
  keeps D (flow_reject c m : M Status A).
Proof. unfold flow_reject. frame. Qed.
Lemma or_rejected_frame (D : relation Db) `{!PreOrder D} {A} (m : M Status A) :
  keeps D m → keeps D (or_rejected m).
Proof. intros. unfold or_rejected. by frame. Qed.
Lemma or_rejected_Ok {A} (m : M Status A) w a w' :
  or_rejected m w = (Ok a, w') → m w = (Ok a, w').
Proof.
  unfold or_rejected, attempt, mbind, M_bind. destruct (m w) as [[x|e] w1]; [|done].
  by intros [= <- <-].
Qed.
Lemma insert_node_frame taken tree now n parent depth :
  keeps any taken → keeps any (insert_node taken tree now n parent depth).
Proof. intros. unfold insert_node. by frame. Qed.
Lemma insert_tree_frame nodes now : keeps any (insert_prepared_tree nodes now).
Proof. unfold insert_prepared_tree. frame. apply insert_node_frame. frame. Qed.
End FlowRuns.

Section FlowSimulation.
Context `{HE : Env, HU : !UuidLaw HE, HP : Prost}.

Lemma NoDup_ids n k : NoDup (new_v4 <$> seq n k).
Proof. apply NoDup_fmap_2; [exact new_v4_inj|apply NoDup_seq]. Qed.

(** Identifiers drawn by a run are new to the world before it. *)
Lemma ids_fresh w s n k :
  implements w s → (w_step w ≤ n)%nat →
  list_to_set (new_v4 <$> seq n k) ## l_used s.
Proof.
  intros Hi Hn x Hx Hu. rewrite elem_of_list_to_set in Hx.
  apply list_elem_of_fmap in Hx as (i & -> & [Hlo _]%elem_of_seq).
  apply (im_used _ _ Hi) in Hu. apply (new_v4_fresh w i); [lia|done].
Qed.
Lemma ids_drawn w n k :
  (n + k ≤ w_step w)%nat → list_to_set (new_v4 <$> seq n k) ⊆ drawn w.
Proof.
  intros Hle x. rewrite elem_of_list_to_set, elem_of_drawn. intros Hx.
  apply list_elem_of_fmap in Hx as (i & -> & [? ?]%elem_of_seq). exists i. split; [done|lia].
Qed.

(** The transaction that inserts identifiers drawn since [w]. *)
Lemma insert_transaction_sim {E A} (g : SqlError → E) (body : M E A) n k w w1 r w' s :
  keeps any body → adds (new_v4 <$> seq n k) body →
  implements w s → (w_step w ≤ n)%nat →
  w_db w1 = w_db w → (n + k ≤ w_step w1)%nat →
  transaction g body w1 = (r, w') → ∃ s', lsteps false s s' ∧ implements w' s'.
Proof.
  intros Hk Hins Hi Hn Hdb Hle Hr.
  assert (implements w1 s) as Hi1.
  { eapply implements_frame; [..|exact Hi]; [by rewrite Hdb..|lia]. }
  apply transaction_cases in Hr as [(e & _ & Hd & Hs)|(a & w2 & _ & Hb & ->)]; [| |done].
  - exists s. split; [done|]. eapply implements_frame; [..|exact Hi1]; [by rewrite Hd..|done].
  - destruct (Hins _ _ _ s Hb) as (s' & ? & Hi').
    + by apply implements_tick.
    + apply ids_drawn. simpl. lia.
    + by apply (ids_fresh w).
    + exists s'. split; [done|by apply implements_tick].
Qed.

Lemma inserts_after_now ids {A} (k : Z → M Status A) :
  (∀ now, inserts ids (k now)) →
  inserts ids (let? now := map_err internal now_ms in k now).
Proof.
  intros Hk w a w' s Hr Hi Hdr Hdis. apply bind_Ok in Hr as (now & w1 & H1 & Hr).
  apply map_err_Ok, now_ms_Ok in H1 as [_ ->].
  destruct (Hk now _ _ _ s Hr) as (s' & ? & ? & ? & ? & ?); [by apply implements_tick| |done|].
  - etrans; [exact Hdr|]. apply drawn_mono. simpl. lia.
  - exists s'. split_and!; try done. simpl in *. lia.
Qed.

Lemma add_flow_sim l flow :
  (∀ t, flow = Some t → typed_flow t) → simulates false (add_flow l flow).
Proof.
  intros Ht. unfold add_flow. destruct flow as [t|];
    [|apply simulates_frame, flow_reject_frame, _]. specialize (Ht t eq_refl).
  intros w r w' s Hr Hi. unfold mbind at 1, M_bind at 1 in Hr.
  destruct (or_rejected _ w) as [[[seen nodes]|e] w1] eqn:H1.
  2:{ injection Hr as <- <-. eapply simulates_frame; [|exact H1|exact Hi].
      apply or_rejected_frame, prepare_node_frame, _. apply _. }
  apply or_rejected_Ok, prepare_node_Ok in H1 as (-> & -> & Hok & _). simpl in Hr.
  unfold mbind at 1, M_bind at 1 in Hr. destruct (transaction _ _ _) as [x w2] eqn:Htx.
  assert (∃ s', lsteps false s s' ∧ implements w2 s') as (s' & Hs' & Hi').
  { eapply (insert_transaction_sim _ _ (w_step w) (tree_size t) w); [..|exact Htx];
      [frame; apply insert_tree_frame| |exact Hi|done|done|done].
    apply inserts_adds, inserts_after_now. intros now. rewrite <-(flatten_ids t None 0).
    eapply insert_tree_inserts; [exact Hok|by apply flatten_attempts|].
    rewrite flatten_ids. apply NoDup_ids. }
  destruct x as [[[wt rc] resp]|e]; injection Hr as <- <-; exists s'; (split; [done|]); [|done].
  eapply implements_frame; [..|exact Hi']; done.
Qed.

Lemma prepare_trees_Ok l seen fs w trees w' :
  prepare_trees l seen fs w = (Ok trees, w') → Forall typed_flow fs →
  let k := sum_list_with tree_size fs in
  w' = mkWorld (w_db w) (w_metrics w) (w_step w + k)
  ∧ trees ≫= fmap p_id = new_v4 <$> seq (w_step w) k
  ∧ Forall (λ ns, Forall (node_ok (max_flow_depth l)) ns
                  ∧ Forall (λ x, 0 < p_max_attempts x ≤ u32_max) ns ∧ NoDup (p_id <$> ns)) trees.
Proof.
  revert seen w trees. induction fs as [|t fs IH]; intros seen w trees Hr Ht; simpl in *.
  { injection Hr as <- <-. rewrite Nat.add_0_r. by destruct w. }
  apply list.Forall_cons in Ht as [Ht Hts].
  apply bind_Ok in Hr as ([seen1 nodes] & w1 & H1 & Hr).
  apply prepare_node_Ok in H1 as (-> & -> & Hok & _).
  apply bind_Ok in Hr as (trees' & w2 & H2 & Hr). injection Hr as <- <-.
  apply IH in H2 as (-> & Hids & Hall); [|done]. simpl in *. split_and!.
  - by rewrite Nat.add_assoc.
  - change ((p_id <$> flatten t None 0 (w_step w)) ++ (trees' ≫= fmap p_id)
      = new_v4 <$> seq (w_step w) (tree_size t + sum_list_with tree_size fs))%list.
    by rewrite flatten_ids, Hids, seq_app, fmap_app.
  - constructor; [|done]. split_and!; [done|by apply flatten_attempts|].
    rewrite flatten_ids. apply NoDup_ids.
Qed.

Lemma add_flow_bulk_sim l fs : Forall typed_flow fs → simulates false (add_flow_bulk l fs).
Proof.
  intros Ht. unfold add_flow_bulk.
  destruct (decide _); [apply simulates_frame, flow_reject_frame, _|].
  destruct (_ <? _); [apply simulates_frame, flow_reject_frame, _|].
  intros w r w' s Hr Hi. unfold mbind at 1, M_bind at 1 in Hr.
  destruct (or_rejected _ w) as [[trees|e] w1] eqn:H1.
  2:{ injection Hr as <- <-. eapply simulates_frame; [|exact H1|exact Hi].
      apply or_rejected_frame, prepare_trees_frame, _. apply _. }
  apply or_rejected_Ok, prepare_trees_Ok in H1 as (-> & Hids & Hall); [|done].
  unfold mbind at 1, M_bind at 1 in Hr. destruct (transaction _ _ _) as [x w2] eqn:Htx.
  assert (∃ s', lsteps false s s' ∧ implements w2 s') as (s' & Hs' & Hi').
  { eapply (insert_transaction_sim _ _ (w_step w) (sum_list_with tree_size fs) w);
      [..|exact Htx]; [frame; apply insert_tree_frame| |exact Hi|done|done|done].
    apply inserts_adds, inserts_after_now. intros now. rewrite <-Hids.
    apply inserts_for_each; [|rewrite Hids; apply NoDup_ids].
    intros ns Hns. rewrite list.Forall_forall in Hall. destruct (Hall _ Hns) as (? & ? & ?).
    by eapply insert_tree_inserts. }
  destruct x as [rs|e]; injection Hr as <- <-; exists s'; (split; [done|]); [|done].
  eapply implements_frame; [..|exact Hi']; done.
Qed.

Lemma merge_target_Ok name key w id t w' :
  merge_target name key w = (Ok (id, t), w') →
  jobs (w_db w) !! id = Some t ∧ dormant (j_state t) = true
  ∧ w_db w' = w_db w ∧ (w_step w ≤ w_step w')%nat
  ∧ rc_job_id <$> enqueue_receipts (w_db w) !! (name, key) = Some id.
Proof.
  unfold merge_target, flow_reject. intros Hr.
  apply bind_Ok in Hr as (rc & w1 & H1 & Hr). apply map_err_Ok, query_Ok in H1 as [-> ->].
  destruct (enqueue_receipts _ !! _) as [rc|]; [|by inv_run Hr].
  apply bind_Ok in Hr as (t' & w2 & H2 & Hr). apply map_err_Ok, query_Ok in H2 as [-> ->].
  simpl in *. destruct (jobs (w_db w) !! rc_job_id rc) as [t'|] eqn:Hj; [|by inv_run Hr].
  destruct (j_state t') eqn:Hs; try (by inv_run Hr); injection Hr as <- <- <-;
    rewrite Hs; simpl; auto with lia.
Qed.

Lemma merge_target_frame (D : relation Db) `{!PreOrder D} name key :
  keeps D (merge_target name key).
Proof. unfold merge_target, flow_reject. frame. Qed.
Lemma merge_caps_frame (D : relation Db) `{!PreOrder D} l t tree nodes :
  keeps D (merge_caps l t tree nodes).
Proof. unfold merge_caps, flow_reject. frame. Qed.
Lemma attach_node_frame id tree depth now n : keeps any (attach_node id tree depth now n).
Proof. unfold attach_node, flow_reject. frame. apply insert_node_frame. frame. Qed.
Lemma merge_body_frame l name key nodes : keeps any (merge_body l name key nodes).
Proof.
  unfold merge_body. frame; eauto using merge_target_frame, merge_caps_frame,
    attach_node_frame, any_preorder.
Qed.

Lemma attach_node_inserts id tree depth now n md :
  node_ok md n → 0 < p_max_attempts n ≤ u32_max →
  inserts [p_id n] (attach_node id tree depth now n).
Proof.
  intros Hok Hat w r w' s Hr Hi Hdr Hdis. unfold attach_node in Hr.
  apply bind_Ok in Hr as (u & w1 & H1 & Hr). injection Hr as <- <-.
  eapply insert_node_inserts; try done. intros w2 a w3 H2. unfold flow_reject in H2.
  by inv_run H2.
Qed.

(** One more update of the target of a merge. *)
Lemma target_update_sim w w' s id j j' :
  implements w s → jobs (w_db w) !! id = Some j → job_step j j' →
  tables (w_db w') = (<[id := j']> (jobs (w_db w)), job_history (w_db w)) →
  (w_step w ≤ w_step w')%nat →
  ∃ s', lsteps false s s' ∧ implements w' s' ∧ l_used s' = l_used s
        ∧ jobs (w_db w') !! id = Some j'.
Proof.
  intros Hi Hj Hs [= Tj Th] Hle.
  destruct (implements_update_used false w w' s id j j') as (s' & ? & ? & ?); [done..|].
  exists s'. split_and!; try done. rewrite Tj. apply lookup_insert_eq.
Qed.

(** The target's share of a merge: the new gate, closed if it was open. *)
Lemma regate_sim direct id t w w1 w2 s :
  0 ≤ direct → dormant (j_state t) = true → jobs (w_db w) !! id = Some t → implements w s →
  stmt (λ n d, Ok (tt, update_job (add_pending direct (clock n)) id d)) w = (Ok tt, w1) →
  (if runnable (j_state t)
   then stmt (λ n d, Ok (tt, update_job (regate_row (clock n)) id d))
   else mret tt) w1 = (Ok tt, w2) →
  ∃ s', lsteps false s s' ∧ implements w2 s'.
Proof.
  intros Hd Hs Hj Hi H1 H2. apply stmt_Ok in H1 as (d1 & _ & [= <-] & ->).
  destruct (target_update_sim w (mkWorld (update_job (add_pending direct (clock (w_step w))) id
    (w_db w)) (w_metrics w) (S (w_step w))) s id t (add_pending direct (clock (w_step w)) t))
    as (s1 & Hs1 & Hi1 & _ & Hj1); [done|done|by apply JAddPending| |simpl; lia|].
  { unfold tables. simpl. by rewrite (alter_Some _ _ _ t). }
  eapply steps_then; [exact Hs1|]. destruct (runnable (j_state t)) eqn:Hrun.
  - apply stmt_Ok in H2 as (d2 & _ & [= <-] & ->).
    eapply implements_update; [exact Hi1|exact Hj1|by apply JRegate| |done|simpl; lia].
    simpl in *. by erewrite alter_Some.
  - injection H2 as <-. by exists s1.
Qed.

Lemma merge_body_adds l name key nodes md ids :
  Forall (node_ok md) nodes → Forall (λ x, 0 < p_max_attempts x ≤ u32_max) nodes →
  p_id <$> nodes = ids → NoDup ids → adds ids (merge_body l name key nodes).
Proof.
  intros Hok Hat <- Hnd w r w' s Hr Hi Hdr Hdis. unfold merge_body in Hr.
  apply bind_Ok in Hr as (now & w1 & H1 & Hr). apply map_err_Ok, now_ms_Ok in H1 as [_ ->].
  apply bind_Ok in Hr as ([id t] & w2 & H2 & Hr).
  apply merge_target_Ok in H2 as (Hj & Hdor & Hdb2 & Hle2 & _). simpl in *.
  assert (implements w2 s) as Hi2.
  { eapply implements_frame; [..|exact Hi]; [by rewrite Hdb2..|lia]. }
  rewrite <-Hdb2 in Hj. apply bind_Ok in Hr as (u3 & w3 & H3 & Hr).
  assert (∃ s3 t3, lsteps false s s3 ∧ implements w3 s3 ∧ l_used s3 = l_used s
    ∧ jobs (w_db w3) !! id = Some t3 ∧ j_state t3 = j_state t ∧ (w_step w2 ≤ w_step w3)%nat)
    as (s3 & t3 & Hs3 & Hi3 & Hu3 & Hj3 & Hst3 & Hle3).
  { destruct (j_tree_id t) as [tr|] eqn:Htr; [injection H3 as _ <-; by exists s, t|].
    apply map_err_Ok, execute_Ok in H3 as ->.
    destruct (target_update_sim w2 (mkWorld (update_job (adopt_row id) id (w_db w2))
      (w_metrics w2) (S (w_step w2))) s id t (adopt_row id t)) as (s3 & ? & ? & ? & ?);
      [done|done|by apply JAdopt| |simpl; lia|].
    { unfold tables. simpl. by rewrite (alter_Some _ _ _ t). }
    exists s3, (adopt_row id t). split_and!; try done. simpl; lia. }
  eapply steps_then; [exact Hs3|].
  apply bind_Ok in Hr as (u4 & w4 & H4 & Hr).
  apply (merge_caps_frame (same (λ d : Db, d))) in H4 as [Hdb4 Hle4].
  apply bind_Ok in Hr as (att & w5 & H5 & Hr).
  assert (nodes ≫= (λ n, [p_id n]) = p_id <$> nodes) as Heq.
  { clear. induction nodes; simpl; by f_equal. }
  assert (implements w4 s3) as Hi4.
  { unfold same in Hdb4. eapply implements_frame; [..|exact Hi3];
      [by rewrite Hdb4..|done]. }
  destruct (inserts_for_each (λ n, [p_id n]) (attach_node id (default id (j_tree_id t))
    (j_tree_depth t) now) nodes) with (3 := H5) (4 := Hi4)
    as (s5 & Hs5 & Hi5 & _ & Hfr5 & _); rewrite ?Heq in *.
  - intros n Hn. rewrite list.Forall_forall in Hok, Hat. eapply attach_node_inserts; eauto.
  - done.
  - etrans; [exact Hdr|]. apply drawn_mono. lia.
  - by rewrite Hu3.
  - eapply steps_then; [exact Hs5|].
    apply bind_Ok in Hr as ([] & w6 & H6 & Hr). apply map_err_Ok in H6.
    apply bind_Ok in Hr as ([] & w7 & H7 & Hr). injection Hr as <- <-.
    eapply (regate_sim _ id t3); [|by rewrite Hst3| |exact Hi5|exact H6|].
    + lia.
    + rewrite Hfr5; [by rewrite Hdb4|]. intros Hin.
      pose proof (implements_used _ _ _ _ Hi2 Hj). eapply Hdis; [|done]. set_solver.
    + rewrite Hst3. revert H7. destruct (runnable _); [by intros ?%map_err_Ok|by intros [= <-]].
Qed.

Definition typed_children (flow : option FlowJob) : Prop :=
  match flow with None => True | Some f => Forall typed_flow (children f) end.

Lemma add_flow_merge_sim l flow :
  typed_children flow → simulates false (add_flow_merge l flow).
Proof.
  intros Ht. unfold add_flow_merge. destruct flow as [[f cs]|];
    [|apply simulates_frame, flow_reject_frame, _].
  destruct (is_empty _); [apply simulates_frame, flow_reject_frame, _|].
  destruct (decide _); [apply simulates_frame, flow_reject_frame, _|].
  intros w r w' s Hr Hi. unfold mbind at 1, M_bind at 1 in Hr.
  destruct (or_rejected _ w) as [[[seen nodes]|e] w1] eqn:H1.
  2:{ injection Hr as <- <-. eapply simulates_frame; [|exact H1|exact Hi].
      apply or_rejected_frame; [apply _|]. frame. apply prepare_node_frame, _. }
  apply or_rejected_Ok, fold_prepare_Ok in H1 as (-> & -> & Hok & _).
  2:{ apply list.Forall_forall. intros t _ seen0 out0 w0 seen1 out1 w0' H0.
      by eapply prepare_node_Ok. }
  simpl in *. set (ns := flatten_all _ cs (w_step w)) in *.
  assert (p_id <$> ns = new_v4 <$> seq (w_step w) (sum_list_with tree_size cs)) as Hids.
  { apply flatten_all_ids, list.Forall_forall. intros. apply flatten_ids. }
  assert (Forall (λ x, 0 < p_max_attempts x ≤ u32_max) ns) as Hat.
  { subst ns. clear -Ht. generalize (w_step w). induction Ht; intros n; simpl; [constructor|].
    apply list.Forall_app. auto using flatten_attempts. }
  unfold mbind at 1, M_bind at 1 in Hr. destruct (transaction _ _ _) as [x w2] eqn:Htx.
  assert (∃ s', lsteps false s s' ∧ implements w2 s') as (s' & Hs' & Hi').
  { eapply (insert_transaction_sim _ _ (w_step w) (sum_list_with tree_size cs) w);
      [..|exact Htx]; [apply merge_body_frame| |exact Hi|done|done|done].
    eapply merge_body_adds; [exact Hok|exact Hat|exact Hids|apply NoDup_ids]. }
  destruct x as [[[id t] att]|e]; injection Hr as <- <-; exists s'; (split; [done|]); [|done].
  eapply implements_frame; [..|exact Hi']; done.
Qed.

Lemma get_children_values_frame (D : relation Db) `{!PreOrder D} p :
  keeps D (get_children_values p).
Proof. unfold get_children_values. frame. Qed.
End FlowSimulation.
