(* ===== verification/FlowSpec.v ===== *)
(** * What the flow handlers write

    [add_flow] writes exactly the nodes of the flattened tree, [add_flow_merge] attaches
    exactly the new nodes and closes the gate of the target; each is all or nothing. *)
From Stdlib Require Import Ascii String.
From S2P Require Import Prelude Text F64 Db Pressure Telemetry Broker Lifecycle RateLimit.
From S2P Require Import Ingress Enqueue Flow FlowTree FlowSim.
Local Open Scope string_scope.
Local Open Scope Z_scope.

Section FlowRows.
Context `{HE : Env, HP : Prost}.

(** The row of a node in the database. *)
Definition node_row (tree : string) (now : Z) (parent : option string) (depth : Z)
    (n : PreparedNode) : Job :=
  flow_job_row n tree parent depth now (now + p_delay_ms n).

Lemma insert_node_Ok taken tree now n parent depth w u w' :
  (∀ w a w', taken w ≠ (Ok a, w')) →
  insert_node taken tree now n parent depth w = (Ok u, w') →
  jobs (w_db w) !! p_id n = None
  ∧ jobs (w_db w') = <[p_id n := node_row tree now parent depth n]> (jobs (w_db w))
  ∧ job_history (w_db w') = job_history (w_db w).
Proof.
  intros Htaken Hr. unfold insert_node in Hr.
  destruct (i64_checked_add _ _) as [av|] eqn:Hav; [|done].
  apply i64_checked_add_Some in Hav as [-> _].
  apply bind_Ok in Hr as (u1 & w1 & H1 & Hr). assert (w_db w1 = w_db w) as E1.
  { destruct (is_empty _); [by injection H1 as _ <-|].
    apply bind_Ok in H1 as (x & w1' & Hq & H1). apply map_err_Ok, query_Ok in Hq as [-> ->].
    destruct (enqueue_receipts _ !! _); [by apply Htaken in H1|]. by injection H1 as _ <-. }
  apply bind_Ok in Hr as (u2 & w2 & H2 & Hr).
  apply map_err_Ok, try_execute_Ok in H2 as (d2 & [Hn ->]%insert_job_Ok & ->).
  rewrite E1 in *. destruct (is_empty _); [by injection Hr as _ <-|].
  by apply map_err_Ok, try_execute_Ok in Hr as (d3 & [_ ->]%insert_receipt_Ok & ->).
Qed.

(** The rows of a list of nodes, each under a parent and a depth of its own. *)
Definition rows_written (row : PreparedNode → Job) (nodes : list PreparedNode) (d d' : Db)
  : Prop :=
  (∀ n, n ∈ nodes → jobs d !! p_id n = None ∧ jobs d' !! p_id n = Some (row n))
  ∧ (∀ id, id ∉ p_id <$> nodes → jobs d' !! id = jobs d !! id)
  ∧ job_history d' = job_history d.

Lemma insert_nodes_Ok {B} (f : PreparedNode → M Status B) row nodes w bs w' :
  (∀ n w b w', f n w = (Ok b, w') →
     jobs (w_db w) !! p_id n = None ∧ jobs (w_db w') = <[p_id n := row n]> (jobs (w_db w))
     ∧ job_history (w_db w') = job_history (w_db w)) →
  for_each f nodes w = (Ok bs, w') → rows_written row nodes (w_db w) (w_db w').
Proof.
  intros Hf. revert w bs. induction nodes as [|n nodes IH]; intros w bs Hr; simpl in Hr.
  - injection Hr as _ <-. split_and!; [by intros ? ?%not_elem_of_nil|done|done].
  - apply bind_Ok in Hr as (b & w1 & H1 & Hr). apply bind_Ok in Hr as (bs' & w2 & H2 & Hr).
    injection Hr as _ <-. apply Hf in H1 as (Hn & Hj & Hh). apply IH in H2 as (Hin & Hout & Hh2).
    assert (p_id n ∉ p_id <$> nodes) as Hfresh.
    { intros (m & Em & Hm)%list_elem_of_fmap. apply Hin in Hm as [Hm _].
      by rewrite Hj, <-Em, lookup_insert_eq in Hm. }
    split_and!; [| |congruence].
    + intros m [->|Hm]%elem_of_cons.
      { split; [done|]. by rewrite Hout, Hj, lookup_insert_eq. }
      destruct (Hin m Hm) as [Hm1 Hm2]. split; [|done].
      rewrite Hj, lookup_insert_ne in Hm1; [done|]. intros Heq.
      apply Hfresh, list_elem_of_fmap. eauto.
    + intros id. rewrite fmap_cons, not_elem_of_cons. intros [? ?].
      by rewrite Hout, Hj, lookup_insert_ne.
Qed.

(** The gauges move after the commit only. *)
Lemma prepare_node_meters (R : relation Metrics) `{!PreOrder R} t parent depth md mn st :
  meters R (prepare_node t parent depth md mn st).
Proof.
  revert parent depth st. induction t as [f cs IH] using FlowJob_tree_ind.
  intros parent depth st. simpl. apply meters_bind; [done|unfold prepare_one; meter_still|].
  intros [id st']. apply meters_fold_m; [done|]. intros st1 c Hc.
  rewrite list.Forall_forall in IH. by apply IH.
Qed.
Lemma or_rejected_still {A} (m : M Status A) :
  meters (still levels) m → meters (still levels) (or_rejected m).
Proof. intros Hm. unfold or_rejected. meter_still. Qed.
Lemma insert_node_still taken tree now n parent depth :
  meters (still levels) taken →
  meters (still levels) (insert_node taken tree now n parent depth).
Proof. intros Ht. unfold insert_node. meter_still. Qed.
Lemma insert_tree_still nodes now : meters (still levels) (insert_prepared_tree nodes now).
Proof. unfold insert_prepared_tree. meter_still. apply insert_node_still. meter_still. Qed.

Lemma flow_reject_Err {A} c m w (r : result Status A) w' :
  flow_reject c m w = (r, w') → ∃ e, r = Err e ∧ w_db w' = w_db w.
Proof. intros [= <- <-]. eauto. Qed.
Lemma flow_reject_never {A} c m w (a : A) w' : flow_reject c m w ≠ (Ok a, w').
Proof. unfold flow_reject. intros Hr. by inv_run Hr. Qed.

(** ** The shape of a tree *)

(** Only the root of a flattened tree carries the parent it was given. *)
Lemma flatten_roots t depth n :
  base.filter (λ x, p_parent_id x = None) (flatten t None depth n)
  = [hd (prepared_node (fields t) "" None 0 0) (flatten t None depth n)].
Proof.
  destruct t as [f cs]. simpl. rewrite list.filter_cons_True by done. f_equal.
  assert (∀ t p d n, base.filter (λ x, p_parent_id x = None) (flatten t (Some p) d n) = []) as Hin.
  { induction t as [f' cs' IH] using FlowJob_tree_ind. intros p d m. simpl.
    rewrite list.filter_cons_False by done. generalize (S m).
    induction IH as [|c cs' Hc _ IHcs]; intros k; simpl; [done|].
    by rewrite list.filter_app, Hc, IHcs. }
  generalize (S n). induction cs as [|c cs IH]; intros k; simpl; [done|].
  by rewrite list.filter_app, Hin, IH.
Qed.
Lemma flatten_all_roots depth cs n :
  length (base.filter (λ x, p_parent_id x = None)
            (flatten_all (λ c, flatten c None depth) cs n)) = length cs.
Proof.
  revert n. induction cs as [|c cs IH]; intros n; simpl; [done|].
  by rewrite list.filter_app, length_app, flatten_roots, IH.
Qed.
End FlowRows.

(** ** The handlers *)
Section FlowHandlers.
Context `{HE : Env, HU : !UuidLaw HE, HP : Prost}.

(** The nodes [nodes] are the tree [t] in pre-order, numbered from [n], under the limits
    [l]. *)
Record tree_shape (l : FlowLimits) (t : FlowJob) (n : nat) (nodes : list PreparedNode) : Prop := {
  ts_preorder : nodes = flatten t None 0 n;
  ts_size : length nodes = tree_size t ∧ Z.of_nat (tree_size t) ≤ max_flow_nodes l;
  ts_distinct : NoDup (p_id <$> nodes);
  ts_height : ∀ x, x ∈ nodes → p_depth x ≤ max_flow_depth l;
  ts_gates : ∀ x, x ∈ nodes → p_pending_children x = Z.of_nat (child_count (p_id x) nodes);
  ts_waiting : ∀ x, x ∈ nodes → (p_state x = WaitingChildren ↔ 0 < p_pending_children x);
}.

(** Preparation.  A tree that passes the checks is flattened in pre-order under fresh,
    pairwise distinct identifiers; it respects the caps on nodes and height; the gate of
    every node counts exactly its children in the tree, and a node waits for children
    exactly when it has some.  Preparing writes nothing. *)
Lemma flow_tree_shape l t w seen nodes w' :
  prepare_node t None 0 (max_flow_depth l) (max_flow_nodes l) (∅, []) w
    = (Ok (seen, nodes), w') →
  0 ≤ max_flow_nodes l ≤ u32_max →
  tree_shape l t (w_step w) nodes ∧ w_db w' = w_db w.
Proof.
  intros (-> & -> & Hok & Hcap)%prepare_node_Ok Hmax. simpl in *.
  rewrite list.Forall_forall in Hok. split; [|done]. split.
  - done.
  - split; [apply flatten_length|].
    rewrite <-(flatten_length t None 0 (w_step w)). apply Hcap. simpl. lia.
  - rewrite flatten_ids. apply NoDup_ids.
  - intros x Hx. by destruct (Hok x Hx).
  - by apply flatten_gates.
  - intros x Hx. destruct (Hok x Hx) as (_ & _ & _ & Hgate & _). rewrite <-Hgate.
    unfold has_children, is_state. by rewrite bool_decide_eq_true.
Qed.

Lemma tree_root_flatten t parent depth n : tree_root (flatten t parent depth n) = new_v4 n.
Proof. by destruct t. Qed.

(** The insertion of one prepared tree. *)
Lemma insert_tree_Ok t n now w x w' :
  let nodes := flatten t None 0 n in
  insert_prepared_tree nodes now w = (Ok x, w') →
  x = (waiting_nodes nodes, keyed_nodes nodes, mkFlowResp (new_v4 n) (flow_node <$> nodes))
  ∧ rows_written (λ x, node_row (new_v4 n) now (p_parent_id x) (p_depth x) x) nodes
      (w_db w) (w_db w').
Proof.
  simpl. intros Hr. unfold insert_prepared_tree in Hr. rewrite tree_root_flatten in Hr. apply bind_Ok in Hr as (us & w1 & H1 & Hr).
  injection Hr as <- <-. split; [done|]. eapply insert_nodes_Ok in H1; [exact H1|].
  intros y w2 u w3 H2. by apply insert_node_Ok in H2.
Qed.

(** The run of an accepted flow: the flattened tree, written, and the gauges moved for its
    nodes; a refused one changes neither. *)
Lemma add_flow_rows l t w r w' :
  add_flow l (Some t) w = (r, w') →
  let nodes := flatten t None 0 (w_step w) in
  let root := new_v4 (w_step w) in
  let now := clock (S (w_step w + tree_size t)) in
  match r with
  | Err _ => w_db w' = w_db w ∧ levels (w_metrics w') = levels (w_metrics w)
  | Ok resp =>
      resp = mkFlowResp root (flow_node <$> nodes)
      ∧ (∃ seen w1, prepare_node t None 0 (max_flow_depth l) (max_flow_nodes l) (∅, []) w
                    = (Ok (seen, nodes), w1))
      ∧ rows_written (λ n, node_row root now (p_parent_id n) (p_depth n) n) nodes
          (w_db w) (w_db w')
      ∧ (w_step w + tree_size t ≤ w_step w')%nat
      ∧ ∃ m, levels m = levels (w_metrics w)
             ∧ w_metrics w' = flush_tree_metrics nodes (waiting_nodes nodes) (keyed_nodes nodes) m
  end.
Proof.
  intros Hr. simpl. unfold add_flow in Hr. apply bind_inv in Hr as (r1 & w1 & H1 & Hr).
  destruct r1 as [[seen nodes]|e].
  2:{ destruct Hr as [-> ->]. split.
      - by apply (or_rejected_frame (same (λ d : Db, d)) _ (prepare_node_frame _ _ _ _ _ _ _))
          in H1 as [? _].
      - by apply (or_rejected_still _ (prepare_node_meters _ _ _ _ _ _ _)) in H1. }
  apply or_rejected_Ok in H1. pose proof H1 as Hprep.
  apply prepare_node_Ok in H1 as (-> & -> & _ & _). simpl in Hr.
  apply bind_inv in Hr as (r2 & w2 & H2 & Hr).
  assert (levels (w_metrics w2) = levels (w_metrics w)) as Hlev.
  { apply (meters_transaction (still levels)) in H2; [done|]. meter_still.
    apply insert_tree_still. }
  destruct r2 as [[[wt rc] resp]|e].
  2:{ destruct Hr as [-> ->]. by apply transaction_Err in H2. }
  injection Hr as <- <-.
  assert (keeps any (let? now := map_err internal now_ms in
    insert_prepared_tree (flatten t None 0 (w_step w)) now)) as Hk
    by (frame; apply insert_tree_frame).
  pose proof (keeps_transaction any internal _ Hk _ _ _ H2) as [_ Hle]. simpl in Hle.
  apply transaction_Ok in H2 as (w3 & H2 & ->).
  apply bind_Ok in H2 as (now & w4 & H4 & H2). apply map_err_Ok, now_ms_Ok in H4 as [-> ->].
  apply insert_tree_Ok in H2 as [[= -> -> ->] Hrows]. simpl in *.
  split_and!; [done|eauto|done|done|]. by exists (w_metrics w3).
Qed.

(** C23: an accepted flow is a well-formed tree, written whole; a refused one is not written
    at all.  The tree is flattened in pre-order under fresh, pairwise distinct identifiers
    and respects the caps on nodes and height; the gate of every node counts exactly its
    children, and a node waits for children exactly when it has some.  The rows are those of
    the flattened tree: every node under the identifier the response reports, with its
    parent, its depth and the root as its tree, and no other live or archived row
    changes. *)
Theorem add_flow_creates_tree l t w r w' :
  add_flow l (Some t) w = (r, w') → 0 ≤ max_flow_nodes l ≤ u32_max →
  let nodes := flatten t None 0 (w_step w) in
  let root := new_v4 (w_step w) in
  let now := clock (S (w_step w + tree_size t)) in
  match r with
  | Err _ => w_db w' = w_db w
  | Ok resp =>
      resp = mkFlowResp root (flow_node <$> nodes)
      ∧ tree_shape l t (w_step w) nodes
      ∧ rows_written (λ n, node_row root now (p_parent_id n) (p_depth n) n) nodes
          (w_db w) (w_db w')
  end.
Proof.
  intros Hr%add_flow_rows Hmax. destruct r as [resp|e]; [|by destruct Hr].
  destruct Hr as (-> & (seen & w1 & Hp) & Hrows & _).
  split; [done|]. split; [|done]. by apply (flow_tree_shape _ _ _ _ _ _ Hp).
Qed.

(** *** Many trees *)

(** The trees of a batch, numbered one after the other. *)
Fixpoint flat_trees (fs : list FlowJob) (n : nat) : list (list PreparedNode) :=
  match fs with
  | [] => []
  | t :: fs' => flatten t None 0 n :: flat_trees fs' (n + tree_size t)
  end.
(** Their rows, written one tree after the other. *)
Fixpoint trees_written (now : Z) (n : nat) (fs : list FlowJob) (d d' : Db) : Prop :=
  match fs with
  | [] => tables d' = tables d
  | t :: fs' =>
      ∃ d1, rows_written (λ x, node_row (new_v4 n) now (p_parent_id x) (p_depth x) x)
              (flatten t None 0 n) d d1
            ∧ trees_written now (n + tree_size t) fs' d1 d'
  end.
Definition tree_result (nodes : list PreparedNode) : nat * nat * AddFlowResponse :=
  (waiting_nodes nodes, keyed_nodes nodes, mkFlowResp (tree_root nodes) (flow_node <$> nodes)).

Lemma prepare_trees_flat l seen fs w trees w' :
  prepare_trees l seen fs w = (Ok trees, w') →
  w' = mkWorld (w_db w) (w_metrics w) (w_step w + sum_list_with tree_size fs)
  ∧ trees = flat_trees fs (w_step w)
  ∧ Forall (Forall (node_ok (max_flow_depth l))) trees.
Proof.
  revert seen w trees. induction fs as [|t fs IH]; intros seen w trees Hr; simpl in *.
  { injection Hr as <- <-. rewrite Nat.add_0_r. by destruct w. }
  apply bind_Ok in Hr as ([seen1 nodes] & w1 & H1 & Hr).
  apply prepare_node_Ok in H1 as (-> & -> & Hok & _).
  apply bind_Ok in Hr as (trees' & w2 & H2 & Hr). injection Hr as <- <-.
  apply IH in H2 as (-> & -> & Hall). simpl in *. split_and!; [|done|by constructor].
  by rewrite Nat.add_assoc.
Qed.
Lemma insert_trees_Ok fs n now w xs w' :
  for_each (λ nodes, insert_prepared_tree nodes now) (flat_trees fs n) w = (Ok xs, w') →
  xs = tree_result <$> flat_trees fs n ∧ trees_written now n fs (w_db w) (w_db w').
Proof.
  revert n w xs. induction fs as [|t fs IH]; intros n w xs Hr; simpl in *.
  { by injection Hr as <- <-. }
  apply bind_Ok in Hr as (x & w1 & H1 & Hr). apply insert_tree_Ok in H1 as [-> Hrows].
  apply bind_Ok in Hr as (xs' & w2 & H2 & Hr). injection Hr as <- <-.
  apply IH in H2 as [-> Hall]. split; [|by eauto].
  f_equal. unfold tree_result. by rewrite tree_root_flatten.
Qed.

(** The run of a batch of flows: every tree is written, or none. *)
Lemma add_flow_bulk_rows l fs w r w' :
  add_flow_bulk l fs w = (r, w') →
  let n := w_step w in
  let trees := flat_trees fs n in
  match r with
  | Err _ => w_db w' = w_db w ∧ levels (w_metrics w') = levels (w_metrics w)
  | Ok resps =>
      resps = (λ nodes, mkFlowResp (tree_root nodes) (flow_node <$> nodes)) <$> trees
      ∧ Forall (Forall (node_ok (max_flow_depth l))) trees
      ∧ (∃ now, trees_written now n fs (w_db w) (w_db w'))
      ∧ (n + sum_list_with tree_size fs ≤ w_step w')%nat
      ∧ ∃ m, levels m = levels (w_metrics w)
             ∧ w_metrics w' = foldl (λ m nodes, flush_tree_metrics nodes (waiting_nodes nodes)
                                                  (keyed_nodes nodes) m) m trees
  end.
Proof.
  intros Hr. simpl. unfold add_flow_bulk in Hr.
  destruct (decide _); [by injection Hr as <- <-|]. destruct (_ <? _); [by injection Hr as <- <-|].
  apply bind_inv in Hr as (r1 & w1 & H1 & Hr). destruct r1 as [trees|e].
  2:{ destruct Hr as [-> ->]. split.
      - by apply (or_rejected_frame (same (λ d : Db, d)) _ (prepare_trees_frame _ _ _ _))
          in H1 as [? _].
      - apply or_rejected_still in H1; [done|]. generalize (∅ : gset (string * string)).
        clear. induction fs as [|t fs IH]; intros seen; simpl; meter_still.
        apply prepare_node_meters, _. }
  apply or_rejected_Ok, prepare_trees_flat in H1 as (-> & -> & Hok). simpl in Hr.
  apply bind_inv in Hr as (r2 & w2 & H2 & Hr).
  assert (levels (w_metrics w2) = levels (w_metrics w)) as Hlev.
  { apply (meters_transaction (still levels)) in H2; [done|]. meter_still.
    apply insert_tree_still. }
  destruct r2 as [xs|e].
  2:{ destruct Hr as [-> ->]. by apply transaction_Err in H2. }
  injection Hr as <- <-.
  assert (keeps any (let? now := map_err internal now_ms in
    for_each (λ nodes, insert_prepared_tree nodes now) (flat_trees fs (w_step w)))) as Hk
    by (frame; apply insert_tree_frame).
  pose proof (keeps_transaction any internal _ Hk _ _ _ H2) as [_ Hle]. simpl in Hle.
  apply transaction_Ok in H2 as (w3 & H2 & ->).
  apply bind_Ok in H2 as (now & w4 & H4 & H2). apply map_err_Ok, now_ms_Ok in H4 as [-> ->].
  apply insert_trees_Ok in H2 as [-> Hrows]. simpl in *.
  split_and!; [by rewrite <-list_fmap_compose|done|eauto|done|].
  exists (w_metrics w3). split; [done|]. generalize (w_metrics w3) as m0. clear.
  induction (flat_trees fs (w_step w)) as [|ns trees IH]; intros m0; [done|]. simpl. apply IH.
Qed.

(** The new nodes of a merge, under the target or under their parent in the request. *)
Definition attached_row (target tree : string) (target_depth now : Z) (n : PreparedNode) : Job :=
  node_row tree now (Some (default target (p_parent_id n)))
    (wrap_u32 (wrap_u32 target_depth + p_depth n)) n.

Lemma attach_nodes_Ok target tree depth now nodes w bs w' :
  for_each (attach_node target tree depth now) nodes w = (Ok bs, w') →
  rows_written (attached_row target tree depth now) nodes (w_db w) (w_db w').
Proof.
  apply insert_nodes_Ok. intros n w1 b w2 H1. unfold attach_node in H1.
  apply bind_Ok in H1 as (u & w3 & H3 & H1). injection H1 as _ <-.
  apply insert_node_Ok in H3; [exact H3|]. intros. apply flow_reject_never.
Qed.

(** The target of a merge after it: the gate counts the new children and is closed. *)
Record regated (tree : string) (direct : Z) (t t' : Job) : Prop := {
  rg_state : j_state t' = WaitingChildren;
  rg_pending : j_pending_children t' = j_pending_children t + direct;
  rg_tree : j_tree_id t' = Some tree;
  rg_ident : job_ident t' = job_ident t;
}.

Lemma regate_Ok direct tree id t w w1 w2 :
  dormant (j_state t) = true → j_tree_id t = Some tree → jobs (w_db w) !! id = Some t →
  stmt (λ n d, Ok (tt, update_job (add_pending direct (clock n)) id d)) w = (Ok tt, w1) →
  (if runnable (j_state t)
   then map_err internal (stmt (λ n d, Ok (tt, update_job (regate_row (clock n)) id d)))
   else mret tt) w1 = (Ok tt, w2) →
  ∃ t', jobs (w_db w2) = <[id := t']> (jobs (w_db w)) ∧ regated tree direct t t'
        ∧ job_history (w_db w2) = job_history (w_db w).
Proof.
  intros Hdor Htr Hj H1 H2. apply stmt_Ok in H1 as (d1 & _ & [= <-] & ->).
  destruct (runnable (j_state t)) eqn:Hrun.
  - apply map_err_Ok, stmt_Ok in H2 as (d2 & _ & [= <-] & ->). simpl.
    rewrite (alter_Some _ (jobs (w_db w)) _ t) by done.
    rewrite (alter_Some _ _ _ (add_pending direct (clock (w_step w)) t))
      by apply lookup_insert_eq.
    rewrite insert_insert_eq. by eexists.
  - injection H2 as <-. simpl. rewrite (alter_Some _ _ _ t) by done.
    eexists. split_and!; [done| |done]. split; try done. simpl.
    revert Hdor Hrun. by destruct (j_state t).
Qed.

Lemma merge_body_Ok l name key nodes w id t att w' :
  merge_body l name key nodes w = (Ok (id, t, att), w') →
  let tree := default id (j_tree_id t) in
  let direct := Z.of_nat (length (base.filter (λ n, p_parent_id n = None) nodes)) in
  let now := clock (w_step w) in
  rc_job_id <$> enqueue_receipts (w_db w) !! (name, key) = Some id
  ∧ jobs (w_db w) !! id = Some t ∧ dormant (j_state t) = true
  ∧ ∃ t', regated tree direct t t'
    ∧ rows_written (attached_row id tree (j_tree_depth t) now) nodes
        (w_db w <| jobs ::= insert id t' |>) (w_db w').
Proof.
  intros Hr. simpl. unfold merge_body in Hr.
  apply bind_Ok in Hr as (now & w1 & H1 & Hr). apply map_err_Ok, now_ms_Ok in H1 as [-> ->].
  apply bind_Ok in Hr as ([id' t1] & w2 & H2 & Hr).
  apply merge_target_Ok in H2 as (Hj & Hdor & Hdb2 & _ & Hrc). simpl in *.
  apply bind_Ok in Hr as (u3 & w3 & H3 & Hr).
  set (tree := default id' (j_tree_id t1)) in *.
  assert (∃ t3, jobs (w_db w3) = <[id' := t3]> (jobs (w_db w)) ∧ j_tree_id t3 = Some tree
    ∧ j_state t3 = j_state t1 ∧ j_pending_children t3 = j_pending_children t1
    ∧ job_ident t3 = job_ident t1 ∧ job_history (w_db w3) = job_history (w_db w))
    as (t3 & Hj3 & Htr3 & Hst3 & Hp3 & Hid3 & Hh3).
  { unfold tree. destruct (j_tree_id t1) as [tr|] eqn:Htr.
    - injection H3 as _ <-. exists t1. rewrite Hdb2, insert_id by done. by split_and!.
    - apply map_err_Ok, execute_Ok in H3 as ->. exists (adopt_row id' t1). simpl.
      rewrite Hdb2, (alter_Some _ _ _ t1) by done. by split_and!. }
  apply bind_Ok in Hr as (u4 & w4 & H4 & Hr).
  apply (merge_caps_frame (same (λ d : Db, d))) in H4 as [E4 _]. unfold same in E4.
  apply bind_Ok in Hr as (att' & w5 & H5 & Hr). apply attach_nodes_Ok in H5 as (Hin & Hout & Hh5).
  rewrite E4 in *. clear E4 w4.
  assert (id' ∉ p_id <$> nodes) as Hfresh.
  { intros (n & -> & Hn)%list_elem_of_fmap. apply Hin in Hn as [Hn _].
    by rewrite Hj3, lookup_insert_eq in Hn. }
  apply bind_Ok in Hr as ([] & w6 & H6 & Hr). apply map_err_Ok in H6.
  apply bind_Ok in Hr as ([] & w7 & H7 & Hr). injection Hr as <- <- _ <-.
  rewrite <-Hst3 in Hdor, H7.
  assert (jobs (w_db w5) !! id' = Some t3) as Hj5 by (by rewrite Hout, Hj3, lookup_insert_eq).
  destruct (regate_Ok _ _ _ _ _ _ _ Hdor Htr3 Hj5 H6 H7) as (t' & Hj7 & [G1 G2 G3 G4] & Hh7).
  rewrite Hst3 in Hdor.
  split_and!; [done..|]. exists t'.
  split; [split; [done|by rewrite G2, Hp3|done|by rewrite G4, Hid3]|].
  split_and!; simpl; [| |congruence].
  - intros n Hn. destruct (Hin n Hn) as [Hn1 Hn2].
    assert (id' ≠ p_id n) by (intros ->; apply Hfresh, list_elem_of_fmap; eauto).
    rewrite Hj3, lookup_insert_ne in Hn1 by done.
    rewrite Hj7, !lookup_insert_ne by done. done.
  - intros i Hi. rewrite Hj7. destruct (decide (id' = i)) as [<-|Hne].
    { by rewrite !lookup_insert_eq. }
    rewrite !lookup_insert_ne, Hout, Hj3, lookup_insert_ne by done. done.
Qed.

Lemma merge_body_still l name key nodes : meters (still levels) (merge_body l name key nodes).
Proof.
  unfold merge_body, merge_target, merge_caps, attach_node, flow_reject. meter_still.
  apply insert_node_still. meter_still.
Qed.

(** The run of a merge: the new nodes hang below the target, whose gate is closed. *)
Lemma add_flow_merge_rows l f cs w r w' :
  add_flow_merge l (Some (mkFlow f cs)) w = (r, w') →
  let nodes := flatten_all (λ c, flatten c None 1) cs (w_step w) in
  let now := clock (S (w_step w + sum_list_with tree_size cs)) in
  match r with
  | Err _ => w_db w' = w_db w ∧ levels (w_metrics w') = levels (w_metrics w)
  | Ok resp =>
      let id := mr_parent_id resp in
      cs ≠ []
      ∧ Forall (node_ok u32_max) nodes
      ∧ rc_job_id <$> enqueue_receipts (w_db w) !! (fj_name f, fj_idempotency_key f) = Some id
      ∧ (w_step w + sum_list_with tree_size cs ≤ w_step w')%nat
      ∧ ∃ t t', jobs (w_db w) !! id = Some t ∧ dormant (j_state t) = true
        ∧ regated (default id (j_tree_id t)) (Z.of_nat (length cs)) t t'
        ∧ rows_written (attached_row id (default id (j_tree_id t)) (j_tree_depth t) now) nodes
            (w_db w <| jobs ::= insert id t' |>) (w_db w')
        ∧ ∃ m, levels m = levels (w_metrics w) ∧ w_metrics w' = merge_metrics nodes (j_state t) m
  end.
Proof.
  intros Hr. simpl. unfold add_flow_merge in Hr.
  destruct (is_empty _); [by injection Hr as <- <-|].
  destruct (decide _) as [|Hne]; [by injection Hr as <- <-|].
  apply bind_inv in Hr as (r1 & w1 & H1 & Hr). destruct r1 as [[seen nodes]|e].
  2:{ destruct Hr as [-> ->]. split.
      - eapply (or_rejected_frame (same (λ d : Db, d))) in H1 as [? _]; [done|].
        frame. apply prepare_node_frame, _.
      - apply or_rejected_still in H1; [done|]. meter_still. apply prepare_node_meters, _. }
  apply or_rejected_Ok, fold_prepare_Ok in H1 as (-> & -> & Hok & _).
  2:{ apply list.Forall_forall. intros t _ seen0 out0 w0 seen1 out1 w0' H0.
      by eapply prepare_node_Ok. }
  simpl in Hr. apply bind_inv in Hr as (r2 & w2 & H2 & Hr).
  assert (levels (w_metrics w2) = levels (w_metrics w)) as Hlev.
  { apply (meters_transaction (still levels)) in H2; [done|]. apply merge_body_still. }
  destruct r2 as [[[id t] att]|e].
  2:{ destruct Hr as [-> ->]. by apply transaction_Err in H2. }
  injection Hr as <- <-.
  pose proof (keeps_transaction any internal _ (merge_body_frame _ _ _ _) _ _ _ H2) as [_ Hle].
  simpl in Hle. apply transaction_Ok in H2 as (w3 & H2 & ->).
  apply merge_body_Ok in H2 as (Hrc & Hj & Hdor & t' & Hg & Hrows). simpl in *.
  rewrite flatten_all_roots in Hg. split_and!; try done.
  exists t, t'. split_and!; try done. by exists (w_metrics w3).
Qed.

(** C24: a merge attaches all new nodes or none.  The target is the live, not running job
    that the key names; afterwards it waits for its children, its gate counts one more for
    every direct child of the request, and what it is has not changed.  The new nodes hang
    below it or below their parent in the request, in its tree; no other row changes. *)
Theorem add_flow_merge_attaches l f cs w r w' :
  add_flow_merge l (Some (mkFlow f cs)) w = (r, w') →
  let nodes := flatten_all (λ c, flatten c None 1) cs (w_step w) in
  let now := clock (S (w_step w + sum_list_with tree_size cs)) in
  match r with
  | Err _ => w_db w' = w_db w
  | Ok resp =>
      let id := mr_parent_id resp in
      rc_job_id <$> enqueue_receipts (w_db w) !! (fj_name f, fj_idempotency_key f) = Some id
      ∧ ∃ t t', jobs (w_db w) !! id = Some t ∧ dormant (j_state t) = true
        ∧ regated (default id (j_tree_id t)) (Z.of_nat (length cs)) t t'
        ∧ rows_written (attached_row id (default id (j_tree_id t)) (j_tree_depth t) now) nodes
            (w_db w <| jobs ::= insert id t' |>) (w_db w')
  end.
Proof.
  intros Hr%add_flow_merge_rows. destruct r as [resp|e]; [|by destruct Hr].
  destruct Hr as (_ & _ & ? & _ & t & t' & ? & ? & ? & ? & _). eauto 10.
Qed.
End FlowHandlers.
