(* ===== verification/Retention.v ===== *)
(** * Retention (src/retention.rs)

    The configuration of the sweeper and one sweep pass.  Every dimension deletes at most
    one batch of rows, chosen by the database in the order the statement asks for; rows that
    the statement does not order come in the order [scan] of the environment. *)
From Stdlib Require Import Ascii String.
From S2P Require Import Prelude Text Query F64 Scheduling Db Pressure Telemetry Broker.
From S2P Require Import Lifecycle Leases Claim.
Local Open Scope string_scope.
Local Open Scope Z_scope.

(** ** Configuration *)
Definition MIN_AGE_MS : Z := LEASE_DURATION_MS * 2.

Record RetentionConfig := mkRetention {
  completed_age_ms : Z;
  completed_count : Z;
  failed_age_ms : Z;
  failed_count : Z;
  interval_ms : Z;
  batch : Z;
  chain_counter_ttl_ms : Z;
  facet_dispatch_ttl_ms : Z;
  rejections_age_ms : Z;
  min_age_ms : Z;
}.
Definition default_retention : RetentionConfig :=
  mkRetention 86400000 1000 604800000 0 60000 1000 604800000 604800000 604800000 MIN_AGE_MS.

(** Why a configuration is refused, with what the message prints. *)
Inductive ConfigError :=
| NotAnInteger (key value : string)
| BelowFloor (key : string) (age floor : Z)
| MustBeNonNegative (key : string) (value : Z)
| MustBePositive (key : string) (value : Z).

Section FromEnv.
(** [std::env::var] of a variable that is absent or valid UTF-8 *)
Context (var : string → option string).

Definition env_i64 (key : string) (dflt : Z) : result ConfigError Z :=
  match var key with
  | None => Ok dflt
  | Some value =>
      match parse_i64 (trim value) with
      | Some n => Ok n
      | None => Err (NotAnInteger key value)
      end
  end.

Definition check_age (floor : Z) (key : string) (age : Z) : result ConfigError unit :=
  if negb (age =? 0) && (age <? floor) then Err (BelowFloor key age floor) else Ok tt.
Definition check_non_negative (key : string) (n : Z) : result ConfigError unit :=
  if n <? 0 then Err (MustBeNonNegative key n) else Ok tt.

Definition validate (c : RetentionConfig) : result ConfigError unit :=
  check_age (min_age_ms c) "ANVILMQ_RETENTION_COMPLETED_AGE_MS" (completed_age_ms c) ≫= λ _,
  check_age (min_age_ms c) "ANVILMQ_RETENTION_FAILED_AGE_MS" (failed_age_ms c) ≫= λ _,
  check_non_negative "ANVILMQ_RETENTION_COMPLETED_COUNT" (completed_count c) ≫= λ _,
  check_non_negative "ANVILMQ_RETENTION_FAILED_COUNT" (failed_count c) ≫= λ _,
  (if batch c <=? 0 then Err (MustBePositive "ANVILMQ_RETENTION_BATCH" (batch c))
   else Ok tt) ≫= λ _,
  (if interval_ms c =? 0
   then Err (MustBePositive "ANVILMQ_RETENTION_INTERVAL_MS" (interval_ms c))
   else Ok tt) ≫= λ _,
  check_non_negative "ANVILMQ_MAX_CHAIN_COUNTER_TTL_MS" (chain_counter_ttl_ms c) ≫= λ _,
  check_non_negative "ANVILMQ_FACET_DISPATCH_TTL_MS" (facet_dispatch_ttl_ms c) ≫= λ _,
  check_non_negative "ANVILMQ_RETENTION_REJECTIONS_AGE_MS" (rejections_age_ms c).

(** [try_into::<u64>()] *)
Definition to_u64 (key : string) (n : Z) : result ConfigError Z :=
  if n <? 0 then Err (MustBeNonNegative key n) else Ok n.

Definition from_env (lease_duration : Z) : result ConfigError RetentionConfig :=
  let d := default_retention in
  env_i64 "ANVILMQ_RETENTION_COMPLETED_AGE_MS" (completed_age_ms d) ≫= λ ca,
  env_i64 "ANVILMQ_RETENTION_COMPLETED_COUNT" (completed_count d) ≫= λ cc,
  env_i64 "ANVILMQ_RETENTION_FAILED_AGE_MS" (failed_age_ms d) ≫= λ fa,
  env_i64 "ANVILMQ_RETENTION_FAILED_COUNT" (failed_count d) ≫= λ fc,
  env_i64 "ANVILMQ_RETENTION_INTERVAL_MS" (interval_ms d) ≫= λ iv,
  to_u64 "ANVILMQ_RETENTION_INTERVAL_MS" iv ≫= λ iv,
  env_i64 "ANVILMQ_RETENTION_BATCH" (batch d) ≫= λ b,
  env_i64 "ANVILMQ_MAX_CHAIN_COUNTER_TTL_MS" (chain_counter_ttl_ms d) ≫= λ cct,
  env_i64 "ANVILMQ_FACET_DISPATCH_TTL_MS" (facet_dispatch_ttl_ms d) ≫= λ fdt,
  env_i64 "ANVILMQ_RETENTION_REJECTIONS_AGE_MS" (rejections_age_ms d) ≫= λ ra,
  let cfg := mkRetention ca cc fa fc iv b cct fdt ra (i64_saturating_mul lease_duration 2) in
  validate cfg ≫= λ _, Ok cfg.
End FromEnv.

Definition enabled (c : RetentionConfig) : bool :=
  (0 <? completed_age_ms c) || (0 <? completed_count c) || (0 <? failed_age_ms c)
  || (0 <? failed_count c) || (0 <? chain_counter_ttl_ms c) || (0 <? facet_dispatch_ttl_ms c)
  || (0 <? rejections_age_ms c).

(** ** Pruning *)
Record SweepOutcome := mkSweep {
  o_completed_age : nat;
  o_completed_count : nat;
  o_failed_age : nat;
  o_failed_count : nat;
  o_receipts : nat;
  o_chain_counters : nat;
  o_facet_dispatch : nat;
  o_rejections : nat;
}.
Definition total (o : SweepOutcome) : nat :=
  o_completed_age o + o_completed_count o + o_failed_age o + o_failed_count o + o_receipts o
  + o_chain_counters o + o_facet_dispatch o + o_rejections o.

(** [ORDER BY age ASC LIMIT n] over the rows in the order they were visited *)
Definition oldest {K A} (age : A → Z) (n : Z) (rows : list (K * A)) : list K :=
  (sql_limit n (order_by (λ r : K * A, ([age r.2], "")) rows)).*1.

Definition aged (state : JobState) (cutoff : Z) (id : string) (h : HistRow) : bool :=
  is_state (h_state h) state && (h_finished_at h <? cutoff).

(** [ROW_NUMBER() OVER (PARTITION BY name ORDER BY finished_at DESC, id DESC)]: the rows of
    the partition that do not come after this one. *)
Definition finish_key (r : string * HistRow) : Key := ([h_finished_at r.2], r.1).
Definition row_number (rows : list (string * HistRow)) (r : string * HistRow) : nat :=
  length (base.filter (λ r', h_name r'.2 = h_name r.2 ∧ key_le (finish_key r) (finish_key r'))
            rows).
Definition state_rows (state : JobState) (d : Db) : list (string * HistRow) :=
  rows_where (λ _ h, is_state (h_state h) state) (job_history d).
Definition overflow (state : JobState) (keep : Z) (d : Db) : list (string * HistRow) :=
  base.filter (λ r, keep < Z.of_nat (row_number (state_rows state d) r)) (state_rows state d).

Definition orphan (d : Db) (k : string * string) (r : Receipt) : bool :=
  bool_decide (jobs d !! rc_job_id r = None)
  && bool_decide (job_history d !! rc_job_id r = None).

Definition idle_facet (cutoff : Z) (d : Db) (f : string) (r : FacetRow) : bool :=
  (fd_last_served_at r <? cutoff)
  && bool_decide (rows_where (λ _ j, String.eqb (facet_key j) f) (jobs d) = []).

Section Sweep.
Context `{Env}.

Definition prune_age (state : JobState) (cutoff n : Z) : M SqlError nat :=
  stmt (λ k d,
    let ids := oldest h_finished_at n
                 (scan k _ (rows_where (aged state cutoff) (job_history d))) in
    Ok (length ids, d <| job_history ::= delete_keys ids |>)).

Definition prune_count (state : JobState) (keep n : Z) : M SqlError nat :=
  stmt (λ k d,
    let ids := (sql_limit n (scan k _ (overflow state keep d))).*1 in
    Ok (length ids, d <| job_history ::= delete_keys ids |>)).

Definition prune_receipts (n : Z) : M SqlError nat :=
  stmt (λ k d,
    let ids := (sql_limit n (scan k _ (rows_where (orphan d) (enqueue_receipts d)))).*1 in
    Ok (length ids, d <| enqueue_receipts ::= delete_keys ids |>)).

Definition prune_chain_counters (cutoff n : Z) : M SqlError nat :=
  stmt (λ k d,
    let ids := oldest cc_updated_at n
                 (scan k _ (rows_where (λ _ c, cc_updated_at c <? cutoff)
                              (chain_counters d))) in
    Ok (length ids, d <| chain_counters ::= delete_keys ids |>)).

Definition prune_facet_dispatch (cutoff n : Z) : M SqlError nat :=
  stmt (λ k d,
    let ids := oldest fd_last_served_at n
                 (scan k _ (rows_where (idle_facet cutoff d) (facet_dispatch d))) in
    Ok (length ids, d <| facet_dispatch ::= delete_keys ids |>)).

Definition prune_rejections (cutoff n : Z) : M SqlError nat :=
  stmt (λ k d,
    let ids := oldest rj_rejected_at n
                 (scan k _ (rows_where (λ _ r, rj_rejected_at r <? cutoff)
                              (enqueue_rejections d))) in
    Ok (length ids, d <| enqueue_rejections ::= delete_keys ids |>)).

Definition when (b : bool) (m : M SqlError nat) : M SqlError nat :=
  if b then m else mret 0%nat.

Definition sweep_body (cfg : RetentionConfig) : M SqlError SweepOutcome :=
  let? now := now_ms in
  let? ca := when (0 <? completed_age_ms cfg)
    (prune_age Completed (i64_saturating_sub now (completed_age_ms cfg)) (batch cfg)) in
  let? fa := when (0 <? failed_age_ms cfg)
    (prune_age Failed (i64_saturating_sub now (failed_age_ms cfg)) (batch cfg)) in
  let? cc := when (0 <? completed_count cfg)
    (prune_count Completed (completed_count cfg) (batch cfg)) in
  let? fc := when (0 <? failed_count cfg)
    (prune_count Failed (failed_count cfg) (batch cfg)) in
  let? rc := prune_receipts (batch cfg) in
  let? ch := when (0 <? chain_counter_ttl_ms cfg)
    (prune_chain_counters (i64_saturating_sub now (chain_counter_ttl_ms cfg)) (batch cfg)) in
  let? fd := when (0 <? facet_dispatch_ttl_ms cfg)
    (prune_facet_dispatch (i64_saturating_sub now (facet_dispatch_ttl_ms cfg)) (batch cfg)) in
  let? rj := when (0 <? rejections_age_ms cfg)
    (prune_rejections (i64_saturating_sub now (rejections_age_ms cfg)) (batch cfg)) in
  mret (mkSweep ca cc fa fc rc ch fd rj).

Definition sweep_metrics (o : SweepOutcome) (m : Metrics) : Metrics :=
  let m := retention_deleted "completed" "age" (Z.of_nat (o_completed_age o)) m in
  let m := retention_deleted "completed" "count" (Z.of_nat (o_completed_count o)) m in
  let m := retention_deleted "failed" "age" (Z.of_nat (o_failed_age o)) m in
  let m := retention_deleted "failed" "count" (Z.of_nat (o_failed_count o)) m in
  let m := retention_deleted "receipt" "orphan" (Z.of_nat (o_receipts o)) m in
  let m := chain_counters_pruned (Z.of_nat (o_chain_counters o)) m in
  let m := facet_dispatch_pruned (Z.of_nat (o_facet_dispatch o)) m in
  rejections_pruned (Z.of_nat (o_rejections o)) m.

Definition sweep_blocking (cfg : RetentionConfig) : M SqlError SweepOutcome :=
  let? o := transaction id (sweep_body cfg) in
  do? metric (sweep_metrics o) in
  mret o.

(** [sweep] maps a failure to a status. *)
Definition sweep (cfg : RetentionConfig) : M Status SweepOutcome :=
  map_err internal (sweep_blocking cfg).
End Sweep.

(** ** Which rows a statement deletes *)
Lemma elem_of_oldest {K A} (age : A → Z) n (rows : list (K * A)) k :
  k ∈ oldest age n rows → ∃ a, (k, a) ∈ rows.
Proof.
  unfold oldest. intros ([k' a] & -> & Hin)%list_elem_of_fmap.
  apply elem_of_sql_limit, elem_of_order_by in Hin. eauto.
Qed.
Lemma length_oldest {K A} (age : A → Z) n (rows : list (K * A)) :
  0 ≤ n → Z.of_nat (length (oldest age n rows)) ≤ n.
Proof. intros. unfold oldest. rewrite length_fmap, length_sql_limit by done. lia. Qed.
Lemma elem_of_limit_fst {K A} n (rows : list (K * A)) k :
  k ∈ (sql_limit n rows).*1 → ∃ a, (k, a) ∈ rows.
Proof. intros ([k' a] & -> & Hin%elem_of_sql_limit)%list_elem_of_fmap. eauto. Qed.
Lemma length_limit_fst {K A} n (rows : list (K * A)) :
  0 ≤ n → Z.of_nat (length (sql_limit n rows).*1) ≤ n.
Proof. intros. rewrite length_fmap, length_sql_limit by done. lia. Qed.

(** [m'] is [m] without some of the rows of which [Q] holds. *)
Definition pruned {K A} `{Countable K} (Q : K → A → Prop) (m m' : gmap K A) : Prop :=
  ∀ k, m' !! k = m !! k ∨ (m' !! k = None ∧ ∃ a, m !! k = Some a ∧ Q k a).

Lemma pruned_refl {K A} `{Countable K} (Q : K → A → Prop) m : pruned Q m m.
Proof. by left. Qed.
Lemma pruned_weaken {K A} `{Countable K} (Q Q' : K → A → Prop) m m' :
  (∀ k a, m !! k = Some a → Q k a → Q' k a) → pruned Q m m' → pruned Q' m m'.
Proof. intros HQ Hp k. destruct (Hp k) as [?|(? & a & ? & ?)]; [by left|right]. eauto. Qed.
Lemma pruned_trans {K A} `{Countable K} (Q : K → A → Prop) m1 m2 m3 :
  pruned Q m1 m2 → pruned Q m2 m3 → pruned Q m1 m3.
Proof.
  intros H12 H23 k. destruct (H12 k) as [E1|(E1 & a & Ha & HQ)].
  - destruct (H23 k) as [E2|(E2 & a & Ha & HQ)]; [left; congruence|right]. rewrite E1 in Ha. eauto.
  - right. destruct (H23 k) as [E2|(E2 & a' & Ha' & HQ')]; [|congruence]. rewrite E2. eauto.
Qed.
Lemma pruned_subseteq {K A} `{Countable K} (Q : K → A → Prop) m m' :
  pruned Q m m' → m' ⊆ m.
Proof.
  intros Hp. apply map_subseteq_spec. intros k a Hk.
  destruct (Hp k) as [E|(E & _)]; congruence.
Qed.
Lemma pruned_delete_keys {K A} `{Countable K} (Q : K → A → Prop) ks (m : gmap K A) :
  (∀ k, k ∈ ks → ∃ a, m !! k = Some a ∧ Q k a) → pruned Q m (delete_keys ks m).
Proof.
  intros Hks k. rewrite lookup_delete_keys. case_decide as Hin; [right|by left]. auto.
Qed.

Lemma row_number_mono (rows rows' : list (string * HistRow)) r :
  NoDup rows → (∀ x, x ∈ rows → x ∈ rows') → (row_number rows r ≤ row_number rows' r)%nat.
Proof.
  intros Hnd Hsub. apply submseteq_length, NoDup_submseteq; [by apply list.NoDup_filter|].
  intros x. rewrite !list_elem_of_filter. naive_solver.
Qed.
Lemma state_rows_NoDup state d : NoDup (state_rows state d).
Proof. eapply NoDup_fmap_1, rows_where_NoDup. Qed.
Lemma elem_of_state_rows state d id h :
  (id, h) ∈ state_rows state d ↔ job_history d !! id = Some h ∧ h_state h = state.
Proof.
  unfold state_rows, is_state. by rewrite elem_of_rows_where, bool_decide_eq_true.
Qed.

(** The policy: what a sweep at [now] over [d] may remove from the archive. *)
Definition over_age (cfg : RetentionConfig) (now : Z) (h : HistRow) : Prop :=
  match h_state h with
  | Completed => 0 < completed_age_ms cfg
                 ∧ h_finished_at h < i64_saturating_sub now (completed_age_ms cfg)
  | Failed => 0 < failed_age_ms cfg
              ∧ h_finished_at h < i64_saturating_sub now (failed_age_ms cfg)
  | _ => False
  end.
Definition over_count (cfg : RetentionConfig) (d : Db) (id : string) (h : HistRow) : Prop :=
  let rank := Z.of_nat (row_number (state_rows (h_state h) d) (id, h)) in
  match h_state h with
  | Completed => 0 < completed_count cfg < rank
  | Failed => 0 < failed_count cfg < rank
  | _ => False
  end.
Definition removable (cfg : RetentionConfig) (now : Z) (d : Db) (id : string) (h : HistRow)
  : Prop := over_age cfg now h ∨ over_count cfg d id h.

Lemma over_count_mono cfg d d' id h :
  job_history d' ⊆ job_history d → over_count cfg d' id h → over_count cfg d id h.
Proof.
  intros Hsub. unfold over_count.
  assert (row_number (state_rows (h_state h) d') (id, h)
          ≤ row_number (state_rows (h_state h) d) (id, h))%nat.
  { apply row_number_mono; [apply state_rows_NoDup|]. intros [i x].
    rewrite !elem_of_state_rows. intros [? ?]. split; [|done]. by eapply lookup_weaken. }
  destruct (h_state h); lia.
Qed.

Section SweepRuns.
Context `{HE : Env, HS : !ScanLaw HE}.

(** The parts of the database a prune of the archive leaves alone. *)
Definition but_history (d : Db) :=
  (jobs d, enqueue_receipts d, chain_counters d, facet_dispatch d, enqueue_rejections d,
   rate_limit_rules d, rate_limit_counters d, job_schedulers d).

Lemma prune_age_Ok state cutoff n w k w' :
  prune_age state cutoff n w = (Ok k, w') →
  but_history (w_db w') = but_history (w_db w)
  ∧ pruned (λ _ h, h_state h = state ∧ h_finished_at h < cutoff)
      (job_history (w_db w)) (job_history (w_db w'))
  ∧ (0 ≤ n → Z.of_nat k ≤ n).
Proof.
  intros (d & _ & [= <- <-] & ->)%stmt_Ok. simpl. split_and!; [done| |apply length_oldest].
  apply pruned_delete_keys. intros id (h & Hin)%elem_of_oldest.
  rewrite scan_perm in Hin. apply elem_of_rows_where in Hin as [Hh [Hs Hf]%andb_true_iff].
  exists h. apply bool_decide_eq_true in Hs. apply Z.ltb_lt in Hf. done.
Qed.

Lemma prune_count_Ok state keep n w k w' :
  prune_count state keep n w = (Ok k, w') →
  but_history (w_db w') = but_history (w_db w)
  ∧ pruned (λ id h, h_state h = state
              ∧ keep < Z.of_nat (row_number (state_rows state (w_db w)) (id, h)))
      (job_history (w_db w)) (job_history (w_db w'))
  ∧ (0 ≤ n → Z.of_nat k ≤ n).
Proof.
  intros (d & _ & [= <- <-] & ->)%stmt_Ok. simpl. split_and!; [done| |apply length_limit_fst].
  apply pruned_delete_keys. intros id (h & Hin)%elem_of_limit_fst.
  rewrite scan_perm in Hin. unfold overflow in Hin. apply list_elem_of_filter in Hin as [Hr Hin].
  apply elem_of_state_rows in Hin as [Hh Hs]. eauto.
Qed.

Lemma prune_receipts_Ok n w k w' :
  prune_receipts n w = (Ok k, w') →
  tables (w_db w') = tables (w_db w)
  ∧ pruned (λ _ r, jobs (w_db w) !! rc_job_id r = None
                   ∧ job_history (w_db w) !! rc_job_id r = None)
      (enqueue_receipts (w_db w)) (enqueue_receipts (w_db w'))
  ∧ (0 ≤ n → Z.of_nat k ≤ n).
Proof.
  intros (d & _ & [= <- <-] & ->)%stmt_Ok. simpl. split_and!; [done| |apply length_limit_fst].
  apply pruned_delete_keys. intros id (h & Hin)%elem_of_limit_fst.
  rewrite scan_perm in Hin. apply elem_of_rows_where in Hin as [Hh Ho%andb_true_iff].
  rewrite !bool_decide_eq_true in Ho. eauto.
Qed.

(** The other tables are beside the jobs, the archive and the receipts. *)
Definition jhr (d : Db) := (tables d, enqueue_receipts d).
Lemma prune_chain_frame cutoff n : keeps (same jhr) (prune_chain_counters cutoff n).
Proof. unfold prune_chain_counters. frame. by injection H as <- <-. Qed.
Lemma prune_facet_frame cutoff n : keeps (same jhr) (prune_facet_dispatch cutoff n).
Proof. unfold prune_facet_dispatch. frame. by injection H as <- <-. Qed.
Lemma prune_rejections_frame cutoff n : keeps (same jhr) (prune_rejections cutoff n).
Proof. unfold prune_rejections. frame. by injection H as <- <-. Qed.
Lemma when_frame (D : relation Db) `{!PreOrder D} b m : keeps D m → keeps D (when b m).
Proof. intros. destruct b; [done|]. unfold when. frame. Qed.

Lemma pruned_bound_chain cutoff n w k w' :
  prune_chain_counters cutoff n w = (Ok k, w') → 0 ≤ n → Z.of_nat k ≤ n.
Proof. intros (d & _ & [= <- <-] & ->)%stmt_Ok ?. by apply length_oldest. Qed.
Lemma pruned_bound_facet cutoff n w k w' :
  prune_facet_dispatch cutoff n w = (Ok k, w') → 0 ≤ n → Z.of_nat k ≤ n.
Proof. intros (d & _ & [= <- <-] & ->)%stmt_Ok ?. by apply length_oldest. Qed.
Lemma pruned_bound_rejections cutoff n w k w' :
  prune_rejections cutoff n w = (Ok k, w') → 0 ≤ n → Z.of_nat k ≤ n.
Proof. intros (d & _ & [= <- <-] & ->)%stmt_Ok ?. by apply length_oldest. Qed.
Lemma when_bound b m w k w' n :
  when b m w = (Ok k, w') → (m w = (Ok k, w') → Z.of_nat k ≤ n) → 0 ≤ n → Z.of_nat k ≤ n.
Proof. unfold when. destruct b; [auto|]. intros [= <- <-]. lia. Qed.

(** The archive phase of a sweep that started on [d0]. *)
Record archive_phase (cfg : RetentionConfig) (now : Z) (d0 d : Db) : Prop := {
  ap_jobs : jobs d = jobs d0;
  ap_receipts : enqueue_receipts d = enqueue_receipts d0;
  ap_history : pruned (removable cfg now d0) (job_history d0) (job_history d);
}.

Lemma phase_age cfg now d0 b st cutoff n w k w' :
  when b (prune_age st cutoff n) w = (Ok k, w') →
  (b = true → ∀ h, h_state h = st → h_finished_at h < cutoff → over_age cfg now h) →
  archive_phase cfg now d0 (w_db w) → archive_phase cfg now d0 (w_db w').
Proof.
  unfold when. intros Hr Hpol [Hj Hrc Hh]. destruct b; [|by injection Hr as _ <-].
  apply prune_age_Ok in Hr as ([= Ej Er _ _ _ _ _ _] & Hp & _). split; [congruence..|].
  eapply pruned_trans; [exact Hh|]. eapply pruned_weaken; [|exact Hp].
  intros id h _ [? ?]. left. auto.
Qed.

Lemma phase_count cfg now d0 b st keep n w k w' :
  when b (prune_count st keep n) w = (Ok k, w') →
  (b = true → ∀ d id h, h_state h = st →
     keep < Z.of_nat (row_number (state_rows st d) (id, h)) → over_count cfg d id h) →
  archive_phase cfg now d0 (w_db w) → archive_phase cfg now d0 (w_db w').
Proof.
  unfold when. intros Hr Hpol [Hj Hrc Hh]. destruct b; [|by injection Hr as _ <-].
  apply prune_count_Ok in Hr as ([= Ej Er _ _ _ _ _ _] & Hp & _). split; [congruence..|].
  eapply pruned_trans; [exact Hh|]. eapply pruned_weaken; [|exact Hp].
  intros id h _ [? ?]. right. eapply over_count_mono; [by eapply pruned_subseteq|auto].
Qed.

(** A committed sweep. *)
Lemma sweep_body_Ok cfg w o w' :
  sweep_body cfg w = (Ok o, w') →
  let now := clock (w_step w) in
  jobs (w_db w') = jobs (w_db w)
  ∧ pruned (removable cfg now (w_db w)) (job_history (w_db w)) (job_history (w_db w'))
  ∧ pruned (λ _ r, jobs (w_db w') !! rc_job_id r = None
                   ∧ job_history (w_db w') !! rc_job_id r = None)
      (enqueue_receipts (w_db w)) (enqueue_receipts (w_db w')).
Proof.
  unfold sweep_body. intros Hr. simpl.
  apply bind_Ok in Hr as (now & w0 & H0 & Hr). apply now_ms_Ok in H0 as [-> ->].
  set (now := clock (w_step w)) in *. set (d0 := w_db w) in *.
  assert (archive_phase cfg now d0 (w_db (tick w))) as P0 by (by split; [..|apply pruned_refl]).
  apply bind_Ok in Hr as (ca & w1 & H1 & Hr). apply (phase_age cfg now d0) in H1; [|..|done].
  2:{ intros ?%Z.ltb_lt h Hs ?. unfold over_age. by rewrite Hs. }
  apply bind_Ok in Hr as (fa & w2 & H2 & Hr). apply (phase_age cfg now d0) in H2; [|..|done].
  2:{ intros ?%Z.ltb_lt h Hs ?. unfold over_age. by rewrite Hs. }
  apply bind_Ok in Hr as (cc & w3 & H3 & Hr). apply (phase_count cfg now d0) in H3; [|..|done].
  2:{ intros ?%Z.ltb_lt d id h Hs ?. unfold over_count. by rewrite Hs. }
  apply bind_Ok in Hr as (fc & w4 & H4 & Hr). apply (phase_count cfg now d0) in H4; [|..|done].
  2:{ intros ?%Z.ltb_lt d id h Hs ?. unfold over_count. by rewrite Hs. }
  destruct H4 as [Hj4 Hr4 Hh4].
  apply bind_Ok in Hr as (rc & w5 & H5 & Hr). apply prune_receipts_Ok in H5 as (T5 & Hp5 & _).
  apply bind_Ok in Hr as (ch & w6 & H6 & Hr).
  apply (when_frame (same jhr) _ _ (prune_chain_frame _ _)) in H6 as [T6 _].
  apply bind_Ok in Hr as (fd & w7 & H7 & Hr).
  apply (when_frame (same jhr) _ _ (prune_facet_frame _ _)) in H7 as [T7 _].
  apply bind_Ok in Hr as (rj & w8 & H8 & Hr).
  apply (when_frame (same jhr) _ _ (prune_rejections_frame _ _)) in H8 as [T8 _].
  injection Hr as _ <-. unfold same, jhr, tables in *.
  injection T5 as T5a T5b.
  assert (jobs (w_db w8) = jobs (w_db w5) ∧ job_history (w_db w8) = job_history (w_db w5)
          ∧ enqueue_receipts (w_db w8) = enqueue_receipts (w_db w5)) as (-> & -> & ->)
    by (split_and!; congruence).
  rewrite T5a, T5b, Hj4. split_and!; [done|done|]. by rewrite <-Hr4, <-Hj4.
Qed.

Lemma sweep_body_bounds cfg w o w' :
  sweep_body cfg w = (Ok o, w') → 0 ≤ batch cfg →
  Forall (λ n, Z.of_nat n ≤ batch cfg)
    [o_completed_age o; o_completed_count o; o_failed_age o; o_failed_count o; o_receipts o;
     o_chain_counters o; o_facet_dispatch o; o_rejections o].
Proof.
  unfold sweep_body. intros Hr Hb.
  apply bind_Ok in Hr as (now & w0 & H0 & Hr). apply bind_Ok in Hr as (ca & w1 & H1 & Hr).
  apply bind_Ok in Hr as (fa & w2 & H2 & Hr). apply bind_Ok in Hr as (cc & w3 & H3 & Hr).
  apply bind_Ok in Hr as (fc & w4 & H4 & Hr). apply bind_Ok in Hr as (rc & w5 & H5 & Hr).
  apply bind_Ok in Hr as (ch & w6 & H6 & Hr). apply bind_Ok in Hr as (fd & w7 & H7 & Hr).
  apply bind_Ok in Hr as (rj & w8 & H8 & Hr). injection Hr as <- _. simpl.
  repeat (apply list.Forall_cons; split); [..|constructor].
  - eapply when_bound; [exact H1| |done]. intros Hp%prune_age_Ok. by apply Hp.
  - eapply when_bound; [exact H3| |done]. intros Hp%prune_count_Ok. by apply Hp.
  - eapply when_bound; [exact H2| |done]. intros Hp%prune_age_Ok. by apply Hp.
  - eapply when_bound; [exact H4| |done]. intros Hp%prune_count_Ok. by apply Hp.
  - apply prune_receipts_Ok in H5. by apply H5.
  - eapply when_bound; [exact H6| |done]. intros Hp. by eapply pruned_bound_chain.
  - eapply when_bound; [exact H7| |done]. intros Hp. by eapply pruned_bound_facet.
  - eapply when_bound; [exact H8| |done]. intros Hp. by eapply pruned_bound_rejections.
Qed.

Lemma sweep_Ok cfg w o w' :
  sweep cfg w = (Ok o, w') → ∃ w1, sweep_body cfg (tick w) = (Ok o, w1) ∧ w_db w' = w_db w1.
Proof.
  unfold sweep, sweep_blocking. intros Hr%map_err_Ok.
  apply bind_Ok in Hr as (o' & w1 & H1 & Hr). apply bind_Ok in Hr as (u & w2 & H2 & Hr).
  injection Hr as -> <-. injection H2 as _ <-. apply transaction_Ok in H1 as (w3 & H1 & ->).
  eauto.
Qed.
Lemma sweep_Err cfg w e w' : sweep cfg w = (Err e, w') → w_db w' = w_db w.
Proof.
  unfold sweep, sweep_blocking. intros (e' & Hr & _)%map_err_Err.
  apply bind_Err in Hr as [Hr|(o & w1 & _ & Hr)]; [by eapply transaction_Err|done].
Qed.

(** A sweep follows the policy.  A committed sweep removes no live job, removes an
    archived row only if it is older than the age of its state or ranks beyond the count
    kept per name of its state, and removes a receipt only if its job is neither live nor
    archived any more; everything else in the three tables stays.  A failed sweep changes
    nothing. *)
Lemma sweep_respects_policy cfg w r w' :
  sweep cfg w = (r, w') →
  match r with
  | Err _ => w_db w' = w_db w
  | Ok _ =>
      jobs (w_db w') = jobs (w_db w)
      ∧ pruned (removable cfg (clock (S (w_step w))) (w_db w))
          (job_history (w_db w)) (job_history (w_db w'))
      ∧ pruned (λ _ rc, jobs (w_db w') !! rc_job_id rc = None
                        ∧ job_history (w_db w') !! rc_job_id rc = None)
          (enqueue_receipts (w_db w)) (enqueue_receipts (w_db w'))
  end.
Proof.
  intros Hr. destruct r as [o|e]; [|by eapply sweep_Err].
  apply sweep_Ok in Hr as (w1 & H1 & ->). by apply sweep_body_Ok in H1.
Qed.

(** The work of a sweep is bounded.  Each of its eight dimensions deletes at most one
    batch of rows, so that a sweep holds the writer for at most eight batches. *)
Lemma sweep_bounded cfg w o w' :
  sweep cfg w = (Ok o, w') → 0 ≤ batch cfg →
  Forall (λ n, Z.of_nat n ≤ batch cfg)
    [o_completed_age o; o_completed_count o; o_failed_age o; o_failed_count o; o_receipts o;
     o_chain_counters o; o_facet_dispatch o; o_rejections o]
  ∧ Z.of_nat (total o) ≤ 8 * batch cfg.
Proof.
  intros (w1 & H1 & _)%sweep_Ok Hb. apply sweep_body_bounds in H1 as Hall; [|done].
  split; [done|]. rewrite !list.Forall_cons in Hall. unfold total. lia.
Qed.

(** C25: a sweep follows the policy and its work is bounded.  A committed sweep removes no
    live job, removes an archived row only if it is older than the age of its state or ranks
    beyond the count kept per name of its state, and removes a receipt only if its job is
    neither live nor archived any more; everything else in the three tables stays; each of
    its eight dimensions deletes at most one batch of rows.  A failed sweep changes
    nothing. *)
Theorem sweep_outcome cfg w r w' :
  sweep cfg w = (r, w') →
  match r with
  | Err _ => w_db w' = w_db w
  | Ok o =>
      jobs (w_db w') = jobs (w_db w)
      ∧ pruned (removable cfg (clock (S (w_step w))) (w_db w))
          (job_history (w_db w)) (job_history (w_db w'))
      ∧ pruned (λ _ rc, jobs (w_db w') !! rc_job_id rc = None
                        ∧ job_history (w_db w') !! rc_job_id rc = None)
          (enqueue_receipts (w_db w)) (enqueue_receipts (w_db w'))
      ∧ (0 ≤ batch cfg →
         Forall (λ n, Z.of_nat n ≤ batch cfg)
           [o_completed_age o; o_completed_count o; o_failed_age o; o_failed_count o;
            o_receipts o; o_chain_counters o; o_facet_dispatch o; o_rejections o]
         ∧ Z.of_nat (total o) ≤ 8 * batch cfg)
  end.
Proof.
  intros Hr. pose proof (sweep_respects_policy _ _ _ _ Hr) as Hp. destruct r as [o|e]; [|done].
  destruct Hp as (? & ? & ?). split_and!; [done..|]. intros Hb. by eapply sweep_bounded.
Qed.
End SweepRuns.

(** ** Accepted configurations *)
Lemma check_age_Ok floor key age u :
  check_age floor key age = Ok u → age = 0 ∨ floor ≤ age.
Proof.
  unfold check_age. destruct (Z.eqb_spec age 0); [auto|].
  destruct (Z.ltb_spec age floor); simpl; [done|auto].
Qed.
Lemma check_non_negative_Ok key n u : check_non_negative key n = Ok u → 0 ≤ n.
Proof. unfold check_non_negative. destruct (Z.ltb_spec n 0); [done|auto]. Qed.

(** What [validate] accepts. *)
Record config_ok (c : RetentionConfig) : Prop := {
  ok_completed : completed_age_ms c = 0 ∨ min_age_ms c ≤ completed_age_ms c;
  ok_failed : failed_age_ms c = 0 ∨ min_age_ms c ≤ failed_age_ms c;
  ok_counts : 0 ≤ completed_count c ∧ 0 ≤ failed_count c;
  ok_batch : 0 < batch c;
  ok_interval : interval_ms c ≠ 0;
  ok_ttls : 0 ≤ chain_counter_ttl_ms c ∧ 0 ≤ facet_dispatch_ttl_ms c
            ∧ 0 ≤ rejections_age_ms c;
}.
Lemma retention_validate_Ok c u : validate c = Ok u → config_ok c.
Proof.
  unfold validate. intros Hv.
  repeat match type of Hv with
    (?m ≫= _) = Ok _ =>
      let E := fresh "E" in destruct m eqn:E; simpl in Hv; [|discriminate Hv]
    end.
  repeat match goal with
    | H : check_age _ _ _ = Ok _ |- _ => apply check_age_Ok in H
    | H : check_non_negative _ _ = Ok _ |- _ => apply check_non_negative_Ok in H
    | H : (if ?b <=? 0 then _ else _) = _ |- _ => destruct (Z.leb_spec b 0); [done|]
    | H : (if ?b =? 0 then _ else _) = _ |- _ => destruct (Z.eqb_spec b 0); [done|]
    end.
  by split.
Qed.

Lemma from_env_Ok var lease cfg :
  from_env var lease = Ok cfg →
  config_ok cfg ∧ 0 < interval_ms cfg ∧ min_age_ms cfg = i64_saturating_mul lease 2.
Proof.
  unfold from_env, to_u64. intros Hv.
  repeat match type of Hv with
    (?m ≫= _) = Ok _ =>
      let E := fresh "E" in destruct m eqn:E; simpl in Hv; [|discriminate Hv]
    end.
  match goal with H : (if ?n <? 0 then _ else _) = Ok _ |- _ =>
    destruct (Z.ltb_spec n 0); [done|]; injection H as <- end.
  match goal with H : validate _ = Ok _ |- _ => apply retention_validate_Ok in H as Hok end.
  injection Hv as <-. split_and!; [done|pose proof (ok_interval _ Hok); simpl in *; lia|done].
Qed.

(** A configuration that the broker starts with never lets age retention touch a
    recent outcome: with a lease of [lease] milliseconds, a row removed for its age was
    archived more than two leases before the sweep.  Batch and interval are positive, so
    the loop makes progress. *)
Lemma retention_outlives_leases var lease cfg :
  from_env var lease = Ok cfg → 0 < lease → in_i64 (lease * 2) →
  config_ok cfg ∧ 0 < interval_ms cfg
  ∧ ∀ now h, in_i64 (h_finished_at h) → over_age cfg now h → h_finished_at h < now - 2 * lease.
Proof.
  intros (Hok & Hiv & Hmin)%from_env_Ok Hl Hi. split_and!; [done|done|].
  intros now h Hh. destruct Hok as [Hc Hf _ _ _ _]. unfold over_age, i64_saturating_sub.
  simpl in *. unfold i64_saturating_mul, sat_i64, in_i64 in *.
  destruct (h_state h); try done; lia.
Qed.

(** ** Retention in the life cycle *)
Section RetentionSim.
Context `{HE : Env, HU : !UuidLaw HE}.

Lemma delete_keys_steps ids js hs used :
  lsteps true (mkL js hs used) (mkL js (delete_keys ids hs) used).
Proof.
  induction ids as [|id ids IH]; [done|]. etrans; [exact IH|]. unfold delete_keys. simpl.
  destruct (foldr delete hs ids !! id) as [h|] eqn:Hh.
  - apply rtc_once. by eapply LPrune.
  - by rewrite delete_id.
Qed.

Lemma prune_history_sim {A} (g : nat → Db → list string) (f : nat → Db → A) :
  simulates_ok true
    (stmt (λ k d, Ok (f k d, d <| job_history ::= delete_keys (g k d) |>))).
Proof.
  intros w a w' s Hr Hi. apply stmt_Ok in Hr as (d & _ & [= _ <-] & ->).
  destruct s as [js hs used]. pose proof Hi as [Hj Hh Hu Hinv]. simpl in *. subst js hs.
  pose proof (delete_keys_steps (g (w_step w) (w_db w)) (jobs (w_db w))
                (job_history (w_db w)) used) as Hs.
  eexists. split; [exact Hs|]. split; simpl; [done..| |by eapply lsteps_inv].
  etrans; [done|]. apply drawn_mono. simpl. lia.
Qed.

Lemma when_sim b m : simulates_ok true m → simulates_ok true (when b m).
Proof.
  intros Hm. destruct b; [done|]. apply simulates_frame_ok. unfold when. frame.
Qed.

Lemma sweep_body_sim cfg : simulates_ok true (sweep_body cfg).
Proof.
  unfold sweep_body. apply simulates_ok_bind; [apply simulates_frame_ok; frame|]. intros now.
  do 2 (apply simulates_ok_bind; [apply when_sim, prune_history_sim|intros ?]).
  do 2 (apply simulates_ok_bind; [apply when_sim, prune_history_sim|intros ?]).
  apply simulates_frame_ok. unfold prune_receipts, prune_chain_counters,
    prune_facet_dispatch, prune_rejections, when. frame; injection H as <- <-; done.
Qed.

Lemma sweep_frame cfg : keeps any (sweep_body cfg).
Proof.
  unfold sweep_body, prune_age, prune_count, prune_receipts, prune_chain_counters,
    prune_facet_dispatch, prune_rejections, when. frame.
Qed.

Lemma sweep_sim cfg : simulates true (sweep cfg).
Proof.
  unfold sweep, sweep_blocking. apply simulates_map_err, simulates_bind.
  - apply simulates_of_ok; [apply sweep_frame|apply sweep_body_sim].
  - intros o. apply simulates_frame. frame.
Qed.
End RetentionSim.
