(* ===== verification/Schedulers.v ===== *)
(** * Job schedulers (src/schedulers.rs, src/scheduler.rs and their SQL in src/db.rs)

    [upsert], [delete], [get] and [list] administer the declarative schedulers; [run_once]
    is one tick of the loop, which fires every due scheduler in its own transaction: the
    produced job and the advance of the scheduler commit together. *)
From Stdlib Require Import Ascii String.
From S2P Require Import Prelude Text Query F64 Scheduling Db Pressure Telemetry Broker.
From S2P Require Import Lifecycle RateLimit Ingress Enqueue.
Local Open Scope string_scope.
Local Open Scope Z_scope.

Definition MAX_SCHEDULER_PAYLOAD_BYTES : Z := 1024 * 1024.
Definition DEFAULT_SCHEDULER_INTERVAL_MS : Z := 1000.
Definition DEFAULT_SCHEDULER_BATCH_SIZE : Z := 256.

(** ** Messages *)
Record JobTemplate := mkTemplate {
  t_name : string;
  t_payload : bytes;
  t_priority : option Z;
  t_max_attempts : option Z;
  t_retry_backoff_ms : option Z;
  t_retry_backoff_max_ms : option Z;
  t_retry_jitter : option f64;
  t_rate_limit_facet : option string;
}.
Record RepeatSpec := mkRepeat { r_cron : string; r_timezone : string }.
Record UpsertSchedulerRequest := mkUpsertSched {
  us_id : string; us_template : option JobTemplate; us_repeat : option RepeatSpec }.

(** [JobScheduler], the message [row_to_proto] builds. *)
Record JobSchedulerMsg := mkSchedMsg {
  sm_id : string;
  sm_job_name : string;
  sm_payload : bytes;
  sm_cron : string;
  sm_timezone : string;
  sm_next_run_at : option Z;
  sm_produced_count : Z;
  sm_last_job_id : option string;
  sm_priority : option Z;
  sm_max_attempts : option Z;
  sm_retry_backoff_ms : option Z;
  sm_retry_backoff_max_ms : option Z;
  sm_retry_jitter : option f64;
  sm_rate_limit_facet : option string;
  sm_created_at : Z;
  sm_updated_at : Z;
}.
Definition row_to_proto (row : string * JobSchedulerRow) : JobSchedulerMsg :=
  let '(id, r) := row in
  mkSchedMsg id (s_job_name r) (s_payload r) (s_cron r) (default "" (s_timezone r))
    (s_next_run_at r) (s_produced_count r) (s_last_job_id r) (wrap_i32 <$> s_priority r)
    (wrap_u32 <$> s_max_attempts r) (s_retry_backoff_ms r) (s_retry_backoff_max_ms r)
    (s_retry_jitter r) (s_rate_limit_facet r) (s_created_at r) (s_updated_at r).

Definition map_scheduler_error (e : SchedulerError) : Status :=
  match e with
  | InvalidCron m => mkStatus InvalidArgument ("invalid cron: " ++ m)
  | InvalidTimezone m => mkStatus InvalidArgument ("invalid timezone: " ++ m)
  | Compute m => mkStatus Internal ("next-run computation failed: " ++ m)
  end.

(** ** SQL of src/db.rs *)

(** [upsert_scheduler]: on conflict the runtime columns survive. *)
Definition upsert_row (new : JobSchedulerRow) (old : option JobSchedulerRow)
  : option JobSchedulerRow :=
  Some (match old with
        | None => new
        | Some o => new <| s_produced_count := s_produced_count o |>
                        <| s_last_job_id := s_last_job_id o |>
                        <| s_created_at := s_created_at o |>
        end).
Definition upserted (new : JobSchedulerRow) (old : option JobSchedulerRow) : JobSchedulerRow :=
  default new (upsert_row new old).
Definition upsert_scheduler (id : string) (new : JobSchedulerRow) (d : Db) : Db :=
  d <| job_schedulers ::= partial_alter (upsert_row new) id |>.

(** [delete_scheduler]: whether a row existed. *)
Definition delete_scheduler (id : string) (d : Db) : bool * Db :=
  (bool_decide (is_Some (job_schedulers d !! id)), d <| job_schedulers ::= delete id |>).

Definition get_scheduler (id : string) (d : Db) : option (string * JobSchedulerRow) :=
  r ← job_schedulers d !! id; Some (id, r).

Definition list_schedulers (d : Db) : list (string * JobSchedulerRow) :=
  order_by (λ r : string * JobSchedulerRow, ([], r.1)) (map_to_list (job_schedulers d)).

Definition sched_due (now : Z) (id : string) (r : JobSchedulerRow) : bool :=
  match s_next_run_at r with Some t => t <=? now | None => false end.
Definition select_due_schedulers (now limit : Z) (d : Db) : list (string * JobSchedulerRow) :=
  sql_limit (wrap_i64 limit)
    (order_by (λ r : string * JobSchedulerRow, ([default 0 (s_next_run_at r.2)], r.1))
       (rows_where (sched_due now) (job_schedulers d))).

Definition advance_row (next : Z) (job_id : string) (now : Z) (r : JobSchedulerRow)
  : JobSchedulerRow :=
  r <| s_next_run_at := Some next |> <| s_produced_count ::= Z.succ |>
    <| s_last_job_id := Some job_id |> <| s_updated_at := now |>.
Definition advance_scheduler (id : string) (next : Z) (job_id : string) (now : Z) (d : Db) : Db :=
  d <| job_schedulers ::= alter (advance_row next job_id now) id |>.

(** ** Administration *)
Definition opt_negative (o : option Z) : bool :=
  match o with Some v => v <? 0 | None => false end.
Definition jitter_bad (o : option f64) : bool :=
  match o with Some j => is_nan j || negb (in_unit j) | None => false end.
Definition cap_below_base (t : JobTemplate) : bool :=
  match t_retry_backoff_ms t, t_retry_backoff_max_ms t with
  | Some base, Some cap => cap <? base
  | _, _ => false
  end.

Section Admin.
Context `{CronLib}.

(** The checks of [upsert]: the identifier, the template and the trimmed pattern. *)
Definition validate_upsert (req : UpsertSchedulerRequest)
  : result Status (string * JobTemplate * string * string * string) :=
  let id := trim (us_id req) in
  if is_empty id then invalid "id must not be blank"
  else match us_template req with
  | None => invalid "template is required"
  | Some t =>
    match us_repeat req with
    | None => invalid "repeat is required"
    | Some r =>
      let job_name := trim (t_name t) in
      if is_empty job_name then invalid "template.name must not be blank"
      else if MAX_SCHEDULER_PAYLOAD_BYTES <? Z.of_nat (length (t_payload t))
      then invalid ("payload exceeds " ++ fmt_Z MAX_SCHEDULER_PAYLOAD_BYTES ++ " bytes")
      else
        let cron := trim (r_cron r) in
        if is_empty cron then invalid "repeat.cron must not be blank"
        else
          let timezone := trim (r_timezone r) in
          match validate_cron cron timezone with
          | Err e => Err (map_scheduler_error e)
          | Ok _ =>
            if jitter_bad (t_retry_jitter t)
            then invalid "retry_jitter must be a fraction in [0, 1]"
            else if opt_negative (t_retry_backoff_ms t)
                    || opt_negative (t_retry_backoff_max_ms t)
            then invalid "backoff delays must not be negative"
            else if cap_below_base t
            then invalid "retry_backoff_max_ms must be at least retry_backoff_ms"
            else Ok (id, t, job_name, cron, timezone)
          end
    end
  end.

Definition new_scheduler (t : JobTemplate) (job_name cron timezone : string) (next now : Z)
  : JobSchedulerRow :=
  mkSched job_name (t_payload t) cron (non_empty timezone) 0 (Some next) None (t_priority t)
    (t_max_attempts t) (t_retry_backoff_ms t) (t_retry_backoff_max_ms t) (t_retry_jitter t)
    (t_rate_limit_facet t) now now.

Context `{Env}.

Definition scheduler_upsert (req : UpsertSchedulerRequest) : M Status (string * Z) :=
  let? '(id, t, job_name, cron, timezone) := lift (validate_upsert req) in
  let? '(next, existed) := transaction internal (
    let? now := map_err internal now_ms in
    let? next := lift (res_map_err map_scheduler_error (next_cron_after now cron timezone)) in
    let? existed := map_err internal (query (λ d,
      bool_decide (is_Some (get_scheduler id d)))) in
    do? map_err internal (execute (upsert_scheduler id
          (new_scheduler t job_name cron timezone next now))) in
    mret (next, existed)) in
  do? metric (λ m, if (existed : bool) then m else scheduler_activated m) in
  mret (id, next).

Definition scheduler_delete (id : string) : M Status bool :=
  let id := trim id in
  if is_empty id then fail (mkStatus InvalidArgument "id must not be blank")
  else
    let? deleted := transaction internal
      (map_err internal (stmt (λ _ d, Ok (delete_scheduler id d)))) in
    do? metric (λ m, if (deleted : bool) then scheduler_deactivated m else m) in
    mret deleted.

Definition scheduler_get (id : string) : M Status JobSchedulerMsg :=
  let id := trim id in
  if is_empty id then fail (mkStatus InvalidArgument "id must not be blank")
  else
    let? row := map_err internal (query (get_scheduler id)) in
    match row with
    | Some r => mret (row_to_proto r)
    | None => fail (mkStatus NotFound ("no scheduler with id " ++ id))
    end.

Definition scheduler_list : M Status (list JobSchedulerMsg) :=
  let? rows := map_err internal (query list_schedulers) in
  mret (row_to_proto <$> rows).
End Admin.

(** ** The loop *)
Inductive FireError :=
| FireDb (e : SqlError)
| FireEnqueue (m : string)
| FireCron (e : SchedulerError).

Definition build_request (r : JobSchedulerRow) : AddJobRequest :=
  mkReq (s_job_name r) (s_payload r) (wrap_i32 (default 0 (s_priority r))) None
    (wrap_u32 (default 0 (s_max_attempts r))) 0 (default "" (s_rate_limit_facet r))
    (default 0 (s_retry_backoff_ms r)) (default 0 (s_retry_backoff_max_ms r)) ""
    (default f64_zero (s_retry_jitter r)) false.

Section Loop.
Context `{CronLib, Env, Prost}.

Definition fire_one (l : Limits) (row : string * JobSchedulerRow) : M FireError unit :=
  let '(id, r) := row in
  let? success := transaction FireDb (
    let? now := map_err FireDb now_ms in
    let? '(job_id, success) := map_err (λ s, FireEnqueue (message s))
                                 (enqueue_scheduled l (build_request r) now) in
    let? next := lift (res_map_err FireCron
                         (next_cron_after now (s_cron r) (default "" (s_timezone r)))) in
    do? map_err FireDb (execute (advance_scheduler id next job_id now)) in
    mret success) in
  do? metric (flush success) in
  metric scheduler_job_produced.

(** Each due scheduler in isolation: a failure is counted and skipped. *)
Fixpoint fire_all (l : Limits) (rows : list (string * JobSchedulerRow))
  : M Status nat :=
  match rows with
  | [] => mret 0%nat
  | row :: rows' =>
      let? r := attempt (fire_one l row) in
      do? (if is_ok r then mret tt else metric scheduler_error) in
      let? n := fire_all l rows' in
      mret (if is_ok r then S n else n)
  end.

Definition run_once (l : Limits) (batch_size : Z) : M Status nat :=
  let? now := attempt now_ms in
  match now with
  | Err _ => do? metric scheduler_error in mret 0%nat
  | Ok now =>
      let? due := attempt (query (select_due_schedulers now batch_size)) in
      match due with
      | Err _ => do? metric scheduler_error in mret 0%nat
      | Ok due => fire_all l due
      end
  end.
End Loop.

(** ** Runs *)

(** A template that [upsert] accepted gives a request that validation accepts. *)
Definition template_ok (r : JobSchedulerRow) : Prop :=
  jitter_bad (s_retry_jitter r) = false
  ∧ opt_negative (s_retry_backoff_ms r) = false
  ∧ opt_negative (s_retry_backoff_max_ms r) = false
  ∧ match s_retry_backoff_ms r, s_retry_backoff_max_ms r with
    | Some base, Some cap => base ≤ cap
    | _, _ => True
    end.

Section SchedulerRuns.
Context `{HC : CronLib, HE : Env, HP : Prost}.

Lemma validate_upsert_template req id t job cron tz next now :
  validate_upsert req = Ok (id, t, job, cron, tz) →
  template_ok (new_scheduler t job cron tz next now).
Proof.
  unfold validate_upsert, invalid, template_ok. intros Hv. destruct (is_empty _); [done|].
  destruct (us_template req) as [t'|]; [|done]. destruct (us_repeat req); [|done].
  destruct (is_empty _); [done|]. destruct (_ <? _); [done|]. destruct (is_empty _); [done|].
  destruct (validate_cron _ _); [|done]. destruct (jitter_bad _) eqn:Hj; [done|].
  destruct (opt_negative _ || _) eqn:Hn; [done|]. destruct (cap_below_base _) eqn:Hc; [done|].
  injection Hv as <- <- <- <- <-. apply orb_false_iff in Hn as [? ?].
  unfold cap_below_base in Hc. simpl. split_and!; [done..|].
  destruct (t_retry_backoff_ms t'), (t_retry_backoff_max_ms t'); try done.
  by apply Z.ltb_ge in Hc.
Qed.

Lemma build_request_valid r depth :
  template_ok r → 0 ≤ depth → ∃ req, validate_and_prepare (build_request r) depth = Ok (req, None).
Proof.
  intros (Hj & Hb & Hm & Hc) Hd. unfold validate_and_prepare, invalid, build_request. simpl.
  assert (0 ≤ default 0 (s_retry_backoff_ms r)) as Hb'.
  { destruct (s_retry_backoff_ms r); simpl in *; lia. }
  assert (0 ≤ default 0 (s_retry_backoff_max_ms r)) as Hm'.
  { destruct (s_retry_backoff_max_ms r); simpl in *; lia. }
  rewrite (proj2 (Z.ltb_ge _ _) Hb'), (proj2 (Z.ltb_ge _ _) Hm'). simpl.
  unfold normalize_backoff. simpl.
  assert (is_nan (default f64_zero (s_retry_jitter r))
          || negb (in_unit (default f64_zero (s_retry_jitter r))) = false) as Hjit.
  { destruct (s_retry_jitter r); done. }
  destruct (Z.eqb_spec (default 0 (s_retry_backoff_max_ms r)) 0) as [Hz|Hz]; simpl.
  - rewrite (proj2 (Z.ltb_ge _ _)) by lia. rewrite Hjit. unfold normalize_attempts. simpl.
    destruct (_ =? 0); simpl; rewrite (proj2 (Z.ltb_ge depth 0)) by lia; eauto.
  - rewrite (proj2 (Z.ltb_ge (default 0 (s_retry_backoff_max_ms r)) _)).
    2:{ destruct (s_retry_backoff_ms r), (s_retry_backoff_max_ms r); simpl in *; lia. }
    rewrite Hjit. unfold normalize_attempts. simpl.
    destruct (_ =? 0); simpl; rewrite (proj2 (Z.ltb_ge depth 0)) by lia; eauto.
Qed.

(** An admission leaves the schedulers alone. *)
Lemma enqueue_one_schedulers l req now rr :
  keeps (same job_schedulers) (enqueue_one l req now rr).
Proof.
  unfold enqueue_one, admit_new. frame;
    try (apply replay_frame || apply ancestry_frame || apply circuit_breaker_frame); try apply _.
  - eapply keeps_weaken; [|apply admit_ingress_frame].
    unfold same, but_ingress. intros d d'. congruence.
  - unfold quarantine, reject. frame.
  - by apply insert_job_Ok in H as [_ ->].
  - unfold write_receipt. frame. by apply insert_receipt_Ok in H as [_ ->].
Qed.
Lemma enqueue_scheduled_schedulers l req now :
  keeps (same job_schedulers) (enqueue_scheduled l req now).
Proof. unfold enqueue_scheduled. frame. apply enqueue_one_schedulers. Qed.

(** What a successful fire commits, the produced job and the advance together. *)
Lemma fire_one_Ok l id r w u w' :
  fire_one l (id, r) w = (Ok u, w') →
  ∃ jid job next, let now := clock (S (w_step w)) in
    next_cron_after now (s_cron r) (default "" (s_timezone r)) = Ok next
    ∧ job_schedulers (w_db w') = alter (advance_row next jid now) id (job_schedulers (w_db w))
    ∧ jobs (w_db w) !! jid = None ∧ jobs (w_db w') = <[jid := job]> (jobs (w_db w))
    ∧ job_history (w_db w') = job_history (w_db w)
    ∧ j_name job = s_job_name r ∧ j_payload job = s_payload r
    ∧ j_state job = Waiting ∧ j_parent_id job = None ∧ j_available_at job = Some now.
Proof.
  unfold fire_one. intros Hr. apply bind_Ok in Hr as (sm & w1 & H1 & Hr).
  apply bind_Ok in Hr as (u2 & w2 & H2 & Hr). injection H2 as _ <-. injection Hr as _ <-.
  apply transaction_Ok in H1 as (w3 & H1 & ->).
  apply bind_Ok in H1 as (now & w4 & H4 & H1). apply map_err_Ok, now_ms_Ok in H4 as [-> ->].
  apply bind_Ok in H1 as ([jid sm'] & w5 & H5 & H1). apply map_err_Ok in H5.
  pose proof (enqueue_scheduled_schedulers _ _ _ _ _ _ H5) as [Hsch _]. simpl in Hsch.
  apply bind_Ok in H1 as (next & w6 & H6 & H1). unfold lift in H6. injection H6 as Hn <-.
  apply bind_Ok in H1 as (u7 & w7 & H7 & H1). apply map_err_Ok, execute_Ok in H7 as ->.
  injection H1 as -> <-. simpl in *.
  unfold enqueue_scheduled in H5.
  apply bind_Ok in H5 as ([req rr] & w8 & H8 & H5). unfold lift in H8. injection H8 as Hv <-.
  apply validate_Ok in Hv as (-> & -> & _ & _). simpl in H5.
  apply bind_Ok in H5 as (o & w9 & H9 & H5). injection H5 as <- _ <-. apply map_err_Ok in H9.
  unfold enqueue_one, replay in H9.
  apply bind_Ok in H9 as (o' & w10 & H10 & H9). injection H10 as <- <-.
  apply admit_new_Ok in H9 as (n & w11 & depth & trace & av & Hn' & _ & Hav & Hnone & Hj & Hh &
    _ & _ & _ & Hresp).
  destruct (normalize_same (build_request r)) as (En & Ep & _ & Ed & _).
  simpl in *. rewrite Hresp. simpl. rewrite Ed in *. simpl in *.
  apply i64_checked_add_Some in Hav as [-> _].
  destruct (next_cron_after _ _ _) as [next'|] eqn:Hnext; [|done]. simpl in Hn.
  injection Hn as ->. unfold same in Hsch.
  do 3 eexists. split_and!; try done; simpl; rewrite ?Hsch, ?Z.add_0_r; done.
Qed.

Lemma fire_one_Err l row w e w' :
  fire_one l row w = (Err e, w') → w_db w' = w_db w.
Proof.
  unfold fire_one. destruct row as [id r]. intros Hr.
  apply bind_Err in Hr as [Hr|(sm & w1 & _ & Hr)]; [by eapply transaction_Err|].
  apply bind_Err in Hr as [Hr|(u & w2 & _ & Hr)]; done.
Qed.

Lemma upsert_insert id new d :
  upsert_scheduler id new d
  = d <| job_schedulers ::= insert id (upserted new (job_schedulers d !! id)) |>.
Proof.
  unfold upsert_scheduler. destruct d as [? ? ? ? ? ? ? ? ? ? ? js]. simpl. f_equal.
  by apply partial_alter_Some.
Qed.

(** C26: a fire is atomic.  A scheduler that fires creates exactly one new job from its
    template, due at once and without a parent, and its own row advances to the occurrence
    after the fire and names that job; both commit together.  A fire that fails leaves the
    database as it was, so the scheduler stays due. *)
Theorem scheduler_fire_atomic l id r w x w' :
  fire_one l (id, r) w = (x, w') →
  match x with
  | Err _ => w_db w' = w_db w
  | Ok _ =>
      ∃ jid job next, let now := clock (S (w_step w)) in
        next_cron_after now (s_cron r) (default "" (s_timezone r)) = Ok next
        ∧ job_schedulers (w_db w') = alter (advance_row next jid now) id (job_schedulers (w_db w))
        ∧ jobs (w_db w) !! jid = None ∧ jobs (w_db w') = <[jid := job]> (jobs (w_db w))
        ∧ job_history (w_db w') = job_history (w_db w)
        ∧ j_name job = s_job_name r ∧ j_payload job = s_payload r
        ∧ j_state job = Waiting ∧ j_parent_id job = None ∧ j_available_at job = Some now
  end.
Proof.
  intros Hr. destruct x as [u|e]; [by eapply fire_one_Ok|by eapply fire_one_Err].
Qed.

(** An upsert of a scheduler.  A refused request changes nothing; an accepted one
    replaces the template and the schedule of that scheduler alone, sets its next run to
    the first occurrence after now, and keeps what the scheduler has already done: its
    count, its last job and its creation time. *)
Lemma scheduler_upsert_keeps_history req w x w' :
  scheduler_upsert req w = (x, w') →
  match x with
  | Err _ => w_db w' = w_db w
  | Ok (id, next) =>
      ∃ t job cron tz row, let now := clock (S (w_step w)) in
        validate_upsert req = Ok (id, t, job, cron, tz) ∧ next_cron_after now cron tz = Ok next
        ∧ w_db w' = w_db w <| job_schedulers ::= insert id row |>
        ∧ row = upserted (new_scheduler t job cron tz next now) (job_schedulers (w_db w) !! id)
        ∧ s_next_run_at row = Some next ∧ s_job_name row = job ∧ s_cron row = cron
        ∧ s_payload row = t_payload t ∧ s_updated_at row = now
        ∧ match job_schedulers (w_db w) !! id with
          | Some old => s_produced_count row = s_produced_count old
                        ∧ s_last_job_id row = s_last_job_id old
                        ∧ s_created_at row = s_created_at old
          | None => s_produced_count row = 0 ∧ s_last_job_id row = None
                    ∧ s_created_at row = now
          end
  end.
Proof.
  unfold scheduler_upsert. intros Hr.
  apply bind_inv in Hr as (r1 & w1 & H1 & Hr). unfold lift in H1. injection H1 as Hv <-.
  destruct r1 as [[[[[id t] job] cron] tz]|e]; [|by destruct Hr as [-> ->]].
  apply bind_inv in Hr as (r2 & w2 & H2 & Hr). destruct r2 as [[next existed]|e].
  2:{ destruct Hr as [-> ->]. by apply transaction_Err in H2. }
  injection Hr as <- <-. apply transaction_Ok in H2 as (w3 & H2 & ->).
  apply bind_Ok in H2 as (now & w4 & H4 & H2). apply map_err_Ok, now_ms_Ok in H4 as [-> ->].
  apply bind_Ok in H2 as (nx & w4 & H4 & H2). unfold lift in H4. injection H4 as Hn <-.
  apply bind_Ok in H2 as (ex & w4 & H4 & H2). apply map_err_Ok, query_Ok in H4 as [_ ->].
  apply bind_Ok in H2 as (u & w4 & H4 & H2). apply map_err_Ok, execute_Ok in H4 as ->.
  injection H2 as -> _ <-. simpl in *.
  destruct (next_cron_after _ _ _) as [next'|] eqn:Hnext; [|done]. simpl in Hn.
  injection Hn as ->. do 4 eexists. eexists. split_and!; [done|done|apply upsert_insert|done|..];
    unfold upserted; by destruct (job_schedulers _ !! id).
Qed.

(** A scheduler that was accepted keeps producing valid jobs.  Whatever template the
    checks of an upsert let through, the request built from the row it stores, before or
    after any number of fires, passes the validation of an enqueue, so that no fire is
    refused for its template. *)
Lemma accepted_template_fires req id t job cron tz next now old fires max_depth :
  validate_upsert req = Ok (id, t, job, cron, tz) → 0 ≤ max_depth →
  let row := upserted (new_scheduler t job cron tz next now) old in
  ∃ r, validate_and_prepare
         (build_request (foldr (λ f : Z * string * Z, advance_row f.1.1 f.1.2 f.2) row fires))
         max_depth = Ok (r, None).
Proof.
  intros Hv Hd. apply (validate_upsert_template _ _ _ _ _ _ next now) in Hv. simpl.
  apply build_request_valid; [|done]. induction fires as [|f fires IH]; [|exact IH].
  by destruct old.
Qed.

(** An upsert of a scheduler.  A refused request changes nothing; an accepted one
    replaces the template and the schedule of that scheduler alone, sets its next run to
    the first occurrence after now, and keeps what the scheduler has already done: its
    count, its last job and its creation time.  And it keeps producing valid jobs: the
    request built from the row it stores, before or after any number of fires, passes the
    validation of an enqueue, so that no fire is refused for its template. *)
Theorem scheduler_upsert_outcome req w x w' :
  scheduler_upsert req w = (x, w') →
  match x with
  | Err _ => w_db w' = w_db w
  | Ok (id, next) =>
      ∃ t job cron tz row, let now := clock (S (w_step w)) in
        validate_upsert req = Ok (id, t, job, cron, tz) ∧ next_cron_after now cron tz = Ok next
        ∧ w_db w' = w_db w <| job_schedulers ::= insert id row |>
        ∧ s_next_run_at row = Some next ∧ s_job_name row = job ∧ s_cron row = cron
        ∧ s_payload row = t_payload t ∧ s_updated_at row = now
        ∧ match job_schedulers (w_db w) !! id with
          | Some old => s_produced_count row = s_produced_count old
                        ∧ s_last_job_id row = s_last_job_id old
                        ∧ s_created_at row = s_created_at old
          | None => s_produced_count row = 0 ∧ s_last_job_id row = None
                    ∧ s_created_at row = now
          end
        ∧ ∀ fires max_depth, 0 ≤ max_depth →
            ∃ r, validate_and_prepare
                   (build_request (foldr (λ f : Z * string * Z, advance_row f.1.1 f.1.2 f.2) row fires))
                   max_depth = Ok (r, None)
  end.
Proof.
  intros Hr%scheduler_upsert_keeps_history. destruct x as [[id next]|e]; [|done].
  destruct Hr as (t & job & cron & tz & row & Hv & Hn & Hd & Hrow & Hrest).
  exists t, job, cron, tz, row. destruct Hrest as (? & ? & ? & ? & ? & ?).
  split_and!; try done. intros fires max_depth Hm. subst row.
  by apply (accepted_template_fires req id t job cron tz).
Qed.

Lemma fire_one_frame l row : keeps any (fire_one l row).
Proof.
  unfold fire_one, enqueue_scheduled. destruct row. frame. apply enqueue_one_frame.
Qed.
Lemma fire_all_frame l rows : keeps any (fire_all l rows).
Proof. induction rows; simpl; frame. apply fire_one_frame. Qed.

Lemma build_request_typed r : typed (build_request r).
Proof.
  unfold typed, build_request, wrap_u32, u32_max. simpl.
  pose proof (Z.mod_pos_bound (default 0 (s_max_attempts r)) (2 ^ 32)). lia.
Qed.

Context `{HU : !UuidLaw HE}.

Lemma fire_one_sim l row : simulates false (fire_one l row).
Proof.
  unfold fire_one. destruct row as [id r].
  apply simulates_bind; [|intros; apply simulates_frame; frame].
  apply simulates_of_ok.
  { unfold enqueue_scheduled. frame. apply enqueue_one_frame. }
  apply simulates_ok_bind; [apply simulates_frame_ok; frame|]. intros now.
  apply simulates_ok_bind; [|intros [jid sm]; apply simulates_frame_ok; frame].
  apply simulates_ok_map_err, enqueue_scheduled_sim, build_request_typed.
Qed.

Lemma fire_all_sim l rows : simulates false (fire_all l rows).
Proof.
  induction rows as [|row rows IH]; simpl; [apply simulates_frame; frame|].
  apply simulates_bind; [apply simulates_attempt, fire_one_sim|]. intros x.
  apply simulates_bind; [apply simulates_frame; frame|]. intros _.
  apply simulates_bind; [done|]. intros n. apply simulates_frame. frame.
Qed.

Lemma run_once_sim l n : simulates false (run_once l n).
Proof.
  unfold run_once. apply simulates_bind; [apply simulates_frame; frame|].
  intros [now|]; [|apply simulates_frame; frame].
  apply simulates_bind; [apply simulates_frame; frame|].
  intros [due|]; [apply fire_all_sim|apply simulates_frame; frame].
Qed.
End SchedulerRuns.
