(* ===== verification/Config.v ===== *)
(** * Configuration (the parsers of src/main.rs, src/db.rs, src/telemetry.rs, src/fts.rs)

    Every setting is read from an optional environment variable: absent selects a default,
    present must parse at the setting's type and lie in its range.  A refusal is a
    [ConfigError] that carries what the message prints. *)
From Stdlib Require Import Ascii String.
From S2P Require Import Prelude Text F64 Db Telemetry Leases Retention Schedulers.
Local Open Scope string_scope.
Local Open Scope Z_scope.

Definition DEFAULT_RECOVERY_INTERVAL_MS : Z := 5000.
Definition DEFAULT_MAX_EXECUTION_DEPTH : Z := 10.
Definition MIN_LEASE_DURATION_MS : Z := 1000.
Definition DEFAULT_MAX_FLOW_DEPTH : Z := 10.
Definition DEFAULT_MAX_FLOW_NODES : Z := 1000.
Definition DEFAULT_MAX_FLOW_BULK : Z := 100.

(** The common shape of the parsers. *)
Definition parse_setting (key : string) (parse : string → option Z) (dflt : Z)
    (check : Z → result ConfigError Z) (raw : option string) : result ConfigError Z :=
  match raw with
  | None => Ok dflt
  | Some value =>
      match parse (trim value) with
      | None => Err (NotAnInteger key value)
      | Some n => check n
      end
  end.
Definition at_least (key : string) (low n : Z) : result ConfigError Z :=
  if n <? low then Err (BelowFloor key n low) else Ok n.
Definition positive (key : string) (n : Z) : result ConfigError Z :=
  if n <=? 0 then Err (MustBePositive key n) else Ok n.

Definition parse_lease_duration_ms : option string → result ConfigError Z :=
  let key := "ANVILMQ_LEASE_DURATION_MS" in
  parse_setting key parse_i64 LEASE_DURATION_MS (at_least key MIN_LEASE_DURATION_MS).
Definition parse_recovery_interval_ms : option string → result ConfigError Z :=
  let key := "ANVILMQ_RECOVERY_INTERVAL_MS" in
  parse_setting key parse_i64 DEFAULT_RECOVERY_INTERVAL_MS (positive key).
Definition parse_max_execution_depth : option string → result ConfigError Z :=
  let key := "ANVILMQ_MAX_EXECUTION_DEPTH" in
  parse_setting key parse_u32 DEFAULT_MAX_EXECUTION_DEPTH (at_least key 1).
Definition parse_max_flow_depth : option string → result ConfigError Z :=
  let key := "ANVILMQ_MAX_FLOW_DEPTH" in
  parse_setting key parse_u32 DEFAULT_MAX_FLOW_DEPTH (at_least key 1).
Definition parse_max_flow_nodes : option string → result ConfigError Z :=
  let key := "ANVILMQ_MAX_FLOW_NODES" in
  parse_setting key parse_u32 DEFAULT_MAX_FLOW_NODES (at_least key 1).
Definition parse_max_flow_bulk : option string → result ConfigError Z :=
  let key := "ANVILMQ_MAX_FLOW_BULK" in
  parse_setting key parse_u32 DEFAULT_MAX_FLOW_BULK (at_least key 1).
Definition parse_recovery_batch_size : option string → result ConfigError Z :=
  let key := "ANVILMQ_RECOVERY_BATCH_SIZE" in
  parse_setting key parse_usize DEFAULT_RECOVERY_BATCH_SIZE (at_least key 1).
Definition parse_scheduler_interval_ms : option string → result ConfigError Z :=
  let key := "ANVILMQ_SCHEDULER_INTERVAL_MS" in
  parse_setting key parse_i64 DEFAULT_SCHEDULER_INTERVAL_MS (positive key).
Definition parse_scheduler_batch_size : option string → result ConfigError Z :=
  let key := "ANVILMQ_SCHEDULER_BATCH_SIZE" in
  parse_setting key parse_usize DEFAULT_SCHEDULER_BATCH_SIZE (at_least key 1).

(** ** Modes *)
Inductive Durability := Normal | Full.
Definition Durability_parse (value : string) : result string Durability :=
  let v := to_ascii_uppercase value in
  if String.eqb v "NORMAL" then Ok Normal
  else if String.eqb v "FULL" then Ok Full
  else Err "ANVILMQ_DURABILITY must be NORMAL or FULL".
Definition Durability_name (d : Durability) : string :=
  match d with Normal => "NORMAL" | Full => "FULL" end.
Definition synchronous (d : Durability) : Z := match d with Normal => 1 | Full => 2 end.

Inductive MetricsMode := Allowlist | All.
Definition MetricsMode_parse (value : string) : result string MetricsMode :=
  let v := to_ascii_lowercase (trim value) in
  if String.eqb v "" || String.eqb v "allowlist" then Ok Allowlist
  else if String.eqb v "all" then Ok All
  else Err "ANVILMQ_METRICS_MODE must be 'allowlist' or 'all'".

Definition DEFAULT_METRICS_MAX_NAMES : Z := 100.
Definition METRICS_MAX_NAMES_CEILING : Z := 1000.
Definition parse_max_names (value : string) : result string Z :=
  let bad := Err "ANVILMQ_METRICS_MAX_NAMES must be an integer in 1..=1000" in
  match parse_usize (trim value) with
  | None => bad
  | Some cap => if (cap =? 0) || (METRICS_MAX_NAMES_CEILING <? cap) then bad else Ok cap
  end.

(** [is_truthy] of src/fts.rs; the fairness and backup switches read the same words. *)
Definition is_truthy (value : string) : bool :=
  let v := to_ascii_lowercase (trim value) in
  String.eqb v "1" || String.eqb v "true" || String.eqb v "yes".

Lemma parse_setting_Ok key parse dflt check raw n :
  parse_setting key parse dflt check raw = Ok n →
  (raw = None ∧ n = dflt)
  ∨ ∃ v m, raw = Some v ∧ parse (trim v) = Some m ∧ check m = Ok n.
Proof.
  unfold parse_setting. destruct raw as [v|]; [|naive_solver].
  destruct (parse (trim v)) eqn:Hp; naive_solver.
Qed.

Lemma at_least_Ok key low z n : at_least key low z = Ok n → n = z ∧ low ≤ z.
Proof. unfold at_least. destruct (Z.ltb_spec z low); [done|]. by intros [= <-]. Qed.
Lemma positive_Ok key z n : positive key z = Ok n → n = z ∧ 1 ≤ z.
Proof. unfold positive. destruct (Z.leb_spec z 0); [done|]. intros [= <-]. lia. Qed.

Lemma setting_range key lo hi low dflt check raw n :
  (∀ z n, check z = Ok n → n = z ∧ low ≤ z) → low ≤ dflt ≤ hi →
  parse_setting key (parse_int lo hi) dflt check raw = Ok n → low ≤ n ≤ hi.
Proof.
  intros Hc Hd [[_ ->]|(v & m & _ & Hp & Hn)]%parse_setting_Ok; [done|].
  apply parse_int_range in Hp. apply Hc in Hn. lia.
Qed.

Example config_ex :
  parse_lease_duration_ms (Some " 2500 ") = Ok 2500
  ∧ parse_lease_duration_ms (Some "999")
    = Err (BelowFloor "ANVILMQ_LEASE_DURATION_MS" 999 1000)
  ∧ parse_max_flow_nodes (Some "-1") = Err (NotAnInteger "ANVILMQ_MAX_FLOW_NODES" "-1").
Proof. done. Qed.
