(* ===== verification/Backup.v ===== *)
(** * Snapshot backups (src/backup.rs, its loop in src/main.rs)

    A run writes the committed database to a temporary file of the backup directory, renames
    it to its final name and prunes old snapshots.  The directory is a finite map from file
    names to what the files hold; the state of a run also records every directory it went
    through, so that a crash at any point is one of them.  The environment decides which
    operations fail, what the clock reads and in which order a directory is listed. *)
From Stdlib Require Import Ascii String.
From S2P Require Import Prelude Text Db Retention Config.
Local Open Scope string_scope.
Local Open Scope Z_scope.
#[local] Arguments String.append !_ _ / : simpl nomatch.

Definition SNAPSHOT_PREFIX : string := "snapshot-".
Definition SNAPSHOT_SUFFIX : string := ".db".
Definition TS_WIDTH : nat := 13.

(** ** Settings *)
Record BackupConfig := mkBackup {
  bk_enabled : bool; bk_interval_ms : Z; bk_dir : string; bk_retain : Z }.
Definition default_backup : BackupConfig := mkBackup false 120000 "backups" 3.

Inductive BackupConfigError :=
| MustBeInteger (key value : string)
| IntervalNotPositive
| RetainTooSmall (n : Z)
| DirEmpty.

Section FromEnv.
Context (var : string → option string).

Definition env_bool (key : string) (dflt : bool) : bool :=
  match var key with Some value => is_truthy value | None => dflt end.
Definition env_unsigned (parse : string → option Z) (key : string) (dflt : Z)
  : result BackupConfigError Z :=
  match var key with
  | Some value =>
      match parse (trim value) with Some n => Ok n | None => Err (MustBeInteger key value) end
  | None => Ok dflt
  end.
Definition env_string (key dflt : string) : string := default dflt (var key).

Definition backup_validate (c : BackupConfig) : result BackupConfigError unit :=
  if bk_interval_ms c =? 0 then Err IntervalNotPositive
  else if bk_retain c <? 1 then Err (RetainTooSmall (bk_retain c))
  else if bk_enabled c && is_blank (bk_dir c) then Err DirEmpty
  else Ok tt.

Definition backup_from_env : result BackupConfigError BackupConfig :=
  let d := default_backup in
  let enabled := env_bool "ANVILMQ_BACKUP_ENABLED" (bk_enabled d) in
  env_unsigned parse_u64 "ANVILMQ_BACKUP_INTERVAL_MS" (bk_interval_ms d) ≫= λ interval,
  let dir := env_string "ANVILMQ_BACKUP_DIR" (bk_dir d) in
  env_unsigned parse_usize "ANVILMQ_BACKUP_RETAIN" (bk_retain d) ≫= λ retain,
  let cfg := mkBackup enabled interval dir retain in
  backup_validate cfg ≫= λ _, Ok cfg.

Lemma env_unsigned_range hi key dflt n :
  0 ≤ dflt ≤ hi → env_unsigned (parse_int 0 hi) key dflt = Ok n → 0 ≤ n ≤ hi.
Proof.
  unfold env_unsigned. destruct (var key) as [v|]; [|by intros ? [= <-]].
  destruct (parse_int 0 hi (trim v)) eqn:E; [|done]. intros _ [= <-].
  by apply parse_int_range in E.
Qed.

(** An accepted configuration has a positive period, keeps at least one snapshot and, when
    enabled, names a directory. *)
Lemma backup_from_env_valid c :
  backup_from_env = Ok c →
  1 ≤ bk_interval_ms c ≤ u64_max ∧ 1 ≤ bk_retain c ≤ u64_max
  ∧ (bk_enabled c = true → is_blank (bk_dir c) = false).
Proof.
  unfold backup_from_env.
  destruct (env_unsigned parse_u64 _ _) as [iv|] eqn:E1; [|done].
  apply (env_unsigned_range u64_max) in E1; [|by vm_compute].
  destruct (env_unsigned parse_usize _ _) as [rt|] eqn:E2; [|done].
  apply (env_unsigned_range u64_max) in E2; [|by vm_compute].
  unfold backup_validate. simpl. destruct (Z.eqb_spec iv 0); [done|].
  destruct (Z.ltb_spec rt 1); [done|].
  destruct (env_bool _ _) eqn:Eb; simpl.
  - destruct (is_blank _) eqn:Ed; simpl; [done|]. intros [= <-]. simpl. split_and!; (lia || done).
  - intros [= <-]. simpl. split_and!; (lia || done).
Qed.
End FromEnv.

(** ** Names *)
Fixpoint str_contains (needle s : string) : bool :=
  String.prefix needle s || match s with String _ s' => str_contains needle s' | EmptyString => false end.
Fixpoint ends_with (suffix s : string) : bool :=
  String.eqb s suffix || match s with String _ s' => ends_with suffix s' | EmptyString => false end.

Definition is_memory_path (path : string) : bool :=
  let trimmed := trim path in
  is_empty trimmed || str_contains ":memory:" trimmed || str_contains "mode=memory" trimmed.

(** [format!("{:0width$}", z)] for [z >= 0]: at least [width] digits. *)
Definition digit (d : Z) : ascii := ascii_of_nat (48 + Z.to_nat d).
Fixpoint fixed_digits (w : nat) (z : Z) (acc : string) : string :=
  match w with
  | O => acc
  | S w' => fixed_digits w' (z / 10) (String (digit (z mod 10)) acc)
  end.
Definition fmt_padded (w : nat) (z : Z) : string :=
  if z <? 10 ^ Z.of_nat w then fixed_digits w z "" else fmt_Z z.

Definition snapshot_name (timestamp_ms : Z) : string :=
  SNAPSHOT_PREFIX ++ fmt_padded TS_WIDTH timestamp_ms ++ SNAPSHOT_SUFFIX.
Definition temp_name (base : string) : string := String "." (base ++ ".tmp").
Definition is_snapshot (name : string) : bool :=
  String.prefix SNAPSHOT_PREFIX name && ends_with SNAPSHOT_SUFFIX name.

(** ** The directory *)
Inductive File :=
| Whole (d : Db)    (** a complete copy of a committed state *)
| Torn              (** a database file being written, or left by a crash *)
| Foreign.
Abbreviation Dir := (gmap string File).

Record Fs := mkFs { fs_dir : Dir; fs_step : nat; fs_past : list Dir }.
#[export] Instance Fs_eta : Eta Fs := λ r, mkFs (fs_dir r) (fs_step r) (fs_past r).

(** [VACUUM INTO] a fresh file: it succeeds, or fails and leaves nothing or a torn file. *)
Inductive Vacuum := VacuumDone | VacuumFailed (torn : bool).
Class FsEnv := {
  fs_fault : nat → bool;
  fs_vacuum : nat → Vacuum;
  fs_listing : nat → list string → list string;
  (** [unix_ms], the elapsed time and the length of a file *)
  unix_ms : nat → Z;
  elapsed_ms : nat → Z;
  file_len : nat → Z;
}.
Class ListingLaw (E : FsEnv) := listing_perm : ∀ n l, fs_listing n l ≡ₚ l.

Inductive BackupError :=
| CreateDir | OpenDb | SetBusyTimeout | VacuumInto | PublishSnapshot (name : string)
| ReadDir | ReadDirEntry | PruneSnapshot (name : string).

Definition F (A : Type) : Type := Fs → result BackupError A * Fs.
#[export] Instance F_ret : MRet F := λ A a s, (Ok a, s).
#[export] Instance F_bind : MBind F := λ A B f m s,
  match m s with
  | (Ok a, s') => f a s'
  | (Err e, s') => (Err e, s')
  end.
(** A result inspected by the caller. *)
Definition f_attempt {A} (m : F A) : F (result BackupError A) := λ s,
  let '(r, s') := m s in (Ok r, s').
Definition f_fail {A} (e : BackupError) : F A := λ s, (Err e, s).

Record BackupOutcome := mkOutcome {
  bo_path : string; bo_timestamp_ms : Z; bo_duration_ms : Z; bo_size_bytes : Z; bo_pruned : Z }.

Section Run.
Context `{FsEnv}.

Definition f_tick (s : Fs) : Fs := s <| fs_step ::= S |>.
(** The directory moves to a new content. *)
Definition f_move (d : Dir) (s : Fs) : Fs := s <| fs_dir := d |> <| fs_past ::= cons d |>.

(** An operation that may fail, with the error it then raises. *)
Definition guard (e : BackupError) : F unit := λ s,
  if fs_fault (fs_step s) then (Err e, f_tick s) else (Ok tt, f_tick s).
Definition read_env {A} (f : nat → A) : F A := λ s, (Ok (f (fs_step s)), f_tick s).

(** [std::fs::remove_file]: whether it succeeded. *)
Definition remove_file (name : string) : F bool := λ s,
  if fs_fault (fs_step s) then (Ok false, f_tick s) else
  match fs_dir s !! name with
  | Some _ => (Ok true, f_move (delete name (fs_dir s)) (f_tick s))
  | None => (Ok false, f_tick s)
  end.

(** [conn.execute("VACUUM INTO ?1", [target])]: refused when the target exists. *)
Definition vacuum_into (d : Db) (target : string) : F unit := λ s,
  match fs_dir s !! target with
  | Some _ => (Err VacuumInto, f_tick s)
  | None =>
      let torn := <[target := Torn]> (fs_dir s) in
      match fs_vacuum (fs_step s) with
      | VacuumDone =>
          (Ok tt, f_move (<[target := Whole d]> (fs_dir s)) (f_move torn (f_tick s)))
      | VacuumFailed true => (Err VacuumInto, f_move torn (f_tick s))
      | VacuumFailed false => (Err VacuumInto, f_tick s)
      end
  end.

Definition write_snapshot (d : Db) (temp_path : string) : F unit :=
  guard OpenDb ≫= λ _, guard SetBusyTimeout ≫= λ _, vacuum_into d temp_path.

(** [std::fs::rename] *)
Definition rename (from to : string) : F bool := λ s,
  if fs_fault (fs_step s) then (Ok false, f_tick s) else
  match fs_dir s !! from with
  | Some f => (Ok true, f_move (<[to := f]> (delete from (fs_dir s))) (f_tick s))
  | None => (Ok false, f_tick s)
  end.

Fixpoint remove_all (removed : Z) (l : list string) : F Z :=
  match l with
  | [] => mret removed
  | name :: l' =>
      ok ← remove_file name;
      if (ok : bool) then remove_all (removed + 1) l' else f_fail (PruneSnapshot name)
  end.

Definition list_snapshots : F (list string) := λ s,
  (Ok (base.filter is_snapshot (fs_listing (fs_step s) (elements (dom (fs_dir s))))), f_tick s).

Definition prune (retain : Z) : F Z :=
  guard ReadDir ≫= λ _, guard ReadDirEntry ≫= λ _,
  found ← list_snapshots;
  let snapshots := merge_sort str_le found in
  let len := Z.of_nat (length snapshots) in
  if retain <? len then remove_all 0 (take (Z.to_nat (len - retain)) snapshots) else mret 0.

(** [run_blocking]; [d] is the last committed state when VACUUM INTO reads it. *)
Definition run_blocking (db_path : string) (cfg : BackupConfig) (d : Db)
  : F (option BackupOutcome) :=
  if is_memory_path db_path then mret None else
  guard CreateDir ≫= λ _,
  timestamp_ms ← read_env unix_ms;
  let base := snapshot_name timestamp_ms in
  let temp_path := temp_name base in
  remove_file temp_path ≫= λ _,
  written ← f_attempt (write_snapshot d temp_path);
  match written with
  | Err error => remove_file temp_path ≫= λ _, f_fail error
  | Ok _ =>
      ok ← rename temp_path base;
      if (ok : bool) then
        size_bytes ← read_env file_len;
        pruned ← prune (bk_retain cfg);
        duration_ms ← read_env elapsed_ms;
        mret (Some (mkOutcome base timestamp_ms duration_ms size_bytes pruned))
      else remove_file temp_path ≫= λ _, f_fail (PublishSnapshot base)
  end.

(** ** The loop of src/main.rs and its metrics *)
Record BackupMetrics := mkBackupMetrics {
  backups_total : Z; backup_failures_total : Z; last_backup_timestamp_ms : Z;
  last_backup_duration_ms : Z; last_backup_size_bytes : Z }.
Definition backup_success (ts dur size : Z) (m : BackupMetrics) : BackupMetrics :=
  mkBackupMetrics (wrap_u64 (backups_total m + 1)) (backup_failures_total m) ts dur size.
Definition backup_failure (m : BackupMetrics) : BackupMetrics :=
  mkBackupMetrics (backups_total m) (wrap_u64 (backup_failures_total m + 1))
    (last_backup_timestamp_ms m) (last_backup_duration_ms m) (last_backup_size_bytes m).

Definition backup_tick (db_path : string) (cfg : BackupConfig) (d : Db)
    (st : BackupMetrics * Fs) : BackupMetrics * Fs :=
  match run_blocking db_path cfg d st.2 with
  | (Ok (Some o), s) =>
      (backup_success (bo_timestamp_ms o) (bo_duration_ms o) (bo_size_bytes o) st.1, s)
  | (Ok None, s) => (st.1, s)
  | (Err _, s) => (backup_failure st.1, s)
  end.
End Run.

(** ** Names sort by time *)
Lemma digit_compare a b :
  0 ≤ a < 10 → 0 ≤ b < 10 → Ascii.compare (digit a) (digit b) = Z.compare a b.
Proof.
  intros Ha Hb. rewrite ascii_compare_N. unfold digit, ascii_of_nat.
  rewrite !N_ascii_embedding by lia. rewrite <-N2Z.inj_compare, !nat_N_Z.
  rewrite !Nat2Z.inj_add, !Z2Nat.id by lia. apply Z.add_compare_mono_l.
Qed.

Lemma fixed_digits_compare w a b s t :
  0 ≤ a < 10 ^ Z.of_nat w → 0 ≤ b < 10 ^ Z.of_nat w →
  String.compare (fixed_digits w a s) (fixed_digits w b t) =
  match Z.compare a b with Eq => String.compare s t | c => c end.
Proof.
  revert a b s t. induction w as [|w IH]; intros a b s t Ha Hb.
  { simpl in *. assert (a = 0) as -> by lia. assert (b = 0) as -> by lia. done. }
  rewrite Nat2Z.inj_succ, Z.pow_succ_r in Ha, Hb by lia. cbn [fixed_digits].
  rewrite IH by (Z.to_euclidean_division_equations; lia). cbn [String.compare].
  rewrite digit_compare by (apply Z.mod_pos_bound; lia).
  pose proof (Z.div_mod a 10). pose proof (Z.div_mod b 10).
  pose proof (Z.mod_pos_bound a 10). pose proof (Z.mod_pos_bound b 10).
  destruct (Z.compare_spec (a / 10) (b / 10)), (Z.compare_spec (a mod 10) (b mod 10)),
    (Z.compare_spec a b); (done || lia).
Qed.

Lemma compare_app p s t : String.compare (p ++ s) (p ++ t) = String.compare s t.
Proof.
  induction p as [|a p IH]; [done|]. simpl. by rewrite ascii_compare_N, N.compare_refl.
Qed.

(** Until the year 2286 the lexicographic order of the names is the order of their times. *)
Lemma snapshot_name_le a b :
  0 ≤ a < 10 ^ 13 → 0 ≤ b < 10 ^ 13 →
  str_le (snapshot_name a) (snapshot_name b) ↔ a ≤ b.
Proof.
  intros Ha Hb. unfold str_le, String.leb, snapshot_name. rewrite compare_app.
  unfold fmt_padded. change (Z.of_nat TS_WIDTH) with 13.
  destruct (Z.ltb_spec a (10 ^ 13)), (Z.ltb_spec b (10 ^ 13)); try lia.
  assert (∀ w z s u, fixed_digits w z s ++ u = fixed_digits w z (s ++ u)) as Happ.
  { induction w as [|w IH]; intros z s u; [done|]. simpl. by rewrite IH. }
  rewrite !Happ, (fixed_digits_compare 13) by done.
  destruct (Z.compare_spec a b); subst; simpl; try (split; [done|lia]); split; (done || lia).
Qed.

Lemma ends_with_app s suf : ends_with suf (s ++ suf) = true.
Proof.
  induction s as [|a s IH]; simpl.
  - destruct suf; simpl; [done|]. by rewrite Ascii.eqb_refl, String.eqb_refl.
  - by rewrite IH, orb_true_r.
Qed.
Lemma prefix_app p s : String.prefix p (p ++ s) = true.
Proof. induction p as [|a p IH]; [by destruct s|]. simpl. by destruct (ascii_dec a a). Qed.
Lemma snapshot_name_is t : is_snapshot (snapshot_name t) = true.
Proof.
  unfold is_snapshot. apply andb_true_intro. split; [apply prefix_app|].
  unfold snapshot_name.
  assert (∀ x y z, x ++ (y ++ z) = (x ++ y) ++ z) as Hassoc.
  { induction x as [|c x IH]; intros y z; simpl; [done|]. by rewrite IH. }
  rewrite Hassoc. apply ends_with_app.
Qed.
Lemma temp_name_is_not base : is_snapshot (temp_name base) = false.
Proof. done. Qed.

(** ** Runs *)

(** Every published snapshot is a complete copy of a committed state. *)
Definition published_whole (d : Dir) : Prop :=
  ∀ name f, d !! name = Some f → is_snapshot name = true → ∃ db, f = Whole db.
(** At every moment up to now. *)
Definition always_whole (s : Fs) : Prop := Forall published_whole (fs_dir s :: fs_past s).
Definition same_snapshots (d d' : Dir) : Prop :=
  ∀ name, is_snapshot name = true → d' !! name = d !! name.

(** What an operation does to the snapshots before the new one is published, and after. *)
Definition unpublished (s s' : Fs) : Prop :=
  (always_whole s → always_whole s') ∧ same_snapshots (fs_dir s) (fs_dir s').
Definition safely (s s' : Fs) : Prop := always_whole s → always_whole s'.
#[export] Instance unpublished_preorder : PreOrder unpublished.
Proof.
  split; [intros s; by split|]. intros s1 s2 s3 [H1 E1] [H2 E2]. split; [auto|].
  intros name Hn. by rewrite E2, E1.
Qed.
#[export] Instance safely_preorder : PreOrder safely.
Proof. split; [intros s Hs; exact Hs|]. intros s1 s2 s3 H1 H2 H. auto. Qed.
Lemma unpublished_safely s s' : unpublished s s' → safely s s'.
Proof. by intros [? _]. Qed.

Definition moves {A} (R : relation Fs) (m : F A) : Prop := ∀ s r s', m s = (r, s') → R s s'.

Section Moves.
Context `{FsEnv} {R : relation Fs} `{!PreOrder R}.

Lemma moves_bind {A B} (m : F A) (k : A → F B) :
  moves R m → (∀ a, moves R (k a)) → moves R (mbind k m).
Proof.
  intros Hm Hk s r s'. unfold mbind, F_bind. destruct (m s) as [[a|e] s1] eqn:E.
  - intros Hr. transitivity s1; [by eapply Hm|by eapply Hk].
  - intros [= <- <-]. by eapply Hm.
Qed.
Lemma moves_attempt {A} (m : F A) : moves R m → moves R (f_attempt m).
Proof. intros Hm s r s'. unfold f_attempt. destruct (m s) eqn:E. intros [= <- <-]. by eapply Hm. Qed.
Lemma moves_ret {A} (a : A) : moves R (mret a).
Proof. intros s r s' [= <- <-]. done. Qed.
Lemma moves_fail {A} e : moves R (f_fail (A := A) e).
Proof. intros s r s' [= <- <-]. done. Qed.
End Moves.

Lemma always_whole_tick s : always_whole (f_tick s) = always_whole s.
Proof. done. Qed.
Lemma always_whole_move d s : published_whole d → always_whole s → always_whole (f_move d s).
Proof.
  unfold always_whole. simpl. intros Hd [H0 Hp]%list.Forall_cons. by do 2 (constructor; [done|]).
Qed.
Lemma always_whole_dir s : always_whole s → published_whole (fs_dir s).
Proof. by intros [? _]%list.Forall_cons. Qed.
Lemma published_delete d name : published_whole d → published_whole (delete name d).
Proof. intros Hd n f [_ Hf]%lookup_delete_Some. by apply Hd. Qed.
Lemma published_insert d name f :
  published_whole d → (is_snapshot name = true → ∃ db, f = Whole db) →
  published_whole (<[name := f]> d).
Proof.
  intros Hd Hf n g. rewrite lookup_insert. case_decide; [|apply Hd]. subst. intros [= <-]. done.
Qed.
#[export] Hint Resolve always_whole_move always_whole_dir published_delete published_insert : anvil.

Section Ops.
Context `{FsEnv}.

Lemma unpublished_tick s : unpublished s (f_tick s).
Proof. by split. Qed.
Lemma guard_unpublished e : moves unpublished (guard e).
Proof.
  intros s r s'. unfold guard. destruct (fs_fault _); intros [= <- <-]; apply unpublished_tick.
Qed.
Lemma read_env_unpublished {A} (f : nat → A) : moves unpublished (read_env f).
Proof. intros s r s' [= <- <-]. apply unpublished_tick. Qed.

Lemma remove_file_safely name : moves safely (remove_file name).
Proof.
  intros s r s' Hr Hs. unfold remove_file in Hr. destruct (fs_fault _); [by simplify_eq|].
  destruct (fs_dir s !! name); simplify_eq; [|done].
  change (always_whole (f_tick s)) in Hs. eauto with anvil.
Qed.
Lemma remove_temp_unpublished base : moves unpublished (remove_file (temp_name base)).
Proof.
  intros s r s' Hr. split; [by apply (remove_file_safely _ _ _ _ Hr)|].
  intros name Hn. unfold remove_file in Hr. destruct (fs_fault _); [by simplify_eq|].
  destruct (fs_dir s !! temp_name base); simplify_eq; [|done].
  simpl. rewrite lookup_delete_ne; [done|]. intros <-. by rewrite temp_name_is_not in Hn.
Qed.

Lemma vacuum_unpublished d base : moves unpublished (vacuum_into d (temp_name base)).
Proof.
  intros s r s' Hr. unfold vacuum_into in Hr.
  destruct (fs_dir s !! _) eqn:E; [simplify_eq; apply unpublished_tick|].
  assert (∀ f, same_snapshots (fs_dir s) (<[temp_name base := f]> (fs_dir s))) as Hsame.
  { intros f name Hn. rewrite lookup_insert_ne; [done|]. intros <-. by rewrite temp_name_is_not in Hn. }
  assert (∀ f s1, fs_dir s1 = fs_dir s → always_whole s1 → published_whole (<[temp_name base := f]> (fs_dir s)))
    as Hpub.
  { intros f s1 E1 Hs1%always_whole_dir. rewrite E1 in Hs1. by apply published_insert. }
  destruct (fs_vacuum _) as [|[]]; simplify_eq; [| |apply unpublished_tick].
  - split; [|apply Hsame]. intros Hs. apply always_whole_move; [by apply (Hpub _ s)|].
    apply always_whole_move; [by apply (Hpub _ s)|done].
  - split; [|apply Hsame]. intros Hs. apply always_whole_move; [by apply (Hpub _ s)|done].
Qed.

Lemma write_unpublished d base : moves unpublished (write_snapshot d (temp_name base)).
Proof.
  unfold write_snapshot. repeat (apply moves_bind; [apply guard_unpublished|intros _]).
  apply vacuum_unpublished.
Qed.

Lemma write_snapshot_Ok d name s s' :
  write_snapshot d name s = (Ok tt, s') →
  fs_dir s !! name = None ∧ fs_dir s' = <[name := Whole d]> (fs_dir s).
Proof.
  unfold write_snapshot, mbind, F_bind, guard, vacuum_into. simpl.
  destruct (fs_fault _); [done|]. simpl. destruct (fs_fault _); [done|]. simpl.
  destruct (fs_dir s !! name) eqn:E; [done|].
  destruct (fs_vacuum _) as [|[]]; [|done..]. by intros [= <-].
Qed.

Lemma remove_all_safely n l : moves safely (remove_all n l).
Proof.
  revert n. induction l as [|name l IH]; intros n; simpl; [apply moves_ret|].
  apply moves_bind; [apply remove_file_safely|]. intros []; [apply IH|apply moves_fail].
Qed.
Lemma prune_safely retain : moves safely (prune retain).
Proof.
  unfold prune.
  repeat (apply moves_bind; [intros s r s' Hr; eapply unpublished_safely, guard_unpublished, Hr|intros _]).
  apply moves_bind.
  - intros s r s' [= <- <-] Hs. exact Hs.
  - intros found. destruct (_ <? _); [apply remove_all_safely|apply moves_ret].
Qed.
End Ops.

(** ** Pruning *)
Section Prune.
Context `{FsEnv, HL : !ListingLaw _}.

(** The published names of a directory. *)
Definition names (d : Dir) : list string := base.filter is_snapshot (elements (dom d)).
Lemma elem_of_names d name : name ∈ names d ↔ is_snapshot name = true ∧ name ∈ dom d.
Proof. unfold names. rewrite list_elem_of_filter, elem_of_elements, Is_true_true. done. Qed.
Lemma names_NoDup d : NoDup (names d).
Proof. apply list.NoDup_filter, NoDup_elements. Qed.

Lemma remove_all_Ok n l s k s' :
  NoDup l → remove_all n l s = (Ok k, s') →
  k = n + Z.of_nat (length l)
  ∧ ∀ name, fs_dir s' !! name = if decide (name ∈ l) then None else fs_dir s !! name.
Proof.
  intros Hnd. revert n s. induction Hnd as [|x l Hx Hnd IH]; intros n s.
  - intros [= <- <-]. split; [simpl; lia|]. intros name.
    by rewrite decide_False by apply not_elem_of_nil.
  - simpl. unfold mbind, F_bind, remove_file. destruct (fs_fault _); [done|].
    destruct (fs_dir s !! x) eqn:E; [|done]. intros Hr. apply IH in Hr as [-> Hl].
    split; [simpl; lia|]. intros name. rewrite Hl. simpl. rewrite lookup_delete.
    repeat case_decide; set_solver.
Qed.

(** What a successful pruning leaves: the greatest names, the oldest are gone. *)
Lemma prune_Ok retain s k s' :
  0 ≤ retain → prune retain s = (Ok k, s') →
  ∃ old kept, names (fs_dir s) ≡ₚ old ++ kept
    ∧ Z.of_nat (length kept) = Z.min retain (Z.of_nat (length (names (fs_dir s))))
    ∧ k = Z.of_nat (length old)
    ∧ (∀ x y, x ∈ old → y ∈ kept → str_le x y)
    ∧ ∀ name, fs_dir s' !! name = if decide (name ∈ old) then None else fs_dir s !! name.
Proof.
  intros Hret. unfold prune, mbind, F_bind, guard, list_snapshots. simpl.
  destruct (fs_fault _); [done|]. simpl. destruct (fs_fault _); [done|]. simpl.
  set (found := base.filter is_snapshot (fs_listing _ _)).
  assert (found ≡ₚ names (fs_dir s)) as Hf by (unfold found, names; by rewrite listing_perm).
  set (l := merge_sort str_le found).
  assert (l ≡ₚ names (fs_dir s)) as Hl by (unfold l; by rewrite merge_sort_Permutation).
  assert (StronglySorted str_le l) as Hs by apply (StronglySorted_merge_sort str_le).
  assert (NoDup l) as Hnd by (rewrite Hl; apply names_NoDup).
  set (n := Z.to_nat (Z.of_nat (length l) - retain)). intros Hr.
  assert (k = Z.of_nat (length (take n l))
          ∧ ∀ name, fs_dir s' !! name = if decide (name ∈ take n l) then None
                                        else fs_dir s !! name) as [Hk Hd].
  { destruct (Z.ltb_spec retain (Z.of_nat (length l))).
    - apply remove_all_Ok in Hr; [|by eapply sublist_NoDup; [|apply sublist_take]]. simpl in Hr.
      exact Hr.
    - assert (n = 0%nat) as -> by lia. injection Hr as <- <-. rewrite take_0. split; [done|].
      intros name. by rewrite decide_False by apply not_elem_of_nil. }
  exists (take n l), (drop n l). rewrite take_drop. split_and!; [done| |done| |done].
  - rewrite <-Hl, length_drop. lia.
  - rewrite <-(take_drop n l) in Hs. intros x y. by apply (StronglySorted_app_1_elem_of _ _ _ _ _ Hs).
Qed.
End Prune.

(** ** What a run does *)
Definition prune_error (e : BackupError) : bool :=
  match e with ReadDir | ReadDirEntry | PruneSnapshot _ => true | _ => false end.

Section RunSpec.
Context `{HF : FsEnv}.

Lemma F_bind_inv {A B} (m : F A) (k : A → F B) s r s' :
  mbind k m s = (r, s') →
  (∃ a s1, m s = (Ok a, s1) ∧ k a s1 = (r, s')) ∨ ∃ e, m s = (Err e, s') ∧ r = Err e.
Proof. unfold mbind, F_bind. destruct (m s) as [[a|e] s1]; naive_solver. Qed.
Lemma guard_inv e s r s' :
  guard e s = (r, s') → s' = f_tick s ∧ (r = Ok tt ∨ r = Err e).
Proof. unfold guard. destruct (fs_fault _); naive_solver. Qed.
Lemma remove_file_total name s r s' : remove_file name s = (r, s') → ∃ b, r = Ok b.
Proof. unfold remove_file. destruct (fs_fault _), (fs_dir s !! name); naive_solver. Qed.

Lemma remove_file_other name s r s' x :
  remove_file name s = (r, s') → x ≠ name → fs_dir s' !! x = fs_dir s !! x.
Proof.
  unfold remove_file. destruct (fs_fault _); [by intros [= _ <-]|].
  destruct (fs_dir s !! name); intros [= _ <-] Hne; [|done]. simpl. by rewrite lookup_delete_ne.
Qed.

(** Pruning raises only its own errors. *)
Lemma remove_all_error n l s e s' : remove_all n l s = (Err e, s') → prune_error e = true.
Proof.
  revert n s. induction l as [|x l IH]; intros n s; [done|]. simpl.
  intros [(b & s1 & _ & Hk)|(e' & He & _)]%F_bind_inv.
  - destruct b; [by eapply IH|]. by injection Hk as <- <-.
  - by apply remove_file_total in He as [? ?].
Qed.
Lemma prune_error_only retain s e s' : prune retain s = (Err e, s') → prune_error e = true.
Proof.
  unfold prune. intros [(? & s1 & _ & Hr)|(e' & He & [= <-])]%F_bind_inv.
  2:{ by apply guard_inv in He as [_ [?|[= ->]]]. }
  apply F_bind_inv in Hr as [(? & s2 & _ & Hr)|(e' & He & [= <-])].
  2:{ by apply guard_inv in He as [_ [?|[= ->]]]. }
  apply F_bind_inv in Hr as [(found & s3 & _ & Hr)|(e' & He & _)]; [|done].
  destruct (_ <? _); [by eapply remove_all_error|done].
Qed.

(** The write: it fails with an error of its own and publishes nothing, or it leaves the
    copy in the temporary file. *)
Lemma write_outcome d base s r s' :
  write_snapshot d (temp_name base) s = (r, s') →
  unpublished s s'
  ∧ match r with
    | Ok _ => fs_dir s' !! temp_name base = Some (Whole d)
    | Err e => prune_error e = false
    end.
Proof.
  intros Hr. split; [by eapply write_unpublished|]. destruct r as [[]|e].
  - apply write_snapshot_Ok in Hr as [_ ->]. by rewrite lookup_insert_eq.
  - unfold write_snapshot in Hr.
    apply F_bind_inv in Hr as [(? & s1 & _ & Hr)|(e' & He & [= <-])].
    2:{ by apply guard_inv in He as [_ [?|[= ->]]]. }
    apply F_bind_inv in Hr as [(? & s2 & _ & Hr)|(e' & He & [= <-])].
    2:{ by apply guard_inv in He as [_ [?|[= ->]]]. }
    unfold vacuum_into in Hr. destruct (fs_dir s2 !! _); [by injection Hr as <- _|].
    destruct (fs_vacuum _) as [|[]]; by simplify_eq.
Qed.

(** The two shapes of a run: nothing is published, or the new snapshot is, complete, and the
    directory is pruned; only the temporary file has changed before that. *)
Lemma run_blocking_cases db_path cfg d s r s' :
  run_blocking db_path cfg d s = (r, s') →
  (unpublished s s'
   ∧ match r with
     | Ok o => o = None ∧ is_memory_path db_path = true
     | Err e => prune_error e = false
     end)
  ∨ ∃ t s1 s2 k s3,
      unpublished s s1 ∧ fs_dir s1 !! temp_name (snapshot_name t) = Some (Whole d)
      ∧ (∀ x, x ≠ temp_name (snapshot_name t) → fs_dir s1 !! x = fs_dir s !! x)
      ∧ fs_dir s2 = <[snapshot_name t := Whole d]> (delete (temp_name (snapshot_name t)) (fs_dir s1))
      ∧ safely s1 s2 ∧ prune (bk_retain cfg) s2 = (k, s3)
      ∧ fs_dir s' = fs_dir s3 ∧ fs_past s' = fs_past s3
      ∧ match k with
        | Err e => r = Err e
        | Ok n => ∃ dur size, r = Ok (Some (mkOutcome (snapshot_name t) t dur size n))
        end.
Proof.
  unfold run_blocking. destruct (is_memory_path db_path) eqn:Em.
  { intros [= <- <-]. left. by split. }
  intros [(? & s1 & Hg & Hr)|(e & He & ->)]%F_bind_inv.
  2:{ left. split; [by eapply guard_unpublished|]. by apply guard_inv in He as [_ [?|[= ->]]]. }
  pose proof (proj1 (guard_inv _ _ _ _ Hg)) as Eg. apply guard_unpublished in Hg.
  apply F_bind_inv in Hr as [(t & s2 & Ht & Hr)|(e & He & _)]; [|done].
  assert (fs_dir s2 = fs_dir s) as E2 by (injection Ht as _ <-; by rewrite Eg).
  apply read_env_unpublished in Ht.
  apply F_bind_inv in Hr as [(b & s3 & Hrm & Hr)|(e & He & ->)].
  2:{ by apply remove_file_total in He as [? ?]. }
  assert (∀ x, x ≠ temp_name (snapshot_name t) → fs_dir s3 !! x = fs_dir s !! x) as Hoth.
  { intros y Hy. by rewrite (remove_file_other _ _ _ _ y Hrm Hy), E2. }
  apply remove_temp_unpublished in Hrm.
  apply F_bind_inv in Hr as [(wr & s4 & Hw & Hr)|(e & He & ->)].
  2:{ unfold f_attempt in He. by destruct (write_snapshot _ _ _). }
  unfold f_attempt in Hw. destruct (write_snapshot _ _ _) as [wr' s4'] eqn:Hws.
  injection Hw as <- <-. pose proof Hws as Hw4. apply write_outcome in Hws as [Hwu Hwr].
  assert (unpublished s s4') as Hu by (do 3 (etrans; [eassumption|]); exact Hwu).
  destruct wr' as [[]|e].
  1: assert (∀ x, x ≠ temp_name (snapshot_name t) → fs_dir s4' !! x = fs_dir s !! x) as Hoth4
    by (intros y Hy; apply write_snapshot_Ok in Hw4 as [_ ->];
        rewrite lookup_insert_ne by done; by apply Hoth).
  2:{ left. apply F_bind_inv in Hr as [(b' & s5 & Hrm' & Hr)|(e' & He & ->)].
      - injection Hr as <- <-. split; [|done]. etrans; [exact Hu|].
        by eapply remove_temp_unpublished.
      - by apply remove_file_total in He as [? ?]. }
  apply F_bind_inv in Hr as [(ok & s5 & Hren & Hr)|(e & He & ->)].
  2:{ unfold rename in He. by destruct (fs_fault _), (fs_dir s4' !! _). }
  unfold rename in Hren. rewrite Hwr in Hren.
  destruct (fs_fault _); injection Hren as <- <-.
  { left. apply F_bind_inv in Hr as [(b' & s6 & Hrm' & Hr)|(e' & He & ->)].
    - injection Hr as <- <-. split; [|done]. etrans; [exact Hu|].
      etrans; [apply unpublished_tick|]. by eapply remove_temp_unpublished.
    - by apply remove_file_total in He as [? ?]. }
  right. apply F_bind_inv in Hr as [(size & s6 & Hsz & Hr)|(e & He & _)]; [|done].
  injection Hsz as <- <-.
  set (s6 := f_tick _) in Hr. exists t, s4', s6.
  assert (safely s4' s6) as Hsafe.
  { intros Hs4. apply always_whole_move; [|exact Hs4].
    apply published_insert; [by apply published_delete, always_whole_dir|]. eauto. }
  apply F_bind_inv in Hr as [(n & s7 & Hp & Hr)|(e & Hp & ->)].
  - apply F_bind_inv in Hr as [(dur & s8 & Hd & Hr)|(e & He & _)]; [|done].
    injection Hd as <- <-. injection Hr as <- <-. exists (Ok n), s7. split_and!; try done. eauto.
  - by exists (Err e), s'.
Qed.

(** C32: a backup never exposes an incomplete snapshot.  Whatever fails, and wherever the
    process is stopped, every file whose name a restore or an uploader would pick up holds a
    complete copy of a committed state at every moment; and a run that fails before pruning,
    or skips an in-memory database, leaves the published snapshots as they were. *)
Theorem snapshots_always_whole db_path cfg d s r s' :
  run_blocking db_path cfg d s = (r, s') → always_whole s →
  always_whole s'
  ∧ match r with
    | Ok None => same_snapshots (fs_dir s) (fs_dir s')
    | Ok (Some o) => is_memory_path db_path = false
    | Err e => prune_error e = false → same_snapshots (fs_dir s) (fs_dir s')
    end.
Proof.
  intros Hr Hs. pose proof Hr as [[[Hu Hsame] Ho]|
    (t & s1 & s2 & k & s3 & [Hu _] & _ & _ & _ & Hs12 & Hp & Hd & Hpast & Hk)]%run_blocking_cases.
  - split; [auto|]. destruct r as [o|e]; [|done]. by destruct Ho as [-> _].
  - split.
    + apply prune_safely in Hp. specialize (Hp (Hs12 (Hu Hs))).
      unfold always_whole in *. by rewrite Hd, Hpast.
    + destruct k as [n|e].
      * destruct Hk as (dur & size & ->). unfold run_blocking in Hr.
        destruct (is_memory_path db_path); [by injection Hr|done].
      * subst r. by rewrite (prune_error_only _ _ _ _ Hp).
Qed.

(** ** The snapshots that are kept *)
Context `{HL : !ListingLaw HF}.

Definition published (d : Dir) : gset string := list_to_set (names d).
Lemma elem_of_published d name :
  name ∈ published d ↔ is_snapshot name = true ∧ is_Some (d !! name).
Proof. unfold published. by rewrite elem_of_list_to_set, elem_of_names, elem_of_dom. Qed.
Lemma size_published d : size (published d) = length (names d).
Proof. apply size_list_to_set, names_NoDup. Qed.

Lemma published_insert_eq t d d1 f :
  same_snapshots d d1 →
  published (<[snapshot_name t := f]> (delete (temp_name (snapshot_name t)) d1))
  = {[snapshot_name t]} ∪ published d.
Proof.
  intros Hsame. apply set_eq. intros x.
  rewrite elem_of_union, elem_of_singleton, !elem_of_published, lookup_insert. case_decide as E.
  - subst. pose proof (snapshot_name_is t). naive_solver.
  - split.
    + intros [Hx Hd]. right. split; [done|]. rewrite <-Hsame by done.
      rewrite lookup_delete_ne in Hd; [done|]. intros <-. by rewrite temp_name_is_not in Hx.
    + intros [->|[Hx Hd]]; [done|]. split; [done|].
      rewrite lookup_delete_ne, Hsame; [done|done|].
      intros <-. by rewrite temp_name_is_not in Hx.
Qed.

(** Pruning in terms of sets of names. *)
Lemma prune_published retain s k s' :
  0 ≤ retain → prune retain s = (Ok k, s') →
  published (fs_dir s') ⊆ published (fs_dir s)
  ∧ Z.of_nat (size (published (fs_dir s'))) = Z.min retain (Z.of_nat (size (published (fs_dir s))))
  ∧ k = Z.of_nat (size (published (fs_dir s))) - Z.of_nat (size (published (fs_dir s')))
  ∧ (∀ x y, x ∈ published (fs_dir s) → x ∉ published (fs_dir s') → y ∈ published (fs_dir s') →
            str_le x y)
  ∧ (∀ name, name ∉ published (fs_dir s) ∨ name ∈ published (fs_dir s') →
             fs_dir s' !! name = fs_dir s !! name).
Proof.
  intros Hret Hp. apply prune_Ok in Hp as (old & kept & Hperm & Hlen & -> & Hle & Hd); [|done].
  assert (∀ x, x ∈ published (fs_dir s) ↔ x ∈ old ∨ x ∈ kept) as Hin.
  { intros x. unfold published. by rewrite elem_of_list_to_set, Hperm, elem_of_app. }
  pose proof (names_NoDup (fs_dir s)) as Hnd. rewrite Hperm in Hnd.
  apply list.NoDup_app in Hnd as (Hno & Hdisj & Hnk).
  assert (∀ x, x ∈ published (fs_dir s') ↔ x ∈ kept) as Hin'.
  { intros x. rewrite elem_of_published, Hd. split.
    - intros [Hx Hdx]. case_decide as Ho; [by destruct Hdx|].
      destruct (proj1 (Hin x)) as [|]; [by apply elem_of_published|done|done].
    - intros Hk. rewrite decide_False by (intros Ho; by apply (Hdisj x)).
      apply elem_of_published, Hin. by right. }
  assert (published (fs_dir s') = list_to_set kept) as Heq.
  { apply set_eq. intros x. by rewrite Hin', elem_of_list_to_set. }
  assert (size (published (fs_dir s')) = length kept) as Hsz
    by (rewrite Heq; by apply size_list_to_set).
  assert (length (names (fs_dir s)) = (length old + length kept)%nat) as Hsum
    by (rewrite Hperm; apply length_app).
  split_and!.
  - intros x Hx. apply Hin. right. by apply Hin'.
  - rewrite Hsz, size_published. done.
  - rewrite Hsz, size_published. lia.
  - intros x y Hx Hnx Hy. apply Hle; [|by apply Hin'].
    apply Hin in Hx as [|Hx]; [done|]. by apply Hin' in Hx.
  - intros x Hx. rewrite Hd, decide_False; [done|]. intros Ho. destruct Hx as [Hx|Hx].
    + apply Hx, Hin. by left.
    + apply Hin' in Hx. by apply (Hdisj x).
Qed.

(** C33: a successful run publishes the committed state under the name of its time and keeps
    the [retain] latest names, the oldest going first.  It touches no other file: a snapshot
    that is kept holds what it held, its own temporary file is gone, and every file that is
    neither is as it was.  If its name is the latest, which it is when the clock has not gone
    back since the snapshots of the directory were taken, the new snapshot is among them. *)
Theorem backup_keeps_latest db_path cfg d s o s' :
  run_blocking db_path cfg d s = (Ok (Some o), s') → 1 ≤ bk_retain cfg →
  let path := bo_path o in
  let before := {[path]} ∪ published (fs_dir s) in
  let after := published (fs_dir s') in
  path = snapshot_name (bo_timestamp_ms o)
  ∧ after ⊆ before
  ∧ Z.of_nat (size after) = Z.min (bk_retain cfg) (Z.of_nat (size before))
  ∧ bo_pruned o = Z.of_nat (size before) - Z.of_nat (size after)
  ∧ (∀ x y, x ∈ before → x ∉ after → y ∈ after → str_le x y)
  ∧ (∀ x, x ∈ after → fs_dir s' !! x = if decide (x = path) then Some (Whole d) else fs_dir s !! x)
  ∧ (∀ x, is_snapshot x = false →
       fs_dir s' !! x = if decide (x = temp_name path) then None else fs_dir s !! x)
  ∧ ((∀ x, x ∈ published (fs_dir s) →
        ∃ t, x = snapshot_name t ∧ 0 ≤ t ≤ bo_timestamp_ms o ∧ bo_timestamp_ms o < 10 ^ 13) →
     fs_dir s' !! path = Some (Whole d)).
Proof.
  intros Hr Hret. apply run_blocking_cases in Hr as [[_ [? _]]|
    (t & s1 & s2 & k & s3 & [_ Hsame] & _ & Hoth & Hd2 & _ & Hp & Hd & _ & Hk)]; [done|].
  destruct k as [n|]; [|done]. destruct Hk as (dur & len & [= ->]). simpl. rewrite Hd.
  apply prune_published in Hp as (Hsub & Hsize & -> & Hle & Hfile); [|lia].
  assert (∀ x, is_snapshot x = false →
    fs_dir s3 !! x = if decide (x = temp_name (snapshot_name t)) then None else fs_dir s !! x) as Hrest.
  { intros x Hx. rewrite Hfile, Hd2.
    2:{ left. rewrite elem_of_published, Hx. by intros [? _]. }
    rewrite lookup_insert_ne by (intros <-; by rewrite snapshot_name_is in Hx).
    case_decide as E; [by rewrite E, lookup_delete_eq|]. rewrite lookup_delete_ne by done. auto. }
  rewrite Hd2, (published_insert_eq _ _ _ _ Hsame) in Hsub, Hsize, Hle, Hfile |- *.
  assert (∀ x, x ∈ published (fs_dir s3) →
    fs_dir s3 !! x = if decide (x = snapshot_name t) then Some (Whole d) else fs_dir s !! x) as Hf.
  { intros x Hx. rewrite Hfile by auto. pose proof Hx as [Hix _]%elem_of_published.
    rewrite lookup_insert. repeat case_decide; try congruence.
    rewrite lookup_delete_ne, Hsame; [done|done|]. intros <-. by rewrite temp_name_is_not in Hix. }
  split_and!; try done. intros Hall.
  destruct (decide (snapshot_name t ∈ published (fs_dir s3))) as [Hin|Hni].
  { rewrite Hf by done. by rewrite decide_True. }
  exfalso. destruct (set_choose_L (published (fs_dir s3))) as [y Hy].
  { intros He. rewrite He, size_empty in Hsize.
    assert (size ({[snapshot_name t]} ∪ published (fs_dir s)) ≠ 0%nat); [|lia].
    apply size_non_empty_iff. set_solver. }
  assert (str_le (snapshot_name t) y) as H1 by (apply Hle; set_solver).
  assert (y ∈ published (fs_dir s)) as (u & -> & Hu & Ht)%Hall by set_solver.
  apply snapshot_name_le in H1; [|lia..]. assert (u = t) as -> by lia. done.
Qed.
End RunSpec.
