(* ===== verification/Render.v ===== *)
(** * The metrics page (src/telemetry.rs, src/pressure.rs)

    [Metrics::render] with its parts, the RPC latency timers and the sampler that fills the
    pressure gauges.  The page is a list of lines (Exposition.v) in the order in which the
    code appends them; [samples] says what the page means, without text. *)
From Stdlib Require Import Ascii String.
From S2P Require Import Prelude Text Query F64 Db Encoding Exposition Pressure Telemetry Backup.
Local Open Scope string_scope.
Local Open Scope Z_scope.
#[local] Arguments String.append !_ _ / : simpl nomatch.

(** ** RPC latency *)
Definition METHODS : list string :=
  ["AddJob"; "AddJobBulk"; "GetNextJob"; "CompleteJob"; "FailJob"; "Heartbeat";
   "UpsertRateLimitRule"; "DeleteRateLimitRule"; "GetRateLimitStatus";
   "UpsertIngressLimitRule"; "DeleteIngressLimitRule"; "GetIngressLimitStatus";
   "UpsertJobScheduler"; "DeleteJobScheduler"; "GetJobScheduler"; "ListJobSchedulers";
   "AddFlow"; "GetChildrenValues"; "AddFlowBulk"; "AddFlowMerge"].
Definition BOUNDS : list Z := [1000; 5000; 10000; 50000; 100000; 1000000; 5000000].

Record Latency := mkLatency { lt_count : Z; lt_micros : Z; lt_buckets : list Z }.
Definition empty_latency : Latency := mkLatency 0 0 (replicate 7 0).

Definition latency_observe (us : Z) (l : Latency) : Latency :=
  mkLatency (u64_add 1 (lt_count l)) (u64_add us (lt_micros l))
    (zip_with (λ bound c, if us <=? bound then u64_add 1 c else c) BOUNDS (lt_buckets l)).
(** [Timer::drop]: [elapsed] is the [u128] of [as_micros]. *)
Definition timer_drop (method : string) (elapsed : Z) (ls : list Latency) : list Latency :=
  match position method METHODS with
  | Some i => alter (latency_observe (Z.min elapsed u64_max)) i ls
  | None => ls
  end.

(** ** The sampler ([spawn] of src/pressure.rs): one tick

    [read] is the clock and the table the connection saw, or nothing when opening it, the
    queries or their time limit failed; [elapsed] the microseconds it took. *)
Definition sampler_tick (read : option (Db * Z)) (elapsed : Z) (p : Pressure) : Pressure :=
  let p1 := match read with Some (d, now) => sample d now p | None => p end in
  let p2 := p1 <| pr_duration_us := wrap_u64 elapsed |> in
  match read with Some _ => p2 | None => p2 <| pr_errors ::= u64_add 1 |> end.

(** ** The registry: everything the page shows *)
Record Registry := mkRegistry {
  rg_metrics : Metrics;
  rg_backup : BackupMetrics;
  rg_latency : list Latency;
}.

Definition nth_Z (l : list Z) (i : nat) : Z := default 0 (l !! i).
Definition val (l : list Z) (i : nat) : string := fmt_Z (nth_Z l i).
(** [ms as f64 / 1000.] and [us as f64 / 1e6] *)
Definition secs (ms : Z) : string := display_f64 (fdiv (f64_of_Z ms) (f64_of_Z 1000)).
Definition micros (us : Z) : string := display_f64 (fdiv (f64_of_Z us) (f64_of_Z 1000000)).

(** ** Lines *)
Definition histogram_lines (metric : string) (labels : list (string * string)) (les : list string)
    (buckets : list Z) (count : Z) (sum : string) : list Item :=
  (imap (λ i le, Line (metric ++ "_bucket") (labels ++ [("le", le)]) (val buckets i)) les
   ++ [Line (metric ++ "_bucket") (labels ++ [("le", "+Inf")]) (fmt_Z count);
       Line (metric ++ "_count") labels (fmt_Z count);
       Line (metric ++ "_sum") labels sum])%list.

Definition duration_render (metric : string) (labels : list (string * string)) (h : Histogram)
  : list Item :=
  histogram_lines metric labels (secs <$> BOUNDS_MS) (hg_buckets h) (hg_count h)
    (secs (hg_millis h)).
Definition histogram_render (name : string) (h : Histogram) : list Item :=
  histogram_lines name [] (secs <$> BOUNDS_MS) (hg_buckets h) (hg_count h) (secs (hg_millis h)).

Definition scalar (s : string * string * string * Z) : list Item :=
  let '(name, help, kind, z) := s in [Help name help kind; Line name [] (fmt_Z z)].

Definition render_states (m : Metrics) : list Item :=
  Help "anvilmq_jobs" "Persisted jobs by state including retained history." "gauge"
  :: imap (λ i s, Line "anvilmq_jobs" [("state", s)] (val (states m) i)) STATES.
Definition render_events (m : Metrics) : list Item :=
  Help "anvilmq_transitions_total" "Committed lifecycle events since process start." "counter"
  :: imap (λ i e, Line "anvilmq_transitions_total" [("event", e)] (val (events m) i)) EVENTS.
Definition render_latency (ls : list Latency) : list Item :=
  Help "anvilmq_rpc_duration_seconds"
    "Handler duration including validation failures and database waits." "histogram"
  :: mjoin (imap (λ i method,
       let l := default empty_latency (ls !! i) in
       histogram_lines "anvilmq_rpc_duration_seconds" [("method", method)] (micros <$> BOUNDS)
         (lt_buckets l) (lt_count l) (micros (lt_micros l))) METHODS).
Definition render_retention (m : Metrics) : list Item :=
  Help "anvilmq_retention_deleted_total"
    "History and receipt rows pruned by the retention sweeper." "counter"
  :: mjoin (imap (λ t target, imap (λ r reason,
       Line "anvilmq_retention_deleted_total" [("target", target); ("reason", reason)]
         (val (default [] (retention_deleted_total m !! t)) r)) RETENTION_REASONS)
       RETENTION_TARGETS).
Definition render_rejections (m : Metrics) : list Item :=
  Help "anvilmq_enqueue_rejections_total" "Admission-time enqueue rejections by kind." "counter"
  :: imap (λ i k, Line "anvilmq_enqueue_rejections_total" [("kind", k)]
                    (val (enqueue_rejections_by_kind m) i)) REJECTION_KINDS.

Definition scalars_recovery (m : Metrics) : list (string * string * string * Z) :=
  [("anvilmq_recovery_errors_total", "Failed recovery batches.", "counter", recovery_errors m)].
Definition scalars_backup (rg : Registry) : list (string * string * string * Z) :=
  let m := rg_metrics rg in let b := rg_backup rg in
  [("anvilmq_retention_errors_total", "Failed retention sweep batches.", "counter",
     retention_errors m);
   ("anvilmq_backups_total", "Successful local snapshots written by the backup writer.",
     "counter", backups_total b);
   ("anvilmq_backup_failures_total", "Failed backup runs.", "counter", backup_failures_total b);
   ("anvilmq_last_backup_timestamp_ms",
     "Wall-clock time of the last successful snapshot in unix milliseconds.", "gauge",
     last_backup_timestamp_ms b);
   ("anvilmq_last_backup_duration_ms",
     "Duration of the last successful snapshot in milliseconds.", "gauge",
     last_backup_duration_ms b);
   ("anvilmq_last_backup_size_bytes", "Size of the last successful snapshot in bytes.", "gauge",
     last_backup_size_bytes b)].
Definition scalars_enqueue (m : Metrics) : list (string * string * string * Z) :=
  [("anvilmq_throttled_polls_total", "Polls encountering at least one due throttled job.",
     "counter", throttled_polls m);
   ("anvilmq_enqueue_replays_total", "Matching enqueue retries since process start.", "counter",
     enqueue_replays m);
   ("anvilmq_enqueue_conflicts_total", "Conflicting enqueue keys since process start.",
     "counter", enqueue_conflicts m);
   ("anvilmq_enqueue_receipts", "Retained enqueue idempotency receipts.", "gauge",
     enqueue_receipts_gauge m);
   ("anvilmq_enqueue_dedup_released_total",
     "Release-on-finish receipts released at terminal state since process start.", "counter",
     dedup_released_total m);
   ("anvilmq_job_results_stored_total",
     "Worker return values persisted on terminal history rows since process start.", "counter",
     results_stored m);
   ("anvilmq_ancestry_rejections_total",
     "Enqueues rejected for missing parent or inconsistent execution depth.", "counter",
     ancestry_rejections m);
   ("anvilmq_chain_quarantines_total",
     "Enqueues rejected because their lineage exceeded the runaway-chain cap.", "counter",
     chain_quarantines m);
   ("anvilmq_chain_counters_pruned_total",
     "Idle per-lineage counter rows reclaimed by the retention sweeper.", "counter",
     chain_counters_pruned_total m);
   ("anvilmq_ingress_rejected_total",
     "Enqueues rejected by the sliding-window ingress velocity control.", "counter",
     ingress_rejections m);
   ("anvilmq_facet_dispatch_pruned_total",
     "Idle per-facet fairness rotation rows reclaimed by the retention sweeper.", "counter",
     facet_dispatch_pruned_total m)].
Definition scalars_flow (m : Metrics) : list (string * string * string * Z) :=
  [("anvilmq_rejections_pruned_total",
     "Aged-out forensic enqueue-rejection rows reclaimed by the retention sweeper.", "counter",
     rejections_pruned_total m);
   ("anvilmq_scheduler_jobs_produced_total",
     "Jobs produced by the declarative scheduler loop since process start.", "counter",
     scheduler_jobs_produced m);
   ("anvilmq_scheduler_errors_total",
     "Scheduler fires that failed and will retry next tick.", "counter", scheduler_errors m);
   ("anvilmq_schedulers_active", "Declarative schedulers with a pending next run.", "gauge",
     schedulers_active m);
   ("anvilmq_flows_created_total",
     "Flow trees successfully created by AddFlow since process start.", "counter",
     flows_created m);
   ("anvilmq_flow_nodes_created_total", "Nodes created via flow trees since process start.",
     "counter", flow_nodes_created_total m);
   ("anvilmq_flow_waiting_children", "Flow nodes currently parked in WaitingChildren.", "gauge",
     flow_waiting_children m);
   ("anvilmq_flow_parent_failures_total",
     "failParentOnFailure propagations applied to a parent since process start.", "counter",
     flow_parent_failures m);
   ("anvilmq_flows_rejected_total",
     "AddFlow calls rejected by a depth/size cap or validation since process start.", "counter",
     flows_rejected m);
   ("anvilmq_flow_merges_total",
     "AddFlowMerge calls that attached children to an existing node since process start.",
     "counter", flow_merges m);
   ("anvilmq_flow_merge_nodes_total",
     "Nodes attached by AddFlowMerge since process start.", "counter",
     flow_merge_nodes_total m)].

(** ** Per-name series: [render_named_series] and [NamedLifecycle::render] *)
Definition render_named_series (series : list (string * NamedSeries)) : list Item :=
  (Help "anvilmq_jobs_by_name_total"
     "Committed lifecycle events since process start, per job name." "counter"
   :: mjoin ((λ ns : string * NamedSeries,
        imap (λ i e, Line "anvilmq_jobs_by_name_total"
                       [("name", escape_label ns.1); ("event", e)] (val (ns_events ns.2) i))
          NAMED_EVENTS) <$> series)
   ++ Help "anvilmq_job_duration_seconds"
        "Enqueue to terminal (completed or exhausted-failed) latency by name; includes queue wait, retries, and backoff."
        "histogram"
   :: mjoin ((λ ns : string * NamedSeries,
        duration_render "anvilmq_job_duration_seconds" [("name", escape_label ns.1)]
          (ns_duration ns.2)) <$> series))%list.

(** The series of a [BTreeMap], in the order of its keys. *)
Definition by_name : relation (string * NamedSeries) := λ a b, str_le a.1 b.1.
#[export] Instance by_name_dec a b : Decision (by_name a b) := decide (str_le a.1 b.1).
Definition named_list (n : NamedLifecycle) : list (string * NamedSeries) :=
  match n with
  | Bounded names => names
  | AllNames _ series _ => merge_sort by_name (map_to_list series)
  end.
Definition scalars_named (n : NamedLifecycle) : list (string * string * string * Z) :=
  match n with
  | Bounded _ => []
  | AllNames _ series dropped =>
      [("anvilmq_named_series",
         "Currently registered per-name metric series in all-names mode.", "gauge",
         Z.of_nat (length (named_list n)));
       ("anvilmq_jobs_by_name_dropped_total",
         "Lifecycle observations dropped for names beyond ANVILMQ_METRICS_MAX_NAMES; nonzero means the cap was reached.",
         "counter", dropped)]
  end.
Definition named_render (n : NamedLifecycle) : list Item :=
  match n with
  | Bounded [] => []
  | _ => render_named_series (named_list n) ++ mjoin (scalar <$> scalars_named n)
  end%list.

(** ** Pressure *)
Definition KINDS : list string :=
  ["waiting"; "delayed"; "active"; "due"; "unscheduled"; "expired_leases"].
Definition backlog_render (b : Backlog) (labels : list (string * string)) : list Item :=
  (imap (λ i k, Line "anvilmq_backlog_jobs" (labels ++ [("kind", k)]) (val (bl_counts b) i)) KINDS
   ++ [Line "anvilmq_oldest_due_age_seconds" labels (secs (bl_oldest_due_ms b))])%list.
Definition pressure_gauges (p : Pressure) : list (string * string * string * string) :=
  [("anvilmq_pressure_sample_timestamp_seconds",
     "Last successful pressure sample Unix timestamp; zero before first sample.", "gauge",
     secs (pr_sampled_at_ms p));
   ("anvilmq_pressure_sample_errors_total", "Failed or timed-out pressure samples.", "counter",
     display_f64 (f64_of_Z (pr_errors p)));
   ("anvilmq_pressure_sample_duration_seconds", "Duration of last sampling attempt.", "gauge",
     micros (pr_duration_us p))].
Definition gauge (g : string * string * string * string) : list Item :=
  let '(name, help, kind, v) := g in [Help name help kind; Line name [] v].
Definition pressure_backlog (p : Pressure) : list Item :=
  (Help "anvilmq_backlog_jobs"
     "Sampled live jobs; due and expired_leases overlap state counts." "gauge"
   :: Help "anvilmq_oldest_due_age_seconds"
        "Age since oldest waiting job became due at sample time." "gauge"
   :: backlog_render (pr_all p) [("scope", "all"); ("queue", "")]
   ++ mjoin ((λ q : string * Backlog,
        backlog_render q.2 [("scope", "queue"); ("queue", escape_label q.1)]) <$> pr_queues p))%list.
Definition pressure_histograms (p : Pressure) : list Item :=
  (Help "anvilmq_first_claim_delay_seconds"
     "Enqueue to first committed claim including intentional initial delay." "histogram"
   :: histogram_render "anvilmq_first_claim_delay_seconds" (pr_first_claim p)
   ++ Help "anvilmq_due_wait_seconds"
        "Time past due until committed claim, every attempt, excluding intentional delay/backoff."
        "histogram"
   :: histogram_render "anvilmq_due_wait_seconds" (pr_due_wait p))%list.
Definition pressure_render (p : Pressure) : list Item :=
  (pressure_backlog p ++ mjoin (gauge <$> pressure_gauges p) ++ pressure_histograms p)%list.

(** ** The page: [Metrics::render] *)
Definition render_items (rg : Registry) : list Item :=
  let m := rg_metrics rg in
  (render_states m ++ render_events m ++ render_latency (rg_latency rg)
   ++ mjoin (scalar <$> scalars_recovery m) ++ render_retention m
   ++ mjoin (scalar <$> scalars_backup rg) ++ mjoin (scalar <$> scalars_enqueue m)
   ++ render_rejections m ++ mjoin (scalar <$> scalars_flow m)
   ++ named_render (named m) ++ pressure_render (pressure m))%list.
Definition render (rg : Registry) : string := print_items (render_items rg).
