(* ===== verification/Samples.v ===== *)
(** * What the metrics page means

    [samples] lists the samples of a registry as data: metric, label values as they are (not
    escaped), value.  The page of Render.v reads back as exactly these samples, and no two of
    them carry the same metric and labels. *)
From Stdlib Require Import Ascii String.
From S2P Require Import Prelude Text Query F64 Db Encoding Exposition Pressure Telemetry Backup Render.
Local Open Scope string_scope.
Local Open Scope Z_scope.
#[local] Arguments String.append !_ _ / : simpl nomatch.

(** ** The samples, family by family *)
Definition histogram_samples (metric : string) (labels : list (string * string))
    (les : list string) (buckets : list Z) (count : Z) (sum : string) : list Sample :=
  (imap (λ i le, mkSample (metric ++ "_bucket") (labels ++ [("le", le)]) (val buckets i)) les
   ++ [mkSample (metric ++ "_bucket") (labels ++ [("le", "+Inf")]) (fmt_Z count);
       mkSample (metric ++ "_count") labels (fmt_Z count);
       mkSample (metric ++ "_sum") labels sum])%list.
Definition histogram_names (metric : string) : list string :=
  [metric ++ "_bucket"; metric ++ "_count"; metric ++ "_sum"].
Definition millis_samples (metric : string) (labels : list (string * string)) (h : Histogram)
  : list Sample :=
  histogram_samples metric labels (secs <$> BOUNDS_MS) (hg_buckets h) (hg_count h)
    (secs (hg_millis h)).

Definition indexed_samples (metric key : string) (keys : list string) (values : list Z)
  : list Sample := imap (λ i k, mkSample metric [(key, k)] (val values i)) keys.
Definition scalar_sample (s : string * string * string * Z) : Sample :=
  let '(name, _, _, z) := s in mkSample name [] (fmt_Z z).
Definition gauge_sample (g : string * string * string * string) : Sample :=
  let '(name, _, _, v) := g in mkSample name [] v.
Definition backlog_samples (b : Backlog) (labels : list (string * string)) : list Sample :=
  (imap (λ i k, mkSample "anvilmq_backlog_jobs" (labels ++ [("kind", k)]) (val (bl_counts b) i))
     KINDS
   ++ [mkSample "anvilmq_oldest_due_age_seconds" labels (secs (bl_oldest_due_ms b))])%list.
Definition latency_samples (ls : list Latency) : list Sample :=
  mjoin (imap (λ i method,
    let l := default empty_latency (ls !! i) in
    histogram_samples "anvilmq_rpc_duration_seconds" [("method", method)] (micros <$> BOUNDS)
      (lt_buckets l) (lt_count l) (micros (lt_micros l))) METHODS).
Definition retention_samples (m : Metrics) : list Sample :=
  mjoin (imap (λ t target, imap (λ r reason,
    mkSample "anvilmq_retention_deleted_total" [("target", target); ("reason", reason)]
      (val (default [] (retention_deleted_total m !! t)) r)) RETENTION_REASONS)
    RETENTION_TARGETS).
Definition event_samples (series : list (string * NamedSeries)) : list Sample :=
  mjoin ((λ ns : string * NamedSeries,
    imap (λ i e, mkSample "anvilmq_jobs_by_name_total" [("name", ns.1); ("event", e)]
                   (val (ns_events ns.2) i)) NAMED_EVENTS) <$> series).
Definition duration_samples (series : list (string * NamedSeries)) : list Sample :=
  mjoin ((λ ns : string * NamedSeries,
    millis_samples "anvilmq_job_duration_seconds" [("name", ns.1)] (ns_duration ns.2)) <$> series).
Definition queue_samples (p : Pressure) : list Sample :=
  (backlog_samples (pr_all p) [("scope", "all"); ("queue", "")]
   ++ mjoin ((λ q : string * Backlog,
        backlog_samples q.2 [("scope", "queue"); ("queue", q.1)]) <$> pr_queues p))%list.

(** Each family with the metrics it may use. *)
Definition scalar_family (l : list (string * string * string * Z)) : list string * list Sample :=
  ((λ s : string * string * string * Z, s.1.1.1) <$> l, scalar_sample <$> l).
Definition families (rg : Registry) : list (list string * list Sample) :=
  let m := rg_metrics rg in let p := pressure m in
  [ (["anvilmq_jobs"], indexed_samples "anvilmq_jobs" "state" STATES (states m));
    (["anvilmq_transitions_total"],
      indexed_samples "anvilmq_transitions_total" "event" EVENTS (events m));
    (histogram_names "anvilmq_rpc_duration_seconds", latency_samples (rg_latency rg));
    scalar_family (scalars_recovery m);
    (["anvilmq_retention_deleted_total"], retention_samples m);
    scalar_family (scalars_backup rg);
    scalar_family (scalars_enqueue m);
    (["anvilmq_enqueue_rejections_total"],
      indexed_samples "anvilmq_enqueue_rejections_total" "kind" REJECTION_KINDS
        (enqueue_rejections_by_kind m));
    scalar_family (scalars_flow m);
    (["anvilmq_jobs_by_name_total"], event_samples (named_list (named m)));
    (histogram_names "anvilmq_job_duration_seconds", duration_samples (named_list (named m)));
    scalar_family (scalars_named (named m));
    (["anvilmq_backlog_jobs"; "anvilmq_oldest_due_age_seconds"], queue_samples p);
    ((λ g : string * string * string * string, g.1.1.1) <$> pressure_gauges p,
      gauge_sample <$> pressure_gauges p);
    (histogram_names "anvilmq_first_claim_delay_seconds",
      millis_samples "anvilmq_first_claim_delay_seconds" [] (pr_first_claim p));
    (histogram_names "anvilmq_due_wait_seconds",
      millis_samples "anvilmq_due_wait_seconds" [] (pr_due_wait p)) ].
Definition samples (rg : Registry) : list Sample := mjoin (families rg).*2.

(** ** The page shows the samples *)
Definition displays (items : list Item) (l : list Sample) : Prop :=
  ∃ outs, Forall2 shows items outs ∧ mjoin outs = l.

Lemma displays_nil : displays [] [].
Proof. by exists []. Qed.
Lemma displays_app i1 i2 l1 l2 :
  displays i1 l1 → displays i2 l2 → displays (i1 ++ i2)%list (l1 ++ l2)%list.
Proof.
  intros (o1 & H1 & <-) (o2 & H2 & <-). exists (o1 ++ o2)%list.
  split; [by apply Forall2_app|apply join_app].
Qed.
Lemma displays_help name help kind items l :
  one_line (name ++ help ++ kind) = true → displays items l →
  displays (Help name help kind :: items) l.
Proof.
  intros Ho (outs & Hf & <-). exists ([] :: outs). split; [|done].
  constructor; [by constructor|done].
Qed.
Lemma displays_one name labels values v :
  name_ok name = true → Forall2 label_shows labels values → value_ok v = true →
  displays [Line name labels v] [mkSample name values v].
Proof. intros. exists [[mkSample name values v]]. split; [|done]. by repeat constructor. Qed.
Lemma displays_imap {A} (f : nat → A → list Item) (g : nat → A → list Sample) (l : list A) :
  (∀ i x, x ∈ l → displays (f i x) (g i x)) → displays (mjoin (imap f l)) (mjoin (imap g l)).
Proof.
  revert f g. induction l as [|x l IH]; intros f g Hf; [exact displays_nil|]. simpl.
  apply displays_app; [apply Hf; by left|]. apply IH. intros i y Hy. apply Hf. by right.
Qed.
Lemma displays_lines {A} (f : nat → A → Item) (g : nat → A → Sample) (l : list A) :
  (∀ i x, x ∈ l → displays [f i x] [g i x]) → displays (imap f l) (imap g l).
Proof.
  revert f g. induction l as [|x l IH]; intros f g Hf; [exact displays_nil|].
  apply (displays_app [f 0%nat x] (imap (f ∘ S) l) [g 0%nat x]); [apply Hf; by left|].
  apply IH. intros i y Hy. apply Hf. by right.
Qed.
Lemma displays_map {A} (f : A → list Item) (g : A → list Sample) (l : list A) :
  (∀ x, x ∈ l → displays (f x) (g x)) → displays (mjoin (f <$> l)) (mjoin (g <$> l)).
Proof.
  intros Hf. induction l as [|x l IH]; [exact displays_nil|]. simpl.
  apply displays_app; [apply Hf; by left|]. apply IH. intros y Hy. apply Hf. by right.
Qed.

(** Labels: constants are written as they are, names escaped. *)
Definition plain (s : string) : Prop := escape_label s = s.
#[export] Instance plain_dec s : Decision (plain s) := decide (escape_label s = s).
Lemma plain_label k v : name_ok k = true → plain v → label_shows (k, v) (k, v).
Proof. intros Hk Hv. by repeat split. Qed.
Lemma escaped_label k v : name_ok k = true → label_shows (k, escape_label v) (k, v).
Proof. intros Hk. by repeat split. Qed.

Lemma histogram_displays metric labels values les buckets count sum :
  Forall (λ n, name_ok n = true) (histogram_names metric) → Forall plain les →
  Forall2 label_shows labels values → value_ok sum = true →
  displays (histogram_lines metric labels les buckets count sum)
    (histogram_samples metric values les buckets count sum).
Proof.
  intros Hn Hl Hv Hs. unfold histogram_names in Hn. rewrite !list.Forall_cons in Hn.
  destruct Hn as (Hb & Hc & Hm & _).
  unfold histogram_lines, histogram_samples. apply displays_app; [apply displays_lines|].
  - intros i le Hle. rewrite list.Forall_forall in Hl. apply displays_one; [done| |apply fmt_Z_value].
    apply Forall2_app; [done|]. constructor; [|constructor]. apply plain_label; auto.
  - apply (displays_app [_] [_; _] [_]); [|apply (displays_app [_] [_] [_])];
      apply displays_one; try done; try apply fmt_Z_value.
    apply Forall2_app; [done|]. constructor; [|constructor]. by apply plain_label.
Qed.
Lemma scalars_displayed l :
  Forall (λ s : string * string * string * Z,
    name_ok s.1.1.1 = true ∧ one_line (s.1.1.1 ++ s.1.1.2 ++ s.1.2) = true) l →
  displays (mjoin (scalar <$> l)) (scalar_sample <$> l).
Proof.
  intros Hl. induction Hl as [|[[[n h] k] z] l [Hn Ho] _ IH]; [exact displays_nil|].
  apply displays_help; [done|]. apply (displays_app [_] _ [_]); [|done].
  by apply displays_one, fmt_Z_value.
Qed.
Lemma millis_plain : Forall plain (secs <$> BOUNDS_MS).
Proof. apply (bool_decide_unpack _). by vm_compute. Qed.
Lemma micros_plain : Forall plain (micros <$> BOUNDS).
Proof. apply (bool_decide_unpack _). by vm_compute. Qed.

Lemma indexed_displayed metric key keys values help kind :
  name_ok metric = true → name_ok key = true → one_line (metric ++ help ++ kind) = true →
  Forall plain keys →
  displays (Help metric help kind :: imap (λ i k, Line metric [(key, k)] (val values i)) keys)
    (indexed_samples metric key keys values).
Proof.
  intros Hm Hk Ho Hp. apply displays_help; [done|]. apply displays_lines. intros i k Hin.
  rewrite list.Forall_forall in Hp. apply displays_one; [done| |apply fmt_Z_value].
  constructor; [|constructor]. apply plain_label; auto.
Qed.
Lemma latency_displayed ls : displays (render_latency ls) (latency_samples ls).
Proof.
  apply displays_help; [by vm_compute|]. apply displays_imap. intros i method Hm.
  assert (plain method).
  { assert (Forall plain METHODS) as Hp by (apply (bool_decide_unpack _); by vm_compute).
    rewrite list.Forall_forall in Hp. auto. }
  apply histogram_displays; [by repeat constructor|apply micros_plain| |apply display_f64_value].
  constructor; [by apply plain_label|constructor].
Qed.
Lemma retention_displayed m : displays (render_retention m) (retention_samples m).
Proof.
  apply displays_help; [by vm_compute|]. apply displays_imap. intros t target Ht.
  apply displays_lines. intros r reason Hr.
  assert (Forall plain (RETENTION_TARGETS ++ RETENTION_REASONS)) as Hp
    by (apply (bool_decide_unpack _); by vm_compute).
  rewrite list.Forall_forall in Hp.
  apply displays_one; [done| |apply fmt_Z_value].
  constructor; [|constructor; [|constructor]]; apply plain_label; try done; apply Hp;
    apply elem_of_app; auto.
Qed.
Lemma named_displayed n :
  displays (named_render n)
    (event_samples (named_list n) ++ duration_samples (named_list n)
     ++ (scalar_sample <$> scalars_named n))%list.
Proof.
  assert (displays (render_named_series (named_list n) ++ mjoin (scalar <$> scalars_named n))%list
    (event_samples (named_list n) ++ duration_samples (named_list n)
     ++ (scalar_sample <$> scalars_named n))%list) as H.
  { unfold render_named_series. rewrite (app_assoc (event_samples _)). apply displays_app.
    - apply displays_help; [by vm_compute|]. apply displays_app.
      + apply displays_map. intros [nm s] _. apply displays_lines. intros i e He.
        assert (Forall plain NAMED_EVENTS) as Hp by (apply (bool_decide_unpack _); by vm_compute).
        rewrite list.Forall_forall in Hp. apply displays_one; [done| |apply fmt_Z_value].
        constructor; [by apply escaped_label|]. constructor; [|constructor].
        apply plain_label; auto.
      + apply displays_help; [by vm_compute|]. apply displays_map. intros [nm s] _.
        apply histogram_displays; [by repeat constructor|apply millis_plain| |apply display_f64_value].
        constructor; [by apply escaped_label|constructor].
    - apply scalars_displayed. unfold scalars_named. destruct n; repeat constructor. }
  destruct n as [[|x l]|]; [exact displays_nil|exact H..].
Qed.
Lemma backlog_displayed b labels values :
  Forall2 label_shows labels values → displays (backlog_render b labels) (backlog_samples b values).
Proof.
  intros Hl. apply displays_app.
  - apply displays_lines. intros i k Hk.
    assert (Forall plain KINDS) as Hp by (apply (bool_decide_unpack _); by vm_compute).
    rewrite list.Forall_forall in Hp. apply displays_one; [done| |apply fmt_Z_value].
    apply Forall2_app; [done|]. constructor; [|constructor]. apply plain_label; auto.
  - apply displays_one; [done..|apply display_f64_value].
Qed.
Lemma pressure_displayed p :
  displays (pressure_render p)
    (queue_samples p ++ (gauge_sample <$> pressure_gauges p)
     ++ millis_samples "anvilmq_first_claim_delay_seconds" [] (pr_first_claim p)
     ++ millis_samples "anvilmq_due_wait_seconds" [] (pr_due_wait p))%list.
Proof.
  apply displays_app; [|apply displays_app].
  - apply displays_help; [by vm_compute|]. apply displays_help; [by vm_compute|].
    apply displays_app; [apply backlog_displayed; by repeat constructor|].
    apply displays_map. intros [q b] _. apply backlog_displayed.
    constructor; [by apply plain_label|]. constructor; [by apply escaped_label|constructor].
  - unfold pressure_gauges. simpl mjoin. simpl fmap.
    repeat (apply displays_help; [by vm_compute|]; apply (displays_app [_] _ [_] _);
            [apply displays_one; [done|constructor|apply display_f64_value]|]).
    exact displays_nil.
  - apply displays_help; [by vm_compute|]. apply displays_app; [|apply displays_help; [by vm_compute|]];
      (apply histogram_displays; [by repeat constructor|apply millis_plain|constructor|apply display_f64_value]).
Qed.

Ltac indexed :=
  apply indexed_displayed; [done|done|by vm_compute|apply (bool_decide_unpack _); by vm_compute].
Ltac scalars := apply scalars_displayed; repeat constructor.
Lemma render_displays rg : displays (render_items rg) (samples rg).
Proof.
  assert (samples rg = (let m := rg_metrics rg in
    indexed_samples "anvilmq_jobs" "state" STATES (states m)
    ++ indexed_samples "anvilmq_transitions_total" "event" EVENTS (events m)
    ++ latency_samples (rg_latency rg) ++ (scalar_sample <$> scalars_recovery m)
    ++ retention_samples m ++ (scalar_sample <$> scalars_backup rg)
    ++ (scalar_sample <$> scalars_enqueue m)
    ++ indexed_samples "anvilmq_enqueue_rejections_total" "kind" REJECTION_KINDS
         (enqueue_rejections_by_kind m)
    ++ (scalar_sample <$> scalars_flow m)
    ++ (event_samples (named_list (named m)) ++ duration_samples (named_list (named m))
        ++ (scalar_sample <$> scalars_named (named m)))
    ++ (queue_samples (pressure m) ++ (gauge_sample <$> pressure_gauges (pressure m))
        ++ millis_samples "anvilmq_first_claim_delay_seconds" [] (pr_first_claim (pressure m))
        ++ millis_samples "anvilmq_due_wait_seconds" [] (pr_due_wait (pressure m))))%list) as ->.
  { unfold samples, families. cbv zeta. cbn [fmap list_fmap snd mjoin list_join scalar_family].
    by rewrite app_nil_r, <-!app_assoc. }
  cbv zeta. unfold render_items. cbv zeta.
  apply displays_app; [indexed|]. apply displays_app; [indexed|].
  apply displays_app; [apply latency_displayed|].
  apply displays_app; [scalars|]. apply displays_app; [apply retention_displayed|].
  apply displays_app; [scalars|]. apply displays_app; [scalars|].
  apply displays_app; [indexed|]. apply displays_app; [scalars|].
  apply displays_app; [apply named_displayed|apply pressure_displayed].
Qed.

(** The page reads back as the samples. *)
Lemma page_reads_back rg : exposition (render rg) = Some (samples rg).
Proof. destruct (render_displays rg) as (outs & Hf & <-). by apply print_items_read. Qed.

(** ** No series appears twice *)
Definition key (s : Sample) : string * list (string * string) := (sm_name s, sm_labels s).

Lemma key_imap {A} (metric : string) (f : A → list (string * string)) (g : nat → A → string) l :
  key <$> imap (λ i x, mkSample metric (f x) (g i x)) l = (λ x, (metric, f x)) <$> l.
Proof.
  revert g. induction l as [|x l IH]; intros g; [done|]. simpl. f_equal. apply (IH (λ i, g (S i))).
Qed.
Lemma NoDup_imap {A} metric (f : A → list (string * string)) (g : nat → A → string) l :
  NoDup l → (∀ x y, f x = f y → x = y) →
  NoDup (key <$> imap (λ i x, mkSample metric (f x) (g i x)) l).
Proof.
  intros Hl Hf. rewrite key_imap. apply NoDup_fmap_2_strong; [|done].
  intros x y _ _ [=]. auto.
Qed.
Lemma imap_name {A} metric (f : A → list (string * string)) (g : nat → A → string) l s :
  s ∈ imap (λ i x, mkSample metric (f x) (g i x)) l → sm_name s = metric ∧ ∃ x, sm_labels s = f x.
Proof. intros (i & x & -> & _)%elem_of_lookup_imap. simpl. eauto. Qed.

(** Groups told apart by a tag of their labels. *)
Lemma NoDup_mjoin_imap {A T} (f : nat → A → list Sample) (tag : list (string * string) → T)
    (u : A → T) (l : list A) :
  NoDup (u <$> l) →
  (∀ i x, x ∈ l → NoDup (key <$> f i x) ∧ ∀ s, s ∈ f i x → tag (sm_labels s) = u x) →
  NoDup (key <$> mjoin (imap f l)).
Proof.
  revert f. induction l as [|x l IH]; intros f Hu Hf; [constructor|]. simpl. rewrite fmap_app.
  rewrite fmap_cons, list.NoDup_cons in Hu. destruct Hu as [Hx Hu].
  apply list.NoDup_app. split_and!.
  - apply Hf. by left.
  - intros k (s & -> & Hs)%list_elem_of_fmap (s' & Hk & Hs')%list_elem_of_fmap.
    apply Hx. apply list_elem_of_join in Hs' as (xs & Hs' & (i & y & -> & Hy)%elem_of_lookup_imap).
    apply list_elem_of_lookup_2 in Hy. apply list_elem_of_fmap. exists y. split; [|done].
    rewrite <-(proj2 (Hf 0%nat x ltac:(by left)) s Hs).
    rewrite <-(proj2 (Hf (S i) y ltac:(by right)) s' Hs'). by injection Hk as _ ->.
  - apply (IH (f ∘ S)); [done|]. intros i y Hy. apply Hf. by right.
Qed.
Lemma NoDup_mjoin_fmap {A T} (f : A → list Sample) (tag : list (string * string) → T)
    (u : A → T) (l : list A) :
  NoDup (u <$> l) →
  (∀ x, x ∈ l → NoDup (key <$> f x) ∧ ∀ s, s ∈ f x → tag (sm_labels s) = u x) →
  NoDup (key <$> mjoin (f <$> l)).
Proof.
  intros Hu Hf. rewrite <-(imap_const f). apply (NoDup_mjoin_imap _ tag u); [done|].
  intros i. exact Hf.
Qed.
Lemma NoDup_families (fs : list (list string * list Sample)) :
  Forall (λ f, NoDup (key <$> f.2) ∧ ∀ s, s ∈ f.2 → sm_name s ∈ f.1) fs →
  NoDup (mjoin fs.*1) → NoDup (key <$> mjoin fs.*2).
Proof.
  induction 1 as [|[ns ss] fs [Hk Hn] Hf IH]; [constructor|]. simpl in *. intros Hd.
  apply list.NoDup_app in Hd as (_ & Hd & Hr). rewrite fmap_app. apply list.NoDup_app.
  split_and!; [done| |by apply IH].
  intros k (s & -> & Hs)%list_elem_of_fmap (s' & Hkk & Hs')%list_elem_of_fmap.
  apply (Hd (sm_name s)); [by apply Hn|]. injection Hkk as -> _.
  apply list_elem_of_join in Hs' as (xs & Hs' & (f & -> & Hf')%list_elem_of_fmap).
  apply list_elem_of_join. exists f.1. split; [|by apply list_elem_of_fmap_2].
  rewrite list.Forall_forall in Hf. by apply (Hf f Hf').
Qed.

Lemma three_keys (b c m : string) (l1 l2 : list (string * string)) :
  b ≠ c → b ≠ m → c ≠ m → NoDup [(b, l1); (c, l2); (m, l2)].
Proof.
  intros Hbc Hbm Hcm. rewrite !list.NoDup_cons, !elem_of_cons, !elem_of_nil.
  split_and!; [| |by intros []|constructor].
  - intros [?|[?|[]]]; congruence.
  - intros [?|[]]; congruence.
Qed.
Lemma histogram_keys metric labels les buckets count sum :
  NoDup ("+Inf" :: les) → NoDup (histogram_names metric) →
  let ss := histogram_samples metric labels les buckets count sum in
  NoDup (key <$> ss)
  ∧ ∀ s, s ∈ ss → sm_name s ∈ histogram_names metric ∧ ∃ r, sm_labels s = (labels ++ r)%list.
Proof.
  intros [Hi Hl]%list.NoDup_cons Hm ss. unfold ss, histogram_samples. split.
  - rewrite fmap_app. apply list.NoDup_app. split_and!.
    + apply (NoDup_imap _ (λ le, (labels ++ [("le", le)])%list)); [done|].
      by intros x y [=]%(inj (app labels)).
    + rewrite (key_imap _ (λ le, (labels ++ [("le", le)])%list)).
      intros k (le & -> & Hle)%list_elem_of_fmap. unfold histogram_names in Hm.
      rewrite !list.NoDup_cons, !elem_of_cons in Hm. simpl. rewrite !elem_of_cons, elem_of_nil.
      intros [Hk|[Hk|[Hk|[]]]]; [|injection Hk; tauto..].
      apply (f_equal snd), (inj (app labels)) in Hk. injection Hk as ->. done.
    + unfold histogram_names in Hm. rewrite !list.NoDup_cons, !elem_of_cons in Hm.
      apply three_keys; tauto.
  - intros s [Hs|Hs]%elem_of_app.
    + apply (imap_name _ (λ le, (labels ++ [("le", le)])%list)) in Hs as [-> [x ->]].
      split; [by left|eauto].
    + rewrite !elem_of_cons, elem_of_nil in Hs. unfold histogram_names.
      destruct Hs as [->|[->|[->|[]]]]; simpl; rewrite !elem_of_cons; (split; [tauto|]).
      * eauto. * exists []. by rewrite app_nil_r. * exists []. by rewrite app_nil_r.
Qed.

Ltac decide_now := apply (bool_decide_unpack _); by vm_compute.

Definition distinct (f : list string * list Sample) : Prop :=
  NoDup (key <$> f.2) ∧ ∀ s, s ∈ f.2 → sm_name s ∈ f.1.

Lemma indexed_distinct metric k keys values :
  NoDup keys → distinct ([metric], indexed_samples metric k keys values).
Proof.
  intros Hk. unfold indexed_samples. split; simpl.
  - apply (NoDup_imap _ (λ x, [(k, x)])); [done|by intros x y [= ->]].
  - intros s [-> _]%(imap_name _ (λ x, [(k, x)])). by left.
Qed.
Lemma scalars_distinct l :
  NoDup ((λ s : string * string * string * Z, s.1.1.1) <$> l) → distinct (scalar_family l).
Proof.
  intros Hl. split; simpl.
  - replace (key <$> (scalar_sample <$> l))
      with ((λ n, (n, [] : list (string * string))) <$> ((λ s : string * string * string * Z, s.1.1.1) <$> l)).
    + apply NoDup_fmap_2_strong; [by intros x y _ _ [= ->]|done].
    + rewrite <-!list_fmap_compose. apply list_fmap_ext. by intros i [[[n h] k] z] _.
  - intros s ([[[n h] k] z] & -> & Hs)%list_elem_of_fmap. apply list_elem_of_fmap.
    exists (n, h, k, z). done.
Qed.
Lemma les_distinct :
  NoDup ("+Inf" :: (secs <$> BOUNDS_MS)) ∧ NoDup ("+Inf" :: (micros <$> BOUNDS)).
Proof. split; decide_now. Qed.
Lemma millis_distinct metric h :
  NoDup (histogram_names metric) → distinct (histogram_names metric, millis_samples metric [] h).
Proof.
  intros Hm. destruct (histogram_keys metric [] (secs <$> BOUNDS_MS) (hg_buckets h) (hg_count h)
    (secs (hg_millis h)) (proj1 les_distinct) Hm) as [Hk Hn].
  split; [exact Hk|]. intros s Hs. by apply Hn.
Qed.
Lemma latency_distinct ls :
  distinct (histogram_names "anvilmq_rpc_duration_seconds", latency_samples ls).
Proof.
  assert (NoDup (histogram_names "anvilmq_rpc_duration_seconds")) as Hm by decide_now.
  pose proof (proj2 les_distinct) as Hles. unfold latency_samples. split; cbn [fst snd].
  - apply (NoDup_mjoin_imap _ head (λ m, Some ("method", m))).
    + apply NoDup_fmap_2_strong; [by intros x y _ _ [= ->]|decide_now].
    + intros i m _. set (l := default _ _).
      destruct (histogram_keys "anvilmq_rpc_duration_seconds" [("method", m)] (micros <$> BOUNDS)
        (lt_buckets l) (lt_count l) (micros (lt_micros l)) Hles Hm) as [Hk Hn].
      split; [exact Hk|]. intros s Hs. apply Hn in Hs as [_ [r ->]]. done.
  - intros s (xs & Hs & (i & m & -> & _)%elem_of_lookup_imap)%list_elem_of_join.
    by apply histogram_keys in Hs as [? _].
Qed.
Lemma retention_distinct m : distinct (["anvilmq_retention_deleted_total"], retention_samples m).
Proof.
  unfold retention_samples. split; cbn [fst snd].
  - apply (NoDup_mjoin_imap _ head (λ t, Some ("target", t))).
    + apply NoDup_fmap_2_strong; [by intros x y _ _ [= ->]|decide_now].
    + intros i t _. split.
      * apply (NoDup_imap _ (λ r, [("target", t); ("reason", r)])); [decide_now|by intros x y [= ->]].
      * by intros s [_ [x ->]]%(imap_name _ (λ r, [("target", t); ("reason", r)])).
  - intros s (xs & Hs & (i & t & -> & _)%elem_of_lookup_imap)%list_elem_of_join.
    apply (imap_name _ (λ r, [("target", t); ("reason", r)])) in Hs as [-> _]. by left.
Qed.
Lemma NoDup_by_fst {A T} (g : string → T) (l : list (string * A)) :
  (∀ x y, g x = g y → x = y) → NoDup l.*1 → NoDup ((λ x, g x.1) <$> l).
Proof.
  intros Hg Hl. change (λ x : string * A, g x.1) with (g ∘ @fst string A). rewrite list_fmap_compose.
  apply NoDup_fmap_2_strong; auto.
Qed.
Lemma events_distinct series :
  NoDup series.*1 → distinct (["anvilmq_jobs_by_name_total"], event_samples series).
Proof.
  intros Hs. unfold event_samples. split; cbn [fst snd].
  - apply (NoDup_mjoin_fmap _ head (λ ns, Some ("name", ns.1))).
    + apply (NoDup_by_fst (λ n, Some ("name", n))); [by intros x y [= ->]|done].
    + intros [n sr] _. split.
      * apply (NoDup_imap _ (λ e, [("name", n); ("event", e)])); [decide_now|by intros x y [= ->]].
      * by intros s [_ [x ->]]%(imap_name _ (λ e, [("name", n); ("event", e)])).
  - intros s (xs & Hx & ([n sr] & -> & _)%list_elem_of_fmap)%list_elem_of_join.
    apply (imap_name _ (λ e, [("name", n); ("event", e)])) in Hx as [-> _]. by left.
Qed.
Lemma durations_distinct series :
  NoDup series.*1 →
  distinct (histogram_names "anvilmq_job_duration_seconds", duration_samples series).
Proof.
  assert (NoDup (histogram_names "anvilmq_job_duration_seconds")) as Hm by decide_now.
  pose proof (proj1 les_distinct) as Hles. intros Hs. unfold duration_samples, millis_samples.
  split; cbn [fst snd].
  - apply (NoDup_mjoin_fmap _ head (λ ns, Some ("name", ns.1))).
    + apply (NoDup_by_fst (λ n, Some ("name", n))); [by intros x y [= ->]|done].
    + intros [n sr] _. cbn [fst snd]. set (h := ns_duration sr).
      destruct (histogram_keys "anvilmq_job_duration_seconds" [("name", n)] (secs <$> BOUNDS_MS)
        (hg_buckets h) (hg_count h) (secs (hg_millis h)) Hles Hm) as [Hk Hn].
      split; [exact Hk|]. intros s Hx. apply Hn in Hx as [_ [r ->]]. done.
  - intros s (xs & Hx & ([n sr] & -> & _)%list_elem_of_fmap)%list_elem_of_join.
    by apply histogram_keys in Hx as [? _].
Qed.
Lemma backlog_keys b l1 l2 :
  NoDup (key <$> backlog_samples b [l1; l2])
  ∧ ∀ s, s ∈ backlog_samples b [l1; l2] →
      sm_name s ∈ ["anvilmq_backlog_jobs"; "anvilmq_oldest_due_age_seconds"]
      ∧ take 2 (sm_labels s) = [l1; l2].
Proof.
  unfold backlog_samples. split.
  - rewrite fmap_app. apply list.NoDup_app. split_and!.
    + apply (NoDup_imap _ (λ k, ([l1; l2] ++ [("kind", k)])%list));
        [decide_now|by intros x y [= ->]].
    + rewrite (key_imap _ (λ k, ([l1; l2] ++ [("kind", k)])%list)).
      intros k (x & -> & _)%list_elem_of_fmap Hx%list_elem_of_singleton. done.
    + apply NoDup_singleton.
  - intros s [Hs|Hs]%elem_of_app.
    + apply (imap_name _ (λ k, ([l1; l2] ++ [("kind", k)])%list)) in Hs as [-> [x ->]].
      split; [by left|done].
    + apply list_elem_of_singleton in Hs as ->. split; [by right; left|done].
Qed.
Lemma queues_distinct p :
  NoDup (queue_names p) →
  distinct (["anvilmq_backlog_jobs"; "anvilmq_oldest_due_age_seconds"], queue_samples p).
Proof.
  intros Hq.
  assert (queue_samples p = mjoin ((λ x : (string * string) * (string * string) * Backlog,
    backlog_samples x.2 [x.1.1; x.1.2]) <$>
      (("scope", "all"), ("queue", ""), pr_all p)
      :: ((λ q : string * Backlog, (("scope", "queue"), ("queue", q.1), q.2)) <$> pr_queues p)))
    as ->.
  { unfold queue_samples. simpl. f_equal. by rewrite <-list_fmap_compose. }
  split; cbn [fst snd].
  - apply (NoDup_mjoin_fmap _ (take 2) (λ x, [x.1.1; x.1.2])).
    + rewrite fmap_cons, list.NoDup_cons. split.
      * intros (x & Hx & (q & -> & _)%list_elem_of_fmap)%list_elem_of_fmap. done.
      * rewrite <-list_fmap_compose.
        by apply (NoDup_by_fst (λ n, [("scope", "queue"); ("queue", n)])); [intros x y [= ->]|].
    + intros [[l1 l2] b] _. cbn [fst snd]. destruct (backlog_keys b l1 l2) as [Hk Hn].
      split; [exact Hk|]. intros s Hs. by apply Hn.
  - intros s (xs & Hs & ([[l1 l2] b] & -> & _)%list_elem_of_fmap)%list_elem_of_join.
    exact (proj1 (proj2 (backlog_keys b l1 l2) s Hs)).
Qed.

(** With distinct queues and names, no two samples have the same metric and labels. *)
Lemma series_distinct rg :
  NoDup (queue_names (pressure (rg_metrics rg))) →
  NoDup (named_list (named (rg_metrics rg))).*1 → NoDup (key <$> samples rg).
Proof.
  intros Hq Hn. unfold samples. apply NoDup_families.
  - unfold families. cbv zeta.
    repeat (apply list.Forall_cons; split); [..|by apply Forall_nil].
    + apply indexed_distinct. decide_now.
    + apply indexed_distinct. decide_now.
    + apply latency_distinct.
    + apply scalars_distinct. decide_now.
    + apply retention_distinct.
    + apply scalars_distinct. decide_now.
    + apply scalars_distinct. decide_now.
    + apply indexed_distinct. decide_now.
    + apply scalars_distinct. decide_now.
    + by apply events_distinct.
    + by apply durations_distinct.
    + apply scalars_distinct. destruct (named _); decide_now.
    + by apply queues_distinct.
    + split; cbn [fst snd]; [decide_now|].
      intros s ([[[n h] k] v] & -> & Hs)%list_elem_of_fmap. apply list_elem_of_fmap.
      exists (n, h, k, v). done.
    + apply millis_distinct. decide_now.
    + apply millis_distinct. decide_now.
  - unfold families. cbv zeta. destruct (named _); decide_now.
Qed.
