(* ===== verification/System.v ===== *)
(** * The broker as a whole

    The calls the broker serves (the RPCs of [QueueService] in src/main.rs and the three
    background loops), each an atomic step of the world since every handler holds the
    writer's mutex, and the worlds reachable by any sequence of calls and restarts.  Every
    call implements steps of the life cycle of Lifecycle.v, so its invariants hold in every
    reachable world. *)
From Stdlib Require Import Ascii String.
From S2P Require Import Prelude Text Query F64 Scheduling Db Pressure Telemetry Broker.
From S2P Require Import Lifecycle RateLimit Ingress Enqueue Leases Claim Finish Flow FlowTree.
From S2P Require Import FlowSim Retention Schedulers.
Local Open Scope string_scope.
Local Open Scope Z_scope.

(** The settings of [MyQueueService] and of the loops. *)
Record Service := mkService {
  sv_limits : Limits;
  sv_claim : ClaimConfig;
  sv_flow : FlowLimits;
  sv_retention : RetentionConfig;
  sv_recovery_batch : Z;
  sv_scheduler_batch : Z;
  (** the labels configured for the metrics *)
  sv_pressure : Pressure;
  sv_named : NamedLifecycle;
}.

Inductive Call :=
| AddJob (req : AddJobRequest)
| AddJobBulk (reqs : list AddJobRequest)
| GetNextJob (req : GetNextJobRequest)
| CompleteJob (id worker : string) (attempt : Z) (result : bytes)
| FailJob (id worker error : string) (attempt : Z) (non_retryable : bool)
| Heartbeat (req : HeartbeatRequest)
| AddFlow (flow : option FlowJob)
| AddFlowBulk (flows : list FlowJob)
| AddFlowMerge (flow : option FlowJob)
| GetChildrenValues (parent : string)
| UpsertRateLimitRule (req : UpsertRuleRequest)
| DeleteRateLimitRule (facet : string)
| GetRateLimitStatus (facet : string)
| UpsertIngressLimitRule (req : UpsertRuleRequest)
| DeleteIngressLimitRule (facet : string)
| GetIngressLimitStatus (facet : string)
| UpsertJobScheduler (req : UpsertSchedulerRequest)
| DeleteJobScheduler (id : string)
| GetJobScheduler (id : string)
| ListJobSchedulers
| RecoverTick
| RetentionTick
| SchedulerTick.

(** The types of the wire that the model does not build in. *)
Definition typed_call (c : Call) : Prop :=
  match c with
  | AddJob req => typed req
  | AddJobBulk reqs => Forall typed reqs
  | AddFlow flow => ∀ t, flow = Some t → typed_flow t
  | AddFlowBulk flows => Forall typed_flow flows
  | AddFlowMerge flow => typed_children flow
  | UpsertRateLimitRule req => 0 ≤ ur_max_jobs req ≤ u32_max
  | _ => True
  end.

Section System.
Context `{HE : Env, HP : Prost, HC : CronLib}.

(** The world after a step, whatever it returns. *)
Definition after {E A} (m : M E A) (w : World) : World := (m w).2.

(** The loops count the failure of a pass. *)
Definition tick_or {E A} (count : Metrics → Metrics) (m : M E A) : M E unit :=
  let? r := attempt m in
  match (r : result E A) with Ok _ => mret tt | Err _ => metric count end.

Definition perform (sv : Service) (c : Call) : World → World :=
  match c with
  | AddJob req => after (enqueue (sv_limits sv) req)
  | AddJobBulk reqs => after (enqueue_bulk (sv_limits sv) reqs)
  | GetNextJob req => after (get_next_job (sv_claim sv) req)
  | CompleteJob id worker n res => after (complete_job id worker n res)
  | FailJob id worker e n nr => after (fail_job id worker e n nr)
  | Heartbeat req => after (renew_lease (lease_duration_ms (sv_claim sv)) req)
  | AddFlow flow => after (add_flow (sv_flow sv) flow)
  | AddFlowBulk flows => after (add_flow_bulk (sv_flow sv) flows)
  | AddFlowMerge flow => after (add_flow_merge (sv_flow sv) flow)
  | GetChildrenValues p => after (get_children_values p)
  | UpsertRateLimitRule req => after (rate_limit_upsert req)
  | DeleteRateLimitRule f => after (rate_limit_delete f)
  | GetRateLimitStatus f => after (rate_limit_status f)
  | UpsertIngressLimitRule req => after (ingress_upsert req)
  | DeleteIngressLimitRule f => after (ingress_delete f)
  | GetIngressLimitStatus f => after (ingress_status f)
  | UpsertJobScheduler req => after (scheduler_upsert req)
  | DeleteJobScheduler id => after (scheduler_delete id)
  | GetJobScheduler id => after (scheduler_get id)
  | ListJobSchedulers => after scheduler_list
  | RecoverTick => after (tick_or recovery_error (recover_expired (sv_recovery_batch sv)))
  | RetentionTick =>
      if enabled (sv_retention sv)
      then after (tick_or retention_error (sweep (sv_retention sv))) else id
  | SchedulerTick => after (run_once (sv_limits sv) (sv_scheduler_batch sv))
  end.

(** [DatabaseManager::with_durability] and the start of [main]: the rows are migrated, the
    gauges counted and the labels of the metrics installed. *)
Definition boot (sv : Service) (d : Db) (step : nat) : World :=
  let d := migrate d in
  mkWorld d (initialize d <| pressure := sv_pressure sv |> <| named := sv_named sv |>) step.
(** A restart keeps the committed database. *)
Definition restart (sv : Service) (w : World) : World := boot sv (w_db w) (w_step w).

Inductive sys_step (sv : Service) : World → World → Prop :=
| SCall c w : typed_call c → sys_step sv w (perform sv c w)
| SRestart w : sys_step sv w (restart sv w).

Definition initial (sv : Service) : World := boot sv empty_db 0.
Definition reachable (sv : Service) (w : World) : Prop := rtc (sys_step sv) (initial sv) w.

Lemma reachable_initial sv : reachable sv (initial sv).
Proof. apply rtc_refl. Qed.
Lemma run_call sv c w w' :
  rtc (sys_step sv) w w' → typed_call c → rtc (sys_step sv) w (perform sv c w').
Proof. intros Hr Ht. eapply rtc_r; [exact Hr|by constructor]. Qed.
Lemma reachable_call sv c w : reachable sv w → typed_call c → reachable sv (perform sv c w).
Proof. apply run_call. Qed.

(** Only the retention loop removes archived rows. *)
Definition prunes (c : Call) : bool := match c with RetentionTick => true | _ => false end.

(** ** Refinement *)
Context `{HU : !UuidLaw HE}.

Lemma after_sim p {E A} (m : M E A) w s :
  simulates p m → implements w s → ∃ s', lsteps p s s' ∧ implements (after m w) s'.
Proof.
  intros Hm Hi. unfold after. destruct (m w) as [r w'] eqn:Hr. by eapply Hm.
Qed.

Lemma tick_or_sim p {E A} count (m : M E A) : simulates p m → simulates p (tick_or count m).
Proof.
  intros Hm. unfold tick_or. apply simulates_bind; [by apply simulates_attempt|].
  intros [a|e]; apply simulates_frame; frame.
Qed.

Lemma limit_frames req f :
  keeps (same tables) (rate_limit_upsert req) ∧ keeps (same tables) (rate_limit_delete f)
  ∧ keeps (same tables) (rate_limit_status f) ∧ keeps (same tables) (ingress_upsert req)
  ∧ keeps (same tables) (ingress_delete f) ∧ keeps (same tables) (ingress_status f).
Proof.
  unfold rate_limit_upsert, rate_limit_delete, rate_limit_status, ingress_upsert,
    ingress_delete, ingress_status.
  split_and!; frame; repeat case_match; frame; by injection H as <- <-.
Qed.

Lemma scheduler_frames req id :
  keeps (same tables) (scheduler_upsert req) ∧ keeps (same tables) (scheduler_delete id)
  ∧ keeps (same tables) (scheduler_get id) ∧ keeps (same tables) scheduler_list.
Proof.
  unfold scheduler_upsert, scheduler_delete, scheduler_get, scheduler_list.
  split_and!; frame. by injection H as <- <-.
Qed.

(** Every call performs steps of the life cycle, and only retention prunes. *)
Lemma perform_sim sv c w s :
  typed_call c → implements w s →
  ∃ s', lsteps (prunes c) s s' ∧ implements (perform sv c w) s'.
Proof.
  intros Ht Hi. destruct c; simpl in *; try (apply after_sim; [|done]).
  - by apply enqueue_sim.
  - by apply enqueue_bulk_sim.
  - apply get_next_job_sim.
  - apply complete_job_sim.
  - apply fail_job_sim.
  - apply renew_lease_sim.
  - by apply add_flow_sim.
  - by apply add_flow_bulk_sim.
  - by apply add_flow_merge_sim.
  - apply simulates_frame, get_children_values_frame, _.
  - apply simulates_frame, (limit_frames req "").
  - apply simulates_frame, (limit_frames (mkUpsertRule "" 0 0) facet).
  - apply simulates_frame, (limit_frames (mkUpsertRule "" 0 0) facet).
  - apply simulates_frame, (limit_frames req "").
  - apply simulates_frame, (limit_frames (mkUpsertRule "" 0 0) facet).
  - apply simulates_frame, (limit_frames (mkUpsertRule "" 0 0) facet).
  - apply simulates_frame, (scheduler_frames req "").
  - apply simulates_frame, (scheduler_frames (mkUpsertSched "" None None) id).
  - apply simulates_frame, (scheduler_frames (mkUpsertSched "" None None) id).
  - apply simulates_frame, (scheduler_frames (mkUpsertSched "" None None) "").
  - apply tick_or_sim, recover_expired_sim.
  - destruct (enabled _); [|by exists s].
    apply after_sim; [|done]. apply tick_or_sim, sweep_sim.
  - apply run_once_sim.
Qed.

(** The migrations of a restart find nothing to change. *)
Lemma migrate_id w s : implements w s → migrate (w_db w) = w_db w.
Proof.
  intros Hi. unfold migrate. destruct (w_db w) as [js] eqn:Hd. simpl. f_equal.
  apply map_eq. intros id. rewrite lookup_fmap. destruct (js !! id) as [j|] eqn:Hj; [|done].
  simpl. f_equal. assert (job_wf j) as Hwf.
  { eapply implements_job_wf; [exact Hi|]. by rewrite Hd. }
  unfold migrate_lease, migrate_available, job_wf in *.
  rewrite !bool_decide_eq_false_2; [done|..].
  - intros [Ha ?]. rewrite Ha in Hwf. destruct Hwf as [(_ & [? ?] & _) _]. congruence.
  - intros [Ha ?]. destruct Hwf as (_ & _ & _ & [? ?]). case_bool_decide; simpl in *; congruence.
Qed.
Lemma restart_sim sv w s : implements w s → implements (restart sv w) s.
Proof.
  intros Hi. unfold restart, boot. rewrite (migrate_id w s Hi).
  by eapply implements_frame; [..|exact Hi].
Qed.

Definition l_initial : LState := mkL ∅ ∅ ∅.
Lemma initial_implements sv : implements (initial sv) l_initial.
Proof. by split; [..|split]. Qed.

Lemma sys_step_sim sv w w' s :
  sys_step sv w w' → implements w s → ∃ s', lsteps true s s' ∧ implements w' s'.
Proof.
  intros [c w0 Ht|w0] Hi.
  - destruct (perform_sim sv c w0 s Ht Hi) as (s' & Hs & ?). exists s'. split; [|done].
    destruct (prunes c); [done|by apply lsteps_prune].
  - exists s. split; [done|by apply restart_sim].
Qed.
Lemma sys_steps_sim sv w w' s :
  rtc (sys_step sv) w w' → implements w s → ∃ s', lsteps true s s' ∧ implements w' s'.
Proof.
  intros Hs. revert s. induction Hs as [w|w w1 w' H1 _ IH]; intros s Hi; [by exists s|].
  destruct (sys_step_sim _ _ _ _ H1 Hi) as (s1 & Hs1 & Hi1).
  eapply steps_then; [exact Hs1|]. by apply IH.
Qed.
Lemma reachable_implements sv w :
  reachable sv w → ∃ s, lsteps true l_initial s ∧ implements w s.
Proof. intros Hr. eapply sys_steps_sim; [exact Hr|apply initial_implements]. Qed.

(** What a run of the broker keeps of the abstract state it implements. *)
Lemma run_implements sv w w' :
  reachable sv w → rtc (sys_step sv) w w' →
  ∃ s s', implements w s ∧ lsteps true s s' ∧ implements w' s'.
Proof.
  intros (s & _ & Hi)%reachable_implements Hrun.
  destruct (sys_steps_sim _ _ _ _ Hrun Hi) as (s' & ? & ?). by exists s, s'.
Qed.

(** ** The theorems of the whole broker *)

(** C1: refinement.  In every reachable world, every call the broker serves takes the
    tables of jobs from one state of the life cycle to another by steps of the life
    cycle, whatever the call answers and whichever of its statements fail; a call other
    than a retention pass performs no step that prunes the archive. *)
Theorem broker_refines_lifecycle sv w c :
  reachable sv w → typed_call c →
  ∃ s s', lsteps true l_initial s ∧ implements w s
          ∧ lsteps (prunes c) s s' ∧ implements (perform sv c w) s'.
Proof.
  intros (s & Hs & Hi)%reachable_implements Ht.
  destruct (perform_sim sv c w s Ht Hi) as (s' & ? & ?). by exists s, s'.
Qed.

(** C2: the rows of every reachable database are well formed: a live job is owned and
    leased exactly while Active, its attempts stay within its limit, which fits 32 bits, and it has a due time;
    an archived job is Completed or Failed; no job is both live and archived. *)
Theorem reachable_rows_wf sv w :
  reachable sv w →
  map_Forall (λ _ j, job_wf j) (jobs (w_db w))
  ∧ map_Forall (λ _ h, hist_wf h) (job_history (w_db w))
  ∧ dom (jobs (w_db w)) ## dom (job_history (w_db w)).
Proof.
  intros (s & _ & [Hj Hh _ [? ? ? ?]])%reachable_implements. by rewrite <-Hj, <-Hh.
Qed.

(** C3: no job is lost.  Every job that is live or archived before a call is live or
    archived after it, unless the call is a retention pass. *)
Theorem no_job_lost sv w c :
  reachable sv w → typed_call c → prunes c = false →
  dom (jobs (w_db w)) ∪ dom (job_history (w_db w))
  ⊆ dom (jobs (w_db (perform sv c w))) ∪ dom (job_history (w_db (perform sv c w))).
Proof.
  intros (s & _ & Hi)%reachable_implements Ht Hp.
  destruct (perform_sim sv c w s Ht Hi) as (s' & Hs & Hi'). rewrite Hp in Hs.
  apply lsteps_keeps_jobs in Hs. destruct Hi as [<- <- _ _], Hi' as [<- <- _ _]. done.
Qed.

(** An outcome is final.  Once a job is archived, no later run, restarts included,
    makes it live again or changes its archived row; the row can only be pruned. *)
Lemma archived_final sv w w' id h :
  reachable sv w → rtc (sys_step sv) w w' → job_history (w_db w) !! id = Some h →
  jobs (w_db w') !! id = None
  ∧ (job_history (w_db w') !! id = Some h ∨ job_history (w_db w') !! id = None).
Proof.
  intros Hr Hrun Hh. destruct (run_implements _ _ _ Hr Hrun) as (s & s' & Hi & Hs & Hi').
  destruct Hi as [Hj0 Hh0 _ Hinv], Hi' as [Hj1 Hh1 _ _].
  rewrite <-Hh0 in Hh. rewrite <-Hj1, <-Hh1.
  by apply (settled_steps _ _ _ _ _ Hs), archived_settled.
Qed.

Lemma live_steps sv w w' id j :
  reachable sv w → rtc (sys_step sv) w w' → jobs (w_db w) !! id = Some j →
  (∀ j', jobs (w_db w') !! id = Some j' → job_ident j' = job_ident j ∧ j_attempts j ≤ j_attempts j')
  ∧ (∀ h, job_history (w_db w') !! id = Some h →
       hist_ident h = job_ident j ∧ j_attempts j ≤ h_attempts h).
Proof.
  intros Hr Hrun Hj. destruct (run_implements _ _ _ Hr Hrun) as (s & s' & Hi & Hs & Hi').
  destruct Hi as [Hj0 Hh0 _ Hinv], Hi' as [Hj1 Hh1 _ _].
  rewrite <-Hj0 in Hj. rewrite <-Hj1, <-Hh1.
  destruct (tracks_steps _ _ _ _ _ _ Hs (live_tracks _ _ _ Hinv Hj)) as (_ & ? & ?). done.
Qed.

(** C4: the record of a job is permanent, along any run, restarts included.  What a job is
    never changes: live or archived, it keeps its name, payload, priority, parent, trace,
    depth, attempt limit, creation time and facet, and its attempt count never decreases.
    And an outcome is final: once archived, a job is never live again and its row never
    changes; it can only be pruned. *)
Theorem job_record_permanent sv w w' id :
  reachable sv w → rtc (sys_step sv) w w' →
  (∀ j, jobs (w_db w) !! id = Some j →
     (∀ j', jobs (w_db w') !! id = Some j' →
        job_ident j' = job_ident j ∧ j_attempts j ≤ j_attempts j')
     ∧ (∀ h, job_history (w_db w') !! id = Some h →
          hist_ident h = job_ident j ∧ j_attempts j ≤ h_attempts h))
  ∧ (∀ h, job_history (w_db w) !! id = Some h →
       jobs (w_db w') !! id = None
       ∧ (job_history (w_db w') !! id = Some h ∨ job_history (w_db w') !! id = None)).
Proof.
  intros Hr Hrun. split; intros x Hx; [by eapply live_steps|by eapply archived_final].
Qed.

(** A successful claim makes the job live under the attempt it returns. *)
Lemma claim_live cfg req w r w' :
  get_next_job cfg req w = (Ok r, w') → n_found r = true →
  ∃ j j', jobs (w_db w) !! n_id r = Some j ∧ n_attempts r = j_attempts j + 1
          ∧ jobs (w_db w') !! n_id r = Some j' ∧ j_attempts j' = n_attempts r.
Proof.
  intros Hr%get_next_job_Ok Hf. destruct (claim_candidate _ _ _ _) as [[id j]|] eqn:Hsel.
  - destruct Hr as (now2 & Hj' & _ & _ & ->). apply claim_candidate_claimable in Hsel as [Hj _].
    exists j. eexists. simpl. rewrite Hj', lookup_insert_eq. by split_and!.
  - destruct Hr as [-> _]. done.
Qed.

(** C5: fencing.  Two claims of the same job never carry the same attempt number: the
    later one is strictly greater, whatever happens between them, so that (job, attempt)
    identifies one claim and an acknowledgement of an older claim is recognized. *)
Theorem claim_attempts_increase sv w req1 r1 w1 w2 req2 r2 w3 :
  reachable sv w →
  get_next_job (sv_claim sv) req1 w = (Ok r1, w1) → n_found r1 = true →
  rtc (sys_step sv) w1 w2 →
  get_next_job (sv_claim sv) req2 w2 = (Ok r2, w3) → n_found r2 = true →
  n_id r2 = n_id r1 → n_attempts r1 < n_attempts r2.
Proof.
  intros Hr H1 Hf1 Hrun H2 Hf2 Hid.
  assert (reachable sv w1) as Hr1.
  { eapply rtc_r; [exact Hr|].
    replace w1 with (perform sv (GetNextJob req1) w) by (simpl; unfold after; by rewrite H1).
    by constructor. }
  destruct (claim_live _ _ _ _ _ H1 Hf1) as (_ & j1 & _ & _ & Hj1 & <-).
  destruct (claim_live _ _ _ _ _ H2 Hf2) as (j2 & _ & Hj2 & -> & _).
  rewrite Hid in Hj2.
  destruct (live_steps _ _ _ _ _ Hr1 Hrun Hj1) as [Hlive _].
  apply Hlive in Hj2 as [_ ?]. lia.
Qed.

Lemma archive_stable sv w w' id h :
  reachable sv w → rtc (sys_step sv) w w' → job_history (w_db w) !! id = Some h →
  job_history (w_db w') !! id ≠ None →
  job_history (w_db w') !! id = Some h ∧ jobs (w_db w') !! id = None.
Proof.
  intros Hr Hrun Hh Hin. destruct (run_implements _ _ _ Hr Hrun) as (s & s' & Hi & Hs & Hi').
  destruct Hi as [Hj0 Hh0 _ Hinv], Hi' as [Hj1 Hh1 _ _].
  rewrite <-Hh0 in Hh. rewrite <-Hh1 in Hin. rewrite <-Hj1, <-Hh1.
  destruct (settled_steps _ _ _ _ _ Hs (archived_settled _ _ _ Hinv Hh)) as (_ & ? & [?|?]); done.
Qed.

(** C27: a completion can be repeated safely.  Once a completion has been acknowledged,
    sending it again at any later time, after any other calls and restarts, is answered
    with success and changes nothing, as long as retention has not pruned the job and no
    statement of the repetition fails. *)
Theorem completion_replay_safe sv w id worker n res w1 w2 :
  reachable sv w → 0 ≤ n → complete_job id worker n res w = (Ok true, w1) →
  rtc (sys_step sv) w1 w2 → job_history (w_db w2) !! id ≠ None →
  calm w2 →
  ∃ w3, complete_job id worker n res w2 = (Ok true, w3)
        ∧ w_db w3 = w_db w2 ∧ w_metrics w3 = w_metrics w2.
Proof.
  intros Hr Hn Hc Hrun Hin Hf.
  assert (reachable sv w1) as Hr1.
  { eapply rtc_r; [exact Hr|].
    replace w1 with (perform sv (CompleteJob id worker n res) w)
      by (simpl; unfold after; by rewrite Hc). by constructor. }
  unfold complete_job in *. destruct (_ <? _); [done|].
  apply bind_Ok in Hc as (b & w0 & H0 & Hc). injection Hc as ->.
  pose proof (finish_job_named _ _ _ _ H0) as Hb.
  apply completion_archived in H0 as (_ & _ & h & Hh & Hs & Ho & Ha); [|done..].
  destruct (archive_stable _ _ _ _ _ Hr1 Hrun Hh Hin) as [Hh2 Hj2].
  assert (replays_completion (mkAck id worker n None false
            (if decide (res = []) then None else Some res)) (w_db w2)) as Hrep.
  { split_and!; [done|done|]. by exists h. }
  rewrite (bind_run _ _ _ _ _ (finish_job_replay _ _ Hrep Hb Hf)). by eexists.
Qed.
End System.
