(* ===== verification/Startup.v ===== *)
(** * Starting and stopping the daemon ([main] of src/main.rs, [with_durability] and
    [checkpoint] of src/db.rs)

    The environment variables are read, the database opened and checked, and the service and
    its loops configured, in the order of [main]; the first refusal ends the start.  What the
    host answers (opening the database, its PRAGMAs, the migrations, binding the HTTP
    address) is a [Host]; the socket address parser of the Rust library is its [ho_socket]. *)
From Stdlib Require Import Ascii String.
From S2P Require Import Prelude Text Query F64 Scheduling Db Pressure Telemetry Broker.
From S2P Require Import Lifecycle RateLimit Ingress Enqueue Leases Claim Finish Flow FlowTree.
From S2P Require Import FlowSim Retention Schedulers Config System Reader Backup.
Local Open Scope string_scope.
Local Open Scope Z_scope.

(** ** Opening the database *)
Record Host := mkHost {
  (** [Connection::open], [busy_timeout] and the PRAGMA statements succeed *)
  ho_opens : bool;
  (** what [PRAGMA journal_mode] and [PRAGMA synchronous] then report *)
  ho_journal : string;
  ho_synchronous : Z;
  (** [run_migrations] and [Metrics::initialize] succeed *)
  ho_migrates : bool;
  (** [enable_fts] succeeds *)
  ho_indexes : bool;
  ho_socket : string → bool;
  ho_binds : bool;
}.

Inductive StartError :=
| BadSetting (message : string)
| BadQueues
| DbFailed
| DurabilityRefused
| FtsFailed
| BadAddress (value : string)
| BindFailed
| ReaderPanicked   (** [Semaphore::new] panics: the process ends *)
| Refused (e : ConfigError)
| BackupRefused (e : BackupConfigError).

Definition with_durability (h : Host) (path : string) (d : Durability) : result StartError unit :=
  if negb (ho_opens h) then Err DbFailed
  else if negb (ho_synchronous h =? synchronous d)
          || (negb (String.eqb path ":memory:") && negb (String.eqb (ho_journal h) "wal"))
  then Err DurabilityRefused
  else if negb (ho_migrates h) then Err DbFailed else Ok tt.

(** ** The daemon *)
Record Daemon := mkDaemon {
  dm_path : string;
  dm_durability : Durability;
  dm_service : Service;
  dm_reader : Reader;
  dm_fts_enabled : bool;
  dm_http_addr : string;
  dm_addr : string;
  dm_recovery_interval_ms : Z;
  dm_scheduler_interval_ms : Z;
  (** [None] when the snapshot writer is disabled *)
  dm_backup : option BackupConfig;
}.

Section Start.
Context (h : Host) (var : string → option string).

Definition of_message {A} (r : result string A) : result StartError A := res_map_err BadSetting r.
Definition of_config {A} (r : result ConfigError A) : result StartError A := res_map_err Refused r.
Definition switch (key : string) : bool :=
  match var key with Some v => is_truthy v | None => false end.
Definition address (key dflt : string) : result StartError string :=
  let v := default dflt (var key) in if ho_socket h v then Ok v else Err (BadAddress v).

Definition parse_max_chain_size : result StartError Z :=
  match var "ANVILMQ_MAX_CHAIN_SIZE" with
  | Some v =>
      match parse_u64 (trim v) with
      | Some n => Ok n
      | None => Err (BadSetting "ANVILMQ_MAX_CHAIN_SIZE must be a non-negative integer")
      end
  | None => Ok 0
  end.
Definition durability_setting : result StartError Durability :=
  match var "ANVILMQ_DURABILITY" with
  | Some v => of_message (Durability_parse v) | None => Ok Normal end.
Definition mode_setting : result StartError MetricsMode :=
  match var "ANVILMQ_METRICS_MODE" with
  | Some v => of_message (MetricsMode_parse v) | None => Ok Allowlist end.
Definition max_names_setting : result StartError Z :=
  match var "ANVILMQ_METRICS_MAX_NAMES" with
  | Some v => of_message (parse_max_names v) | None => Ok DEFAULT_METRICS_MAX_NAMES end.
Definition queues_setting : result StartError Pressure :=
  match configured (default "" (var "ANVILMQ_METRICS_QUEUES")) with
  | Some p => Ok p | None => Err BadQueues end.

(** The interval and the batch of the scheduler loop, and the caps of flows. *)
Definition scheduler_settings : result StartError (Z * Z) :=
  of_config (parse_scheduler_interval_ms (var "ANVILMQ_SCHEDULER_INTERVAL_MS")) ≫= λ interval_ms,
  of_config (parse_scheduler_batch_size (var "ANVILMQ_SCHEDULER_BATCH_SIZE")) ≫= λ batch_size,
  Ok (interval_ms, batch_size).
Definition flow_caps : result StartError FlowLimits :=
  of_config (parse_max_flow_depth (var "ANVILMQ_MAX_FLOW_DEPTH")) ≫= λ max_flow_depth,
  of_config (parse_max_flow_nodes (var "ANVILMQ_MAX_FLOW_NODES")) ≫= λ max_flow_nodes,
  of_config (parse_max_flow_bulk (var "ANVILMQ_MAX_FLOW_BULK")) ≫= λ max_flow_bulk,
  Ok (mkFlowLimits max_flow_depth max_flow_nodes max_flow_bulk).

Definition start : result StartError Daemon :=
  let path := default "anvil.db" (var "ANVILMQ_DB_PATH") in
  durability_setting ≫= λ durability,
  queues_setting ≫= λ pressure,
  mode_setting ≫= λ mode,
  max_names_setting ≫= λ max_names,
  with_durability h path durability ≫= λ _,
  let named :=
    match mode with
    | Allowlist => named_configured (queue_names pressure)
    | All => named_all max_names (queue_names pressure)
    end in
  let fts_enabled := switch "ANVILMQ_FTS_ENABLED" in
  (if fts_enabled && negb (ho_indexes h) then Err FtsFailed else Ok tt) ≫= λ _,
  match reader_from_env var path with Some r => Ok r | None => Err ReaderPanicked end ≫= λ reader,
  address "ANVILMQ_HTTP_ADDR" "127.0.0.1:9090" ≫= λ http_addr,
  (if ho_binds h then Ok tt else Err BindFailed) ≫= λ _,
  of_config (parse_lease_duration_ms (var "ANVILMQ_LEASE_DURATION_MS")) ≫= λ lease,
  of_config (parse_recovery_interval_ms (var "ANVILMQ_RECOVERY_INTERVAL_MS")) ≫= λ recovery_ms,
  of_config (parse_recovery_batch_size (var "ANVILMQ_RECOVERY_BATCH_SIZE")) ≫= λ recovery_batch,
  of_config (parse_max_execution_depth (var "ANVILMQ_MAX_EXECUTION_DEPTH")) ≫= λ depth,
  of_config (from_env var lease) ≫= λ retention,
  res_map_err BackupRefused (backup_from_env var) ≫= λ backup,
  address "ANVILMQ_ADDR" "[::1]:50051" ≫= λ addr,
  parse_max_chain_size ≫= λ chain,
  let fairness := switch "ANVILMQ_FAIRNESS_ENABLED" in
  scheduler_settings ≫= λ '(sched_ms, sched_batch),
  flow_caps ≫= λ flow,
  let service :=
    mkService (mkLimits depth chain) (mkClaimCfg fairness lease)
      flow retention recovery_batch sched_batch pressure named in
  Ok (mkDaemon path durability service reader fts_enabled http_addr addr recovery_ms sched_ms
        (if bk_enabled backup then Some backup else None)).
End Start.

(** ** Stopping *)

(** [checkpoint]: the rows of the two PRAGMAs, or their failure. *)
Definition checkpoint (journal : SqlResult string) (truncate passive : SqlResult (Z * Z * Z))
  : SqlResult unit :=
  journal ≫= λ journal,
  if negb (String.eqb (to_ascii_lowercase journal) "wal") then Ok tt else
  truncate ≫= λ '(busy, _, _),
  if busy =? 0 then Ok tt else passive ≫= λ _, Ok tt.

(** The end of [main]: a failed checkpoint is logged, the first server error is returned. *)
Definition shutdown {E} (grpc http : result E unit) (checkpointed : SqlResult unit)
  : result E unit :=
  grpc ≫= λ _, http.

(** ** What a started daemon runs with *)

Section Specs.
Context (var : string → option string).

(** The number is what the variable says, the default only when the variable is absent. *)
Definition reads (key : string) (parse : string → option Z) (dflt n : Z) : Prop :=
  match var key with Some v => parse (trim v) = Some n | None => n = dflt end.
(** And it is in range. *)
Definition in_force (key : string) (parse : string → option Z) (dflt lo hi n : Z) : Prop :=
  lo ≤ n ≤ hi ∧ reads key parse dflt n.
(** The switch is on exactly when the variable says so. *)
Definition switched (key : string) (b : bool) : Prop :=
  b = true ↔ ∃ v, var key = Some v ∧ to_ascii_lowercase (trim v) ∈ ["1"; "true"; "yes"].
Definition word (key : string) (f : string → string) (w : string) : Prop :=
  ∃ v, var key = Some v ∧ f v = w.

(** The durability, and the level [PRAGMA synchronous] has for it. *)
Definition durability_read (d : Durability) (level : Z) : Prop :=
  match d with
  | Normal => (var "ANVILMQ_DURABILITY" = None ∨ word "ANVILMQ_DURABILITY" to_ascii_uppercase "NORMAL")
              ∧ level = 1
  | Full => word "ANVILMQ_DURABILITY" to_ascii_uppercase "FULL" ∧ level = 2
  end.
(** The metrics: the queues of the gauges, and the names that have series of their own. *)
Definition metrics_read (sv : Service) : Prop :=
  configured (default "" (var "ANVILMQ_METRICS_QUEUES")) = Some (sv_pressure sv)
  ∧ let mode := word "ANVILMQ_METRICS_MODE" (λ v, to_ascii_lowercase (trim v)) in
    match sv_named sv with
    | Bounded series =>
        (var "ANVILMQ_METRICS_MODE" = None ∨ mode "" ∨ mode "allowlist")
        ∧ series.*1 = queue_names (sv_pressure sv)
    | AllNames cap series dropped =>
        mode "all" ∧ in_force "ANVILMQ_METRICS_MAX_NAMES" parse_usize 100 1 1000 cap
        ∧ series = preseed cap ∅ (queue_names (sv_pressure sv)) ∧ dropped = 0
    end.
Definition retention_read (lease : Z) (c : RetentionConfig) : Prop :=
  reads "ANVILMQ_RETENTION_COMPLETED_AGE_MS" parse_i64 86400000 (completed_age_ms c)
  ∧ reads "ANVILMQ_RETENTION_COMPLETED_COUNT" parse_i64 1000 (completed_count c)
  ∧ reads "ANVILMQ_RETENTION_FAILED_AGE_MS" parse_i64 604800000 (failed_age_ms c)
  ∧ reads "ANVILMQ_RETENTION_FAILED_COUNT" parse_i64 0 (failed_count c)
  ∧ reads "ANVILMQ_RETENTION_INTERVAL_MS" parse_i64 60000 (interval_ms c)
  ∧ reads "ANVILMQ_RETENTION_BATCH" parse_i64 1000 (batch c)
  ∧ reads "ANVILMQ_MAX_CHAIN_COUNTER_TTL_MS" parse_i64 604800000 (chain_counter_ttl_ms c)
  ∧ reads "ANVILMQ_FACET_DISPATCH_TTL_MS" parse_i64 604800000 (facet_dispatch_ttl_ms c)
  ∧ reads "ANVILMQ_RETENTION_REJECTIONS_AGE_MS" parse_i64 604800000 (rejections_age_ms c)
  ∧ min_age_ms c = sat_i64 (lease * 2).
Definition backup_read (b : option BackupConfig) : Prop :=
  switched "ANVILMQ_BACKUP_ENABLED" (bool_decide (is_Some b))
  ∧ ∀ c, b = Some c →
      in_force "ANVILMQ_BACKUP_INTERVAL_MS" parse_u64 120000 1 u64_max (bk_interval_ms c)
      ∧ in_force "ANVILMQ_BACKUP_RETAIN" parse_usize 3 1 u64_max (bk_retain c)
      ∧ bk_dir c = default "backups" (var "ANVILMQ_BACKUP_DIR") ∧ is_blank (bk_dir c) = false.
(** A limit that is absent, not a number or zero is 4; a budget that is no number is 500. *)
Definition reader_read (path : string) (r : Reader) : Prop :=
  rd_path r = path ∧ 1 ≤ rd_max_concurrency r ≤ MAX_PERMITS
  ∧ (let given n := ∃ v, var "ANVILMQ_READER_MAX_CONCURRENCY" = Some v
                         ∧ parse_usize (trim v) = Some n ∧ 1 ≤ n in
     given (rd_max_concurrency r) ∨ (∀ n, ¬ given n) ∧ rd_max_concurrency r = 4)
  ∧ (let given n := ∃ v, var "ANVILMQ_READER_TIMEOUT_MS" = Some v ∧ parse_u64 (trim v) = Some n in
     given (rd_timeout_ms r) ∨ (∀ n, ¬ given n) ∧ rd_timeout_ms r = 500).
End Specs.

Lemma setting_in_force var key lo hi low dflt check n :
  (∀ z n, check z = Ok n → n = z ∧ low ≤ z) → low ≤ dflt ≤ hi →
  parse_setting key (parse_int lo hi) dflt check (var key) = Ok n →
  in_force var key (parse_int lo hi) dflt low hi n.
Proof.
  intros Hc Hd Hp. split; [by eapply setting_range|]. unfold reads.
  apply parse_setting_Ok in Hp as [[-> ->]|(v & m & -> & Hm & Hn)]; [done|].
  apply Hc in Hn as [-> _]. done.
Qed.

Lemma of_config_Ok {A} (r : result ConfigError A) a : of_config r = Ok a → r = Ok a.
Proof. unfold of_config, res_map_err. destruct r; congruence. Qed.

Lemma with_durability_Ok h path d u :
  with_durability h path d = Ok u →
  ho_opens h = true ∧ ho_migrates h = true ∧ ho_synchronous h = synchronous d
  ∧ (path ≠ ":memory:" → ho_journal h = "wal").
Proof.
  unfold with_durability. destruct (ho_opens h); [|done].
  destruct (Z.eqb_spec (ho_synchronous h) (synchronous d)); [|done].
  destruct (String.eqb_spec path ":memory:"), (String.eqb_spec (ho_journal h) "wal"),
    (ho_migrates h); done.
Qed.

Lemma address_Ok h var key dflt v :
  address h var key dflt = Ok v → v = default dflt (var key).
Proof. unfold address. destruct (ho_socket h _); [|done]. by intros [= <-]. Qed.
Lemma of_backup_Ok {A} (r : result BackupConfigError A) a :
  res_map_err BackupRefused r = Ok a → r = Ok a.
Proof. unfold res_map_err. destruct r; congruence. Qed.
Lemma switched_truthy var key : switched var key (switch var key).
Proof.
  unfold switched, switch, is_truthy. destruct (var key) as [v|]; [|naive_solver].
  rewrite !orb_true_iff, !String.eqb_eq. split.
  - intros Hv. exists v. split; [done|]. rewrite !elem_of_cons. naive_solver.
  - intros (v' & [= <-] & Hv). rewrite !elem_of_cons, elem_of_nil in Hv. naive_solver.
Qed.
Lemma durability_reads var d :
  durability_setting var = Ok d → durability_read var d (synchronous d).
Proof.
  unfold durability_setting, of_message, Durability_parse, durability_read, word, res_map_err.
  destruct (var _) as [v|]; [|intros [= <-]; auto].
  destruct (String.eqb_spec (to_ascii_uppercase v) "NORMAL").
  - intros [= <-]. eauto.
  - destruct (String.eqb_spec (to_ascii_uppercase v) "FULL"); [|done]. intros [= <-]. eauto.
Qed.
Lemma mode_reads var m :
  mode_setting var = Ok m →
  let mode := word var "ANVILMQ_METRICS_MODE" (λ v, to_ascii_lowercase (trim v)) in
  match m with
  | Allowlist => var "ANVILMQ_METRICS_MODE" = None ∨ mode "" ∨ mode "allowlist"
  | All => mode "all"
  end.
Proof.
  unfold mode_setting, of_message, MetricsMode_parse, word, res_map_err.
  destruct (var _) as [v|]; [|intros [= <-]; auto].
  destruct (String.eqb_spec (to_ascii_lowercase (trim v)) ""); simpl; [intros [= <-]; eauto|].
  destruct (String.eqb_spec (to_ascii_lowercase (trim v)) "allowlist"); simpl; [intros [= <-]; eauto|].
  destruct (String.eqb_spec (to_ascii_lowercase (trim v)) "all"); [|done]. intros [= <-]. eauto.
Qed.
Lemma max_names_reads var n :
  max_names_setting var = Ok n →
  in_force var "ANVILMQ_METRICS_MAX_NAMES" parse_usize 100 1 1000 n.
Proof.
  unfold max_names_setting, of_message, parse_max_names, in_force, reads, res_map_err.
  destruct (var _) as [v|]; [|intros [= <-]; by vm_compute].
  destruct (parse_usize (trim v)) as [m|] eqn:E; [|done]. apply parse_int_range in E.
  destruct (Z.eqb_spec m 0); [done|]. destruct (Z.ltb_spec METRICS_MAX_NAMES_CEILING m); [done|].
  intros [= <-]. unfold METRICS_MAX_NAMES_CEILING in *. split; [lia|done].
Qed.
Lemma env_i64_reads var key dflt n : env_i64 var key dflt = Ok n → reads var key parse_i64 dflt n.
Proof.
  unfold env_i64, reads. destruct (var key) as [v|]; [|by intros [= <-]].
  by destruct (parse_i64 (trim v)) eqn:E; intros [= <-].
Qed.
Lemma retention_reads var lease c : from_env var lease = Ok c → retention_read var lease c.
Proof.
  unfold from_env, to_u64. intros Hv.
  repeat match type of Hv with
    (?m ≫= _) = Ok _ =>
      let E := fresh "E" in destruct m eqn:E; simpl in Hv; [|discriminate Hv]
    end.
  match goal with H : (if ?n <? 0 then _ else _) = Ok _ |- _ =>
    destruct (Z.ltb_spec n 0); [done|]; injection H as <- end.
  repeat match goal with H : env_i64 _ _ _ = Ok _ |- _ => apply env_i64_reads in H end.
  injection Hv as <-. unfold retention_read. simpl. by split_and!.
Qed.
Lemma env_unsigned_reads hi var key dflt n lo :
  env_unsigned var (parse_int 0 hi) key dflt = Ok n → lo ≤ n → 0 ≤ dflt ≤ hi →
  in_force var key (parse_int 0 hi) dflt lo hi n.
Proof.
  intros Hn Hlo Hd. pose proof (env_unsigned_range _ _ _ _ _ Hd Hn). split; [lia|].
  unfold env_unsigned, reads in *. destruct (var key) as [v|]; [|congruence].
  destruct (parse_int 0 hi (trim v)) eqn:E; congruence.
Qed.
Lemma backup_reads var c :
  backup_from_env var = Ok c → backup_read var (if bk_enabled c then Some c else None).
Proof.
  intros Hc. pose proof (backup_from_env_valid _ _ Hc) as (Hi & Hr & Hd). unfold backup_from_env in Hc.
  destruct (env_unsigned _ parse_u64 _ _) as [iv|] eqn:E1; [|done].
  destruct (env_unsigned _ parse_usize _ _) as [rt|] eqn:E2; [|done].
  cbn in Hc. destruct (backup_validate _); [|done]. injection Hc as <-. simpl in *.
  split.
  - assert (bool_decide (is_Some (if env_bool var "ANVILMQ_BACKUP_ENABLED" false
              then Some (mkBackup (env_bool var "ANVILMQ_BACKUP_ENABLED" false) iv
                           (env_string var "ANVILMQ_BACKUP_DIR" "backups") rt) else None))
            = switch var "ANVILMQ_BACKUP_ENABLED") as ->; [|apply switched_truthy].
    unfold env_bool, switch. destruct (var _) as [v|]; [|done]. by destruct (is_truthy v).
  - intros c Hs. destruct (env_bool _ _ _) eqn:Eb; [|done]. injection Hs as <-. simpl in *.
    split_and!; [apply env_unsigned_reads; [done|lia|by vm_compute]..|done|auto].
Qed.
Lemma reader_reads var path r : reader_from_env var path = Some r → reader_read var path r.
Proof.
  intros [Hc ->]%reader_from_env_Some. pose proof (concurrency_setting_range var).
  unfold reader_read. simpl. split_and!; [done|lia|lia|..].
  - unfold concurrency_setting. destruct (var _) as [v|]; simpl; [|right; naive_solver].
    destruct (parse_usize (trim v)) as [n|] eqn:E; [|right; naive_solver].
    destruct (Z.leb_spec 1 n); [left; eauto|right]. split; [|done]. intros m (? & [= <-] & ? & ?).
    assert (m = n) by congruence. lia.
  - unfold timeout_setting. destruct (var _) as [v|]; simpl; [|right; naive_solver].
    destruct (parse_u64 (trim v)) as [n|] eqn:E; simpl; [left; eauto|right; naive_solver].
Qed.

Lemma max_chain_size_in_force var n :
  parse_max_chain_size var = Ok n → in_force var "ANVILMQ_MAX_CHAIN_SIZE" parse_u64 0 0 u64_max n.
Proof.
  unfold parse_max_chain_size, in_force, reads. destruct (var _) as [v|].
  - destruct (parse_u64 (trim v)) eqn:E; [|done]. intros [= <-]. split; [|done].
    by apply parse_int_range in E.
  - intros [= <-]. split; [by vm_compute|done].
Qed.

(** Follow a chain of settings that was read to its end. *)
Ltac settle Hs :=
  repeat match type of Hs with
  | (?m ≫= _) = Ok _ => let E := fresh "E" in destruct m eqn:E; cbn [mbind result_bind res_bind] in Hs; [|discriminate Hs]
  end.

(** Settings of [start] as its chain reads them. *)
Lemma named_reads var mode max_names p sv :
  mode_setting var = Ok mode → max_names_setting var = Ok max_names →
  queues_setting var = Ok p → sv_pressure sv = p →
  sv_named sv = match mode with
                | Allowlist => named_configured (queue_names p)
                | All => named_all max_names (queue_names p)
                end →
  metrics_read var sv.
Proof.
  intros Hm%mode_reads Hn%max_names_reads Hq Hp Hs. unfold metrics_read. rewrite Hp, Hs. split.
  - unfold queues_setting in Hq. destruct (configured _); [|done]. by injection Hq as ->.
  - destruct mode; simpl; [|done]. split; [done|].
    rewrite <-list_fmap_compose. apply list_fmap_id.
Qed.

(** C35: a daemon that starts runs with the settings its environment asks for.  Each number
    is in its range and is the one its variable gives, the default only when the variable is
    absent; each switch is on exactly when its variable says 1, true or yes; the metrics
    mode, the queues and the cap on names, the paths and the addresses, and every setting of
    retention, of the snapshots and of the reader are those of their variables.  Retention
    removes no row for its age within two leases of its end; and a database on disk is in WAL
    mode, with PRAGMA synchronous at the level of the durability that was asked for. *)
Theorem daemon_settings h var dm :
  start h var = Ok dm →
  let sv := dm_service dm in
  let lease := lease_duration_ms (sv_claim sv) in
  (in_force var "ANVILMQ_LEASE_DURATION_MS" parse_i64 30000 1000 i64_max lease
   ∧ in_force var "ANVILMQ_RECOVERY_INTERVAL_MS" parse_i64 5000 1 i64_max (dm_recovery_interval_ms dm)
   ∧ in_force var "ANVILMQ_RECOVERY_BATCH_SIZE" parse_usize 100 1 u64_max (sv_recovery_batch sv)
   ∧ in_force var "ANVILMQ_MAX_EXECUTION_DEPTH" parse_u32 10 1 u32_max (max_execution_depth (sv_limits sv))
   ∧ in_force var "ANVILMQ_MAX_CHAIN_SIZE" parse_u64 0 0 u64_max (max_chain_size (sv_limits sv))
   ∧ in_force var "ANVILMQ_SCHEDULER_INTERVAL_MS" parse_i64 1000 1 i64_max (dm_scheduler_interval_ms dm)
   ∧ in_force var "ANVILMQ_SCHEDULER_BATCH_SIZE" parse_usize 256 1 u64_max (sv_scheduler_batch sv)
   ∧ in_force var "ANVILMQ_MAX_FLOW_DEPTH" parse_u32 10 1 u32_max (max_flow_depth (sv_flow sv))
   ∧ in_force var "ANVILMQ_MAX_FLOW_NODES" parse_u32 1000 1 u32_max (max_flow_nodes (sv_flow sv))
   ∧ in_force var "ANVILMQ_MAX_FLOW_BULK" parse_u32 100 1 u32_max (max_flow_bulk (sv_flow sv)))
  ∧ (switched var "ANVILMQ_FAIRNESS_ENABLED" (fairness_enabled (sv_claim sv))
     ∧ switched var "ANVILMQ_FTS_ENABLED" (dm_fts_enabled dm))
  ∧ (dm_path dm = default "anvil.db" (var "ANVILMQ_DB_PATH")
     ∧ dm_http_addr dm = default "127.0.0.1:9090" (var "ANVILMQ_HTTP_ADDR")
     ∧ dm_addr dm = default "[::1]:50051" (var "ANVILMQ_ADDR"))
  ∧ metrics_read var sv
  ∧ (retention_read var lease (sv_retention sv) ∧ config_ok (sv_retention sv)
     ∧ (in_i64 (lease * 2) → ∀ now hr, in_i64 (h_finished_at hr) →
          over_age (sv_retention sv) now hr → h_finished_at hr < now - 2 * lease))
  ∧ backup_read var (dm_backup dm)
  ∧ reader_read var (dm_path dm) (dm_reader dm)
  ∧ durability_read var (dm_durability dm) (ho_synchronous h)
  ∧ (dm_path dm ≠ ":memory:" → ho_journal h = "wal").
Proof.
  intros Hs. unfold start in Hs. settle Hs.
  match goal with H : scheduler_settings _ = Ok ?p |- _ =>
    rename H into Hsched; destruct p; unfold scheduler_settings in Hsched; settle Hsched;
    injection Hsched as <- <- end.
  settle Hs.
  match goal with H : flow_caps _ = Ok _ |- _ =>
    rename H into Hflow; unfold flow_caps in Hflow; settle Hflow; injection Hflow as <- end.
  injection Hs as <-.
  cbn [dm_service dm_reader dm_backup dm_path dm_durability dm_recovery_interval_ms dm_fts_enabled
       dm_http_addr dm_addr dm_scheduler_interval_ms sv_claim sv_limits sv_flow sv_retention
       sv_recovery_batch sv_scheduler_batch lease_duration_ms fairness_enabled
       max_execution_depth max_chain_size max_flow_depth max_flow_nodes max_flow_bulk].
  repeat match goal with H : of_config _ = Ok _ |- _ => apply of_config_Ok in H end.
  repeat match goal with
  | H : parse_max_chain_size _ = Ok _ |- _ => apply max_chain_size_in_force in H
  | H : with_durability _ _ _ = Ok _ |- _ => apply with_durability_Ok in H as (_ & _ & ? & ?)
  | H : address _ _ _ _ = Ok _ |- _ => apply address_Ok in H as ->
  | H : match reader_from_env _ _ with _ => _ end = Ok _ |- _ =>
      destruct (reader_from_env _ _) eqn:?; [injection H as ->|discriminate H]
  | H : res_map_err BackupRefused (backup_from_env _) = Ok _ |- _ => apply of_backup_Ok in H
  end.
  match goal with H : parse_lease_duration_ms _ = Ok ?n |- _ =>
    assert (in_force var "ANVILMQ_LEASE_DURATION_MS" parse_i64 LEASE_DURATION_MS 1000 i64_max n)
      as [[Hlease _] _]
      by (eapply setting_in_force; [| |exact H]; [eauto using at_least_Ok|by vm_compute]) end.
  match goal with H : from_env _ _ = Ok _ |- _ => rename H into Hret end.
  pose proof (proj1 (from_env_Ok _ _ _ Hret)).
  pose proof (λ Hi, proj2 (proj2 (retention_outlives_leases _ _ _ Hret ltac:(lia) Hi))).
  repeat match goal with |- _ ∧ _ => split end;
    eauto using switched_truthy, retention_reads, backup_reads, reader_reads;
    try (eapply setting_in_force; [| |eassumption]; [eauto using at_least_Ok, positive_Ok|by vm_compute]).
  - by eapply named_reads.
  - match goal with H : durability_setting _ = Ok _ |- _ => apply durability_reads in H end.
    congruence.
Qed.

Example start_defaults :
  let h := mkHost true "wal" 1 true true (λ _, true) true in
  match start h (λ _, None) with
  | Ok dm => lease_duration_ms (sv_claim (dm_service dm)) = 30000 ∧ dm_path dm = "anvil.db"
             ∧ dm_backup dm = None ∧ dm_fts_enabled dm = false
  | Err _ => False
  end.
Proof. by vm_compute. Qed.
