(* ===== verification/Daemon.v ===== *)
(** * The running daemon ([main] of src/main.rs after its settings, [shutdown_signal])

    The process: the main task, the task that waits for a signal, the loops, the two servers
    and the pool of threads that runs their blocking closures, interleaved in any order.
    [step] is what each of them may do next.  A server hands a request to its handler, which
    submits a closure to the pool and waits for it; a loop does the same at each tick.
    Aborting a loop, or dropping a request, does not take its closure out of the pool, and
    the closure takes the writer's lock only when a thread runs it.

    tokio, tonic and hyper are outside the repository.  The steps state what their
    documentation says: a receiver of a broadcast channel sees what is sent after it
    subscribed; a server that was told to stop accepts nothing more and returns when the
    requests it accepted are done; a server may fail at any time.  Connections of a server
    that failed may go on sending requests. *)
From Stdlib Require Import Ascii String.
From stdpp Require Import functions.
From S2P Require Import Prelude Text Query F64 Scheduling Db Pressure Telemetry Broker.
From S2P Require Import Lifecycle RateLimit Ingress Enqueue Leases Claim Finish Flow FlowTree.
From S2P Require Import FlowSim Retention Schedulers Config System Reader Backup Startup.
Local Open Scope string_scope.
Local Open Scope Z_scope.

(** ** The process *)
Inductive Server := Grpc | Http.
#[export] Instance Server_eq_dec : EqDecision Server.
Proof. solve_decision. Defined.
Inductive Loop := Sampler | Recovery | Retention | BackupLoop | SchedulerLoop.
#[export] Instance Loop_eq_dec : EqDecision Loop.
Proof. solve_decision. Defined.

(** The writer's work in one pass of a loop; the sampler and the snapshot writer have
    connections of their own (Render.v, Backup.v). *)
Definition pass (l : Loop) : option Call :=
  match l with
  | Recovery => Some RecoverTick
  | Retention => Some RetentionTick
  | SchedulerLoop => Some SchedulerTick
  | Sampler | BackupLoop => None
  end.
Definition is_rpc (c : Call) : bool :=
  match c with RecoverTick | RetentionTick | SchedulerTick => false | _ => true end.

(** What the main task does, in order, once its settings are accepted. *)
Inductive Action :=
| Spawn (l : Loop)
| SpawnSignal
| Subscribe (s : Server)
| Select
| Await (s : Server)
| Abort (l : Loop)
| Checkpoint
| Return.
#[export] Instance Action_eq_dec : EqDecision Action.
Proof. solve_decision. Defined.

(** The loops that the settings switch on. *)
Definition optional_loops (dm : Daemon) : list Loop :=
  ((if enabled (sv_retention (dm_service dm)) then [Retention] else [])
   ++ match dm_backup dm with Some _ => [BackupLoop] | None => [] end)%list.
Definition serve_actions (dm : Daemon) : list Action :=
  ([Select; Await Grpc; Await Http; Abort Recovery; Abort SchedulerLoop; Abort Sampler]
   ++ (Abort <$> optional_loops dm) ++ [Checkpoint; Return])%list.
Definition main_actions (dm : Daemon) : list Action :=
  ([Spawn Sampler; SpawnSignal; Subscribe Http; Spawn Recovery]
   ++ (Spawn <$> optional_loops dm) ++ [Spawn SchedulerLoop; Subscribe Grpc]
   ++ serve_actions dm)%list.

Inductive Phase := Open | Draining | Ended (r : result string unit).
Inductive Signal := NotWaited | Waited | Received.
Inductive Origin := FromRequest (n : nat) | FromLoop (l : Loop).
#[export] Instance Origin_eq_dec : EqDecision Origin.
Proof. solve_decision. Defined.

Record Process := mkProcess {
  p_world : World;
  (** the rest of [main], and its result when it has returned *)
  p_todo : list Action;
  p_exit : option (result string unit);
  (** the task of [shutdown_signal] *)
  p_signal : Signal;
  (** the receivers of the shutdown channel: whether there is something to receive *)
  p_receiver : Server → option bool;
  p_phase : Server → Phase;
  (** [grpc_result] and [http_result] *)
  p_result : Server → option (result string unit);
  (** accepted requests that have not been answered *)
  p_open : list (Server * nat);
  (** the loops that have not been aborted *)
  p_loops : list Loop;
  (** closures submitted to the blocking pool *)
  p_pool : list (Origin * Call);
}.
#[export] Instance Process_eta : Eta Process := λ p,
  mkProcess (p_world p) (p_todo p) (p_exit p) (p_signal p) (p_receiver p) (p_phase p)
    (p_result p) (p_open p) (p_loops p) (p_pool p).

(** [shutdown_tx.send(())]: to the receivers there are; errors are ignored. *)
Definition send (p : Process) : Process :=
  p <| p_receiver ::= λ r s, (λ _, true) <$> r s |>.
(** The servers run while [main] is at [select!] or past it. *)
Definition serving (p : Process) : bool :=
  forallb (λ a, match a with Subscribe _ => false | _ => true end) (p_todo p).

(** ** The main task *)
Definition ended (p : Process) (s : Server) : option (result string unit) :=
  match p_phase p s with Ended r => Some r | _ => None end.

(** One action; [None] while it waits.  [select!] takes the first server that has ended,
    either when both have, and tells the other one. *)
Definition act (first : Server) (p : Process) : option Process :=
  match p_todo p with
  | [] => None
  | a :: rest =>
      let p := p <| p_todo := rest |> in
      match a with
      | Spawn l => Some (p <| p_loops ::= cons l |>)
      | SpawnSignal => Some (p <| p_signal := Waited |>)
      | Subscribe s => Some (p <| p_receiver ::= <[s := Some false]> |>)
      | Select => r ← ended p first; Some (send (p <| p_result ::= <[first := Some r]> |>))
      | Await s =>
          match p_result p s with
          | Some _ => Some p
          | None => r ← ended p s; Some (p <| p_result ::= <[s := Some r]> |>)
          end
      | Abort l => Some (p <| p_loops ::= base.filter (.≠ l) |>)
      | Checkpoint => Some p
      | Return =>
          grpc ← p_result p Grpc; http ← p_result p Http;
          Some (p <| p_exit := Some (shutdown grpc http (Ok tt)) |>)
      end
  end.

(** ** Everything else *)
Inductive Event :=
| EMain (first : Server)
| ESignal                                  (** SIGTERM or Ctrl-C arrives *)
| ENotify (s : Server)                     (** a server receives the shutdown message *)
| ERpc (n : nat) (c : Call)                (** a request reaches the queue service *)
| EGet (n : nat)                           (** a request reaches the HTTP router *)
| EAnswer (n : nat)                        (** an HTTP request is answered *)
| EDrop (s : Server) (n : nat)             (** a client goes away *)
| ETick (l : Loop)
| ERun (i : nat)                           (** a thread runs a closure of the pool *)
| EDrained (s : Server)                    (** a draining server returns *)
| EFail (s : Server) (e : string).         (** a server fails *)

(** A server hands out requests until it drains; what was connected to a server that failed
    may still send. *)
Definition accepts (ph : Phase) : bool :=
  match ph with Open | Ended (Err _) => true | _ => false end.
Definition fresh_request (n : nat) (p : Process) : bool :=
  bool_decide (((Grpc, n) ∉ p_open p) ∧ ((Http, n) ∉ p_open p) ∧ (FromRequest n ∉ (p_pool p).*1)).
Definition running (p : Process) : bool := bool_decide (p_exit p = None).

Section Process.
Context `{HE : Env, HP : Prost, HC : CronLib}.
Context (sv : Service).

Definition step (e : Event) (p : Process) : option Process :=
  match e with
  | EMain first => act first p
  | ESignal =>
      match p_signal p with
      | Waited => Some (send (p <| p_signal := Received |>))
      | _ => None
      end
  | ENotify s =>
      match p_receiver p s, p_phase p s with
      | Some true, Open =>
          if serving p then Some (p <| p_phase ::= <[s := Draining]> |>) else None
      | _, _ => None
      end
  | ERpc n c =>
      if running p && serving p && accepts (p_phase p Grpc) && fresh_request n p && is_rpc c
      then Some (p <| p_open ::= cons (Grpc, n) |> <| p_pool ::= cons (FromRequest n, c) |>)
      else None
  | EGet n =>
      if running p && serving p && accepts (p_phase p Http) && fresh_request n p
      then Some (p <| p_open ::= cons (Http, n) |>) else None
  | EAnswer n =>
      if bool_decide ((Http, n) ∈ p_open p)
      then Some (p <| p_open ::= base.filter (.≠ (Http, n)) |>) else None
  | EDrop s n =>
      if bool_decide ((s, n) ∈ p_open p)
      then Some (p <| p_open ::= base.filter (.≠ (s, n)) |>) else None
  | ETick l =>
      c ← pass l;
      if running p && bool_decide (l ∈ p_loops p ∧ FromLoop l ∉ (p_pool p).*1)
      then Some (p <| p_pool ::= cons (FromLoop l, c) |>) else None
  | ERun i =>
      '(o, c) ← p_pool p !! i;
      let p := p <| p_world ::= perform sv c |> <| p_pool ::= delete i |> in
      Some (match o with
            | FromRequest n => p <| p_open ::= base.filter (.≠ (Grpc, n)) |>
            | FromLoop _ => p
            end)
  | EDrained s =>
      match p_phase p s with
      | Draining =>
          if bool_decide (Forall (λ r, r.1 ≠ s) (p_open p))
          then Some (p <| p_phase ::= <[s := Ended (Ok tt)]> |>) else None
      | _ => None
      end
  | EFail s e =>
      match p_phase p s with
      | Ended _ => None
      | _ => if serving p then Some (p <| p_phase ::= <[s := Ended (Err e)]> |>) else None
      end
  end.

(** A run of the process. *)
Fixpoint run (es : list Event) (p : Process) : option Process :=
  match es with
  | [] => Some p
  | e :: es => p' ← step e p; run es p'
  end.

(** The process after its settings are accepted and its database is opened. *)
Definition launch (dm : Daemon) (w : World) : Process :=
  mkProcess w (main_actions dm) None NotWaited (λ _, None) (λ _, Open) (λ _, None) [] [] [].

(** ** Invariant *)

(** The order of [main]: what is spawned is aborted later, the signal is waited for
    once, a receiver is made once and
    before the one [select!], and the result comes last. *)
Definition past_select (acts : list Action) : Prop :=
  Forall (λ a, match a with Subscribe _ | Select => False | _ => True end) acts.
Fixpoint orderly (acts : list Action) : Prop :=
  match acts with
  | [] => True
  | a :: rest =>
      match a with
      | Spawn l => Abort l ∈ rest
      | SpawnSignal => SpawnSignal ∉ rest
      | Subscribe s => (Subscribe s ∉ rest) ∧ Select ∈ rest ∧ (s = Http → Subscribe Grpc ∈ rest)
      | Select | Await _ => past_select rest
      | Return => rest = []
      | _ => True
      end ∧ orderly rest
  end.
Lemma main_orderly dm : orderly (main_actions dm).
Proof.
  unfold main_actions, serve_actions, optional_loops, past_select.
  destruct (enabled _), (dm_backup dm); simpl; unfold past_select;
    repeat first [done | split | constructor; done | set_solver | apply list.Forall_cons].
Qed.

Record sound (p : Process) : Prop := {
  so_order : orderly (p_todo p);
  so_loops : ∀ l, l ∈ p_loops p → Abort l ∈ p_todo p;
  so_await : ∀ s, is_Some (p_result p s) ∨ Await s ∈ p_todo p;
  so_result : ∀ s r, p_result p s = Some r → p_phase p s = Ended r;
  so_drained : ∀ s, p_phase p s = Ended (Ok tt) → Forall (λ r, r.1 ≠ s) (p_open p);
  so_backed : ∀ n, (Grpc, n) ∈ p_open p → FromRequest n ∈ (p_pool p).*1;
  so_exit : match p_exit p with
            | None => Return ∈ p_todo p
            | Some r => p_todo p = [] ∧ ∃ g h, p_result p Grpc = Some g ∧ p_result p Http = Some h
                                          ∧ r = shutdown g h (Ok tt)
            end;
  so_unsubscribed : ∀ s, p_receiver p s = None ↔ Subscribe s ∈ p_todo p;
  so_told : (Select ∉ p_todo p) → ∀ s, p_receiver p s = Some true;
}.

Lemma launch_sound dm w : sound (launch dm w).
Proof.
  split; simpl.
  - apply main_orderly.
  - by intros l ?%not_elem_of_nil.
  - intros s. right. unfold main_actions, serve_actions. destruct s; set_solver.
  - done.
  - done.
  - by intros n ?%not_elem_of_nil.
  - unfold main_actions, serve_actions. set_solver.
  - intros s. split; [|done]. intros _. unfold main_actions. destruct s; set_solver.
  - intros Hn. exfalso. apply Hn. unfold main_actions, serve_actions. set_solver.
Qed.

Lemma send_receiver p s : p_receiver (send p) s = (λ _, true) <$> p_receiver p s.
Proof. done. Qed.
Lemma past_select_serving p a rest :
  p_todo p = a :: rest → a = Select ∨ (∃ s, a = Await s) → past_select rest → serving p = true.
Proof.
  unfold serving. intros -> Ha Hr. simpl. apply andb_true_iff. split.
  - by destruct Ha as [->|[s ->]].
  - apply forallb_forall. unfold past_select in Hr. rewrite list.Forall_forall in Hr.
    intros b Hb%list_elem_of_In. specialize (Hr _ Hb). by destruct b.
Qed.
Lemma past_select_not_in acts : past_select acts → Select ∉ acts.
Proof. unfold past_select. rewrite list.Forall_forall. intros Hr Hin. by apply (Hr _ Hin). Qed.

(** The parts of a process that only the main task touches. *)
Definition main_part (p : Process) :=
  (p_todo p, p_exit p, p_loops p, p_result p, p_receiver p).

(** A step of another task: the main task's part is as it was, and no server goes back. *)
Lemma sound_frame p p' :
  main_part p' = main_part p →
  (∀ s r, p_phase p s = Ended r → p_phase p' s = Ended r) →
  (∀ s, p_phase p' s = Ended (Ok tt) → Forall (λ r, r.1 ≠ s) (p_open p')) →
  (∀ n, (Grpc, n) ∈ p_open p' → FromRequest n ∈ (p_pool p').*1) →
  sound p → sound p'.
Proof.
  intros [= E1 E2 E3 E4 E5] Hph Hd Hb [Ho Hl Ha Hr _ _ He Hs Ht].
  split; rewrite ?E1, ?E2, ?E3, ?E4, ?E5; try done. intros s r Hres. by apply Hph, Hr.
Qed.

(** A server that has not returned moves on. *)
Lemma sound_phase p s ph :
  (∀ r, p_phase p s ≠ Ended r) →
  (ph = Ended (Ok tt) → Forall (λ r : Server * nat, r.1 ≠ s) (p_open p)) →
  sound p → sound (p <| p_phase ::= <[s := ph]> |>).
Proof.
  intros Hrun Hd Hp. apply (sound_frame p); simpl; try done; [| |apply Hp].
  - intros s' r. destruct (decide (s = s')) as [<-|]; [by intros ?%Hrun|].
    by rewrite fn_lookup_insert_ne.
  - intros s'. destruct (decide (s = s')) as [<-|]; [by rewrite fn_lookup_insert|].
    rewrite fn_lookup_insert_ne by done. apply Hp.
Qed.

(** An action of the main task other than its return. *)
Lemma in_rest (a b : Action) rest : b ≠ a → b ∈ a :: rest ↔ b ∈ rest.
Proof. intros Hne. rewrite elem_of_cons. naive_solver. Qed.
Definition shared_part (p : Process) := (p_exit p, p_phase p, p_open p, p_pool p).

Section Act.
Context (p p' : Process) (a : Action) (rest : list Action).
Context (Htd : p_todo p = a :: rest) (Htd' : p_todo p' = rest) (Hp : sound p).

Lemma act_running : p_exit p = None.
Proof. pose proof (so_exit _ Hp) as He. rewrite Htd in He. by destruct (p_exit p), He. Qed.
Lemma act_loops l : l ∈ p_loops p → a ≠ Abort l → Abort l ∈ rest.
Proof. intros Hl%(so_loops _ Hp) Hne. rewrite Htd in Hl. by apply in_rest in Hl. Qed.
Lemma act_receiver s : a ≠ Subscribe s → p_receiver p s = None ↔ Subscribe s ∈ rest.
Proof. intros Hne. rewrite (so_unsubscribed _ Hp s), Htd. by apply in_rest. Qed.
Lemma act_told : a ≠ Select → Select ∉ rest → ∀ s, p_receiver p s = Some true.
Proof. intros Hne Hn. apply (so_told _ Hp). rewrite Htd, in_rest; done. Qed.

Lemma sound_act :
  a ≠ Return → shared_part p' = shared_part p →
  (∀ l, l ∈ p_loops p' → Abort l ∈ rest) →
  (∀ s r, p_result p' s = Some r → p_phase p s = Ended r) →
  (∀ s, is_Some (p_result p s) ∨ a = Await s → is_Some (p_result p' s)) →
  (∀ s, p_receiver p' s = None ↔ Subscribe s ∈ rest) →
  (Select ∉ rest → ∀ s, p_receiver p' s = Some true) → sound p'.
Proof.
  intros Hret [= E1 E2 E3 E4] Hl Hr Ha Hs Ht. pose proof Hp as [Ho _ Ha0 _ Hd Hb He _ _].
  rewrite Htd in *. split; rewrite ?Htd', ?E1, ?E2, ?E3, ?E4; try done.
  - by destruct Ho.
  - intros s. destruct (Ha0 s) as [?|[<-|?]%elem_of_cons]; auto.
  - rewrite act_running in *. apply in_rest in He; done.
Qed.
End Act.

(** What an action leaves as it was. *)
Ltac act_rest :=
  lazymatch goal with
  | |- ∀ l, l ∈ p_loops _ → Abort l ∈ _ => intros ? ?; by eapply act_loops
  | |- ∀ s r, p_result _ s = Some r → _ => by apply so_result
  | |- ∀ s, is_Some _ ∨ _ → _ => by intros ? [?|?]
  | |- ∀ s, p_receiver _ s = None ↔ _ => intros ?; by eapply act_receiver
  | |- Select ∉ _ → _ => by eapply act_told
  end.
Lemma act_await p p' rest s :
  sound p →
  match p_result p s with
  | Some _ => Some (p <| p_todo := rest |>)
  | None => r ← ended (p <| p_todo := rest |>) s;
            Some (p <| p_todo := rest |> <| p_result ::= <[s := Some r]> |>)
  end = Some p' →
  ∃ r, p_phase p s = Ended r ∧ p_result p' s = Some r
       ∧ (∀ s', s' ≠ s → p_result p' s' = p_result p s')
       ∧ p' = p <| p_todo := rest |> <| p_result := p_result p' |>.
Proof.
  intros Hp Hact. destruct (p_result p s) as [r|] eqn:Hres.
  - injection Hact as <-. exists r. split_and!; try done. by apply so_result.
  - apply bind_Some in Hact as (r & Hend & [= <-]). unfold ended in Hend. simpl in Hend.
    destruct (p_phase p s) as [| |r'] eqn:Hph; [done|done|]. injection Hend as ->.
    exists r. split_and!; try done; simpl.
    + apply fn_lookup_insert.
    + intros s' Hs'. by rewrite fn_lookup_insert_ne.
Qed.
Lemma act_sound first p p' : act first p = Some p' → sound p → sound p'.
Proof.
  unfold act. destruct (p_todo p) as [|a rest] eqn:Htd; [done|]. cbv zeta. intros Hact Hp.
  pose proof (so_order _ Hp) as Ho. rewrite Htd in Ho. destruct Ho as [Ho _].
  destruct a as [l| |s| |s|l| |]; simplify_eq/=.
  - apply (sound_act p _ _ rest Htd); try done; simpl; try act_rest.
    intros l' [->|Hl]%elem_of_cons; [done|]. by eapply act_loops.
  - apply (sound_act p _ _ rest Htd); try done; simpl; act_rest.
  - destruct Ho as [Ho _]. apply (sound_act p _ _ rest Htd); try done; simpl; try act_rest.
    + intros s'. destruct (decide (s = s')) as [<-|].
      * by rewrite fn_lookup_insert.
      * rewrite fn_lookup_insert_ne by done. eapply act_receiver; [done..|]. by intros [= ->].
    + intros Hn. pose proof (act_told p _ rest Htd Hp ltac:(done) Hn s) as Hs.
      pose proof (proj2 (so_unsubscribed _ Hp s)) as Hs'. rewrite Htd, Hs in Hs'.
      by specialize (Hs' (list_elem_of_here _ _)).
  - apply bind_Some in Hact as (r & Hend & [= <-]). unfold ended in Hend. simpl in Hend.
    destruct (p_phase p first) as [| |r'] eqn:Hph; [done|done|]. injection Hend as ->.
    apply (sound_act p _ _ rest Htd); try done; simpl; try act_rest.
    + intros s r'. destruct (decide (first = s)) as [<-|].
      * rewrite fn_lookup_insert. by intros [= <-].
      * rewrite fn_lookup_insert_ne by done. by apply so_result.
    + intros s [Hs|?]; [|done]. destruct (decide (first = s)) as [<-|].
      * rewrite fn_lookup_insert. by eexists.
      * by rewrite fn_lookup_insert_ne.
    + intros s. rewrite fmap_None. by eapply act_receiver.
    + intros _ s. destruct (p_receiver p s) eqn:Hs; [done|].
      eapply (act_receiver p _ rest Htd Hp) in Hs; [|done]. exfalso.
      unfold past_select in Ho. rewrite list.Forall_forall in Ho. by apply (Ho _ Hs).
  - destruct (act_await p p' rest s Hp Hact) as (r & Hph & Hrs & Hne & ->).
    apply (sound_act p _ _ rest Htd); try done; simpl in *; try act_rest.
    + intros s' r' Hr'. destruct (decide (s' = s)) as [->|]; [congruence|].
      rewrite Hne in Hr' by done. by apply so_result.
    + intros s' [Hs'|[= <-]]; [|by eexists]. destruct (decide (s' = s)) as [->|]; [by eexists|].
      by rewrite Hne.
  - apply (sound_act p _ _ rest Htd); try done; simpl; try act_rest.
    intros l' [Hl' Hin]%list_elem_of_filter. eapply act_loops; [done..|]. by intros [= ->].
  - apply (sound_act p _ _ rest Htd); try done; simpl; act_rest.
  - apply bind_Some in Hact as (g & Hg & Hact). apply bind_Some in Hact as (h & Hh & [= <-]).
    destruct Hp as [_ Hl Ha Hr Hd Hb He Hs Ht]. rewrite Htd in *. simpl in Hg, Hh.
    split; simpl; try done.
    + intros l Hin%Hl. by apply elem_of_cons in Hin as [?|?%not_elem_of_nil].
    + intros s. left. destruct s; by eexists.
    + split; [done|]. eauto.
    + intros s. rewrite Hs. by rewrite in_rest.
    + intros _. apply Ht. rewrite in_rest; [by apply not_elem_of_nil|done].
Qed.

Lemma open_filter (P Q : Server * nat → Prop) `{!∀ r, Decision (Q r)} l :
  Forall P l → Forall P (base.filter Q l).
Proof.
  rewrite !list.Forall_forall. intros Hl r [_ Hr]%list_elem_of_filter. by apply Hl.
Qed.
Lemma delete_origin (pool : list (Origin * Call)) i o o' c :
  pool !! i = Some (o, c) → o' ∈ pool.*1 → o' ≠ o → o' ∈ (delete i pool).*1.
Proof.
  intros Hi [[o1 c1] [-> [k Hk]%list_elem_of_lookup]]%list_elem_of_fmap Hne. simpl in *.
  apply list_elem_of_fmap. exists (o1, c1). split; [done|]. apply list_elem_of_lookup.
  destruct (decide (k < i)%nat).
  - exists k. by rewrite list_lookup_delete_lt.
  - assert (k ≠ i) by congruence. exists (k - 1)%nat.
    rewrite list_lookup_delete_ge by lia. by replace (S (k - 1)) with k by lia.
Qed.

Lemma step_sound e p p' : step e p = Some p' → sound p → sound p'.
Proof.
  intros Hs Hp. destruct e as [first| |s|n c|n|n|s n|l|i|s|s e]; simpl in Hs.
  - by eapply act_sound.
  - destruct (p_signal p); [done| |done]. injection Hs as <-.
    destruct Hp as [Ho Hl Ha Hr Hd Hb He Hu Ht]. split; simpl; try done.
    + intros s. rewrite <-Hu. by rewrite fmap_None.
    + intros Hn s. by rewrite Ht.
  - destruct (p_receiver p s) as [[]|]; [|done..]. destruct (p_phase p s) eqn:Hph; [|done..].
    destruct (serving p); [|done]. injection Hs as <-. apply sound_phase; [by rewrite Hph|done..].
  - destruct (_ && is_rpc c) eqn:Hc; [|done]. injection Hs as <-.
    rewrite !andb_true_iff in Hc. destruct Hc as ((((_ & _) & Hacc) & _) & _).
    apply (sound_frame p); simpl; try done.
    + intros s Hph. apply list.Forall_cons. split; [|by apply Hp]. simpl. intros <-.
      by rewrite Hph in Hacc.
    + intros m [[= ->]|Hm]%elem_of_cons; [by left|]. right. by apply Hp.
  - destruct (_ && fresh_request n p) eqn:Hc; [|done]. injection Hs as <-.
    rewrite !andb_true_iff in Hc. destruct Hc as ((_ & Hacc) & _).
    apply (sound_frame p); simpl; try done.
    + intros s Hph. apply list.Forall_cons. split; [|by apply Hp]. simpl. intros <-.
      by rewrite Hph in Hacc.
    + intros m [[=]|Hm]%elem_of_cons. by apply Hp.
  - case_bool_decide; [|done]. injection Hs as <-. apply (sound_frame p); simpl; try done.
    + intros s Hph. by apply open_filter, Hp.
    + intros m [_ Hm]%list_elem_of_filter. by apply Hp.
  - case_bool_decide; [|done]. injection Hs as <-. apply (sound_frame p); simpl; try done.
    + intros s' Hph. by apply open_filter, Hp.
    + intros m [_ Hm]%list_elem_of_filter. by apply Hp.
  - apply bind_Some in Hs as (c & _ & Hs). destruct (_ && _); [|done]. injection Hs as <-.
    apply (sound_frame p); simpl; try done; [apply Hp|]. intros m Hm. right. by apply Hp.
  - apply bind_Some in Hs as ([o c] & Hi & [= <-]).
    destruct o as [n|l]; apply (sound_frame p); simpl; try done.
    + intros s Hph. by apply open_filter, Hp.
    + intros m [Hne Hm]%list_elem_of_filter. eapply delete_origin; [done|by apply Hp|congruence].
    + apply Hp.
    + intros m Hm. eapply delete_origin; [done|by apply Hp|done].
  - destruct (p_phase p s) eqn:Hph; [done| |done]. case_bool_decide as Ho; [|done].
    injection Hs as <-. apply sound_phase; [by rewrite Hph|done..].
  - assert (serving p = true ∧ (∀ r, p_phase p s ≠ Ended r)
            ∧ p' = p <| p_phase ::= <[s := Ended (Err e)]> |>) as (_ & Hph & ->).
    { destruct (p_phase p s); [| |done]; destruct (serving p); naive_solver. }
    by apply sound_phase.
Qed.
Lemma run_sound es p p' : run es p = Some p' → sound p → sound p'.
Proof.
  revert p. induction es as [|e es IH]; intros p; simpl; [by intros [= ->]|].
  intros (p1 & Hs & Hr)%bind_Some Hp. eapply IH; [done|]. by eapply step_sound.
Qed.

(** ** The writer sees a run of the broker *)
Definition typed_event (e : Event) : Prop :=
  match e with ERpc _ c => typed_call c | _ => True end.
Definition writes (w : World) (p : Process) : Prop :=
  rtc (sys_step sv) w (p_world p) ∧ Forall (λ x : Origin * Call, typed_call x.2) (p_pool p).

Lemma act_writer first p p' :
  act first p = Some p' → p_world p' = p_world p ∧ p_pool p' = p_pool p.
Proof.
  unfold act. destruct (p_todo p) as [|a rest]; [done|]. intros Hact.
  destruct a as [l| |s| |s|l| |]; simplify_eq/=; try done;
    [apply bind_Some in Hact as (r & _ & [= <-])
    |destruct (p_result p s); [|apply bind_Some in Hact as (r & _ & [= <-])]
    |apply bind_Some in Hact as (g & _ & (h & _ & [= <-])%bind_Some)]; naive_solver.
Qed.
Lemma step_writes w e p p' : step e p = Some p' → typed_event e → writes w p → writes w p'.
Proof.
  intros Hs Ht [Hw Hpool]. destruct e as [first| |s|n c|n|n|s n|l|i|s|s e]; simpl in Hs.
  - apply act_writer in Hs as [E1 E2]. split; [by rewrite E1|by rewrite E2].
  - destruct (p_signal p); [try done; by injection Hs as <-..].
  - destruct (p_receiver p s) as [[]|]; [|done..]. destruct (p_phase p s); [|done..].
    destruct (serving p); [try done; by injection Hs as <-..].
  - destruct (_ && is_rpc c); [|done]. injection Hs as <-. split; [done|]. by constructor.
  - destruct (_ && fresh_request n p); [try done; by injection Hs as <-..].
  - case_bool_decide; [try done; by injection Hs as <-..].
  - case_bool_decide; [try done; by injection Hs as <-..].
  - apply bind_Some in Hs as (c & Hl & Hs). destruct (_ && _); [|done]. injection Hs as <-.
    split; [done|]. constructor; [|done]. by destruct l; simplify_eq/=.
  - apply bind_Some in Hs as ([o c] & Hi & [= <-]).
    assert (typed_call c) as Hc by (by eapply (Forall_lookup_1 _ _ _ _ Hpool Hi)).
    assert (writes w (p <| p_world ::= perform sv c |> <| p_pool ::= delete i |>)) as Hok.
    { split; simpl; [by apply run_call|]. by apply Forall_delete. }
    by destruct o.
  - destruct (p_phase p s); [done| |done]. case_bool_decide; [try done; by injection Hs as <-..].
  - destruct (p_phase p s); [| |done]; destruct (serving p); [try done; by injection Hs as <-..].
Qed.
Lemma run_writes w es p p' :
  run es p = Some p' → Forall typed_event es → writes w p → writes w p'.
Proof.
  revert p. induction es as [|e es IH]; intros p; simpl; [by intros [= ->]|].
  intros (p1 & Hs & Hr)%bind_Some [He Hes]%list.Forall_cons Hp.
  eapply IH; [done|done|]. by eapply step_writes.
Qed.

(** C36: the daemon's processes.  However the tasks of the daemon are interleaved, what its
    writer does to the database is a run of the broker from where it was opened: every
    theorem on reachable worlds holds of the database under the daemon.  When [main] has
    returned, both servers have ended and every loop is aborted; the result is the error of
    the queue server, else that of the HTTP server; and a process that exits without error
    has answered every request it accepted, except those whose clients went away. *)
Theorem daemon_runs_broker dm w es p :
  run es (launch dm w) = Some p → Forall typed_event es → reachable sv w →
  reachable sv (p_world p)
  ∧ ∀ r, p_exit p = Some r →
      (∃ g h, p_phase p Grpc = Ended g ∧ p_phase p Http = Ended h
         ∧ r = match g with Err e => Err e | Ok _ => h end)
      ∧ p_loops p = []
      ∧ (r = Ok tt → p_open p = []).
Proof.
  intros Hr Ht Hw. split.
  - destruct (run_writes w _ _ _ Hr Ht) as [Hrun _]; [by split|].
    unfold reachable in *. by etrans.
  - intros r Hex. pose proof (run_sound _ _ _ Hr (launch_sound dm w)) as Hs.
    pose proof (so_exit _ Hs) as He. rewrite Hex in He. destruct He as (Htd & g & h & Hg & Hh & ->).
    apply (so_result _ Hs) in Hg, Hh. split_and!.
    + by exists g, h.
    + destruct (p_loops p) as [|l ls] eqn:Hl; [done|]. exfalso.
      assert (Abort l ∈ p_todo p) as Hin by (apply (so_loops _ Hs); rewrite Hl; by left).
      rewrite Htd in Hin. by apply not_elem_of_nil in Hin.
    + destruct g as [[]|], h as [[]|]; try done. intros _.
      pose proof (so_drained _ Hs Grpc Hg) as Dg. pose proof (so_drained _ Hs Http Hh) as Dh.
      destruct (p_open p) as [|[[] n] l]; [done| |].
      * by apply list.Forall_cons in Dg as [? _].
      * by apply list.Forall_cons in Dh as [? _].
Qed.

(** ** Stopping *)

(** Steps that need no client and no failure. *)
Definition internal (e : Event) : bool :=
  match e with EMain _ | ENotify _ | EAnswer _ | ERun _ | EDrained _ => true | _ => false end.
(** [leads p P]: internal steps lead from [p] to a process with [P]. *)
Definition leads (p : Process) (P : Process → Prop) : Prop :=
  ∃ es p', Forall (λ e, internal e = true) es ∧ run es p = Some p' ∧ P p'.

Lemma leads_now p (P : Process → Prop) : P p → leads p P.
Proof. intros HPp. by exists [], p. Qed.
Lemma leads_step e p p' P : step e p = Some p' → internal e = true → leads p' P → leads p P.
Proof.
  intros Hs He (es & p2 & Hes & Hr & HPp). exists (e :: es), p2. split_and!; [by constructor| |done].
  simpl. by rewrite Hs.
Qed.
Lemma leads_trans p (P Q : Process → Prop) : leads p P → (∀ p', P p' → leads p' Q) → leads p Q.
Proof.
  intros (es & p1 & Hes & Hr & HPp) HQ. destruct (HQ _ HPp) as (es' & p2 & Hes' & Hr' & HQ').
  exists (es ++ es')%list, p2. split_and!; [by apply Forall_app| |done].
  clear -Hr Hr'. revert p Hr. induction es as [|e es IH]; intros p; simpl; [by intros [= ->]|].
  intros (p3 & Hs & Hr)%bind_Some. rewrite Hs. by apply IH.
Qed.

(** What draining a server leaves as it was. *)
Definition drains (s : Server) (p p' : Process) : Prop :=
  sound p' ∧ main_part p' = main_part p ∧ (∀ s', s' ≠ s → p_phase p' s' = p_phase p s')
  ∧ ∃ r, p_phase p' s = Ended r.

(** The requests of a server can be answered. *)
Lemma answer_one s p :
  sound p → ¬ Forall (λ r : Server * nat, r.1 ≠ s) (p_open p) →
  ∃ e p', internal e = true ∧ step e p = Some p' ∧ main_part p' = main_part p
    ∧ p_phase p' = p_phase p ∧ (length (p_open p') < length (p_open p))%nat.
Proof.
  intros Hp Hn. apply not_Forall_Exists in Hn; [|intros r; apply _].
  apply list.Exists_exists in Hn as ([s' n] & Hin & Hs). simpl in Hs. apply dec_stable in Hs as ->.
  destruct s.
  - apply (so_backed _ Hp) in Hin as Hb.
    apply list_elem_of_fmap in Hb as ([o c] & Ho & [i Hi]%list_elem_of_lookup). simpl in Ho. subst o.
    exists (ERun i). eexists. split; [done|]. simpl. rewrite Hi. simpl. split_and!; try done. simpl.
    eapply length_filter_lt; [exact Hin|]. by intros [].
  - exists (EAnswer n). eexists. split; [done|]. simpl. rewrite bool_decide_true by done.
    split_and!; try done. simpl. eapply length_filter_lt; [exact Hin|]. by intros [].
Qed.
Lemma can_drain s p : sound p → p_phase p s = Draining → leads p (drains s p).
Proof.
  remember (length (p_open p)) as n eqn:Hlen. revert p Hlen.
  induction (lt_wf n) as [n _ IH]. intros p -> Hp Hph.
  destruct (decide (Forall (λ r : Server * nat, r.1 ≠ s) (p_open p))) as [Ho|Ho].
  - assert (step (EDrained s) p = Some (p <| p_phase ::= <[s := Ended (Ok tt)]> |>)) as Hs.
    { simpl. by rewrite Hph, bool_decide_true. }
    eapply leads_step; [exact Hs|done|]. apply leads_now. split_and!; simpl.
    + by eapply step_sound.
    + done.
    + intros s' Hne. by rewrite fn_lookup_insert_ne.
    + eexists. apply fn_lookup_insert.
  - destruct (answer_one s p Hp Ho) as (e & p1 & He & Hs & Em & Eph & Hlt).
    eapply leads_step; [exact Hs|done|]. eapply leads_trans.
    + eapply (IH _ Hlt p1); [done|by eapply step_sound|by rewrite Eph].
    + intros p2 (Hp2 & Em2 & Eph2 & Hr2). apply leads_now. split_and!; try done.
      * by rewrite Em2.
      * intros s' Hne. by rewrite Eph2, Eph.
Qed.
(** A server that was told to stop, or that has ended, ends. *)
Lemma can_end s p :
  sound p → serving p = true → p_receiver p s = Some true ∨ p_phase p s ≠ Open →
  leads p (drains s p).
Proof.
  intros Hp Hsv Ht. destruct (p_phase p s) as [| |r] eqn:Hph.
  - destruct Ht as [Ht|]; [|done].
    assert (step (ENotify s) p = Some (p <| p_phase ::= <[s := Draining]> |>)) as Hs.
    { simpl. by rewrite Ht, Hph, Hsv. }
    eapply leads_step; [exact Hs|done|]. eapply leads_trans.
    + apply (can_drain s); [by eapply step_sound|]. apply fn_lookup_insert.
    + intros p2 (Hp2 & Em2 & Eph2 & Hr2). apply leads_now. split_and!; try done.
      intros s' Hne. rewrite Eph2 by done. simpl. by rewrite fn_lookup_insert_ne.
  - by apply can_drain.
  - apply leads_now. split_and!; try done. eauto.
Qed.

(** Someone is told to stop, or has stopped. *)
Definition told (p : Process) : Prop := ∃ s, p_receiver p s = Some true ∨ p_phase p s ≠ Open.
Definition waits (a : Action) : bool := match a with Select | Await _ => true | _ => false end.

(** Only [select!] and the two waits after it block the main task. *)
Lemma act_ready p a rest :
  sound p → p_todo p = a :: rest → waits a = false → told p →
  ∃ p', step (EMain Grpc) p = Some p' ∧ p_todo p' = rest ∧ told p'.
Proof.
  intros Hp Htd Ha [s Hs]. simpl. unfold act. rewrite Htd. cbv zeta.
  destruct a as [l| |s'| |s'|l| |]; try done; try (eexists; split_and!; [done|done|by exists s]).
  - eexists. split_and!; [done|done|]. exists s. simpl. destruct Hs as [Hs|]; [|by right]. left.
    assert (p_receiver p s' = None) as Hn by (apply (so_unsubscribed _ Hp); rewrite Htd; by left).
    rewrite fn_lookup_insert_ne; [done|congruence].
  - pose proof (so_order _ Hp) as Ho. rewrite Htd in Ho. destruct Ho as [-> _].
    assert (∀ s, is_Some (p_result p s)) as Hres.
    { intros s1. destruct (so_await _ Hp s1) as [?|Hin]; [done|]. rewrite Htd in Hin.
      by apply elem_of_cons in Hin as [?|?%not_elem_of_nil]. }
    destruct (Hres Grpc) as [g Hg], (Hres Http) as [h Hh]. simpl. rewrite Hg, Hh. simpl.
    eexists. split_and!; [done|done|by exists s].
Qed.

(** The server that the main task waits for can end, and the wait is over. *)
Lemma wait_ready p a rest :
  sound p → p_todo p = a :: rest → waits a = true → told p →
  leads p (λ p', sound p' ∧ p_todo p' = rest ∧ told p').
Proof.
  intros Hp Htd Ha Ht. pose proof (so_order _ Hp) as Ho. rewrite Htd in Ho. destruct Ho as [Ho _].
  assert (∃ s, (p_receiver p s = Some true ∨ p_phase p s ≠ Open)
            ∧ (a = Select ∨ a = Await s)) as (s & Hs & Has).
  { destruct a as [| | | |s| | |]; try done; [destruct Ht as [s Ht]; eauto|].
    exists s. split; [|by right]. left. apply (so_told _ Hp). rewrite Htd.
    apply not_elem_of_cons. split; [done|by apply past_select_not_in]. }
  assert (past_select rest) as Hps by (by destruct Has as [->| ->]).
  assert (serving p = true) as Hsv.
  { eapply past_select_serving; [done| |done]. destruct Has; eauto. }
  eapply leads_trans; [by apply (can_end s)|].
  intros p1 (Hp1 & [= E1 E2 E3 E4 E5] & _ & r & Hr). rewrite Htd in E1.
  assert (∃ p2, step (EMain s) p1 = Some p2 ∧ p_todo p2 = rest ∧ p_phase p2 = p_phase p1)
    as (p2 & Hs2 & Htd2 & Eph).
  { simpl. unfold act. rewrite E1. cbv zeta. unfold ended.
    destruct Has as [->| ->]; simpl; [|destruct (p_result p1 s); [by eexists|]]; rewrite Hr; simpl;
      by eexists. }
  eapply leads_step; [exact Hs2|done|]. apply leads_now. split_and!; [by eapply step_sound|done|].
  exists s. right. by rewrite Eph, Hr.
Qed.

Lemma can_exit p : sound p → told p → leads p (λ p', is_Some (p_exit p')).
Proof.
  remember (p_todo p) as acts eqn:Htd. revert p Htd.
  induction acts as [|a rest IH]; intros p Htd Hp Ht.
  - apply leads_now. pose proof (so_exit _ Hp) as He. rewrite <-Htd in He.
    destruct (p_exit p); [by eexists|]. by apply not_elem_of_nil in He.
  - destruct (waits a) eqn:Ha.
    + eapply leads_trans; [by eapply wait_ready|]. intros p' (? & ? & ?). by eapply IH.
    + destruct (act_ready p a rest) as (p' & Hs & Htd' & Ht'); [done..|].
      eapply leads_step; [exact Hs|done|]. eapply IH; [done|by eapply step_sound|done].
Qed.

Lemma act_told_stable first p p' : act first p = Some p' → sound p → told p → told p'.
Proof.
  unfold act. destruct (p_todo p) as [|a rest] eqn:Htd; [done|]. cbv zeta. intros Hact Hp [s Hs].
  exists s. destruct a as [l| |s'| |s'|l| |]; simplify_eq/=; try done.
  - destruct Hs as [Hs|]; [left|by right].
    assert (p_receiver p s' = None) as Hn by (apply (so_unsubscribed _ Hp); rewrite Htd; by left).
    rewrite fn_lookup_insert_ne; [done|congruence].
  - apply bind_Some in Hact as (r & _ & [= <-]). destruct Hs as [Hs|]; [left|by right].
    simpl. by rewrite Hs.
  - destruct (p_result p s'); [by injection Hact as <-|].
    by apply bind_Some in Hact as (r & _ & [= <-]).
  - by apply bind_Some in Hact as (g & _ & (h & _ & [= <-])%bind_Some).
Qed.
Lemma insert_not_open (f : Server → Phase) s ph s' : ph ≠ Open → f s' ≠ Open → <[s := ph]> f s' ≠ Open.
Proof.
  intros Hph Hs. destruct (decide (s = s')) as [<-|];
    [by rewrite fn_lookup_insert|by rewrite fn_lookup_insert_ne].
Qed.
Lemma step_told e p p' : step e p = Some p' → sound p → told p → told p'.
Proof.
  intros Hs Hp Ht. destruct e as [first| |s|n c|n|n|s n|l|i|s|s e]; simpl in Hs.
  - by eapply act_told_stable.
  - destruct (p_signal p); [done| |done]. injection Hs as <-. destruct Ht as [s [Hs|Hs]]; exists s.
    + left. simpl. by rewrite Hs.
    + by right.
  - destruct (p_receiver p s) as [[]|] eqn:Hr; [|done..]. destruct (p_phase p s); [|done..].
    destruct (serving p); [|done]. injection Hs as <-. exists s. by left.
  - destruct (_ && is_rpc c); [|done]. by injection Hs as <-.
  - destruct (_ && fresh_request n p); [|done]. by injection Hs as <-.
  - case_bool_decide; [|done]. by injection Hs as <-.
  - case_bool_decide; [|done]. by injection Hs as <-.
  - apply bind_Some in Hs as (c & _ & Hs). destruct (_ && _); [|done]. by injection Hs as <-.
  - apply bind_Some in Hs as ([o c] & _ & [= <-]). by destruct o.
  - destruct (p_phase p s) eqn:Hph; [done| |done]. case_bool_decide; [|done]. injection Hs as <-.
    exists s. right. simpl. by rewrite fn_lookup_insert.
  - assert (p' = p <| p_phase ::= <[s := Ended (Err e)]> |>) as ->.
    { destruct (p_phase p s); [| |done]; destruct (serving p); naive_solver. }
    exists s. right. simpl. by rewrite fn_lookup_insert.
Qed.
Lemma run_told es p p' : run es p = Some p' → sound p → told p → told p'.
Proof.
  revert p. induction es as [|e es IH]; intros p; simpl; [by intros [= ->]|].
  intros (p1 & Hs & Hr)%bind_Some Hp Ht. eapply IH; [done|by eapply step_sound|by eapply step_told].
Qed.

(** *** A lost signal *)
Lemma step_frame e p p' :
  step e p = Some p' →
  (∃ first, e = EMain first) ∨ e = ESignal
  ∨ (p_signal p', p_receiver p', p_todo p') = (p_signal p, p_receiver p, p_todo p).
Proof.
  intros Hs. destruct e as [first| |s|n c|n|n|s n|l|i|s|s e]; simpl in Hs; eauto; right; right.
  - destruct (p_receiver p s) as [[]|]; [|done..]. destruct (p_phase p s); [|done..].
    destruct (serving p); [|done]. by injection Hs as <-.
  - destruct (_ && is_rpc c); [|done]. by injection Hs as <-.
  - destruct (_ && fresh_request n p); [|done]. by injection Hs as <-.
  - case_bool_decide; [|done]. by injection Hs as <-.
  - case_bool_decide; [|done]. by injection Hs as <-.
  - apply bind_Some in Hs as (c & _ & Hs). destruct (_ && _); [|done]. by injection Hs as <-.
  - apply bind_Some in Hs as ([o c] & _ & [= <-]). by destruct o.
  - destruct (p_phase p s); [done| |done]. case_bool_decide; [|done]. by injection Hs as <-.
  - destruct (p_phase p s); [| |done]; (destruct (serving p); [|done]); by injection Hs as <-.
Qed.

(** What an action does to the signal and the receivers. *)
Lemma act_frame first p p' :
  act first p = Some p' →
  ∃ a rest, p_todo p = a :: rest ∧ p_todo p' = rest ∧ p_phase p' = p_phase p
    ∧ p_signal p' = (if decide (a = SpawnSignal) then Waited else p_signal p)
    ∧ (a = Select → p_phase p first ≠ Open)
    ∧ (a ≠ Select → ∀ s, p_receiver p' s = Some true → p_receiver p s = Some true).
Proof.
  unfold act. destruct (p_todo p) as [|a rest] eqn:Htd; [done|]. cbv zeta. intros Hact.
  exists a, rest. split; [done|].
  destruct a as [l| |s| |s|l| |]; simplify_eq/=; try done.
  - split_and!; try done. intros _ s'. destruct (decide (s = s')) as [<-|].
    + by rewrite fn_lookup_insert.
    + by rewrite fn_lookup_insert_ne.
  - apply bind_Some in Hact as (r & Hend & [= <-]). split_and!; try done. intros _ Hph.
    unfold ended in Hend. simpl in Hend. by rewrite Hph in Hend.
  - destruct (p_result p s); [by injection Hact as <-|].
    by apply bind_Some in Hact as (r & _ & [= <-]).
  - by apply bind_Some in Hact as (g & _ & (h & _ & [= <-])%bind_Some).
Qed.

(** The signal is waited for once. *)
Definition signal_once (p : Process) : Prop := p_signal p ≠ NotWaited → SpawnSignal ∉ p_todo p.
Lemma step_signal_once e p p' :
  step e p = Some p' → sound p → signal_once p → signal_once p'.
Proof.
  intros Hs Hp Ho. destruct (step_frame _ _ _ Hs) as [[first ->]|[->|E]].
  - apply act_frame in Hs as (a & rest & Htd & Htd' & _ & Hsig & _). intros Hn. rewrite Htd'.
    pose proof (so_order _ Hp) as Hor. rewrite Htd in Hor. destruct Hor as [Hor _].
    destruct (decide (a = SpawnSignal)) as [->|Ha]; [done|]. rewrite Hsig in Hn.
    specialize (Ho Hn). rewrite Htd in Ho. by apply not_elem_of_cons in Ho as [_ ?].
  - simpl in Hs. destruct (p_signal p) eqn:Hsig; [done| |done]. injection Hs as <-.
    intros _. simpl. apply Ho. by rewrite Hsig.
  - injection E as E1 _ E2. unfold signal_once. by rewrite E1, E2.
Qed.
Lemma run_signal_once es p p' :
  run es p = Some p' → sound p → signal_once p → signal_once p'.
Proof.
  revert p. induction es as [|e es IH]; intros p; simpl; [by intros [= ->]|].
  intros (p1 & Hs & Hr)%bind_Some Hp Ht.
  eapply IH; [done|by eapply step_sound|by eapply step_signal_once].
Qed.

(** Before the servers are subscribed, neither of them runs. *)
Definition idle (p : Process) : Prop := serving p = false → ∀ s, p_phase p s = Open.
Lemma serving_tail p p' a rest :
  p_todo p = a :: rest → p_todo p' = rest → serving p' = false → serving p = false.
Proof. unfold serving. intros -> -> Hs. simpl. rewrite Hs. apply andb_false_r. Qed.
Lemma step_idle e p p' : step e p = Some p' → idle p → idle p'.
Proof.
  intros Hs Hi. destruct (step_frame _ _ _ Hs) as [[first ->]|[->|E]].
  - apply act_frame in Hs as (a & rest & Htd & Htd' & Eph & _). intros Hsv.
    rewrite Eph. eapply Hi, serving_tail; done.
  - simpl in Hs. destruct (p_signal p); [done| |done]. by injection Hs as <-.
  - injection E as _ _ Htd. assert (serving p' = serving p) as Esv by (unfold serving; by rewrite Htd).
    intros Hsv. rewrite Esv in Hsv. specialize (Hi Hsv).
    destruct e as [first| |s|n c|n|n|s n|l|i|s|s e]; simpl in Hs; rewrite ?Hsv, ?Hi in Hs; try done.
    + apply act_frame in Hs as (? & ? & _ & _ & -> & _). done.
    + destruct (p_signal p); [done| |done]. by injection Hs as <-.
    + by destruct (p_receiver p s) as [[]|].
    + by rewrite andb_false_r in Hs.
    + by rewrite andb_false_r in Hs.
    + case_bool_decide; [|done]. by injection Hs as <-.
    + case_bool_decide; [|done]. by injection Hs as <-.
    + apply bind_Some in Hs as (c & _ & Hs). destruct (_ && _); [|done]. by injection Hs as <-.
    + apply bind_Some in Hs as ([o c] & _ & [= <-]). by destruct o.
Qed.
Lemma run_idle es p p' : run es p = Some p' → idle p → idle p'.
Proof.
  revert p. induction es as [|e es IH]; intros p; simpl; [by intros [= ->]|].
  intros (p1 & Hs & Hr)%bind_Some Hi. eapply IH; [done|]. by eapply step_idle.
Qed.
(** The HTTP server subscribes first, and both before [select!]. *)
Lemma orderly_http acts :
  orderly acts → Subscribe Http ∈ acts → Subscribe Grpc ∈ acts ∧ Select ∈ acts.
Proof.
  induction acts as [|a rest IH]; [by intros _ ?%not_elem_of_nil|]. simpl. intros [Ha Ho].
  intros [<-|Hin]%elem_of_cons.
  - destruct Ha as (_ & ? & Hg). split; right; auto.
  - destruct (IH Ho Hin). split; by right.
Qed.
Lemma subscribing_idle p s : Subscribe s ∈ p_todo p → serving p = false.
Proof.
  intros Hin. unfold serving. destruct (forallb _ _) eqn:Hf; [|done].
  rewrite forallb_forall in Hf. apply list_elem_of_In, Hf in Hin. done.
Qed.

(** The signal is spent and no one was told. *)
Record deaf (p : Process) : Prop := {
  de_signal : p_signal p = Received;
  de_spawned : SpawnSignal ∉ p_todo p;
  de_receiver : ∀ s, p_receiver p s ≠ Some true;
  de_phase : ∀ s, p_phase p s = Open;
  de_select : Select ∈ p_todo p;
}.
Definition server_failure (e : Event) : bool := match e with EFail _ _ => true | _ => false end.
Lemma step_phase e p p' s :
  step e p = Some p' → server_failure e = false → p_receiver p s ≠ Some true →
  p_phase p s = Open → p_phase p' s = Open.
Proof.
  intros Hs Hf Hr Hph. destruct e as [first| |s'|n c|n|n|s' n|l|i|s'|s' e]; simpl in Hs; try done.
  - apply act_frame in Hs as (? & ? & _ & _ & -> & _). done.
  - destruct (p_signal p); [done| |done]. by injection Hs as <-.
  - destruct (p_receiver p s') as [[]|] eqn:Hr'; [|done..]. destruct (p_phase p s'); [|done..].
    destruct (serving p); [|done]. injection Hs as <-. simpl.
    rewrite fn_lookup_insert_ne; [done|congruence].
  - destruct (_ && is_rpc c); [|done]. by injection Hs as <-.
  - destruct (_ && fresh_request n p); [|done]. by injection Hs as <-.
  - case_bool_decide; [|done]. by injection Hs as <-.
  - case_bool_decide; [|done]. by injection Hs as <-.
  - apply bind_Some in Hs as (c & _ & Hs). destruct (_ && _); [|done]. by injection Hs as <-.
  - apply bind_Some in Hs as ([o c] & _ & [= <-]). by destruct o.
  - destruct (p_phase p s') eqn:Hph'; [done| |done]. case_bool_decide; [|done]. injection Hs as <-.
    simpl. rewrite fn_lookup_insert_ne; [done|congruence].
Qed.
Lemma step_deaf e p p' :
  step e p = Some p' → server_failure e = false → sound p → deaf p → deaf p'.
Proof.
  intros Hs Hf Hp [Hsig Hsp Hr Hph Hsel].
  assert (∀ s, p_phase p' s = Open) as Hph' by (intros s; by eapply step_phase).
  destruct (step_frame _ _ _ Hs) as [[first ->]|[->|E]].
  - apply act_frame in Hs as (a & rest & Htd & Htd' & _ & Hsig' & Hse & Hrec).
    rewrite Htd in Hsel, Hsp. apply not_elem_of_cons in Hsp as [Hne Hsp].
    assert (a ≠ Select) as Ha by (intros ->; by apply Hse).
    rewrite decide_False in Hsig' by congruence. split; rewrite ?Htd', ?Hsig'; try done.
    + intros s Hs'. by apply (Hr s), Hrec.
    + by apply in_rest in Hsel.
  - simpl in Hs. by rewrite Hsig in Hs.
  - injection E as E1 E2 E3. split; rewrite ?E1, ?E2, ?E3; done.
Qed.
Lemma run_deaf es p p' :
  run es p = Some p' → Forall (λ e, server_failure e = false) es → sound p → deaf p → deaf p'.
Proof.
  revert p. induction es as [|e es IH]; intros p; simpl; [by intros [= ->]|].
  intros (p1 & Hs & Hr)%bind_Some [He Hes]%list.Forall_cons Hp Hd.
  eapply IH; [done|done|by eapply step_sound|by eapply step_deaf].
Qed.

(** C37: a signal stops the daemon, if it is heard.  When SIGTERM or Ctrl-C arrives after the
    HTTP server has subscribed to the shutdown channel, then from whatever the process does
    next it can still return, with its own steps only: the servers are told, answer what
    they accepted and end, and [main] aborts the loops and returns; nothing waits for a
    client or for the other server for ever.  A signal that arrives before that is lost:
    the task that waited for it is gone, and [main] never returns unless a server fails. *)
Theorem signal_stops_daemon dm w es p p' :
  run es (launch dm w) = Some p → step ESignal p = Some p' →
  if decide (p_receiver p Http = None)
  then ∀ es' p'', Forall (λ e, server_failure e = false) es' →
         run es' p' = Some p'' → p_exit p'' = None
  else ∀ es' p'', run es' p' = Some p'' → leads p'' (λ q, is_Some (p_exit q)).
Proof.
  intros Hr Hs. pose proof (run_sound _ _ _ Hr (launch_sound dm w)) as Hp.
  pose proof (step_sound _ _ _ Hs Hp) as Hp'.
  assert (signal_once p) as Hso.
  { apply (run_signal_once _ _ _ Hr); [apply launch_sound|]. by intros []. }
  assert (idle p) as Hi by (by apply (run_idle _ _ _ Hr)).
  simpl in Hs. destruct (p_signal p) eqn:Hsig; [done| |done]. injection Hs as <-. case_decide as Hh.
  - intros es' p'' Hf Hr'. apply (so_unsubscribed _ Hp) in Hh as Hin.
    destruct (orderly_http _ (so_order _ Hp) Hin) as [Hg%(so_unsubscribed _ Hp) Hsel].
    assert (deaf (send (p <| p_signal := Received |>))) as Hd.
    { split; simpl; try done.
      - apply Hso. by rewrite Hsig.
      - intros []; [by rewrite Hg|by rewrite Hh].
      - by eapply Hi, subscribing_idle. }
    eapply run_deaf in Hd; [|done..]. pose proof (run_sound _ _ _ Hr' Hp') as Hp''.
    pose proof (so_exit _ Hp'') as He. destruct (p_exit p''); [|done]. destruct He as [He _].
    apply de_select in Hd. rewrite He in Hd. by apply not_elem_of_nil in Hd.
  - intros es' p'' Hr'. apply can_exit; [by eapply run_sound|]. eapply run_told; [done..|].
    exists Http. left. simpl. by destruct (p_receiver p Http).
Qed.
End Process.
