(* ===== verification/MetricsPage.v ===== *)
(** * The metrics of a running broker

    What the counters mean along a run: every histogram is the cumulative count of some
    observations, the labels stay distinct, the counter arrays keep their sizes.  A frame
    [metered] carries such an invariant through every handler, since handlers move the
    metrics only by the operations of Telemetry.v.  Together with Samples.v this gives the
    page a scraper of a running daemon reads. *)
From Stdlib Require Import Ascii String.
From S2P Require Import Prelude Text Query F64 Scheduling Db Encoding Exposition Pressure Telemetry.
From S2P Require Import Broker Lifecycle RateLimit Ingress Enqueue Leases Claim Finish Flow FlowTree.
From S2P Require Import FlowSim FlowSpec Retention Schedulers Config Backup Render Samples System.
From S2P Require Import Reader Startup.
Local Open Scope string_scope.
Local Open Scope Z_scope.

(** ** Histograms *)

(** The state of a histogram after the observations [obs], on 64-bit counters. *)
Record observed (bounds obs buckets : list Z) (count sum : Z) : Prop := {
  ob_buckets : buckets
    = (λ b, wrap_u64 (Z.of_nat (length (base.filter (λ x, x ≤ b) obs)))) <$> bounds;
  ob_count : count = wrap_u64 (Z.of_nat (length obs));
  ob_sum : sum = wrap_u64 (foldr Z.add 0 obs);
}.

Lemma u64_add_wrap n c : u64_add n (wrap_u64 c) = wrap_u64 (c + n).
Proof. unfold u64_add, wrap_u64. by rewrite Zplus_mod_idemp_l. Qed.

Lemma observed_nil bounds : observed bounds [] (replicate (length bounds) 0) 0 0.
Proof. split; [|done..]. induction bounds as [|b bs IH]; [done|]. simpl. by f_equal. Qed.
Lemma observed_cons bounds obs buckets count sum x :
  observed bounds obs buckets count sum →
  observed bounds (x :: obs)
    (zip_with (λ bound c, if x <=? bound then u64_add 1 c else c) bounds buckets)
    (u64_add 1 count) (u64_add x sum).
Proof.
  intros [-> -> ->]. split.
  - induction bounds as [|b bs IH]; [done|]. simpl. f_equal; [|exact IH].
    rewrite list.filter_cons. destruct (Z.leb_spec x b).
    + rewrite decide_True by lia. rewrite u64_add_wrap. simpl. f_equal. lia.
    + by rewrite decide_False by lia.
  - rewrite u64_add_wrap. simpl. f_equal. lia.
  - rewrite u64_add_wrap. simpl. f_equal. lia.
Qed.

(** Without overflow the buckets of a page are cumulative, as the format requires. *)
Lemma observed_cumulative bounds obs buckets count sum i j bi bj ci cj :
  observed bounds obs buckets count sum → Z.of_nat (length obs) ≤ u64_max →
  bounds !! i = Some bi → bounds !! j = Some bj → bi ≤ bj →
  buckets !! i = Some ci → buckets !! j = Some cj → 0 ≤ ci ≤ cj ∧ cj ≤ count.
Proof.
  intros [-> -> _] Hl Hi Hj Hb. rewrite !list_lookup_fmap, Hi, Hj. intros [= <-] [= <-].
  assert (∀ P `{∀ x, Decision (P x)}, 0 ≤ Z.of_nat (length (base.filter P obs)) ≤ u64_max) as Hr.
  { intros P HP. pose proof (length_filter P obs). lia. }
  assert (Z.of_nat (length (base.filter (λ x, x ≤ bi) obs))
          ≤ Z.of_nat (length (base.filter (λ x, x ≤ bj) obs))).
  { clear Hl Hr. induction obs as [|x obs IH]; [done|]. rewrite !list.filter_cons.
    repeat case_decide; simpl; lia. }
  pose proof (length_filter (λ x, x ≤ bj) obs).
  unfold wrap_u64. rewrite !Z.mod_small by (unfold u64_max in *; pose proof (Hr (λ x, x ≤ bi) _);
    pose proof (Hr (λ x, x ≤ bj) _); unfold u64_max in *; lia). lia.
Qed.

Definition histogram_ok (h : Histogram) : Prop :=
  ∃ obs, observed BOUNDS_MS obs (hg_buckets h) (hg_count h) (hg_millis h) ∧ Forall (λ x, 0 ≤ x) obs.
Definition latency_ok (l : Latency) : Prop :=
  ∃ obs, observed BOUNDS obs (lt_buckets l) (lt_count l) (lt_micros l).

Lemma empty_histogram_ok : histogram_ok empty_histogram.
Proof. exists []. split; [exact (observed_nil BOUNDS_MS)|constructor]. Qed.
Lemma observe_ok ms h : histogram_ok h → histogram_ok (observe ms h).
Proof.
  intros (obs & Ho & Hn). exists (Z.max ms 0 :: obs). split; [by apply observed_cons|].
  constructor; [lia|done].
Qed.
Lemma timer_drop_ok method us ls : Forall latency_ok ls → Forall latency_ok (timer_drop method us ls).
Proof.
  intros Hl. unfold timer_drop. destruct (position _ _) as [i|]; [|done].
  apply Forall_alter; [done|]. intros l _ (obs & Ho).
  exists (Z.min us u64_max :: obs). by apply observed_cons.
Qed.

(** ** Well-formed metrics *)
Definition series_ok (s : NamedSeries) : Prop := length (ns_events s) = 5%nat ∧ histogram_ok (ns_duration s).
Definition named_ok (n : NamedLifecycle) : Prop :=
  match n with
  | Bounded names => NoDup names.*1 ∧ Forall (λ ns, series_ok ns.2) names
  | AllNames _ series _ => map_Forall (λ _, series_ok) series
  end.
Definition pressure_ok (p : Pressure) : Prop :=
  NoDup (queue_names p) ∧ histogram_ok (pr_first_claim p) ∧ histogram_ok (pr_due_wait p).
Definition shape (m : Metrics) : Prop :=
  length (states m) = 5%nat ∧ length (events m) = 6%nat
  ∧ length (retention_deleted_total m) = 3%nat
  ∧ Forall (λ l, length l = 3%nat) (retention_deleted_total m)
  ∧ length (enqueue_rejections_by_kind m) = 5%nat.
Record metrics_ok (m : Metrics) : Prop := {
  mo_shape : shape m;
  mo_named : named_ok (named m);
  mo_pressure : pressure_ok (pressure m);
}.

(** *** The per-name series *)
Lemma update_first_names name f l : (update_first name f l).*1 = l.*1.
Proof.
  induction l as [|[n s] l IH]; [done|]. simpl. case_match; [done|].
  rewrite !fmap_cons. by f_equal.
Qed.
Lemma update_first_ok name f l :
  (∀ s, series_ok s → series_ok (f s)) → Forall (λ ns, series_ok ns.2) l →
  Forall (λ ns, series_ok ns.2) (update_first name f l).
Proof.
  intros Hf. induction 1 as [|[n s] l Hs Hl IH]; [constructor|]. simpl.
  destruct (String.eqb n name); (constructor; [simpl in *; auto|assumption]).
Qed.
Lemma default_series_ok : series_ok default_series.
Proof. split; [done|apply empty_histogram_ok]. Qed.
Lemma with_series_ok name f n :
  (∀ s, series_ok s → series_ok (f s)) → named_ok n → named_ok (with_series name f n).
Proof.
  intros Hf. destruct n as [names|cap series dropped]; simpl.
  - intros [Hn Hs]. rewrite update_first_names. split; [done|by apply update_first_ok].
  - intros Hs. destruct (series !! name) as [s|] eqn:E.
    + apply map_Forall_insert_2; [|done]. eauto.
    + case_match; [|done]. apply map_Forall_insert_2; [|done]. apply Hf, default_series_ok.
Qed.
Lemma named_event_ok name e n : named_ok n → named_ok (named_event name e n).
Proof.
  unfold named_event. destruct (position _ _); [|done]. apply with_series_ok.
  intros s [Hl Hh]. split; [|done]. simpl. by rewrite length_alter.
Qed.
Lemma named_observe_ok name ms n : named_ok n → named_ok (named_observe_duration name ms n).
Proof. apply with_series_ok. intros s [Hl Hh]. split; [done|by apply observe_ok]. Qed.
Lemma claimed_ok c a now n p : pressure_ok p → pressure_ok (claimed c a now n p).
Proof.
  intros (Hq & Hf & Hd). unfold claimed. case_match; (split_and!; [done| |]); simpl;
    auto using observe_ok.
Qed.
Lemma sampler_tick_ok read us p : pressure_ok p → pressure_ok (sampler_tick read us p).
Proof.
  intros (Hq & Hf & Hd). unfold sampler_tick. destruct read as [[d now]|]; split_and!; try done.
  unfold queue_names, sample in *. simpl. rewrite <-list_fmap_compose. exact Hq.
Qed.

(** *** The operations *)
Definition sound (f : Metrics → Metrics) : Prop := ∀ m, metrics_ok m → metrics_ok (f m).
Create HintDb metered discriminated.

(** An operation that moves plain counters only. *)
Lemma counter_sound (f : Metrics → Metrics) :
  (∀ m, named (f m) = named m ∧ pressure (f m) = pressure m ∧ (shape m → shape (f m))) → sound f.
Proof.
  intros Hf m [Hs Hn Hp]. destruct (Hf m) as (En & Ep & Es).
  split; [by apply Es|by rewrite En|by rewrite Ep].
Qed.
Ltac counter :=
  apply counter_sound; intros ?; split_and!; [by repeat case_match..|];
  intros (? & ? & ? & ? & ?); repeat case_match; (split_and!; simpl; rewrite ?length_alter; done).

Lemma id_sound : sound id.
Proof. by intros m. Qed.
Lemma compose_sound f g : sound f → sound g → sound (λ m, f (g m)).
Proof. intros Hf Hg m Hm. by apply Hf, Hg. Qed.
Lemma if_sound (b : bool) f g : sound f → sound g → sound (λ m, if b then f m else g m).
Proof. by destruct b. Qed.
Lemma iter_sound n f : sound f → sound (Nat.iter n f).
Proof. intros Hf m Hm. induction n as [|n IH]; simpl; auto. Qed.
Lemma foldl_sound {A} (f : Metrics → A → Metrics) l :
  (∀ a, sound (λ m, f m a)) → sound (λ m, foldl f m l).
Proof.
  intros Hf m Hm. revert m Hm. induction l as [|a l IH]; intros m Hm; [done|]. simpl.
  apply IH. by apply (Hf a).
Qed.
Lemma bump_state_sound n s : sound (bump_state n s).
Proof. unfold bump_state. destruct (position _ _); counter. Qed.
Lemma event_sound e : sound (event e).
Proof. unfold event. destruct (position _ _); counter. Qed.
Lemma transition_sound from to e : sound (transition from to e).
Proof.
  intros m Hm. unfold transition. apply event_sound, bump_state_sound.
  destruct from; [by apply bump_state_sound|done].
Qed.
Lemma retention_deleted_sound t r n : sound (retention_deleted t r n).
Proof.
  intros m Hm. unfold retention_deleted. case_match; [done|].
  set (m1 := match position t RETENTION_TARGETS with Some _ => _ | None => _ end).
  assert (metrics_ok m1) as H1.
  { unfold m1. destruct (position t _); [|done]. destruct (position r _); [|done].
    destruct Hm as [(? & ? & ? & ? & ?) Hn Hp]. split; [|done..]. split_and!; simpl; try done.
    - by rewrite length_alter.
    - apply Forall_alter; [done|]. intros l _ Hl. by rewrite length_alter. }
  repeat case_match; try by apply bump_state_sound.
  - destruct H1. by split.
  - done.
Qed.
Lemma rejection_recorded_sound k : sound (rejection_recorded k).
Proof. unfold rejection_recorded. destruct (position _ _); counter. Qed.
Lemma dedup_released_sound n : sound (dedup_released n).
Proof. unfold dedup_released. counter. Qed.
Lemma named_sound f : (∀ n, named_ok n → named_ok (f n)) → sound (λ m, m <| named ::= f |>).
Proof. intros Hf m [Hs Hn Hp]. split; simpl; auto. Qed.

(** The single counters. *)
Ltac plain_counter :=
  unfold enqueue_receipt_created, enqueue_replay, enqueue_conflict, result_stored, throttled,
    ingress_rejection, chain_quarantine, ancestry_rejection, retention_error, recovery_error,
    scheduler_job_produced, scheduler_error, scheduler_activated, scheduler_deactivated,
    flow_created, flow_nodes_created, flow_waiting_children_inc, flow_waiting_children_dec,
    flow_parent_failure, flow_rejected, flow_merge, flow_merge_nodes, chain_counters_pruned,
    facet_dispatch_pruned, rejections_pruned; counter.
(** Peel the operations of a deferred update one by one. *)
Ltac peel :=
  lazymatch goal with
  | H : metrics_ok ?m |- metrics_ok ?m => exact H
  | |- metrics_ok (transition ?a ?b ?e ?m) => apply (transition_sound a b e m)
  | |- metrics_ok (event ?e ?m) => apply (event_sound e m)
  | |- metrics_ok (dedup_released ?n ?m) => apply (dedup_released_sound n m)
  | |- metrics_ok (retention_deleted ?a ?b ?n ?m) => apply (retention_deleted_sound a b n m)
  | |- metrics_ok (rejection_recorded ?k ?m) => apply (rejection_recorded_sound k m)
  | |- metrics_ok (Nat.iter ?n ?f ?m) => apply (iter_sound n f); [intros ? ?|]
  | |- metrics_ok (foldl ?f ?m ?l) => apply (foldl_sound f l); [intros ? ? ?|]
  | |- metrics_ok (if ?b then _ else _) => destruct b
  | |- metrics_ok (match ?x with _ => _ end) => destruct x
  | |- metrics_ok (update_with named ?f ?m) => apply (named_sound f)
  | |- named_ok _ → named_ok (named_event ?n ?e _) => apply named_event_ok
  | |- named_ok _ → named_ok (named_observe_duration ?n ?ms _) => apply named_observe_ok
  | |- ∀ _, _ => intros ?
  | |- metrics_ok (?f ?m) =>
      let H := fresh in assert (sound f) as H by plain_counter; apply H; clear H
  end.
Ltac peels := repeat peel.

Lemma flush_sound s : sound (flush s).
Proof. intros m Hm. unfold flush. peels. Qed.
Lemma fire_rejection_sound r : sound (fire_rejection_metric r).
Proof. intros m Hm. unfold fire_rejection_metric. peels. Qed.
Lemma claim_metrics_sound n prior c a now k : sound (claim_metrics n prior c a now k).
Proof.
  intros m Hm. unfold claim_metrics.
  assert (metrics_ok (transition (Some prior) Active "claimed" m <| named ::= named_event n "claimed" |>))
    as [Hs Hn Hp] by peels.
  split; [exact Hs|exact Hn|by apply claimed_ok].
Qed.
Lemma finish_metrics_sound fl f : sound (finish_metrics fl f).
Proof. intros m Hm. unfold finish_metrics. cbv zeta. peels. Qed.
Lemma flush_tree_sound nodes k r : sound (flush_tree_metrics nodes k r).
Proof. intros m Hm. unfold flush_tree_metrics, enqueued_node. cbv zeta. peels. Qed.
Lemma merge_metrics_sound nodes st : sound (merge_metrics nodes st).
Proof. intros m Hm. unfold merge_metrics, enqueued_node. cbv zeta. peels. Qed.
Lemma recovered_metrics_sound now row : sound (λ m, recovered_metrics now m row).
Proof. intros m Hm. unfold recovered_metrics. cbv zeta. peels. Qed.
Lemma sweep_metrics_sound o : sound (sweep_metrics o).
Proof. intros m Hm. unfold sweep_metrics. cbv zeta. peels. Qed.
#[export] Hint Resolve flush_sound fire_rejection_sound claim_metrics_sound finish_metrics_sound
  flush_tree_sound merge_metrics_sound sweep_metrics_sound : metered.

(** ** The frame

    [metered m]: every run of [m], successful or not, keeps well-formed metrics so. *)
Definition keeps_ok : relation Metrics := λ m m', metrics_ok m → metrics_ok m'.
#[export] Instance keeps_ok_preorder : PreOrder keeps_ok.
Proof. split; unfold keeps_ok; [by intros m|]. intros m1 m2 m3. auto. Qed.
Abbreviation metered := (meters keeps_ok).

Ltac meter_leaf :=
  lazymatch goal with
  | |- keeps_ok ?m (?f ?m) =>
      first [solve [let H := fresh in assert (sound f) as H by eauto 2 with metered; exact (H m)]
            | intros ?; peels]
  | |- keeps_ok ?m _ => intros ?; peels
  end.
Ltac meter := repeat (meter_step || solve [eauto 2 with metered] || meter_leaf).

(** ** The handlers *)
Section Handlers.
Context `{HE : Env, HP : Prost, HC : CronLib}.

Lemma ingress_admit_metered f now : metered (ingress_admit f now).
Proof. unfold ingress_admit. meter. Qed.
Lemma consume_metered id now : metered (consume id now).
Proof. unfold consume. meter. Qed.
Local Hint Resolve ingress_admit_metered consume_metered : metered.

Lemma enqueue_one_metered l req now rr : metered (enqueue_one l req now rr).
Proof.
  unfold enqueue_one, admit_new, replay, admit_ingress, ancestry, circuit_breaker, quarantine,
    write_receipt, reject. meter.
Qed.
Local Hint Resolve enqueue_one_metered : metered.
Lemma batch_loop_metered l now i reqs : metered (batch_loop l now i reqs).
Proof. revert i. induction reqs as [|[req rr] reqs IH]; intros i; simpl; meter. Qed.
Local Hint Resolve batch_loop_metered : metered.
Lemma execute_batch_metered l reqs b : metered (execute_batch l reqs b).
Proof. unfold execute_batch, record_rejection. meter. by apply flush_sound. Qed.
Local Hint Resolve execute_batch_metered : metered.
Lemma enqueue_metered l req : metered (enqueue l req).
Proof. unfold enqueue. meter. Qed.
Lemma enqueue_bulk_metered l reqs : metered (enqueue_bulk l reqs).
Proof. unfold enqueue_bulk. meter. Qed.
Lemma get_next_job_metered cfg req : metered (get_next_job cfg req).
Proof. unfold get_next_job, claim_selected, bump_attempts, serve_facet. meter. Qed.
Lemma renew_lease_metered d req : metered (renew_lease d req).
Proof. unfold renew_lease. meter. Qed.
Lemma recover_expired_metered n : metered (recover_expired n).
Proof. unfold recover_expired, recover_one. meter. by apply recovered_metrics_sound. Qed.

Lemma cascade_metered n c fl a : metered (cascade n c fl a).
Proof.
  revert fl a. induction n as [|n IH]; intros fl a; simpl; unfold archive_stmt, release_stmt; meter.
Qed.
Lemma cascade_all_metered c fl a : metered (cascade_all c fl a).
Proof. intros w r w'. apply cascade_metered. Qed.
Local Hint Resolve cascade_all_metered : metered.
Lemma finish_job_metered a : metered (finish_job a).
Proof.
  unfold finish_job, finish_archived, retry_job, settle_job, child_completed, archive_stmt,
    update_stmt, release_stmt. meter.
Qed.
Local Hint Resolve finish_job_metered : metered.
Lemma complete_job_metered id wk n r : metered (complete_job id wk n r).
Proof. unfold complete_job. meter. Qed.

Lemma prepare_node_metered t parent depth md mn st : metered (prepare_node t parent depth md mn st).
Proof. apply prepare_node_meters, _. Qed.
Local Hint Resolve prepare_node_metered : metered.
Lemma prepare_trees_metered l seen flows : metered (prepare_trees l seen flows).
Proof. revert seen. induction flows as [|f flows IH]; intros seen; simpl; meter. Qed.
Lemma flow_reject_metered {A} c msg : metered (flow_reject c msg : M Status A).
Proof. unfold flow_reject. meter. Qed.
Lemma insert_node_metered taken id now n p d :
  metered taken → metered (insert_node taken id now n p d).
Proof. intros Ht. unfold insert_node. meter. Qed.
Lemma insert_tree_metered nodes now : metered (insert_prepared_tree nodes now).
Proof. unfold insert_prepared_tree, insert_node. meter. Qed.
Local Hint Resolve prepare_trees_metered flow_reject_metered insert_tree_metered : metered.
Lemma add_flow_metered l flow : metered (add_flow l flow).
Proof. unfold add_flow, or_rejected. meter. Qed.
Lemma add_flow_bulk_metered l flows : metered (add_flow_bulk l flows).
Proof. unfold add_flow_bulk, or_rejected. meter. by apply flush_tree_sound. Qed.
Lemma merge_body_metered l name k nodes : metered (merge_body l name k nodes).
Proof.
  unfold merge_body, merge_target, merge_caps, attach_node. meter.
  apply insert_node_metered, flow_reject_metered.
Qed.
Local Hint Resolve merge_body_metered : metered.
Lemma add_flow_merge_metered l flow : metered (add_flow_merge l flow).
Proof. unfold add_flow_merge, or_rejected. meter. Qed.

Lemma sweep_metered cfg : metered (sweep cfg).
Proof.
  unfold sweep, sweep_blocking, sweep_body, when, prune_age, prune_count, prune_receipts,
    prune_chain_counters, prune_facet_dispatch, prune_rejections. meter.
Qed.
Lemma fire_one_metered l row : metered (fire_one l row).
Proof. unfold fire_one, enqueue_scheduled. meter. Qed.
Local Hint Resolve fire_one_metered : metered.
Lemma fire_all_metered l rows : metered (fire_all l rows).
Proof. induction rows as [|row rows IH]; simpl; meter. Qed.
Local Hint Resolve fire_all_metered : metered.
Lemma run_once_metered l n : metered (run_once l n).
Proof. unfold run_once. meter. Qed.

Lemma limits_metered req f :
  metered (rate_limit_upsert req) ∧ metered (rate_limit_delete f) ∧ metered (rate_limit_status f)
  ∧ metered (ingress_upsert req) ∧ metered (ingress_delete f) ∧ metered (ingress_status f).
Proof.
  unfold rate_limit_upsert, rate_limit_delete, rate_limit_status, ingress_upsert,
    ingress_delete, ingress_status. split_and!; meter.
Qed.
Lemma schedulers_metered req id :
  metered (scheduler_upsert req) ∧ metered (scheduler_delete id) ∧ metered (scheduler_get id)
  ∧ metered scheduler_list.
Proof.
  unfold scheduler_upsert, scheduler_delete, scheduler_get, scheduler_list. split_and!; meter.
Qed.
Lemma tick_or_metered {E A} count (m : M E A) : sound count → metered m → metered (tick_or count m).
Proof. intros Hc Hm. unfold tick_or. meter; auto. Qed.

Lemma after_metered {E A} (m : M E A) w :
  metered m → metrics_ok (w_metrics w) → metrics_ok (w_metrics (after m w)).
Proof. intros Hm. unfold after. destruct (m w) as [r w'] eqn:E1. exact (Hm _ _ _ E1). Qed.

(** Every call keeps well-formed metrics so. *)
Lemma perform_metered sv c w :
  metrics_ok (w_metrics w) → metrics_ok (w_metrics (perform sv c w)).
Proof.
  intros Hw. destruct c; simpl; try (apply after_metered; [|done]).
  - apply enqueue_metered.
  - apply enqueue_bulk_metered.
  - apply get_next_job_metered.
  - apply complete_job_metered.
  - apply finish_job_metered.
  - apply renew_lease_metered.
  - apply add_flow_metered.
  - apply add_flow_bulk_metered.
  - apply add_flow_merge_metered.
  - unfold get_children_values. meter.
  - apply (limits_metered req "").
  - apply (limits_metered (mkUpsertRule "" 0 0) facet).
  - apply (limits_metered (mkUpsertRule "" 0 0) facet).
  - apply (limits_metered req "").
  - apply (limits_metered (mkUpsertRule "" 0 0) facet).
  - apply (limits_metered (mkUpsertRule "" 0 0) facet).
  - apply (schedulers_metered req "").
  - apply (schedulers_metered (mkUpsertSched "" None None) id).
  - apply (schedulers_metered (mkUpsertSched "" None None) id).
  - apply (schedulers_metered (mkUpsertSched "" None None) "").
  - apply tick_or_metered; [plain_counter|apply recover_expired_metered].
  - destruct (enabled _); [|done].
    apply after_metered; [|done]. apply tick_or_metered; [plain_counter|apply sweep_metered].
  - apply run_once_metered.
Qed.

(** ** The process: the world, the RPC timers and the counters of the backup loop *)
Record Process := mkProcess {
  pc_world : World;
  pc_latency : list Latency;
  pc_backup : BackupMetrics;
}.
#[export] Instance Process_eta : Eta Process := λ r,
  mkProcess (pc_world r) (pc_latency r) (pc_backup r).
Definition registry (p : Process) : Registry :=
  mkRegistry (w_metrics (pc_world p)) (pc_backup p) (pc_latency p).

(** The label of the timer each RPC of [QueueService] starts; the loops have none. *)
Definition method_of (c : Call) : option string :=
  match c with
  | AddJob _ => Some "AddJob"
  | AddJobBulk _ => Some "AddJobBulk"
  | GetNextJob _ => Some "GetNextJob"
  | CompleteJob _ _ _ _ => Some "CompleteJob"
  | FailJob _ _ _ _ _ => Some "FailJob"
  | Heartbeat _ => Some "Heartbeat"
  | AddFlow _ => Some "AddFlow"
  | AddFlowBulk _ => Some "AddFlowBulk"
  | AddFlowMerge _ => Some "AddFlowMerge"
  | GetChildrenValues _ => Some "GetChildrenValues"
  | UpsertRateLimitRule _ => Some "UpsertRateLimitRule"
  | DeleteRateLimitRule _ => Some "DeleteRateLimitRule"
  | GetRateLimitStatus _ => Some "GetRateLimitStatus"
  | UpsertIngressLimitRule _ => Some "UpsertIngressLimitRule"
  | DeleteIngressLimitRule _ => Some "DeleteIngressLimitRule"
  | GetIngressLimitStatus _ => Some "GetIngressLimitStatus"
  | UpsertJobScheduler _ => Some "UpsertJobScheduler"
  | DeleteJobScheduler _ => Some "DeleteJobScheduler"
  | GetJobScheduler _ => Some "GetJobScheduler"
  | ListJobSchedulers => Some "ListJobSchedulers"
  | RecoverTick | RetentionTick | SchedulerTick => None
  end.
(** A call, timed from its start to the drop of its timer. *)
Definition serve (sv : Service) (c : Call) (elapsed : Z) (p : Process) : Process :=
  p <| pc_world ::= perform sv c |>
    <| pc_latency ::= match method_of c with Some m => timer_drop m elapsed | None => id end |>.
(** A tick of the sampler on the committed table. *)
Definition sampled (now : option Z) (elapsed : Z) (p : Process) : Process :=
  let read := (λ t, (w_db (pc_world p), t)) <$> now in
  p <| pc_world ::= λ w, w <| w_metrics ::= λ m, m <| pressure ::= sampler_tick read elapsed |> |> |>.
Definition launched (w : World) : Process :=
  mkProcess w (replicate 20 empty_latency) (mkBackupMetrics 0 0 0 0 0).

Inductive process_step (sv : Service) : Process → Process → Prop :=
| PServe c elapsed p : typed_call c → process_step sv p (serve sv c elapsed p)
| PSample now elapsed p : process_step sv p (sampled now elapsed p)
| PBackupDone ts dur size p : process_step sv p (p <| pc_backup ::= backup_success ts dur size |>)
| PBackupFailed p : process_step sv p (p <| pc_backup ::= backup_failure |>)
| PRestart p : process_step sv p (launched (restart sv (pc_world p))).

Record process_ok (p : Process) : Prop := {
  po_metrics : metrics_ok (w_metrics (pc_world p));
  po_latency : Forall latency_ok (pc_latency p);
  po_methods : length (pc_latency p) = length METHODS;
}.

(** The labels a service is configured with. *)
Definition labels_ok (sv : Service) : Prop := pressure_ok (sv_pressure sv) ∧ named_ok (sv_named sv).

Lemma launched_ok sv w : labels_ok sv → process_ok (launched (restart sv w)).
Proof.
  intros [Hp Hn]. split; simpl.
  - split; [|exact Hn|exact Hp]. by split_and!; [..|repeat constructor|].
  - apply (Forall_replicate latency_ok 20 empty_latency). exists []. exact (observed_nil BOUNDS).
  - done.
Qed.
Lemma process_step_ok sv p p' :
  labels_ok sv → process_step sv p p' → process_ok p → process_ok p'.
Proof.
  intros Hsv Hs [Hm Hl Hn]. destruct Hs as [c us p Ht|now us p|ts dur size p|p|p].
  - split; simpl; [by apply perform_metered|..]; destruct (method_of c) as [m|]; try done.
    + by apply timer_drop_ok.
    + unfold timer_drop. destruct (position _ _); [by rewrite length_alter|done].
  - destruct Hm as [Hs Hna Hp]. split; [|exact Hl|exact Hn].
    split; [exact Hs|exact Hna|]. apply sampler_tick_ok, Hp.
  - by split.
  - by split.
  - by apply launched_ok.
Qed.
Lemma process_steps_ok sv p p' :
  labels_ok sv → rtc (process_step sv) p p' → process_ok p → process_ok p'.
Proof. intros Hsv. induction 1; [done|]. eauto using process_step_ok. Qed.

(** What [start] configures is well formed. *)
Lemma configured_ok v p : configured v = Some p → pressure_ok p.
Proof.
  unfold configured. set (names := if is_empty v then [] else _). case_match eqn:E; [done|].
  intros [= <-]. apply orb_false_iff in E as [_ E]. apply bool_decide_eq_false in E.
  apply dec_stable in E. split_and!; [|apply empty_histogram_ok..].
  unfold queue_names. simpl. rewrite <-list_fmap_compose.
  by rewrite (list_fmap_ext _ id), list_fmap_id.
Qed.
Lemma preseed_ok cap m l :
  map_Forall (λ _, series_ok) m → map_Forall (λ _, series_ok) (preseed cap m l).
Proof.
  revert m. induction l as [|n l IH]; intros m Hm; simpl; [done|]. case_match; [done|].
  apply IH. unfold preseed_one. case_match; [done|].
  apply map_Forall_insert_2; [apply default_series_ok|done].
Qed.
Lemma started_labels h var dm : start h var = Ok dm → labels_ok (dm_service dm).
Proof.
  intros Hs. unfold start in Hs. settle Hs.
  match goal with H : scheduler_settings _ = Ok ?p |- _ => destruct p end. settle Hs.
  injection Hs as <-.
  match goal with H : queues_setting _ = Ok ?p |- _ =>
    assert (pressure_ok p) as Hp by
      (unfold queues_setting in H; destruct (configured _) eqn:Ec; [|done];
       injection H as <-; by eapply configured_ok) end.
  split; [exact Hp|]. cbn [dm_service sv_named].
  match goal with |- named_ok (match ?mode with _ => _ end) => destruct mode end.
  - unfold named_configured. split; [|apply Forall_fmap, Forall_true; intros; apply default_series_ok].
    rewrite <-list_fmap_compose, (list_fmap_ext _ id), list_fmap_id; [|done]. apply Hp.
  - apply preseed_ok, map_Forall_empty.
Qed.

(** The names of the per-name series are distinct. *)
Lemma named_ok_distinct n :
  named_ok n → NoDup (named_list n).*1 ∧ Forall (λ ns, series_ok ns.2) (named_list n).
Proof.
  destruct n as [names|cap series dropped]; simpl; [done|]. intros Hs.
  pose proof (merge_sort_Permutation by_name (map_to_list series)) as Hp. split.
  - rewrite Hp. apply NoDup_fst_map_to_list.
  - rewrite Hp. apply map_Forall_to_list in Hs. eapply list.Forall_impl; [exact Hs|].
    by intros [].
Qed.

(** C38: the metrics page.  In every state of a daemon that started, after any calls, samples,
    backups and restarts, the text of [/metrics] reads back, by the Prometheus text format, as
    exactly the samples of the registry: every counter under its metric with the label values
    as they are, whatever job and queue names hold.  No two samples share metric and labels;
    every histogram of the page counts, cumulatively and on 64-bit counters, some
    observations; and every array of counters has the size of its labels. *)
Theorem metrics_page h var dm w0 p :
  start h var = Ok dm → rtc (process_step (dm_service dm)) (launched (restart (dm_service dm) w0)) p →
  let rg := registry p in let m := rg_metrics rg in
  exposition (render rg) = Some (samples rg)
  ∧ NoDup (key <$> samples rg)
  ∧ histogram_ok (pr_first_claim (pressure m)) ∧ histogram_ok (pr_due_wait (pressure m))
  ∧ Forall (λ ns, length (ns_events ns.2) = 5%nat ∧ histogram_ok (ns_duration ns.2))
      (named_list (named m))
  ∧ Forall latency_ok (rg_latency rg) ∧ length (rg_latency rg) = length METHODS
  ∧ length (states m) = length STATES ∧ length (events m) = length EVENTS.
Proof.
  intros Hs Hr rg m. pose proof (started_labels _ _ _ Hs) as Hl.
  destruct (process_steps_ok _ _ _ Hl Hr (launched_ok _ w0 Hl)) as [[Hsh Hn Hp] Hlat Hlen].
  destruct (named_ok_distinct _ Hn) as [Hnd Hser]. destruct Hp as (Hq & Hf & Hd).
  destruct Hsh as (Hst & Hev & _). split_and!; try assumption.
  - apply page_reads_back.
  - by apply series_distinct.
Qed.
End Handlers.
