(* ===== verification/ReadSpec.v ===== *)
(** * What the read endpoints show of the broker

    The read side composed with the reachable worlds of System.v: the feeds list what
    happened, a job is found whatever the writer does between the two lookups, and the
    triggers of the full-text index keep up with every call. *)
From Stdlib Require Import Ascii String.
From Stdlib Require Import Strings.Byte.
From S2P Require Import Prelude Text Query F64 Scheduling Db Pressure Telemetry Broker.
From S2P Require Import Lifecycle RateLimit Ingress Enqueue Leases Claim Finish Flow FlowTree.
From S2P Require Import FlowSim Retention Schedulers System.
From S2P Require Import Encoding Reader Fts ReadApi.
Local Open Scope string_scope.
Local Open Scope Z_scope.

Section ReadSpec.
Context `{HE : Env, HP : Prost, HC : CronLib, HU : !UuidLaw HE}.

(** ** The feeds *)

(** The feeds.  On a connection that meets no failure, [/v1/failures] returns the most
    recent archived failures that pass its filters, each with its error and with attempts
    within its limit, and [/v1/rejections] the most recent recorded rejections that pass
    its filters, the latest first. *)
Theorem feeds_answer sv w t c fp rp :
  reachable sv w → healthy t c → ConnLaw c → sn_db (conn_snapshot c 0) = w_db w →
  (∀ n, fp_limit fp = Some n → 0 ≤ n) → (∀ n, rp_limit rp = Some n → 0 ≤ n) →
  (∃ sel, failures t fp = Ok (failure_row <$> sel)
     ∧ is_page latest (page_size FAILURES_DEFAULT_LIMIT FAILURES_MAX_LIMIT (fp_limit fp))
         (rows_where (failure_where fp) (job_history (w_db w))) sel
     ∧ ∀ r, r ∈ sel → h_state r.2 = Failed ∧ is_Some (h_last_error r.2)
                      ∧ 0 ≤ h_attempts r.2 ≤ h_max_attempts r.2)
  ∧ ∃ sel, rejections t rp = Ok sel
     ∧ is_page latest_rejection
         (page_size FAILURES_DEFAULT_LIMIT FAILURES_MAX_LIMIT (rp_limit rp))
         (rows_where (rejection_where rp) (enqueue_rejections (w_db w))) sel.
Proof.
  intros Hr Ht Hc Hs Hf Hrj. split.
  - unfold failures. rewrite (healthy_query _ _ _ Ht), (healthy_select _ _ _ _ Ht), Hs. simpl.
    eexists. split; [done|].
    match goal with |- is_page _ _ ?rows ?sel ∧ _ =>
      assert (is_page latest
        (page_size FAILURES_DEFAULT_LIMIT FAILURES_MAX_LIMIT (fp_limit fp)) rows sel) as Hp end.
    { apply order_page_spec; [apply Hc|by apply page_size_nonneg]. }
    split; [done|]. intros [id h] Hin. apply (page_elem _ _ _ _ _ Hp) in Hin.
    apply elem_of_rows_where in Hin as [Hh Hw]. simpl.
    apply reachable_implements in Hr as (s & _ & [_ Hhist _ [_ Hwf _ _]]).
    rewrite Hhist in Hwf. specialize (Hwf _ _ Hh) as [Hatt Hst].
    unfold failure_where in Hw. apply andb_prop in Hw as [[Hfail _]%andb_prop _].
    unfold is_state in Hfail. apply bool_decide_eq_true in Hfail. rewrite Hfail in Hst.
    by split_and!; [| |apply Hatt..].
  - unfold rejections. rewrite (healthy_query _ _ _ Ht), (healthy_select _ _ _ _ Ht), Hs. simpl.
    eexists. split; [done|]. apply order_page_spec; [apply Hc|by apply page_size_nonneg].
Qed.

(** ** Job detail *)
Context `{HJ : Json}.

Lemma find_job_run t c id :
  healthy t c →
  reader_query t (find_job id) =
  Ok (match jobs (sn_db (conn_snapshot c 0)) !! id with
      | Some j => Some (raw_live id j)
      | None => raw_history id <$> job_history (sn_db (conn_snapshot c 1)) !! id
      end).
Proof.
  intros Ht. rewrite (healthy_query _ _ _ Ht). unfold find_job, mbind, Q_bind.
  rewrite (healthy_select _ _ _ _ Ht). simpl.
  destruct (jobs _ !! id); simpl; [done|]. by rewrite (healthy_select _ _ _ _ Ht).
Qed.

Definition unknown (id : string) (w : World) : Prop :=
  jobs (w_db w) !! id = None ∧ job_history (w_db w) !! id = None.

(** A job is never missed.  The lookup reads the live table, then the history, and the
    broker may serve any calls in between.  It answers with the live row of the first
    moment or the archived row of the second one, and 404 only if at one of the two moments
    the job was in neither table: a job that is archived between the two reads is found. *)
Lemma job_detail_finds sv w w' t c id :
  reachable sv w → rtc (sys_step sv) w w' → healthy t c →
  sn_db (conn_snapshot c 0) = w_db w → sn_db (conn_snapshot c 1) = w_db w' →
  match job_detail t id with
  | Ok d =>
      (∃ j, jobs (w_db w) !! id = Some j ∧ d = detail_of (raw_live id j))
      ∨ ∃ h, jobs (w_db w) !! id = None ∧ job_history (w_db w') !! id = Some h
             ∧ d = detail_of (raw_history id h)
  | Err e =>
      (e = BAD_REQUEST ∧ is_blank id = true)
      ∨ e = NOT_FOUND ∧ is_blank id = false ∧ (unknown id w ∨ unknown id w')
  end.
Proof.
  intros Hr Hrun Ht H0 H1. unfold job_detail. destruct (is_blank id) eqn:Hb; [by left|].
  rewrite (find_job_run _ _ _ Ht), H0, H1. simpl.
  destruct (jobs (w_db w) !! id) as [j|] eqn:Hj; [left; eauto|].
  destruct (job_history (w_db w') !! id) as [h|] eqn:Hh; simpl; [right; eauto|].
  right. split_and!; [done|done|]. unfold unknown.
  destruct (job_history (w_db w) !! id) as [h|] eqn:Hh0; [right|by left].
  split; [|done]. by eapply archived_final.
Qed.

(** ** The index follows the broker *)

(** The statements on the history that take it from [h] to [h']: an id that was not there is
    inserted with the row it then has, and one that is there no more is deleted.  A row that
    is in both is not written; there is no trigger for a row that is changed in place. *)
Inductive trigger_step (h h' : gmap string HistRow) : Archive → Archive → Prop :=
| trigger_insert id r a a' :
    h !! id = None → h' !! id = Some r → archive_insert id r a = Ok a' →
    trigger_step h h' a a'
| trigger_delete id a :
    is_Some (h !! id) → h' !! id = None → trigger_step h h' a (archive_delete id a).

(** A run of the broker and the stored table beside it: whatever a call or a restart does to
    the history is done to the table by such statements. *)
Inductive index_run (sv : Service) : World → Archive → World → Archive → Prop :=
| IndexStart w a : index_run sv w a w a
| IndexStep w a w1 a1 w2 a2 :
    index_run sv w a w1 a1 → sys_step sv w1 w2 →
    rtc (trigger_step (job_history (w_db w1)) (job_history (w_db w2))) a1 a2 →
    ar_rows a2 = job_history (w_db w2) →
    index_run sv w a w2 a2.

Lemma trigger_steps_wf h h' a a' :
  rtc (trigger_step h h') a a' → archive_wf a → archive_wf a' ∧ (synced a → synced a').
Proof.
  induction 1 as [a|a a1 a' Hs _ IH]; intros Hwf; [done|].
  assert (archive_wf a1 ∧ (synced a → synced a1)) as [Hwf1 Hs1].
  { destruct Hs as [id r a a1 _ _ Hi|id a _ _].
    - by apply archive_insert_wf in Hi as (_ & _ & ? & ?).
    - by apply (archive_delete_wf a id) in Hwf as (_ & ? & ?). }
  destruct (IH Hwf1). auto.
Qed.
Lemma index_run_wf sv w a w' a' :
  index_run sv w a w' a' → archive_wf a → ar_rows a = job_history (w_db w) →
  archive_wf a' ∧ ar_rows a' = job_history (w_db w') ∧ (synced a → synced a').
Proof.
  induction 1 as [w a|w a w1 a1 w2 a2 _ IH _ Ht Hrows]; intros Hwf Ha; [done|].
  destruct (IH Hwf Ha) as (Hwf1 & _ & Hs1). destruct (trigger_steps_wf _ _ _ _ Ht Hwf1).
  split_and!; auto.
Qed.

Section Diff.
Context (h h' : gmap string HistRow).

Lemma trigger_deletes (l : list string) a :
  archive_wf a → (∀ id, id ∈ l → is_Some (h !! id) ∧ h' !! id = None) →
  ∃ a', rtc (trigger_step h h') a a' ∧ archive_wf a'
        ∧ ∀ i, ar_rows a' !! i = if decide (i ∈ l) then None else ar_rows a !! i.
Proof.
  revert a. induction l as [|id l IH]; intros a Hwf Hl.
  { exists a. split_and!; [done|done|]. intros i. by rewrite decide_False by apply not_elem_of_nil. }
  destruct (archive_delete_wf a id Hwf) as (Hd & Hwf1 & _).
  destruct (IH _ Hwf1) as (a' & Hs & Hwf' & Ha'); [intros; apply Hl; by right|].
  exists a'. split_and!; [|done|].
  - eapply rtc_l; [|exact Hs]. apply trigger_delete; apply Hl; by left.
  - intros i. rewrite Ha', Hd, lookup_delete. repeat case_decide; set_solver.
Qed.
Lemma trigger_inserts (l : list string) a :
  archive_wf a → NoDup l →
  (∀ id, id ∈ l → h !! id = None ∧ ar_rows a !! id = None ∧ is_Some (h' !! id)) →
  ∃ a', rtc (trigger_step h h') a a' ∧ archive_wf a'
        ∧ ∀ i, ar_rows a' !! i = if decide (i ∈ l) then h' !! i else ar_rows a !! i.
Proof.
  intros Hwf Hnd. revert a Hwf. induction Hnd as [|id l Hid _ IH]; intros a Hwf Hl.
  { exists a. split_and!; [done|done|]. intros i. by rewrite decide_False by apply not_elem_of_nil. }
  destruct (Hl id) as (Hn & Hna & [r Hr]); [by left|].
  pose proof (archive_insert_new a id r Hwf Hna) as Hi.
  set (a1 := mkArchive _ _ _ _) in Hi.
  destruct (archive_insert_wf _ _ _ _ Hwf Hi) as (_ & Ha1 & Hwf1 & _).
  destruct (IH a1 Hwf1) as (a' & Hs & Hwf' & Ha').
  { intros j Hj. destruct (Hl j) as (? & ? & ?); [by right|]. split_and!; [done| |done].
    rewrite Ha1, lookup_insert_ne; [done|]. by intros <-. }
  exists a'. split_and!; [|done|].
  - eapply rtc_l; [by eapply trigger_insert|exact Hs].
  - intros i. rewrite Ha', Ha1, lookup_insert. repeat case_decide; set_solver.
Qed.

(** Two histories that agree where both have a row are linked by trigger steps. *)
Lemma trigger_links a :
  archive_wf a → ar_rows a = h →
  (∀ id x x', h !! id = Some x → h' !! id = Some x' → x = x') →
  ∃ a', rtc (trigger_step h h') a a' ∧ ar_rows a' = h'.
Proof.
  intros Hwf Ha Hag.
  destruct (trigger_deletes (elements (dom h ∖ dom h')) a Hwf) as (a1 & Hs1 & Hwf1 & Ha1).
  { intros id. rewrite elem_of_elements, elem_of_difference, elem_of_dom, not_elem_of_dom. done. }
  destruct (trigger_inserts (elements (dom h' ∖ dom h)) a1 Hwf1 (NoDup_elements _))
    as (a2 & Hs2 & _ & Ha2).
  { intros id. rewrite elem_of_elements, elem_of_difference, elem_of_dom, not_elem_of_dom.
    intros [? Hn]. split_and!; [done| |done]. rewrite Ha1, Ha. by case_decide. }
  exists a2. split; [by etrans|]. apply map_eq. intros i. rewrite Ha2, Ha1, Ha.
  assert (∀ m1 m2 : gmap string HistRow, i ∈ elements (dom m1 ∖ dom m2) ↔
            is_Some (m1 !! i) ∧ m2 !! i = None) as He.
  { intros m1 m2. by rewrite elem_of_elements, elem_of_difference, elem_of_dom, not_elem_of_dom. }
  case_decide as E2; [done|]. rewrite He in E2. case_decide as E1; rewrite He in E1.
  - by destruct E1.
  - destruct (h !! i) as [x|] eqn:Hx, (h' !! i) as [x'|] eqn:Hx'; try done.
    + by rewrite (Hag i x x').
    + destruct E1. split; [by eexists|done].
    + destruct E2. split; [by eexists|done].
Qed.
End Diff.

(** No call rewrites an archived row. *)
Lemma index_run_exists sv w w' a :
  reachable sv w → rtc (sys_step sv) w w' → archive_wf a → ar_rows a = job_history (w_db w) →
  ∃ a', index_run sv w a w' a'.
Proof.
  intros Hr Hrun Hwf Ha.
  apply (rtc_ind_r (λ w', ∃ a', index_run sv w a w' a') w) in Hrun; [done|by exists a; constructor|].
  intros w1 w2 H1 H2 [a1 Hi]. destruct (index_run_wf _ _ _ _ _ Hi Hwf Ha) as (Hwf1 & Ha1 & _).
  destruct (trigger_links (job_history (w_db w1)) (job_history (w_db w2)) a1 Hwf1 Ha1)
    as (a2 & Hs & Ha2).
  { intros id x x' Hx Hx'. assert (reachable sv w1) as Hr1 by (unfold reachable; by etrans).
    destruct (archive_stable sv w1 w2 id x Hr1 (rtc_once _ _ H2) Hx) as [Hx2 _]; congruence. }
  exists a2. by eapply IndexStep.
Qed.

(** C31: the index never lags.  Enabling it ends, whatever the order in which rows are found
    and whichever statements fail; it never touches the history; a failed run leaves a sound
    index, and a successful one reports the number of rows that were not indexed and leaves
    every archived row indexed.  From then on an INSERT and a DELETE trigger are enough.
    Every call and every restart of any run of the broker takes the history to the next one
    by inserting ids that were not there and deleting ids that are there no more, writing no
    row that is in both; and whatever those statements are and in whatever order they run,
    with the triggers the stored table holds the history of the broker and the index stays
    sound and, once enabled, complete. *)
Theorem index_follows_broker order (Horder : ∀ n l, order n l ≡ₚ l) fault sv w w' n batch a :
  reachable sv w → rtc (sys_step sv) w w' →
  archive_wf a → ar_rows a = job_history (w_db w) →
  ∃ r a1, enable_fts order fault n batch a = Some (r, a1)
    ∧ archive_wf a1 ∧ ar_rows a1 = job_history (w_db w)
    ∧ (∃ a', index_run sv w a1 w' a')
    ∧ (∀ a', index_run sv w a1 w' a' →
         archive_wf a' ∧ ar_rows a' = job_history (w_db w') ∧ (is_ok r = true → synced a'))
    ∧ match r with
      | Ok k => k = length (missing a)
      | Err e => ∃ i, fault i = Some e
      end.
Proof.
  intros Hr Hrun Hwf Ha.
  destruct (enable_fts_completes order Horder fault n batch a Hwf)
    as (r & a1 & Hen & Hwf1 & Hrows & Hres).
  exists r, a1. rewrite Ha in Hrows. split_and!; [done|done|done|..].
  - by apply index_run_exists.
  - intros a' Ht. destruct (index_run_wf _ _ _ _ _ Ht Hwf1 Hrows) as (? & ? & Hsync).
    split_and!; [done|done|]. intros Hok. apply Hsync. destruct r; [apply Hres|done].
  - destruct r; [apply Hres|done].
Qed.
End ReadSpec.
