(* ===== verification/Http.v ===== *)
(** * The HTTP router (src/telemetry.rs)

    The table of routes, the constant endpoints and the way a request reaches its handler.
    axum is a parameter: [matched] finds the route of a path, the extractors read the query
    string, and [percent_decode] the segments of a path; [AxumLaw] states what its
    documentation says of them.  The handlers behind the routes are those of ReadApi.v and
    Render.v. *)
From Stdlib Require Import Ascii String.
From S2P Require Import Prelude Text Query F64 Scheduling Db Encoding Exposition Reader Fts.
From S2P Require Import ReadApi Pressure Telemetry Render Broker Enqueue System ReadSpec.
Local Open Scope string_scope.
Local Open Scope Z_scope.

Definition slash : ascii := "/"%char.
Definition colon : ascii := ":"%char.

(** ** Routes *)
Inductive Endpoint :=
| EMetrics | EHealthz | EReadyz | EConsole | EFailures | ERejections | ESearch | EJobDetail.
#[export] Instance Endpoint_eq : EqDecision Endpoint.
Proof. solve_decision. Defined.

Definition routes : list (string * Endpoint) :=
  [("/metrics", EMetrics); ("/healthz", EHealthz); ("/readyz", EReadyz); ("/console", EConsole);
   ("/v1/failures", EFailures); ("/v1/rejections", ERejections); ("/v1/search", ESearch);
   ("/v1/jobs/:id", EJobDetail)].

(** A pattern and a path agree segment by segment; [:name] stands for any segment that is
    not empty, and binds it. *)
Fixpoint match_segments (pat path : list string) : option (list string) :=
  match pat, path with
  | [], [] => Some []
  | p :: pat, x :: path =>
      match p with
      | String c _ =>
          if Ascii.eqb c colon
          then if is_empty x then None else cons x <$> match_segments pat path
          else if String.eqb p x then match_segments pat path else None
      | EmptyString => if is_empty x then match_segments pat path else None
      end
  | _, _ => None
  end.
Definition match_path (pat path : string) : option (list string) :=
  match_segments (split_on slash pat) (split_on slash path).

(** ** axum *)
Class Axum := {
  (** the router of [Router::route] *)
  matched : ∀ A : Type, list (string * A) → string → option (A * list string);
  (** [Path<String>]: the decoded segment, if it is text *)
  percent_decode : string → option string;
  (** [Query<T>] *)
  query_failures : string → option FailuresParams;
  query_rejections : string → option RejectionsParams;
  query_search : string → option SearchParams;
}.
Definition unambiguous {A} (table : list (string * A)) : Prop :=
  ∀ path r r' args args', r ∈ table → r' ∈ table →
    match_path r.1 path = Some args → match_path r'.1 path = Some args' → r = r'.
Class AxumLaw `{Axum} := {
  matched_spec : ∀ A (table : list (string * A)) path a args, unambiguous table →
    matched A table path = Some (a, args)
    ↔ ∃ pat, (pat, a) ∈ table ∧ match_path pat path = Some args;
  decode_plain : ∀ s, contains_char (Ascii.eqb "%"%char) s = false → percent_decode s = Some s;
}.

(** ** Requests and answers *)
Inductive Method := GET | HEAD | OtherMethod.
Record Request := mkRequest { rq_method : Method; rq_path : string; rq_query : string }.

Section Router.
Context `{HA : Axum, HF : Fts5, HJ : Json}.

Inductive Body :=
| NoBody | Text (s : string) | Html (s : string)
| JsonFailures (rows : list FailureRow) | JsonRejections (rows : list RejectionRow)
| JsonSearch (rows : list SearchRow) | JsonJob (job : JobDetail).
Record Response := mkResponse { rs_status : StatusCode; rs_type : option string; rs_body : Body }.
(** A handler answered, or axum did: no such path, no such method, parameters it cannot
    read. *)
Inductive Reply := Answered (r : Response) | NoRoute | NoMethod | Unreadable.

(** [AppState], and what the request meets: the read connection and the probe. *)
Record App := mkApp {
  app_registry : Registry; app_attempt : Attempt Snapshot; app_probe : Probe;
  app_fts_enabled : bool; app_console_html : string }.

Definition METRICS_CONTENT_TYPE : string := "text/plain; version=0.0.4; charset=utf-8".
Definition metrics (app : App) : Response :=
  mkResponse OK (Some METRICS_CONTENT_TYPE) (Text (render (app_registry app))).
Definition healthz : Response := mkResponse OK None (Text (line "ok")).
Definition console (app : App) : Response := mkResponse OK None (Html (app_console_html app)).

(** [Result<Json<T>, StatusCode>] *)
Definition json_or_status {A} (json : A → Body) (r : result StatusCode A) : Response :=
  match r with Ok a => mkResponse OK None (json a) | Err s => mkResponse s None NoBody end.

Definition endpoint (app : App) (e : Endpoint) (args : list string) (query : string) : Reply :=
  let t := app_attempt app in
  let extracted {A} (params : option A) (handler : A → Response) : Reply :=
    match params with Some p => Answered (handler p) | None => Unreadable end in
  match e with
  | EMetrics => Answered (metrics app)
  | EHealthz => Answered healthz
  | EReadyz => let '(s, text) := ready (app_probe app) in Answered (mkResponse s None (Text text))
  | EConsole => Answered (console app)
  | EFailures => extracted (query_failures query) (λ p, json_or_status JsonFailures (failures t p))
  | ERejections =>
      extracted (query_rejections query) (λ p, json_or_status JsonRejections (rejections t p))
  | ESearch =>
      extracted (query_search query) (λ p, json_or_status JsonSearch (search (app_fts_enabled app) t p))
  | EJobDetail =>
      match args with
      | [id] => extracted (percent_decode id) (λ id, json_or_status JsonJob (job_detail t id))
      | _ => Unreadable
      end
  end.

(** [get(handler)] also serves HEAD, without the body. *)
Definition without_body (r : Reply) : Reply :=
  match r with Answered r => Answered (mkResponse (rs_status r) (rs_type r) NoBody) | _ => r end.
Definition router (app : App) (req : Request) : Reply :=
  match matched Endpoint routes (rq_path req) with
  | None => NoRoute
  | Some (e, args) =>
      match rq_method req with
      | GET => endpoint app e args (rq_query req)
      | HEAD => without_body (endpoint app e args (rq_query req))
      | OtherMethod => NoMethod
      end
  end.

(** ** What the table serves *)

(** A segment that is not a parameter matches itself only. *)
Definition fixed (segs : list string) : bool :=
  forallb (λ p, match p with String c _ => negb (Ascii.eqb c colon) | EmptyString => true end) segs.
Lemma match_fixed pat path args :
  fixed pat = true → match_segments pat path = Some args → path = pat ∧ args = [].
Proof.
  revert path args. induction pat as [|p pat IH]; intros [|x path] args; simpl; try done; [by intros _ [= <-]|].
  rewrite andb_true_iff. intros [Hp Hpat]. destruct p as [|c p].
  - destruct (String.eqb_spec x "") as [->|]; unfold is_empty; simpl; [|by rewrite (proj2 (String.eqb_neq x "")) by done].
    intros [-> ->]%IH; done.
  - apply negb_true_iff in Hp. rewrite Hp. destruct (String.eqb_spec (String c p) x) as [<-|]; [|done].
    intros [-> ->]%IH; done.
Qed.
Lemma match_length pat path args : match_segments pat path = Some args → length path = length pat.
Proof.
  revert path args. induction pat as [|p pat IH]; intros [|x path] args; simpl; try done.
  assert (∀ o, match_segments pat path = o → is_Some o → S (length path) = S (length pat)) as Hrest.
  { intros o Ho [l ->]. by apply IH in Ho as ->. }
  destruct p as [|c p]; [|destruct (Ascii.eqb c colon)]; try destruct (is_empty x);
    try destruct (String.eqb _ x); try done; intros Hm; eapply Hrest; eauto.
  by apply fmap_Some in Hm as (l & -> & _).
Qed.
(** Two routes that are no longer than one another and both fixed are told apart by their
    segments. *)
Definition apart (r r' : string * Endpoint) : bool :=
  let s := split_on slash r.1 in let s' := split_on slash r'.1 in
  bool_decide (r = r') || negb (length s =? length s')%nat
  || (fixed s && fixed s' && bool_decide (s ≠ s')).
Lemma apart_unambiguous table :
  forallb (λ r, forallb (apart r) table) table = true → unambiguous table.
Proof.
  intros Ha path r r' args args' Hr Hr' Hm Hm'. rewrite forallb_forall in Ha.
  specialize (Ha r (proj1 (list_elem_of_In _ _) Hr)). rewrite forallb_forall in Ha.
  specialize (Ha r' (proj1 (list_elem_of_In _ _) Hr')). unfold apart, match_path in *.
  rewrite !orb_true_iff, !andb_true_iff, negb_true_iff, !bool_decide_eq_true, Nat.eqb_neq in Ha.
  destruct Ha as [[?|Hl]|[[Hf Hf'] Hne]]; [done|exfalso..].
  - apply match_length in Hm, Hm'. congruence.
  - apply match_fixed in Hm as [Hm _]; [|done]. apply match_fixed in Hm' as [Hm' _]; [|done]. congruence.
Qed.
(** No path has two routes, so the table can be built and its order does not matter. *)
Lemma routes_unambiguous : unambiguous routes.
Proof. apply apart_unambiguous. by vm_compute. Qed.

Lemma split_on_fresh c s : contains_char (Ascii.eqb c) s = false → split_on c s = [s].
Proof.
  unfold contains_char. induction s as [|a s IH]; [done|]. simpl.
  rewrite negb_false_iff, andb_true_iff, negb_true_iff. intros [Ha Hs].
  rewrite Ascii.eqb_sym, Ha, IH; [done|]. by rewrite Hs.
Qed.

(** The paths that are served: a fixed route by its own path, a job by its identifier; a
    path without a route is answered 404, and any other is not. *)
Lemma router_serves `{!AxumLaw} app req :
  (∀ pat e, (pat, e) ∈ routes → e ≠ EJobDetail → rq_path req = pat → rq_method req = GET →
     router app req = endpoint app e [] (rq_query req))
  ∧ (∀ id, rq_path req = "/v1/jobs/" ++ id → is_empty id = false →
       contains_char (Ascii.eqb slash) id = false → contains_char (Ascii.eqb "%"%char) id = false →
       rq_method req = GET →
       router app req = Answered (json_or_status JsonJob (job_detail (app_attempt app) id)))
  ∧ ((∀ r, r ∈ routes → match_path r.1 (rq_path req) = None) ↔ router app req = NoRoute).
Proof.
  assert (∀ pat e args, (pat, e) ∈ routes → match_path pat (rq_path req) = Some args →
    rq_method req = GET → router app req = endpoint app e args (rq_query req)) as Hrun.
  { intros pat e args Hin Hm Hget. unfold router.
    rewrite (proj2 (matched_spec _ _ _ _ _ routes_unambiguous) (ex_intro _ pat (conj Hin Hm))).
    by rewrite Hget. }
  split_and!.
  - intros pat e Hin He Hp. apply Hrun with pat; [done|]. rewrite Hp. unfold routes in Hin.
    repeat (apply elem_of_cons in Hin as [[= -> ->]|Hin]; [by vm_compute|]).
    by apply not_elem_of_nil in Hin.
  - intros id Hp Hne Hs Hd Hget. rewrite (Hrun "/v1/jobs/:id" EJobDetail [id]); [| |rewrite Hp|done].
    + simpl. by rewrite (decode_plain _ Hd).
    + by vm_compute; repeat constructor.
    + change (match_path "/v1/jobs/:id" ("/v1/jobs/" ++ id))
        with (match_segments [""; "v1"; "jobs"; ":id"] ("" :: "v1" :: "jobs" :: split_on slash id)).
      rewrite split_on_fresh by done. simpl. by rewrite Hne.
  - unfold router. destruct (matched _ _ _) as [[e args]|] eqn:Hm.
    + apply matched_spec in Hm as (pat & Hin & Hm); [|apply routes_unambiguous]. split.
      * intros Hno. specialize (Hno _ Hin). simpl in Hno. congruence.
      * destruct (rq_method req); [| |done]; destruct e; simpl; repeat case_match; done.
    + split; [done|]. intros _ [pat e] Hin. simpl. destruct (match_path _ _) as [args|] eqn:Hp; [|done].
      assert (matched Endpoint routes (rq_path req) = Some (e, args)) as Hx; [|congruence].
      apply matched_spec; [apply routes_unambiguous|eauto].
Qed.
End Router.

Section JobPage.
Context `{HE : Env, HU : !UuidLaw HE, HP : Prost, HC : CronLib}.
Context `{HA : Axum, HL : !AxumLaw, HF : Fts5, HJ : Json}.

(** C30: a job is never missed.  [GET /v1/jobs/<id>], for an identifier that is one segment
    of a path with nothing to decode, reads the live table, then the history, and the broker
    may serve any calls in between.  It answers with the live row of the first moment or the
    archived row of the second one, and 404 only if at one of the two moments the job was in
    neither table: a job that is archived between the two reads is found. *)
Theorem job_page_finds sv w w' c app id query :
  reachable sv w → rtc (sys_step sv) w w' → healthy (app_attempt app) c →
  sn_db (conn_snapshot c 0) = w_db w → sn_db (conn_snapshot c 1) = w_db w' →
  is_empty id = false → contains_char (Ascii.eqb slash) id = false →
  contains_char (Ascii.eqb "%"%char) id = false →
  ∃ r, router app (mkRequest GET ("/v1/jobs/" ++ id) query) = Answered r
  ∧ ((∃ d, r = mkResponse OK None (JsonJob d)
       ∧ ((∃ j, jobs (w_db w) !! id = Some j ∧ d = detail_of (raw_live id j))
          ∨ ∃ h, jobs (w_db w) !! id = None ∧ job_history (w_db w') !! id = Some h
                 ∧ d = detail_of (raw_history id h)))
     ∨ (r = mkResponse BAD_REQUEST None NoBody ∧ is_blank id = true)
     ∨ (r = mkResponse NOT_FOUND None NoBody ∧ is_blank id = false
        ∧ (unknown id w ∨ unknown id w'))).
Proof.
  intros Hr Hrun Ht H0 H1 Hne Hs Hd. eexists. split; [by apply router_serves|].
  pose proof (job_detail_finds sv w w' _ c id Hr Hrun Ht H0 H1) as Hj.
  destruct (job_detail _ id) as [d|e]; simpl; [left; eauto|right].
  destruct Hj as [[-> ?]|(-> & ? & ?)]; eauto.
Qed.
End JobPage.
