(* ===== verification/Quotas.v ===== *)
(** * Quotas over whole runs

    Two invariants of every reachable world: no rate-limit window has served more claims
    than its rule allows, and no lineage has more jobs than the quarantine cap.  Most
    handlers leave the tables of the quotas alone ([quotas]); those that move them keep the
    invariant. *)
From Stdlib Require Import Ascii String.
From S2P Require Import Prelude Text Query F64 Scheduling Db Pressure Telemetry Broker.
From S2P Require Import Lifecycle RateLimit Ingress Enqueue Leases Claim Finish Flow FlowTree.
From S2P Require Import FlowSim Retention Schedulers System.
Local Open Scope string_scope.
Local Open Scope Z_scope.

(** ** Invariants as frames *)
Definition upholds (I : Db → Prop) : relation Db := λ d d', I d → I d'.
#[export] Instance upholds_preorder I : PreOrder (upholds I).
Proof. split; unfold upholds; [by intros d|]. intros d1 d2 d3. auto. Qed.

(** The tables of the quotas and of the order of service. *)
Definition quotas (d : Db) :=
  (rate_limit_rules d, rate_limit_counters d, chain_counters d, facet_dispatch d).
Definition limits (d : Db) := (rate_limit_rules d, rate_limit_counters d).

Section QuotaFrames.
Context `{HE : Env, HP : Prost, HC : CronLib}.

Lemma quotas_limits {E A} (m : M E A) : keeps (same quotas) m → keeps (same limits) m.
Proof. apply keeps_weaken. unfold same, quotas, limits. intros d d'. congruence. Qed.
Lemma quotas_chain {E A} (m : M E A) : keeps (same quotas) m → keeps (same chain_counters) m.
Proof. apply keeps_weaken. unfold same, quotas. intros d d'. congruence. Qed.

Lemma insert_job_quotas id j d d' : insert_job id j d = Ok d' → same quotas d d'.
Proof. by intros [_ ->]%insert_job_Ok. Qed.
Lemma insert_history_quotas id h d d' : insert_history id h d = Ok d' → same quotas d d'.
Proof. by intros [_ ->]%insert_history_Ok. Qed.
Lemma insert_receipt_quotas q k r d d' : insert_receipt q k r d = Ok d' → same quotas d d'.
Proof. by intros [_ ->]%insert_receipt_Ok. Qed.
#[local] Hint Resolve insert_job_quotas insert_history_quotas insert_receipt_quotas : frames.

(** *** Handlers that leave every quota alone *)
Lemma finish_job_quotas a : keeps (same quotas) (finish_job a).
Proof.
  assert (∀ row id, keeps (same quotas) (archive_stmt row id)) as Ha.
  { intros row id. unfold archive_stmt. frame. destruct (jobs d !! id); [|by injection H as <- <-].
    destruct (insert_history _ _ _) eqn:Hi; [|done]. injection H as <- <-. eauto with frames. }
  assert (∀ row id, keeps (same quotas) (update_stmt row id)) as Hu.
  { intros row id. unfold update_stmt. frame. by injection H as <- <-. }
  assert (∀ id, keeps (same quotas) (release_stmt id)) as Hrel.
  { intros id. unfold release_stmt. frame. by injection H as <- <-. }
  assert (∀ fuel c fl an, keeps (same quotas) (cascade fuel c fl an)) as Hc.
  { induction fuel as [|fuel IH]; intros c fl an; simpl; [frame|].
    destruct fl; [|frame]. destruct an; frame. }
  unfold finish_job, finish_archived, retry_job, settle_job, child_completed. frame.
  intros w r w'. apply Hc.
Qed.

Lemma insert_node_quotas taken tree now n parent depth :
  keeps (same quotas) taken → keeps (same quotas) (insert_node taken tree now n parent depth).
Proof. intros Ht. unfold insert_node. frame. Qed.
Lemma insert_tree_quotas nodes now : keeps (same quotas) (insert_prepared_tree nodes now).
Proof. unfold insert_prepared_tree. frame. apply insert_node_quotas. frame. Qed.
#[local] Hint Resolve insert_tree_quotas : frames.

Lemma flow_quotas l flow flows parent :
  keeps (same quotas) (add_flow l flow) ∧ keeps (same quotas) (add_flow_bulk l flows)
  ∧ keeps (same quotas) (add_flow_merge l flow) ∧ keeps (same quotas) (get_children_values parent).
Proof.
  split_and!.
  - unfold add_flow. frame; try apply flow_reject_frame; try apply or_rejected_frame;
      try apply prepare_node_frame; apply _.
  - unfold add_flow_bulk. frame; try apply flow_reject_frame; try apply or_rejected_frame;
      try apply prepare_trees_frame; apply _.
  - unfold add_flow_merge, merge_body, attach_node. frame;
      try apply flow_reject_frame; try apply or_rejected_frame; try apply merge_target_frame;
      try apply merge_caps_frame; try apply _.
    + frame. apply prepare_node_frame, _.
    + apply insert_node_quotas, flow_reject_frame, _.
    + by injection H as <- <-.
    + by injection H as <- <-.
  - apply get_children_values_frame, _.
Qed.

Lemma lease_quotas duration req n :
  keeps (same quotas) (renew_lease duration req) ∧ keeps (same quotas) (recover_expired n).
Proof.
  split.
  - unfold renew_lease. frame.
  - unfold recover_expired, recover_one. frame.
    + destruct (jobs d !! s0) as [j'|]; [|by injection H0 as <-]. eauto with frames.
    + by injection H0 as <- <-.
Qed.

Lemma admin_quotas ureq sreq id f :
  keeps (same quotas) (ingress_upsert ureq) ∧ keeps (same quotas) (ingress_delete f)
  ∧ keeps (same quotas) (ingress_status f) ∧ keeps (same quotas) (rate_limit_status f)
  ∧ keeps (same quotas) (scheduler_upsert sreq) ∧ keeps (same quotas) (scheduler_delete id)
  ∧ keeps (same quotas) (scheduler_get id) ∧ keeps (same quotas) scheduler_list.
Proof.
  unfold ingress_upsert, ingress_delete, ingress_status, rate_limit_status, scheduler_upsert,
    scheduler_delete, scheduler_get, scheduler_list.
  split_and!; frame; repeat case_match; frame; by injection H as <- <-.
Qed.

(** *** Admission *)
Lemma upholds_same {X} (f : Db → X) (I : Db → Prop) {E A} (m : M E A) :
  (∀ d d', f d' = f d → I d → I d') → keeps (same f) m → keeps (upholds I) m.
Proof. intros HI. apply keeps_weaken. intros d d' Hs Hd. by eapply HI. Qed.

(** An admission keeps an invariant of the quotas that the quarantine keeps. *)
Section Admission.
Context (I : Db → Prop) (HI : ∀ d d', quotas d' = quotas d → I d → I d') (l : Limits).
Context (Hq : ∀ req now p depth t, keeps (upholds I) (quarantine l req now p depth t)).

Lemma admission_upholds req now rr : keeps (upholds I) (enqueue_one l req now rr).
Proof.
  assert (∀ E A (m : M E A), keeps (same quotas) m → keeps (upholds I) m) as Hs.
  { intros E A m. by apply upholds_same. }
  unfold enqueue_one, admit_new. frame; try (apply replay_frame || apply ancestry_frame
    || apply circuit_breaker_frame); try apply _.
  - apply Hs. eapply keeps_weaken; [|apply admit_ingress_frame].
    unfold same, but_ingress, quotas. intros d d'. congruence.
  - intros Hd. eapply HI; [|exact Hd]. by eapply insert_job_quotas.
  - apply Hs. unfold write_receipt. frame.
Qed.

Lemma record_rejection_upholds {E} now name r :
  keeps (upholds I) (record_rejection now name r : M E unit).
Proof. eapply (upholds_same quotas); [apply HI|]. unfold record_rejection. frame. Qed.

Lemma execute_batch_upholds qs prefix : keeps (upholds I) (execute_batch l qs prefix).
Proof.
  assert (∀ now i, keeps (upholds I) (batch_loop l now i qs)) as Hb.
  { intros now. induction qs as [|[q rr] qs' IH]; intros i; simpl; frame.
    apply admission_upholds. }
  unfold execute_batch. frame. apply record_rejection_upholds.
Qed.
Lemma enqueue_upholds req : keeps (upholds I) (enqueue l req).
Proof. unfold enqueue. frame. apply execute_batch_upholds. Qed.
Lemma enqueue_bulk_upholds reqs : keeps (upholds I) (enqueue_bulk l reqs).
Proof. unfold enqueue_bulk. frame. apply execute_batch_upholds. Qed.

Lemma run_once_upholds n : keeps (upholds I) (run_once l n).
Proof.
  assert (∀ row, keeps (upholds I) (fire_one l row)) as Hf.
  { intros [id r]. unfold fire_one, enqueue_scheduled. frame.
    - apply admission_upholds.
    - intros Hd. eapply HI; [|exact Hd]. done. }
  assert (∀ rows, keeps (upholds I) (fire_all l rows)) as Ha.
  { induction rows as [|row rows IH]; simpl; frame. }
  unfold run_once. frame.
Qed.
End Admission.

(** ** Rate limits *)
Definition rate_ok (d : Db) : Prop :=
  (∀ f r, rate_limit_rules d !! f = Some r → 0 ≤ r_max_jobs r) ∧ rate_limits_ok d.

Lemma rate_ok_same d d' : limits d' = limits d → rate_ok d → rate_ok d'.
Proof. unfold rate_ok, rate_limits_ok, limits. by intros [= -> ->]. Qed.
Lemma rate_ok_quotas d d' : quotas d' = quotas d → rate_ok d → rate_ok d'.
Proof. intros [= ? ? _ _]. apply rate_ok_same. unfold limits. congruence. Qed.

Lemma quarantine_rate l req now p depth t :
  keeps (upholds rate_ok) (quarantine l req now p depth t).
Proof.
  apply (upholds_same limits); [apply rate_ok_same|]. unfold quarantine, reject. frame.
Qed.

(** A claim consumes a unit only of a window that has one left. *)
Lemma consume_rate id now j w r w' :
  consume id now w = (r, w') → jobs (w_db w) !! id = Some j → blocked (w_db w) now j = false →
  rate_ok (w_db w) → rate_ok (w_db w').
Proof.
  intros Hr Hj Hb [Hr0 Hc0]. apply bind_query_inv in Hr as [->|Hr]; [done|].
  unfold consume_rule in Hr. rewrite Hj in Hr. simpl in Hr. unfold blocked in Hb.
  destruct (j_rate_limit_facet j) as [f|]; simpl in Hr; [|by injection Hr as <- <-].
  destruct (rate_limit_rules (w_db w) !! f) as [ru|] eqn:Hru; simpl in Hr;
    [|by injection Hr as <- <-].
  destruct r as [u|e]; [|by apply stmt_Err in Hr as ->]. apply execute_Ok in Hr as ->. simpl.
  split; [done|]. intros g rg c. simpl. intros Hg. destruct (decide (g = f)) as [->|Hne].
  - rewrite lookup_partial_alter_eq. intros [= <-]. rewrite Hru in Hg. injection Hg as <-.
    apply consume_counter_ok; [by eapply Hr0|done|]. intros c' Hc'. by eapply Hc0.
  - rewrite lookup_partial_alter_ne by done. by apply Hc0.
Qed.

Lemma claim_rest_limits (m : M SqlError (GetNextJobResponse * (JobState * Z * Z * Z))) w r w' :
  keeps (same limits) m → m w = (r, w') → rate_ok (w_db w) → rate_ok (w_db w').
Proof. intros Hk Hr. apply Hk in Hr as [Hs _]. by apply rate_ok_same. Qed.

Lemma keeps_run (D : relation Db) {E A} (m : M E A) w r w' :
  keeps D m → m w = (r, w') → D (w_db w) (w_db w').
Proof. intros Hk Hr. by apply Hk in Hr as [? _]. Qed.

(** After [consume] a claim leaves the rate limits alone. *)
Lemma claim_selected_limits cfg worker now id j w r w' :
  claim_selected cfg worker now id j w = (Ok r, w') →
  ∃ u w1, consume id now w = (Ok u, w1) ∧ limits (w_db w') = limits (w_db w1).
Proof.
  unfold claim_selected. intros Hr. apply bind_Ok in Hr as (u & w1 & Hc & Hr).
  exists u, w1. split; [done|]. eapply (keeps_run (same limits)); [|exact Hr]. clear.
  unfold bump_attempts. frame.
  - by repeat case_match.
  - eapply keeps_weaken; [|apply serve_facet_frame]. unfold same, limits. intros d d'. congruence.
Qed.

Lemma claim_selected_rate cfg worker now id j w r w' :
  claim_selected cfg worker now id j w = (r, w') → jobs (w_db w) !! id = Some j →
  blocked (w_db w) now j = false → rate_ok (w_db w) → rate_ok (w_db w').
Proof.
  intros Hr Hj Hb Hok. unfold claim_selected in Hr.
  apply bind_inv in Hr as (rc & w1 & Hc & Hr). eapply consume_rate in Hc; [|done..].
  destruct rc as [u|e]; [|by destruct Hr as [_ ->]].
  eapply claim_rest_limits; [|exact Hr|exact Hc]. clear. unfold bump_attempts. frame.
  - by repeat case_match.
  - eapply keeps_weaken; [|apply serve_facet_frame]. unfold same, limits. intros d d'. congruence.
Qed.

Lemma get_next_job_rate cfg req w r w' :
  get_next_job cfg req w = (r, w') → rate_ok (w_db w) → rate_ok (w_db w').
Proof.
  unfold get_next_job. destruct (is_blank _); [by intros [= <- <-]|].
  destruct (existsb _ _); [by intros [= <- <-]|]. intros [r1 Hr]%map_err_inv Hok.
  apply bind_inv in Hr as (r2 & w1 & Ht & Hr).
  assert (w_db w' = w_db w1) as ->.
  { destruct r2 as [[fl cl]|e]; [|by destruct Hr as [_ ->]].
    destruct cl as [[job [[[? ?] ?] ?]]|]; by injection Hr as <- <-. }
  apply transaction_inv in Ht as [->|(r3 & w2 & Hb & ->)]; [done|].
  apply bind_now_inv in Hb as [->|Hb]; [done|]. apply bind_query_inv in Hb as [->|Hb]; [done|].
  apply bind_query_inv in Hb as [->|Hb]; [done|]. simpl in Hb.
  destruct (claim_candidate _ _ _ _) as [[id j]|] eqn:Hsel; [|by injection Hb as <- <-].
  apply claim_candidate_claimable in Hsel as [Hj Hc]. apply claimable_inv in Hc as (_ & _ & _ & Hbl).
  apply bind_inv in Hb as (r4 & w3 & Hs & Hb). eapply claim_selected_rate in Hs; [|done..].
  destruct r4 as [x|e]; [by injection Hb as <- <-|by destruct Hb as [_ ->]].
Qed.

(** A rule is replaced together with its window. *)
Lemma rate_limit_upsert_rate req w r w' :
  0 ≤ ur_max_jobs req → rate_limit_upsert req w = (r, w') →
  rate_ok (w_db w) → rate_ok (w_db w').
Proof.
  intros Hm Hr [Hr0 Hc0]. unfold rate_limit_upsert in Hr.
  apply bind_inv in Hr as (rv & w1 & Hv & Hr). unfold lift in Hv. injection Hv as <- <-.
  destruct (validate_facet _) as [u|e]; [|by destruct Hr as [_ ->]].
  destruct (_ <=? 0); [by injection Hr as <- <-|].
  destruct r as [b|s]; [|by apply transaction_Err in Hr as ->].
  apply transaction_Ok in Hr as (w2 & Hr & ->). apply bind_Ok in Hr as (now & w3 & H3 & Hr).
  apply map_err_Ok, now_ms_Ok in H3 as [_ ->].
  destruct (i64_checked_add _ _); [|done]. inv_run Hr. split; simpl.
  - intros f ru. rewrite lookup_insert_Some. intros [[_ <-]|[_ ?]]; [done|by eapply Hr0].
  - intros f ru c. simpl. rewrite lookup_insert_Some, lookup_delete_Some.
    intros [[-> _]|[_ ?]] [Hne ?]; [done|by eapply Hc0].
Qed.

Lemma rate_limit_delete_rate f : keeps (upholds rate_ok) (rate_limit_delete f).
Proof.
  unfold rate_limit_delete. frame.
  - injection H as <- <-. intros [Hr0 Hc0]. split; simpl.
    + intros g r [_ ?]%lookup_delete_Some. by eapply Hr0.
    + intros g r c. simpl. intros [_ ?]%lookup_delete_Some ?. by eapply Hc0.
  - intros [Hr0 Hc0]. split; simpl; [done|]. intros g r c ?. simpl.
    intros [_ ?]%lookup_delete_Some. by eapply Hc0.
Qed.

Lemma sweep_limits cfg : keeps (same limits) (sweep cfg).
Proof.
  unfold sweep, sweep_blocking, sweep_body, prune_age, prune_count, prune_receipts,
    prune_chain_counters, prune_facet_dispatch, prune_rejections, when.
  frame; injection H as <- <-; done.
Qed.

(** ** Every call *)
Lemma tick_or_upholds I {E A} count (m : M E A) :
  keeps (upholds I) m → keeps (upholds I) (tick_or count m).
Proof. intros Hm. unfold tick_or. frame. Qed.

(** An invariant of the quotas that the handlers that move them keep, every call keeps. *)
Lemma call_upholds sv (I : Db → Prop) c w :
  (∀ d d', quotas d' = quotas d → I d → I d') →
  (∀ req now p depth t, keeps (upholds I) (quarantine (sv_limits sv) req now p depth t)) →
  (∀ req r w', c = GetNextJob req → get_next_job (sv_claim sv) req w = (r, w') →
     I (w_db w) → I (w_db w')) →
  (∀ req w r w', 0 ≤ ur_max_jobs req → rate_limit_upsert req w = (r, w') →
     I (w_db w) → I (w_db w')) →
  (∀ f, keeps (upholds I) (rate_limit_delete f)) →
  (c = RetentionTick → keeps (upholds I) (sweep (sv_retention sv))) →
  typed_call c → I (w_db w) → I (w_db (perform sv c w)).
Proof.
  intros HI Hq Hclaim Hup Hdel Hsweep Ht Hok.
  assert (∀ E A (m : M E A), keeps (upholds I) m → I (w_db (after m w))) as Hm.
  { intros E A m Hk. unfold after. destruct (m w) as [r w'] eqn:Hr. by apply Hk in Hr as [Hu _]; apply Hu. }
  assert (∀ E A (m : M E A), keeps (same quotas) m → keeps (upholds I) m) as Hs.
  { intros E A m. by apply upholds_same. }
  set (ru := mkUpsertRule "" 0 0). set (su := mkUpsertSched "" None None).
  destruct c; simpl.
  - by apply Hm, enqueue_upholds.
  - by apply Hm, enqueue_bulk_upholds.
  - unfold after. destruct (get_next_job _ _ _) eqn:Hr. by eapply Hclaim.
  - apply Hm, Hs. unfold complete_job. frame. apply finish_job_quotas.
  - apply Hm, Hs, finish_job_quotas.
  - apply Hm, Hs, (lease_quotas _ _ 0).
  - apply Hm, Hs, (flow_quotas _ _ [] "").
  - apply Hm, Hs, (flow_quotas _ None _ "").
  - apply Hm, Hs, (flow_quotas _ _ [] "").
  - apply Hm, Hs, (flow_quotas (sv_flow sv) None []).
  - unfold after. destruct (rate_limit_upsert _ _) eqn:Hr. eapply Hup; [|exact Hr|done].
    simpl in Ht. lia.
  - apply Hm, Hdel.
  - apply Hm, Hs, (admin_quotas ru su "").
  - apply Hm, Hs, (admin_quotas _ su "" "").
  - apply Hm, Hs, (admin_quotas ru su "").
  - apply Hm, Hs, (admin_quotas ru su "").
  - apply Hm, Hs, (admin_quotas ru _ "" "").
  - apply Hm, Hs, (admin_quotas ru su _ "").
  - apply Hm, Hs, (admin_quotas ru su _ "").
  - apply Hm, Hs, (admin_quotas ru su "" "").
  - apply Hm, tick_or_upholds, Hs, (lease_quotas 0 (mkHeartbeat "" "" 0)).
  - destruct (enabled _); [|done]. by apply Hm, tick_or_upholds, Hsweep.
  - by apply Hm, run_once_upholds.
Qed.
Lemma perform_upholds sv (I : Db → Prop) :
  (∀ d d', quotas d' = quotas d → I d → I d') →
  (∀ req now p depth t, keeps (upholds I) (quarantine (sv_limits sv) req now p depth t)) →
  (∀ req w r w', get_next_job (sv_claim sv) req w = (r, w') → I (w_db w) → I (w_db w')) →
  (∀ req w r w', 0 ≤ ur_max_jobs req → rate_limit_upsert req w = (r, w') →
     I (w_db w) → I (w_db w')) →
  (∀ f, keeps (upholds I) (rate_limit_delete f)) →
  keeps (upholds I) (sweep (sv_retention sv)) →
  ∀ c w, typed_call c → I (w_db w) → I (w_db (perform sv c w)).
Proof. intros HI Hq Hclaim Hup Hdel Hsweep c w. apply call_upholds; eauto. Qed.

(** An invariant of the empty database that every call keeps holds in every reachable
    world: restarts change no table of the quotas. *)
Lemma reachable_upholds sv (I : Db → Prop) w :
  I empty_db → (∀ d d', quotas d' = quotas d → I d → I d') →
  (∀ c w, typed_call c → I (w_db w) → I (w_db (perform sv c w))) →
  reachable sv w → I (w_db w).
Proof.
  intros H0 HI Hc Hr. unfold reachable in Hr. remember (initial sv) as w0 eqn:Hw0.
  assert (I (w_db w0)) as Hi by (subst w0; by eapply HI; [|exact H0]). clear Hw0.
  induction Hr as [|w1 w2 w3 Hs _ IH]; [done|]. apply IH. destruct Hs as [c w1 Ht|w1].
  - by apply Hc.
  - by eapply HI; [|exact Hi].
Qed.

(** ** Chain counters *)
Definition chain_ok (cap : Z) (d : Db) : Prop :=
  ∀ t c, chain_counters d !! t = Some c → 0 ≤ cc_job_count c ≤ cap.

Lemma chain_ok_same cap d d' :
  chain_counters d' = chain_counters d → chain_ok cap d → chain_ok cap d'.
Proof. unfold chain_ok. by intros ->. Qed.

(** The quarantine lets a lineage grow only below the cap. *)
Lemma quarantine_chain l req now p depth t :
  0 < max_chain_size l ≤ i64_max →
  keeps (upholds (chain_ok (max_chain_size l))) (quarantine l req now p depth t).
Proof.
  intros Hcap w r w' Hr. split.
  2:{ by apply quarantine_frame in Hr as [_ ?]. }
  intros Hok. unfold quarantine in Hr. rewrite (proj2 (Z.ltb_lt _ _)) in Hr by lia.
  apply bind_inv in Hr as (r1 & w1 & H1 & Hr). apply map_err_inv in H1 as H1'.
  destruct H1' as [r2 H1']. assert (w_db w1 = w_db w) as E1.
  { destruct r2; [by apply query_Ok in H1' as [_ ->]|by apply stmt_Err in H1' as ->]. }
  destruct r1 as [current|e]; [|destruct Hr as [_ ->]; by rewrite E1].
  apply map_err_Ok, query_Ok in H1 as [-> ->]. simpl in Hr.
  set (n := default 0 (cc_job_count <$> chain_counters (w_db w) !! t)) in *.
  assert (0 ≤ n ≤ max_chain_size l) as Hn.
  { unfold n. destruct (chain_counters (w_db w) !! t) as [c|] eqn:Hc; simpl; [by eapply Hok|lia]. }
  assert (wrap_u64 n = n) as Hwrap.
  { unfold wrap_u64. apply Z.mod_small. unfold i64_max in *. lia. }
  rewrite Hwrap in Hr. destruct (Z.leb_spec (max_chain_size l) n); [by injection Hr as _ <-|].
  apply map_err_inv in Hr as [r3 Hr]. destruct r3; [|by apply stmt_Err in Hr as ->].
  apply execute_Ok in Hr as ->. intros t' c. simpl. destruct (decide (t' = t)) as [->|].
  - rewrite lookup_partial_alter_eq. unfold bump_chain, n in *.
    destruct (chain_counters (w_db w) !! t); intros [= <-]; simpl in *; lia.
  - rewrite lookup_partial_alter_ne by done. by apply Hok.
Qed.

Lemma sweep_chain cap cfg : keeps (upholds (chain_ok cap)) (sweep cfg).
Proof.
  unfold sweep, sweep_blocking, sweep_body, prune_age, prune_count, prune_receipts,
    prune_chain_counters, prune_facet_dispatch, prune_rejections, when.
  frame; injection H as <- <-; intros Hok t c; simpl; try apply Hok.
  rewrite lookup_delete_keys. case_decide; [done|]. apply Hok.
Qed.

Lemma get_next_job_chain cfg req : keeps (same chain_counters) (get_next_job cfg req).
Proof.
  unfold get_next_job, claim_selected, bump_attempts, serve_facet, consume. frame.
  by repeat case_match.
Qed.
Lemma rate_limit_upsert_chain req : keeps (same chain_counters) (rate_limit_upsert req).
Proof. unfold rate_limit_upsert. frame. Qed.
Lemma rate_limit_delete_chain f : keeps (same chain_counters) (rate_limit_delete f).
Proof. unfold rate_limit_delete. frame. by injection H as <- <-. Qed.

(** ** Theorems *)

Lemma reachable_rate_ok sv w : reachable sv w → rate_ok (w_db w).
Proof.
  intros Hr. eapply reachable_upholds; [..|exact Hr]; [done|apply rate_ok_quotas|].
  apply perform_upholds; eauto using rate_ok_quotas, quarantine_rate, get_next_job_rate,
    rate_limit_upsert_rate, rate_limit_delete_rate.
  eapply upholds_same; [apply rate_ok_same|apply sweep_limits].
Qed.

(** What a claim of a limited job does to the counter of its facet. *)
Lemma get_next_job_consumes cfg req w r w' j f rule :
  get_next_job cfg req w = (Ok r, w') → n_found r = true → jobs (w_db w) !! n_id r = Some j →
  j_rate_limit_facet j = Some f → rate_limit_rules (w_db w) !! f = Some rule →
  let now := clock (S (w_step w)) in
  let c := rate_limit_counters (w_db w) !! f in
  rule_blocked now rule c = false
  ∧ rate_limit_counters (w_db w') !! f
    = Some (consume_counter now (r_window_duration_ms rule) c).
Proof.
  intros Hr Hfound Hj Hf Hrule. simpl. apply get_next_job_claim in Hr. simpl in Hr.
  destruct (claim_candidate _ _ _ _) as [[id j']|]; [|by destruct Hr as [-> _]].
  destruct Hr as (Hj' & (Hrun & _ & _ & Hb)%claimable_inv & w0 & x & w1 & E0 & Hc & -> & -> & _).
  pose proof Hc as Hc'. apply claim_selected_limits in Hc as (u & w7 & H7 & [= _ Hl]).
  rewrite Hl. eapply claim_selected_Ok in Hc' as (now2 & _ & _ & _ & Hres); [|by rewrite ?E0..].
  rewrite Hres in Hj. simpl in Hj. rewrite Hj' in Hj. injection Hj as ->. unfold blocked in Hb.
  rewrite Hf, Hrule in Hb. split; [done|].
  unfold consume in H7. apply bind_Ok in H7 as (ru & w8 & H8 & H7).
  apply query_Ok in H8 as [-> ->]. unfold consume_rule in H7. rewrite E0, Hj' in H7. simpl in H7.
  rewrite Hf in H7. simpl in H7. rewrite Hrule in H7. simpl in H7. apply execute_Ok in H7 as ->.
  simpl. by rewrite lookup_partial_alter_eq, E0.
Qed.

(** C20: rate limits are never exceeded.  In every reachable world the window of every facet
    that has a rule has served at most the number of jobs the rule allows.  A poll that
    serves a job of a limited facet finds a unit of the current window unused and uses
    exactly that one, unless the end of the window saturates the clock.  The status a client
    reads leaves the database alone, counts the units of the current window, and reports a
    facet as throttled exactly when a poll would skip every job of that facet at the same
    time. *)
Theorem rate_windows_never_exceeded sv w :
  reachable sv w →
  (∀ f rule now, rate_limit_rules (w_db w) !! f = Some rule →
     0 ≤ window_used (w_db w) f now ≤ r_max_jobs rule)
  ∧ (∀ req r w' j f rule, get_next_job (sv_claim sv) req w = (Ok r, w') → n_found r = true →
      jobs (w_db w) !! n_id r = Some j → j_rate_limit_facet j = Some f →
      rate_limit_rules (w_db w) !! f = Some rule →
      let now := clock (S (w_step w)) in
      window_used (w_db w) f now < r_max_jobs rule
      ∧ (now < i64_saturating_add now (r_window_duration_ms rule) →
         window_used (w_db w') f now = window_used (w_db w) f now + 1))
  ∧ ∀ f st w', rate_limit_status f w = (Ok st, w') →
      let now := clock (w_step w) in
      w_db w' = w_db w
      ∧ (rs_rule_exists st = true ↔ is_Some (rate_limit_rules (w_db w) !! f))
      ∧ (rs_rule_exists st = true → rs_current_count st = window_used (w_db w) f now)
      ∧ (∀ j, j_rate_limit_facet j = Some f → blocked (w_db w) now j = rs_is_throttled st).
Proof.
  intros [Hr0 Hc0]%reachable_rate_ok. split_and!.
  - intros f rule now Hrule. unfold window_used, counter_used. pose proof (Hr0 _ _ Hrule).
    destruct (rate_limit_counters (w_db w) !! f) as [c|] eqn:Hc; [|lia].
    destruct (Hc0 _ _ _ Hrule Hc). destruct (_ <? _); lia.
  - intros req r w' j f rule Hr Hf Hj Hfac Hrule. simpl.
    destruct (get_next_job_consumes _ _ _ _ _ _ _ _ Hr Hf Hj Hfac Hrule) as [Hb Hc].
    unfold window_used. rewrite Hc. split.
    + apply not_blocked_free; [by eapply Hr0|done].
    + apply consume_uses_one.
  - intros f st w' Hst. apply (status_reports_block _ _ _ _ Hst). intros r Hrule.
    by apply (Hr0 f).
Qed.

(** With the quarantine enabled, in every reachable world no counter of a lineage exceeds
    the cap. *)
Lemma chain_counters_capped sv w :
  0 < max_chain_size (sv_limits sv) ≤ i64_max → reachable sv w →
  chain_ok (max_chain_size (sv_limits sv)) (w_db w).
Proof.
  intros Hcap Hr. set (cap := max_chain_size (sv_limits sv)).
  assert (∀ d d', quotas d' = quotas d → chain_ok cap d → chain_ok cap d') as HI.
  { intros d d' [= _ _ ? _]. by apply chain_ok_same. }
  eapply reachable_upholds; [..|exact Hr]; [done|done|].
  apply perform_upholds; [done|by intros; apply quarantine_chain|..|apply sweep_chain].
  - intros req w0 r w0' [? _]%get_next_job_chain. by apply chain_ok_same.
  - intros req w0 r w0' _ [? _]%rate_limit_upsert_chain. by apply chain_ok_same.
  - intros f. eapply upholds_same; [apply chain_ok_same|apply rate_limit_delete_chain].
Qed.
End QuotaFrames.
