(* ===== verification/Fairness.v ===== *)
(** * Fair dispatch over whole runs

    With fairness on, a poll prefers among the jobs of equal priority those whose facet was
    served longest ago: [facet_dispatch] holds for every facet the number of its last
    service.  This file follows the numbers along runs of the broker and shows that
    facets take turns. *)
From Stdlib Require Import Ascii String.
From S2P Require Import Prelude Text Query F64 Scheduling Db Pressure Telemetry Broker.
From S2P Require Import Lifecycle RateLimit Ingress Enqueue Leases Claim Finish Flow FlowTree.
From S2P Require Import FlowSim Retention Schedulers System Quotas.
Local Open Scope string_scope.
Local Open Scope Z_scope.

(** The number of the last service of a facet, 0 for one that was never served. *)
Definition rank (d : Db) (f : string) : Z :=
  default 0 (fd_last_served_seq <$> facet_dispatch d !! f).
(** Services are numbered from 1. *)
Definition ranked (d : Db) : Prop :=
  ∀ f r, facet_dispatch d !! f = Some r → 0 < fd_last_served_seq r.

Lemma ranked_same d d' : facet_dispatch d' = facet_dispatch d → ranked d → ranked d'.
Proof. unfold ranked. by intros ->. Qed.
Lemma ranked_nonneg d f : ranked d → 0 ≤ rank d f.
Proof.
  intros Hd. unfold rank. destruct (facet_dispatch d !! f) as [r|] eqn:Hf; simpl; [|lia].
  apply Hd in Hf. lia.
Qed.
(** The next number is greater than every number given. *)
Lemma rank_lt_next d f : ranked d → rank d f < next_seq d.
Proof.
  intros Hd. destruct (facet_dispatch d !! f) as [r|] eqn:Hf.
  - unfold rank. rewrite Hf. by eapply next_seq_gt.
  - unfold rank. rewrite Hf. simpl.
    destruct (decide (facet_dispatch d = ∅)) as [He|He].
    { unfold next_seq. rewrite He, map_to_list_empty. simpl. lia. }
    apply map_choose in He as (g & r & Hg). apply Hd in Hg as Hp. apply next_seq_gt in Hg. lia.
Qed.

(** [d'] is [d] after a service of [f]. *)
Definition served_now (f : string) (d d' : Db) : Prop :=
  ∃ now, facet_dispatch d' = <[f := mkFacet (next_seq d) now]> (facet_dispatch d).
Lemma served_rank f d d' : served_now f d d' → rank d' f = next_seq d.
Proof. intros [now Hd]. unfold rank. by rewrite Hd, lookup_insert_eq. Qed.
Lemma served_rank_ne f g d d' : served_now f d d' → f ≠ g → rank d' g = rank d g.
Proof. intros [now Hd] Hne. unfold rank. by rewrite Hd, lookup_insert_ne. Qed.
Lemma served_ranked f d d' : served_now f d d' → ranked d → ranked d'.
Proof.
  intros [now Hd] Hr g r. rewrite Hd, lookup_insert_Some. intros [[_ <-]|[_ Hg]]; [|by eapply Hr].
  simpl. pose proof (rank_lt_next d f Hr). pose proof (ranked_nonneg d f Hr). lia.
Qed.

Section Fairness.
Context `{HE : Env, HU : !UuidLaw HE, HP : Prost, HC : CronLib}.

(** ** One claim *)
Lemma serve_facet_Ok id now w u w' :
  serve_facet id now w = (Ok u, w') →
  ∃ j, jobs (w_db w) !! id = Some j ∧ served_now (facet_key j) (w_db w) (w_db w').
Proof.
  unfold serve_facet. intros Hr. apply bind_Ok in Hr as (fo & w1 & H1 & Hr).
  apply query_Ok in H1 as [-> ->]. destruct (jobs (w_db w) !! id) as [j|]; [|done]. simpl in Hr.
  apply bind_Ok in Hr as (sq & w2 & H2 & Hr). apply query_Ok in H2 as [-> ->].
  apply execute_Ok in Hr as ->. exists j. split; [done|]. by exists now.
Qed.

Lemma claim_selected_serves cfg worker now id j w r w' :
  fairness_enabled cfg = true → claim_selected cfg worker now id j w = (Ok r, w') →
  jobs (w_db w) !! id = Some j → served_now (facet_key j) (w_db w) (w_db w').
Proof.
  intros Hf Hr Hj. unfold claim_selected in Hr. rewrite Hf in Hr.
  apply bind_Ok in Hr as (u & w1 & H1 & Hr). apply consume_frame in H1 as [[= E1 _ _ E2] _].
  apply bind_Ok in Hr as (row & w2 & H2 & Hr). apply query_Ok in H2 as [-> ->].
  rewrite E1, Hj in Hr. destruct (j_available_at j) as [at_|]; [|done].
  apply bind_Ok in Hr as (att & w3 & H3 & Hr). unfold bump_attempts in H3.
  destruct (_ <=? _); [|done]. injection H3 as <- <-.
  apply bind_Ok in Hr as (now2 & w4 & H4 & Hr). apply now_ms_Ok in H4 as [_ ->].
  apply bind_Ok in Hr as (u2 & w5 & H5 & Hr). apply execute_Ok in H5 as ->. simpl in Hr.
  apply bind_Ok in Hr as (u3 & w6 & H6 & Hr). injection Hr as <- <-.
  apply serve_facet_Ok in H6 as (j' & Hj' & [now' Hs]). simpl in *. rewrite E1, Hj in Hj', Hs.
  exists now'.
  destruct (runnable (j_state j)); simpl in Hj', Hs; unfold next_seq in *; simpl in Hs;
    rewrite E2 in Hs; rewrite ?E1, ?lookup_alter_eq, Hj in Hj'; by injection Hj' as <-.
Qed.

Lemma get_next_job_serves cfg req w r w' :
  fairness_enabled cfg = true → get_next_job cfg req w = (r, w') →
  match r with
  | Ok a => if n_found a
            then ∃ j, jobs (w_db w) !! n_id a = Some j ∧ served_now (facet_key j) (w_db w) (w_db w')
            else w_db w' = w_db w
  | Err _ => w_db w' = w_db w
  end.
Proof.
  intros Hf Hr. destruct r as [a|e].
  2:{ unfold get_next_job in Hr. destruct (is_blank _); [by injection Hr as <- <-|].
      destruct (existsb _ _); [by injection Hr as <- <-|]. apply map_err_Err in Hr as (e' & Hr & _).
      apply bind_Err in Hr as [Hr|([fl cl] & w1 & _ & Hr)]; [by apply transaction_Err in Hr as ->|].
      destruct cl as [[job [[[? ?] ?] ?]]|]; by inv_run Hr. }
  apply get_next_job_claim in Hr. simpl in Hr.
  destruct (claim_candidate _ _ _ _) as [[id j]|]; [|by destruct Hr as [-> ->]].
  destruct Hr as (Hj & (Hrun & _)%claimable_inv & w0 & x & w1 & E0 & Hc & -> & -> & _).
  pose proof Hc as Hc'. apply claim_selected_serves in Hc; [|done|by rewrite E0].
  eapply claim_selected_Ok in Hc' as (now2 & _ & _ & _ & Hres); [|by rewrite ?E0..].
  rewrite Hres. simpl. rewrite E0 in Hc. eauto.
Qed.

(** ** Runs *)

(** The facet a call serves. *)
Definition served (sv : Service) (c : Call) (w : World) : option string :=
  match c with
  | GetNextJob req =>
      match (get_next_job (sv_claim sv) req w).1 with
      | Ok a => if n_found a then facet_key <$> jobs (w_db w) !! n_id a else None
      | Err _ => None
      end
  | _ => None
  end.

Lemma perform_served sv c w :
  fairness_enabled (sv_claim sv) = true → typed_call c → prunes c = false →
  match served sv c w with
  | Some f => served_now f (w_db w) (w_db (perform sv c w))
  | None => facet_dispatch (w_db (perform sv c w)) = facet_dispatch (w_db w)
  end.
Proof.
  intros Hf Ht Hp. destruct (served sv c w) as [f|] eqn:Hs.
  - destruct c; try done. simpl in *. unfold after.
    destruct (get_next_job (sv_claim sv) req w) as [r w'] eqn:Hr.
    apply get_next_job_serves in Hr; [|done]. destruct r as [a|e]; [|done]. simpl in *.
    destruct (n_found a); [|done]. destruct Hr as (j & Hj & Hn). rewrite Hj in Hs.
    by injection Hs as <-.
  - apply (call_upholds sv (λ d, facet_dispatch d = facet_dispatch (w_db w))); try done.
    + intros d d' [= _ _ _ E]. by rewrite E.
    + intros req now p depth t. apply (upholds_same facet_dispatch).
      * intros d d' ->. done.
      * unfold quarantine, reject. frame.
    + intros req r w' -> Hr. simpl in Hs. rewrite Hr in Hs. apply get_next_job_serves in Hr; [|done].
      simpl in Hs. destruct r as [a|e]; [|by rewrite Hr]. destruct (n_found a); [|by rewrite Hr].
      destruct Hr as (j & Hj & _). by rewrite Hj in Hs.
    + intros req w0 r w' _ Hr Hd. rewrite <-Hd.
      eapply (keeps_run (same facet_dispatch)); [|exact Hr]. unfold rate_limit_upsert. frame.
    + intros f. apply (upholds_same facet_dispatch); [by intros d d' ->|].
      unfold rate_limit_delete. frame. by injection H as <- <-.
    + intros ->. done.
Qed.

Lemma sweep_ranked cfg : keeps (upholds ranked) (sweep cfg).
Proof.
  unfold sweep, sweep_blocking, sweep_body, prune_age, prune_count, prune_receipts,
    prune_chain_counters, prune_facet_dispatch, prune_rejections, when.
  frame; injection H as <- <-; intros Hok f r; simpl; try apply Hok.
  rewrite lookup_delete_keys. case_decide; [done|]. apply Hok.
Qed.
Lemma perform_ranked sv c w :
  fairness_enabled (sv_claim sv) = true → typed_call c → ranked (w_db w) →
  ranked (w_db (perform sv c w)).
Proof.
  intros Hf Ht Hr. destruct (prunes c) eqn:Hp.
  - destruct c; try done. simpl. destruct (enabled _); [|done]. unfold after.
    destruct (tick_or _ _ _) as [r w'] eqn:Hrun.
    eapply (keeps_run (upholds ranked)) in Hrun; [by apply Hrun|].
    apply tick_or_upholds, sweep_ranked.
  - pose proof (perform_served sv c w Hf Ht Hp) as Hs. destruct (served sv c w).
    + by eapply served_ranked.
    + by eapply ranked_same.
Qed.
Lemma reachable_ranked sv w :
  fairness_enabled (sv_claim sv) = true → reachable sv w → ranked (w_db w).
Proof.
  intros Hf Hr. eapply (reachable_upholds sv ranked); [done| | |exact Hr].
  - intros d d' [= _ _ _ ?]. by apply ranked_same.
  - intros c w0 ? ?. by apply perform_ranked.
Qed.

(** A run without a pass of the retention loop, with the facets it serves, in order. *)
Inductive dispatches (sv : Service) : World → list string → World → Prop :=
| DDone w : dispatches sv w [] w
| DCall c w fs w' :
    typed_call c → prunes c = false → dispatches sv (perform sv c w) fs w' →
    dispatches sv w (option_list (served sv c w) ++ fs) w'
| DRestart w fs w' : dispatches sv (restart sv w) fs w' → dispatches sv w fs w'.

Section Turns.
Context (sv : Service) (Hfair : fairness_enabled (sv_claim sv) = true).

(** The number of a facet never falls, and rises only when the facet is served. *)
Lemma dispatches_rank w fs w' f :
  dispatches sv w fs w' → ranked (w_db w) →
  ranked (w_db w') ∧ rank (w_db w) f ≤ rank (w_db w') f
  ∧ (f ∉ fs → rank (w_db w') f = rank (w_db w) f).
Proof.
  induction 1 as [w|c w fs w' Ht Hp _ IH|w fs w' _ IH]; intros Hr; [done| |].
  - destruct (IH (perform_ranked _ _ _ Hfair Ht Hr)) as (Hr' & Hle & Heq).
    pose proof (perform_served sv c w Hfair Ht Hp) as Hs. split; [done|].
    destruct (served sv c w) as [g|]; simpl.
    + pose proof (rank_lt_next (w_db w) f Hr). destruct (decide (g = f)) as [->|Hne].
      * rewrite (served_rank _ _ _ Hs) in *. split; [lia|]. intros Hin. by destruct Hin; left.
      * rewrite (served_rank_ne _ f _ _ Hs) in * by done. split; [done|].
        intros Hin. apply Heq. intros ?. apply Hin. by right.
    + unfold rank in *. by rewrite Hs in *.
  - by apply IH.
Qed.

(** A service of [f] in a run puts it behind the facets that are not served after it. *)
Lemma dispatches_behind w fs w' xs f ys g :
  dispatches sv w fs w' → ranked (w_db w) → fs = (xs ++ f :: ys)%list → f ≠ g → g ∉ ys →
  rank (w_db w') g < rank (w_db w') f.
Proof.
  intros Hd. revert xs. induction Hd as [w|c w fs w' Ht Hp Hd IH|w fs w' _ IH]; intros xs Hr Hfs Hne Hg.
  - by destruct xs.
  - pose proof (perform_ranked _ _ _ Hfair Ht Hr) as Hr1.
    pose proof (perform_served sv c w Hfair Ht Hp) as Hs.
    destruct (served sv c w) as [h|] eqn:Hc; simpl in Hfs; [|by eapply IH].
    destruct xs as [|x xs]; simplify_eq/=; [|by eapply IH].
    destruct (dispatches_rank _ _ _ f Hd Hr1) as (_ & Hle & _).
    destruct (dispatches_rank _ _ _ g Hd Hr1) as (_ & _ & Heq).
    rewrite (Heq Hg), (served_rank_ne _ g _ _ Hs) by done.
    rewrite (served_rank _ _ _ Hs) in Hle. pose proof (rank_lt_next (w_db w) g Hr). lia.
  - by eapply IH.
Qed.
End Turns.

(** C7: facets take turns.  With fairness on, take any run of the broker without a pass of
    retention, restarts and failing statements included, and the facets its polls serve, in
    order.  When a poll then serves facet [f] although a job of another facet [g] with the
    same or a more urgent priority was claimable, [g] was served since every earlier
    service of [f] in the run: no facet is served twice while another one waits. *)
Theorem facets_take_turns sv w fs w' req f id j :
  fairness_enabled (sv_claim sv) = true → reachable sv w → dispatches sv w fs w' →
  served sv (GetNextJob req) w' = Some f →
  jobs (w_db w') !! id = Some j →
  claimable (w_db w') (gn_queue_names req) (clock (S (w_step w'))) id j = true →
  (∀ r w'' j', get_next_job (sv_claim sv) req w' = (Ok r, w'') →
     jobs (w_db w') !! n_id r = Some j' → j_priority j ≤ j_priority j') →
  facet_key j ≠ f →
  ∀ xs ys, fs = (xs ++ f :: ys)%list → facet_key j ∈ ys.
Proof.
  intros Hfair Hr Hd Hs Hj Hc Hp Hne xs ys Hfs.
  destruct (decide (facet_key j ∈ ys)) as [|Hni]; [done|exfalso].
  eapply (dispatches_behind sv Hfair _ _ _ xs f ys (facet_key j)) in Hd; [|by eapply reachable_ranked|done..].
  simpl in Hs. destruct (get_next_job _ _ _) as [[r|e] w''] eqn:Hg; [|done]. simpl in Hs.
  destruct (n_found r) eqn:Hn; [|done]. apply get_next_job_Ok in Hg as Hsel.
  destruct (claim_candidate _ _ _ _) as [[id0 j0]|] eqn:Hcand; [|by destruct Hsel as [-> _]].
  destruct Hsel as (now & _ & _ & _ & ->). simpl in *.
  destruct (claim_candidate_claimable _ _ _ _ _ _ Hcand) as [Hj0 _]. rewrite Hj0 in Hs.
  injection Hs as <-. specialize (Hp _ _ _ eq_refl Hj0).
  pose proof (claim_candidate_least _ _ _ _ _ _ _ _ Hcand Hj Hc) as Hle.
  rewrite Hfair in Hle. unfold key_le in Hle. simpl in Hle. unfold served_seq in Hle.
  fold (rank (w_db w') (facet_key j0)) (rank (w_db w') (facet_key j)) in Hle.
  destruct Hle as [Hle|[Hle _]]; [|injection Hle as ? ? _; lia].
  rewrite !orb_true_iff, !andb_true_iff, !Z.ltb_lt, !Z.eqb_eq in Hle. lia.
Qed.
End Fairness.
