(* ===== verification/Drain.v ===== *)
(** * Abandoned claims come back

    The recovery loop takes expired claims in batches, the oldest leases first.  This file
    shows that it keeps up: while statements do not fail and the clock does not go back,
    every claim that is over at some moment is recovered within as many passes as its
    batches need. *)
From Stdlib Require Import Ascii String.
From S2P Require Import Prelude Text Query F64 Scheduling Db Pressure Telemetry Broker.
From S2P Require Import Lifecycle RateLimit Ingress Enqueue Leases Claim Finish Flow FlowTree.
From S2P Require Import FlowSim Retention Schedulers System.
Local Open Scope string_scope.
Local Open Scope Z_scope.

(** ** Prefixes of sorted lists *)
Lemma filter_none {A} (P : A → Prop) `{!∀ x, Decision (P x)} l :
  (∀ x, x ∈ l → ¬ P x) → base.filter P l = [].
Proof.
  induction l as [|x l IH]; intros Hn; [done|]. rewrite list.filter_cons, decide_False.
  - apply IH. intros y Hy. apply Hn. by right.
  - apply Hn. by left.
Qed.
(** When what satisfies [P] comes first, a prefix holds as much of it as it can. *)
Lemma filter_take_sorted {A} (R : relation A) (P : A → Prop) `{!∀ x, Decision (P x)} l n :
  (∀ x y, x ∈ l → y ∈ l → R x y → P y → P x) → StronglySorted R l →
  (Nat.min n (length (base.filter P l)) ≤ length (base.filter P (take n l)))%nat.
Proof.
  intros Hdown Hs. revert n Hdown. induction Hs as [|x l Hs IH Hall]; intros n Hdown; [by destruct n|].
  destruct n as [|n]; [simpl; lia|]. simpl. rewrite !list.filter_cons. case_decide as Hx.
  - simpl. specialize (IH n). assert (∀ x y, x ∈ l → y ∈ l → R x y → P y → P x) as Hd.
    { intros y z Hy Hz. apply Hdown; by right. }
    specialize (IH Hd). lia.
  - rewrite (filter_none P l); [simpl; lia|]. intros y Hy HPy. rewrite list.Forall_forall in Hall.
    apply Hx. eapply (Hdown x y); [by left|by right|by apply Hall|done].
Qed.

(** ** One pass *)

(** The claims that are over at [t]. *)
Abbreviation stale t d := (rows_where (expired t) (jobs d)).

Lemma expired_later t t' id j : t ≤ t' → expired t id j = true → expired t' id j = true.
Proof.
  unfold expired, due_by. intros Ht. rewrite !andb_true_iff. intros [Hs He]. split; [done|].
  destruct (j_lease_expires_at_ms j); [|done]. apply Z.leb_le in He. apply Z.leb_le. lia.
Qed.
(** The oldest leases come first. *)
Lemma expiry_first t now (x y : string * Job) :
  key_of_le expiry_key x y → expired now x.1 x.2 = true → expired now y.1 y.2 = true →
  expired t y.1 y.2 = true → expired t x.1 x.2 = true.
Proof.
  unfold key_of_le, key_le, expiry_key, expired, due_by. simpl. rewrite !andb_true_iff.
  intros Hle [Hs Hx] [_ Hy] [_ Hty]. split; [done|].
  destruct (j_lease_expires_at_ms x.2) as [ex|], (j_lease_expires_at_ms y.2) as [ey|]; try done.
  simpl in Hle. apply Z.leb_le in Hty. apply Z.leb_le. destruct Hle as [Hle|[[= ->] _]]; [|done].
  rewrite orb_true_iff, andb_true_iff, Z.ltb_lt in Hle. naive_solver lia.
Qed.

Section Drain.
Context `{HE : Env, HU : !UuidLaw HE, HP : Prost, HC : CronLib}.

(** Without faults every job of a batch is recovered. *)
Lemma try_execute_calm f w d :
  calm w → f (w_db w) = Ok d → try_execute f w = (Ok tt, mkWorld d (w_metrics w) (S (w_step w))).
Proof. intros Hc Hf. unfold try_execute, stmt. by rewrite Hc, Hf. Qed.
Lemma recover_one_calm now id j w :
  calm w → jobs (w_db w) !! id = Some j → job_history (w_db w) !! id = None →
  ∃ k w', recover_one now (id, j) w = (Ok k, w') ∧ calm w'.
Proof.
  intros Hc Hj Hh. unfold recover_one. destruct (_ <? _).
  - erewrite bind_run by (by apply execute_calm). do 2 eexists. split; [done|].
    eapply calm_step; [exact Hc|simpl; lia].
  - erewrite bind_run; [|apply try_execute_calm; [done|rewrite Hj; by apply insert_history_Ok]].
    set (w1 := mkWorld _ _ _). assert (calm w1) as Hc1 by (eapply calm_step; [exact Hc|simpl; lia]).
    erewrite bind_run by (by apply execute_calm). set (w2 := mkWorld _ _ _).
    assert (calm w2) as Hc2 by (eapply calm_step; [exact Hc1|simpl; lia]).
    unfold stmt. rewrite Hc2 by done. destruct (release_receipts id (w_db w2)) as [k d].
    do 2 eexists. split; [done|]. eapply calm_step; [exact Hc2|simpl; lia].
Qed.
Lemma recover_loop_calm now n rows w :
  calm w → NoDup rows.*1 →
  Forall (λ r : string * Job, jobs (w_db w) !! r.1 = Some r.2 ∧ job_history (w_db w) !! r.1 = None) rows →
  ∃ m w', fold_m (λ n row, let? k := recover_one now row in mret (n + k)%nat) n rows w = (Ok m, w')
          ∧ calm w'.
Proof.
  revert n w. induction rows as [|[id j] rows IH]; intros n w Hc Hnd Hall; simpl in *; [eauto|].
  apply list.NoDup_cons in Hnd as [Hni Hnd]. apply list.Forall_cons in Hall as [[Hj Hh] Hall].
  destruct (recover_one_calm now id j w) as (k & w1 & H1 & Hc1); [done..|].
  erewrite bind_run; [|by erewrite bind_run]. apply IH; [done..|].
  apply recover_one_Ok in H1 as [_ H1]; [|done]. apply list.Forall_forall. intros [i x] Hin. simpl.
  rewrite list.Forall_forall in Hall. destruct (Hall _ Hin) as [Hx Hx'].
  assert (i ≠ id). { intros ->. apply Hni, list_elem_of_fmap. by exists (id, x). }
  simpl in *. destruct (_ <? _); destruct H1 as [-> ->];
    by rewrite ?lookup_insert_ne, ?lookup_delete_ne by done.
Qed.
Lemma recover_expired_calm n w :
  calm w → (∀ id j, jobs (w_db w) !! id = Some j → job_history (w_db w) !! id = None) →
  ∃ k w', recover_expired n w = (Ok k, w') ∧ calm w'.
Proof.
  intros Hc Hd. assert (calm (tick w)) as Hc1 by (eapply calm_step; [exact Hc|simpl; lia]).
  assert (calm (tick (tick w))) as Hc2 by (eapply calm_step; [exact Hc|simpl; lia]).
  assert (calm (tick (tick (tick w)))) as Hc3 by (eapply calm_step; [exact Hc|simpl; lia]).
  set (now := clock (w_step (tick w))). set (batch := expired_batch now n (w_db w)).
  destruct (recover_loop_calm now 0 batch (tick (tick (tick w)))) as (m & w1 & H1 & Hc4);
    [done|apply expired_batch_NoDup| |].
  { apply list.Forall_forall. intros [id j] (Hj & _)%expired_batch_spec. simpl. eauto. }
  unfold recover_expired. unfold map_err.
  erewrite bind_run; [|eapply transaction_calm; [done| |exact Hc4]].
  2:{ erewrite bind_run by (by apply now_calm). erewrite bind_run by (by apply query_calm).
      by rewrite (bind_run _ _ _ _ _ H1). }
  do 2 eexists. split; [done|]. eapply calm_step; [exact Hc4|simpl; lia].
Qed.

Lemma recover_tick_calm sv w :
  calm w → (∀ id j, jobs (w_db w) !! id = Some j → job_history (w_db w) !! id = None) →
  ∃ k w', recover_expired (sv_recovery_batch sv) w = (Ok k, w') ∧ calm w'
          ∧ (w_step w ≤ w_step w')%nat ∧ perform sv RecoverTick w = w'.
Proof.
  intros Hc Hd. destruct (recover_expired_calm (sv_recovery_batch sv) w) as (k & w' & Hr & Hc'); [done..|].
  exists k, w'. split_and!; [done|done| |].
  - assert (keeps any (recover_expired (sv_recovery_batch sv))) as Hk.
    { unfold recover_expired. frame. apply recover_one_frame. }
    by apply Hk in Hr as [_ ?].
  - unfold perform, after, tick_or. erewrite (bind_run _ _ _ (Ok k) w'); [done|].
    unfold attempt. by rewrite Hr.
Qed.

Lemma retried_not_expired t now id j : expired t id (recovered_retry now j) = false.
Proof.
  unfold expired. apply andb_false_iff. left. unfold recovered_retry.
  pose proof (delay_state_runnable (job_retry_delay j)) as Hs. revert Hs.
  generalize (job_retry_delay j). intros n Hs. unfold retry_row. cbn.
  by destruct (delay_state n).
Qed.
(** The claims over at [t] that a pass leaves are among those it found, without its batch. *)
Lemma pass_stale t n w k w' :
  0 ≤ n ≤ i64_max → recover_expired n w = (Ok k, w') →
  let batch := expired_batch (clock (S (w_step w))) n (w_db w) in
  ∀ r, r ∈ stale t (w_db w') → r ∈ stale t (w_db w) ∧ r.1 ∉ batch.*1.
Proof.
  intros Hn Hr batch [id j] [Hj He]%elem_of_rows_where. simpl.
  destruct (recovered_pass _ _ _ _ Hn Hr) as (_ & _ & Hin & Hout & _).
  fold batch in Hin, Hout. destruct (decide (id ∈ batch.*1)) as [Hb|Hb].
  - apply list_elem_of_fmap in Hb as ([i x] & -> & Hb). cbn [fst] in *.
    destruct (Hin _ _ Hb) as (_ & _ & Hx). destruct (_ <? _).
    + rewrite Hx in Hj. injection Hj as <-. by rewrite retried_not_expired in He.
    + destruct Hx as [Hx _]. by rewrite Hx in Hj.
  - split; [|done]. destruct (Hout _ Hb) as [E _]. apply elem_of_rows_where. by rewrite <-E.
Qed.
(** A pass takes a full batch of them, or all. *)
Lemma pass_takes t n w :
  0 ≤ n ≤ i64_max → t ≤ clock (S (w_step w)) →
  Z.min n (Z.of_nat (length (stale t (w_db w))))
  ≤ Z.of_nat (length (base.filter (λ r : string * Job, expired t r.1 r.2 = true)
                        (expired_batch (clock (S (w_step w))) n (w_db w)))).
Proof.
  intros Hn Ht. set (now := clock (S (w_step w))) in *. set (P := λ r : string * Job, expired t r.1 r.2 = true).
  set (l := order_by expiry_key (stale now (w_db w))).
  assert (∀ r, r ∈ l → expired now r.1 r.2 = true) as Hl.
  { intros [id j] Hin%elem_of_order_by%elem_of_rows_where. by destruct Hin. }
  assert (length (base.filter P l) = length (stale t (w_db w))) as <-.
  { apply Permutation_length. unfold l, order_by. rewrite merge_sort_Permutation.
    unfold rows_where. rewrite list_filter_filter. apply reflexive_eq, list_filter_iff.
    intros [id j]. simpl. unfold P. simpl. rewrite !Is_true_true. split; [tauto|].
    intros He. split; [done|]. by eapply expired_later. }
  unfold expired_batch. rewrite wrap_i64_id by (unfold in_i64, i64_min, i64_max in *; lia).
  unfold sql_limit. fold l. destruct (Z.ltb_spec n 0); [lia|].
  assert ((Nat.min (Z.to_nat n) (length (base.filter P l))
           ≤ length (base.filter P (take (Z.to_nat n) l)))%nat) as Hle; [|lia].
  apply (filter_take_sorted (key_of_le expiry_key)).
  - intros x y Hx Hy Hk HPy. by eapply expiry_first; [exact Hk|apply Hl..|].
  - apply StronglySorted_merge_sort; apply _.
Qed.

Lemma pass_count t sv w :
  reachable sv w → calm w → 0 ≤ sv_recovery_batch sv ≤ i64_max → t ≤ clock (S (w_step w)) →
  let w' := perform sv RecoverTick w in
  calm w' ∧ (w_step w ≤ w_step w')%nat
  ∧ Z.of_nat (length (stale t (w_db w')))
    ≤ Z.max 0 (Z.of_nat (length (stale t (w_db w))) - sv_recovery_batch sv).
Proof.
  intros Hre Hc Hn Ht. cbv zeta. destruct (reachable_implements sv w Hre) as (s & _ & Hi).
  destruct (recover_tick_calm sv w) as (k & w' & Hr & Hc' & Hle & ->); [done| |].
  { intros id j. by eapply implements_disjoint. }
  split_and!; [done|done|].
  set (batch := expired_batch (clock (S (w_step w))) (sv_recovery_batch sv) (w_db w)).
  set (taken := base.filter (λ r : string * Job, expired t r.1 r.2 = true) batch).
  assert (∀ r, r ∈ taken → r ∈ stale t (w_db w) ∧ r.1 ∈ batch.*1) as Htaken.
  { intros [id j] [He Hb]%list_elem_of_filter. apply expired_batch_spec in Hb as Hj.
    split; [apply elem_of_rows_where; by destruct Hj|by apply (list_elem_of_fmap_2 fst)]. }
  pose proof (pass_stale t _ _ _ _ Hn Hr) as Hleft. fold batch in Hleft.
  assert (taken ++ stale t (w_db w') ⊆+ stale t (w_db w))%list as Hsub.
  { apply NoDup_submseteq.
    - apply list.NoDup_app. split_and!.
      + apply list.NoDup_filter. eapply NoDup_fmap_1, expired_batch_NoDup.
      + intros r [_ Hb]%Htaken [_ Hb']%Hleft. done.
      + eapply NoDup_fmap_1, rows_where_NoDup.
    - intros r [Hin|Hin]%elem_of_app; [by apply Htaken|by apply Hleft]. }
  apply submseteq_length in Hsub. rewrite length_app in Hsub.
  pose proof (pass_takes t (sv_recovery_batch sv) w Hn Ht) as Htk. fold batch taken in Htk. lia.
Qed.

Lemma passes_count t sv k w :
  reachable sv w → calm w → 0 ≤ sv_recovery_batch sv ≤ i64_max →
  (∀ n m, (n ≤ m)%nat → clock n ≤ clock m) → t ≤ clock (w_step w) →
  let w' := Nat.iter k (perform sv RecoverTick) w in
  reachable sv w' ∧ calm w' ∧ t ≤ clock (w_step w')
  ∧ Z.of_nat (length (stale t (w_db w')))
    ≤ Z.max 0 (Z.of_nat (length (stale t (w_db w))) - Z.of_nat k * sv_recovery_batch sv).
Proof.
  intros Hre Hc Hn Hm Ht. cbv zeta. induction k as [|k IH]; [cbn; split_and!; try done; lia|].
  rewrite Nat2Z.inj_succ, Z.mul_succ_l.
  change (Nat.iter (S k) (perform sv RecoverTick) w)
    with (perform sv RecoverTick (Nat.iter k (perform sv RecoverTick) w)).
  destruct IH as (Hre1 & Hc1 & Ht1 & Hlen). set (w1 := Nat.iter k _ w) in *.
  destruct (pass_count t sv w1) as (Hc2 & Hle & Hlen2); [done..| |].
  { pose proof (Hm (w_step w1) (S (w_step w1)) ltac:(lia)). lia. }
  split_and!; [by apply (reachable_call sv RecoverTick)|done| |lia].
  pose proof (Hm _ _ Hle). lia.
Qed.

(** C9: abandoned claims come back.  While statements do not fail and the clock does not go
    back, a claim whose lease is over is recovered by the loop within as many passes as
    batches are needed for all such claims: after [k] passes with [n <= k * batch], where
    [n] claims were over at the start, none of them is left, whatever has expired in the
    meantime. *)
Theorem recovery_drains sv k w :
  reachable sv w → calm w → (∀ n m, (n ≤ m)%nat → clock n ≤ clock m) →
  0 < sv_recovery_batch sv ≤ i64_max →
  let t := clock (w_step w) in
  Z.of_nat (length (rows_where (expired t) (jobs (w_db w)))) ≤ Z.of_nat k * sv_recovery_batch sv →
  ∀ id j, jobs (w_db (Nat.iter k (perform sv RecoverTick) w)) !! id = Some j →
    expired t id j = false.
Proof.
  intros Hre Hc Hm Hn t Hlen id j Hj.
  destruct (passes_count t sv k w) as (_ & _ & _ & Hz); [done|done|lia|done|done|].
  destruct (expired t id j) eqn:He; [|done]. exfalso.
  assert ((id, j) ∈ stale t (w_db (Nat.iter k (perform sv RecoverTick) w))) as Hin
    by (by apply elem_of_rows_where).
  apply list_elem_of_lookup in Hin as [i Hi%lookup_lt_Some]. lia.
Qed.
End Drain.
