(* ===== verification/Serve.v ===== *)
(** * Due jobs are handed out

    A worker that keeps polling empties the queues it asks for.  Jobs that come due while it
    polls may overtake those that were due before, but every poll takes one job out of the
    queues: after as many polls as they hold jobs, whatever was due at the start and is
    subject to no rate limit has been claimed. *)
From Stdlib Require Import Ascii String.
From S2P Require Import Prelude Text Query F64 Scheduling Db Pressure Telemetry Broker.
From S2P Require Import Lifecycle RateLimit Ingress Enqueue Leases Claim Finish Flow FlowTree.
From S2P Require Import FlowSim Retention Schedulers System.
Local Open Scope string_scope.
Local Open Scope Z_scope.

(** The jobs of the queues of a poll that are not yet claimed, due or not. *)
Definition queued (names : list string) (id : string) (j : Job) : bool :=
  runnable (j_state j) && (bool_decide (names = []) || bool_decide (j_name j ∈ names)).
Abbreviation queue_rows names d := (rows_where (queued names) (jobs d)).

(** No rule of the dequeue rate limiter is about the job. *)
Definition unruled (d : Db) (j : Job) : Prop :=
  ∀ f, j_rate_limit_facet j = Some f → rate_limit_rules d !! f = None.

Lemma unruled_free d now j : unruled d j → blocked d now j = false.
Proof.
  unfold unruled, blocked. destruct (j_rate_limit_facet j) as [f|]; [|done]. by intros ->.
Qed.
Lemma candidate_later names t t' j :
  t ≤ t' → candidate names t j = true → candidate names t' j = true.
Proof.
  unfold candidate, job_due, due_by. intros Ht. rewrite !andb_true_iff. intros [[? Hd] ?].
  split_and!; [done| |done]. destruct (j_available_at j); [|done].
  apply Z.leb_le in Hd. apply Z.leb_le. lia.
Qed.
Lemma candidate_queued names t id j : candidate names t j = true → queued names id j = true.
Proof. unfold candidate, queued, job_due. rewrite !andb_true_iff. tauto. Qed.
Lemma claimable_queued d names now id j : claimable d names now id j = true → queued names id j = true.
Proof. unfold claimable. intros [? _]%andb_true_iff. by eapply candidate_queued. Qed.

(** What polls of [worker] do to a row: it is left alone, or claimed once. *)
Definition handed (worker : string) (j j' : Job) : Prop :=
  j' = j ∨ runnable (j_state j) = true
           ∧ ∃ now lease, j' = claim_row worker (j_attempts j + 1) now lease j.
Definition hands (worker : string) (js js' : gmap string Job) : Prop :=
  dom js' = dom js ∧ ∀ id j, js !! id = Some j → ∃ j', js' !! id = Some j' ∧ handed worker j j'.
#[export] Instance handed_preorder worker : PreOrder (handed worker).
Proof.
  split; [by left|]. intros j1 j2 j3 [->|(Hr & now & lease & ->)]; [done|].
  intros [->|(Hr' & _)]; [right; eauto|done].
Qed.
#[export] Instance hands_preorder worker : PreOrder (hands worker).
Proof.
  split; [split; [done|]; intros id j Hj; exists j; split; [done|reflexivity]|].
  intros a b c [Hd1 H1] [Hd2 H2]. split; [congruence|]. intros id j (j1 & Hj1 & E1)%H1.
  destruct (H2 _ _ Hj1) as (j2 & Hj2 & E2). exists j2. split; [done|]. by transitivity j1.
Qed.
(** A row that is still queued has not been touched. *)
Lemma hands_queued worker names js js' id j' :
  hands worker js js' → js' !! id = Some j' → queued names id j' = true → js !! id = Some j'.
Proof.
  intros [Hd Hh] Hj' Hq. assert (is_Some (js !! id)) as [j Hj].
  { apply elem_of_dom. rewrite <-Hd. by apply elem_of_dom. }
  destruct (Hh _ _ Hj) as (x & Hx & [->|(_ & now & lease & ->)]); [congruence|].
  rewrite Hx in Hj'. by injection Hj' as <-.
Qed.
Lemma hands_claim worker js id j now lease :
  js !! id = Some j → runnable (j_state j) = true →
  hands worker js (<[id := claim_row worker (j_attempts j + 1) now lease j]> js).
Proof.
  intros Hj Hr. split.
  - rewrite dom_insert_L. apply subseteq_union_1_L, singleton_subseteq_l, elem_of_dom. by exists j.
  - intros i x Hx. destruct (decide (i = id)) as [->|Hne].
    + rewrite lookup_insert_eq. eexists. split; [done|]. right. rewrite Hj in Hx.
      injection Hx as <-. eauto.
    + rewrite lookup_insert_ne by done. exists x. split; [done|by left].
Qed.
(** A claim takes one job out of the queues. *)
Lemma queue_claim worker names d d' id j :
  hands worker (jobs d) (jobs d') → jobs d !! id = Some j → queued names id j = true →
  jobs d' !! id ≠ Some j → (length (queue_rows names d') < length (queue_rows names d))%nat.
Proof.
  intros Hh Hj Hq Hne.
  assert (∀ r, r ∈ queue_rows names d' → r ∈ queue_rows names d ∧ r ≠ (id, j)) as Hsub.
  { intros [i x] [Hx Hqx]%elem_of_rows_where. split.
    - apply elem_of_rows_where. split; [by eapply hands_queued|done].
    - intros [= -> ->]. done. }
  assert ((id, j) :: queue_rows names d' ⊆+ queue_rows names d) as Hm.
  { apply NoDup_submseteq.
    - apply list.NoDup_cons. split; [by intros [_ ?]%Hsub|]. eapply NoDup_fmap_1, rows_where_NoDup.
    - intros r [->|Hr]%elem_of_cons; [by apply elem_of_rows_where|by apply Hsub]. }
  apply submseteq_length in Hm. simpl in Hm. lia.
Qed.

Section Serve.
Context `{HE : Env, HU : !UuidLaw HE, HP : Prost, HC : CronLib}.

Lemma get_next_job_rules cfg req :
  keeps (same rate_limit_rules) (get_next_job cfg req).
Proof.
  unfold get_next_job, claim_selected, bump_attempts, serve_facet, consume. frame.
  by repeat case_match.
Qed.

Section Polls.
Context (sv : Service) (req : GetNextJobRequest) (t : Z).
Context (Hworker : is_blank (gn_worker_id req) = false).
Context (Hqueues : existsb is_blank (gn_queue_names req) = false).
Abbreviation poll_once := (perform sv (GetNextJob req)).

(** All that was due at [t] and is free of rules has been claimed. *)
Definition all_served (w : World) : Prop :=
  ∀ id j, jobs (w_db w) !! id = Some j → candidate (gn_queue_names req) t j = true →
          ¬ unruled (w_db w) j.

(** One poll without faults: it changes rows only by claiming, and if something is left to
    serve, it takes a job. *)
Lemma poll_step w :
  reachable sv w → calm w → t ≤ clock (S (w_step w)) →
  let w' := poll_once w in
  calm w' ∧ (w_step w ≤ w_step w')%nat ∧ rate_limit_rules (w_db w') = rate_limit_rules (w_db w)
  ∧ hands (gn_worker_id req) (jobs (w_db w)) (jobs (w_db w'))
  ∧ (all_served w ∨ (length (queue_rows (gn_queue_names req) (w_db w'))
                 < length (queue_rows (gn_queue_names req) (w_db w)))%nat).
Proof.
  intros Hre Hc Ht. cbv zeta. destruct (reachable_implements sv w Hre) as (s & _ & Hi).
  destruct (get_next_job_calm (sv_claim sv) req w) as (r & w' & Hr & Hc'); [done..| |].
  { intros id j Hj Hrun. pose proof (implements_job_wf _ _ _ _ Hi Hj) as (Hst & Hm & _).
    destruct (j_state j); try done; lia. }
  assert (poll_once w = w') as -> by (simpl; unfold after; by rewrite Hr).
  pose proof (get_next_job_rules _ _ _ _ _ Hr) as [Hru Hle]. apply get_next_job_Ok in Hr.
  split_and!; [done|done|done|..].
  all: destruct (claim_candidate _ _ _ _) as [[id j]|] eqn:Hsel.
  - destruct Hr as (now2 & -> & _). apply claim_candidate_claimable in Hsel as [Hj Hcl].
    apply claimable_inv in Hcl as [Hrun _]. by apply hands_claim.
  - destruct Hr as [_ ->]. reflexivity.
  - right. destruct Hr as (now2 & Hj' & _). apply claim_candidate_claimable in Hsel as [Hj Hcl].
    pose proof (proj1 (claimable_inv _ _ _ _ _ Hcl)) as Hrun.
    eapply queue_claim; [rewrite Hj'; by apply hands_claim|exact Hj|by eapply claimable_queued|].
    rewrite Hj', lookup_insert_eq. intros [= Hx]. rewrite <-Hx in Hrun. done.
  - left. intros id j Hj Hcand Hun. apply head_order_by_None in Hsel.
    assert ((id, j) ∈ rows_where (claimable (w_db w) (gn_queue_names req) (clock (S (w_step w))))
              (jobs (w_db w))) as Hin.
    { apply elem_of_rows_where. split; [done|]. unfold claimable.
      by rewrite (candidate_later _ _ _ _ Ht Hcand), (unruled_free _ _ _ Hun). }
    rewrite Hsel in Hin. by apply not_elem_of_nil in Hin.
Qed.
(** What has been served stays served. *)
Lemma served_hands w w' :
  rate_limit_rules (w_db w') = rate_limit_rules (w_db w) →
  hands (gn_worker_id req) (jobs (w_db w)) (jobs (w_db w')) → all_served w → all_served w'.
Proof.
  intros Hru Hh Hs id j Hj Hcand. unfold unruled. rewrite Hru. apply (Hs id); [|done].
  by eapply hands_queued; [..|eapply candidate_queued].
Qed.
Lemma polls_count k w :
  reachable sv w → calm w → (∀ n m, (n ≤ m)%nat → clock n ≤ clock m) → t ≤ clock (w_step w) →
  let w' := Nat.iter k poll_once w in
  reachable sv w' ∧ calm w' ∧ t ≤ clock (w_step w')
  ∧ rate_limit_rules (w_db w') = rate_limit_rules (w_db w)
  ∧ hands (gn_worker_id req) (jobs (w_db w)) (jobs (w_db w'))
  ∧ (all_served w' ∨ (length (queue_rows (gn_queue_names req) (w_db w')) + k
                  ≤ length (queue_rows (gn_queue_names req) (w_db w)))%nat).
Proof.
  intros Hre Hc Hm Ht. cbv zeta. induction k as [|k IH].
  { split_and!; [done..|right; simpl; lia]. }
  change (Nat.iter (S k) poll_once w) with (poll_once (Nat.iter k poll_once w)).
  destruct IH as (Hre1 & Hc1 & Ht1 & Hru1 & Hh1 & Hs1). set (w1 := Nat.iter k _ w) in *.
  destruct (poll_step w1) as (Hc2 & Hle & Hru2 & Hh2 & Hs2); [done..| |].
  { pose proof (Hm (w_step w1) (S (w_step w1)) ltac:(lia)). lia. }
  split_and!; [by apply (reachable_call sv (GetNextJob req))|done| |congruence|by etransitivity|].
  - pose proof (Hm _ _ Hle). lia.
  - destruct Hs1 as [Hs1|Hs1]; [left; by eapply served_hands|].
    destruct Hs2 as [Hs2|Hs2]; [left; by eapply served_hands|right; lia].
Qed.
End Polls.

(** C28: due jobs are handed out.  While statements do not fail and the clock does not go
    back, a worker that polls as often as its queues hold unclaimed jobs, due or not, gets
    every job of these queues that was due when it began and is subject to no rate limit:
    the job is Active, owned by the worker, under a lease, with one more attempt, and
    nothing else of its row but the time of the update has changed. *)
Theorem polls_serve_due sv req k w :
  reachable sv w → calm w → (∀ n m, (n ≤ m)%nat → clock n ≤ clock m) →
  is_blank (gn_worker_id req) = false → existsb is_blank (gn_queue_names req) = false →
  (length (rows_where (queued (gn_queue_names req)) (jobs (w_db w))) ≤ k)%nat →
  ∀ id j, jobs (w_db w) !! id = Some j →
    candidate (gn_queue_names req) (clock (w_step w)) j = true → unruled (w_db w) j →
    ∃ now lease, jobs (w_db (Nat.iter k (perform sv (GetNextJob req)) w)) !! id
                 = Some (claim_row (gn_worker_id req) (j_attempts j + 1) now lease j).
Proof.
  intros Hre Hc Hm Hb1 Hb2 Hk id j Hj Hcand Hun.
  destruct (polls_count sv req (clock (w_step w)) Hb1 Hb2 k w) as (_ & _ & _ & Hru & Hh & Hs); [done..|].
  destruct (proj2 Hh _ _ Hj) as (j' & Hj' & [->|(_ & now & lease & ->)]); [|eauto].
  exfalso. destruct Hs as [Hs|Hs].
  - apply (Hs _ _ Hj' Hcand). unfold unruled. by rewrite Hru.
  - assert ((id, j) ∈ rows_where (queued (gn_queue_names req))
              (jobs (w_db (Nat.iter k (perform sv (GetNextJob req)) w)))) as Hin.
    { apply elem_of_rows_where. split; [done|by eapply candidate_queued]. }
    apply list_elem_of_lookup in Hin as [i Hi%lookup_lt_Some]. lia.
Qed.
End Serve.
