(* ===== verification/Gates.v ===== *)
(** * The gates of flow parents over whole runs

    A job with children is created closed: it waits for its children, and its gate counts
    them.  The invariant of this file relates the counter to the rows: a gate counts at
    least the children of its job that are live or archived as Failed, exactly those as long
    as retention has pruned nothing, and a job waits for children exactly while its gate is
    not down to zero.  It holds along every run in which children are created by flows only
    ([within_flows]): a job enqueued with the identifier of a parent is not counted by the
    parent's gate.  So no job is claimable, or running, before all its children have
    completed. *)
From Stdlib Require Import Ascii String.
From S2P Require Import Prelude Text Query F64 Scheduling Db Pressure Telemetry Broker.
From S2P Require Import Lifecycle RateLimit Ingress Enqueue Leases Claim Finish Flow FlowTree.
From S2P Require Import FlowSim FlowSpec Retention Schedulers System.
Local Open Scope string_scope.
Local Open Scope Z_scope.

(** ** Counting children *)

(** The rows of a table whose column [up] holds [p]. *)
Section Count.
Context {V T : Type} `{EqDecision T} (up : V → option T).

Definition count_up (m : gmap string V) (p : T) : nat :=
  size (base.filter (λ r : string * V, up r.2 = Some p) m).
Definition names (p : T) (x : V) : nat := if decide (up x = Some p) then 1%nat else 0%nat.

Lemma count_insert m id x p :
  m !! id = None → count_up (<[id := x]> m) p = (names p x + count_up m p)%nat.
Proof.
  intros Hn. unfold count_up, names. rewrite map_filter_insert. simpl. case_decide.
  - rewrite map_size_insert_None; [done|]. rewrite map_lookup_filter, Hn. done.
  - by rewrite delete_id by done.
Qed.
Lemma count_delete m id x p :
  m !! id = Some x → count_up m p = (names p x + count_up (delete id m) p)%nat.
Proof.
  intros Hx. rewrite <-(insert_id _ _ _ Hx) at 1. rewrite <-insert_delete_eq.
  apply count_insert, lookup_delete_eq.
Qed.
Lemma count_update m id x x' p :
  m !! id = Some x → up x' = up x → count_up (<[id := x']> m) p = count_up m p.
Proof.
  intros Hx Hp. rewrite (count_delete m id x), <-insert_delete_eq, count_insert
    by first [done|apply lookup_delete_eq]. unfold names. by rewrite Hp.
Qed.
Lemma count_delete_le m id p : (count_up (delete id m) p ≤ count_up m p)%nat.
Proof.
  destruct (m !! id) as [x|] eqn:Hx; [|by rewrite delete_id].
  rewrite (count_delete m id x p Hx). lia.
Qed.
Lemma count_zero m p : count_up m p = 0%nat ↔ ∀ id x, m !! id = Some x → up x ≠ Some p.
Proof.
  split.
  - intros Hz id x Hx Hp. rewrite (count_delete m id x p Hx) in Hz. unfold names in Hz.
    rewrite decide_True in Hz by done. lia.
  - intros Hn. apply map_size_empty_iff, map_empty_filter_2. intros id x Hx. by eapply Hn.
Qed.
Lemma count_union m m' p : m ##ₘ m' → count_up (m ∪ m') p = (count_up m p + count_up m' p)%nat.
Proof.
  intros Hd. unfold count_up. rewrite map_filter_union by done. apply map_size_disj_union.
  by apply map_disjoint_filter.
Qed.
Lemma count_list_to_map (l : list (string * V)) p :
  NoDup l.*1 →
  count_up (list_to_map l) p = length (base.filter (λ r : string * V, up r.2 = Some p) l).
Proof.
  induction l as [|[id x] l IH]; simpl; intros Hnd; [by unfold count_up; rewrite map_filter_empty|].
  apply list.NoDup_cons in Hnd as [Hni Hnd].
  rewrite count_insert by (by apply not_elem_of_list_to_map_1).
  rewrite IH by done. rewrite list.filter_cons. unfold names. simpl. by case_decide.
Qed.
End Count.

(** The live children of a job, and those archived as Failed. *)
Abbreviation kids := (count_up j_parent_id).
Definition failed_parent (h : HistRow) : option string :=
  if is_state (h_state h) Failed then h_parent_id h else None.
Abbreviation failed_kids := (count_up failed_parent).
Definition owed (js : gmap string Job) (hs : gmap string HistRow) (p : string) : nat :=
  kids js p + failed_kids hs p.

(** ** The invariant *)

(** The gate of a job with [k] children to wait for; [exact]: nothing has been pruned. *)
Definition gate_ok (exact : bool) (k : nat) (j : Job) : Prop :=
  (if exact then j_pending_children j = Z.of_nat k else Z.of_nat k ≤ j_pending_children j)
  ∧ (0 < j_pending_children j ↔ j_state j = WaitingChildren).
Definition gated (exact : bool) (js : gmap string Job) (hs : gmap string HistRow) : Prop :=
  ∀ p j, js !! p = Some j → gate_ok exact (owed js hs p) j.

Lemma gate_ok_le b k j : gate_ok b k j → Z.of_nat k ≤ j_pending_children j.
Proof. intros [Hk _]. destruct b; lia. Qed.

Section Gated.
Context (b : bool).

(** A new job that belongs to no flow and that no row names as its parent. *)
Lemma gated_root js hs id j :
  gated b js hs → js !! id = None → owed js hs id = 0%nat →
  j_parent_id j = None → j_pending_children j = 0 → j_state j ≠ WaitingChildren →
  gated b (<[id := j]> js) hs.
Proof.
  intros Hg Hn Hk Hp Hz Hs p q. unfold owed. rewrite count_insert by done.
  unfold names. rewrite Hp, decide_False by done. simpl.
  rewrite lookup_insert_Some. intros [[<- <-]|[_ Hq]]; [|by apply Hg].
  unfold owed in Hk. rewrite Hk. split; [destruct b; simpl; lia|]. split; [lia|done].
Qed.
(** An update that leaves the gate, the parent and the waiting of a job alone. *)
Lemma gated_update js hs id j j' :
  gated b js hs → js !! id = Some j → j_parent_id j' = j_parent_id j →
  j_pending_children j' = j_pending_children j →
  (j_state j' = WaitingChildren ↔ j_state j = WaitingChildren) → gated b (<[id := j']> js) hs.
Proof.
  intros Hg Hj Hp Hc Hs p q. unfold owed. rewrite (count_update _ _ _ j) by done.
  rewrite lookup_insert_Some. intros [[<- <-]|[_ Hq]]; [|by apply Hg].
  unfold gate_ok. rewrite Hc, Hs. exact (Hg _ _ Hj).
Qed.
(** A live job is archived as Failed: it is still owed to its parent. *)
Lemma gated_fail js hs id j h :
  gated b js hs → js !! id = Some j → hs !! id = None →
  h_state h = Failed → h_parent_id h = j_parent_id j → gated b (delete id js) (<[id := h]> hs).
Proof.
  intros Hg Hj Hh Hs Hp p q [_ Hq]%lookup_delete_Some. specialize (Hg _ _ Hq). unfold owed in *.
  rewrite (count_delete _ js id j) in Hg by done. rewrite count_insert by done.
  unfold names, failed_parent, is_state in *. rewrite Hs, Hp, bool_decide_true by done.
  by rewrite Nat.add_comm, (Nat.add_comm _ (failed_kids hs p)), <-Nat.add_assoc, Nat.add_comm.
Qed.
Lemma failed_kids_completed hs id h p :
  hs !! id = None → h_state h = Completed → failed_kids (<[id := h]> hs) p = failed_kids hs p.
Proof.
  intros Hh Hs. rewrite count_insert by done. unfold names, failed_parent, is_state.
  by rewrite Hs, bool_decide_false, decide_False.
Qed.
(** A job completes whose parent, if it has one, is no longer live. *)
Lemma gated_complete js hs id j h :
  gated b js hs → js !! id = Some j → hs !! id = None → h_state h = Completed →
  (∀ p, j_parent_id j = Some p → delete id js !! p = None) →
  gated b (delete id js) (<[id := h]> hs).
Proof.
  intros Hg Hj Hh Hs Hp p q Hq. unfold owed. rewrite failed_kids_completed by done.
  assert (names j_parent_id p j = 0%nat) as Hz.
  { unfold names. rewrite decide_False; [done|]. intros Hpar%Hp. congruence. }
  apply lookup_delete_Some in Hq as [_ Hq]. specialize (Hg _ _ Hq). unfold owed in Hg.
  by rewrite (count_delete _ js id j), Hz in Hg.
Qed.
(** A child completes and its parent is counted down: the gate still covers the others. *)
Lemma gated_count_down js hs id j h p q q' :
  gated b js hs → js !! id = Some j → hs !! id = None → h_state h = Completed →
  j_parent_id j = Some p → delete id js !! p = Some q →
  j_parent_id q' = j_parent_id q → j_pending_children q' = Z.pred (j_pending_children q) →
  (0 < j_pending_children q' ↔ j_state q' = WaitingChildren) →
  gated b (<[p := q']> (delete id js)) (<[id := h]> hs).
Proof.
  intros Hg Hj Hh Hs Hp Hq Hpar Hpen Hst r x. unfold owed.
  rewrite (count_update _ _ _ q), failed_kids_completed by done.
  rewrite lookup_insert_Some. intros [[<- <-]|[Hne Hx]].
  - split; [|done]. apply lookup_delete_Some in Hq as [_ Hq]. destruct (Hg _ _ Hq) as [Hk _].
    unfold owed in Hk. rewrite (count_delete _ js id j) in Hk by done. unfold names in Hk.
    rewrite decide_True in Hk by done. destruct b; lia.
  - apply lookup_delete_Some in Hx as [_ Hx]. specialize (Hg _ _ Hx). unfold owed in Hg.
    rewrite (count_delete _ js id j) in Hg by done. unfold names in Hg.
    rewrite decide_False in Hg by congruence. done.
Qed.
(** The parent of a live job is closed. *)
Lemma gated_parent_waits js hs id j p q :
  gated b js hs → js !! id = Some j → j_parent_id j = Some p → js !! p = Some q →
  0 < j_pending_children q ∧ j_state q = WaitingChildren.
Proof.
  intros Hg Hj Hp Hq. pose proof (gate_ok_le _ _ _ (Hg _ _ Hq)) as Hle.
  destruct (Hg _ _ Hq) as [_ Hst]. unfold owed in Hle.
  rewrite (count_delete _ js id j) in Hle by done. unfold names in Hle.
  rewrite decide_True in Hle by done. rewrite <-Hst. lia.
Qed.
(** New jobs, each with its own gate, next to jobs whose gates cover the new children. *)
Lemma gated_union new js hs :
  new ##ₘ js →
  (∀ p j, new !! p = Some j → owed js hs p = 0%nat ∧ gate_ok b (kids new p) j) →
  (∀ p j, js !! p = Some j → gate_ok b (kids new p + owed js hs p) j) → gated b (new ∪ js) hs.
Proof.
  intros Hd Hn Ho p j. unfold owed in *. rewrite count_union, <-Nat.add_assoc by done.
  rewrite lookup_union_Some by done. intros [Hj|Hj]; [|by apply Ho].
  destruct (Hn _ _ Hj) as [-> ?]. by rewrite Nat.add_0_r.
Qed.
End Gated.

(** Pruning forgets failed children. *)
Lemma gated_prune js hs ids : gated false js hs → gated false js (delete_keys ids hs).
Proof.
  intros Hg. induction ids as [|id ids IH]; [done|]. intros p j Hj. specialize (IH _ _ Hj).
  destruct IH as [Hk Hs]. split; [|done]. unfold owed in *. simpl.
  pose proof (count_delete_le failed_parent (delete_keys ids hs) id p). lia.
Qed.

(** ** Identifiers

    Every live job, and every parent a row names, carries an identifier drawn before, a
    parent one drawn before those of its children: the relation from parents to children has
    no cycle. *)
Section GateRuns.
Context `{HE : Env, HU : !UuidLaw HE, HP : Prost, HC : CronLib}.

Definition low (n : nat) (x : string) : Prop := ∃ k, x = new_v4 k ∧ (k < n)%nat.
Definition named_low (n : nat) (up : option string) : Prop := ∀ p, up = Some p → low n p.
(** [p] was drawn before [x]. *)
Definition precedes (p x : string) : Prop := ∃ i k, p = new_v4 i ∧ x = new_v4 k ∧ (i < k)%nat.
Record known (n : nat) (js : gmap string Job) (hs : gmap string HistRow) : Prop := {
  kn_live : ∀ id j, js !! id = Some j → low n id ∧ named_low n (j_parent_id j);
  kn_order : ∀ id j p, js !! id = Some j → j_parent_id j = Some p → precedes p id;
  kn_past : ∀ id h, hs !! id = Some h → named_low n (h_parent_id h);
}.

Lemma low_le n n' x : (n ≤ n')%nat → low n x → low n' x.
Proof. intros ? (k & -> & ?). exists k. auto with lia. Qed.
Lemma known_low n js hs id j : known n js hs → js !! id = Some j → low n id.
Proof. intros Hk Hj. exact (proj1 (kn_live _ _ _ Hk _ _ Hj)). Qed.
Lemma named_low_le n n' up : (n ≤ n')%nat → named_low n up → named_low n' up.
Proof. intros Hle Hn p Hp. eapply low_le; eauto. Qed.
Lemma known_le n n' js hs : (n ≤ n')%nat → known n js hs → known n' js hs.
Proof.
  intros Hle [Hj Ho Hh]. split; [|done|].
  - intros id j [? ?]%Hj. split; [by eapply low_le|by eapply named_low_le].
  - intros id h Hx%Hh. by eapply named_low_le.
Qed.
Lemma low_new n k : (n ≤ k)%nat → ¬ low n (new_v4 k).
Proof. intros Hle (i & Hi%new_v4_inj & ?). lia. Qed.
Lemma known_new n k js hs :
  known n js hs → (n ≤ k)%nat → js !! new_v4 k = None ∧ owed js hs (new_v4 k) = 0%nat.
Proof.
  intros [Hj _ Hh] Hle. pose proof (low_new _ _ Hle) as Hnew. split.
  - destruct (js !! new_v4 k) as [j|] eqn:E; [|done]. by apply Hj in E as [? _].
  - unfold owed. rewrite (proj2 (count_zero _ _ _)), (proj2 (count_zero _ _ _)); [done|..].
    + intros id h Hx. unfold failed_parent. destruct (is_state _ _); [|done].
      intros Hp. by apply Hnew, (Hh _ _ Hx).
    + intros id j Hx Hp. by apply Hnew, (Hj _ _ Hx).
Qed.
Lemma known_insert n js hs id j :
  known n js hs → low n id → named_low n (j_parent_id j) →
  (∀ p, j_parent_id j = Some p → precedes p id) → known n (<[id := j]> js) hs.
Proof.
  intros [Hj Ho Hh] Hid Hp Hpre. split; [| |done].
  - intros i x. rewrite lookup_insert_Some. intros [[<- <-]|[_ Hx]]; [done|by apply Hj].
  - intros i x p. rewrite lookup_insert_Some. intros [[<- <-]|[_ Hx]]; [apply Hpre|by apply Ho].
Qed.
Lemma known_update n js hs id j j' :
  known n js hs → js !! id = Some j → j_parent_id j' = j_parent_id j →
  known n (<[id := j']> js) hs.
Proof.
  intros Hk Hj Hp. destruct (kn_live _ _ _ Hk _ _ Hj). apply known_insert; rewrite ?Hp; try done.
  intros p. by apply (kn_order _ _ _ Hk _ _ _ Hj).
Qed.
Lemma known_end n js hs id j h :
  known n js hs → js !! id = Some j → h_parent_id h = j_parent_id j →
  known n (delete id js) (<[id := h]> hs).
Proof.
  intros [Hj Ho Hh] Hid Hp. split.
  - intros i x [_ Hx]%lookup_delete_Some. by apply Hj.
  - intros i x p [_ Hx]%lookup_delete_Some. by apply Ho.
  - intros i x. rewrite lookup_insert_Some. intros [[<- <-]|[_ Hx]]; [|by eapply Hh].
    rewrite Hp. by apply (Hj id).
Qed.
Lemma known_prune n js hs ids : known n js hs → known n js (delete_keys ids hs).
Proof.
  intros [Hj Ho Hh]. split; [done..|]. intros i x. rewrite lookup_delete_keys.
  case_decide; [done|]. apply Hh.
Qed.

(** The invariant of a world. *)
Record ginv (b : bool) (w : World) : Prop := {
  gi_gated : gated b (jobs (w_db w)) (job_history (w_db w));
  gi_known : known (w_step w) (jobs (w_db w)) (job_history (w_db w));
}.

(** ** New nodes

    The nodes of a request, numbered from [n] on: each gate counts the children of its node
    in the request, and the roots of the request hang below [hang], if anywhere. *)
Definition hung (hang q : option string) : option string :=
  match q with Some p => Some p | None => hang end.
Record request (n k : nat) (nodes : list PreparedNode) : Prop := {
  rq_ids : p_id <$> nodes = new_v4 <$> seq n k;
  rq_gates : gates nodes nodes;
  rq_waiting : Forall (λ x, 0 < p_pending_children x ↔ p_state x = WaitingChildren) nodes;
  rq_parents : Forall (parent_within None n k) nodes;
}.
Record faithful (hang : option string) (row : PreparedNode → Job) : Prop := {
  ro_parent : ∀ x, j_parent_id (row x) = hung hang (p_parent_id x);
  ro_pending : ∀ x, j_pending_children (row x) = p_pending_children x;
  ro_state : ∀ x, j_state (row x) = p_state x;
}.
Definition new_rows (row : PreparedNode → Job) (nodes : list PreparedNode) : gmap string Job :=
  list_to_map ((λ x, (p_id x, row x)) <$> nodes).

Lemma new_rows_keys (row : PreparedNode → Job) nodes :
  ((λ x, (p_id x, row x)) <$> nodes).*1 = p_id <$> nodes.
Proof. by rewrite <-list_fmap_compose. Qed.
Lemma request_NoDup n k nodes : request n k nodes → NoDup (p_id <$> nodes).
Proof. intros [-> _ _ _]. apply NoDup_ids. Qed.
Lemma new_rows_lookup n k nodes row p j :
  request n k nodes → new_rows row nodes !! p = Some j ↔ ∃ x, x ∈ nodes ∧ p = p_id x ∧ j = row x.
Proof.
  intros Hq. unfold new_rows. rewrite <-elem_of_list_to_map.
  - rewrite list_elem_of_fmap. naive_solver.
  - rewrite new_rows_keys. by eapply request_NoDup.
Qed.
Lemma request_id n k nodes x :
  request n k nodes → x ∈ nodes → ∃ i, p_id x = new_v4 i ∧ (n ≤ i < n + k)%nat.
Proof.
  intros [Hids _ _ _] Hx%(list_elem_of_fmap_2 p_id). rewrite Hids in Hx.
  apply list_elem_of_fmap in Hx as (i & -> & [? ?]%elem_of_seq). eauto.
Qed.

Lemma filter_length_ext {A} (P Q : A → Prop) `{∀ x, Decision (P x), ∀ x, Decision (Q x)} l :
  Forall (λ x, P x ↔ Q x) l → length (base.filter P l) = length (base.filter Q l).
Proof.
  induction 1 as [|x l Hx _ IH]; [done|]. rewrite !list.filter_cons.
  repeat case_decide; simpl; tauto || lia.
Qed.

Lemma kids_new_rows n k nodes row hang p :
  request n k nodes → faithful hang row →
  kids (new_rows row nodes) p
  = length (base.filter (λ x, hung hang (p_parent_id x) = Some p) nodes).
Proof.
  intros Hq [Hp _ _]. unfold new_rows. rewrite count_list_to_map.
  - clear Hq. induction nodes as [|x nodes IH]; [done|]. rewrite fmap_cons, !list.filter_cons.
    simpl. rewrite Hp. case_decide; simpl; by rewrite IH.
  - rewrite new_rows_keys. by eapply request_NoDup.
Qed.
(** The children of a new node are those of the request; an older job has new children
    only if the request hangs below it. *)
Lemma kids_new_node n k nodes row hang i :
  request n k nodes → faithful hang row → named_low n hang → (n ≤ i)%nat →
  kids (new_rows row nodes) (new_v4 i) = child_count (new_v4 i) nodes.
Proof.
  intros Hq Hrow Hh Hi. rewrite (kids_new_rows n k nodes row hang) by done.
  apply filter_length_ext, list.Forall_forall. intros x _.
  destruct (p_parent_id x) as [q|]; simpl; [done|]. split; [|done].
  intros Hlow%Hh. by apply low_new in Hlow.
Qed.
Lemma kids_old_job n k nodes row hang p :
  request n k nodes → faithful hang row → low n p →
  kids (new_rows row nodes) p
  = if decide (hang = Some p) then length (base.filter (λ x, p_parent_id x = None) nodes) else 0%nat.
Proof.
  intros Hq Hrow Hp. rewrite (kids_new_rows n k nodes row hang) by done.
  assert (Forall (λ x, hung hang (p_parent_id x) = Some p ↔ p_parent_id x = None ∧ hang = Some p)
    nodes) as Hall.
  { eapply list.Forall_impl; [apply (rq_parents _ _ _ Hq)|]. intros x [->|(i & ? & -> & _ & Hi & _)]; simpl; [tauto|].
    split; [|naive_solver]. intros [= <-]. apply low_new in Hp; [done|lia]. }
  case_decide as Hh.
  - apply filter_length_ext. eapply list.Forall_impl; [exact Hall|]. naive_solver.
  - transitivity (length (base.filter (λ _, False) nodes)).
    + apply filter_length_ext. eapply list.Forall_impl; [exact Hall|]. naive_solver.
    + clear. induction nodes as [|x l IH]; [done|]. by rewrite list.filter_cons_False by tauto.
Qed.

Lemma rows_written_union n k nodes row d d' :
  request n k nodes → rows_written row nodes d d' →
  jobs d' = new_rows row nodes ∪ jobs d ∧ new_rows row nodes ##ₘ jobs d.
Proof.
  intros Hq (Hin & Hout & _).
  assert (new_rows row nodes ##ₘ jobs d) as Hd.
  { apply map_disjoint_spec. intros p j j' Hj Hj'.
    eapply new_rows_lookup in Hj as (x & Hx & -> & _); [|done]. destruct (Hin x Hx). congruence. }
  split; [|done]. apply map_eq. intros p.
  destruct (new_rows row nodes !! p) as [j|] eqn:Hp.
  - rewrite (lookup_union_Some_l _ _ _ _ Hp).
    eapply new_rows_lookup in Hp as (x & Hx & -> & ->); [|done]. by destruct (Hin x Hx).
  - rewrite lookup_union_r by done. apply Hout. intros (x & -> & Hx)%list_elem_of_fmap.
    assert (new_rows row nodes !! p_id x = Some (row x)); [|congruence].
    eapply new_rows_lookup; eauto.
Qed.

(** The identifiers of a request come after those there are, parents before children. *)
Lemma request_known n k nodes row hang js hs :
  request n k nodes → faithful hang row → named_low n hang → new_rows row nodes ##ₘ js →
  known n js hs → known (n + k) (new_rows row nodes ∪ js) hs.
Proof.
  intros Hq Hrow Hh Hd Hk. pose proof (rq_parents _ _ _ Hq) as Hpar.
  rewrite list.Forall_forall in Hpar.
  assert (∀ x p, x ∈ nodes → j_parent_id (row x) = Some p → low (n + k) p ∧ precedes p (p_id x)) as Hnew.
  { intros x p Hx. rewrite (ro_parent _ _ Hrow).
    destruct (Hpar x Hx) as [->|(m & i & -> & -> & Hm & Hi)]; simpl.
    - intros (m & -> & Hm)%Hh. destruct (request_id _ _ _ _ Hq Hx) as (i & -> & Hi).
      split; [exists m|exists m, i]; auto with lia.
    - intros [= <-]. split; [exists m|exists m, i]; auto with lia. }
  apply (known_le n (n + k)) in Hk; [|lia]. split; [| |apply Hk].
  - intros p j. rewrite lookup_union_Some by done. intros [Hj|Hj]; [|by eapply Hk].
    eapply new_rows_lookup in Hj as (x & Hx & -> & ->); [|done].
    destruct (request_id _ _ _ _ Hq Hx) as (i & Hid & Hi). split; [exists i; auto with lia|].
    intros q Hp. by eapply Hnew.
  - intros p j q. rewrite lookup_union_Some by done. intros [Hj|Hj]; [|by eapply Hk].
    eapply new_rows_lookup in Hj as (x & Hx & -> & ->); [|done]. intros Hp. by eapply Hnew.
Qed.

(** A request written next to jobs whose gates count what hangs below them. *)
Lemma request_gated b n k nodes row hang d d' :
  request n k nodes → faithful hang row → named_low n hang →
  rows_written row nodes d d' → known n (jobs d) (job_history d) →
  (∀ p j, jobs d !! p = Some j →
     gate_ok b (kids (new_rows row nodes) p + owed (jobs d) (job_history d) p) j) →
  gated b (jobs d') (job_history d') ∧ known (n + k) (jobs d') (job_history d').
Proof.
  intros Hq Hrow Hh Hw Hk Hold. destruct (rows_written_union _ _ _ _ _ _ Hq Hw) as [-> Hd].
  destruct Hw as (_ & _ & ->). split.
  - apply gated_union; [done| |done]. intros p j Hj.
    eapply new_rows_lookup in Hj as (x & Hx & -> & ->); [|done].
    destruct (request_id _ _ _ _ Hq Hx) as (i & Hi & Hni).
    split; [rewrite Hi; by apply known_new with n; [|lia]|].
    unfold gate_ok. rewrite (ro_pending _ _ Hrow), (ro_state _ _ Hrow). split.
    + rewrite (rq_gates _ _ _ Hq) by done.
      rewrite Hi, (kids_new_node n k nodes row hang) by (done || lia). by destruct b.
    + pose proof (rq_waiting _ _ _ Hq) as Hw'. rewrite list.Forall_forall in Hw'. by apply Hw'.
  - eapply request_known; eauto.
Qed.

(** ** Steps of the handlers *)
Section Guard.
Context (b : bool).

Lemma ginv_frame w w' :
  tables (w_db w') = tables (w_db w) → (w_step w ≤ w_step w')%nat → ginv b w → ginv b w'.
Proof. intros [= Hj Hh] Hle [? ?]. split; rewrite Hj, Hh; [done|by eapply known_le]. Qed.
Lemma ginv_update w w' id j j' :
  ginv b w → jobs (w_db w) !! id = Some j →
  tables (w_db w') = (<[id := j']> (jobs (w_db w)), job_history (w_db w)) →
  (w_step w ≤ w_step w')%nat → j_parent_id j' = j_parent_id j →
  j_pending_children j' = j_pending_children j →
  (j_state j' = WaitingChildren ↔ j_state j = WaitingChildren) → ginv b w'.
Proof.
  intros [Hg Hk] Hj [= Tj Th] Hle Hp Hc Hs. split; rewrite Tj, Th.
  - by eapply gated_update.
  - eapply known_update; [by eapply known_le|done..].
Qed.
Lemma ginv_fail w w' id j h :
  ginv b w → jobs (w_db w) !! id = Some j → job_history (w_db w) !! id = None →
  tables (w_db w') = (delete id (jobs (w_db w)), <[id := h]> (job_history (w_db w))) →
  (w_step w ≤ w_step w')%nat → h_state h = Failed → h_parent_id h = j_parent_id j → ginv b w'.
Proof.
  intros [Hg Hk] Hj Hh [= Tj Th] Hle Hs Hp. split; rewrite Tj, Th.
  - by eapply gated_fail.
  - eapply known_end; [by eapply known_le|done..].
Qed.
Lemma ginv_new w w' k j :
  ginv b w → (w_step w ≤ k < w_step w')%nat →
  tables (w_db w') = (<[new_v4 k := j]> (jobs (w_db w)), job_history (w_db w)) →
  j_parent_id j = None → j_pending_children j = 0 → j_state j ≠ WaitingChildren → ginv b w'.
Proof.
  intros [Hg Hk] Hle [= Tj Th] Hp Hc Hs. destruct (known_new _ k _ _ Hk) as [Hn Ho]; [lia|].
  split; rewrite Tj, Th.
  - by apply gated_root.
  - apply known_insert; [eapply known_le; [|exact Hk]; lia| | |].
    + exists k. auto with lia.
    + by rewrite Hp.
    + intros p. by rewrite Hp.
Qed.

(** [guards m]: every run of [m] keeps the invariant; [guards_ok m]: every successful one. *)
Definition guards {E A} (m : M E A) : Prop := ∀ w r w', m w = (r, w') → ginv b w → ginv b w'.
Definition guards_ok {E A} (m : M E A) : Prop :=
  ∀ w a w', m w = (Ok a, w') → ginv b w → ginv b w'.

Lemma guards_frame {E A} (m : M E A) : keeps (same tables) m → guards m.
Proof. intros Hk w r w' [Ht Hle]%Hk. by apply ginv_frame. Qed.
Lemma guards_weaken {E A} (m : M E A) : guards m → guards_ok m.
Proof. intros Hm w a w'. apply Hm. Qed.
Lemma guards_bind {E A B} (m : M E A) (k : A → M E B) :
  guards m → (∀ a, guards (k a)) → guards (mbind k m).
Proof.
  intros Hm Hk w r w' Hr Hi. apply bind_inv in Hr as (r1 & w1 & H1 & Hr).
  specialize (Hm _ _ _ H1 Hi). destruct r1; [by eapply Hk|by destruct Hr as [_ ->]].
Qed.
Lemma guards_ok_bind {E A B} (m : M E A) (k : A → M E B) :
  guards_ok m → (∀ a, guards_ok (k a)) → guards_ok (mbind k m).
Proof. intros Hm Hk w r w' (a & w1 & H1 & H2)%bind_Ok Hi. eapply Hk; [exact H2|]. by eapply Hm. Qed.
Lemma guards_map_err {E F A} (f : E → F) (m : M E A) : guards m → guards (map_err f m).
Proof. intros Hm w r w' [r1 Hr]%map_err_inv. by eapply Hm. Qed.
Lemma guards_ok_map_err {E F A} (f : E → F) (m : M E A) : guards_ok m → guards_ok (map_err f m).
Proof. intros Hm w r w' Hr%map_err_Ok. by eapply Hm. Qed.
Lemma guards_attempt {E F A} (m : M E A) : guards m → guards (attempt m : M F _).
Proof.
  intros Hm w r w'. unfold attempt. destruct (m w) as [x w1] eqn:E1. intros [= _ <-].
  by eapply Hm.
Qed.
Lemma guards_transaction {E A} (g : SqlError → E) (body : M E A) :
  keeps any body → guards_ok body → guards (transaction g body).
Proof.
  intros Hk Hok w r w' Hr Hi.
  assert (∀ w1, ginv b w1 → ginv b (tick w1)) as Htick.
  { intros w1. apply ginv_frame; simpl; [done|lia]. }
  apply transaction_cases in Hr as [(e & _ & Hd & Hs)|(a & w1 & _ & Hb & ->)]; [| |done].
  - by eapply ginv_frame; [rewrite Hd| |].
  - apply Htick. eapply Hok; [exact Hb|]. by apply Htick.
Qed.

(** *** Enqueueing a job without a parent *)
Definition parentless (req : AddJobRequest) : bool :=
  is_empty (m_parent_id (default default_metadata (q_metadata req))).

Lemma admit_new_guards l req now rr :
  parentless req = true → guards_ok (admit_new l req now rr).
Proof.
  intros Ho w o w' Hr Hi.
  apply admit_new_Ok in Hr as (n & w1 & depth & trace & av & Hn & _ & _ & _ & Hj & Hh & Hle & _).
  eapply (ginv_new w w' n); [done|lia|unfold tables; by rewrite Hj, Hh|..]; simpl.
  - unfold parentless, non_empty in *. by rewrite Ho.
  - done.
  - by destruct (0 <? _).
Qed.
Lemma enqueue_one_guards l req now rr :
  parentless req = true → guards_ok (enqueue_one l req now rr).
Proof.
  intros Ho. unfold enqueue_one. apply guards_ok_bind.
  - apply guards_weaken, guards_frame, replay_frame, _.
  - intros [o|]; [apply guards_weaken, guards_frame; frame|by apply admit_new_guards].
Qed.
Lemma batch_loop_guards l now i reqs :
  Forall (λ r, parentless r.1 = true) reqs → guards_ok (batch_loop l now i reqs).
Proof.
  intros Hp. revert i. induction Hp as [|[req rr] reqs Hreq _ IH]; intros i; simpl.
  - apply guards_weaken, guards_frame. frame.
  - apply guards_ok_bind; [by apply guards_ok_map_err, enqueue_one_guards|]. intros o.
    apply guards_ok_bind; [apply IH|]. intros os. apply guards_weaken, guards_frame. frame.
Qed.
Lemma execute_batch_guards l reqs prefix :
  Forall (λ r, parentless r.1 = true) reqs → guards (execute_batch l reqs prefix).
Proof.
  intros Hp. unfold execute_batch. apply guards_bind.
  - apply guards_attempt, guards_transaction; [frame; eauto using batch_loop_frame|].
    apply guards_ok_bind; [apply guards_weaken, guards_frame; frame|].
    intros now. by apply batch_loop_guards.
  - intros out. apply guards_frame. frame; eauto using record_rejection_frame.
Qed.
Lemma validate_parentless req depth req' rr :
  validate_and_prepare req depth = Ok (req', rr) → parentless req' = parentless req.
Proof. by intros (-> & _)%validate_Ok. Qed.
Lemma enqueue_guards l req : parentless req = true → guards (enqueue l req).
Proof.
  intros Ho. unfold enqueue. intros w r w' Hr. apply bind_inv in Hr as (r1 & w1 & H1 & Hr).
  unfold lift in H1. injection H1 as <- <-.
  destruct (validate_and_prepare _ _) as [[req' rr]|e] eqn:Hv; [|by destruct Hr as [_ ->]].
  revert Hr. apply guards_bind; [|intros; apply guards_frame; frame].
  apply execute_batch_guards, list.Forall_singleton. simpl. by rewrite (validate_parentless _ _ _ _ Hv).
Qed.
Lemma enqueue_bulk_guards l reqs :
  Forall (λ q, parentless q = true) reqs → guards (enqueue_bulk l reqs).
Proof.
  intros Ho. unfold enqueue_bulk. destruct (_ =? 0); [apply guards_frame; frame|].
  destruct (_ <? _); [apply guards_frame; frame|]. intros w r w' Hr.
  apply bind_inv in Hr as (r1 & w1 & H1 & Hr). destruct r1 as [ps|e].
  2:{ destruct Hr as [_ ->]. eapply guards_frame; [|exact H1]. apply for_each_lift_frame, _. }
  apply for_each_lift_Ok in H1 as [-> Hps]. revert Hr. apply execute_batch_guards.
  induction Hps as [|q [q' rr] qs ps Hv _ IH]; [constructor|].
  apply list.Forall_cons in Ho as [Hq Hqs]. constructor; [|by apply IH]. simpl.
  by rewrite (validate_parentless _ _ _ _ Hv).
Qed.
Lemma fire_one_guards l row : guards (fire_one l row).
Proof.
  unfold fire_one. destruct row as [id r].
  apply guards_bind; [|intros; apply guards_frame; frame].
  apply guards_transaction; [unfold enqueue_scheduled; frame; apply enqueue_one_frame|].
  apply guards_ok_bind; [apply guards_weaken, guards_frame; frame|]. intros now.
  apply guards_ok_bind; [|intros [jid sm]; apply guards_weaken, guards_frame; frame].
  apply guards_ok_map_err. intros w o w' Hr Hi. unfold enqueue_scheduled in Hr.
  apply bind_Ok in Hr as ([req' rr] & w1 & Hv & Hr). unfold lift in Hv. injection Hv as Hv <-.
  apply bind_Ok in Hr as (o' & w2 & Ho & Hr). injection Hr as <- <-. apply map_err_Ok in Ho.
  eapply enqueue_one_guards; [|done..]. by rewrite (validate_parentless _ _ _ _ Hv).
Qed.
Lemma run_once_guards l n : guards (run_once l n).
Proof.
  assert (∀ rows, guards (fire_all l rows)) as Hall.
  { induction rows as [|row rows IH]; simpl; [apply guards_frame; frame|].
    apply guards_bind; [apply guards_attempt, fire_one_guards|]. intros x.
    apply guards_bind; [apply guards_frame; frame|]. intros _.
    apply guards_bind; [done|]. intros k. apply guards_frame. frame. }
  unfold run_once. apply guards_bind; [apply guards_frame; frame|].
  intros [now|]; [|apply guards_frame; frame].
  apply guards_bind; [apply guards_frame; frame|].
  intros [due|]; [apply Hall|apply guards_frame; frame].
Qed.

(** *** Claims, leases and retries leave every gate alone *)
Lemma get_next_job_guards cfg req : guards (get_next_job cfg req).
Proof.
  unfold get_next_job. destruct (is_blank _); [apply guards_frame; frame|].
  destruct (existsb _ _); [apply guards_frame; frame|].
  apply guards_map_err, guards_bind; [|intros [fl [[job [[[? ?] ?] ?]]|]];
    apply guards_frame; frame].
  apply guards_transaction; [frame; eauto using claim_selected_frame|].
  intros w r w' Hr Hi.
  apply bind_Ok in Hr as (now & w1 & H1 & Hr). apply now_ms_Ok in H1 as [_ ->].
  apply bind_Ok in Hr as (fl & w2 & H2 & Hr). apply query_Ok in H2 as [_ ->].
  apply bind_Ok in Hr as (sel & w3 & H3 & Hr). apply query_Ok in H3 as [-> ->].
  destruct (claim_candidate _ _ _ _) as [[id j]|] eqn:Hsel.
  2:{ injection Hr as _ <-. eapply ginv_frame; [..|exact Hi]; simpl; [done|lia]. }
  apply claim_candidate_claimable in Hsel as [Hj Hc]. apply claimable_inv in Hc as (Hrun & _).
  apply bind_Ok in Hr as (x & w4 & H4 & Hr). injection Hr as _ <-.
  pose proof (claim_selected_frame _ _ _ _ _ _ _ _ H4) as [_ Hle]. simpl in Hle.
  eapply claim_selected_Ok in H4 as (now2 & Hj' & Hh' & _); [|done..]. simpl in *.
  eapply (ginv_update w w4 id j (claim_row _ _ _ _ j)); [done|done|unfold tables; by rewrite Hj', Hh'|lia|done|done|].
  simpl. split; [done|]. intros Hs. by rewrite Hs in Hrun.
Qed.
Lemma renew_lease_guards duration req : guards (renew_lease duration req).
Proof.
  unfold renew_lease. destruct (_ || _); [apply guards_frame; frame|].
  apply guards_transaction; [frame|].
  intros w r w' Hr Hi. apply bind_Ok in Hr as (row & w1 & H1 & Hr). inv_run H1.
  destruct (jobs (w_db w) !! hb_id req) as [j|] eqn:Hj; [|by inv_run Hr].
  destruct (is_state (j_state j) Active) eqn:Ha; simpl in Hr; [|done].
  destruct (bool_decide _); [done|]. apply bind_Ok in Hr as (now & w2 & H2 & Hr). inv_run H2.
  destruct (j_lease_expires_at_ms j) as [e|]; [|done]. destruct (_ || _); [done|]. inv_run Hr.
  eapply (ginv_update w _ (hb_id req) j (renew_row _ _ j)); [done|done| | |done|done|done];
    [|simpl; lia].
  unfold tables. simpl. by rewrite (alter_Some _ _ _ j).
Qed.

(** *** Recovery *)
Lemma recover_one_absent now id j w k w' :
  recover_one now (id, j) w = (Ok k, w') → jobs (w_db w) !! id = Some j →
  (j_attempts j <? j_max_attempts j) = false → job_history (w_db w) !! id = None.
Proof.
  unfold recover_one. intros Hr Hj Hc. rewrite Hc in Hr.
  apply bind_Ok in Hr as (u & w1 & H1 & Hr). apply try_execute_Ok in H1 as (d1 & H1 & ->).
  rewrite Hj in H1. by apply insert_history_Ok in H1 as [? _].
Qed.
Lemma recover_one_ginv now id j w k w' :
  recover_one now (id, j) w = (Ok k, w') → jobs (w_db w) !! id = Some j →
  j_state j = Active → ginv b w → ginv b w'.
Proof.
  intros Hr Hj Ha Hi. pose proof (recover_one_absent _ _ _ _ _ _ Hr Hj) as Hh.
  apply recover_one_Ok in Hr as [Hle Hr]; [|done].
  destruct (j_attempts j <? j_max_attempts j); destruct Hr as [Hj' Hh'].
  - eapply (ginv_update w w' id j (recovered_retry now j)); [done|done| |done|done|done|].
    + unfold tables. by rewrite Hj', Hh'.
    + rewrite Ha. unfold recovered_retry, retry_row, delay_state. simpl. by destruct (_ =? 0).
  - eapply (ginv_fail w w' id j (expire_row now j)); [done|done|by apply Hh| |done..].
    unfold tables. by rewrite Hj', Hh'.
Qed.
Lemma recover_loop_ginv now n rows :
  NoDup rows.*1 → ∀ w m w',
  fold_m (λ n row, let? k := recover_one now row in mret (n + k)%nat) n rows w = (Ok m, w') →
  Forall (λ r : string * Job, jobs (w_db w) !! r.1 = Some r.2 ∧ j_state r.2 = Active) rows →
  ginv b w → ginv b w'.
Proof.
  revert n. induction rows as [|[id j] rows IH]; intros n Hnd w m w' Hr Hall Hi; simpl in *.
  - by injection Hr as _ <-.
  - apply bind_Ok in Hr as (n' & w1 & H1 & Hr). apply bind_Ok in H1 as (k & w1' & H1 & H1').
    injection H1' as <- <-. apply list.NoDup_cons in Hnd as [Hnin Hnd].
    apply list.Forall_cons in Hall as [[Hj Ha] Hall]. simpl in *.
    pose proof (recover_one_ginv _ _ _ _ _ _ H1 Hj Ha Hi) as Hi1.
    apply recover_one_Ok in H1 as [_ H1]; [|done].
    eapply IH; [done|exact Hr| |done]. apply list.Forall_forall. intros [id' j'] Hin. simpl.
    rewrite list.Forall_forall in Hall. destruct (Hall _ Hin) as [Hj' Ha']. split; [|done].
    assert (id' ≠ id). { intros ->. apply Hnin, list_elem_of_fmap. by exists (id, j'). }
    destruct (_ <? _); destruct H1 as [-> _]; simpl in *;
      by rewrite ?lookup_insert_ne, ?lookup_delete_ne by done.
Qed.
Lemma recover_expired_guards n : guards (recover_expired n).
Proof.
  unfold recover_expired. apply guards_map_err, guards_bind;
    [|intros [[? ?] ?]; apply guards_frame; frame].
  apply guards_transaction; [frame; apply recover_one_frame|]. intros w r w' Hr Hi.
  apply bind_Ok in Hr as (now & w1 & H1 & Hr). apply now_ms_Ok in H1 as [_ ->].
  apply bind_Ok in Hr as (rows & w2 & H2 & Hr). apply query_Ok in H2 as [-> ->].
  apply bind_Ok in Hr as (m & w3 & H3 & Hr). injection Hr as _ <-. simpl in *.
  eapply recover_loop_ginv; [apply expired_batch_NoDup|exact H3|..].
  - apply list.Forall_forall. intros [id j] Hin.
    apply expired_batch_spec in Hin as (? & ? & _). done.
  - eapply ginv_frame; [..|exact Hi]; simpl; [done|lia].
Qed.

(** *** Acknowledgements *)
Lemma retry_job_ginv a j now w f w' :
  retry_job a j now w = (Ok f, w') → jobs (w_db w) !! a_id a = Some j →
  j_state j = Active → ginv b w → ginv b w'.
Proof.
  unfold retry_job. intros Hr Hj Ha Hi.
  apply bind_Ok in Hr as (row & w1 & H1 & Hr). apply query_Ok in H1 as [-> ->].
  rewrite Hj in Hr. apply bind_Ok in Hr as (x & w2 & H2 & Hr). injection H2 as <- <-.
  apply bind_Ok in Hr as (u & w3 & H3 & Hr). apply update_stmt_Ok in H3 as ->.
  injection Hr as _ <-.
  eapply (ginv_update w _ (a_id a) j (retry_row _ _ _ _ j)); [done|done| | |done|done|].
  - unfold tables. simpl. by rewrite (alter_Some _ _ _ j).
  - simpl. lia.
  - rewrite Ha. simpl. unfold delay_state. by destruct (_ =? 0).
Qed.
Lemma cascade_guards fuel child flag anc : guards_ok (cascade fuel child flag anc).
Proof.
  revert flag anc. induction fuel as [|fuel IH]; intros flag anc w r w' Hr Hi; simpl in Hr.
  { by injection Hr as _ <-. }
  destruct flag, anc as [parent|]; try (by injection Hr as _ <-).
  apply bind_Ok in Hr as (row & w1 & H1 & Hr). apply query_Ok in H1 as [-> ->].
  assert (ginv b (tick w)) as Hi' by (eapply ginv_frame; [..|exact Hi]; simpl; [done|lia]).
  destruct (jobs (w_db w) !! parent) as [p|] eqn:Hp; [|by injection Hr as _ <-].
  apply bind_Ok in Hr as (u1 & w1 & H1 & Hr). apply bind_Ok in Hr as (u2 & w2 & H2 & Hr).
  apply bind_Ok in Hr as (n & w3 & H3 & Hr).
  destruct (end_job_Ok _ _ p _ _ _ _ _ _ _ H1 H2 H3 Hp) as (Hh0 & Hj & Hh & _ & Hst).
  apply bind_Ok in Hr as ([k1 k2] & w4 & H4 & Hr). injection Hr as _ <-.
  eapply IH; [exact H4|].
  eapply (ginv_fail (tick w) w3 parent p (cascade_row _ _ p));
    [done|exact Hp|exact Hh0| | |done|done]; [|lia].
  unfold tables. by rewrite Hj, Hh.
Qed.

(** A completion after which the parent is released or still waits for the others. *)
Lemma child_completed_ginv now parent id j h w w1 r w' :
  ginv b w → jobs (w_db w) !! id = Some j → job_history (w_db w) !! id = None →
  h_state h = Completed → h_parent_id h = j_parent_id j → j_parent_id j = Some parent →
  jobs (w_db w1) = delete id (jobs (w_db w)) →
  job_history (w_db w1) = <[id := h]> (job_history (w_db w)) →
  (w_step w ≤ w_step w1)%nat →
  child_completed now parent w1 = (Ok r, w') → ginv b w'.
Proof.
  intros [Hg Hk] Hj Hh Hs Hhp Hp Hj1 Hh1 Hle Hr.
  pose proof (child_completed_frame _ _ _ _ _ Hr) as [_ Hle'].
  assert (known (w_step w') (jobs (w_db w1)) (job_history (w_db w1))) as Hk1.
  { rewrite Hj1, Hh1. eapply known_end; [eapply known_le; [|exact Hk]; lia|done..]. }
  destruct (delete id (jobs (w_db w)) !! parent) as [q|] eqn:Hq.
  2:{ apply child_completed_gone_parent in Hr as [_ [= Tj Th]]; [|by rewrite Hj1].
      split; rewrite Tj, Th; [|done]. rewrite Hj1, Hh1. eapply gated_complete; [done..|].
      intros p Hp'. congruence. }
  rewrite <-Hj1 in Hq. destruct (child_completed_Ok _ _ _ _ _ _ Hr Hq) as [Hout Th].
  assert (0 < j_pending_children q ∧ j_state q = WaitingChildren) as [Hpos Hwait].
  { rewrite Hj1 in Hq. apply lookup_delete_Some in Hq as [_ Hq].
    exact (gated_parent_waits b _ _ _ _ _ _ Hg Hj Hp Hq). }
  assert (∃ q', jobs (w_db w') = <[parent := q']> (jobs (w_db w1))
    ∧ j_parent_id q' = j_parent_id q ∧ j_pending_children q' = Z.pred (j_pending_children q)
    ∧ (0 < j_pending_children q' ↔ j_state q' = WaitingChildren)) as (q' & Tj & Hpq & Hcq & Hsq).
  { destruct r as [s|].
    - destruct Hout as (_ & Hle1 & Hrun & _ & t & Tj). eexists. split; [exact Tj|].
      simpl. split_and!; [done|done|]. split; [lia|]. intros ->. done.
    - destruct Hout as ([?|?] & Tj); [done|]. eexists. split; [exact Tj|]. simpl.
      split_and!; [done|done|]. split; [done|lia]. }
  split; rewrite Tj, Th.
  - rewrite Hj1, Hh1 in *. by eapply gated_count_down.
  - by eapply known_update.
Qed.
Lemma settle_job_ginv a j now w f w' :
  settle_job a j now w = (Ok f, w') → jobs (w_db w) !! a_id a = Some j → ginv b w → ginv b w'.
Proof.
  unfold settle_job. intros Hr Hj Hi.
  apply bind_Ok in Hr as (u1 & w1 & H1 & Hr). apply bind_Ok in Hr as (u2 & w2 & H2 & Hr).
  apply bind_Ok in Hr as (n & w3 & H3 & Hr).
  destruct (end_job_Ok _ _ j _ _ _ _ _ _ _ H1 H2 H3 Hj) as (Hh0 & Hj3 & Hh3 & _ & Hst).
  destruct (failed a).
  - apply bind_Ok in Hr as ([k1 k2] & w4 & H4 & Hr). injection Hr as _ <-.
    eapply cascade_guards; [exact H4|].
    eapply (ginv_fail w w3 (a_id a) j (finish_row Failed _ _ _ j));
      [done|done|done| | |done|done]; [unfold tables; by rewrite Hj3, Hh3|lia].
  - apply bind_Ok in Hr as (x & w4 & H4 & Hr). injection Hr as _ <-.
    destruct (j_parent_id j) as [p|] eqn:Hp.
    + eapply (child_completed_ginv now p (a_id a) j (finish_row Completed _ _ _ j) w w3);
        [exact Hi|exact Hj|exact Hh0|done|done|exact Hp|exact Hj3|exact Hh3|lia|exact H4].
    + injection H4 as _ <-. destruct Hi as [Hg Hk]. split; rewrite Hj3, Hh3.
      * eapply gated_complete; [done..|]. by rewrite Hp.
      * eapply known_end; [eapply known_le; [|exact Hk]; lia|exact Hj|done].
Qed.
Lemma finish_job_guards a : guards (finish_job a).
Proof.
  unfold finish_job. destruct (_ || _); [apply guards_frame; frame|].
  apply guards_bind; [|intros [f|]; apply guards_frame; frame].
  apply guards_transaction.
  { frame; eauto using retry_job_frame, settle_job_frame. unfold finish_archived. frame. }
  intros w r w' Hr Hi. apply bind_Ok in Hr as (row & w1 & H1 & Hr). inv_run H1.
  destruct (jobs (w_db w) !! a_id a) as [j|] eqn:Hj.
  2:{ eapply guards_frame; [|exact Hr|]; [unfold finish_archived; frame|].
      eapply ginv_frame; [..|exact Hi]; simpl; [done|lia]. }
  destruct (is_state (j_state j) Active) eqn:Ha; simpl in Hr; [|done].
  apply bool_decide_eq_true in Ha. destruct (bool_decide _); [done|].
  destruct (negb _); [done|]. apply bind_Ok in Hr as (now & w2 & H2 & Hr). inv_run H2.
  apply bind_Ok in Hr as (e & w3 & H3 & Hr). inv_run H3. destruct (lease_over _ _); [done|].
  apply bind_Ok in Hr as (f & w4 & H4 & Hr). injection Hr as _ <-. apply map_err_Ok in H4.
  assert (ginv b (tick (tick (tick w)))) as Hi3
    by (eapply ginv_frame; [..|exact Hi]; simpl; [done|lia]).
  destruct (failed a && _ && _); [by eapply retry_job_ginv|by eapply settle_job_ginv].
Qed.
Lemma complete_job_guards id worker n res : guards (complete_job id worker n res).
Proof.
  unfold complete_job. destruct (_ <? _); [apply guards_frame; frame|].
  apply guards_bind; [apply finish_job_guards|]. intros x. apply guards_frame. frame.
Qed.

(** *** Flows *)
Lemma flatten_request md t depth n :
  Forall (node_ok md) (flatten t None depth n) →
  request n (tree_size t) (flatten t None depth n).
Proof.
  intros Hok. split.
  - apply flatten_ids.
  - by apply flatten_gates.
  - eapply list.Forall_impl; [exact Hok|]. intros x (_ & _ & _ & Hw & _). rewrite <-Hw.
    unfold has_children, is_state. by rewrite bool_decide_eq_true.
  - apply flatten_parents.
Qed.
Lemma flatten_all_request md cs depth n :
  Forall (node_ok md) (flatten_all (λ c, flatten c None depth) cs n) →
  request n (sum_list_with tree_size cs) (flatten_all (λ c, flatten c None depth) cs n).
Proof.
  intros Hok. split.
  - apply flatten_all_ids, list.Forall_forall. intros. apply flatten_ids.
  - apply flatten_all_roots_gates.
  - eapply list.Forall_impl; [exact Hok|]. intros x (_ & _ & _ & Hw & _). rewrite <-Hw.
    unfold has_children, is_state. by rewrite bool_decide_eq_true.
  - apply flatten_all_parents, list.Forall_forall. intros. apply flatten_parents.
Qed.
Lemma node_row_faithful tree now :
  faithful None (λ x, node_row tree now (p_parent_id x) (p_depth x) x).
Proof. split; intros x; [unfold node_row; simpl; by destruct (p_parent_id x)|done..]. Qed.
Lemma attached_row_faithful id tree depth now : faithful (Some id) (attached_row id tree depth now).
Proof. split; intros x; [unfold node_row; simpl; by destruct (p_parent_id x)|done..]. Qed.

(** A new tree next to the jobs there are. *)
Lemma tree_gated md t depth n tree now d d' :
  Forall (node_ok md) (flatten t None depth n) →
  rows_written (λ x, node_row tree now (p_parent_id x) (p_depth x) x) (flatten t None depth n) d d' →
  gated b (jobs d) (job_history d) → known n (jobs d) (job_history d) →
  gated b (jobs d') (job_history d') ∧ known (n + tree_size t) (jobs d') (job_history d').
Proof.
  intros Hok Hw Hg Hk. pose proof (flatten_request _ _ _ _ Hok) as Hq.
  eapply (request_gated b n); [exact Hq|apply node_row_faithful|done|exact Hw|exact Hk|].
  intros p j Hj. rewrite (kids_old_job n (tree_size t) _ _ None);
    [|done|apply node_row_faithful|by eapply known_low].
  by apply Hg.
Qed.
Lemma trees_gated md now fs n d d' :
  Forall (Forall (node_ok md)) (flat_trees fs n) → trees_written now n fs d d' →
  gated b (jobs d) (job_history d) → known n (jobs d) (job_history d) →
  gated b (jobs d') (job_history d')
  ∧ known (n + sum_list_with tree_size fs) (jobs d') (job_history d').
Proof.
  revert n d. induction fs as [|t fs IH]; intros n d Hok Hw Hg Hk; simpl in *.
  { injection Hw as -> ->. by rewrite Nat.add_0_r. }
  apply list.Forall_cons in Hok as [Hok Hoks]. destruct Hw as (d1 & Hw & Hws).
  eapply tree_gated in Hw as [Hg1 Hk1]; [|done..]. rewrite Nat.add_assoc. by eapply IH.
Qed.
Lemma ginv_of_known w' n d :
  gated b (jobs d) (job_history d) ∧ known n (jobs d) (job_history d) →
  tables (w_db w') = tables d → (n ≤ w_step w')%nat → ginv b w'.
Proof. intros [Hg Hk] [= Tj Th] Hle. split; rewrite Tj, Th; [done|by eapply known_le]. Qed.

Lemma flow_frames l flow flows :
  keeps any (add_flow l flow) ∧ keeps any (add_flow_bulk l flows)
  ∧ keeps any (add_flow_merge l flow).
Proof.
  split_and!.
  - unfold add_flow. frame; try apply flow_reject_frame; try apply or_rejected_frame;
      try apply prepare_node_frame; try apply insert_tree_frame; apply _.
  - unfold add_flow_bulk. frame; try apply flow_reject_frame; try apply or_rejected_frame;
      try apply prepare_trees_frame; try apply insert_tree_frame; apply _.
  - unfold add_flow_merge. frame; try apply flow_reject_frame; try apply or_rejected_frame;
      try apply merge_body_frame; try apply _. frame. apply prepare_node_frame, _.
Qed.

Lemma add_flow_guards l flow : guards (add_flow l flow).
Proof.
  destruct flow as [t|]; [|apply guards_frame, flow_reject_frame, _].
  intros w r w' Hr Hi. pose proof (proj1 (flow_frames l (Some t) []) _ _ _ Hr) as [_ Hle].
  apply add_flow_rows in Hr. destruct r as [resp|e].
  2:{ destruct Hr as [Hd _]. by eapply ginv_frame; [rewrite Hd|..]. }
  destruct Hr as (_ & (seen & w1 & Hp) & Hw & Hn & _).
  apply prepare_node_Ok in Hp as (_ & _ & Hok & _). destruct Hi as [Hg Hk].
  eapply ginv_of_known; [eapply tree_gated; [exact Hok|exact Hw|done..]|done|done].
Qed.
Lemma add_flow_bulk_guards l flows : guards (add_flow_bulk l flows).
Proof.
  intros w r w' Hr Hi. pose proof (proj1 (proj2 (flow_frames l None flows)) _ _ _ Hr) as [_ Hle].
  apply add_flow_bulk_rows in Hr. destruct r as [resps|e].
  2:{ destruct Hr as [Hd _]. by eapply ginv_frame; [rewrite Hd|..]. }
  destruct Hr as (_ & Hok & (now & Hw) & Hn & _). destruct Hi as [Hg Hk].
  eapply ginv_of_known; [eapply trees_gated; [exact Hok|exact Hw|done..]|done|done].
Qed.
(** A merge: the gate of the target counts the roots of the request. *)
Lemma add_flow_merge_guards l flow : guards (add_flow_merge l flow).
Proof.
  destruct flow as [[f cs]|]; [|apply guards_frame, flow_reject_frame, _].
  intros w r w' Hr Hi.
  pose proof (proj2 (proj2 (flow_frames l (Some (mkFlow f cs)) [])) _ _ _ Hr) as [_ Hle].
  apply add_flow_merge_rows in Hr. destruct r as [resp|e].
  2:{ destruct Hr as [Hd _]. by eapply ginv_frame; [rewrite Hd|..]. }
  destruct Hr as (Hne & Hok & _ & Hn & t & t' & Ht & Hdor & [Gs Gp _ Gi] & Hw & _).
  destruct Hi as [Hg Hk]. set (id := mr_parent_id resp) in *.
  assert (low (w_step w) id) as Hlow by (by eapply known_low).
  assert (j_parent_id t' = j_parent_id t) as Hpar by (by injection Gi).
  pose proof (flatten_all_request _ _ _ _ Hok) as Hq.
  eapply ginv_of_known; [eapply request_gated|done|exact Hn];
    [exact Hq|apply attached_row_faithful| |exact Hw| |].
  - by intros p [= <-].
  - simpl. by eapply known_update.
  - simpl. intros p j Hj. unfold owed. rewrite (count_update _ _ _ t) by done.
    rewrite (kids_old_job (w_step w) _ _ _ (Some id)) with (1 := Hq) (2 := attached_row_faithful _ _ _ _).
    2:{ apply lookup_insert_Some in Hj as [[<- _]|[_ Hj]]; [done|by eapply known_low]. }
    rewrite flatten_all_roots. apply lookup_insert_Some in Hj as [[<- <-]|[Hne' Hj]].
    + rewrite decide_True by done. destruct (Hg _ _ Ht) as [Hc _].
      pose proof (gate_ok_le _ _ _ (Hg _ _ Ht)). unfold owed, gate_ok in *. rewrite Gp, Gs.
      assert (0 < length cs)%nat by (destruct cs; simpl; [done|lia]).
      split; [destruct b; lia|]. split; [done|lia].
    + rewrite decide_False by congruence. by apply Hg.
Qed.
End Guard.

(** *** Retention *)
Definition shrinks : relation Db := λ d d',
  jobs d' = jobs d ∧ ∃ ids, job_history d' = delete_keys ids (job_history d).
#[local] Instance shrinks_preorder : PreOrder shrinks.
Proof.
  split; unfold shrinks; [intros d; split; [done|by exists []]|].
  intros d1 d2 d3 [Hj1 (i1 & H1)] [Hj2 (i2 & H2)]. split; [congruence|]. exists (i2 ++ i1)%list.
  rewrite H2, H1. unfold delete_keys. by rewrite foldr_app.
Qed.
Lemma sweep_shrinks cfg : keeps shrinks (sweep cfg).
Proof.
  unfold sweep, sweep_blocking, sweep_body, prune_age, prune_count, prune_receipts,
    prune_chain_counters, prune_facet_dispatch, prune_rejections, when.
  frame; injection H as <- <-; (split; [done|]); simpl; first [by eexists|by exists []].
Qed.
Lemma sweep_guards cfg : guards false (sweep cfg).
Proof.
  intros w r w' Hr [Hg Hk]. apply sweep_shrinks in Hr as [[Hj (ids & Hh)] Hle].
  split; rewrite Hj, Hh; [by apply gated_prune|].
  apply known_prune. by eapply known_le.
Qed.

(** ** Runs *)

(** No job is enqueued with the identifier of a parent. *)
Definition within_flows (c : Call) : bool :=
  match c with
  | AddJob req => parentless req
  | AddJobBulk reqs => forallb parentless reqs
  | _ => true
  end.

Lemma tick_or_guards b {E A} count (m : M E A) : guards b m → guards b (tick_or count m).
Proof.
  intros Hm. unfold tick_or. apply guards_bind; [by apply guards_attempt|].
  intros [a|e]; apply guards_frame; frame.
Qed.
Lemma after_guards b {E A} (m : M E A) w : guards b m → ginv b w → ginv b (after m w).
Proof. intros Hm Hi. unfold after. destruct (m w) as [r w'] eqn:Hr. by eapply Hm. Qed.

(** Every call within flows keeps the gates; without pruning they stay exact. *)
Lemma perform_guards b sv c w :
  within_flows c = true → (b = true → prunes c = false) → ginv b w → ginv b (perform sv c w).
Proof.
  intros Hf Hp Hi. destruct c; simpl in *; try (apply after_guards; [|done]).
  - by apply enqueue_guards.
  - apply enqueue_bulk_guards. apply list.Forall_forall. intros q Hq.
    by apply (proj1 (forallb_forall _ _) Hf), list_elem_of_In.
  - apply get_next_job_guards.
  - apply complete_job_guards.
  - apply finish_job_guards.
  - apply renew_lease_guards.
  - apply add_flow_guards.
  - apply add_flow_bulk_guards.
  - apply add_flow_merge_guards.
  - apply guards_frame, get_children_values_frame, _.
  - apply guards_frame, (limit_frames req "").
  - apply guards_frame, (limit_frames (mkUpsertRule "" 0 0) facet).
  - apply guards_frame, (limit_frames (mkUpsertRule "" 0 0) facet).
  - apply guards_frame, (limit_frames req "").
  - apply guards_frame, (limit_frames (mkUpsertRule "" 0 0) facet).
  - apply guards_frame, (limit_frames (mkUpsertRule "" 0 0) facet).
  - apply guards_frame, (scheduler_frames req "").
  - apply guards_frame, (scheduler_frames (mkUpsertSched "" None None) id).
  - apply guards_frame, (scheduler_frames (mkUpsertSched "" None None) id).
  - apply guards_frame, (scheduler_frames (mkUpsertSched "" None None) "").
  - apply tick_or_guards, recover_expired_guards.
  - destruct b; [by specialize (Hp eq_refl)|]. destruct (enabled _); [|done].
    apply after_guards; [|done]. apply tick_or_guards, sweep_guards.
  - apply run_once_guards.
Qed.

(** The worlds reached within flows; [exact]: without a retention pass. *)
Inductive flow_step (exact : bool) (sv : Service) : World → World → Prop :=
| FCall c w :
    typed_call c → within_flows c = true → (exact = true → prunes c = false) →
    flow_step exact sv w (perform sv c w)
| FRestart w : flow_step exact sv w (restart sv w).
Definition flow_reachable (exact : bool) (sv : Service) (w : World) : Prop :=
  rtc (flow_step exact sv) (initial sv) w.

Lemma flow_reachable_call b sv c w :
  flow_reachable b sv w → typed_call c → within_flows c = true → (b = true → prunes c = false) →
  flow_reachable b sv (perform sv c w).
Proof. intros Hr Ht Hw Hp. eapply rtc_r; [exact Hr|by constructor]. Qed.
Lemma flow_reachable_reachable b sv w : flow_reachable b sv w → reachable sv w.
Proof. apply rtc_subrel. intros ?? [c w0 ? ? ?|w0]; by constructor. Qed.

Lemma initial_ginv b sv : ginv b (initial sv).
Proof. split; [by intros p j|]. by split. Qed.
Lemma flow_reachable_ginv b sv w : flow_reachable b sv w → ginv b w.
Proof.
  intros Hr. apply (rtc_ind_r (λ w, ginv b w) (initial sv)) in Hr; [done|apply initial_ginv|].
  intros w1 w2 Hrun Hs Hi. destruct Hs as [c w1 _ Hw Hp|w1]; [by apply perform_guards|].
  destruct (reachable_implements sv w1) as (s & _ & Hi').
  { by eapply flow_reachable_reachable. }
  eapply ginv_frame; [|..|exact Hi]; unfold restart, boot; simpl; [|done].
  by rewrite (migrate_id _ _ Hi').
Qed.

(** *** Why a job waits *)

(** [c] is a live child of [p]. *)
Definition child_of (js : gmap string Job) (p c : string) : Prop :=
  ∃ j, js !! c = Some j ∧ j_parent_id j = Some p.
Definition failed_child (hs : gmap string HistRow) (p : string) : Prop :=
  ∃ id h, hs !! id = Some h ∧ h_parent_id h = Some p ∧ h_state h = Failed.

(** With exact gates, a job that waits for children has one that is live or has failed. *)
Lemma gated_reason js hs p j :
  gated true js hs → js !! p = Some j → j_state j = WaitingChildren →
  (∃ c, child_of js p c) ∨ failed_child hs p.
Proof.
  intros Hg Hj Hs. destruct (Hg _ _ Hj) as [Hk Hw]. rewrite <-Hw, Hk in Hs. unfold owed in Hs.
  destruct (decide (kids js p = 0%nat)) as [Hz|Hz]; [right|left].
  - assert (failed_kids hs p ≠ 0%nat) as Hf by lia.
    apply map_size_ne_0_lookup in Hf as (id & h & [Hh Hp]%map_lookup_filter_Some).
    exists id, h. unfold failed_parent, is_state in Hp. simpl in Hp. case_bool_decide; done.
  - apply map_size_ne_0_lookup in Hz as (id & c & [Hc Hp]%map_lookup_filter_Some).
    exists id, c. done.
Qed.
(** Following live children downwards ends: identifiers grow, and only finitely many have
    been drawn. *)
Lemma gated_progress n js hs p j :
  gated true js hs → known n js hs → js !! p = Some j →
  ∃ q x, rtc (child_of js) p q ∧ js !! q = Some x
         ∧ (j_state x ≠ WaitingChildren ∨ failed_child hs q).
Proof.
  intros Hg Hk Hj. destruct (known_low _ _ _ _ _ Hk Hj) as (i & Hi & Hlt).
  remember (n - i)%nat as m eqn:Hm. revert p j i Hj Hi Hlt Hm.
  induction (lt_wf m) as [m _ IH]. intros p j i Hj -> Hlt ->.
  destruct (decide (j_state j = WaitingChildren)) as [Hs|Hs]; [|exists (new_v4 i), j; auto using rtc_refl].
  destruct (gated_reason _ _ _ _ Hg Hj Hs) as [(c & x & Hx & Hp)|Hf];
    [|exists (new_v4 i), j; auto using rtc_refl].
  destruct (kn_order _ _ _ Hk _ _ _ Hx Hp) as (i' & k & <-%new_v4_inj & -> & Hik).
  destruct (known_low _ _ _ _ _ Hk Hx) as (k' & <-%new_v4_inj & Hkn).
  destruct (IH (n - k)%nat ltac:(lia) (new_v4 k) x k Hx eq_refl Hkn eq_refl) as (q & y & Hq & Hy).
  exists q, y. split; [|done]. eapply rtc_l; [|exact Hq]. by exists x.
Qed.

(** C13: children first, and no flow stalls.  Along every run in which jobs get parents
    through flows only, restarts and failing statements included, a job is claimable or
    running only after all its children have completed: while it does not wait for children,
    none of them is live and every one still archived is Completed.  And it never waits
    without a reason: as long as retention has removed nothing, following live children down
    from a job leads to one that does not wait, due, delayed or running, or to one with a
    child that has failed.  There is no cycle of jobs that wait for each other. *)
Theorem children_complete_first b sv w p j :
  flow_reachable b sv w → jobs (w_db w) !! p = Some j →
  (j_state j ≠ WaitingChildren →
     (∀ id c, jobs (w_db w) !! id = Some c → j_parent_id c ≠ Some p)
     ∧ (∀ id h, job_history (w_db w) !! id = Some h → h_parent_id h = Some p →
          h_state h = Completed))
  ∧ (b = true →
       ∃ q x, rtc (child_of (jobs (w_db w))) p q ∧ jobs (w_db w) !! q = Some x
              ∧ (j_state x ≠ WaitingChildren ∨ failed_child (job_history (w_db w)) q)).
Proof.
  intros Hr Hj. pose proof (flow_reachable_ginv _ _ _ Hr) as [Hg Hkn].
  destruct (reachable_implements sv w) as (s & _ & Hi); [by eapply flow_reachable_reachable|].
  pose proof (gate_ok_le _ _ _ (Hg _ _ Hj)) as Hle. destruct (Hg _ _ Hj) as [_ Hw].
  unfold owed in *. split; [|intros ->; by eapply gated_progress].
  intros Hs. rewrite <-Hw in Hs.
  assert (kids (jobs (w_db w)) p = 0%nat ∧ failed_kids (job_history (w_db w)) p = 0%nat)
    as [Hz Hz'] by lia.
  rewrite count_zero in Hz. rewrite count_zero in Hz'. split; [exact Hz|]. intros id h Hh Hp.
  specialize (Hz' _ _ Hh). unfold failed_parent, is_state in Hz'.
  assert (hist_wf h) as Hwf.
  { destruct Hi as [_ Hih _ [_ Hhist _ _]]. rewrite <-Hih in Hh. by apply (Hhist id). }
  destruct Hwf as [_ Hst]. by destruct (h_state h).
Qed.
End GateRuns.
