(* ===== verification/Work.v ===== *)
(** * Flows finish

    A worker that claims a job and completes it, again and again, works off every tree of
    jobs: a completed child counts its parent down, the last one opens its gate, and the
    parent is claimed in turn.  The theorem puts claims, leases, acknowledgements and the
    gates of flows together: as many rounds as there are jobs leave none. *)
From Stdlib Require Import Ascii String.
From S2P Require Import Prelude Text Query F64 Scheduling Db Pressure Telemetry Broker.
From S2P Require Import Lifecycle RateLimit Ingress Enqueue Leases Claim Finish Flow FlowTree.
From S2P Require Import FlowSim FlowSpec Retention Schedulers System Quotas Serve Gates.
Local Open Scope string_scope.
Local Open Scope Z_scope.

(** What the completion of a child does to the row of its parent: at most its gate and its
    state change, and the state only into a runnable one. *)
Definition counted (q q' : Job) : Prop :=
  j_available_at q' = j_available_at q
  ∧ (j_state q' = j_state q ∨ runnable (j_state q') = true).
Lemma counted_refl q : counted q q.
Proof. split; [done|by left]. Qed.
Definition counted_map (js js' : gmap string Job) : Prop :=
  ∀ p, option_Forall2 counted (js !! p) (js' !! p).
Lemma counted_map_refl js : counted_map js js.
Proof. intros p. destruct (js !! p); constructor. apply counted_refl. Qed.
Lemma counted_insert js p q q' :
  js !! p = Some q → counted q q' → counted_map js (<[p := q']> js).
Proof.
  intros Hq Hc r. destruct (decide (r = p)) as [->|Hne].
  - rewrite Hq, lookup_insert_eq. by constructor.
  - rewrite lookup_insert_ne by done. apply counted_map_refl.
Qed.
Lemma counted_dom js js' : counted_map js js' → dom js' = dom js.
Proof.
  intros Hc. apply set_eq. intros p. rewrite !elem_of_dom.
  destruct (Hc p); split; intros [? ?]; eauto; done.
Qed.
Lemma counted_live js js' p q' :
  counted_map js js' → js' !! p = Some q' → ∃ q, js !! p = Some q ∧ counted q q'.
Proof. intros Hc Hq'. specialize (Hc p). rewrite Hq' in Hc. inversion Hc; subst. eauto. Qed.

Section Completion.
Context `{HE : Env}.

(** The tables after a completion that was no replay. *)
Lemma completion_tables a w b w' j :
  finish_job a w = (Ok b, w') → failed a = false → jobs (w_db w) !! a_id a = Some j →
  job_history (w_db w) !! a_id a = None
  ∧ counted_map (delete (a_id a) (jobs (w_db w))) (jobs (w_db w'))
  ∧ ∃ h, h_state h = Completed ∧ job_history (w_db w') = <[a_id a := h]> (job_history (w_db w)).
Proof.
  intros Hr Hf Hj. apply finish_job_Ok in Hr as [((_ & ? & _) & _)|
    (j' & f & w1 & Hj' & _ & Hrun & -> & _)]; [congruence|].
  rewrite Hj in Hj'. injection Hj' as <-. unfold will_retry in Hrun. rewrite Hf in Hrun.
  cbn [andb] in Hrun. unfold settle_job in Hrun. rewrite Hf in Hrun.
  apply bind_Ok in Hrun as (u1 & w2 & H1 & Hr). apply bind_Ok in Hr as (u2 & w3 & H2 & Hr).
  apply bind_Ok in Hr as (n & w4 & H3 & Hr).
  destruct (end_job_Ok _ _ j _ _ _ _ _ _ _ H1 H2 H3 Hj) as (Hh0 & Hj4 & Hh4 & _ & _).
  split; [exact Hh0|].
  apply bind_Ok in Hr as (x & w5 & H5 & Hr). injection Hr as _ <-.
  change (w_db (tick (tick (tick (tick w))))) with (w_db w) in Hj4, Hh4.
  assert (∃ h, h_state h = Completed
    ∧ job_history (w_db w4) = <[a_id a := h]> (job_history (w_db w))) as Hend.
  { eexists. split; [|exact Hh4]. done. }
  rewrite <-Hj4. destruct (j_parent_id j) as [p|];
    [|injection H5 as _ <-; split; [apply counted_map_refl|done]].
  destruct (jobs (w_db w4) !! p) as [q|] eqn:Hq.
  - destruct (child_completed_Ok _ _ _ _ _ _ H5 Hq) as [Hout ->]. split; [|done].
    destruct x as [s|].
    + destruct Hout as (_ & _ & Hs & _ & t & ->). apply (counted_insert _ _ q); [done|].
      split; [done|by right].
    + destruct Hout as (_ & ->). apply (counted_insert _ _ q); [done|]. split; [done|by left].
  - apply child_completed_gone_parent in H5 as [_ [= -> ->]]; [|done].
    split; [apply counted_map_refl|done].
Qed.

(** Without faults a completion by the holder of the claim goes through. *)
Lemma stmt_calm {A} (f : nat → Db → result SqlError (A * Db)) w a d :
  calm w → f (w_step w) (w_db w) = Ok (a, d) →
  stmt f w = (Ok a, mkWorld d (w_metrics w) (S (w_step w))).
Proof. intros Hc Hf. unfold stmt. by rewrite Hc, Hf. Qed.
Lemma child_completed_calm now parent w :
  calm w → ∃ r w', child_completed now parent w = (Ok r, w') ∧ calm w'.
Proof.
  intros Hc. unfold child_completed. erewrite bind_run by (by apply execute_calm).
  set (w1 := mkWorld _ _ _). assert (calm w1) as Hc1 by (eapply calm_step; [exact Hc|simpl; lia]).
  erewrite bind_run by (by apply query_calm).
  assert (calm (tick w1)) as Hc2 by (eapply calm_step; [exact Hc|simpl; lia]).
  destruct (jobs (w_db w1) !! parent) as [p|]; [|by do 2 eexists].
  destruct (_ && _); [|by do 2 eexists].
  erewrite bind_run by (by apply stmt_calm). do 2 eexists. split; [done|].
  eapply calm_step; [exact Hc|simpl; lia].
Qed.
Lemma settle_completed_calm a j now w :
  calm w → failed a = false → jobs (w_db w) !! a_id a = Some j →
  job_history (w_db w) !! a_id a = None →
  ∃ f w', settle_job a j now w = (Ok f, w') ∧ calm w'.
Proof.
  intros Hc Hf Hj Hh. unfold settle_job. rewrite Hf.
  erewrite bind_run; [|eapply stmt_calm; [done|]].
  2:{ rewrite Hj. unfold insert_history, insert_new. by rewrite Hh. }
  set (w1 := mkWorld _ _ _). assert (calm w1) as Hc1 by (eapply calm_step; [exact Hc|simpl; lia]).
  erewrite bind_run by (by apply execute_calm). set (w2 := mkWorld _ _ _).
  assert (calm w2) as Hc2 by (eapply calm_step; [exact Hc1|simpl; lia]).
  unfold release_stmt. destruct (release_receipts (a_id a) (w_db w2)) as [n d] eqn:Hrel.
  erewrite bind_run by (eapply stmt_calm; [done|by rewrite Hrel]). set (w3 := mkWorld _ _ _).
  assert (calm w3) as Hc3 by (eapply calm_step; [exact Hc2|simpl; lia]).
  destruct (j_parent_id j) as [p|].
  - destruct (child_completed_calm now p w3 Hc3) as (r & w4 & H4 & Hc4).
    rewrite (bind_run _ _ _ _ _ H4). by do 2 eexists.
  - erewrite bind_run by done. by do 2 eexists.
Qed.
Lemma finish_completed_calm a j w :
  calm w → failed a = false → is_blank (a_id a) || is_blank (a_worker_id a) = false →
  jobs (w_db w) !! a_id a = Some j → job_history (w_db w) !! a_id a = None →
  holds_claim a (clock (S (S (w_step w)))) j →
  ∃ b w', finish_job a w = (Ok b, w') ∧ calm w'.
Proof.
  intros Hc Hf Hb Hj Hh (Hs & Ho & Hn & e & He & Hlt). unfold finish_job. rewrite Hb.
  assert (∀ w1, (w_step w ≤ w_step w1)%nat → calm w1) as Hcs by (intros w1; by apply calm_step).
  set (now := clock (S (S (w_step w)))) in *.
  destruct (settle_completed_calm a j now (tick (tick (tick (tick w))))) as (f & w1 & H1 & Hc1);
    [apply Hcs; simpl; lia|done|done|done|].
  erewrite bind_run; [|eapply transaction_calm; [done| |exact Hc1]].
  2:{ erewrite bind_run; [|unfold map_err; by rewrite query_calm by (apply Hcs; simpl; lia)].
      simpl. rewrite Hj. unfold is_state. rewrite (bool_decide_true _ Hs). simpl.
      rewrite bool_decide_false by (rewrite Ho; tauto). unfold acked_attempt in Hn.
      rewrite <-Hn, Z.eqb_refl. simpl.
      erewrite bind_run; [|unfold map_err; by rewrite now_calm by (apply Hcs; simpl; lia)].
      erewrite bind_run; [|unfold map_err; by rewrite query_calm by (apply Hcs; simpl; lia)].
      simpl. rewrite Hj. simpl. rewrite He. simpl. fold now.
      rewrite (proj2 (Z.leb_gt _ _)) by done. rewrite Hf. simpl.
      erewrite bind_run; [|unfold map_err; by rewrite H1]. reflexivity. }
  do 2 eexists. split; [done|]. eapply calm_step; [exact Hc1|simpl; lia].
Qed.
End Completion.

(** ** Rounds of work *)
Section Work.
Context `{HE : Env, HU : !UuidLaw HE, HP : Prost, HC : CronLib}.

(** A round: a poll, and the completion of the job it returns. *)
Definition work_round (sv : Service) (req : GetNextJobRequest) (res : bytes) (w : World) : World :=
  match get_next_job (sv_claim sv) req w with
  | (Ok job, w1) =>
      if n_found job
      then perform sv (CompleteJob (n_id job) (gn_worker_id req) (n_attempts job) res) w1 else w1
  | (Err _, w1) => w1
  end.

Section Rounds.
Context (sv : Service) (req : GetNextJobRequest) (res : bytes) (t : Z).
Context (Hworker : is_blank (gn_worker_id req) = false) (Hqueues : gn_queue_names req = []).
Context (Hres : Z.of_nat (length res) ≤ MAX_RESULT_BYTES).
Context (Hclock : ∀ n m, (n ≤ m)%nat → clock n ≤ clock m).
Context (Hlease : ∀ n m, (n ≤ m ≤ n + 8)%nat →
           clock m < wrap_i64 (clock n + lease_duration_ms (sv_claim sv))).

(** Nothing stands in the way of the jobs: none has a blank identifier (a UUID never is
    one), or is held by another worker, delayed past
    [t], subject to a rule, or waiting for a child that has failed. *)
Record workable (w : World) : Prop := {
  wk_run : flow_reachable true sv w;
  wk_calm : calm w;
  wk_time : t ≤ clock (w_step w);
  wk_rules : rate_limit_rules (w_db w) = ∅;
  wk_rows : ∀ id j, jobs (w_db w) !! id = Some j →
              is_blank id = false ∧ j_state j ≠ Active ∧ due_by t (j_available_at j) = true
              ∧ ¬ failed_child (job_history (w_db w)) id;
}.

Lemma workable_wf w id j : workable w → jobs (w_db w) !! id = Some j → job_wf j.
Proof.
  intros [Hr _ _ _ _] Hj. destruct (reachable_implements sv w) as (s & _ & Hi).
  { by eapply flow_reachable_reachable. }
  by eapply implements_job_wf.
Qed.
(** While jobs are left, one of them is due: gates do not wait for each other. *)
Lemma workable_due w :
  workable w → jobs (w_db w) ≠ ∅ →
  ∃ id j, jobs (w_db w) !! id = Some j ∧ candidate [] t j = true.
Proof.
  intros Hw Hne. pose proof Hw as [Hr _ _ _ Hrows]. apply map_choose in Hne as (p & j & Hj).
  destruct (flow_reachable_ginv _ _ _ Hr) as [Hg Hk].
  destruct (gated_progress _ _ _ _ _ Hg Hk Hj) as (q & x & _ & Hx & Hwhy). exists q, x.
  split; [done|]. destruct (Hrows _ _ Hx) as (_ & Ha & Hd & Hf). destruct Hwhy as [Hs|?]; [|done].
  pose proof (workable_wf _ _ _ Hw Hx) as [Hst _]. unfold candidate, job_due. rewrite Hd.
  by destruct (j_state x).
Qed.

(** The poll of a round claims a job under a lease that has not run out when the
    acknowledgement reads the clock. *)
Lemma round_claims w :
  workable w → jobs (w_db w) ≠ ∅ →
  ∃ r w1 j lease now, get_next_job (sv_claim sv) req w = (Ok r, w1) ∧ n_found r = true
    ∧ calm w1 ∧ (w_step w ≤ w_step w1)%nat ∧ rate_limit_rules (w_db w1) = ∅
    ∧ jobs (w_db w) !! n_id r = Some j ∧ n_attempts r = j_attempts j + 1
    ∧ jobs (w_db w1) = <[n_id r := claim_row (gn_worker_id req) (n_attempts r) now lease j]>
                         (jobs (w_db w))
    ∧ job_history (w_db w1) = job_history (w_db w)
    ∧ clock (S (S (w_step w1))) < lease.
Proof.
  intros Hw Hne. destruct (workable_due w Hw Hne) as (q & x & Hx & Hcand).
  pose proof Hw as [Hr Hc Ht Hru _].
  destruct (get_next_job_calm (sv_claim sv) req w) as (r & w1 & Hg & Hc1);
    [done|done|by rewrite Hqueues| |].
  { intros id j Hj Hrun. pose proof (workable_wf _ _ _ Hw Hj) as (Hst & Hm & _).
    destruct (j_state j); try done; lia. }
  pose proof (get_next_job_rules _ _ _ _ _ Hg) as [Hru1 Hle].
  pose proof (get_next_job_Ok _ _ _ _ _ Hg) as Hok. apply get_next_job_claim in Hg as Hcl.
  simpl in Hcl. destruct (claim_candidate _ _ _ _) as [[id j]|] eqn:Hsel.
  - destruct Hcl as (Hj & _ & w0 & y & w2 & _ & Hcs & Hry & _ & Hstep).
    destruct (claim_selected_lease _ _ _ _ _ _ _ _ Hcs) as (n & Hl & Hn).
    destruct Hok as (now2 & Hj1 & Hh1 & _ & Hres1).
    exists r, w1, j, (n_lease_expires_at_ms r), now2. rewrite Hres1. simpl. split_and!; try done.
    + by rewrite <-Hres1.
    + unfold same in Hru1. congruence.
    + rewrite <-Hry, Hres1 in Hl. simpl in Hl. rewrite Hl. apply Hlease. lia.
  - exfalso. apply head_order_by_None in Hsel.
    assert ((q, x) ∈ rows_where (claimable (w_db w) (gn_queue_names req) (clock (S (w_step w))))
              (jobs (w_db w))) as Hin.
    { apply elem_of_rows_where. split; [done|]. unfold claimable. rewrite Hqueues.
      rewrite (candidate_later [] t _ x), unruled_free; [done|..|done].
      - intros f _. by rewrite Hru.
      - pose proof (Hclock (w_step w) (S (w_step w)) ltac:(lia)). lia. }
    rewrite Hsel in Hin. by apply not_elem_of_nil in Hin.
Qed.

Lemma failed_child_completed hs id h p :
  h_state h = Completed → failed_child (<[id := h]> hs) p → hs !! id = None → failed_child hs p.
Proof.
  intros Hs (i & x & Hx & Hp & Hf) Hn. apply lookup_insert_Some in Hx as [[<- <-]|[_ Hx]]; [congruence|].
  by exists i, x.
Qed.
(** The acknowledgement of a round goes through. *)
Lemma round_acknowledges w r w1 j lease now :
  workable w → get_next_job (sv_claim sv) req w = (Ok r, w1) → calm w1 →
  jobs (w_db w) !! n_id r = Some j → n_attempts r = j_attempts j + 1 →
  jobs (w_db w1) = <[n_id r := claim_row (gn_worker_id req) (n_attempts r) now lease j]>
                     (jobs (w_db w)) →
  job_history (w_db w1) = job_history (w_db w) → clock (S (S (w_step w1))) < lease →
  ∃ b w', finish_job (mkAck (n_id r) (gn_worker_id req) (n_attempts r) None false
                        (if decide (res = []) then None else Some res)) w1 = (Ok b, w') ∧ calm w'.
Proof.
  intros Hw Hg Hc1 Hj Hatt Hj1 Hh1 Hlt. pose proof Hw as [Hr _ _ _ Hrows].
  destruct (reachable_implements sv w) as (s & _ & Hi); [by eapply flow_reachable_reachable|].
  destruct (Hrows _ _ Hj) as [Hid _].
  pose proof (workable_wf _ _ _ Hw Hj) as (Hst & _).
  eapply finish_completed_calm; [done|done|simpl; by rewrite Hworker, Hid| | |].
  - simpl. by rewrite Hj1, lookup_insert_eq.
  - simpl. rewrite Hh1. by eapply implements_disjoint.
  - split_and!; [done|done| |by exists lease]. unfold acked_attempt. simpl.
    destruct (Z.eqb_spec (n_attempts r) 0); [|done]. destruct (j_state j); naive_solver lia.
Qed.
Lemma round_runs w :
  workable w → jobs (w_db w) ≠ ∅ →
  let w' := work_round sv req res w in
  flow_reachable true sv w' ∧ calm w' ∧ (w_step w ≤ w_step w')%nat
  ∧ rate_limit_rules (w_db w') = ∅
  ∧ ∃ id h, is_Some (jobs (w_db w) !! id) ∧ job_history (w_db w) !! id = None
      ∧ counted_map (delete id (jobs (w_db w))) (jobs (w_db w')) ∧ h_state h = Completed
      ∧ job_history (w_db w') = <[id := h]> (job_history (w_db w)).
Proof.
  intros Hw Hne. cbv zeta. destruct (round_claims w Hw Hne)
    as (r & w1 & j & lease & now & Hg & Hfound & Hc1 & Hle & Hru & Hj & Hatt & Hj1 & Hh1 & Hlt).
  destruct (round_acknowledges w r w1 j lease now) as (b & w' & Hf & Hc'); [done..|].
  pose proof (finish_job_quotas _ _ _ _ Hf) as [[= Hru' _ _ _] Hle'].
  destruct (completion_tables _ w1 b w' (claim_row (gn_worker_id req) (n_attempts r) now lease j)
    Hf eq_refl) as (Hh & Hcm & h & Hhs & Hh').
  { simpl. by rewrite Hj1, lookup_insert_eq. }
  simpl in *. rewrite Hj1, delete_insert_eq in Hcm. rewrite Hh1 in Hh, Hh'.
  set (c := CompleteJob (n_id r) (gn_worker_id req) (n_attempts r) res).
  assert (perform sv c w1 = w') as Hp.
  { simpl. unfold after, complete_job.
    rewrite (proj2 (Z.ltb_ge _ _)) by done. by rewrite (bind_run _ _ _ _ _ Hf). }
  assert (work_round sv req res w = w') as ->.
  { unfold work_round. by rewrite Hg, Hfound. }
  split_and!; [|done|lia|congruence|by exists (n_id r), h].
  rewrite <-Hp. apply flow_reachable_call; [|done..].
  assert (perform sv (GetNextJob req) w = w1) as <- by (simpl; unfold after; by rewrite Hg).
  apply flow_reachable_call; [apply Hw|done..].
Qed.
(** A round archives one job as Completed and leaves the others to be worked on. *)
Lemma round_finishes_one w :
  workable w → jobs (w_db w) ≠ ∅ →
  let w' := work_round sv req res w in
  workable w' ∧ ∃ id h, id ∈ dom (jobs (w_db w)) ∧ job_history (w_db w) !! id = None
    ∧ dom (jobs (w_db w')) = dom (jobs (w_db w)) ∖ {[id]} ∧ h_state h = Completed
    ∧ job_history (w_db w') = <[id := h]> (job_history (w_db w)).
Proof.
  intros Hw Hne. cbv zeta.
  destruct (round_runs w Hw Hne) as (Hr & Hc & Hle & Hru & id & h & Hj & Hh & Hcm & Hs & Hh').
  pose proof Hw as [_ _ Ht _ Hrows]. split.
  - split; [done|done| |done|]; [pose proof (Hclock _ _ Hle); lia|]. intros p q' Hq'.
    destruct (counted_live _ _ _ _ Hcm Hq') as (q & [_ Hq]%lookup_delete_Some & Hav & Hst).
    destruct (Hrows _ _ Hq) as (Hb & Ha & Hd & Hnf). rewrite Hav, Hh'. split_and!; [done| |done|].
    + destruct Hst as [->|Hrun]; [done|]. by destruct (j_state q').
    + intros Hf. by eapply Hnf, failed_child_completed.
  - exists id, h. split_and!; [by apply elem_of_dom|done| |done|done].
    by rewrite (counted_dom _ _ Hcm), dom_delete_L.
Qed.

(** Without jobs a round changes nothing. *)
Lemma round_idle w :
  workable w → jobs (w_db w) = ∅ →
  workable (work_round sv req res w) ∧ w_db (work_round sv req res w) = w_db w.
Proof.
  intros Hw He. pose proof Hw as [Hr Hc Ht Hru Hrows].
  destruct (get_next_job_calm (sv_claim sv) req w) as (r & w1 & Hg & Hc1);
    [done|done|by rewrite Hqueues|by rewrite He|].
  assert (perform sv (GetNextJob req) w = w1) as Hp by (simpl; unfold after; by rewrite Hg).
  pose proof (get_next_job_rules _ _ _ _ _ Hg) as [_ Hle]. pose proof (get_next_job_Ok _ _ _ _ _ Hg) as Hok.
  destruct (claim_candidate _ _ _ _) as [[id j]|] eqn:Hsel.
  { apply claim_candidate_claimable in Hsel as [Hj _]. by rewrite He in Hj. }
  destruct Hok as [-> Hd]. assert (work_round sv req res w = w1) as ->.
  { unfold work_round. by rewrite Hg. }
  split; [|done]. split; rewrite ?Hd; try done.
  - rewrite <-Hp. by apply flow_reachable_call.
  - pose proof (Hclock _ _ Hle). lia.
Qed.

(** The job is live, or archived as Completed. *)
Definition live_in (w : World) (id : string) : Prop := id ∈ dom (jobs (w_db w)).
Definition completed_in (w : World) (id : string) : Prop :=
  ∃ h, job_history (w_db w) !! id = Some h ∧ h_state h = Completed.
Lemma round_progress w :
  workable w →
  let w' := work_round sv req res w in
  workable w' ∧ (size (dom (jobs (w_db w'))) ≤ pred (size (dom (jobs (w_db w)))))%nat
  ∧ ∀ id, live_in w id ∨ completed_in w id → live_in w' id ∨ completed_in w' id.
Proof.
  intros Hw. cbv zeta. destruct (decide (jobs (w_db w) = ∅)) as [He|Hne].
  { destruct (round_idle w Hw He) as [Hw' Hd]. unfold live_in, completed_in. rewrite Hd.
    split_and!; [done| |done]. rewrite He, dom_empty_L. done. }
  destruct (round_finishes_one w Hw Hne) as (Hw' & id & h & Hin & Hnone & Hdom & Hs & Hh).
  unfold live_in, completed_in. rewrite Hdom, Hh. split_and!; [done| |].
  - rewrite size_difference, size_singleton; [lia|]. by apply singleton_subseteq_l.
  - intros i. destruct (decide (i = id)) as [->|Hi]; [right; exists h; by rewrite lookup_insert_eq|].
    rewrite lookup_insert_ne by done. set_solver.
Qed.
Lemma rounds_progress k w :
  workable w →
  let w' := Nat.iter k (work_round sv req res) w in
  workable w' ∧ (size (dom (jobs (w_db w'))) ≤ size (dom (jobs (w_db w))) - k)%nat
  ∧ ∀ id, live_in w id ∨ completed_in w id → live_in w' id ∨ completed_in w' id.
Proof.
  intros Hw. cbv zeta. induction k as [|k (Hk & Hsize & Hkeep)]; [split_and!; [done|simpl; lia|done]|].
  change (Nat.iter (S k) (work_round sv req res) w)
    with (work_round sv req res (Nat.iter k (work_round sv req res) w)).
  destruct (round_progress _ Hk) as (Hk' & Hsize' & Hkeep'). split_and!; [done|lia|auto].
Qed.
End Rounds.

End Work.
