(* ===== verification/Gauges.v ===== *)
(** * The level gauges follow the tables

    The metrics hold one gauge per state of a job, moved up and down by the handlers after
    they commit, and counted once at the start of the process.  This file shows that they
    agree with the tables along every run within flows: each handler moves the gauges by
    exactly what its transaction did to the rows ([tally]), and an aborted transaction moves
    none.  The gauges are 64-bit atomics, so they agree on 64 bits. *)
From Stdlib Require Import Ascii String.
From S2P Require Import Prelude Text Query F64 Scheduling Db Pressure Telemetry Broker.
From S2P Require Import Lifecycle RateLimit Ingress Enqueue Leases Claim Finish Flow FlowTree.
From S2P Require Import FlowSim FlowSpec Retention Schedulers System Gates.
Local Open Scope string_scope.
Local Open Scope Z_scope.

(** ** Equality on 64 bits *)
Definition cong (x y : Z) : Prop := wrap_i64 x = wrap_i64 y.
#[export] Instance cong_equivalence : Equivalence cong.
Proof. split; unfold cong; [by intros x|by intros x y|]. intros x y z -> ->. done. Qed.

Lemma cong_add x y n : cong x y → cong (x + n) (y + n).
Proof.
  unfold cong, wrap_i64. intros Hxy.
  assert ((x + 2 ^ 63) mod 2 ^ 64 = (y + 2 ^ 63) mod 2 ^ 64) as Hm by lia.
  replace (x + n + 2 ^ 63) with (x + 2 ^ 63 + n) by lia.
  replace (y + n + 2 ^ 63) with (y + 2 ^ 63 + n) by lia.
  rewrite (Zplus_mod (x + 2 ^ 63) n), Hm, <-Zplus_mod. done.
Qed.
Lemma cong_fetch_add n x : cong (i64_fetch_add n x) (x + n).
Proof. unfold cong, i64_fetch_add. apply wrap_i64_id, wrap_i64_range. Qed.
Lemma cong_plus x y x' y' n : cong x y → x' = x + n → y' = y + n → cong x' y'.
Proof. intros Hxy -> ->. by apply cong_add. Qed.

(** ** Gauges *)

(** The gauge of a state: jobs that wait for children have one of their own. *)
Definition level (m : Metrics) (s : JobState) : Z :=
  match s with
  | WaitingChildren => flow_waiting_children m
  | _ => default 0 (position (state_name s) STATES ≫= λ i, states m !! i)
  end.

(** One job in state [s]. *)
Definition one (s s' : JobState) : Z := if decide (s = s') then 1 else 0.

(** [moves f δ]: [f] moves the gauge of each state by [δ]. *)
Definition moves (f : Metrics → Metrics) (δ : JobState → Z) : Prop :=
  ∀ m, length (states m) = 5%nat →
    length (states (f m)) = 5%nat ∧ ∀ s, cong (level (f m) s) (level m s + δ s).

Lemma moves_id : moves id (λ _, 0).
Proof. intros m Hm. split; [done|]. intros s. by rewrite Z.add_0_r. Qed.
Lemma moves_compose f g δ ε : moves f δ → moves g ε → moves (λ m, g (f m)) (λ s, δ s + ε s).
Proof.
  intros Hf Hg m Hm. destruct (Hf m Hm) as [Hl Hs]. destruct (Hg _ Hl) as [Hl' Hs'].
  split; [done|]. intros s. etrans; [apply Hs'|].
  rewrite Z.add_assoc. by apply cong_add.
Qed.
Lemma moves_ext f δ ε : (∀ s, δ s = ε s) → moves f δ → moves f ε.
Proof. intros He Hf m Hm. destruct (Hf m Hm) as [? Hs]. split; [done|]. intros s. by rewrite <-He. Qed.
Lemma moves_still f : (∀ m, levels (f m) = levels m) → moves f (λ _, 0).
Proof.
  intros Hf m Hm. specialize (Hf m). injection Hf as Hst Hfl _. split; [by rewrite Hst|].
  intros s. rewrite Z.add_0_r. unfold level. by rewrite Hst, Hfl.
Qed.
Lemma moves_if (b : bool) f g δ ε :
  moves f δ → moves g ε → moves (λ m, if b then f m else g m) (λ s, if b then δ s else ε s).
Proof. by destruct b. Qed.
Lemma moves_iter n f δ : moves f δ → moves (Nat.iter n f) (λ s, Z.of_nat n * δ s).
Proof.
  intros Hf. induction n as [|n IH]; [apply moves_id|].
  eapply moves_ext; [|apply (moves_compose _ _ _ _ IH Hf)]. intros s. simpl. lia.
Qed.
Lemma moves_foldl {A} (f : Metrics → A → Metrics) (δ : A → JobState → Z) l :
  (∀ a, moves (λ m, f m a) (δ a)) →
  moves (λ m, foldl f m l) (λ s, foldr (λ a n, δ a s + n) 0 l).
Proof.
  intros Hf. induction l as [|a l IH]; [apply moves_id|]. simpl.
  exact (moves_compose _ _ _ _ (Hf a) IH).
Qed.

(** A gauge of the array moves alone. *)
Definition metered_state (s : JobState) : bool := negb (is_state s WaitingChildren).
Lemma moves_bump n s :
  moves (bump_state n s) (λ s', if metered_state s then n * one s s' else 0).
Proof.
  intros m Hm. destruct (states m) as [|a [|b [|c [|d [|e [|? ?]]]]]] eqn:Hst; try done.
  destruct s; simpl; unfold bump_state; simpl; (split; [by rewrite ?Hst|]); intros s';
    unfold level; simpl; rewrite ?Hst; destruct s'; unfold one; simpl;
    rewrite ?Z.mul_0_r, ?Z.mul_1_r, ?Z.add_0_r; first [done|apply cong_fetch_add].
Qed.
Lemma moves_event e : moves (event e) (λ _, 0).
Proof. apply moves_still. intros m. unfold event. by destruct (position _ _). Qed.
(** The part of a transition the array of gauges sees. *)
Definition seen (s s' : JobState) : Z := if metered_state s then one s s' else 0.
Lemma moves_transition from to e :
  moves (transition from to e) (λ s, from_option (λ f, - seen f s) 0 from + seen to s).
Proof.
  assert (∀ n s s', (if metered_state s then n * one s s' else 0) = n * seen s s') as Hs.
  { intros n s s'. unfold seen. destruct (metered_state s); lia. }
  destruct from as [f|]; unfold transition.
  - eapply moves_ext; [|apply (moves_compose _ _ _ _ (moves_bump (-1) f)
      (moves_compose _ _ _ _ (moves_bump 1 to) (moves_event e)))].
    intros s. simpl. rewrite !Hs. lia.
  - eapply moves_ext; [|apply (moves_compose _ _ _ _ (moves_bump 1 to) (moves_event e))].
    intros s. simpl. rewrite Hs. lia.
Qed.
Lemma moves_waiting n :
  moves (λ m, m <| flow_waiting_children ::= i64_fetch_add n |>) (λ s, n * one WaitingChildren s).
Proof.
  intros m Hm. split; [done|]. intros s.
  destruct s; unfold level, one; simpl; rewrite ?Z.mul_0_r, ?Z.mul_1_r, ?Z.add_0_r;
    first [done|apply cong_fetch_add].
Qed.
Lemma moves_waiting_inc n :
  0 ≤ n → moves (flow_waiting_children_inc n) (λ s, n * one WaitingChildren s).
Proof.
  intros Hn. unfold flow_waiting_children_inc. destruct (Z.ltb_spec 0 n); [apply moves_waiting|].
  eapply moves_ext; [|apply moves_id]. intros s. simpl. replace n with 0 by lia. done.
Qed.
Lemma moves_waiting_dec n :
  0 ≤ n → moves (flow_waiting_children_dec n) (λ s, - n * one WaitingChildren s).
Proof.
  intros Hn. unfold flow_waiting_children_dec. destruct (Z.ltb_spec 0 n); [apply moves_waiting|].
  eapply moves_ext; [|apply moves_id]. intros s. simpl. replace n with 0 by lia. done.
Qed.
Lemma moves_named f : moves (λ m, m <| named ::= f |>) (λ _, 0).
Proof. by apply moves_still. Qed.
Lemma moves_pressure f : moves (λ m, m <| pressure ::= f |>) (λ _, 0).
Proof. by apply moves_still. Qed.

(** Peel the operations of a deferred update one by one, the last one first. *)
Lemma moves_last (f g : Metrics → Metrics) δ ε ζ :
  moves g ε → moves f δ → (∀ s, δ s + ε s = ζ s) → moves (λ m, g (f m)) ζ.
Proof. intros Hg Hf He. eapply moves_ext; [exact He|by apply moves_compose]. Qed.
Ltac peel_move :=
  lazymatch goal with
  | |- moves (λ m, transition ?a ?b ?e (@?f m)) _ =>
      eapply (moves_last f (transition a b e)); [apply moves_transition| |]
  | |- moves (λ m, event ?e (@?f m)) _ =>
      eapply (moves_last f (event e)); [apply moves_event| |]
  | |- moves (λ m, flow_waiting_children_inc ?n (@?f m)) _ =>
      eapply (moves_last f (flow_waiting_children_inc n)); [apply moves_waiting_inc; lia| |]
  | |- moves (λ m, flow_waiting_children_dec ?n (@?f m)) _ =>
      eapply (moves_last f (flow_waiting_children_dec n)); [apply moves_waiting_dec; lia| |]
  | |- moves (λ m, update_with named ?g (@?f m)) _ =>
      eapply (moves_last f (update_with named g)); [apply moves_named| |]
  | |- moves (λ m, update_with pressure ?g (@?f m)) _ =>
      eapply (moves_last f (update_with pressure g)); [apply moves_pressure| |]
  end.

(** The operations that move no level. *)
Ltac no_level := apply moves_still; intros ?; by repeat case_match.
Lemma moves_dedup n : moves (dedup_released n) (λ _, 0).
Proof. unfold dedup_released. no_level. Qed.
Lemma moves_stored (b : bool) : moves (λ m, if b then result_stored m else m) (λ _, 0).
Proof. no_level. Qed.
Lemma moves_nodes_created n : moves (flow_nodes_created n) (λ _, 0).
Proof. unfold flow_nodes_created. no_level. Qed.
Lemma moves_receipts n : moves (Nat.iter n enqueue_receipt_created) (λ _, 0).
Proof. apply moves_still. intros m. induction n; [done|]. simpl. by rewrite <-IHn. Qed.

(** ** The deferred updates of the handlers *)
Definition outcome_moves (o : SuccessMetric) (s : JobState) : Z :=
  match o with Inserted _ st _ _ => seen st s | Replayed _ => 0 end.
Lemma moves_flush o : moves (flush o) (outcome_moves o).
Proof.
  destruct o as [id st name rc|id]; unfold flush; [|no_level].
  peel_move; [|]. { peel_move; [no_level|]. intros s. simpl. reflexivity. }
  intros s. simpl. lia.
Qed.
Lemma moves_claim name prior c a now n :
  moves (claim_metrics name prior c a now n) (λ s, - seen prior s + seen Active s).
Proof.
  unfold claim_metrics. peel_move; [|]. { peel_move; [apply moves_transition|]. intros s. reflexivity. }
  intros s. simpl. lia.
Qed.
Definition recovered_moves (row : string * Job) (s : JobState) : Z :=
  - seen Active s + seen (if j_attempts row.2 <? j_max_attempts row.2
                          then delay_state (job_retry_delay row.2) else Failed) s.
Lemma moves_recovered now row : moves (λ m, recovered_metrics now m row) (recovered_moves row).
Proof.
  unfold recovered_metrics, recovered_moves. destruct (_ <? _); cbn [negb]; cbv zeta.
  - peel_move; [|]. { peel_move; [apply moves_transition|]. intros s. reflexivity. }
    intros s. simpl. lia.
  - peel_move; [|]. { peel_move; [apply moves_transition|]. intros s. reflexivity. }
    intros s. simpl. lia.
Qed.

(** The states of new nodes; those that wait for children have their own gauge. *)
Definition node_moves (nodes : list PreparedNode) (s : JobState) : Z :=
  foldr (λ x n, one (p_state x) s + n) 0 nodes.
Lemma node_moves_split nodes s :
  node_moves nodes s
  = foldr (λ x n, seen (p_state x) s + n) 0 nodes
    + Z.of_nat (waiting_nodes nodes) * one WaitingChildren s.
Proof.
  unfold node_moves, waiting_nodes. induction nodes as [|x nodes IH]; [done|]. simpl. rewrite IH.
  rewrite list.filter_cons. unfold has_children, seen, metered_state, is_state.
  destruct (decide (p_state x = WaitingChildren)) as [E|E].
  - rewrite E, bool_decide_true by done. rewrite decide_True by done. simpl. lia.
  - rewrite bool_decide_false by done. rewrite decide_False by (by intros []). simpl. lia.
Qed.
Lemma moves_enqueued nodes :
  moves (λ m, foldl enqueued_node m nodes) (λ s, foldr (λ x n, seen (p_state x) s + n) 0 nodes).
Proof.
  apply moves_foldl. intros x. unfold enqueued_node. peel_move; [apply moves_transition|].
  intros s. simpl. lia.
Qed.
Lemma moves_tree nodes receipts :
  moves (flush_tree_metrics nodes (waiting_nodes nodes) receipts) (node_moves nodes).
Proof.
  unfold flush_tree_metrics.
  eapply (moves_last _ (λ m, flow_nodes_created (Z.of_nat (length nodes)) (flow_created m)));
    [| |].
  - eapply (moves_last flow_created); [apply moves_nodes_created|no_level|]. intros s. reflexivity.
  - eapply (moves_last _ (Nat.iter receipts enqueue_receipt_created)); [apply moves_receipts| |].
    + peel_move; [apply moves_enqueued|]. intros s. reflexivity.
    + intros s. reflexivity.
  - intros s. rewrite node_moves_split. simpl. lia.
Qed.
Definition regate_moves (st s : JobState) : Z :=
  if runnable st then one WaitingChildren s - one st s else 0.
Lemma moves_merge nodes st :
  moves (merge_metrics nodes st) (λ s, node_moves nodes s + regate_moves st s).
Proof.
  unfold merge_metrics.
  eapply (moves_last _ (λ m, flow_merge_nodes (Z.of_nat (length nodes)) (flow_merge
    (flow_nodes_created (Z.of_nat (length nodes)) (Nat.iter (keyed_nodes nodes) enqueue_receipt_created m)))));
    [| |].
  - eapply (moves_last (λ m, flow_nodes_created (Z.of_nat (length nodes))
      (Nat.iter (keyed_nodes nodes) enqueue_receipt_created m))
      (λ m, flow_merge_nodes (Z.of_nat (length nodes)) (flow_merge m))); [| |].
    + apply moves_still. intros m. unfold flow_merge_nodes. by destruct (0 <? _).
    + eapply (moves_last _ (flow_nodes_created (Z.of_nat (length nodes))));
        [apply moves_nodes_created|apply moves_receipts|]. intros s. reflexivity.
    + intros s. reflexivity.
  - eapply (moves_last (λ m, flow_waiting_children_inc (Z.of_nat (waiting_nodes nodes))
      (foldl enqueued_node m nodes)) (λ m, if runnable st then flow_waiting_children_inc 1
        (transition (Some st) WaitingChildren "flow_merge_regate" m) else m)); [| |].
    + apply moves_if; [|apply moves_id]. peel_move; [apply moves_transition|]. intros s. reflexivity.
    + peel_move; [apply moves_enqueued|]. intros s. reflexivity.
    + intros s. reflexivity.
  - intros s. rewrite node_moves_split. unfold regate_moves. simpl.
    destruct (runnable st) eqn:Hr; [|lia]. replace (seen st s) with (one st s) by (by destruct st).
    unfold seen. simpl. lia.
Qed.
Lemma moves_deleted target reason n :
  moves (retention_deleted target reason n)
    (λ s, if String.eqb target "completed" then - n * one Completed s
          else if String.eqb target "failed" then - n * one Failed s else 0).
Proof.
  unfold retention_deleted. destruct (Z.eqb_spec n 0) as [->|Hn].
  { eapply moves_ext; [|apply moves_id]. intros s. simpl. by repeat case_match. }
  set (g := λ m, match position target RETENTION_TARGETS, position reason RETENTION_REASONS with
                 | Some t, Some r => m <| retention_deleted_total ::= alter (alter (u64_add n) r) t |>
                 | _, _ => m
                 end).
  assert (moves g (λ _, 0)) as Hg by (unfold g; no_level).
  destruct (String.eqb target "completed"); [|destruct (String.eqb target "failed")].
  - eapply (moves_last g); [apply moves_bump|exact Hg|]. intros s. simpl. lia.
  - eapply (moves_last g); [apply moves_bump|exact Hg|]. intros s. simpl. lia.
  - destruct (String.eqb target "receipt"); [|exact Hg].
    eapply (moves_last g (λ m, m <| enqueue_receipts_gauge ::= i64_fetch_add (- n) |>));
      [no_level|exact Hg|]. intros s. reflexivity.
Qed.
Definition sweep_moves (o : SweepOutcome) (s : JobState) : Z :=
  - Z.of_nat (o_completed_age o + o_completed_count o) * one Completed s
  - Z.of_nat (o_failed_age o + o_failed_count o) * one Failed s.
Lemma moves_sweep o : moves (sweep_metrics o) (sweep_moves o).
Proof.
  unfold sweep_metrics.
  eapply (moves_last _ (λ m, rejections_pruned (Z.of_nat (o_rejections o))
    (facet_dispatch_pruned (Z.of_nat (o_facet_dispatch o))
      (chain_counters_pruned (Z.of_nat (o_chain_counters o)) m)))).
  - apply moves_still. intros m. unfold rejections_pruned, facet_dispatch_pruned, chain_counters_pruned.
    by repeat case_match.
  - do 4 (eapply moves_last; [apply moves_deleted| |intros s; reflexivity]). apply moves_deleted.
  - intros s. unfold sweep_moves. simpl. lia.
Qed.

Definition finish_moves (f : Finished) (s : JobState) : Z :=
  seen (f_next_state f) s - one Active s
  + from_option (λ st, seen st s - one WaitingChildren s) 0 (f_parent_released f)
  - Z.of_nat (f_flow_parents_left_waiting f) * one WaitingChildren s
  + Z.of_nat (f_flow_parent_failures f) * one Failed s.
Lemma moves_finish fl f : moves (finish_metrics fl f) (finish_moves f).
Proof.
  unfold finish_metrics.
  eapply (moves_last _ (Nat.iter (f_flow_parent_failures f)
    (λ m, transition None Failed "flow_parent_failed" (flow_parent_failure m)))).
  { apply moves_iter. peel_move; [no_level|]. intros s. reflexivity. }
  { peel_move; [|intros s; reflexivity].
    eapply (moves_last _ (λ m, match f_parent_released f with
      | Some st => transition None st "flow_released" (flow_waiting_children_dec 1 m)
      | None => m end)) with (ε := λ s,
        from_option (λ st, seen st s - one WaitingChildren s) 0 (f_parent_released f)).
    - destruct (f_parent_released f) as [st|]; [|apply moves_id]. peel_move.
      + apply moves_waiting_dec. lia.
      + intros s. simpl. lia.
    - eapply (moves_last _ (λ m, if f_retry f
        then event "retried" m <| named ::= named_event (f_name f) "retried" |>
        else m <| named ::= named_event (f_name f) (if fl then "failed" else "completed") |>
               <| named ::= named_observe_duration (f_name f)
                              (i64_saturating_sub (f_now f) (f_created_at f)) |>)).
      + apply moves_still. intros m. by destruct (f_retry f).
      + peel_move; [|intros s; reflexivity].
        eapply (moves_last (dedup_released (Z.of_nat (f_released f)))
          (λ m, if f_stored_result f then result_stored m else m));
          [apply moves_stored|apply moves_dedup|]. intros s. reflexivity.
      + intros s. reflexivity.
    - intros s. reflexivity. }
  intros s. unfold finish_moves. simpl. change (seen Active s) with (one Active s).
  change (seen Failed s) with (one Failed s). lia.
Qed.

(** ** The tables *)
Abbreviation live_in := (count_up (λ j : Job, Some (j_state j))).
Abbreviation past_in := (count_up (λ h : HistRow, Some (h_state h))).
(** The jobs in state [s], live or archived. *)
Definition tally (js : gmap string Job) (hs : gmap string HistRow) (s : JobState) : Z :=
  Z.of_nat (live_in js s) + Z.of_nat (past_in hs s).

Lemma names_one {V} (up : V → JobState) x s :
  Z.of_nat (names (λ x, Some (up x)) s x) = one (up x) s.
Proof. unfold names, one. repeat case_decide; naive_solver. Qed.

Lemma tally_insert js hs id j s :
  js !! id = None → tally (<[id := j]> js) hs s = tally js hs s + one (j_state j) s.
Proof.
  intros Hn. unfold tally. rewrite count_insert by done. rewrite Nat2Z.inj_add, names_one. lia.
Qed.
Lemma tally_update js hs id j j' s :
  js !! id = Some j →
  tally (<[id := j']> js) hs s = tally js hs s + one (j_state j') s - one (j_state j) s.
Proof.
  intros Hj. unfold tally. rewrite (count_delete _ js id j) by done.
  rewrite <-insert_delete_eq, count_insert by apply lookup_delete_eq.
  rewrite !Nat2Z.inj_add, !names_one. lia.
Qed.
Lemma tally_end js hs id j h s :
  js !! id = Some j → hs !! id = None →
  tally (delete id js) (<[id := h]> hs) s = tally js hs s + one (h_state h) s - one (j_state j) s.
Proof.
  intros Hj Hh. unfold tally. rewrite (count_delete _ js id j) by done.
  rewrite count_insert by done. rewrite !Nat2Z.inj_add, !names_one. lia.
Qed.
Lemma tally_prune js hs ids st s :
  NoDup ids → (∀ id, id ∈ ids → ∃ h, hs !! id = Some h ∧ h_state h = st) →
  tally js (delete_keys ids hs) s = tally js hs s - Z.of_nat (length ids) * one st s.
Proof.
  intros Hnd. induction Hnd as [|id ids Hni _ IH]; intros Hin; simpl; [lia|].
  destruct (Hin id) as (h & Hh & Hst); [by left|].
  assert (delete_keys ids hs !! id = Some h) as Hh' by (by rewrite lookup_delete_keys, decide_False).
  assert (tally js (delete_keys ids hs) s = tally js hs s - Z.of_nat (length ids) * one st s) as E.
  { apply IH. intros i Hi. apply Hin. by right. }
  unfold tally in *. rewrite (count_delete _ (delete_keys ids hs) id h), Nat2Z.inj_add, names_one, Hst
    in E by done. fold (delete_keys ids hs). lia.
Qed.

(** ** The invariant *)
Record audited (w : World) : Prop := {
  au_shape : length (states (w_metrics w)) = 5%nat;
  au_level : ∀ s, cong (level (w_metrics w) s) (tally (jobs (w_db w)) (job_history (w_db w)) s);
}.

Lemma levels_level m m' : levels m = levels m' → states m = states m' ∧ ∀ s, level m s = level m' s.
Proof. intros [= Hs Hf _]. split; [done|]. intros s. unfold level. by rewrite Hs, Hf. Qed.
Lemma audited_frame w w' :
  tables (w_db w') = tables (w_db w) → levels (w_metrics w') = levels (w_metrics w) →
  audited w → audited w'.
Proof.
  intros [= Tj Th] [Hs Hl]%levels_level [Ha Hb].
  split; [by rewrite Hs|]. intros s. rewrite Tj, Th, Hl. apply Hb.
Qed.
(** A committed transaction and the deferred update that goes with it. *)
Lemma audited_step w w' f m δ :
  audited w → levels m = levels (w_metrics w) → w_metrics w' = f m → moves f δ →
  (∀ s, tally (jobs (w_db w')) (job_history (w_db w')) s
        = tally (jobs (w_db w)) (job_history (w_db w)) s + δ s) → audited w'.
Proof.
  intros [Ha Hb] [Hs Hl]%levels_level Hm Hf Ht.
  assert (length (states m) = 5%nat) as Hlen by (by rewrite Hs).
  destruct (Hf m Hlen) as [Hlen' Hlev]. split; [by rewrite Hm|].
  intros s. rewrite Hm, Ht. etrans; [apply Hlev|]. apply cong_add. by rewrite Hl.
Qed.

Section Audit.
Context `{HE : Env, HU : !UuidLaw HE, HP : Prost, HC : CronLib}.

Lemma tally_nodes n k nodes row hang d d' s :
  request n k nodes → faithful hang row → rows_written row nodes d d' →
  tally (jobs d') (job_history d') s = tally (jobs d) (job_history d) s + node_moves nodes s.
Proof.
  intros Hq Hrow Hw. destruct (rows_written_union _ _ _ _ _ _ Hq Hw) as [-> Hd].
  destruct Hw as (_ & _ & ->). unfold tally. rewrite count_union by done.
  assert (Z.of_nat (live_in (new_rows row nodes) s) = node_moves nodes s) as <-; [|lia].
  unfold new_rows. rewrite count_list_to_map.
  - clear -Hrow. unfold node_moves. induction nodes as [|x nodes IH]; [done|]. simpl.
    rewrite list.filter_cons. simpl. rewrite (ro_state _ _ Hrow). unfold one at 1.
    repeat case_decide; simplify_eq/=; simpl; rewrite <-IH; lia || done.
  - rewrite new_rows_keys. by eapply request_NoDup.
Qed.

(** [audits m]: every run of [m] keeps the gauges in agreement. *)
Definition audits {E A} (m : M E A) : Prop := ∀ w r w', m w = (r, w') → audited w → audited w'.

Lemma audits_frame {E A} (m : M E A) :
  keeps (same tables) m → meters (still levels) m → audits m.
Proof. intros Hk Hm w r w' Hr. apply audited_frame; [by eapply Hk|by eapply Hm]. Qed.
Lemma audits_bind {E A B} (m : M E A) (k : A → M E B) :
  audits m → (∀ a, audits (k a)) → audits (mbind k m).
Proof.
  intros Hm Hk w r w' Hr Hi. apply bind_inv in Hr as (r1 & w1 & H1 & Hr).
  specialize (Hm _ _ _ H1 Hi). destruct r1; [by eapply Hk|by destruct Hr as [_ ->]].
Qed.
Lemma audits_attempt {E F A} (m : M E A) : audits m → audits (attempt m : M F _).
Proof.
  intros Hm w r w'. unfold attempt. destruct (m w) as [x w1] eqn:E1. intros [= _ <-].
  by eapply Hm.
Qed.
Lemma audits_map_err {E F A} (f : E → F) (m : M E A) : audits m → audits (map_err f m).
Proof. intros Hm w r w' [r1 Hr]%map_err_inv. by eapply Hm. Qed.

(** *** Enqueueing *)
Lemma enqueue_one_still l req now rr : meters (still levels) (enqueue_one l req now rr).
Proof.
  unfold enqueue_one, replay, admit_new, admit_ingress, ingress_admit, ancestry, circuit_breaker,
    quarantine, write_receipt, reject. meter_still.
Qed.
Lemma batch_loop_still l now i reqs : meters (still levels) (batch_loop l now i reqs).
Proof.
  revert i. induction reqs as [|[req rr] reqs IH]; intros i; simpl; meter_still.
  apply enqueue_one_still.
Qed.
Lemma admit_new_success l req now rr w o w' :
  admit_new l req now rr w = (Ok o, w') →
  ∃ name b, success o = Inserted (rp_id (response o)) (rp_state (response o)) name b.
Proof.
  unfold admit_new. intros (u & w1 & _ & Hr)%bind_Ok. destruct (i64_checked_add _ _); [|done].
  apply bind_Ok in Hr as (id & w2 & _ & Hr). apply bind_Ok in Hr as ([depth trace] & w3 & _ & Hr).
  do 4 (apply bind_Ok in Hr as (? & ? & _ & Hr)). injection Hr as <- _. simpl. eauto.
Qed.
Lemma seen_born (req : AddJobRequest) s :
  let st := if 0 <? q_delay_ms req then Delayed else Waiting in seen st s = one st s.
Proof. simpl. by destruct (0 <? _). Qed.
Lemma enqueue_one_tally l req now rr w o w' s :
  enqueue_one l req now rr w = (Ok o, w') →
  tally (jobs (w_db w')) (job_history (w_db w')) s
  = tally (jobs (w_db w)) (job_history (w_db w)) s + outcome_moves (success o) s.
Proof.
  unfold enqueue_one. intros (x & w1 & H1 & Hr)%bind_Ok.
  pose proof (replay_frame (same tables) _ _ _ _ _ H1) as [[= Ej Eh] _]. destruct x as [o'|].
  - injection Hr as -> <-. rewrite Ej, Eh. unfold replay in H1. destruct rr; [|done].
    apply bind_Ok in H1 as (y & w3 & H3 & H1). destruct y as [rc|]; [|done].
    destruct (decide _); [|done]. injection H1 as <- _. simpl. lia.
  - destruct (admit_new_success _ _ _ _ _ _ _ Hr) as (name & b & Hs).
    apply admit_new_Ok in Hr as (n & w3 & depth & trace & av & _ & _ & _ & Hnone & Hj & Hh & _ & _ &
      _ & Hresp). rewrite Hs, Hresp. simpl. rewrite Hj, Hh, Ej, Eh in *.
    rewrite tally_insert by done. simpl. by rewrite seen_born.
Qed.
Lemma batch_loop_tally l now i reqs w os w' s :
  batch_loop l now i reqs w = (Ok os, w') →
  tally (jobs (w_db w')) (job_history (w_db w')) s
  = tally (jobs (w_db w)) (job_history (w_db w)) s
    + foldr (λ o n, outcome_moves (success o) s + n) 0 os.
Proof.
  revert i w os. induction reqs as [|[req rr] reqs IH]; intros i w os Hr; simpl in Hr.
  { injection Hr as <- <-. simpl. lia. }
  apply bind_Ok in Hr as (o & w1 & H1 & Hr). apply map_err_Ok, (enqueue_one_tally _ _ _ _ _ _ _ s) in H1.
  apply bind_Ok in Hr as (os' & w2 & H2 & Hr). injection Hr as <- <-. apply IH in H2. simpl. lia.
Qed.
Lemma execute_batch_audits l reqs prefix : audits (execute_batch l reqs prefix).
Proof.
  intros w r w' Hr Ha. unfold execute_batch in Hr. apply bind_inv in Hr as (r1 & w1 & H1 & Hr).
  unfold attempt in H1. destruct (transaction _ _ w) as [x w2] eqn:Ht. injection H1 as <- <-.
  assert (levels (w_metrics w2) = levels (w_metrics w)) as Hlev.
  { apply (meters_transaction (still levels)) in Ht; [done|]. meter_still. apply batch_loop_still. }
  destruct x as [os|f].
  - apply transaction_Ok in Ht as (w3 & Ht & ->). apply bind_Ok in Ht as (now & w4 & H4 & Ht).
    apply map_err_Ok, now_ms_Ok in H4 as [-> ->]. injection Hr as _ <-.
    eapply (audited_step w _ (λ m, foldl (λ m o, flush (success o) m) m os) (w_metrics w3));
      [exact Ha|exact Hlev|done| |].
    + apply (moves_foldl (λ m o, flush (success o) m)). intros o. apply moves_flush.
    + intros s. simpl. by apply (batch_loop_tally _ _ _ _ _ _ _ s) in Ht.
  - apply transaction_Err in Ht.
    assert (audited w2) as Ha2 by (eapply audited_frame; [by rewrite Ht|done|done]).
    destruct f as [s|now i s rj nm]; [by injection Hr as _ <-|].
    revert Hr Ha2. apply audits_frame.
    + frame; eauto using record_rejection_frame.
    + unfold record_rejection. meter_still. unfold fire_rejection_metric, rejection_recorded.
      by repeat case_match.
Qed.
Lemma enqueue_audits l req : audits (enqueue l req).
Proof.
  unfold enqueue. apply audits_bind; [apply audits_frame; [frame|meter_still]|]. intros p.
  apply audits_bind; [apply execute_batch_audits|]. intros rs. apply audits_frame; [frame|meter_still].
Qed.
Lemma enqueue_bulk_audits l reqs : audits (enqueue_bulk l reqs).
Proof.
  unfold enqueue_bulk. destruct (_ =? 0); [apply audits_frame; [frame|meter_still]|].
  destruct (_ <? _); [apply audits_frame; [frame|meter_still]|].
  apply audits_bind; [apply audits_frame; [frame|meter_still]|]. intros ps.
  apply execute_batch_audits.
Qed.

(** *** Schedulers *)
Lemma enqueue_scheduled_still l req now : meters (still levels) (enqueue_scheduled l req now).
Proof. unfold enqueue_scheduled. meter_still. apply enqueue_one_still. Qed.
Lemma fire_one_audits l row : audits (fire_one l row).
Proof.
  intros w r w' Hr Ha. unfold fire_one in Hr. destruct row as [id row].
  apply bind_inv in Hr as (r1 & w1 & H1 & Hr).
  assert (levels (w_metrics w1) = levels (w_metrics w)) as Hlev.
  { apply (meters_transaction (still levels)) in H1; [done|]. meter_still.
    apply enqueue_scheduled_still. }
  destruct r1 as [sm|e].
  2:{ destruct Hr as [_ ->]. apply transaction_Err in H1.
      eapply audited_frame; [by rewrite H1|done|done]. }
  injection Hr as _ <-. apply transaction_Ok in H1 as (w2 & H1 & ->).
  apply bind_Ok in H1 as (now & w3 & H3 & H1). apply map_err_Ok, now_ms_Ok in H3 as [-> ->].
  apply bind_Ok in H1 as ([jid sm'] & w4 & H4 & H1). apply map_err_Ok in H4.
  apply bind_Ok in H1 as (next & w5 & H5 & H1). unfold lift in H5. injection H5 as _ <-.
  apply bind_Ok in H1 as (u & w6 & H6 & H1). apply map_err_Ok, execute_Ok in H6 as ->.
  injection H1 as -> <-. unfold enqueue_scheduled in H4.
  apply bind_Ok in H4 as ([req rr] & w7 & H7 & H4). unfold lift in H7. injection H7 as _ <-.
  apply bind_Ok in H4 as (o & w8 & H8 & H4). injection H4 as _ <- <-. apply map_err_Ok in H8.
  eapply (audited_step w _ (λ m, scheduler_job_produced (flush (success o) m)) (w_metrics w8));
    [exact Ha|exact Hlev|done| |].
  - eapply (moves_last (flush (success o)) scheduler_job_produced); [no_level|apply moves_flush|].
    intros s. reflexivity.
  - intros s. simpl. apply (enqueue_one_tally _ _ _ _ _ _ _ s) in H8. simpl in H8. lia.
Qed.
Lemma run_once_audits l n : audits (run_once l n).
Proof.
  assert (∀ rows, audits (fire_all l rows)) as Hall.
  { induction rows as [|row rows IH]; simpl; [apply audits_frame; [frame|meter_still]|].
    apply audits_bind; [apply audits_attempt, fire_one_audits|]. intros x.
    apply audits_bind; [apply audits_frame; [frame|meter_still]|]. intros _.
    apply audits_bind; [done|]. intros k. apply audits_frame; [frame|meter_still]. }
  unfold run_once. apply audits_bind; [apply audits_frame; [frame|meter_still]|].
  intros [now|]; [|apply audits_frame; [frame|meter_still]].
  apply audits_bind; [apply audits_frame; [frame|meter_still]|].
  intros [due|]; [apply Hall|apply audits_frame; [frame|meter_still]].
Qed.

(** *** Claims *)
Lemma claim_selected_prior cfg worker now id j w r w' :
  claim_selected cfg worker now id j w = (Ok r, w') → jobs (w_db w) !! id = Some j →
  r.2.1.1.1 = j_state j.
Proof.
  intros Hr Hj. unfold claim_selected in Hr.
  apply bind_Ok in Hr as (u & w1 & H1 & Hr). apply consume_frame in H1 as [H1 _].
  apply bind_Ok in Hr as (row & w2 & H2 & Hr). apply query_Ok in H2 as [-> ->].
  assert (jobs (w_db w1) = jobs (w_db w)) as E1 by (unfold same, tables in H1; congruence).
  rewrite E1, Hj in Hr. destruct (j_available_at j) as [at_|]; [|done].
  do 4 (apply bind_Ok in Hr as (? & ? & _ & Hr)). by injection Hr as <- _.
Qed.
Lemma claim_selected_still cfg worker now id j :
  meters (still levels) (claim_selected cfg worker now id j).
Proof. unfold claim_selected, consume, bump_attempts, serve_facet. meter_still. Qed.
Lemma runnable_seen st s : runnable st = true → seen st s = one st s.
Proof. by destruct st. Qed.
Lemma get_next_job_audits cfg req : audits (get_next_job cfg req).
Proof.
  unfold get_next_job. destruct (is_blank _); [apply audits_frame; [frame|meter_still]|].
  destruct (existsb _ _); [apply audits_frame; [frame|meter_still]|].
  apply audits_map_err. intros w r w' Hr Ha. apply bind_inv in Hr as (r1 & w1 & H1 & Hr).
  assert (levels (w_metrics w1) = levels (w_metrics w)) as Hlev.
  { apply (meters_transaction (still levels)) in H1; [done|]. meter_still.
    apply claim_selected_still. }
  destruct r1 as [[fl cl]|e].
  2:{ destruct Hr as [_ ->]. apply transaction_Err in H1.
      eapply audited_frame; [by rewrite H1|done|done]. }
  apply transaction_Ok in H1 as (w2 & H1 & ->). apply bind_Ok in H1 as (now & w3 & H3 & H1).
  apply now_ms_Ok in H3 as [-> ->]. apply bind_Ok in H1 as (fl' & w4 & H4 & H1).
  apply query_Ok in H4 as [_ ->]. apply bind_Ok in H1 as (sel & w5 & H5 & H1).
  apply query_Ok in H5 as [-> ->]. simpl in H1.
  destruct (claim_candidate _ _ _ _) as [[id j]|] eqn:Hsel.
  2:{ injection H1 as <- <- <-. injection Hr as _ <-.
      apply (audited_frame w); [done| |exact Ha]. simpl in *. by destruct fl'. }
  apply claim_candidate_claimable in Hsel as [Hj Hc]. apply claimable_inv in Hc as (Hrun & _).
  apply bind_Ok in H1 as (x & w6 & H6 & H1). injection H1 as <- <- <-.
  pose proof (claim_selected_prior _ _ _ _ _ _ _ _ H6 Hj) as Hprior.
  eapply claim_selected_Ok in H6 as (now2 & Hj' & Hh' & _ & _); [|done..].
  destruct x as [job [[[prior c] a] now']]. simpl in Hprior. subst prior.
  injection Hr as _ <-. simpl in *.
  eapply (audited_step w _ (claim_metrics (n_name job) (j_state j) c a now' (n_attempts job))
    (if fl' then throttled (w_metrics w6) else w_metrics w6)); [exact Ha| |done|apply moves_claim|].
  - by destruct fl'.
  - intros s. simpl. rewrite Hj', Hh', (tally_update _ _ _ j) by done. simpl.
    rewrite (runnable_seen (j_state j)) by done. change (seen Active s) with (one Active s). lia.
Qed.

(** *** Recovery *)
Lemma recover_one_tally now id j w k w' s :
  recover_one now (id, j) w = (Ok k, w') → jobs (w_db w) !! id = Some j → j_state j = Active →
  tally (jobs (w_db w')) (job_history (w_db w')) s
  = tally (jobs (w_db w)) (job_history (w_db w)) s + recovered_moves (id, j) s.
Proof.
  intros Hr Hj Hs. pose proof (recover_one_absent _ _ _ _ _ _ Hr Hj) as Hh.
  apply recover_one_Ok in Hr as [_ Hr]; [|done]. unfold recovered_moves. simpl.
  change (seen Active s) with (one Active s).
  destruct (j_attempts j <? j_max_attempts j); destruct Hr as [-> ->].
  - rewrite (tally_update _ _ _ j), Hs by done. simpl.
    rewrite runnable_seen by apply delay_state_runnable. lia.
  - rewrite (tally_end _ _ _ j), Hs by (done || by apply Hh). simpl.
    change (seen Failed s) with (one Failed s). lia.
Qed.
Lemma recover_loop_tally now n rows s :
  NoDup rows.*1 → ∀ w m w',
  fold_m (λ n row, let? k := recover_one now row in mret (n + k)%nat) n rows w = (Ok m, w') →
  Forall (λ r : string * Job, jobs (w_db w) !! r.1 = Some r.2 ∧ j_state r.2 = Active) rows →
  tally (jobs (w_db w')) (job_history (w_db w')) s
  = tally (jobs (w_db w)) (job_history (w_db w)) s
    + foldr (λ row n, recovered_moves row s + n) 0 rows.
Proof.
  revert n. induction rows as [|[id j] rows IH]; intros n Hnd w m w' Hr Hall; cbn [fold_m] in Hr.
  - injection Hr as _ <-. simpl. lia.
  - apply bind_Ok in Hr as (n' & w1 & H1 & Hr). apply bind_Ok in H1 as (k & w1' & H1 & H1').
    injection H1' as <- <-. apply list.NoDup_cons in Hnd as [Hnin Hnd].
    apply list.Forall_cons in Hall as [[Hj Ha] Hall]. simpl in *.
    pose proof (recover_one_tally _ _ _ _ _ _ s H1 Hj Ha) as Ht.
    apply recover_one_Ok in H1 as [_ H1]; [|done].
    rewrite (IH _ Hnd _ _ _ Hr); [lia|]. apply list.Forall_forall. intros [id' j'] Hin. simpl.
    rewrite list.Forall_forall in Hall. destruct (Hall _ Hin) as [Hj' Ha']. split; [|done].
    assert (id' ≠ id). { intros ->. apply Hnin, list_elem_of_fmap. by exists (id, j'). }
    destruct (_ <? _); destruct H1 as [-> _]; simpl in *;
      by rewrite ?lookup_insert_ne, ?lookup_delete_ne by done.
Qed.
Lemma recover_expired_audits n : audits (recover_expired n).
Proof.
  unfold recover_expired. apply audits_map_err. intros w r w' Hr Ha.
  apply bind_inv in Hr as (r1 & w1 & H1 & Hr).
  assert (levels (w_metrics w1) = levels (w_metrics w)) as Hlev.
  { apply (meters_transaction (still levels)) in H1; [done|]. unfold recover_one. meter_still. }
  destruct r1 as [[[now batch] released]|e].
  2:{ destruct Hr as [_ ->]. apply transaction_Err in H1.
      eapply audited_frame; [by rewrite H1|done|done]. }
  apply transaction_Ok in H1 as (w2 & H1 & ->). apply bind_Ok in H1 as (now' & w3 & H3 & H1).
  apply now_ms_Ok in H3 as [-> ->]. apply bind_Ok in H1 as (rows & w4 & H4 & H1).
  apply query_Ok in H4 as [-> ->]. apply bind_Ok in H1 as (m & w5 & H5 & H1).
  injection H1 as <- <- <- <-. injection Hr as _ <-. simpl in *.
  eapply (audited_step w _ (λ m0, foldl (recovered_metrics (clock (S (w_step w)))) m0
    (expired_batch (clock (S (w_step w))) n (w_db w))) (dedup_released (Z.of_nat m) (w_metrics w5)));
    [exact Ha| |done|apply moves_foldl; intros row; apply moves_recovered|].
  - rewrite <-Hlev. unfold dedup_released. by destruct (_ =? 0).
  - intros s. simpl. eapply (recover_loop_tally _ _ _ s) in H5; [exact H5|apply expired_batch_NoDup|].
    apply list.Forall_forall. intros [id j] Hin. apply expired_batch_spec in Hin as (? & ? & _). done.
Qed.

(** *** Acknowledgements

    Here the gates matter: the cascade moves the gauge of waiting jobs for every ancestor it
    fails, which is right because every live ancestor waits for its children. *)
Lemma cascade_tally b fuel child flag anc w n k w' s :
  cascade fuel child flag anc w = (Ok (n, k), w') → ginv b w →
  (∀ p q, anc = Some p → jobs (w_db w) !! p = Some q → j_state q = WaitingChildren) →
  tally (jobs (w_db w')) (job_history (w_db w')) s
  = tally (jobs (w_db w)) (job_history (w_db w)) s
    - Z.of_nat k * one WaitingChildren s + Z.of_nat n * one Failed s.
Proof.
  revert flag anc w n k. induction fuel as [|fuel IH]; intros flag anc w n k Hr Hi Hanc; simpl in Hr.
  { injection Hr as <- <- <-. lia. }
  destruct flag, anc as [parent|]; try (injection Hr as <- <- <-; lia).
  apply bind_Ok in Hr as (row & w1 & H1 & Hr). apply query_Ok in H1 as [-> ->].
  destruct (jobs (w_db w) !! parent) as [p|] eqn:Hp; [|injection Hr as <- <- <-; simpl; lia].
  apply bind_Ok in Hr as (u1 & w1 & H1 & Hr). apply bind_Ok in Hr as (u2 & w2 & H2 & Hr).
  apply bind_Ok in Hr as (m & w3 & H3 & Hr).
  destruct (end_job_Ok _ _ p _ _ _ _ _ _ _ H1 H2 H3 Hp) as (Hh0 & Hj & Hh & _ & Hst).
  apply bind_Ok in Hr as ([n' k'] & w4 & H4 & Hr). injection Hr as <- <- <-.
  specialize (Hanc _ _ eq_refl Hp). simpl in Hj, Hh, Hh0.
  rewrite (IH _ _ _ _ _ H4).
  - rewrite Hj, Hh, (tally_end _ _ _ p) by done. unfold is_state. simpl.
    rewrite Hanc, bool_decide_true by done. lia.
  - eapply (ginv_fail b w w3 parent p (cascade_row _ _ p)); [exact Hi|done|done| | |done|done];
      [unfold tables; by rewrite Hj, Hh|simpl in Hst; lia].
  - intros q x Hq Hx. rewrite Hj in Hx. apply lookup_delete_Some in Hx as [_ Hx].
    by apply (gated_parent_waits b _ _ _ _ _ _ (gi_gated _ _ Hi) Hp Hq Hx).
Qed.
Lemma child_completed_tally now parent w r w' s :
  child_completed now parent w = (Ok r, w') →
  tally (jobs (w_db w')) (job_history (w_db w')) s
  = tally (jobs (w_db w)) (job_history (w_db w)) s
    + from_option (λ st, seen st s - one WaitingChildren s) 0 r.
Proof.
  intros Hr. destruct (jobs (w_db w) !! parent) as [p|] eqn:Hp.
  - destruct (child_completed_Ok _ _ _ _ _ _ Hr Hp) as [Hout ->]. destruct r as [st|]; simpl.
    + destruct Hout as (Hw & _ & Hrun & _ & t & ->). rewrite (tally_update _ _ _ p) by done. simpl.
      rewrite Hw, runnable_seen by done. lia.
    + destruct Hout as [_ ->]. rewrite (tally_update _ _ _ p) by done. simpl. lia.
  - apply child_completed_gone_parent in Hr as [-> [= -> ->]]; [|done]. simpl. lia.
Qed.
Lemma settle_job_tally b a j now w f w' s :
  settle_job a j now w = (Ok f, w') → jobs (w_db w) !! a_id a = Some j → j_state j = Active →
  ginv b w →
  tally (jobs (w_db w')) (job_history (w_db w')) s
  = tally (jobs (w_db w)) (job_history (w_db w)) s + finish_moves f s.
Proof.
  unfold settle_job. intros Hr Hj Ha Hi.
  apply bind_Ok in Hr as (u1 & w1 & H1 & Hr). apply bind_Ok in Hr as (u2 & w2 & H2 & Hr).
  apply bind_Ok in Hr as (n & w3 & H3 & Hr).
  destruct (end_job_Ok _ _ j _ _ _ _ _ _ _ H1 H2 H3 Hj) as (Hh0 & Hj3 & Hh3 & _ & Hst).
  assert (tally (jobs (w_db w3)) (job_history (w_db w3)) s
    = tally (jobs (w_db w)) (job_history (w_db w)) s
      + one (if failed a then Failed else Completed) s - one Active s) as T3.
  { rewrite Hj3, Hh3, (tally_end _ _ _ j), Ha by done. done. }
  destruct (failed a).
  - apply bind_Ok in Hr as ([k1 k2] & w4 & H4 & Hr). injection Hr as <- <-.
    eapply (cascade_tally b) in H4 as ->.
    + rewrite T3. unfold finish_moves. simpl. change (seen Failed s) with (one Failed s). lia.
    + eapply (ginv_fail b w w3 (a_id a) j (finish_row Failed _ _ _ j));
        [exact Hi|done|done| | |done|done]; [unfold tables; by rewrite Hj3, Hh3|lia].
    + intros p q Hp Hq. rewrite Hj3 in Hq. apply lookup_delete_Some in Hq as [_ Hq].
      by apply (gated_parent_waits b _ _ _ _ _ _ (gi_gated _ _ Hi) Hj Hp Hq).
  - apply bind_Ok in Hr as (x & w4 & H4 & Hr). injection Hr as <- <-. unfold finish_moves. simpl.
    change (seen Completed s) with (one Completed s).
    destruct (j_parent_id j) as [p|].
    + apply (child_completed_tally _ _ _ _ _ s) in H4. lia.
    + injection H4 as <- <-. simpl. lia.
Qed.
Lemma retry_job_tally a j now w f w' s :
  retry_job a j now w = (Ok f, w') → jobs (w_db w) !! a_id a = Some j → j_state j = Active →
  tally (jobs (w_db w')) (job_history (w_db w')) s
  = tally (jobs (w_db w)) (job_history (w_db w)) s + finish_moves f s.
Proof.
  unfold retry_job. intros Hr Hj Ha.
  apply bind_Ok in Hr as (row & w1 & H1 & Hr). apply query_Ok in H1 as [-> ->].
  rewrite Hj in Hr. apply bind_Ok in Hr as (x & w2 & H2 & Hr). injection H2 as <- <-.
  apply bind_Ok in Hr as (u & w3 & H3 & Hr). apply update_stmt_Ok in H3 as ->.
  injection Hr as <- <-. unfold finish_moves. simpl. rewrite (alter_Some _ _ _ j) by done.
  rewrite (tally_update _ _ _ j), Ha by done. simpl.
  rewrite runnable_seen by apply delay_state_runnable. lia.
Qed.
Lemma finish_still a j now :
  meters (still levels) (settle_job a j now) ∧ meters (still levels) (retry_job a j now).
Proof.
  assert (∀ fuel c fl an, meters (still levels) (cascade fuel c fl an)) as Hc.
  { induction fuel as [|fuel IH]; intros c fl an; simpl; unfold archive_stmt, release_stmt;
      meter_still. }
  split; unfold settle_job, retry_job, child_completed, archive_stmt, update_stmt, release_stmt;
    meter_still.
  intros w r w'. apply Hc.
Qed.
Lemma finish_job_audits b a w r w' :
  finish_job a w = (r, w') → ginv b w → audited w → audited w'.
Proof.
  intros Hr Hi Ha. unfold finish_job in Hr. destruct (_ || _); [by injection Hr as _ <-|].
  apply bind_inv in Hr as (r1 & w1 & H1 & Hr).
  assert (levels (w_metrics w1) = levels (w_metrics w)) as Hlev.
  { apply (meters_transaction (still levels)) in H1; [done|]. unfold finish_archived. meter_still;
      apply finish_still. }
  destruct r1 as [fin|e].
  2:{ destruct Hr as [_ ->]. apply transaction_Err in H1.
      eapply audited_frame; [by rewrite H1|done|done]. }
  apply transaction_Ok in H1 as (w2 & H1 & ->). apply bind_Ok in H1 as (row & w3 & H3 & H1).
  inv_run H3. destruct (jobs (w_db w) !! a_id a) as [j|] eqn:Hj.
  2:{ pose proof H1 as H1'. unfold finish_archived in H1'.
      apply bind_Ok in H1' as (ar & w4 & H4 & H1'). destruct ar as [h|]; [|done].
      destruct (_ && _); [|done]. injection H1' as <- <-. injection Hr as _ <-. inv_run H4.
      by apply (audited_frame w). }
  destruct (is_state (j_state j) Active) eqn:Hs; simpl in H1; [|done].
  apply bool_decide_eq_true in Hs. destruct (bool_decide _); [done|].
  destruct (negb _); [done|]. apply bind_Ok in H1 as (now & w3 & H3 & H1). inv_run H3.
  apply bind_Ok in H1 as (e & w3 & H3 & H1). inv_run H3. destruct (lease_over _ _); [done|].
  apply bind_Ok in H1 as (f & w3 & H3 & H1). injection H1 as <- <-. apply map_err_Ok in H3.
  injection Hr as _ <-. simpl in *.
  assert (ginv b (tick (tick (tick (tick w))))) as Hi4
    by (eapply ginv_frame; [..|exact Hi]; simpl; [done|lia]).
  eapply (audited_step w _ (finish_metrics (failed a) f) (w_metrics w3));
    [exact Ha|unfold levels; congruence|done|apply moves_finish|].
  intros s. simpl. destruct (failed a && _ && _).
  - by apply (retry_job_tally _ _ _ _ _ _ s) in H3.
  - by apply (settle_job_tally b _ _ _ _ _ _ s) in H3.
Qed.

(** *** Flows *)
Lemma add_flow_audits l flow : audits (add_flow l flow).
Proof.
  destruct flow as [t|]; [|apply audits_frame; [apply flow_reject_frame, _|simpl; unfold flow_reject; meter_still]].
  intros w r w' Hr Ha. apply add_flow_rows in Hr. destruct r as [resp|e].
  2:{ destruct Hr as [Hd Hl]. eapply audited_frame; [by rewrite Hd|done|done]. }
  destruct Hr as (_ & (seen & w1 & Hp) & Hw & _ & m & Hm & Hm').
  apply prepare_node_Ok in Hp as (_ & _ & Hok & _).
  eapply audited_step; [exact Ha|exact Hm|exact Hm'|apply moves_tree|].
  intros s. eapply tally_nodes; [by eapply flatten_request|apply node_row_faithful|exact Hw].
Qed.
Lemma trees_tally md now fs n d d' s :
  Forall (Forall (node_ok md)) (flat_trees fs n) → trees_written now n fs d d' →
  tally (jobs d') (job_history d') s
  = tally (jobs d) (job_history d) s + foldr (λ ns k, node_moves ns s + k) 0 (flat_trees fs n).
Proof.
  revert n d. induction fs as [|t fs IH]; intros n d Hok Hw; simpl in *.
  { injection Hw as -> ->. lia. }
  apply list.Forall_cons in Hok as [Hok Hoks]. destruct Hw as (d1 & Hw & Hws).
  rewrite (IH _ _ Hoks Hws).
  rewrite (tally_nodes _ _ _ _ _ _ _ s (flatten_request _ _ _ _ Hok) (node_row_faithful _ _) Hw).
  lia.
Qed.
Lemma add_flow_bulk_audits l fs : audits (add_flow_bulk l fs).
Proof.
  intros w r w' Hr Ha. apply add_flow_bulk_rows in Hr. destruct r as [resps|e].
  2:{ destruct Hr as [Hd Hl]. eapply audited_frame; [by rewrite Hd|done|done]. }
  destruct Hr as (_ & Hok & (now & Hw) & _ & m & Hm & Hm').
  eapply (audited_step w w' (λ m, foldl (λ m nodes, flush_tree_metrics nodes (waiting_nodes nodes)
    (keyed_nodes nodes) m) m (flat_trees fs (w_step w))) m); [exact Ha|exact Hm|exact Hm'| |].
  - apply moves_foldl. intros nodes. apply moves_tree.
  - intros s. by eapply trees_tally.
Qed.
Lemma add_flow_merge_audits l flow : audits (add_flow_merge l flow).
Proof.
  destruct flow as [[f cs]|]; [|apply audits_frame; [apply flow_reject_frame, _|simpl; unfold flow_reject; meter_still]].
  intros w r w' Hr Ha. apply add_flow_merge_rows in Hr. destruct r as [resp|e].
  2:{ destruct Hr as [Hd Hl]. eapply audited_frame; [by rewrite Hd|done|done]. }
  destruct Hr as (_ & Hok & _ & _ & t & t' & Ht & Hdor & [Gs _ _ _] & Hw & m & Hm & Hm').
  eapply audited_step; [exact Ha|exact Hm|exact Hm'|apply moves_merge|]. intros s.
  rewrite (tally_nodes _ _ _ _ _ _ _ s (flatten_all_request _ _ _ _ Hok)
    (attached_row_faithful _ _ _ _) Hw). simpl. rewrite (tally_update _ _ _ t), Gs by done. unfold regate_moves.
  destruct (j_state t); simpl in *; try done; lia.
Qed.

(** *** Retention *)
Context `{HS : !ScanLaw HE}.

Lemma oldest_NoDup {A} (age : A → Z) n (rows : list (string * A)) :
  NoDup rows.*1 → NoDup (oldest age n rows).
Proof.
  intros Hnd. unfold oldest. eapply sublist_NoDup; [|apply fmap_sublist, sql_limit_sublist].
  unfold order_by. by rewrite merge_sort_Permutation.
Qed.
Lemma prune_age_tally state cutoff n w k w' s :
  prune_age state cutoff n w = (Ok k, w') →
  tally (jobs (w_db w')) (job_history (w_db w')) s
  = tally (jobs (w_db w)) (job_history (w_db w)) s - Z.of_nat k * one state s.
Proof.
  intros (d & _ & [= <- <-] & ->)%stmt_Ok. simpl. apply tally_prune.
  - apply oldest_NoDup. rewrite scan_perm. apply rows_where_NoDup.
  - intros id (h & Hin)%elem_of_oldest. rewrite scan_perm in Hin.
    apply elem_of_rows_where in Hin as [Hh [Hs _]%andb_true_iff]. apply bool_decide_eq_true in Hs. eauto.
Qed.
Lemma prune_count_tally state keep n w k w' s :
  prune_count state keep n w = (Ok k, w') →
  tally (jobs (w_db w')) (job_history (w_db w')) s
  = tally (jobs (w_db w)) (job_history (w_db w)) s - Z.of_nat k * one state s.
Proof.
  intros (d & _ & [= <- <-] & ->)%stmt_Ok. simpl. apply tally_prune.
  - eapply sublist_NoDup; [|apply fmap_sublist, sql_limit_sublist].
    rewrite scan_perm. unfold overflow. eapply sublist_NoDup;
      [|apply fmap_sublist, sublist_filter]. apply rows_where_NoDup.
  - intros id (h & Hin)%elem_of_limit_fst. rewrite scan_perm in Hin.
    apply list_elem_of_filter in Hin as [_ Hin]. apply elem_of_state_rows in Hin. eauto.
Qed.

(** A statement that prunes [k] rows of one state, if it runs. *)
Definition prunes_state (st : JobState) (m : M SqlError nat) : Prop :=
  ∀ w k w' s, m w = (Ok k, w') →
    tally (jobs (w_db w')) (job_history (w_db w')) s
    = tally (jobs (w_db w)) (job_history (w_db w)) s - Z.of_nat k * one st s.
Lemma when_prunes c st m : prunes_state st m → prunes_state st (when c m).
Proof.
  intros Hm w k w' s. unfold when. destruct c; [apply Hm|]. intros [= <- <-]. simpl. lia.
Qed.
Lemma sweep_body_tally cfg w o w' s :
  sweep_body cfg w = (Ok o, w') →
  tally (jobs (w_db w')) (job_history (w_db w')) s
  = tally (jobs (w_db w)) (job_history (w_db w)) s + sweep_moves o s.
Proof.
  unfold sweep_body. intros (now & w0 & H0 & Hr)%bind_Ok. apply now_ms_Ok in H0 as [_ ->].
  apply bind_Ok in Hr as (ca & w1 & H1 & Hr). apply bind_Ok in Hr as (fa & w2 & H2 & Hr).
  apply bind_Ok in Hr as (cc & w3 & H3 & Hr). apply bind_Ok in Hr as (fc & w4 & H4 & Hr).
  assert (∀ E A (m : M E A) w a w', keeps (same tables) m → m w = (Ok a, w') →
    tally (jobs (w_db w')) (job_history (w_db w')) s
    = tally (jobs (w_db w)) (job_history (w_db w)) s) as Hsame.
  { intros E A m w5 a w6 Hk [[= -> ->] _]%Hk. done. }
  apply bind_Ok in Hr as (rc & w5 & H5 & Hr). apply bind_Ok in Hr as (ch & w6 & H6 & Hr).
  apply bind_Ok in Hr as (fd & w7 & H7 & Hr). apply bind_Ok in Hr as (rj & w8 & H8 & Hr).
  injection Hr as <- <-.
  apply Hsame in H5; [|unfold prune_receipts; frame; by injection H as <- <-].
  apply Hsame in H6; [|unfold when, prune_chain_counters; frame; by injection H as <- <-].
  apply Hsame in H7; [|unfold when, prune_facet_dispatch; frame; by injection H as <- <-].
  apply Hsame in H8; [|unfold when, prune_rejections; frame; by injection H as <- <-].
  apply (when_prunes _ Completed _ (λ w k w' s, prune_age_tally _ _ _ w k w' s) _ _ _ s) in H1.
  apply (when_prunes _ Failed _ (λ w k w' s, prune_age_tally _ _ _ w k w' s) _ _ _ s) in H2.
  apply (when_prunes _ Completed _ (λ w k w' s, prune_count_tally _ _ _ w k w' s) _ _ _ s) in H3.
  apply (when_prunes _ Failed _ (λ w k w' s, prune_count_tally _ _ _ w k w' s) _ _ _ s) in H4.
  unfold sweep_moves. simpl in *. lia.
Qed.
Lemma sweep_audits cfg : audits (sweep cfg).
Proof.
  unfold sweep, sweep_blocking. apply audits_map_err. intros w r w' Hr Ha.
  apply bind_inv in Hr as (r1 & w1 & H1 & Hr).
  assert (levels (w_metrics w1) = levels (w_metrics w)) as Hlev.
  { apply (meters_transaction (still levels)) in H1; [done|]. unfold sweep_body, when, prune_age,
      prune_count, prune_receipts, prune_chain_counters, prune_facet_dispatch, prune_rejections.
    meter_still. }
  destruct r1 as [o|e].
  2:{ destruct Hr as [_ ->]. apply transaction_Err in H1.
      eapply audited_frame; [by rewrite H1|done|done]. }
  apply transaction_Ok in H1 as (w2 & H1 & ->). injection Hr as _ <-.
  eapply (audited_step w _ (sweep_metrics o) (w_metrics w2));
    [exact Ha|exact Hlev|done|apply moves_sweep|].
  intros s. simpl. by apply (sweep_body_tally _ _ _ _ s) in H1.
Qed.

(** *** The rest *)
Lemma limits_still req f :
  meters (still levels) (rate_limit_upsert req) ∧ meters (still levels) (rate_limit_delete f)
  ∧ meters (still levels) (rate_limit_status f) ∧ meters (still levels) (ingress_upsert req)
  ∧ meters (still levels) (ingress_delete f) ∧ meters (still levels) (ingress_status f).
Proof.
  unfold rate_limit_upsert, rate_limit_delete, rate_limit_status, ingress_upsert,
    ingress_delete, ingress_status. split_and!; meter_still.
Qed.
(** Schedulers have a gauge of their own. *)
Definition job_levels (m : Metrics) : list Z * Z := (states m, flow_waiting_children m).
Lemma audits_jobs {E A} (m : M E A) :
  keeps (same tables) m → meters (still job_levels) m → audits m.
Proof.
  intros Hk Hm w r w' Hr [Ha Hb]. apply Hm in Hr as Hl. injection Hl as Hs Hf.
  apply Hk in Hr as [[= Tj Th] _]. split; [by rewrite Hs|]. intros s.
  rewrite Tj, Th. unfold level. rewrite Hs, Hf. apply Hb.
Qed.
Lemma schedulers_still req id :
  meters (still job_levels) (scheduler_upsert req) ∧ meters (still job_levels) (scheduler_delete id)
  ∧ meters (still job_levels) (scheduler_get id) ∧ meters (still job_levels) scheduler_list.
Proof.
  unfold scheduler_upsert, scheduler_delete, scheduler_get, scheduler_list.
  split_and!; meter_still.
Qed.

(** A renewed lease changes no state. *)
Lemma renew_lease_audits duration req : audits (renew_lease duration req).
Proof.
  intros w r w' Hr Ha. unfold renew_lease in Hr. destruct (_ || _); [by injection Hr as _ <-|].
  assert (levels (w_metrics w') = levels (w_metrics w)) as Hlev.
  { apply (meters_transaction (still levels)) in Hr; [done|]. meter_still. }
  destruct r as [e|st].
  2:{ apply transaction_Err in Hr. eapply audited_frame; [by rewrite Hr|done|done]. }
  apply (audited_step w w' id (w_metrics w') (λ _, 0)); [done|done|done|apply moves_id|].
  intros s. apply transaction_Ok in Hr as (w1 & Hr & ->). clear Hlev Ha.
  apply bind_Ok in Hr as (row & w2 & H2 & Hr). inv_run H2.
  destruct (jobs (w_db w) !! hb_id req) as [j|] eqn:Hj; [|by inv_run Hr].
  destruct (is_state (j_state j) Active) eqn:Hs; simpl in Hr; [|done].
  destruct (bool_decide _); [done|]. apply bind_Ok in Hr as (now & w2 & H2 & Hr). inv_run H2.
  destruct (j_lease_expires_at_ms j) as [lease|]; [|done]. destruct (_ || _); [done|]. inv_run Hr.
  rewrite (alter_Some _ _ _ j), (tally_update _ _ _ j) by done. simpl. lia.
Qed.

Lemma tick_or_audits {E A} count (m : M E A) :
  (∀ m, levels (count m) = levels m) → audits m → audits (tick_or count m).
Proof.
  intros Hc Hm. unfold tick_or. apply audits_bind; [by apply audits_attempt|].
  intros [a|e]; apply audits_frame; [frame|meter_still|frame|meter_still]. by unfold still.
Qed.
Lemma after_audits {E A} (m : M E A) w : audits m → audited w → audited (after m w).
Proof. intros Hm Ha. unfold after. destruct (m w) as [r w'] eqn:Hr. by eapply Hm. Qed.
Lemma complete_job_audits b id worker n res w :
  ginv b w → audited w → audited (after (complete_job id worker n res) w).
Proof.
  intros Hi Ha. unfold after. destruct (complete_job id worker n res w) as [r w'] eqn:Hr. simpl.
  unfold complete_job in Hr. destruct (_ <? _); [by injection Hr as _ <-|].
  apply bind_inv in Hr as (r1 & w1 & H1 & Hr). eapply (finish_job_audits b) in H1; [|done..].
  destruct r1; [by injection Hr as _ <-|by destruct Hr as [_ ->]].
Qed.

(** Every call keeps the gauges in agreement with the tables. *)
Lemma perform_audits b sv c w : ginv b w → audited w → audited (perform sv c w).
Proof.
  intros Hi Ha. destruct c; simpl;
    lazymatch goal with
    | |- audited (after (complete_job _ _ _ _) _) => by eapply complete_job_audits
    | |- audited (after (fail_job _ _ _ _ _) _) =>
        unfold after; destruct (fail_job _ _ _ _ _ _) eqn:Hr; by eapply finish_job_audits
    | |- audited (after _ _) => apply after_audits; [|done]
    | |- _ => idtac
    end.
  - apply enqueue_audits.
  - apply enqueue_bulk_audits.
  - apply get_next_job_audits.
  - apply renew_lease_audits.
  - apply add_flow_audits.
  - apply add_flow_bulk_audits.
  - apply add_flow_merge_audits.
  - apply audits_frame; [apply get_children_values_frame, _|unfold get_children_values; meter_still].
  - apply audits_frame; [apply (limit_frames req "")|apply (limits_still req "")].
  - apply audits_frame; [apply (limit_frames (mkUpsertRule "" 0 0) facet)|apply (limits_still (mkUpsertRule "" 0 0) facet)].
  - apply audits_frame; [apply (limit_frames (mkUpsertRule "" 0 0) facet)|apply (limits_still (mkUpsertRule "" 0 0) facet)].
  - apply audits_frame; [apply (limit_frames req "")|apply (limits_still req "")].
  - apply audits_frame; [apply (limit_frames (mkUpsertRule "" 0 0) facet)|apply (limits_still (mkUpsertRule "" 0 0) facet)].
  - apply audits_frame; [apply (limit_frames (mkUpsertRule "" 0 0) facet)|apply (limits_still (mkUpsertRule "" 0 0) facet)].
  - apply audits_jobs; [apply (scheduler_frames req "")|apply (schedulers_still req "")].
  - apply audits_jobs; [apply (scheduler_frames (mkUpsertSched "" None None) id)|apply (schedulers_still (mkUpsertSched "" None None) id)].
  - apply audits_jobs; [apply (scheduler_frames (mkUpsertSched "" None None) id)|apply (schedulers_still (mkUpsertSched "" None None) id)].
  - apply audits_jobs; [apply (scheduler_frames (mkUpsertSched "" None None) "")|apply (schedulers_still (mkUpsertSched "" None None) "")].
  - by apply tick_or_audits; [|apply recover_expired_audits].
  - destruct (enabled _); [|done]. apply after_audits; [|done].
    by apply tick_or_audits; [|apply sweep_audits].
  - apply run_once_audits.
Qed.

(** ** Starting and running *)
Lemma count_rows {V} (up : V → JobState) (m : gmap string V) s :
  length (rows_where (λ _ x, is_state (up x) s) m) = count_up (λ x, Some (up x)) m s.
Proof.
  rewrite <-(list_to_map_to_list m) at 2. rewrite count_list_to_map by apply NoDup_fst_map_to_list.
  unfold rows_where. f_equal. apply list_filter_iff. intros [k x]. simpl. unfold is_state.
  rewrite Is_true_true, bool_decide_eq_true. naive_solver.
Qed.
Lemma count_state_tally s d : count_state s d = tally (jobs d) (job_history d) s.
Proof. unfold count_state, tally. by rewrite !count_rows. Qed.
Lemma past_waiting w s :
  implements w s → past_in (job_history (w_db w)) WaitingChildren = 0%nat.
Proof.
  intros [_ Hh _ [_ Hhist _ _]]. apply count_zero. intros id h Hid [= Hs].
  rewrite <-Hh in Hid. destruct (Hhist _ _ Hid) as [_ Hst]. by rewrite Hs in Hst.
Qed.
(** Counted at the start, the gauges are the tables. *)
Lemma boot_audited sv w s step :
  implements w s → audited (boot sv (w_db w) step).
Proof.
  intros Hi. unfold boot. rewrite (migrate_id _ _ Hi). split; [done|]. intros st. simpl.
  rewrite <-count_state_tally. destruct st; try done.
  unfold level, count_state. simpl. rewrite !count_rows, (past_waiting _ _ Hi). by rewrite Z.add_0_r.
Qed.

Lemma flow_reachable_audited b sv w : flow_reachable b sv w → audited w.
Proof.
  intros Hr. apply (rtc_ind_r (λ w, audited w) (initial sv)) in Hr; [done| |].
  - destruct (reachable_implements sv _ (reachable_initial sv)) as (s & _ & Hi).
    split; [done|]. by intros [].
  - intros w1 w2 Hrun Hs Ha. destruct Hs as [c w1 _ _ _|w1].
    + eapply perform_audits; [by eapply flow_reachable_ginv|done].
    + destruct (reachable_implements sv w1) as (s & _ & Hi).
      { by eapply flow_reachable_reachable. }
      by eapply boot_audited.
Qed.

(** The state gauges are the tables.  Along every run in which jobs get parents through
    flows only, failing statements, aborted transactions and restarts included, the gauge
    [anvilmq_jobs] of every state, and the gauge of jobs that wait for children, is the
    number of jobs of that state in the live table and the archive together, on 64 bits:
    no handler counts a job twice, forgets one or counts what was rolled back. *)
Lemma state_gauges_follow b sv w :
  flow_reachable b sv w →
  length (states (w_metrics w)) = 5%nat
  ∧ ∀ s, wrap_i64 (level (w_metrics w) s) = wrap_i64 (count_state s (w_db w))
         ∧ (count_state s (w_db w) ≤ i64_max →
              wrap_i64 (level (w_metrics w) s) = count_state s (w_db w)).
Proof.
  intros [Ha Hb]%flow_reachable_audited. split; [done|]. intros s.
  assert (wrap_i64 (level (w_metrics w) s) = wrap_i64 (count_state s (w_db w))) as Hc.
  { rewrite count_state_tally. apply Hb. }
  split; [done|]. intros Hle. rewrite Hc. apply wrap_i64_id. unfold in_i64, i64_min, count_state in *. lia.
Qed.
End Audit.
