(* ===== verification/Ledgers.v ===== *)
(** * The gauges of receipts and schedulers

    Two more gauges of the metrics are moved by the handlers after they commit: the number
    of receipts kept and the number of schedulers with a run ahead.  The first section is
    about any such pair of a measure of the database and a gauge: a transaction that changes
    the measure by [δ] is followed by an update that moves the gauge by [δ].  The gauge of
    schedulers agrees with its table along every run; that of receipts along every run
    without a failure cascade, which releases receipts it does not count. *)
From Stdlib Require Import Ascii String.
From S2P Require Import Prelude Text Query F64 Scheduling Db Pressure Telemetry Broker.
From S2P Require Import Lifecycle RateLimit Ingress Enqueue Leases Claim Finish Flow FlowTree.
From S2P Require Import FlowSim FlowSpec Retention Schedulers System Quotas Gates Gauges.
Local Open Scope string_scope.
Local Open Scope Z_scope.

(** ** A measure and its gauge *)
Section Ledger.
Context `{HE : Env} (μ : Db → Z) (g : Metrics → Z).

Definition balanced (w : World) : Prop := cong (g (w_metrics w)) (μ (w_db w)).
(** [shifts f n]: [f] moves the gauge by [n]. *)
Definition shifts (f : Metrics → Metrics) (n : Z) : Prop := ∀ m, cong (g (f m)) (g m + n).
(** [adds m δ]: a successful run of [m] changes the measure by [δ] of its answer. *)
Definition adds {E A} (m : M E A) (δ : A → Z) : Prop :=
  ∀ w a w', m w = (Ok a, w') → μ (w_db w') = μ (w_db w) + δ a.
Definition balances {E A} (m : M E A) : Prop :=
  ∀ w r w', m w = (r, w') → balanced w → balanced w'.

Lemma shifts_still f : (∀ m, g (f m) = g m) → shifts f 0.
Proof. intros Hf m. by rewrite Hf, Z.add_0_r. Qed.
Lemma shifts_then f h n k : shifts f n → shifts h k → shifts (λ m, h (f m)) (n + k).
Proof.
  intros Hf Hh m. etrans; [apply Hh|]. rewrite Z.add_assoc. by apply cong_add.
Qed.
Lemma shifts_eq f n k : n = k → shifts f n → shifts f k.
Proof. by intros ->. Qed.
Lemma shifts_foldl {A} (f : Metrics → A → Metrics) (δ : A → Z) l :
  (∀ a, shifts (λ m, f m a) (δ a)) → shifts (λ m, foldl f m l) (foldr (λ a n, δ a + n) 0 l).
Proof.
  intros Hf. induction l as [|a l IH]; [by apply shifts_still|]. simpl.
  exact (shifts_then _ _ _ _ (Hf a) IH).
Qed.

Lemma adds_same {E A} (m : M E A) : keeps (same μ) m → adds m (λ _, 0).
Proof. intros Hk w a w' [Hs _]%Hk. unfold same in Hs. lia. Qed.
Lemma adds_bind {E A B} (m : M E A) (k : A → M E B) δ ε :
  adds m δ → (∀ a, adds (k a) (λ b, ε b - δ a)) → adds (mbind k m) ε.
Proof.
  intros Hm Hk w b w' (a & w1 & H1 & H2)%bind_Ok. apply Hm in H1. apply Hk in H2. lia.
Qed.
(** First something that leaves the measure alone. *)
Lemma adds_after {E A B} (m : M E A) (k : A → M E B) ε :
  keeps (same μ) m → (∀ a, adds (k a) ε) → adds (mbind k m) ε.
Proof.
  intros Hm Hk. eapply adds_bind; [by apply adds_same|]. intros a w b w' Hr%Hk. simpl. lia.
Qed.
Lemma adds_map_err {E F A} (f : E → F) (m : M E A) δ : adds m δ → adds (map_err f m) δ.
Proof. intros Hm w a w' Hr%map_err_Ok. by apply Hm. Qed.
Lemma adds_ret {E A} (a : A) δ : δ a = 0 → adds (mret a : M E A) δ.
Proof. intros Hd w b w' [= <- <-]. lia. Qed.
Lemma adds_eq {E A} (m : M E A) δ ε : (∀ a, δ a = ε a) → adds m δ → adds m ε.
Proof. intros He Hm w a w' Hr. rewrite <-He. by apply Hm. Qed.

Lemma balances_frame {E A} (m : M E A) :
  keeps (same μ) m → meters (still g) m → balances m.
Proof.
  intros Hk Hm w r w' Hr. unfold balanced. destruct (Hk _ _ _ Hr) as [-> _].
  by rewrite (Hm _ _ _ Hr).
Qed.
Lemma balances_bind {E A B} (m : M E A) (k : A → M E B) :
  balances m → (∀ a, balances (k a)) → balances (mbind k m).
Proof.
  intros Hm Hk w r w' Hr Hi. apply bind_inv in Hr as (r1 & w1 & H1 & Hr).
  specialize (Hm _ _ _ H1 Hi). destruct r1; [by eapply Hk|by destruct Hr as [_ ->]].
Qed.
Lemma balances_attempt {E F A} (m : M E A) : balances m → balances (attempt m : M F _).
Proof.
  intros Hm w r w'. unfold attempt. destruct (m w) as [x w1] eqn:E1. intros [= _ <-].
  by eapply Hm.
Qed.
Lemma balances_map_err {E F A} (f : E → F) (m : M E A) : balances m → balances (map_err f m).
Proof. intros Hm w r w' [r1 Hr]%map_err_inv. by eapply Hm. Qed.
Lemma balances_tick_or {E A} count (m : M E A) :
  (∀ x, g (count x) = g x) → balances m → balances (tick_or count m).
Proof.
  intros Hc Hm. unfold tick_or. apply balances_bind; [by apply balances_attempt|].
  intros [a|e]; apply balances_frame; [frame|meter_still|frame|meter_still]. by unfold still.
Qed.
Lemma balances_after {E A} (m : M E A) w : balances m → balanced w → balanced (after m w).
Proof. intros Hm Ha. unfold after. destruct (m w) as [r w'] eqn:Hr. by eapply Hm. Qed.

(** [settles n m]: [m] brings a gauge that is [n] behind its measure up to it. *)
Definition settles {E A} (n : Z) (m : M E A) : Prop :=
  ∀ w r w', m w = (r, w') → cong (g (w_metrics w) + n) (μ (w_db w)) → balanced w'.
Lemma settles_metric {E A} f (k : M E A) n :
  shifts f n → balances k → settles n (do? metric f in k).
Proof.
  intros Hf Hk w r w' Hr Hc. apply bind_inv in Hr as (u & w1 & H1 & Hr). injection H1 as <- <-.
  eapply Hk; [exact Hr|]. unfold balanced. simpl. etrans; [apply Hf|done].
Qed.
Lemma settles_last {E} f n : shifts f n → settles n (metric f : M E unit).
Proof. intros Hf w r w' [= _ <-] Hc. unfold balanced. simpl. etrans; [apply Hf|done]. Qed.
Lemma transaction_settles {E A} (e : SqlError → E) (body : M E A) δ w r w' :
  meters (still g) body → adds body δ → transaction e body w = (r, w') → balanced w →
  match r with
  | Ok a => cong (g (w_metrics w') + δ a) (μ (w_db w'))
  | Err _ => balanced w'
  end.
Proof.
  intros Hm Ha H1 Hb. pose proof (meters_transaction (still g) _ _ Hm _ _ _ H1) as Hg.
  unfold still in Hg. destruct r as [a|x].
  - apply transaction_Ok in H1 as (w2 & H1 & ->). apply Ha in H1. simpl in *.
    rewrite H1, Hg. by apply cong_add.
  - apply transaction_Err in H1. unfold balanced. by rewrite Hg, H1.
Qed.
(** A transaction, and the updates that follow its commit. *)
Lemma balances_transaction {E A B} (e : SqlError → E) (body : M E A) (k : A → M E B) δ :
  meters (still g) body → adds body δ → (∀ a, settles (δ a) (k a)) →
  balances (mbind k (transaction e body)).
Proof.
  intros Hm Ha Hk w r w' Hr Hb. apply bind_inv in Hr as (r1 & w1 & H1 & Hr).
  eapply transaction_settles in H1; [|done..]. destruct r1 as [a|x]; [by eapply Hk|].
  by destruct Hr as [_ ->].
Qed.
Lemma balances_attempted {E F A B} (e : SqlError → F) (body : M F A) (k : result F A → M E B) δ :
  meters (still g) body → adds body δ → (∀ a, settles (δ a) (k (Ok a))) →
  (∀ x, balances (k (Err x))) → balances (mbind k (attempt (transaction e body))).
Proof.
  intros Hm Ha Hk Hx w r w' Hr Hb. apply bind_inv in Hr as (r1 & w1 & H1 & Hr).
  unfold attempt in H1. destruct (transaction e body w) as [x w2] eqn:Ht. injection H1 as <- <-.
  eapply transaction_settles in Ht; [|done..]. destruct x as [a|x]; [by eapply Hk|by eapply Hx].
Qed.
End Ledger.

(** ** Receipts *)
Definition receipt_count (d : Db) : Z := Z.of_nat (size (enqueue_receipts d)).
Abbreviation rec_shifts := (shifts enqueue_receipts_gauge).
Abbreviation rec_adds := (adds receipt_count).
Abbreviation rec_balances := (balances receipt_count enqueue_receipts_gauge).

Lemma size_delete_keys {V} `{Countable K} (ks : list K) (m : gmap K V) :
  NoDup ks → (∀ k, k ∈ ks → is_Some (m !! k)) →
  (size (delete_keys ks m) + length ks = size m)%nat.
Proof.
  intros Hnd. induction Hnd as [|k ks Hni _ IH]; intros Hin; simpl; [lia|].
  rewrite <-IH by (intros i Hi; apply Hin; by right).
  destruct (Hin k) as [x Hx]; [by left|].
  assert (delete_keys ks m !! k = Some x) as Hk by (by rewrite lookup_delete_keys, decide_False).
  fold (delete_keys ks m). rewrite map_size_delete, Hk.
  assert (size (delete_keys ks m) ≠ 0%nat); [|lia].
  by apply (map_size_ne_0_lookup_2 _ k); rewrite Hk.
Qed.
Lemma release_count id d :
  receipt_count (release_receipts id d).2 = receipt_count d - Z.of_nat (release_receipts id d).1.
Proof.
  unfold release_receipts, receipt_count. simpl.
  pose proof (size_delete_keys (rows_where (released_by id) (enqueue_receipts d)).*1
    (enqueue_receipts d)) as Hs. rewrite <-Hs; [lia|apply rows_where_NoDup|].
  intros k ([k' r] & -> & [Hk _]%elem_of_rows_where)%list_elem_of_fmap. by exists r.
Qed.
Lemma insert_receipt_count q k r d d' :
  insert_receipt q k r d = Ok d' → receipt_count d' = receipt_count d + 1.
Proof.
  intros [Hn ->]%insert_receipt_Ok. unfold receipt_count. simpl.
  rewrite map_size_insert_None by done. lia.
Qed.
Lemma insert_job_count id j d d' : insert_job id j d = Ok d' → same receipt_count d d'.
Proof. by intros [_ ->]%insert_job_Ok. Qed.
#[local] Hint Resolve insert_job_count : frames.

Section Receipts.
Context `{HE : Env, HU : !UuidLaw HE, HP : Prost, HC : CronLib}.

Lemma adds_receipt {F} (f : SqlError → F) q k r :
  rec_adds (map_err f (try_execute (insert_receipt q k r))) (λ _, 1).
Proof.
  apply adds_map_err. intros w u w' (d & Hd & ->)%try_execute_Ok. simpl.
  by eapply insert_receipt_count.
Qed.

(** *** Metrics *)
#[local] Arguments transition : simpl never.
#[local] Arguments bump_state : simpl never.
#[local] Arguments event : simpl never.
#[local] Arguments dedup_released : simpl never.
#[local] Arguments enqueue_receipt_created : simpl never.
#[local] Arguments flow_waiting_children_inc : simpl never.
#[local] Arguments flow_waiting_children_dec : simpl never.
#[local] Arguments flow_nodes_created : simpl never.
#[local] Arguments flow_merge_nodes : simpl never.
Ltac no_receipt := apply shifts_still; intros ?; by repeat case_match.
Lemma transition_receipts from to e m :
  enqueue_receipts_gauge (transition from to e m) = enqueue_receipts_gauge m.
Proof. unfold transition, bump_state, event. by repeat case_match. Qed.
Lemma shifts_created : rec_shifts enqueue_receipt_created 1.
Proof. intros m. unfold enqueue_receipt_created. simpl. apply cong_fetch_add. Qed.
Lemma shifts_iter n : rec_shifts (Nat.iter n enqueue_receipt_created) (Z.of_nat n).
Proof.
  induction n as [|n IH]; [by apply shifts_still|].
  eapply shifts_eq; [|apply (shifts_then _ _ _ _ _ IH shifts_created)]. lia.
Qed.
Lemma shifts_released n : rec_shifts (dedup_released n) (- n).
Proof.
  unfold dedup_released. destruct (Z.eqb_spec n 0) as [->|Hn]; [by apply shifts_still|].
  intros m. simpl. apply cong_fetch_add.
Qed.
Definition created (o : SuccessMetric) : Z :=
  match o with Inserted _ _ _ true => 1 | _ => 0 end.
Lemma shifts_flush o : rec_shifts (flush o) (created o).
Proof.
  destruct o as [id st name b|id]; [|by apply shifts_still]. intros m. unfold flush. cbn.
  rewrite transition_receipts. destruct b; [apply shifts_created|by rewrite Z.add_0_r].
Qed.
Lemma enqueued_nodes_receipts nodes m :
  enqueue_receipts_gauge (foldl enqueued_node m nodes) = enqueue_receipts_gauge m.
Proof.
  revert m. induction nodes as [|x nodes IH]; intros m; [done|]. simpl. rewrite IH.
  unfold enqueued_node. cbn. by rewrite transition_receipts.
Qed.
Lemma flow_counters_receipts n m :
  enqueue_receipts_gauge (flow_waiting_children_inc n m) = enqueue_receipts_gauge m
  ∧ enqueue_receipts_gauge (flow_waiting_children_dec n m) = enqueue_receipts_gauge m
  ∧ enqueue_receipts_gauge (flow_nodes_created n m) = enqueue_receipts_gauge m
  ∧ enqueue_receipts_gauge (flow_merge_nodes n m) = enqueue_receipts_gauge m.
Proof.
  unfold flow_waiting_children_inc, flow_waiting_children_dec, flow_nodes_created, flow_merge_nodes.
  by repeat case_match.
Qed.
Lemma bump_receipts n s m : enqueue_receipts_gauge (bump_state n s m) = enqueue_receipts_gauge m.
Proof. unfold bump_state. by repeat case_match. Qed.
Ltac still_receipts :=
  repeat (rewrite ?transition_receipts, ?enqueued_nodes_receipts, ?bump_receipts,
    ?(λ n m, proj1 (flow_counters_receipts n m)),
    ?(λ n m, proj1 (proj2 (flow_counters_receipts n m))),
    ?(λ n m, proj1 (proj2 (proj2 (flow_counters_receipts n m)))),
    ?(λ n m, proj2 (proj2 (proj2 (flow_counters_receipts n m)))); cbn).
Lemma shifts_tree nodes k n : rec_shifts (flush_tree_metrics nodes k n) (Z.of_nat n).
Proof.
  intros m. unfold flush_tree_metrics. cbv zeta. still_receipts.
  etrans; [apply shifts_iter|]. still_receipts. done.
Qed.
Lemma shifts_merge nodes st : rec_shifts (merge_metrics nodes st) (Z.of_nat (keyed_nodes nodes)).
Proof.
  intros m. unfold merge_metrics. cbv zeta. still_receipts.
  etrans; [apply shifts_iter|]. destruct (runnable st); still_receipts; done.
Qed.
Lemma shifts_finish fl f : rec_shifts (finish_metrics fl f) (- Z.of_nat (f_released f)).
Proof.
  intros m. unfold finish_metrics. cbv zeta.
  assert (∀ n x, enqueue_receipts_gauge (Nat.iter n (λ m, transition None Failed "flow_parent_failed"
    (flow_parent_failure m)) x) = enqueue_receipts_gauge x) as Hit.
  { intros n x. induction n as [|n IH]; [done|]. exact IH. }
  rewrite Hit. still_receipts. etrans; [|apply (shifts_released (Z.of_nat (f_released f)))].
  destruct (f_parent_released f), (f_retry f), (f_stored_result f); still_receipts;
    unfold event; repeat case_match; still_receipts; done.
Qed.
Lemma shifts_recovered now rows : rec_shifts (λ m, foldl (recovered_metrics now) m rows) 0.
Proof.
  apply shifts_still. intros m. revert m. induction rows as [|[id j] rows IH]; intros m; [done|].
  simpl. rewrite IH. unfold recovered_metrics. cbv zeta.
  destruct (_ <? _); unfold event; repeat case_match; still_receipts; done.
Qed.
Lemma shifts_sweep o : rec_shifts (sweep_metrics o) (- Z.of_nat (o_receipts o)).
Proof.
  assert (∀ t r n m, t = "completed" ∨ t = "failed" →
    enqueue_receipts_gauge (retention_deleted t r n m) = enqueue_receipts_gauge m) as Hd.
  { intros t r n m [-> | ->]; unfold retention_deleted; repeat case_match; still_receipts; done. }
  assert (∀ n, rec_shifts (retention_deleted "receipt" "orphan" n) (- n)) as Hr.
  { intros n m. unfold retention_deleted. destruct (Z.eqb_spec n 0) as [->|Hn]; [by rewrite Z.add_0_r|].
    cbn. apply cong_fetch_add. }
  assert (∀ a b c m, enqueue_receipts_gauge (rejections_pruned a (facet_dispatch_pruned b
    (chain_counters_pruned c m))) = enqueue_receipts_gauge m) as Hc.
  { intros a b c m. unfold rejections_pruned, facet_dispatch_pruned, chain_counters_pruned.
    by repeat case_match. }
  intros m. unfold sweep_metrics. cbv zeta. rewrite Hc. etrans; [apply Hr|].
  by rewrite !Hd by auto.
Qed.

(** *** Enqueueing *)
Lemma enqueue_one_adds l req now rr : rec_adds (enqueue_one l req now rr) (λ o, created (success o)).
Proof.
  unfold enqueue_one. intros w o w' (x & w1 & H1 & Hr)%bind_Ok.
  assert (receipt_count (w_db w1) = receipt_count (w_db w)) as E1.
  { assert (keeps (same receipt_count) (replay req rr)) as Hk by (unfold replay; frame).
    by apply Hk in H1 as [? _]. }
  destruct x as [o'|].
  - injection Hr as -> <-. unfold replay in H1. destruct rr; [|done].
    apply bind_Ok in H1 as (y & w3 & H3 & H1). destruct y as [rc|]; [|done].
    destruct (decide _); [|done]. injection H1 as <- _. simpl. lia.
  - rewrite <-E1. clear w H1 E1. revert w1 o w' Hr. unfold admit_new.
    apply adds_after; [unfold admit_ingress, ingress_admit, reject; frame|]. intros ?.
    destruct (i64_checked_add _ _) as [av|]; [|by intros w o w'].
    apply adds_after; [frame|]. intros id. cbv zeta.
    apply adds_after; [unfold ancestry, reject; frame|]. intros [depth trace].
    apply adds_after; [unfold circuit_breaker, reject; frame|]. intros ?.
    apply adds_after; [unfold quarantine, reject; frame|]. intros ?.
    apply adds_after; [frame|]. intros ?. unfold write_receipt. destruct rr as [orig|].
    + eapply adds_bind; [apply adds_receipt|]. intros ?. apply adds_ret. done.
    + apply adds_after; [frame|]. intros ?. by apply adds_ret.
Qed.
Lemma batch_loop_adds l now i reqs :
  rec_adds (batch_loop l now i reqs) (foldr (λ o n, created (success o) + n) 0).
Proof.
  revert i. induction reqs as [|[req rr] reqs IH]; intros i; simpl; [by apply adds_ret|].
  eapply adds_bind; [apply adds_map_err, enqueue_one_adds|]. intros o.
  eapply adds_bind; [apply IH|]. intros os. apply adds_ret. simpl. lia.
Qed.
Lemma enqueue_one_meters l req now rr : meters (still enqueue_receipts_gauge) (enqueue_one l req now rr).
Proof.
  unfold enqueue_one, replay, admit_new, admit_ingress, ingress_admit, ancestry, circuit_breaker,
    quarantine, write_receipt, reject. meter_still.
Qed.
Lemma batch_loop_meters l now i reqs : meters (still enqueue_receipts_gauge) (batch_loop l now i reqs).
Proof.
  revert i. induction reqs as [|[req rr] reqs IH]; intros i; simpl; meter_still.
  apply enqueue_one_meters.
Qed.
Lemma fire_one_balances l row : rec_balances (fire_one l row).
Proof.
  unfold fire_one. destruct row as [id row].
  eapply (balances_transaction _ _ _ _ _ (λ sm, created sm)).
  - meter_still. unfold enqueue_scheduled. meter_still. apply enqueue_one_meters.
  - apply adds_after; [frame|]. intros now. eapply adds_bind.
    + apply adds_map_err. unfold enqueue_scheduled. apply adds_after; [frame|]. intros [req rr].
      eapply adds_bind; [apply adds_map_err, enqueue_one_adds|]. intros o. simpl.
      apply (adds_ret _ _ (λ x, created x.2 - created (success o))). simpl. lia.
    + intros [jid sm]. apply adds_after; [frame|]. intros next.
      apply adds_after; [frame|]. intros ?. apply adds_ret. simpl. lia.
  - intros sm. apply settles_metric; [apply shifts_flush|]. apply balances_frame; [frame|meter_still].
Qed.
Lemma execute_batch_balances l reqs prefix : rec_balances (execute_batch l reqs prefix).
Proof.
  unfold execute_batch. eapply (balances_attempted _ _ _ _ _ (foldr (λ o n, created (success o) + n) 0)).
  - meter_still. apply batch_loop_meters.
  - apply adds_after; [frame|]. intros now. apply batch_loop_adds.
  - intros os. apply settles_metric; [|apply balances_frame; [frame|meter_still]].
    apply (shifts_foldl _ (λ m o, flush (success o) m) (λ o, created (success o))).
    intros o. apply shifts_flush.
  - intros [s|now i s rj nm]; apply balances_frame.
    + frame.
    + meter_still.
    + unfold record_rejection. frame.
    + unfold record_rejection. meter_still. unfold still, fire_rejection_metric, rejection_recorded.
      by repeat case_match.
Qed.
Lemma enqueue_balances l req : rec_balances (enqueue l req).
Proof.
  unfold enqueue. apply balances_bind; [apply balances_frame; [frame|meter_still]|]. intros p.
  apply balances_bind; [apply execute_batch_balances|]. intros rs.
  apply balances_frame; [frame|meter_still].
Qed.
Lemma enqueue_bulk_balances l reqs : rec_balances (enqueue_bulk l reqs).
Proof.
  unfold enqueue_bulk. destruct (_ =? 0); [apply balances_frame; [frame|meter_still]|].
  destruct (_ <? _); [apply balances_frame; [frame|meter_still]|].
  apply balances_bind; [apply balances_frame; [frame|meter_still]|]. intros ps.
  apply execute_batch_balances.
Qed.
Lemma run_once_balances l n : rec_balances (run_once l n).
Proof.
  assert (∀ rows, rec_balances (fire_all l rows)) as Hall.
  { induction rows as [|row rows IH]; simpl; [apply balances_frame; [frame|meter_still]|].
    apply balances_bind; [apply balances_attempt, fire_one_balances|]. intros x.
    apply balances_bind; [apply balances_frame; [frame|meter_still]|]. intros _.
    apply balances_bind; [done|]. intros k. apply balances_frame; [frame|meter_still]. }
  unfold run_once. apply balances_bind; [apply balances_frame; [frame|meter_still]|].
  intros [now|]; [|apply balances_frame; [frame|meter_still]].
  apply balances_bind; [apply balances_frame; [frame|meter_still]|].
  intros [due|]; [apply Hall|apply balances_frame; [frame|meter_still]].
Qed.

(** *** Flows *)
Definition keyed (x : PreparedNode) : Z := if is_empty (p_idempotency_key x) then 0 else 1.
Lemma keyed_sum nodes : foldr (λ x n, keyed x + n) 0 nodes = Z.of_nat (keyed_nodes nodes).
Proof.
  unfold keyed_nodes. induction nodes as [|x nodes IH]; [done|]. simpl. rewrite IH, list.filter_cons.
  unfold keyed. destruct (is_empty _); simpl; lia.
Qed.
Lemma insert_node_adds taken tree now x parent depth :
  (∀ w a w', taken w ≠ (Ok a, w')) → rec_adds (insert_node taken tree now x parent depth) (λ _, keyed x).
Proof.
  intros Ht. unfold insert_node, keyed. destruct (i64_checked_add _ _); [|by intros w a w'].
  destruct (is_empty _).
  - apply adds_same. frame.
  - eapply (adds_bind _ _ _ (λ _, 0)).
    + eapply (adds_bind _ _ _ (λ _, 0)); [apply adds_same; frame|]. intros [rc|]; [|by apply adds_ret].
      intros w a w' Hr. by apply Ht in Hr.
    + intros ?. simpl. apply adds_after; [frame|]. intros ?. apply adds_receipt.
Qed.
Lemma for_each_adds {A B E} (f : A → M E B) (δ : A → Z) l :
  (∀ a, rec_adds (f a) (λ _, δ a)) → rec_adds (for_each f l) (λ _, foldr (λ a n, δ a + n) 0 l).
Proof.
  intros Hf. induction l as [|a l IH]; simpl; [by apply adds_ret|].
  eapply adds_bind; [apply Hf|]. intros b. eapply adds_bind; [apply IH|]. intros bs.
  apply adds_ret. simpl. lia.
Qed.
Lemma insert_tree_adds nodes now :
  rec_adds (insert_prepared_tree nodes now) (λ x, Z.of_nat x.1.2).
Proof.
  unfold insert_prepared_tree. eapply adds_bind; [apply for_each_adds|].
  - intros x. apply insert_node_adds. done.
  - intros u. apply adds_ret. simpl. rewrite keyed_sum. lia.
Qed.
Abbreviation rec_still := (still enqueue_receipts_gauge).
Lemma or_rejected_balances {A} (m : M Status A) :
  keeps (same receipt_count) m → meters rec_still m → rec_balances (or_rejected m).
Proof.
  intros Hk Hm. apply balances_frame; [by apply or_rejected_frame; [apply _|]|].
  unfold or_rejected. meter_still.
Qed.
Lemma reject_balances {A} c m : rec_balances (flow_reject c m : M Status A).
Proof. apply balances_frame; [apply flow_reject_frame, _|unfold flow_reject; meter_still]. Qed.
Lemma insert_node_meters taken tree now n parent depth :
  meters rec_still taken → meters rec_still (insert_node taken tree now n parent depth).
Proof. intros. unfold insert_node. meter_still. Qed.
Lemma insert_tree_meters nodes now : meters rec_still (insert_prepared_tree nodes now).
Proof. unfold insert_prepared_tree. meter_still. apply insert_node_meters. meter_still. Qed.
Lemma add_flow_balances l flow : rec_balances (add_flow l flow).
Proof.
  destruct flow as [t|]; [|apply reject_balances]. unfold add_flow. apply balances_bind.
  { apply or_rejected_balances; [apply prepare_node_frame, _|apply prepare_node_meters, _]. }
  intros st. eapply (balances_transaction _ _ _ _ _ (λ x, Z.of_nat x.1.2)).
  - meter_still. apply insert_tree_meters.
  - apply adds_after; [frame|]. intros now. apply insert_tree_adds.
  - intros [[k n] resp]. apply settles_metric; [apply shifts_tree|].
    apply balances_frame; [frame|meter_still].
Qed.
(** The results of a batch pair up with its trees. *)
Lemma trees_adds trees now :
  rec_adds (for_each (λ nodes, insert_prepared_tree nodes now) trees)
    (λ rs, foldr (λ (t : list PreparedNode * (nat * nat * AddFlowResponse)) n, Z.of_nat t.2.1.2 + n) 0
             (zip trees rs)).
Proof.
  induction trees as [|t trees IH]; simpl; [by apply adds_ret|].
  eapply adds_bind; [apply insert_tree_adds|]. intros x. eapply adds_bind; [apply IH|]. intros xs.
  apply adds_ret. simpl. lia.
Qed.
Lemma add_flow_bulk_balances l flows : rec_balances (add_flow_bulk l flows).
Proof.
  unfold add_flow_bulk. destruct (decide _); [apply reject_balances|].
  destruct (_ <? _); [apply reject_balances|]. apply balances_bind.
  { apply or_rejected_balances; [apply prepare_trees_frame, _|].
    clear. generalize (∅ : gset (string * string)).
    induction flows as [|f fs IH]; intros seen; simpl; meter_still;
      first [apply IH|apply prepare_node_meters, _]. }
  intros trees. eapply balances_transaction; [| |].
  - meter_still. apply insert_tree_meters.
  - apply adds_after; [frame|]. intros now. apply trees_adds.
  - intros rs. apply settles_metric; [|apply balances_frame; [frame|meter_still]].
    apply (shifts_foldl _ (λ m (t : list PreparedNode * (nat * nat * AddFlowResponse)),
      flush_tree_metrics t.1 t.2.1.1 t.2.1.2 m) (λ t, Z.of_nat t.2.1.2)). intros t. apply shifts_tree.
Qed.
Lemma merge_body_receipts l name key nodes :
  rec_adds (merge_body l name key nodes) (λ _, Z.of_nat (keyed_nodes nodes)).
Proof.
  unfold merge_body. apply adds_after; [frame|]. intros now.
  apply adds_after; [unfold merge_target, flow_reject; frame|]. intros [id t].
  apply adds_after; [frame|]. intros ?.
  apply adds_after; [unfold merge_caps, flow_reject; frame|]. intros ?.
  eapply adds_bind; [apply (for_each_adds _ keyed)|].
  - intros x. unfold attach_node. eapply adds_bind; [apply insert_node_adds|].
    + apply flow_reject_never.
    + intros u. apply adds_ret. simpl. lia.
  - intros rows. eapply adds_eq; [|apply adds_same; frame; by injection H as <- <-].
    intros ?. simpl. rewrite keyed_sum. lia.
Qed.
Lemma add_flow_merge_balances l flow : rec_balances (add_flow_merge l flow).
Proof.
  destruct flow as [[f cs]|]; [|apply reject_balances]. unfold add_flow_merge.
  destruct (is_empty _); [apply reject_balances|]. destruct (decide _); [apply reject_balances|].
  apply balances_bind.
  { apply or_rejected_balances; [frame; apply prepare_node_frame, _|].
    meter_still. apply prepare_node_meters, _. }
  intros st. eapply balances_transaction; [|apply merge_body_receipts|].
  - unfold merge_body, merge_target, merge_caps, attach_node, flow_reject. meter_still.
    apply insert_node_meters. meter_still.
  - intros [[id t] rows]. apply settles_metric; [apply shifts_merge|].
    apply balances_frame; [frame|meter_still].
Qed.

(** *** Releases: recovery, acknowledgements, retention *)
Lemma release_adds id : rec_adds (release_stmt id) (λ n, - Z.of_nat n).
Proof. intros w n w' [-> ->]%release_stmt_Ok. cbn [w_db]. rewrite release_count. lia. Qed.
Lemma insert_history_count id h d d' : insert_history id h d = Ok d' → same receipt_count d d'.
Proof. by intros [_ ->]%insert_history_Ok. Qed.
#[local] Hint Resolve insert_history_count : frames.
Lemma recover_one_adds now row : rec_adds (recover_one now row) (λ k, - Z.of_nat k).
Proof.
  destruct row as [id j]. unfold recover_one. destruct (_ <? _).
  - apply adds_after; [frame|]. intros ?. by apply adds_ret.
  - apply adds_after; [frame|]. { destruct (jobs _ !! id); [eauto with frames|by injection H as <-]. }
    intros ?. apply adds_after; [frame|]. intros ?. apply (release_adds id).
Qed.
Lemma recover_expired_balances n : rec_balances (recover_expired n).
Proof.
  unfold recover_expired. apply balances_map_err.
  eapply (balances_transaction _ _ _ _ _ (λ x, - Z.of_nat x.2)).
  - unfold recover_one. meter_still.
  - apply adds_after; [frame|]. intros now. apply adds_after; [frame|]. intros rows.
    eapply (adds_bind _ _ _ (λ m, - Z.of_nat m)); [|intros m; apply adds_ret; simpl; lia].
    assert (∀ k, rec_adds (fold_m (λ n row, let? k := recover_one now row in mret (n + k)%nat) k rows)
      (λ m, - Z.of_nat m + Z.of_nat k)) as Hf; [|eapply adds_eq; [|apply (Hf 0%nat)]; intros; simpl; lia].
    induction rows as [|row rows IH]; intros k; simpl; [apply adds_ret; lia|].
    eapply (adds_bind _ _ _ (λ m, - Z.of_nat m + Z.of_nat k)).
    + eapply adds_bind; [apply recover_one_adds|]. intros m. apply adds_ret. lia.
    + intros m. eapply adds_eq; [|apply (IH m)]. intros. simpl. lia.
  - intros [[now rows] m]. apply settles_metric; [apply shifts_released|].
    intros w r w' Hr Hb. apply bind_inv in Hr as (u & w1 & H1 & Hr). injection H1 as <- <-.
    injection Hr as _ <-. unfold balanced in *. simpl in *. etrans; [apply shifts_recovered|].
    by rewrite Z.add_0_r.
Qed.
(** No ancestor is failed along with the job. *)
Definition alone (j : Job) : Prop := j_fail_parent_on_failure j = false ∨ j_parent_id j = None.
Lemma cascade_alone child j w :
  alone j → cascade_all child (j_fail_parent_on_failure j) (j_parent_id j) w = (Ok (0, 0)%nat, w).
Proof. unfold cascade_all. intros [-> | ->]; simpl; [done|]. by destruct (j_fail_parent_on_failure j). Qed.
Lemma settle_job_adds a j now :
  (failed a = true → alone j) → rec_adds (settle_job a j now) (λ f, - Z.of_nat (f_released f)).
Proof.
  intros Hal. unfold settle_job. cbv zeta. apply adds_after.
  { unfold archive_stmt. frame. destruct (jobs d !! a_id a); [|by injection H as <- <-].
    destruct (insert_history _ _ _) eqn:Hi; [|done]. injection H as <- <-. eauto with frames. }
  intros ?. apply adds_after; [frame|]. intros ?. eapply adds_bind; [apply release_adds|]. intros n.
  destruct (failed a).
  - intros w f w' Hr. rewrite (bind_run _ _ _ _ _ (cascade_alone _ _ _ (Hal eq_refl))) in Hr.
    injection Hr as <- <-. simpl. lia.
  - apply adds_after; [|intros x; apply adds_ret; simpl; lia].
    unfold child_completed, update_stmt. frame. by injection H as <- <-.
Qed.
Lemma retry_job_adds a j now : rec_adds (retry_job a j now) (λ f, - Z.of_nat (f_released f)).
Proof.
  unfold retry_job. apply adds_after; [frame|]. intros [r|]; [|by intros w f w'].
  apply adds_after; [frame|]. intros x. apply adds_after; [unfold update_stmt; frame; by injection H as <- <-|].
  intros ?. by apply adds_ret.
Qed.
Lemma finish_meters a j now :
  meters rec_still (settle_job a j now) ∧ meters rec_still (retry_job a j now).
Proof.
  assert (∀ fuel c fl an, meters rec_still (cascade fuel c fl an)) as Hc.
  { induction fuel as [|fuel IH]; intros c fl an; simpl; unfold archive_stmt, release_stmt; meter_still. }
  split; unfold settle_job, retry_job, child_completed, archive_stmt, update_stmt, release_stmt; meter_still.
  intros w r w'. apply Hc.
Qed.
Abbreviation rec_balanced := (balanced receipt_count enqueue_receipts_gauge).
Lemma finish_job_balances a w r w' :
  (∀ j, failed a = true → jobs (w_db w) !! a_id a = Some j → alone j) →
  finish_job a w = (r, w') → rec_balanced w → rec_balanced w'.
Proof.
  intros Hq Hr Hb. unfold finish_job in Hr. destruct (_ || _); [by injection Hr as _ <-|].
  apply bind_inv in Hr as (r1 & w1 & H1 & Hr).
  assert (enqueue_receipts_gauge (w_metrics w1) = enqueue_receipts_gauge (w_metrics w)) as Hg.
  { apply (meters_transaction rec_still) in H1; [done|]. unfold finish_archived. meter_still;
      apply finish_meters. }
  unfold balanced in *. destruct r1 as [fin|e].
  2:{ destruct Hr as [_ ->]. apply transaction_Err in H1. by rewrite Hg, H1. }
  apply transaction_Ok in H1 as (w2 & H1 & ->). apply bind_Ok in H1 as (row & w3 & H3 & H1).
  inv_run H3. destruct (jobs (w_db w) !! a_id a) as [j|] eqn:Hj.
  2:{ unfold finish_archived in H1. apply bind_Ok in H1 as (ar & w4 & H4 & H1). inv_run H4.
      destruct (job_history _ !! _) as [h|]; [|done]. destruct (_ && _); [|done].
      injection H1 as <- <-. by injection Hr as _ <-. }
  destruct (is_state (j_state j) Active); simpl in H1; [|done]. destruct (bool_decide _); [done|].
  destruct (negb _); [done|]. apply bind_Ok in H1 as (now & w3 & H3 & H1). inv_run H3.
  apply bind_Ok in H1 as (e & w3 & H3 & H1). inv_run H3. destruct (lease_over _ _); [done|].
  apply bind_Ok in H1 as (f & w3 & H3 & H1). injection H1 as <- <-. apply map_err_Ok in H3.
  injection Hr as _ <-. simpl in *. etrans; [apply shifts_finish|].
  assert (receipt_count (w_db w3) = receipt_count (w_db w) - Z.of_nat (f_released f)) as ->.
  { destruct (failed a && _ && _); [by apply retry_job_adds in H3|].
    apply settle_job_adds in H3; [done|]. intros Hf. by apply (Hq j). }
  rewrite Hg. by apply cong_add.
Qed.
Context `{HS : !ScanLaw HE}.
Lemma prune_receipts_adds n : rec_adds (prune_receipts n) (λ k, - Z.of_nat k).
Proof.
  intros w k w' (d & _ & [= <- <-] & ->)%stmt_Ok. unfold receipt_count. simpl.
  set (ids := (sql_limit n _).*1).
  pose proof (size_delete_keys ids (enqueue_receipts (w_db w))) as Hs. rewrite <-Hs; [lia|..].
  - eapply sublist_NoDup; [|apply fmap_sublist, sql_limit_sublist]. rewrite scan_perm.
    apply rows_where_NoDup.
  - intros i (x & Hin)%elem_of_limit_fst. rewrite scan_perm in Hin.
    apply elem_of_rows_where in Hin as [Hx _]. by exists x.
Qed.
Lemma sweep_balances cfg : rec_balances (sweep cfg).
Proof.
  unfold sweep, sweep_blocking. apply balances_map_err.
  eapply (balances_transaction _ _ _ _ _ (λ o, - Z.of_nat (o_receipts o))).
  - unfold sweep_body, when, prune_age, prune_count, prune_receipts, prune_chain_counters,
      prune_facet_dispatch, prune_rejections. meter_still.
  - unfold sweep_body. apply adds_after; [frame|]. intros now.
    do 4 (apply adds_after; [unfold when, prune_age, prune_count; frame; by injection H as <- <-|]; intros ?).
    eapply adds_bind; [apply prune_receipts_adds|]. intros k.
    do 3 (apply adds_after; [unfold when, prune_chain_counters, prune_facet_dispatch, prune_rejections;
      frame; by injection H as <- <-|]; intros ?).
    apply adds_ret. simpl. lia.
  - intros o. apply settles_metric; [apply shifts_sweep|]. apply balances_frame; [frame|meter_still].
Qed.

(** *** Every call *)
Lemma claim_balances cfg req : rec_balances (get_next_job cfg req).
Proof.
  apply balances_frame.
  - unfold get_next_job, claim_selected, bump_attempts, serve_facet, consume. frame. by repeat case_match.
  - unfold get_next_job, claim_selected, bump_attempts, serve_facet, consume. meter_still;
      unfold still, claim_metrics; cbn; by rewrite ?transition_receipts.
Qed.
Lemma lease_balances duration req : rec_balances (renew_lease duration req).
Proof. apply balances_frame; unfold renew_lease; [frame|meter_still]. Qed.
Lemma admin_balances rq ru su f id :
  rec_balances (rate_limit_upsert ru) ∧ rec_balances (rate_limit_delete f)
  ∧ rec_balances (rate_limit_status f) ∧ rec_balances (ingress_upsert ru)
  ∧ rec_balances (ingress_delete f) ∧ rec_balances (ingress_status f)
  ∧ rec_balances (scheduler_upsert su) ∧ rec_balances (scheduler_delete id)
  ∧ rec_balances (scheduler_get id) ∧ rec_balances scheduler_list
  ∧ rec_balances (get_children_values rq).
Proof.
  unfold rate_limit_upsert, rate_limit_delete, rate_limit_status, ingress_upsert, ingress_delete,
    ingress_status, scheduler_upsert, scheduler_delete, scheduler_get, scheduler_list,
    get_children_values.
  split_and!; (apply balances_frame; [frame|meter_still]).
  all: by injection H as <- <-.
Qed.

(** The acknowledgement of a failure that fails no ancestor, or any other call. *)
Definition quiet (c : Call) (w : World) : Prop :=
  match c with
  | FailJob id _ _ _ _ => ∀ j, jobs (w_db w) !! id = Some j → alone j
  | _ => True
  end.
Lemma acknowledge_balances c w :
  match c with
  | CompleteJob id worker n res => rec_balanced w → rec_balanced (after (complete_job id worker n res) w)
  | FailJob id worker e n nr =>
      quiet c w → rec_balanced w → rec_balanced (after (fail_job id worker e n nr) w)
  | _ => True
  end.
Proof.
  destruct c; try done; unfold after.
  - intros Hb. destruct (complete_job _ _ _ _ w) as [r w'] eqn:Hr. simpl. unfold complete_job in Hr.
    destruct (_ <? _); [by injection Hr as _ <-|]. apply bind_inv in Hr as (r1 & w1 & H1 & Hr).
    apply finish_job_balances in H1; [|done..].
    destruct r1; [by injection Hr as _ <-|by destruct Hr as [_ ->]].
  - intros Hq Hb. destruct (fail_job _ _ _ _ _ w) as [r w'] eqn:Hr.
    eapply finish_job_balances; [|exact Hr|done]. intros j _ Hj. by eapply Hq.
Qed.
Lemma perform_balances sv c w : quiet c w → rec_balanced w → rec_balanced (perform sv c w).
Proof.
  intros Hq Hb. set (ru := mkUpsertRule "" 0 0). set (su := mkUpsertSched "" None None).
  destruct c; try (by apply (acknowledge_balances (CompleteJob _ _ _ _)));
    try (by apply (acknowledge_balances (FailJob _ _ _ _ _))); simpl; try (apply balances_after; [|done]).
  - apply enqueue_balances.
  - apply enqueue_bulk_balances.
  - apply claim_balances.
  - apply lease_balances.
  - apply add_flow_balances.
  - apply add_flow_bulk_balances.
  - apply add_flow_merge_balances.
  - apply (admin_balances _ ru su "" "").
  - apply (admin_balances "" req su "" "").
  - apply (admin_balances "" ru su _ "").
  - apply (admin_balances "" ru su _ "").
  - apply (admin_balances "" req su "" "").
  - apply (admin_balances "" ru su _ "").
  - apply (admin_balances "" ru su _ "").
  - apply (admin_balances "" ru req "" "").
  - apply (admin_balances "" ru su "" _).
  - apply (admin_balances "" ru su "" _).
  - apply (admin_balances "" ru su "" "").
  - by apply balances_tick_or; [|apply recover_expired_balances].
  - destruct (enabled _); [|done]. apply balances_after; [|done].
    by apply balances_tick_or; [|apply sweep_balances].
  - apply run_once_balances.
Qed.

(** Runs without a failure cascade. *)
Inductive quiet_step (sv : Service) : World → World → Prop :=
| QCall c w : typed_call c → quiet c w → quiet_step sv w (perform sv c w)
| QRestart w : quiet_step sv w (restart sv w).
Definition uncascaded (sv : Service) (w : World) : Prop := rtc (quiet_step sv) (initial sv) w.
Lemma uncascaded_balanced sv w : uncascaded sv w → rec_balanced w.
Proof.
  intros Hr. apply (rtc_ind_r (λ w, rec_balanced w) (initial sv)) in Hr; [done|done|].
  intros w1 w2 _ [c v _ Hq|v] Hb; [by apply perform_balances|done].
Qed.
End Receipts.

(** ** Schedulers *)
Definition scheduler_count (d : Db) : Z := Z.of_nat (size (job_schedulers d)).
Abbreviation sch_still := (still schedulers_active).

(** The updates of the other handlers leave the gauge of schedulers alone. *)
Lemma transition_sched from to e m :
  schedulers_active (transition from to e m) = schedulers_active m.
Proof. unfold transition, bump_state, event. by repeat case_match. Qed.
Lemma flow_counters_sched n m :
  schedulers_active (flow_waiting_children_inc n m) = schedulers_active m
  ∧ schedulers_active (flow_waiting_children_dec n m) = schedulers_active m
  ∧ schedulers_active (flow_nodes_created n m) = schedulers_active m
  ∧ schedulers_active (flow_merge_nodes n m) = schedulers_active m.
Proof.
  unfold flow_waiting_children_inc, flow_waiting_children_dec, flow_nodes_created, flow_merge_nodes.
  by repeat case_match.
Qed.
Lemma small_sched :
  (∀ n m, schedulers_active (dedup_released n m) = schedulers_active m)
  ∧ (∀ t r n m, schedulers_active (retention_deleted t r n m) = schedulers_active m)
  ∧ (∀ e m, schedulers_active (event e m) = schedulers_active m).
Proof.
  unfold dedup_released, retention_deleted, bump_state, event. split_and!; intros; by repeat case_match.
Qed.
Lemma iter_sched n f m :
  (∀ m, schedulers_active (f m) = schedulers_active m) →
  schedulers_active (Nat.iter n f m) = schedulers_active m.
Proof. intros Hf. induction n as [|n IH]; [done|]. simpl. by rewrite Hf. Qed.
Lemma foldl_sched {A} (f : Metrics → A → Metrics) l m :
  (∀ m a, schedulers_active (f m a) = schedulers_active m) →
  schedulers_active (foldl f m l) = schedulers_active m.
Proof. intros Hf. revert m. induction l as [|a l IH]; intros m; [done|]. simpl. by rewrite IH, Hf. Qed.

Section SchedMetrics.
#[local] Arguments transition : simpl never.
#[local] Arguments event : simpl never.
#[local] Arguments dedup_released : simpl never.
#[local] Arguments retention_deleted : simpl never.
#[local] Arguments flow_waiting_children_inc : simpl never.
#[local] Arguments flow_waiting_children_dec : simpl never.
#[local] Arguments flow_nodes_created : simpl never.
#[local] Arguments flow_merge_nodes : simpl never.
Ltac still_sched :=
  repeat (rewrite ?transition_sched,
    ?(λ n m, proj1 (flow_counters_sched n m)), ?(λ n m, proj1 (proj2 (flow_counters_sched n m))),
    ?(λ n m, proj1 (proj2 (proj2 (flow_counters_sched n m)))),
    ?(λ n m, proj2 (proj2 (proj2 (flow_counters_sched n m)))),
    ?(proj1 small_sched), ?(proj1 (proj2 small_sched)), ?(proj2 (proj2 small_sched)); cbn).
Lemma flush_sched o m : schedulers_active (flush o m) = schedulers_active m.
Proof. destruct o as [id st name b|id]; [|done]. unfold flush. cbv zeta. cbn. still_sched. by destruct b. Qed.
Lemma enqueued_sched nodes m : schedulers_active (foldl enqueued_node m nodes) = schedulers_active m.
Proof. apply foldl_sched. intros x n. unfold enqueued_node. still_sched. done. Qed.
Lemma tree_sched nodes k n m : schedulers_active (flush_tree_metrics nodes k n m) = schedulers_active m.
Proof.
  unfold flush_tree_metrics. cbv zeta. still_sched. rewrite iter_sched by done. still_sched.
  apply enqueued_sched.
Qed.
Lemma merge_sched nodes st m : schedulers_active (merge_metrics nodes st m) = schedulers_active m.
Proof.
  unfold merge_metrics. cbv zeta. still_sched. rewrite iter_sched by done.
  destruct (runnable st); still_sched; apply enqueued_sched.
Qed.
Lemma finish_sched fl f m : schedulers_active (finish_metrics fl f m) = schedulers_active m.
Proof.
  unfold finish_metrics. cbv zeta. rewrite iter_sched by (intros x; still_sched; done). still_sched.
  destruct (f_parent_released f), (f_retry f), (f_stored_result f); still_sched; done.
Qed.
Lemma recovered_sched now rows m : schedulers_active (foldl (recovered_metrics now) m rows) = schedulers_active m.
Proof.
  apply foldl_sched. intros x [id j]. unfold recovered_metrics. cbv zeta.
  destruct (_ <? _); still_sched; done.
Qed.
Lemma sweep_sched o m : schedulers_active (sweep_metrics o m) = schedulers_active m.
Proof.
  unfold sweep_metrics, rejections_pruned, facet_dispatch_pruned, chain_counters_pruned. cbv zeta.
  repeat case_match; still_sched; done.
Qed.
Lemma claim_sched name prior c a now n m :
  schedulers_active (claim_metrics name prior c a now n m) = schedulers_active m.
Proof. unfold claim_metrics. still_sched. done. Qed.
End SchedMetrics.

Section Schedulers.
Context `{HE : Env, HU : !UuidLaw HE, HP : Prost, HC : CronLib}.
Abbreviation sch_same := (same job_schedulers).

Lemma insert_job_sched id j d d' : insert_job id j d = Ok d' → sch_same d d'.
Proof. by intros [_ ->]%insert_job_Ok. Qed.
Lemma insert_history_sched id h d d' : insert_history id h d = Ok d' → sch_same d d'.
Proof. by intros [_ ->]%insert_history_Ok. Qed.
Lemma insert_receipt_sched q k r d d' : insert_receipt q k r d = Ok d' → sch_same d d'.
Proof. by intros [_ ->]%insert_receipt_Ok. Qed.
#[local] Hint Resolve insert_job_sched insert_history_sched insert_receipt_sched : frames.

(** What a handler outside the administration of schedulers does: nothing to their table
    and nothing to their gauge. *)
Definition outside {E A} (m : M E A) : Prop := keeps sch_same m ∧ meters sch_still m.

Lemma enqueue_one_outside l req now rr : outside (enqueue_one l req now rr).
Proof.
  split; unfold enqueue_one, replay, admit_new, admit_ingress, ingress_admit, ancestry, circuit_breaker,
    quarantine, write_receipt, reject; [frame|meter_still].
Qed.
Lemma batch_loop_outside l now i reqs : outside (batch_loop l now i reqs).
Proof.
  split; revert i; induction reqs as [|[req rr] reqs IH]; intros i; simpl; [frame|frame|meter_still..];
    apply enqueue_one_outside.
Qed.
Lemma execute_batch_outside l reqs prefix : outside (execute_batch l reqs prefix).
Proof.
  split; unfold execute_batch, record_rejection.
  - frame; apply batch_loop_outside.
  - meter_still; first [apply batch_loop_outside|unfold still].
    + apply foldl_sched. intros x o. apply flush_sched.
    + unfold fire_rejection_metric, rejection_recorded. by repeat case_match.
Qed.
Lemma enqueue_outside l req reqs : outside (enqueue l req) ∧ outside (enqueue_bulk l reqs).
Proof.
  split; split; unfold enqueue, enqueue_bulk; [frame|meter_still|frame|meter_still];
    apply execute_batch_outside.
Qed.
Lemma claim_outside cfg req : outside (get_next_job cfg req).
Proof.
  split; unfold get_next_job, claim_selected, bump_attempts, serve_facet, consume.
  - frame. by repeat case_match.
  - meter_still; unfold still; by rewrite ?claim_sched.
Qed.
Lemma finish_outside a : outside (finish_job a).
Proof.
  assert (∀ fuel c fl an, outside (cascade fuel c fl an)) as Hc.
  { split; revert fl an; induction fuel as [|fuel IH]; intros fl an; simpl; [frame| |meter_still|];
      destruct fl, an; unfold archive_stmt, release_stmt; try (by frame); try (by meter_still).
    - frame; try (by injection H as <- <-). destruct (jobs d !! s); [|by injection H as <- <-].
      destruct (insert_history _ _ _) eqn:Hi; [|done]. injection H as <- <-. eauto with frames. }
  split; unfold finish_job, finish_archived, retry_job, settle_job, child_completed, archive_stmt,
    update_stmt, release_stmt, cascade_all.
  - frame; try (by injection H as <- <-).
    + destruct (jobs d !! a_id a); [|by injection H as <- <-].
      destruct (insert_history _ _ _) eqn:Hi; [|done]. injection H as <- <-. eauto with frames.
    + intros w r w'. apply Hc.
  - meter_still; [intros w r w'; apply Hc|unfold still; apply finish_sched].
Qed.
Lemma prepare_outside t parent depth md mn st : outside (prepare_node t parent depth md mn st).
Proof. split; [apply prepare_node_frame, _|apply prepare_node_meters, _]. Qed.
Lemma prepare_trees_outside l seen fs : outside (prepare_trees l seen fs).
Proof.
  split; revert seen; induction fs as [|f fs IH]; intros seen; simpl; [frame|frame|meter_still..];
    try apply IH; apply prepare_outside.
Qed.
Lemma flow_outside l flow flows p :
  outside (add_flow l flow) ∧ outside (add_flow_bulk l flows) ∧ outside (add_flow_merge l flow)
  ∧ outside (get_children_values p).
Proof.
  unfold add_flow, add_flow_bulk, add_flow_merge, get_children_values, insert_prepared_tree,
    merge_body, merge_target, merge_caps, attach_node, insert_node, flow_reject, or_rejected.
  split_and!; (split; [frame|meter_still]);
    try apply prepare_outside; try apply prepare_trees_outside; try (by injection H as <- <-);
    unfold still; rewrite ?tree_sched, ?merge_sched; try done.
  all: apply foldl_sched; intros; apply tree_sched.
Qed.
Lemma loops_outside duration req n cfg :
  outside (renew_lease duration req) ∧ outside (recover_expired n) ∧ outside (sweep cfg).
Proof.
  unfold renew_lease, recover_expired, recover_one, sweep, sweep_blocking, sweep_body, when, prune_age,
    prune_count, prune_receipts, prune_chain_counters, prune_facet_dispatch, prune_rejections.
  split_and!; (split; [frame|meter_still]); try (by injection H as <- <-);
    unfold still; rewrite ?recovered_sched, ?sweep_sched, ?(proj1 small_sched); try done.
  - destruct (jobs d !! s0); [eauto with frames|by injection H0 as <-].
  - by injection H0 as <- <-.
Qed.
Lemma limits_outside req f :
  outside (rate_limit_upsert req) ∧ outside (rate_limit_delete f) ∧ outside (rate_limit_status f)
  ∧ outside (ingress_upsert req) ∧ outside (ingress_delete f) ∧ outside (ingress_status f).
Proof.
  unfold rate_limit_upsert, rate_limit_delete, rate_limit_status, ingress_upsert, ingress_delete,
    ingress_status.
  split_and!; (split; [frame|meter_still]). all: by injection H as <- <-.
Qed.

(** *** The administration and the loop *)

(** Every scheduler has a run ahead. *)
Definition pending (d : Db) : Prop := map_Forall (λ _ r, s_next_run_at r ≠ None) (job_schedulers d).
Abbreviation sch_balances := (balances scheduler_count schedulers_active).
Definition minds {E A} (m : M E A) : Prop := sch_balances m ∧ keeps (upholds pending) m.

Lemma outside_minds {E A} (m : M E A) : outside m → minds m.
Proof.
  intros [Hk Hm]. split.
  - apply balances_frame; [|done]. revert Hk. apply keeps_weaken. unfold same, scheduler_count.
    by intros d d' ->.
  - revert Hk. apply keeps_weaken. unfold same, upholds, pending. by intros d d' ->.
Qed.
Lemma minds_bind {E A B} (m : M E A) (k : A → M E B) :
  minds m → (∀ a, minds (k a)) → minds (mbind k m).
Proof. intros [Hm1 Hm2] Hk. split; [apply balances_bind; [done|]; apply Hk|]. frame. apply Hk. Qed.
Lemma minds_attempt {E F A} (m : M E A) : minds m → minds (attempt m : M F _).
Proof. intros [Hm1 Hm2]. split; [by apply balances_attempt|frame]. Qed.

Lemma upsert_pending id new d :
  s_next_run_at new ≠ None → pending d → pending (upsert_scheduler id new d).
Proof.
  intros Hn Hp i r. unfold upsert_scheduler. simpl. destruct (decide (i = id)) as [->|Hne].
  - rewrite lookup_partial_alter_eq. unfold upsert_row. intros [= <-]. by destruct (job_schedulers d !! id).
  - rewrite lookup_partial_alter_ne by done. apply Hp.
Qed.
Lemma advance_pending id next jid now d : pending d → pending (advance_scheduler id next jid now d).
Proof.
  intros Hp i r. unfold advance_scheduler. simpl. destruct (decide (i = id)) as [->|Hne].
  - rewrite lookup_alter_eq. destruct (job_schedulers d !! id); [|done]. by intros [= <-].
  - rewrite lookup_alter_ne by done. apply Hp.
Qed.
Lemma upsert_count id new d :
  scheduler_count (upsert_scheduler id new d)
  = scheduler_count d + (if bool_decide (is_Some (get_scheduler id d)) then 0 else 1).
Proof.
  rewrite upsert_insert. unfold scheduler_count, get_scheduler. simpl.
  destruct (job_schedulers d !! id) as [r|] eqn:Hr; simpl.
  - rewrite map_size_insert_Some by done. lia.
  - rewrite map_size_insert_None by done. lia.
Qed.
Lemma delete_count id d :
  scheduler_count (delete_scheduler id d).2
  = scheduler_count d - (if (delete_scheduler id d).1 then 1 else 0).
Proof.
  unfold scheduler_count, delete_scheduler. simpl. destruct (job_schedulers d !! id) as [r|] eqn:Hr.
  - rewrite bool_decide_true by eauto. rewrite map_size_delete_Some by eauto.
    assert (0 < size (job_schedulers d))%nat; [|lia].
    apply Nat.neq_0_lt_0. intros H0%map_size_empty_inv. by rewrite H0 in Hr.
  - rewrite bool_decide_false by (by intros [? ?]). rewrite map_size_delete_None by done. lia.
Qed.
Lemma advance_count id next jid now d :
  scheduler_count (advance_scheduler id next jid now d) = scheduler_count d.
Proof.
  unfold scheduler_count, advance_scheduler. simpl. f_equal. rewrite <-!size_dom. by rewrite dom_alter_L.
Qed.

Abbreviation sch_adds := (adds scheduler_count).
Abbreviation sch_shifts := (shifts schedulers_active).
Lemma shifts_activated : sch_shifts scheduler_activated 1 ∧ sch_shifts scheduler_deactivated (-1).
Proof. split; intros m; apply cong_fetch_add. Qed.
Lemma scheduler_upsert_minds req : minds (scheduler_upsert req).
Proof.
  unfold scheduler_upsert. split.
  - apply balances_bind; [apply balances_frame; [frame|meter_still]|].
    intros [[[[id t] job] cron] tz].
    eapply (balances_transaction _ _ _ _ _ (λ x : Z * bool, if x.2 then 0 else 1)).
    + meter_still.
    + apply adds_after; [frame|]. intros now. apply adds_after; [frame|]. intros next w a w' Hr.
      apply bind_Ok in Hr as (e & w1 & H1 & Hr). pose proof H1 as Hq.
      apply map_err_Ok, query_Ok in Hq as [-> ->]. apply bind_Ok in Hr as (u & w2 & H2 & Hr).
      apply map_err_Ok, execute_Ok in H2 as ->. injection Hr as <- <-. apply upsert_count.
    + intros [next e]. apply settles_metric; [|apply balances_frame; [frame|meter_still]].
      destruct e; [by apply shifts_still|apply shifts_activated].
  - frame. intros Hp. by apply upsert_pending.
Qed.
Lemma scheduler_delete_minds id : minds (scheduler_delete id).
Proof.
  unfold scheduler_delete. destruct (is_empty _).
  { split; [apply balances_frame; [frame|meter_still]|frame]. }
  split.
  - eapply (balances_transaction _ _ _ _ _ (λ x : bool, if x then -1 else 0)).
    + meter_still.
    + intros w b w' Hr%map_err_Ok. apply stmt_Ok in Hr as (d & _ & [= <- <-] & ->). simpl.
      etrans; [apply delete_count|]. simpl. case_bool_decide; lia.
    + intros e. apply settles_metric; [|apply balances_frame; [frame|meter_still]].
      destruct e; [apply shifts_activated|by apply shifts_still].
  - frame. injection H as <- <-. intros Hp i r. simpl. intros [_ Hr]%lookup_delete_Some. by eapply Hp.
Qed.
Lemma scheduler_reads_outside id : outside (scheduler_get id) ∧ outside scheduler_list.
Proof. unfold scheduler_get, scheduler_list. split; (split; [frame|meter_still]). Qed.
Lemma fire_one_minds l row : minds (fire_one l row).
Proof.
  unfold fire_one, enqueue_scheduled. destruct row as [id r]. split.
  - apply balances_frame.
    + frame; [|unfold same; apply advance_count].
      eapply keeps_weaken; [|apply enqueue_one_outside]. unfold same, scheduler_count. by intros d d' ->.
    + meter_still; [apply enqueue_one_outside|unfold still; apply flush_sched].
  - frame; [|intros Hp; by apply advance_pending].
    eapply upholds_same; [|apply enqueue_one_outside]. unfold pending. by intros d d' ->.
Qed.
Lemma run_once_minds l n : minds (run_once l n).
Proof.
  assert (∀ E A (m : M E A), keeps sch_same m → meters sch_still m → minds m) as Ho.
  { intros E A m Hk Hm. by apply outside_minds. }
  assert (∀ rows, minds (fire_all l rows)) as Hall.
  { induction rows as [|row rows IH]; simpl; [apply Ho; [frame|meter_still]|].
    apply minds_bind; [apply minds_attempt, fire_one_minds|]. intros x.
    apply minds_bind; [apply Ho; [frame|meter_still]|]. intros _.
    apply minds_bind; [done|]. intros k. apply Ho; [frame|meter_still]. }
  unfold run_once. apply minds_bind; [apply Ho; [frame|meter_still]|].
  intros [now|]; [|apply Ho; [frame|meter_still]].
  apply minds_bind; [apply Ho; [frame|meter_still]|].
  intros [due|]; [apply Hall|apply Ho; [frame|meter_still]].
Qed.

(** *** Every call *)
Definition minded (w : World) : Prop :=
  balanced scheduler_count schedulers_active w ∧ pending (w_db w).
Lemma minds_after {E A} (m : M E A) w : minds m → minded w → minded (after m w).
Proof.
  intros [Hb Hp] [H1 H2]. split; [by apply balances_after|]. unfold after.
  destruct (m w) as [r w'] eqn:Hr. by eapply Hp.
Qed.
Lemma minds_tick_or {E A} count (m : M E A) :
  (∀ x, schedulers_active (count x) = schedulers_active x) → minds m → minds (tick_or count m).
Proof. intros Hc [Hb Hp]. split; [by apply balances_tick_or|by apply tick_or_upholds]. Qed.
Lemma finish_minds a : minds (finish_job a).
Proof. apply outside_minds, finish_outside. Qed.
Lemma complete_minds id worker n res : minds (complete_job id worker n res).
Proof.
  unfold complete_job. destruct (_ <? _); [apply outside_minds; split; [frame|meter_still]|].
  apply minds_bind; [apply finish_minds|]. intros x. apply outside_minds. split; [frame|meter_still].
Qed.
Lemma perform_minded sv c w : minded w → minded (perform sv c w).
Proof.
  intros Hm. set (ru := mkUpsertRule "" 0 0). set (hb := mkHeartbeat "" "" 0). set (cfg := sv_retention sv).
  destruct c; simpl; try (apply minds_after; [|done]);
    try (by apply outside_minds, (enqueue_outside _ _ [])).
  - by apply outside_minds, (enqueue_outside _ (mkReq "" [] 0 None 0 0 "" 0 0 "" f64_zero false) _).
  - apply outside_minds, claim_outside.
  - apply complete_minds.
  - apply finish_minds.
  - by apply outside_minds, (loops_outside _ _ 0 cfg).
  - by apply outside_minds, (flow_outside _ _ [] "").
  - by apply outside_minds, (flow_outside _ None _ "").
  - by apply outside_minds, (flow_outside _ _ [] "").
  - by apply outside_minds, (flow_outside (sv_flow sv) None [] _).
  - by apply outside_minds, (limits_outside _ "").
  - by apply outside_minds, (limits_outside ru _).
  - by apply outside_minds, (limits_outside ru _).
  - by apply outside_minds, (limits_outside _ "").
  - by apply outside_minds, (limits_outside ru _).
  - by apply outside_minds, (limits_outside ru _).
  - apply scheduler_upsert_minds.
  - apply scheduler_delete_minds.
  - apply outside_minds, scheduler_reads_outside.
  - by apply outside_minds, (scheduler_reads_outside "").
  - apply minds_tick_or; [done|]. by apply outside_minds, (loops_outside 0 hb _ cfg).
  - destruct (enabled _); [|done]. apply minds_after; [|done]. apply minds_tick_or; [done|].
    by apply outside_minds, (loops_outside 0 hb 0 _).
  - apply run_once_minds.
Qed.

Lemma filter_every {A} (P : A → Prop) `{∀ x, Decision (P x)} (l : list A) :
  (∀ x, x ∈ l → P x) → base.filter P l = l.
Proof.
  induction l as [|x l IH]; intros Hl; [done|]. rewrite filter_cons_True by (apply Hl; by left).
  f_equal. apply IH. intros y Hy. apply Hl. by right.
Qed.
(** The schedulers with a run ahead, those [initialize] counts. *)
Definition ahead (d : Db) : list (string * JobSchedulerRow) :=
  rows_where (λ _ s, bool_decide (s_next_run_at s ≠ None)) (job_schedulers d).
(** With a run ahead of every scheduler, the count of those that have one is the table. *)
Lemma pending_rows d :
  pending d → Z.of_nat (length (ahead d)) = scheduler_count d.
Proof.
  intros Hp. unfold scheduler_count, ahead, rows_where. f_equal. rewrite filter_every.
  - by rewrite length_map_to_list.
  - intros [i r] Hin%elem_of_map_to_list. simpl. apply bool_decide_pack. by eapply Hp.
Qed.
Lemma boot_minded sv d n : pending d → minded (boot sv d n).
Proof.
  intros Hp. split; [|done]. unfold balanced, cong, boot. simpl. f_equal.
  by apply (pending_rows (migrate d)).
Qed.
Lemma reachable_minded sv w : reachable sv w → minded w.
Proof.
  intros Hr. apply (rtc_ind_r (λ w, minded w) (initial sv)) in Hr; [done| |].
  - by apply boot_minded.
  - intros w1 w2 _ [c v _|v] Hm; [by apply perform_minded|apply boot_minded, Hm].
Qed.
End Schedulers.

(** ** All the gauges *)
Section AllGauges.
Context `{HE : Env, HU : !UuidLaw HE, HS : !ScanLaw HE, HP : Prost, HC : CronLib}.

End AllGauges.
