(* ===== verification/Chains.v ===== *)
(** * Runaway chains (the quarantine of src/enqueue.rs along runs)

    The counter of a lineage beside the jobs that enqueues admit into it.  An admission adds
    one live job and one to the counter of its trace in the same transaction, so that along
    any run the counter is what it was plus the jobs that entered, and the cap on the counter
    is a cap on them. *)
From Stdlib Require Import Ascii String.
From S2P Require Import Prelude Text Query F64 Scheduling Db Pressure Telemetry Broker.
From S2P Require Import Lifecycle RateLimit Ingress Enqueue Leases Claim Finish Flow FlowTree.
From S2P Require Import FlowSim FlowSpec Retention Schedulers System Quotas Gates Gauges Ledgers.
Local Open Scope string_scope.
Local Open Scope Z_scope.

(** The jobs a lineage has been admitted, as its counter has them. *)
Definition admitted (t : string) (d : Db) : Z := default 0 (cc_job_count <$> chain_counters d !! t).
(** The rows of a lineage. *)
Definition members (t : string) (m : gmap string Job) : list (string * Job) :=
  rows_where (λ _ j, String.eqb (j_trace_id j) t) m.
(** The calls that enqueue: two RPCs, and the loop that fires schedulers. *)
Definition submits (c : Call) : bool :=
  match c with AddJob _ | AddJobBulk _ | SchedulerTick => true | _ => false end.

Lemma members_insert t id j m :
  m !! id = None →
  length (members t (<[id := j]> m))
  = ((if String.eqb (j_trace_id j) t then 1 else 0) + length (members t m))%nat.
Proof.
  intros Hn. unfold members, rows_where. rewrite (map_to_list_insert m id j Hn).
  rewrite filter_cons. simpl. by destruct (String.eqb _ _).
Qed.
Lemma members_difference t m m' :
  m ⊆ m' → length (members t m') = (length (members t m) + length (members t (m' ∖ m)))%nat.
Proof.
  intros Hsub. rewrite <-length_app. apply Permutation_length, NoDup_Permutation.
  - eapply NoDup_fmap_1, rows_where_NoDup.
  - apply list.NoDup_app. split_and!; try (eapply NoDup_fmap_1, rows_where_NoDup).
    intros [i j] [Hi _]%elem_of_rows_where [[_ Hd]%lookup_difference_Some _]%elem_of_rows_where.
    by rewrite Hi in Hd.
  - intros [i j]. unfold members. rewrite elem_of_app, !elem_of_rows_where, lookup_difference_Some.
    split.
    + intros [Hi Ht]. destruct (m !! i) as [j'|] eqn:Hj; [left|right; by split_and!].
      pose proof (lookup_weaken _ _ _ _ Hj Hsub). split; [congruence|done].
    + intros [[Hi Ht]|[[Hi _] Ht]]; (split; [|done]); [by eapply lookup_weaken|done].
Qed.

Section Chains.
Context `{HE : Env, HU : !UuidLaw HE, HP : Prost, HC : CronLib}.
Context (sv : Service) (t : string).
Hypothesis Hcap : 0 < max_chain_size (sv_limits sv) ≤ i64_max.

(** What an admission leaves as it was: the counter less the live jobs of the lineage. *)
Definition slack (d : Db) : Z := admitted t d - Z.of_nat (length (members t (jobs d))).
Definition grows : relation Db := λ d d', jobs d ⊆ jobs d'.
#[local] Instance grows_preorder : PreOrder grows.
Proof. split; unfold grows; [intros d; reflexivity|]. intros d1 d2 d3. apply transitivity. Qed.
Lemma insert_job_grows id j d d' : insert_job id j d = Ok d' → grows d d'.
Proof. intros [Hn ->]%insert_job_Ok. unfold grows. simpl. by apply insert_subseteq. Qed.
Lemma insert_receipt_grows q k r d d' : insert_receipt q k r d = Ok d' → grows d d'.
Proof. intros [_ ->]%insert_receipt_Ok. unfold grows. reflexivity. Qed.
#[local] Hint Resolve insert_job_grows insert_receipt_grows : frames.

Lemma insert_receipt_slack q k r d d' : insert_receipt q k r d = Ok d' → same slack d d'.
Proof. by intros [_ ->]%insert_receipt_Ok. Qed.
#[local] Hint Resolve insert_receipt_slack : frames.

Lemma quarantine_slack req now p depth trace :
  adds slack (quarantine (sv_limits sv) req now p depth trace)
    (λ _, if String.eqb trace t then 1 else 0).
Proof.
  intros w u w' Hr. unfold quarantine in Hr. rewrite (proj2 (Z.ltb_lt _ _)) in Hr by lia.
  apply bind_Ok in Hr as (n & w1 & H1 & Hr). apply map_err_Ok, query_Ok in H1 as [_ ->].
  destruct (_ <=? _); [done|]. apply map_err_Ok, execute_Ok in Hr as ->. unfold slack, admitted. simpl.
  destruct (String.eqb_spec trace t) as [->|Hne].
  - rewrite lookup_partial_alter_eq. destruct (chain_counters (w_db w) !! t); simpl; lia.
  - rewrite lookup_partial_alter_ne by done. lia.
Qed.
Lemma insert_job_slack {E} (f : SqlError → E) id j :
  adds slack (map_err f (try_execute (insert_job id j)))
    (λ _, - (if String.eqb (j_trace_id j) t then 1 else 0)).
Proof.
  intros w u w' Hr. apply map_err_Ok, try_execute_Ok in Hr as (d & [Hn ->]%insert_job_Ok & ->).
  unfold slack, admitted. simpl. rewrite members_insert by done. destruct (String.eqb _ _); lia.
Qed.
Lemma enqueue_one_slack req now rr : adds slack (enqueue_one (sv_limits sv) req now rr) (λ _, 0).
Proof.
  unfold enqueue_one. apply adds_after; [unfold replay; frame|].
  intros [o|]; [by apply adds_ret|]. unfold admit_new.
  apply adds_after; [unfold admit_ingress, ingress_admit, reject; frame|]. intros ?.
  destruct (i64_checked_add _ _) as [av|]; [|by intros w o w'].
  apply adds_after; [frame|]. intros id. cbv zeta.
  apply adds_after; [unfold ancestry, reject; frame|]. intros [depth trace].
  apply adds_after; [unfold circuit_breaker, reject; frame|]. intros ?.
  eapply adds_bind; [apply quarantine_slack|]. intros ?.
  eapply adds_bind; [apply insert_job_slack|]. intros ?. simpl.
  apply adds_after; [unfold write_receipt; frame|]. intros ?. apply adds_ret. lia.
Qed.
Lemma batch_loop_slack now i reqs : adds slack (batch_loop (sv_limits sv) now i reqs) (λ _, 0).
Proof.
  revert i. induction reqs as [|[req rr] reqs IH]; intros i; simpl; [by apply adds_ret|].
  eapply adds_bind; [apply adds_map_err, enqueue_one_slack|]. intros o.
  eapply adds_bind; [apply IH|]. intros os. apply adds_ret. simpl. lia.
Qed.

(** A handler that admits: every job it adds to the lineage is in the counter, and it takes
    no live job away, whatever it returns. *)
Definition counts {E A} (m : M E A) : Prop := keeps (same slack) m ∧ keeps grows m.
Lemma keeps_transaction_adds {E A} (e : SqlError → E) (body : M E A) :
  keeps any body → adds slack body (λ _, 0) → keeps (same slack) (transaction e body).
Proof.
  intros Hk Ha w r w' Hr. split.
  - unfold same. destruct r as [a|x].
    + apply transaction_Ok in Hr as (w2 & H1 & ->). apply Ha in H1. simpl in *. lia.
    + by apply transaction_Err in Hr as ->.
  - assert (keeps any (transaction e body)) as Ht by frame. by eapply Ht.
Qed.
Lemma enqueue_one_grows req now rr : keeps grows (enqueue_one (sv_limits sv) req now rr).
Proof.
  unfold enqueue_one, replay, admit_new, admit_ingress, ingress_admit, ancestry, circuit_breaker,
    quarantine, write_receipt, reject. frame; unfold grows; reflexivity.
Qed.
Lemma batch_loop_grows now i reqs : keeps grows (batch_loop (sv_limits sv) now i reqs).
Proof.
  revert i. induction reqs as [|[req rr] reqs IH]; intros i; simpl; frame. apply enqueue_one_grows.
Qed.
Lemma execute_batch_counts reqs prefix : counts (execute_batch (sv_limits sv) reqs prefix).
Proof.
  unfold execute_batch, record_rejection. split.
  - apply keeps_bind; [typeclasses eauto| |frame]. apply keeps_attempt, keeps_transaction_adds.
    + frame. eapply keeps_weaken; [|apply batch_loop_grows]. done.
    + apply adds_after; [frame|]. intros now. apply batch_loop_slack.
  - frame; try apply batch_loop_grows; unfold grows; reflexivity.
Qed.
Lemma enqueue_counts req reqs :
  counts (enqueue (sv_limits sv) req) ∧ counts (enqueue_bulk (sv_limits sv) reqs).
Proof.
  split; split; unfold enqueue, enqueue_bulk; frame; apply execute_batch_counts.
Qed.
Lemma fire_one_counts row : counts (fire_one (sv_limits sv) row).
Proof.
  unfold fire_one, enqueue_scheduled. destruct row as [id r]. split.
  - apply keeps_bind; [typeclasses eauto| |frame]. apply keeps_transaction_adds.
    + frame. eapply keeps_weaken; [|apply enqueue_one_grows]. done.
    + apply adds_after; [frame|]. intros now.
      eapply (adds_bind _ _ _ (λ _ : string * SuccessMetric, 0)).
      * apply adds_map_err, adds_after; [frame|]. intros [req rr].
        eapply adds_bind; [apply adds_map_err, enqueue_one_slack|]. intros o.
        by apply adds_ret.
      * intros [jid sm]. apply adds_after; [frame|]. intros next.
        apply adds_after; [frame|]. intros ?. by apply adds_ret.
  - frame; try apply enqueue_one_grows; unfold grows; reflexivity.
Qed.
Lemma run_once_counts n : counts (run_once (sv_limits sv) n).
Proof.
  assert (∀ rows, counts (fire_all (sv_limits sv) rows)) as Hall.
  { induction rows as [|row rows [IH1 IH2]]; simpl; [split; frame|].
    destruct (fire_one_counts row). split; frame. }
  unfold run_once. split; frame; apply Hall.
Qed.

(** ** Runs *)

(** The jobs of the lineage that a step from [w] to [w'] has made live. *)
Definition entered (w w' : World) : nat := length (members t (jobs (w_db w') ∖ jobs (w_db w))).

(** A run along which [n] jobs are enqueued into the lineage and its counter is not pruned.
    The nodes of flows are not enqueued and not counted. *)
Inductive lineage_run (w : World) : nat → World → Prop :=
| LineageStart : lineage_run w 0 w
| LineageCall n w1 c :
    lineage_run w n w1 → typed_call c →
    (prunes c = true → chain_counters (w_db (perform sv c w1)) !! t = chain_counters (w_db w1) !! t) →
    lineage_run w (n + if submits c then entered w1 (perform sv c w1) else 0) (perform sv c w1)
| LineageRestart n w1 : lineage_run w n w1 → lineage_run w n (restart sv w1).

Lemma counts_entered {E A} (m : M E A) w :
  counts m → admitted t (w_db (after m w))
             = admitted t (w_db w) + Z.of_nat (entered w (after m w)).
Proof.
  intros [Hs Hg]. unfold after, entered. destruct (m w) as [r w'] eqn:Hr. simpl.
  destruct (Hs _ _ _ Hr) as [Hs' _]. destruct (Hg _ _ _ Hr) as [Hg' _].
  unfold same, slack in Hs'. pose proof (members_difference t _ _ Hg'). lia.
Qed.
Lemma same_chain_after {E A} (m : M E A) w :
  keeps (same chain_counters) m → chain_counters (w_db (after m w)) = chain_counters (w_db w).
Proof. intros Hk. unfold after. destruct (m w) eqn:Hr. by apply Hk in Hr as [? _]. Qed.

(** The other calls leave the counters alone, a retention pass excepted. *)
Lemma perform_chain c w :
  submits c = false → prunes c = false →
  chain_counters (w_db (perform sv c w)) = chain_counters (w_db w).
Proof.
  intros Hs Hp. set (ru := mkUpsertRule "" 0 0). set (su := mkUpsertSched "" None None).
  set (hb := mkHeartbeat "" "" 0).
  destruct c; try done; simpl; apply same_chain_after.
  - apply get_next_job_chain.
  - unfold complete_job. apply quotas_chain. frame. apply finish_job_quotas.
  - apply quotas_chain, finish_job_quotas.
  - apply quotas_chain, (lease_quotas _ _ 0).
  - apply quotas_chain, (flow_quotas _ _ [] "").
  - apply quotas_chain, (flow_quotas _ None _ "").
  - apply quotas_chain, (flow_quotas _ _ [] "").
  - apply quotas_chain, (flow_quotas (sv_flow sv) None []).
  - apply rate_limit_upsert_chain.
  - apply rate_limit_delete_chain.
  - apply quotas_chain, (admin_quotas ru su "").
  - apply quotas_chain, (admin_quotas _ su "" "").
  - apply quotas_chain, (admin_quotas ru su "").
  - apply quotas_chain, (admin_quotas ru su "").
  - apply quotas_chain, (admin_quotas ru _ "" "").
  - apply quotas_chain, (admin_quotas ru su _ "").
  - apply quotas_chain, (admin_quotas ru su _ "").
  - apply quotas_chain, (admin_quotas ru su "" "").
  - unfold tick_or. apply quotas_chain. frame. apply (lease_quotas 0 hb).
Qed.

Lemma lineage_counted w n w' :
  lineage_run w n w' → admitted t (w_db w') = admitted t (w_db w) + Z.of_nat n.
Proof.
  induction 1 as [|n w1 c _ IH _ Hp|n w1 _ IH]; [lia| |exact IH].
  destruct (submits c) eqn:Hs.
  - rewrite Nat2Z.inj_add, Z.add_assoc, <-IH. clear IH.
    destruct c; try done; simpl; apply counts_entered.
    + apply (enqueue_counts _ []).
    + apply (enqueue_counts (mkReq "" [] 0 None 0 0 "" 0 0 "" f64_zero false)).
    + apply run_once_counts.
  - rewrite Nat.add_0_r, <-IH. unfold admitted. destruct (prunes c) eqn:Hpr.
    + by rewrite Hp.
    + by rewrite perform_chain.
Qed.
Lemma lineage_reachable w n w' : lineage_run w n w' → reachable sv w → reachable sv w'.
Proof.
  intros Hl Hr. induction Hl as [|n w1 c _ IH Ht _|n w1 _ IH]; [done| |].
  - by apply reachable_call.
  - eapply rtc_r; [exact IH|constructor].
Qed.

(** C21: runaway chains are contained.  With the quarantine enabled, take any run from a
    reachable world along which the counter of a lineage is not pruned; failing statements,
    aborted transactions and restarts may occur.  The counter grows by exactly the number of
    jobs that enqueues, bulk enqueues and schedulers make live in that lineage on the way,
    and it never exceeds the cap: no more than the cap are admitted since it started. *)
Theorem chain_size_capped w n w' :
  reachable sv w → lineage_run w n w' →
  admitted t (w_db w') = admitted t (w_db w) + Z.of_nat n
  ∧ 0 ≤ admitted t (w_db w)
  ∧ admitted t (w_db w') ≤ max_chain_size (sv_limits sv).
Proof.
  intros Hr Hl. split; [by apply lineage_counted|].
  pose proof (lineage_reachable _ _ _ Hl Hr) as Hr'.
  apply (chain_counters_capped sv) in Hr, Hr'; [|done..]. unfold chain_ok, admitted in *.
  split.
  - destruct (chain_counters (w_db w) !! t) as [c|] eqn:Hc; simpl; [|lia]. by apply (Hr t c).
  - destruct (chain_counters (w_db w') !! t) as [c|] eqn:Hc; simpl; [|lia]. by apply (Hr' t c).
Qed.
End Chains.
