(* ===== verification/Keys.v ===== *)
(** * Idempotency keys (the receipts of src/enqueue.rs along runs)

    The receipt of an accepted request outlives every call but a retention pass, unless the
    request asked for it to go with the end of its job; and as long as it is there its key
    answers the same request with the same job and refuses any other request. *)
From Stdlib Require Import Ascii String.
From S2P Require Import Prelude Text Query F64 Scheduling Db Pressure Telemetry Broker.
From S2P Require Import Lifecycle RateLimit Ingress Enqueue Leases Claim Finish Flow FlowTree.
From S2P Require Import FlowSim FlowSpec Retention Schedulers System.
Local Open Scope string_scope.
Local Open Scope Z_scope.

Section Keys.
Context `{HE : Env, HU : !UuidLaw HE, HP : Prost, HL : !ProstLaw HP, HC : CronLib}.

(** ** Receipts that stay *)
Definition kept : relation Db := λ d d', ∀ k rc,
  enqueue_receipts d !! k = Some rc → rc_release_on_finish rc = false →
  enqueue_receipts d' !! k = Some rc.
#[local] Instance kept_preorder : PreOrder kept.
Proof. split; [by intros d k rc|]. intros d1 d2 d3 H1 H2 k rc Hk Hf. eauto. Qed.

Lemma kept_same d d' : enqueue_receipts d' = enqueue_receipts d → kept d d'.
Proof. intros E k rc. by rewrite E. Qed.
Lemma insert_job_kept id j d d' : insert_job id j d = Ok d' → kept d d'.
Proof. intros [_ ->]%insert_job_Ok. by apply kept_same. Qed.
Lemma insert_history_kept id h d d' : insert_history id h d = Ok d' → kept d d'.
Proof. intros [_ ->]%insert_history_Ok. by apply kept_same. Qed.
Lemma insert_receipt_kept q k r d d' : insert_receipt q k r d = Ok d' → kept d d'.
Proof.
  intros [Hn ->]%insert_receipt_Ok k' rc Hk _. simpl. rewrite lookup_insert_ne; [done|]. congruence.
Qed.
Lemma release_receipts_kept id d : kept d (release_receipts id d).2.
Proof.
  intros k rc Hk Hf. rewrite lookup_release_receipts, Hk. unfold released_by. by rewrite Hf, andb_false_r.
Qed.
#[local] Hint Resolve insert_job_kept insert_history_kept insert_receipt_kept : frames.

Ltac stays := frame; try (by apply kept_same);
  try (match goal with H : _ = Ok (_, _) |- _ => injection H as <- <- end;
       first [by apply kept_same|apply release_receipts_kept]).

Lemma enqueue_one_kept l req now rr : keeps kept (enqueue_one l req now rr).
Proof.
  unfold enqueue_one, replay, admit_new, admit_ingress, ingress_admit, ancestry, circuit_breaker,
    quarantine, write_receipt, reject. stays.
Qed.
Lemma batch_loop_kept l now i reqs : keeps kept (batch_loop l now i reqs).
Proof.
  revert i. induction reqs as [|[req rr] reqs IH]; intros i; simpl; stays. apply enqueue_one_kept.
Qed.
Lemma enqueue_kept l req reqs : keeps kept (enqueue l req) ∧ keeps kept (enqueue_bulk l reqs).
Proof.
  split; unfold enqueue, enqueue_bulk, execute_batch, record_rejection; stays; apply batch_loop_kept.
Qed.
Lemma claim_kept cfg req : keeps kept (get_next_job cfg req).
Proof.
  unfold get_next_job, claim_selected, bump_attempts, serve_facet, consume. stays.
  by repeat case_match; apply kept_same.
Qed.
Lemma archive_stmt_kept row id : keeps kept (archive_stmt row id).
Proof.
  unfold archive_stmt. stays; destruct (jobs d !! id); try (by injection H as <- <-).
  destruct (insert_history _ _ _) eqn:Hi; [|done]. injection H as <- <-. eauto with frames.
Qed.
Lemma release_stmt_kept id : keeps kept (release_stmt id).
Proof. unfold release_stmt. stays. Qed.
#[local] Hint Resolve archive_stmt_kept release_stmt_kept : frames.

Lemma finish_kept a : keeps kept (finish_job a).
Proof.
  assert (∀ fuel c fl an, keeps kept (cascade fuel c fl an)) as Hc.
  { induction fuel as [|fuel IH]; intros c fl an; simpl; destruct fl, an; stays. }
  unfold finish_job, finish_archived, retry_job, settle_job, child_completed, update_stmt, cascade_all.
  stays. intros w r w'. apply Hc.
Qed.
Lemma flow_kept l flow flows p :
  keeps kept (add_flow l flow) ∧ keeps kept (add_flow_bulk l flows)
  ∧ keeps kept (add_flow_merge l flow) ∧ keeps kept (get_children_values p).
Proof.
  assert (∀ seen fs, keeps kept (prepare_trees l seen fs)) as Ht.
  { intros seen fs. revert seen. induction fs as [|f fs IH]; intros seen; simpl; stays;
      apply prepare_node_frame, _. }
  unfold add_flow, add_flow_bulk, add_flow_merge, get_children_values, insert_prepared_tree,
    merge_body, merge_target, merge_caps, attach_node, insert_node, flow_reject, or_rejected.
  split_and!; stays; apply prepare_node_frame, _.
Qed.
Lemma lease_kept duration req n : keeps kept (renew_lease duration req) ∧ keeps kept (recover_expired n).
Proof.
  unfold renew_lease, recover_expired, recover_one. split; stays.
  destruct (jobs d !! s0); [|by injection H0 as <-]. eauto with frames.
Qed.
Lemma limits_kept req f :
  keeps kept (rate_limit_upsert req) ∧ keeps kept (rate_limit_delete f)
  ∧ keeps kept (rate_limit_status f) ∧ keeps kept (ingress_upsert req)
  ∧ keeps kept (ingress_delete f) ∧ keeps kept (ingress_status f).
Proof.
  unfold rate_limit_upsert, rate_limit_delete, rate_limit_status, ingress_upsert, ingress_delete,
    ingress_status.
  split_and!; stays.
Qed.
Lemma scheduler_kept req id n l :
  keeps kept (scheduler_upsert req) ∧ keeps kept (scheduler_delete id)
  ∧ keeps kept (scheduler_get id) ∧ keeps kept scheduler_list ∧ keeps kept (run_once l n).
Proof.
  assert (∀ row, keeps kept (fire_one l row)) as Hf.
  { intros [i r]. unfold fire_one, enqueue_scheduled. stays. apply enqueue_one_kept. }
  assert (∀ rows, keeps kept (fire_all l rows)) as Ha.
  { induction rows as [|row rows IH]; simpl; stays. }
  unfold scheduler_upsert, scheduler_delete, scheduler_get, scheduler_list, run_once.
  split_and!; stays; try apply Ha.
Qed.

Lemma kept_after {E A} (m : M E A) w : keeps kept m → kept (w_db w) (w_db (after m w)).
Proof. intros Hk. unfold after. destruct (m w) as [r w'] eqn:Hr. by apply Hk in Hr as [? _]. Qed.
Lemma perform_kept sv c w : prunes c = false → kept (w_db w) (w_db (perform sv c w)).
Proof.
  intros Hp. set (ru := mkUpsertRule "" 0 0). set (su := mkUpsertSched "" None None).
  set (hb := mkHeartbeat "" "" 0). set (q := mkReq "" [] 0 None 0 0 "" 0 0 "" f64_zero false).
  set (l := sv_limits sv).
  destruct c; try done; simpl; apply kept_after.
  - apply (enqueue_kept l _ []).
  - apply (enqueue_kept l q).
  - apply claim_kept.
  - unfold complete_job. stays. apply finish_kept.
  - apply finish_kept.
  - apply (lease_kept _ _ 0).
  - apply (flow_kept _ _ [] "").
  - apply (flow_kept _ None _ "").
  - apply (flow_kept _ _ [] "").
  - apply (flow_kept (sv_flow sv) None []).
  - apply (limits_kept _ "").
  - apply (limits_kept ru).
  - apply (limits_kept ru).
  - apply (limits_kept _ "").
  - apply (limits_kept ru).
  - apply (limits_kept ru).
  - apply (scheduler_kept _ "" 0 l).
  - apply (scheduler_kept su _ 0 l).
  - apply (scheduler_kept su _ 0 l).
  - apply (scheduler_kept su "" 0 l).
  - unfold tick_or. stays. apply (lease_kept 0 hb).
  - apply (scheduler_kept su "" _ l).
Qed.

(** Any call but a retention pass, and restarts. *)
Inductive unswept (sv : Service) : World → World → Prop :=
| UnsweptCall c w : prunes c = false → unswept sv w (perform sv c w)
| UnsweptRestart w : unswept sv w (restart sv w).

Lemma unswept_kept sv w w' : rtc (unswept sv) w w' → kept (w_db w) (w_db w').
Proof.
  induction 1 as [w|w w1 w' Hs _ IH]; [done|]. etrans; [|exact IH].
  destruct Hs; [by apply perform_kept|by apply kept_same].
Qed.

(** A statement failed between two worlds, and the answer is its internal error. *)
Definition statement_fails {A} (w w' : World) (r : result Status A) : Prop :=
  ∃ k e, (w_step w ≤ k < w_step w')%nat ∧ fault k = Some e ∧ r = Err (internal e).

(** C17: idempotency keys.  Let a request with a key have been accepted.  As long as the
    receipt of the key is the one that was left: repeating the request returns the same job
    and state and says that it was replayed; and a request under the same name and key whose
    message, with the defaults filled in, differs in any field is refused with AlreadyExists,
    unless it is malformed and refused as such.  The one exception in both cases is the
    internal error of a statement that fails, and in all of them the database is left alone:
    no second job is created.  The receipt of a request that was not itself a replay, and
    does not ask to be released when its job finishes, is kept by every call and restart
    until a retention pass. *)
Theorem enqueue_keys sv req w r1 w1 :
  on_wire req → q_idempotency_key req ≠ "" → enqueue (sv_limits sv) req w = (Ok r1, w1) →
  let receipt d := enqueue_receipts d !! (q_name req, q_idempotency_key req) in
  (∀ w2 r2 w3, receipt (w_db w2) = receipt (w_db w1) →
     enqueue (sv_limits sv) req w2 = (r2, w3) →
     w_db w3 = w_db w2
     ∧ (r2 = Ok (mkResp (rp_id r1) (rp_state r1) true) ∨ statement_fails w2 w3 r2))
  ∧ (∀ req2 w2 r2 w3, on_wire req2 → q_name req2 = q_name req →
       q_idempotency_key req2 = q_idempotency_key req →
       ¬ same_message (filled_in req) (filled_in req2) →
       receipt (w_db w2) = receipt (w_db w1) → enqueue (sv_limits sv) req2 w2 = (r2, w3) →
       w_db w3 = w_db w2
       ∧ ((∃ m, r2 = Err (mkStatus AlreadyExists m)) ∨ statement_fails w2 w3 r2
          ∨ ∃ s, validate_and_prepare req2 (max_execution_depth (sv_limits sv)) = Err s ∧ r2 = Err s))
  ∧ (rp_replayed r1 = false → q_release_on_finish req = false →
     ∀ w2, rtc (unswept sv) w1 w2 → receipt (w_db w2) = receipt (w_db w1)).
Proof.
  intros Hw Hk H1 receipt.
  apply enqueue_receipt in H1 as [Hv (rc & Hrc & Hreq & <- & <- & Hflag)]; [|done].
  change (receipt (w_db w1) = Some rc) in Hrc. rewrite Hrc. split_and!.
  - intros w2 r2 w3 H2 Hr. destruct (enqueue_known _ _ _ _ _ _ _ _ Hv H2 Hr) as [Hd [Hf|Ho]].
    + split; [exact Hd|by right].
    + rewrite decide_True in Ho by done. split; [exact Hd|by left].
  - intros req2 w2 r2 w3 Hw2 En Ek Hne H2 Hr. unfold receipt in H2. rewrite <-En, <-Ek in H2.
    destruct (validate_and_prepare req2 _) as [[p2 rr2]|s] eqn:Hv2.
    + pose proof (validate_Ok _ _ _ _ Hv2) as (E & -> & _). change (p2 = filled_in req2) in E. subst p2.
      rewrite Ek, nonempty_key in Hv2 by done.
      destruct (enqueue_known _ _ _ _ _ _ _ _ Hv2 H2 Hr) as [Hd [Hf|Ho]];
        (split; [exact Hd|]); [by right; left|]. rewrite decide_False in Ho; [by left|].
      rewrite Hreq. intros He. by apply Hne, encode_same; [apply filled_in_on_wire..|].
    + unfold enqueue, lift, mbind, M_bind in Hr. rewrite Hv2 in Hr. injection Hr as <- <-.
      split; [done|]. right. right. eauto.
  - intros Hrep Hrel w2 Hrun. apply unswept_kept in Hrun. apply Hrun; [done|]. by rewrite Hflag.
Qed.
End Keys.
