(* ===== verification/Examples.v ===== *)
(** * Sample runs

    A concrete environment (a clock that moves one second per effect, far from the end of
    its range, numbered
    identifiers, statements that do not fail), concrete stand-ins for the crates the model
    takes as parameters, and runs of the broker in it.  They evaluate the definitions of the
    development and show that the hypotheses of its theorems can be met. *)
From Stdlib Require Import Ascii String.
From Stdlib Require Import Strings.Byte SpecFloat.
From S2P Require Import Prelude Text Query F64 Scheduling Db Pressure Telemetry Broker.
From S2P Require Import Lifecycle RateLimit Ingress Enqueue Leases Claim Finish Flow FlowTree.
From S2P Require Import FlowSim Retention Schedulers Config System.
Local Open Scope string_scope.
Local Open Scope Z_scope.

#[export] Instance sample_env : Env := {|
  clock n := 1000000 + 1000 * Z.min (Z.of_nat n) 1000000000;
  new_v4 n := pretty n;
  rand_f64 _ := f64_zero;
  fault _ := None;
  scan _ _ l := l;
|}.
#[export] Instance sample_uuid : UuidLaw sample_env.
Proof. intros n m. apply pretty_nat_inj. Qed.
#[export] Instance sample_scan : ScanLaw sample_env.
Proof. by intros n A l. Qed.

(** An encoding of requests that can be decoded: every field behind its length. *)
Definition frame_field (xs : bytes) : bytes := (repeat x01 (length xs) ++ x00 :: xs)%list.
Definition text_field (s : string) : bytes := frame_field (list_byte_of_string s).
Definition int_field (z : Z) : bytes := text_field (pretty z).
Definition float_fields (x : f64) : bytes :=
  match x with
  | S754_zero s => int_field (if s then 1 else 0)
  | S754_infinity s => int_field (if s then 3 else 2)
  | S754_nan => int_field 4
  | S754_finite s m e => (int_field (if s then 6 else 5) ++ int_field (Z.pos m) ++ int_field e)%list
  end.
Definition metadata_fields (md : option JobMetadata) : bytes :=
  match md with
  | None => int_field 0
  | Some md => (int_field 1 ++ text_field (m_parent_id md) ++ text_field (m_trace_id md)
                ++ int_field (m_execution_depth md))%list
  end.
#[export] Instance sample_prost : Prost := λ r,
  (text_field (q_name r) ++ frame_field (q_payload r) ++ int_field (q_priority r)
   ++ metadata_fields (q_metadata r) ++ int_field (q_max_attempts r) ++ int_field (q_delay_ms r)
   ++ text_field (q_rate_limit_facet r) ++ int_field (q_retry_backoff_ms r)
   ++ int_field (q_retry_backoff_max_ms r) ++ text_field (q_idempotency_key r)
   ++ int_field (if q_release_on_finish r then 1 else 0) ++ float_fields (q_retry_jitter r))%list.

Lemma frame_field_inj xs ys t u :
  (frame_field xs ++ t = frame_field ys ++ u)%list → xs = ys ∧ t = u.
Proof.
  unfold frame_field. rewrite <-!app_assoc. simpl. intros H.
  assert (length xs = length ys ∧ (xs ++ t = ys ++ u)%list) as [Hl Ht].
  { revert H. generalize (length xs) (length ys). intros n.
    generalize (xs ++ t)%list (ys ++ u)%list. induction n as [|n IH]; intros a b [|m]; simpl; try done.
    - by intros [= ->].
    - intros [= H]. apply IH in H as [-> ->]. done. }
  by apply list.app_inj_1.
Qed.
Lemma text_field_inj a b t u : (text_field a ++ t = text_field b ++ u)%list → a = b ∧ t = u.
Proof.
  intros [H ->]%frame_field_inj. split; [|done].
  by rewrite <-(string_of_list_byte_of_string a), H, string_of_list_byte_of_string.
Qed.
Lemma int_field_inj a b t u : (int_field a ++ t = int_field b ++ u)%list → a = b ∧ t = u.
Proof. intros [H ->]%text_field_inj. by apply (inj pretty) in H. Qed.
Lemma float_fields_inj x y : float_fields x = float_fields y → x = y.
Proof.
  intros H. assert (float_fields x ++ [] = float_fields y ++ [])%list as H' by (by rewrite H). clear H.
  destruct x as [[]|[]| |[] m e], y as [[]|[]| |[] m' e']; cbn [float_fields] in H';
    rewrite <-?app_assoc in H';
    apply int_field_inj in H' as [? H']; try done; apply int_field_inj in H' as [[= ->] H'];
    by apply int_field_inj in H' as [-> _].
Qed.
Lemma metadata_fields_inj x y t u :
  (metadata_fields x ++ t = metadata_fields y ++ u)%list → x = y ∧ t = u.
Proof.
  destruct x as [[]|], y as [[]|];
    cbn [metadata_fields Enqueue.m_parent_id Enqueue.m_trace_id Enqueue.m_execution_depth];
    rewrite <-?app_assoc; intros [? H]%int_field_inj; try done.
  apply text_field_inj in H as [-> H]. apply text_field_inj in H as [-> H].
  by apply int_field_inj in H as [-> ->].
Qed.
#[export] Instance sample_prost_law : ProstLaw sample_prost.
Proof.
  intros [] [] _ _ H. unfold encode_to_vec, sample_prost in H.
  cbn [Enqueue.q_name Enqueue.q_payload Enqueue.q_priority Enqueue.q_metadata
    Enqueue.q_max_attempts Enqueue.q_delay_ms Enqueue.q_rate_limit_facet
    Enqueue.q_retry_backoff_ms Enqueue.q_retry_backoff_max_ms Enqueue.q_idempotency_key
    Enqueue.q_retry_jitter Enqueue.q_release_on_finish] in H.
  apply text_field_inj in H as [-> H]. apply frame_field_inj in H as [-> H].
  apply int_field_inj in H as [-> H]. apply metadata_fields_inj in H as [-> H].
  do 2 (apply int_field_inj in H as [-> H]). apply text_field_inj in H as [-> H].
  do 2 (apply int_field_inj in H as [-> H]). apply text_field_inj in H as [-> H].
  apply int_field_inj in H as [Hr H]. apply float_fields_inj in H as ->.
  split; [|by left]. f_equal. by destruct q_release_on_finish, q_release_on_finish0.
Qed.
#[export] Instance sample_cron : CronLib := {|
  Cron := string;
  Tz := unit;
  Tz_UTC := tt;
  Tz_from_str s := if String.eqb s "UTC" then Some tt else None;
  Cron_from_str s := if String.eqb s "* * * * *" then Ok s else Err "unsupported pattern";
  timestamp_ok t := 0 <=? t;
  find_next_occurrence _ _ t := Ok ((t / 60000 + 1) * 60000);
|}.

Definition sv0 : Service :=
  mkService (mkLimits 10 100) (mkClaimCfg true 30000) (mkFlowLimits 10 100 10)
    default_retention 100 256 default_pressure (named_all 100 []).
Definition mail : AddJobRequest := mkReq "mail" [] 5 None 3 0 "" 0 0 "key" f64_zero false.
Definition poll : GetNextJobRequest := mkGetNext "worker" [].

(** A job is added, claimed and fails, is claimed again and completes. *)
Definition world1 : World := perform sv0 (AddJob mail) (initial sv0).
Definition job1 : string := default "" ((map_to_list (jobs (w_db world1))).*1 !! 0%nat).
Definition world2 : World := perform sv0 (GetNextJob poll) world1.
Definition world3 : World := perform sv0 (FailJob job1 "worker" "boom" 1 false) world2.
Definition world4 : World := perform sv0 (GetNextJob poll) world3.
Definition world5 : World := perform sv0 (CompleteJob job1 "worker" 2 []) world4.

Example run_states :
  (j_state <$> jobs (w_db world1) !! job1, j_state <$> jobs (w_db world2) !! job1,
   j_state <$> jobs (w_db world3) !! job1, j_state <$> jobs (w_db world4) !! job1,
   h_state <$> job_history (w_db world5) !! job1)
  = (Some Waiting, Some Active, Some Waiting, Some Active, Some Completed).
Proof. vm_compute. reflexivity. Qed.

(** Reachability of the worlds of a run. *)
Ltac reach := repeat first [apply reachable_initial | apply reachable_call]; try done.
Lemma world1_reachable : reachable sv0 world1.
Proof. reach. Qed.
Lemma world2_reachable : reachable sv0 world2.
Proof. apply reachable_call; [apply world1_reachable|done]. Qed.
Lemma world4_reachable : reachable sv0 world4.
Proof. do 2 (apply reachable_call; [|done]). apply world2_reachable. Qed.
Lemma run_2_3 : rtc (sys_step sv0) world2 world3.
Proof. apply run_call; [apply rtc_refl|done]. Qed.
Lemma run_2_5 : rtc (sys_step sv0) world2 world5.
Proof. do 3 (apply run_call; [|done]). apply rtc_refl. Qed.

Lemma broker_refines_lifecycle_witness :
  ∃ s s', lsteps true l_initial s ∧ implements world1 s
          ∧ lsteps false s s' ∧ implements world2 s'.
Proof. exact (broker_refines_lifecycle sv0 world1 (GetNextJob poll) world1_reachable I). Defined.

Lemma reachable_rows_wf_witness :
  dom (jobs (w_db world1)) = {[job1]} ∧ map_Forall (λ _ j, job_wf j) (jobs (w_db world1)).
Proof.
  split; [by vm_compute|]. exact (proj1 (reachable_rows_wf sv0 world1 world1_reachable)).
Defined.

Lemma no_job_lost_witness :
  dom (jobs (w_db world4)) ∪ dom (job_history (w_db world4))
  ⊆ dom (jobs (w_db world5)) ∪ dom (job_history (w_db world5)).
Proof.
  exact (no_job_lost sv0 world4 (CompleteJob job1 "worker" 2 []) world4_reachable I eq_refl).
Defined.

Definition world6 : World := perform sv0 (AddJob mail) (restart sv0 world5).
Lemma world5_reachable : reachable sv0 world5.
Proof. apply reachable_call; [apply world4_reachable|done]. Qed.
Lemma run_5_6 : rtc (sys_step sv0) world5 world6.
Proof. apply run_call; [|done]. apply rtc_once, SRestart. Qed.

Lemma job_record_permanent_witness :
  (∃ j h, jobs (w_db world2) !! job1 = Some j ∧ job_history (w_db world5) !! job1 = Some h
          ∧ hist_ident h = job_ident j ∧ j_attempts j ≤ h_attempts h)
  ∧ jobs (w_db world6) !! job1 = None.
Proof.
  destruct (jobs (w_db world2) !! job1) as [j|] eqn:Hj; [|by vm_compute in Hj].
  destruct (job_history (w_db world5) !! job1) as [h|] eqn:Hh; [|by vm_compute in Hh].
  split.
  - exists j, h. split; [reflexivity|]. split; [reflexivity|].
    exact (proj2 (proj1 (job_record_permanent sv0 world2 world5 job1 world2_reachable run_2_5) j Hj)
             h Hh).
  - exact (proj1 (proj2 (job_record_permanent sv0 world5 world6 job1 world5_reachable run_5_6) h Hh)).
Defined.

(** The answer of a step, and the step that gives it. *)
Definition answer {E A} (a0 : A) (m : M E A) (w : World) : A :=
  match (m w).1 with Ok a => a | Err _ => a0 end.
Lemma answer_run {E A} (a0 : A) (m : M E A) w :
  is_ok (m w).1 = true → m w = (Ok (answer a0 m w), (m w).2).
Proof. unfold answer. by destruct (m w) as [[]]. Qed.

Definition claim1 : GetNextJobResponse :=
  answer default_next (get_next_job (sv_claim sv0) poll) world1.
Definition claim2 : GetNextJobResponse :=
  answer default_next (get_next_job (sv_claim sv0) poll) world3.
Lemma claim1_run : get_next_job (sv_claim sv0) poll world1 = (Ok claim1, world2).
Proof. unfold world2, claim1, perform, after. apply answer_run. by vm_compute. Qed.
Lemma claim2_run : get_next_job (sv_claim sv0) poll world3 = (Ok claim2, world4).
Proof. unfold world4, claim2, perform, after. apply answer_run. by vm_compute. Qed.

Lemma claim_attempts_increase_witness : n_attempts claim1 < n_attempts claim2.
Proof.
  apply (claim_attempts_increase sv0 world1 poll claim1 world2 world3 poll claim2 world4
           world1_reachable claim1_run ltac:(by vm_compute) run_2_3 claim2_run).
  - by vm_compute.
  - by vm_compute.
Defined.

Lemma claim_serves_least_witness :
  ∃ j, jobs (w_db world1) !! n_id claim1 = Some j ∧ n_attempts claim1 = j_attempts j + 1.
Proof.
  pose proof (claim_serves_least _ _ _ _ _ claim1_run) as Hc.
  replace (n_found claim1) with true in Hc by (by vm_compute).
  destruct Hc as (j & now & Hj & _ & _ & Ha & _). exists j. exact (conj Hj Ha).
Defined.

