(* ===== verification/Suite.v ===== *)
(** * The repository's tests, run on the model: the broker

    The unit tests that the sources carry ([mod tests] of src/retention.rs,
    src/ingress_limit.rs, src/pressure.rs, src/scheduling.rs, src/scheduler.rs, src/db.rs and
    src/main.rs), each as a run of the modelled operations in the environment of Examples.v,
    with the test's own assertions.  They check the definitions of the development against
    what the authors of the broker expect of the code; a test that needs a crate or the
    operating system (time zones, files, threads) is left out. *)
From Stdlib Require Import Ascii String.
From Stdlib Require Import Strings.Byte.
From Stdlib Require Import SpecFloat.
From S2P Require Import Prelude Text Query F64 Scheduling Db Encoding Exposition Pressure Telemetry.
From S2P Require Import Broker.
From S2P Require Import Lifecycle RateLimit Ingress Enqueue Leases Claim Finish Flow FlowTree.
From S2P Require Import FlowSim Retention Schedulers Config Backup System Render Examples.
Local Open Scope string_scope.
Local Open Scope Z_scope.

(** ** Tests

    A test is a program of the broker's monad; a failed assertion and the [unwrap] of an
    error end it.  It passes when it ends without an error. *)
Definition Test := M Status unit.
Definition assert (b : bool) : Test :=
  if b then mret tt else fail (mkStatus Internal "assertion failed").
Definition passes_in (sv : Service) (t : Test) : bool := is_ok (t (initial sv)).1.
Definition passes (t : Test) : bool := passes_in sv0 t.
(** Statements that a test sends to the database. *)
Definition sql_exec (f : Db → Db) : Test := map_err internal (execute f).
Definition sql_count (f : Db → nat) : M Status nat := map_err internal (query f).
Definition test_now : M Status Z := map_err internal now_ms.
Fixpoint each {A} (f : A → Test) (l : list A) : Test :=
  match l with [] => mret tt | a :: l => do? f a in each f l end.
(** A result that must be an error: its code. *)
Definition unwrap_err {A} (m : M Status A) : M Status Code :=
  let? r := attempt m in
  match (r : result Status A) with
  | Err s => mret (code s)
  | Ok _ => fail (mkStatus Internal "called unwrap_err on an Ok value")
  end.
Definition is_err {E A} (r : result E A) : bool := negb (is_ok r).

(** ** Retention *)
Module RetentionTests.
Definition cfg : RetentionConfig := mkRetention 0 0 0 0 60000 1000 0 0 0 MIN_AGE_MS.
#[export] Instance retention_eta : Eta RetentionConfig := λ c,
  mkRetention (completed_age_ms c) (completed_count c) (failed_age_ms c) (failed_count c)
    (interval_ms c) (batch c) (chain_counter_ttl_ms c) (facet_dispatch_ttl_ms c)
    (rejections_age_ms c) (min_age_ms c).

Definition insert_history (id name : string) (state : JobState) (finished : Z) : Test :=
  sql_exec (λ d, d <| job_history ::= insert id
    (mkHist name state 0 [] None "trace" 0 1 1 finished finished None None None None false None 0) |>).
Definition insert_receipt (key job_id : string) : Test :=
  sql_exec (λ d, d <| enqueue_receipts ::= insert ("q", key) (mkReceipt [] job_id Waiting 0 false) |>).
Definition live_row (facet : option string) : Job :=
  mkJob "live" Waiting 0 [] None "trace" 0 0 3 0 0 facet None None None None 0 60000 f64_zero 0
    false None 0.
Definition insert_live_job (id : string) : Test :=
  sql_exec (λ d, d <| jobs ::= insert id (live_row None) |>).
Definition insert_facet_dispatch (key : string) (seq served_at : Z) : Test :=
  sql_exec (λ d, d <| facet_dispatch ::= insert key (mkFacet seq served_at) |>).
Definition insert_rejection (id : Z) (kind : string) (rejected_at : Z) : Test :=
  sql_exec (λ d, d <| enqueue_rejections ::= insert id
    (mkRej rejected_at kind "q" None None None None "d") |>).

Definition history_size (d : Db) : nat := size (job_history d).
Definition in_history (id : string) (d : Db) : nat :=
  length (rows_where (λ k _, String.eqb k id) (job_history d)).
Definition named_history (name : string) (d : Db) : nat :=
  length (rows_where (λ _ h, String.eqb (h_name h) name) (job_history d)).

Definition age_prune_deletes_only_rows_older_than_cutoff : Test :=
  let? t := test_now in
  do? insert_history "old" "A" Completed (t - 7200000) in
  do? insert_history "fresh" "A" Completed (t - 60000) in
  let? out := sweep (cfg <| completed_age_ms := 3600000 |>) in
  do? assert (o_completed_age out =? 1)%nat in
  let? all := sql_count history_size in
  do? assert (all =? 1)%nat in
  let? fresh := sql_count (in_history "fresh") in
  assert (fresh =? 1)%nat.

Definition count_prune_keeps_newest_n_per_name : Test :=
  let? t := test_now in
  do? each (λ '(i, (id, name)), insert_history id name Completed (t - i * 1000))
    [(0, ("A-0", "A")); (1, ("A-1", "A")); (2, ("A-2", "A")); (3, ("B-3", "B"))] in
  let? out := sweep (cfg <| completed_count := 1 |>) in
  do? assert (o_completed_count out =? 2)%nat in
  let? a := sql_count (named_history "A") in
  do? assert (a =? 1)%nat in
  let? newest := sql_count (in_history "A-0") in
  do? assert (newest =? 1)%nat in
  let? b := sql_count (named_history "B") in
  assert (b =? 1)%nat.

Definition disabled_dimensions_prune_nothing : Test :=
  let? t := test_now in
  do? insert_history "old" "A" Completed (t - 7200000) in
  let? out := sweep cfg in
  do? assert (total out =? 0)%nat in
  let? all := sql_count history_size in
  assert (all =? 1)%nat.

Definition failed_and_completed_are_pruned_independently : Test :=
  let? t := test_now in
  do? insert_history "c-old" "A" Completed (t - 7200000) in
  do? insert_history "f-old" "A" Failed (t - 7200000) in
  let? out := sweep (cfg <| completed_age_ms := 3600000 |>) in
  do? assert (o_completed_age out =? 1)%nat in
  do? assert (o_failed_age out =? 0)%nat in
  let? failed := sql_count (λ d, length (state_rows Failed d)) in
  assert (failed =? 1)%nat.

Definition orphan_receipts_pruned_but_referenced_ones_kept : Test :=
  do? insert_live_job "live-1" in
  do? insert_history "hist-1" "A" Completed 0 in
  do? insert_receipt "k-live" "live-1" in
  do? insert_receipt "k-hist" "hist-1" in
  do? insert_receipt "k-orphan" "gone" in
  let? out := sweep cfg in
  do? assert (o_receipts out =? 1)%nat in
  let? all := sql_count (λ d, size (enqueue_receipts d)) in
  do? assert (all =? 2)%nat in
  let? orphans := sql_count (λ d,
    length (rows_where (λ k _, String.eqb k.2 "k-orphan") (enqueue_receipts d))) in
  assert (orphans =? 0)%nat.

Definition live_jobs_are_never_touched : Test :=
  let? t := test_now in
  do? insert_live_job "live-1" in
  do? insert_history "old" "A" Completed (t - 7200000) in
  let? _ := sweep (cfg <| completed_age_ms := 3600000 |> <| completed_count := 1 |>) in
  let? live := sql_count (λ d, size (jobs d)) in
  assert (live =? 1)%nat.

Definition batches_bound_deletes_and_drain_across_sweeps : Test :=
  let? t := test_now in
  do? each (λ id, insert_history id "A" Completed (t - 7200000))
    ["old-0"; "old-1"; "old-2"; "old-3"; "old-4"] in
  let c := cfg <| completed_age_ms := 3600000 |> <| batch := 2 |> in
  let? first := sweep c in
  do? assert (o_completed_age first =? 2)%nat in
  let? second := sweep c in
  do? assert (o_completed_age second =? 2)%nat in
  let? third := sweep c in
  do? assert (o_completed_age third =? 1)%nat in
  let? all := sql_count history_size in
  assert (all =? 0)%nat.

Definition safety_floor_rejects_short_ages : Test :=
  do? assert (is_err (validate (cfg <| completed_age_ms := 1000 |>))) in
  assert (is_ok (validate (cfg <| completed_age_ms := MIN_AGE_MS |>))).
Definition safety_floor_tracks_configured_lease : Test :=
  let c := cfg <| min_age_ms := 120000 |> in
  do? assert (is_err (validate (c <| completed_age_ms := 90000 |>))) in
  assert (is_ok (validate (c <| completed_age_ms := 120000 |>))).
Definition zero_ages_are_allowed_and_disable_dimensions : Test :=
  do? assert (is_ok (validate cfg)) in
  assert (negb (enabled cfg)).
Definition defaults_match_replaced_retention : Test :=
  let d := default_retention in
  do? assert (completed_age_ms d =? 86400000) in
  do? assert (completed_count d =? 1000) in
  do? assert (failed_age_ms d =? 604800000) in
  do? assert (enabled d) in
  assert (is_ok (validate d)).

Definition facet_dispatch_prune_removes_idle_rows_without_live_jobs : Test :=
  let? t := test_now in
  do? insert_facet_dispatch "tenant:idle" 1 (t - 7200000) in
  do? insert_facet_dispatch "tenant:live" 2 (t - 7200000) in
  do? insert_live_job "live-job" in
  do? sql_exec (update_job (λ j, j <| j_rate_limit_facet := Some "tenant:live" |>) "live-job") in
  do? insert_facet_dispatch "tenant:fresh" 3 (t - 60000) in
  let? out := sweep (cfg <| facet_dispatch_ttl_ms := 3600000 |>) in
  do? assert (o_facet_dispatch out =? 1)%nat in
  let? all := sql_count (λ d, size (facet_dispatch d)) in
  do? assert (all =? 2)%nat in
  let? idle := sql_count (λ d,
    length (rows_where (λ k _, String.eqb k "tenant:idle") (facet_dispatch d))) in
  assert (idle =? 0)%nat.

Definition rejections_prune_removes_only_rows_older_than_cutoff : Test :=
  let? t := test_now in
  do? insert_rejection 1 "circuit_breaker" (t - 7200000) in
  do? insert_rejection 2 "parent_not_found" (t - 60000) in
  let? out := sweep (cfg <| rejections_age_ms := 3600000 |>) in
  do? assert (o_rejections out =? 1)%nat in
  let? all := sql_count (λ d, size (enqueue_rejections d)) in
  do? assert (all =? 1)%nat in
  let? second := sql_count (λ d, length (rows_where (λ k _, k =? 2) (enqueue_rejections d))) in
  assert (second =? 1)%nat.

Definition all : list Test :=
  [age_prune_deletes_only_rows_older_than_cutoff; count_prune_keeps_newest_n_per_name;
   disabled_dimensions_prune_nothing; failed_and_completed_are_pruned_independently;
   orphan_receipts_pruned_but_referenced_ones_kept; live_jobs_are_never_touched;
   batches_bound_deletes_and_drain_across_sweeps; safety_floor_rejects_short_ages;
   safety_floor_tracks_configured_lease; zero_ages_are_allowed_and_disable_dimensions;
   defaults_match_replaced_retention; facet_dispatch_prune_removes_idle_rows_without_live_jobs;
   rejections_prune_removes_only_rows_older_than_cutoff].
End RetentionTests.

(** ** Ingress limits *)
Module IngressTests.
(** [admit] in a transaction of its own. *)
Definition admit_now (facet : string) (now : Z) : M Status bool :=
  transaction internal (map_err internal (ingress_admit facet now)).
Definition admits (facet : string) (now : Z) : Test := let? b := admit_now facet now in assert b.
Definition refuses (facet : string) (now : Z) : Test :=
  let? b := admit_now facet now in assert (negb b).
Definition add_rule (facet : string) (max_jobs window : Z) : Test :=
  sql_exec (λ d, d <| ingress_limit_rules ::= insert facet (mkRule max_jobs window) |>).
Definition counters (d : Db) : nat := size (ingress_limit_counters d).
Definition bucket_eqb (a b : Bucket) : bool :=
  (b_start a =? b_start b) && (b_current a =? b_current b) && (b_previous a =? b_previous b).

Definition validate_rejects_wildcards_blank_and_whitespace : Test :=
  do? assert (is_ok (validate_facet "tenant:1")) in
  each (λ bad, assert (is_err (validate_facet bad)))
    [""; "   "; " tenant"; "tenant "; "ten*"; "ten?ant"].

Definition roll_keeps_bucket_within_same_window : Test :=
  let b := mkBucket 100 3 5 in
  do? assert (bucket_eqb (roll b 100 1000) b) in
  assert (bucket_eqb (roll b (999 + 100) 1000) b).
Definition roll_single_step_carries_weighted_previous : Test :=
  let rolled := roll (mkBucket 0 7 42) 1500 1000 in
  do? assert (bucket_eqb rolled (mkBucket 1000 0 7)) in
  assert (SFeqb (estimate rolled 1000 1000) (f64_of_Z 7)).
Definition roll_two_window_gap_fully_resets_and_realigns : Test :=
  let rolled := roll (mkBucket 0 9 9) 2500 1000 in
  do? assert (bucket_eqb rolled (mkBucket 2000 0 0)) in
  assert (SFeqb (estimate rolled 2500 1000) f64_zero).
Definition weight_is_full_at_window_start_and_approaches_zero_at_end : Test :=
  let b := mkBucket 0 0 100 in
  do? assert (SFeqb (estimate b 0 1000) (f64_of_Z 100)) in
  do? assert (fltb (SFabs (fsub (estimate b 500 1000) (f64_of_Z 50)))
                   (fdiv f64_one (f64_of_Z 1000000000))) in
  assert (fltb (estimate b 999 1000) f64_one).

Definition admits_up_to_limit_then_rejects_within_window : Test :=
  do? add_rule "t" 3 1000 in
  do? admits "t" 0 in
  do? admits "t" 10 in
  do? admits "t" 20 in
  refuses "t" 30.
Definition missing_rule_is_unrestricted : Test :=
  do? each (λ i, admits "no-rule" (Z.of_nat i)) (seq 0 100) in
  let? rows := sql_count counters in
  assert (rows =? 0)%nat.
Definition max_jobs_zero_pauses_ingress : Test :=
  do? add_rule "t" 0 1000 in
  do? refuses "t" 0 in
  let? rows := sql_count counters in
  assert (rows =? 0)%nat.
Definition admissions_resume_after_window_elapses : Test :=
  do? add_rule "t" 1 1000 in
  do? admits "t" 0 in
  do? refuses "t" 500 in
  admits "t" 2000.
Definition rejected_admission_does_not_consume_quota : Test :=
  do? add_rule "t" 1 1000 in
  do? admits "t" 0 in
  do? refuses "t" 100 in
  let? current := map_err internal (query (λ d, b_current <$> ingress_limit_counters d !! "t")) in
  assert (bool_decide (current = Some 1)).

Definition all : list Test :=
  [validate_rejects_wildcards_blank_and_whitespace; roll_keeps_bucket_within_same_window;
   roll_single_step_carries_weighted_previous; roll_two_window_gap_fully_resets_and_realigns;
   weight_is_full_at_window_start_and_approaches_zero_at_end;
   admits_up_to_limit_then_rejects_within_window; missing_rule_is_unrestricted;
   max_jobs_zero_pauses_ingress; admissions_resume_after_window_elapses;
   rejected_admission_does_not_consume_quota].
End IngressTests.

(** ** Retry delays *)
Module SchedulingTests.
Definition milli (n : Z) : f64 := fdiv (f64_of_Z n) (f64_of_Z 1000).

Definition exponential_delay_caps_without_overflow : Test :=
  do? assert (bool_decide ((retry_delay 100 500 <$> [1; 2; 3; 4]) = [100; 200; 400; 500])) in
  do? assert (retry_delay 0 500 u32_max =? 0) in
  assert (retry_delay i64_max i64_max u32_max =? i64_max).
Definition jitter_zero_leaves_delay_unchanged : Test :=
  do? assert (apply_jitter 1000 f64_zero (milli 500) =? 1000) in
  assert (apply_jitter 1000 (milli (-100)) (milli 900) =? 1000).
Definition jitter_full_spans_zero_to_delay : Test :=
  do? assert (apply_jitter 1000 f64_one f64_zero =? 0) in
  let near_full := apply_jitter 1000 f64_one (milli 999) in
  do? assert (near_full <=? 1000) in
  assert (998 <=? near_full).
Definition jitter_half_stays_within_band : Test :=
  each (λ rand_unit, let d := apply_jitter 1000 (milli 500) (milli rand_unit) in
                     assert ((500 <=? d) && (d <=? 1000)))
    [0; 250; 500; 750; 999].
Definition jitter_clamps_and_handles_zero_delay : Test :=
  do? assert (apply_jitter 0 f64_one (milli 500) =? 0) in
  assert (apply_jitter 1000 (f64_of_Z 2) f64_zero =? 0).

Definition all : list Test :=
  [exponential_delay_caps_without_overflow; jitter_zero_leaves_delay_unchanged;
   jitter_full_spans_zero_to_delay; jitter_half_stays_within_band;
   jitter_clamps_and_handles_zero_delay].
End SchedulingTests.

(** ** Backlog metrics *)
Module PressureTests.
Definition quoted (s : string) : string := String quote (s ++ String quote "").
Definition is_some {A} (o : option A) : bool := match o with Some _ => true | None => false end.
Definition rendered (p : Pressure) : string := print_items (pressure_render p).
Definition configured_or_default (names : string) : Pressure := default default_pressure (configured names).
Definition job_row (name : string) (state : JobState) (available created : Z) (known : bool)
    (lease : option Z) : Job :=
  mkJob name state 0 [] None "" 0 0 3 created created None None None lease
    (if known then Some available else None) 0 60000 f64_zero 0 false None 0.
Definition backlog : Db := empty_db <| jobs := list_to_map
  [("1", job_row "email" Waiting 1000 500 true None);
   ("2", job_row "email" Delayed 9000 500 true None);
   ("3", job_row "email" Delayed 0 500 false None);
   ("4", job_row "other" Delayed 2000 500 true None);
   ("5", job_row "other" Active 0 500 true (Some 4000));
   ("6", job_row "other" Active 0 500 true (Some 9000))] |>.
Definition queue (i : nat) (p : Pressure) : Backlog :=
  default empty_backlog (snd <$> pr_queues p !! i).

Definition backlog_separates_due_future_unknown_and_expired_and_resets_empty_queues : Test :=
  let p := sample backlog 5000 (configured_or_default "email,empty") in
  do? assert (bool_decide (bl_counts (pr_all p) = [1; 3; 2; 2; 1; 1])) in
  do? assert (bl_oldest_due_ms (pr_all p) =? 4000) in
  do? assert (bool_decide (bl_counts (queue 0 p) !! 3%nat = Some 1)) in
  do? assert (bool_decide (bl_counts (queue 1 p) !! 3%nat = Some 0)) in
  do? assert (negb (str_contains ("queue=" ++ quoted "other") (rendered p))) in
  let p := sample empty_db 6000 p in
  do? assert (bool_decide (bl_counts (pr_all p) !! 3%nat = Some 0)) in
  do? assert (bl_oldest_due_ms (queue 0 p) =? 0) in
  let p := sampler_tick None 0 p in
  assert (pr_sampled_at_ms p =? 6000).

Definition histograms_exclude_retry_from_first_claim_and_backoff_from_due_wait : Test :=
  let p := claimed 12000 12000 11000 1 (claimed 1000 10000 10500 2
             (claimed 1000 5000 6000 1 default_pressure)) in
  do? assert (hg_count (pr_first_claim p) =? 2) in
  do? assert (hg_millis (pr_first_claim p) =? 5000) in
  do? assert (hg_count (pr_due_wait p) =? 3) in
  do? assert (hg_millis (pr_due_wait p) =? 1500) in
  assert (bool_decide (hg_buckets (pr_due_wait p) !! 4%nat = Some 3)).

Definition bounded_labels_are_validated_and_escaped : Test :=
  do? each (λ invalid, assert (negb (is_some (configured invalid)))) ["a,a"; "a,"; " a"; "a, b"] in
  do? assert (negb (is_some (configured (String.concat "," (pretty <$> seq 0 33))))) in
  let name := "a" ++ String quote "b\c" ++ String newline "d" in
  let escaped := "a\" ++ String quote "b\\c\nd" in
  do? assert (str_contains ("queue=" ++ quoted escaped) (rendered (configured_or_default name))) in
  assert (pr_sampled_at_ms (sample empty_db 1000 default_pressure) =? 1000).

Definition all : list Test :=
  [backlog_separates_due_future_unknown_and_expired_and_resets_empty_queues;
   histograms_exclude_retry_from_first_claim_and_backoff_from_due_wait;
   bounded_labels_are_validated_and_escaped].
End PressureTests.

(** ** The service: settings and claims *)
Module MainTests.
(** A default and accepted values, then values that are refused. *)
Definition parses (parse : option string → result ConfigError Z) (dflt : Z)
    (good : list (string * Z)) (bad : list string) : Test :=
  let accepted v n := assert (match parse v with Ok m => m =? n | Err _ => false end) in
  do? accepted None dflt in
  do? each (λ '(v, n), accepted (Some v) n) good in
  each (λ v, assert (is_err (parse (Some v)))) bad.

Definition lease_duration_parses_defaults_and_rejects_invalid : Test :=
  parses parse_lease_duration_ms LEASE_DURATION_MS [("45000", 45000); (" 1000 ", 1000)]
    ["0"; "-5"; "abc"; "999"].
Definition recovery_interval_parses_defaults_and_rejects_invalid : Test :=
  parses parse_recovery_interval_ms DEFAULT_RECOVERY_INTERVAL_MS [("2500", 2500)]
    ["0"; "-1"; "nope"].
Definition scheduler_interval_parses_defaults_and_rejects_invalid : Test :=
  parses parse_scheduler_interval_ms DEFAULT_SCHEDULER_INTERVAL_MS [("250", 250); (" 500 ", 500)]
    ["0"; "-1"; "nope"].
Definition scheduler_batch_size_parses_defaults_and_rejects_invalid : Test :=
  parses parse_scheduler_batch_size DEFAULT_SCHEDULER_BATCH_SIZE [("64", 64); (" 32 ", 32)]
    ["0"; "-1"; "nope"].
Definition max_execution_depth_parses_defaults_and_rejects_invalid : Test :=
  parses parse_max_execution_depth DEFAULT_MAX_EXECUTION_DEPTH [("25", 25); (" 5 ", 5)]
    ["0"; "-1"; "nope"].
Definition max_flow_depth_parses_defaults_and_rejects_invalid : Test :=
  parses parse_max_flow_depth DEFAULT_MAX_FLOW_DEPTH [("25", 25); (" 5 ", 5)] ["0"; "-1"; "nope"].
Definition max_flow_nodes_parses_defaults_and_rejects_invalid : Test :=
  parses parse_max_flow_nodes DEFAULT_MAX_FLOW_NODES [("5000", 5000); (" 42 ", 42)]
    ["0"; "-1"; "nope"].
Definition max_flow_bulk_parses_defaults_and_rejects_invalid : Test :=
  parses parse_max_flow_bulk DEFAULT_MAX_FLOW_BULK [("250", 250); (" 7 ", 7)] ["0"; "-1"; "nope"].
Definition recovery_batch_size_parses_defaults_and_rejects_invalid : Test :=
  parses parse_recovery_batch_size DEFAULT_RECOVERY_BATCH_SIZE [("250", 250); (" 50 ", 50)]
    ["0"; "-1"; "nope"].

(** The service of the tests, with the row that its jobs name as their parent. *)
Definition service_limits : Limits := mkLimits DEFAULT_MAX_EXECUTION_DEPTH 0.
Definition parent_row : HistRow :=
  mkHist "email" Completed 0 [] None "trace" 1 1 1 1 1 None None None None false None 0.
Section Service.
Context {HE : Env}.
Definition seed_parent : Test :=
  map_err internal (execute (λ d, d <| job_history ::= insert "parent" parent_row |>)).
Definition test_enqueue (name : string) (priority delay_ms : Z) : M Status string :=
  let? r := enqueue service_limits
    (mkReq name [x00; x01; xff] priority (Some (mkMeta "parent" "trace" 2)) 0 delay_ms "" 0 0 ""
       f64_zero false) in
  mret (rp_id r).
Definition claim_for (lease : Z) (queues : list string) : M Status GetNextJobResponse :=
  get_next_job (mkClaimCfg false lease) (mkGetNext "worker" queues).
Definition claim : list string → M Status GetNextJobResponse := claim_for LEASE_DURATION_MS.
Definition claims (queues : list string) (id : string) : Test :=
  let? job := claim queues in assert (n_found job && String.eqb (n_id job) id).
Definition finds_none (queues : list string) : Test :=
  let? job := claim queues in assert (negb (n_found job)).

Definition custom_lease_duration_applies_to_claim : Test :=
  do? seed_parent in
  let? _ := test_enqueue "email" 0 0 in
  let? job := claim_for 120000 ["email"] in
  do? assert (n_found job) in
  let? now := map_err internal now_ms in
  let remaining := n_lease_expires_at_ms job - now in
  assert ((110000 <=? remaining) && (remaining <=? 120000)).

Definition dequeue_orders_filters_and_returns_persisted_metadata : Test :=
  do? seed_parent in
  let? older := test_enqueue "email" 5 0 in
  let? newer := test_enqueue "email" 5 0 in
  let? urgent := test_enqueue "email" 1 0 in
  let? other := test_enqueue "other" 0 0 in
  let? _ := test_enqueue "email" (-1) 60000 in
  do? map_err internal (execute (update_job (λ j, j <| j_created_at := 1 |>) older)) in
  do? map_err internal (execute (update_job (λ j, j <| j_created_at := 2 |>) newer)) in
  let? job := claim ["email"; "missing"] in
  do? assert (String.eqb (n_id job) urgent) in
  do? assert (bool_decide (n_payload job = [x00; x01; xff])) in
  do? assert (n_attempts job =? 1) in
  do? assert (match n_metadata job with
              | Some m => String.eqb (m_parent_id m) "parent"
                          && String.eqb (m_trace_id m) "trace" && (m_execution_depth m =? 2)
              | None => false
              end) in
  do? claims ["email"] older in
  do? claims ["email"] newer in
  do? finds_none ["email"] in
  do? claims [] other in
  finds_none [].

(** The sixteen workers in the order in which they get the writer's lock. *)
Definition concurrent_workers_claim_a_job_only_once : Test :=
  do? seed_parent in
  let? id := test_enqueue "email" 0 0 in
  let? claimed := fold_m (λ ids _, let? job := claim [] in
                                   mret (if n_found job then n_id job :: ids else ids))
                         [] (seq 0 16) in
  do? assert (bool_decide (claimed = [id])) in
  let? row := map_err internal (query (λ d, jobs d !! id)) in
  assert (match row with
          | Some j => is_state (j_state j) Active && bool_decide (j_worker_id j = Some "worker")
                      && (j_attempts j =? 1)
          | None => false
          end).

(** The claim whose update of the row is made to fail; the count of due waits is read from
    the histogram that the page prints. *)
Definition waits_observed : M Status Z := λ w, (Ok (hg_count (pr_due_wait (pressure (w_metrics w)))), w).
Definition failed_claim_rolls_back_and_can_be_retried : Test :=
  do? seed_parent in
  let? id := test_enqueue "email" 0 0 in
  let? error := unwrap_err (claim []) in
  do? assert (bool_decide (error = Internal)) in
  let? n := waits_observed in
  do? assert (n =? 0) in
  let? job := claim [] in
  do? assert (String.eqb (n_id job) id) in
  do? assert (n_attempts job =? 1) in
  let? n := waits_observed in
  assert (n =? 1).

Definition invalid_poll_does_not_claim_work : Test :=
  do? seed_parent in
  let? id := test_enqueue "email" 0 0 in
  do? each (λ request,
    let? error := unwrap_err (get_next_job (mkClaimCfg false LEASE_DURATION_MS) request) in
    assert (bool_decide (error = InvalidArgument))) [mkGetNext "" []; mkGetNext "worker" [" "]] in
  claims [] id.
End Service.

(** The environment of Examples.v in which one statement fails. *)
Definition failing (n : nat) : Env := {|
  clock := clock; new_v4 := new_v4; rand_f64 := rand_f64; scan := @scan _;
  fault k := if (k =? n)%nat then Some (SqlFailure "injected failure") else fault k;
|}.

Definition all : list Test :=
  [lease_duration_parses_defaults_and_rejects_invalid;
   recovery_interval_parses_defaults_and_rejects_invalid;
   scheduler_interval_parses_defaults_and_rejects_invalid;
   scheduler_batch_size_parses_defaults_and_rejects_invalid;
   max_execution_depth_parses_defaults_and_rejects_invalid;
   max_flow_depth_parses_defaults_and_rejects_invalid;
   max_flow_nodes_parses_defaults_and_rejects_invalid;
   max_flow_bulk_parses_defaults_and_rejects_invalid;
   recovery_batch_size_parses_defaults_and_rejects_invalid;
   custom_lease_duration_applies_to_claim;
   dequeue_orders_filters_and_returns_persisted_metadata;
   concurrent_workers_claim_a_job_only_once; invalid_poll_does_not_claim_work].
End MainTests.

(** ** Schedulers *)
Module SchedulerTests.
(** A stand-in for croner with the two patterns of these tests, and for the time zones. *)
Definition period (pattern : string) : option (Z * Z) :=
  if String.eqb pattern "*/5 * * * *" then Some (300000, 0)
  else if String.eqb pattern "0 3 * * *" then Some (86400000, 10800000) else None.
Definition stub_cron : CronLib := {|
  Cron := Z * Z;
  Tz := string;
  Tz_UTC := "UTC";
  Tz_from_str s := if bool_decide (s ∈ ["UTC"; "America/Denver"]) then Some s else None;
  Cron_from_str s := match period s with Some c => Ok c | None => Err "unsupported pattern" end;
  timestamp_ok t := 0 <=? t;
  find_next_occurrence c _ t := Ok (((t - c.2) / c.1 + 1) * c.1 + c.2);
|}.
#[local] Existing Instance stub_cron.

Definition jitter_25 : f64 := fdiv f64_one (f64_of_Z 4).
Definition spec (id : string) : JobSchedulerRow :=
  mkSched id (list_byte_of_string "hello") "0 3 * * *" (Some "America/Denver") 0 (Some 1000) None
    (Some 5) (Some 4) (Some 1000) (Some 60000) (Some jitter_25) (Some "tenant:a") 0 0.
Definition stamped (now : Z) (r : JobSchedulerRow) : JobSchedulerRow :=
  r <| s_created_at := now |> <| s_updated_at := now |>.
Definition upsert (id : string) (r : JobSchedulerRow) (now : Z) : Test :=
  sql_exec (upsert_scheduler id (stamped now r)).
Definition get (id : string) : M Status (option (string * JobSchedulerRow)) :=
  map_err internal (query (get_scheduler id)).
Definition with_row (id : string) (P : JobSchedulerRow → bool) : Test :=
  let? r := get id in assert (match r with Some (_, r) => P r | None => false end).

Definition upsert_get_list_delete_roundtrip : Test :=
  let? none := get "s1" in
  do? assert (negb (PressureTests.is_some none)) in
  do? upsert "s1" (spec "s1") 100 in
  do? with_row "s1" (λ r,
    String.eqb (s_job_name r) "s1" && bool_decide (s_payload r = list_byte_of_string "hello")
    && (s_produced_count r =? 0) && bool_decide (s_next_run_at r = Some 1000)
    && bool_decide (s_priority r = Some 5)
    && match s_retry_jitter r with Some j => SFeqb j jitter_25 | None => false end
    && (s_created_at r =? 100) && (s_updated_at r =? 100)) in
  do? upsert "s2" (spec "s2") 100 in
  let? all := map_err internal (query list_schedulers) in
  do? assert (bool_decide (all.*1 = ["s1"; "s2"])) in
  let? deleted := map_err internal (stmt (λ _ d, Ok (delete_scheduler "s1" d))) in
  do? assert deleted in
  let? deleted := map_err internal (stmt (λ _ d, Ok (delete_scheduler "s1" d))) in
  do? assert (negb deleted) in
  let? all := map_err internal (query list_schedulers) in
  assert (length all =? 1)%nat.

Definition upsert_preserves_created_at_and_runtime_fields : Test :=
  do? upsert "s1" (spec "s1") 100 in
  do? sql_exec (λ d, d <| job_schedulers ::= alter (λ r,
        r <| s_produced_count := 7 |> <| s_last_job_id := Some "j7" |>) "s1" |>) in
  do? upsert "s1" (spec "s1" <| s_cron := "0 4 * * *" |> <| s_next_run_at := Some 2000 |>
                             <| s_priority := Some 9 |>) 500 in
  with_row "s1" (λ r,
    (s_created_at r =? 100) && (s_updated_at r =? 500) && (s_produced_count r =? 7)
    && bool_decide (s_last_job_id r = Some "j7") && String.eqb (s_cron r) "0 4 * * *"
    && bool_decide (s_next_run_at r = Some 2000) && bool_decide (s_priority r = Some 9)).

Definition optional_fields_roundtrip_as_null : Test :=
  do? upsert "s1" (mkSched "s1" [] "0 3 * * *" None 0 None None None None None None None None 0 0) 1 in
  with_row "s1" (λ r,
    bool_decide (s_timezone r = None) && bool_decide (s_next_run_at r = None)
    && bool_decide (s_priority r = None)
    && match s_retry_jitter r with None => true | Some _ => false end
    && bool_decide (s_rate_limit_facet r = None) && bool_decide (s_payload r = [])).

(** *** The loop *)
Definition CONFIG : Limits := mkLimits 10 0.
Definition due_spec (id cron : string) (next_run_at : Z) : JobSchedulerRow :=
  mkSched (id ++ "-job") (list_byte_of_string "scheduled-payload") cron (Some "UTC") 0
    (Some next_run_at) None (Some 7) (Some 4) (Some 1500) (Some 90000) (Some jitter_25)
    (Some "tenant:a") 0 0.
Definition due_now : M Status (list (string * JobSchedulerRow)) :=
  let? now := test_now in map_err internal (query (select_due_schedulers now 10)).
Definition fire (row : string * JobSchedulerRow) : Test :=
  map_err (λ _, mkStatus Internal "fire failed") (fire_one CONFIG row).
Definition job_rows : M Status (list Job) :=
  map_err internal (query (λ d, (map_to_list (jobs d)).*2)).

Definition fires_one_job_per_due_scheduler_carrying_template_opts_as_root : Test :=
  do? upsert "sched" (due_spec "sched" "*/5 * * * *" 1000) 1000 in
  let? due := due_now in
  do? assert (length due =? 1)%nat in
  do? each fire due in
  let? rows := job_rows in
  let? now := test_now in
  do? assert (match rows with
    | [j] => String.eqb (j_name j) "sched-job" && (j_priority j =? 7) && (j_max_attempts j =? 4)
             && (j_retry_backoff_ms j =? 1500) && (j_retry_backoff_max_ms j =? 90000)
             && SFeqb (j_retry_jitter j) jitter_25
             && bool_decide (j_rate_limit_facet j = Some "tenant:a")
             && bool_decide (j_parent_id j = None) && (j_execution_depth j =? 0)
             && negb (is_empty (j_trace_id j)) && is_state (j_state j) Waiting
             && match j_available_at j with Some t => t <=? now | None => false end
    | _ => false
    end) in
  with_row "sched" (λ r,
    (s_produced_count r =? 1) && PressureTests.is_some (s_last_job_id r)
    && match s_next_run_at r with Some t => now <? t | None => false end).

Definition advance_jumps_to_next_future_occurrence_without_backfill : Test :=
  do? upsert "sched" (due_spec "sched" "*/5 * * * *" 1) 1 in
  let? due := due_now in
  do? assert (length due =? 1)%nat in
  do? each fire due in
  let? now := test_now in
  do? with_row "sched" (λ r,
    (s_produced_count r =? 1)
    && match s_next_run_at r with Some t => (now <? t) && (t <=? now + 5 * 60000) | None => false end) in
  let? rows := job_rows in
  do? assert (length rows =? 1)%nat in
  let? due := due_now in
  match due with
  | row :: _ => do? fire row in with_row "sched" (λ r, s_produced_count r =? 2)
  | [] => mret tt
  end.

Definition not_yet_due_schedulers_are_skipped : Test :=
  let? now := test_now in
  do? upsert "due" (due_spec "due" "*/5 * * * *" (now - 1000)) now in
  do? upsert "future" (due_spec "future" "*/5 * * * *" (now + 3600000)) now in
  let? due := map_err internal (query (select_due_schedulers now 10)) in
  assert (bool_decide (due.*1 = ["due"])).

(** The transaction is dropped after both statements. *)
Definition fire_is_atomic_across_insert_and_advance : Test :=
  do? upsert "sched" (due_spec "sched" "*/5 * * * *" 1000) 1000 in
  do? with_row "sched" (λ _, true) in
  let? dropped := attempt (transaction internal (
    let? now := test_now in
    let? '(job_id, _) := enqueue_scheduled CONFIG (build_request (due_spec "sched" "*/5 * * * *" 1000)) now in
    do? sql_exec (advance_scheduler "sched" (now + 300000) job_id now) in
    (fail (mkStatus Internal "dropped") : Test))) in
  do? assert (is_err (dropped : result Status unit)) in
  let? rows := job_rows in
  do? assert (length rows =? 0)%nat in
  with_row "sched" (λ r,
    (s_produced_count r =? 0) && bool_decide (s_next_run_at r = Some 1000)
    && bool_decide (s_last_job_id r = None)).

Definition one_erroring_scheduler_does_not_block_others : Test :=
  do? upsert "good" (due_spec "good" "*/5 * * * *" 1000) 1000 in
  do? sql_exec (λ d, d <| job_schedulers ::= insert "bad"
        (mkSched "bad-job" [] "not-a-cron" None 0 (Some 1000) None None None None None None None
           1000 1000) |>) in
  let? due := due_now in
  do? assert (length due =? 2)%nat in
  let? outcomes := fold_m (λ acc row, let? r := attempt (fire row) in
                                      mret (is_ok (r : result Status unit) :: acc)) [] due in
  do? assert (length (base.filter (λ b : bool, b = true) outcomes) =? 1)%nat in
  do? assert (length (base.filter (λ b : bool, b = false) outcomes) =? 1)%nat in
  do? with_row "good" (λ r, s_produced_count r =? 1) in
  do? with_row "bad" (λ r, (s_produced_count r =? 0) && bool_decide (s_next_run_at r = Some 1000)) in
  let? rows := job_rows in
  assert (length rows =? 1)%nat.

Definition run_once_fires_persisted_due_scheduler_on_first_tick : Test :=
  let? now := test_now in
  do? upsert "sched" (due_spec "sched" "*/5 * * * *" (now - 10000)) now in
  let? produced := run_once CONFIG 256 in
  do? assert (produced =? 1)%nat in
  let? rows := job_rows in
  do? assert (length rows =? 1)%nat in
  with_row "sched" (λ r, s_produced_count r =? 1).

(** The gauge is read from the metrics that the page prints. *)
Definition schedulers_active_gauge_reflects_upsert_and_delete : Test :=
  do? upsert "s1" (due_spec "s1" "*/5 * * * *" 1000) 1000 in
  do? upsert "s2" (due_spec "s2" "*/5 * * * *" 1000) 1000 in
  let? m := map_err internal (query initialize) in
  do? assert (schedulers_active m =? 2) in
  let m := scheduler_activated m in
  do? assert (schedulers_active m =? 3) in
  assert (schedulers_active (scheduler_deactivated (scheduler_deactivated m)) =? 1).

(** *** Cron evaluation *)
Definition far_past_now_jumps_to_next_occurrence_without_backfill : Test :=
  match next_cron_after 0 "0 3 * * *" "UTC" with
  | Ok next => assert ((0 <? next) && (next =? 3 * 3600000) && (next <? 0 + 2 * 86400000))
  | Err _ => assert false
  end.
Definition same_occurrence (a b : result SchedulerError Z) : bool :=
  match a, b with Ok x, Ok y => x =? y | _, _ => false end.
Definition noon : Z := 1718452800000.
Definition empty_timezone_defaults_to_utc : Test :=
  do? assert (same_occurrence (next_cron_after noon "0 3 * * *" "") (next_cron_after noon "0 3 * * *" "UTC")) in
  assert (same_occurrence (next_cron_after noon "0 3 * * *" "   ") (next_cron_after noon "0 3 * * *" "UTC")).
Definition invalid_cron {A} (r : result SchedulerError A) : bool :=
  match r with Err (InvalidCron _) => true | _ => false end.
Definition invalid_timezone {A} (r : result SchedulerError A) : bool :=
  match r with Err (InvalidTimezone _) => true | _ => false end.
Definition invalid_cron_and_invalid_tz_error_distinctly : Test :=
  do? assert (invalid_cron (next_cron_after noon "not a cron" "UTC")) in
  do? assert (invalid_cron (next_cron_after noon "" "UTC")) in
  do? assert (invalid_timezone (next_cron_after noon "0 3 * * *" "Mars/Olympus_Mons")) in
  do? assert (is_ok (validate_cron "0 3 * * *" "America/Denver")) in
  do? assert (invalid_cron (validate_cron "nope" "UTC")) in
  assert (invalid_timezone (validate_cron "0 3 * * *" "Nowhere/Land")).

Definition all : list Test :=
  [upsert_get_list_delete_roundtrip; upsert_preserves_created_at_and_runtime_fields;
   optional_fields_roundtrip_as_null;
   fires_one_job_per_due_scheduler_carrying_template_opts_as_root;
   advance_jumps_to_next_future_occurrence_without_backfill; not_yet_due_schedulers_are_skipped;
   fire_is_atomic_across_insert_and_advance; one_erroring_scheduler_does_not_block_others;
   run_once_fires_persisted_due_scheduler_on_first_tick;
   schedulers_active_gauge_reflects_upsert_and_delete;
   far_past_now_jumps_to_next_occurrence_without_backfill; empty_timezone_defaults_to_utc;
   invalid_cron_and_invalid_tz_error_distinctly].
End SchedulerTests.

(** ** All of them *)
Definition broker_tests : list Test :=
  (RetentionTests.all ++ IngressTests.all ++ SchedulingTests.all ++ PressureTests.all
   ++ MainTests.all ++ SchedulerTests.all)%list.
(** The statements of the claim in [failed_claim_rolls_back_and_can_be_retried], from the
    start of its transaction to its commit. *)
Definition claim_statements : list nat := seq 7 9.

(** The tests of the sources pass on the model; the one that makes a claim fail passes
    whichever statement of the claim fails. *)
Theorem broker_tests_pass :
  forallb passes broker_tests = true
  ∧ forallb (λ n, passes (@MainTests.failed_claim_rolls_back_and_can_be_retried (MainTests.failing n)))
      claim_statements = true.
Proof. by vm_compute. Qed.
