(* ===== verification/FlowSuite.v ===== *)
(** * The repository's tests, run on the model: flows

    The tests of src/flow_tests.rs, which drive the service through its handlers, as runs of
    the model (the test monad is in Suite.v).  A service is its caps and the world it acts
    on; the clock moves one millisecond per effect, so that no lease ends during a test. *)
From Stdlib Require Import Ascii String.
From Stdlib Require Import Strings.Byte.
From S2P Require Import Prelude Text Query F64 Scheduling Db Pressure Telemetry Broker.
From S2P Require Import Lifecycle RateLimit Ingress Enqueue Leases Claim Finish Flow FlowTree.
From S2P Require Import FlowSim Retention Schedulers Config System Examples Suite.
Local Open Scope string_scope.
Local Open Scope Z_scope.

Definition steady_env : Env := {|
  clock n := 1000000 + Z.of_nat n;
  new_v4 n := pretty n;
  rand_f64 _ := f64_zero;
  fault _ := None;
  scan _ _ l := l;
|}.
#[local] Existing Instance steady_env.

(** ** Assertions on the service *)
Definition refused {A} (m : M Status A) (c : Code) : Test :=
  let? e := unwrap_err m in assert (bool_decide (e = c)).
(** The value of a counter, as the metrics page prints it. *)
Definition read_metric (f : Metrics → Z) : M Status Z := λ w, (Ok (f (w_metrics w)), w).
Definition meter_is (f : Metrics → Z) (n : Z) : Test :=
  let? m := read_metric f in assert (m =? n).
Definition row_is (id : string) (P : Job → bool) : Test :=
  let? row := map_err internal (query (λ d, jobs d !! id)) in
  assert (match row with Some j => P j | None => false end).
(** [SELECT COUNT( * ) FROM jobs WHERE ..] *)
Definition counts (P : Job → bool) (n : nat) : Test :=
  let? k := sql_count (λ d, length (rows_where (λ _ j, P j) (jobs d))) in assert (k =? n)%nat.
Definition jobs_left : nat → Test := counts (λ _, true).

Module FlowTests.
(** ** The service *)
Definition flow_service_full (max_flow_depth max_flow_nodes max_flow_bulk : Z) : FlowLimits :=
  mkFlowLimits max_flow_depth max_flow_nodes max_flow_bulk.
Definition flow_service_with_caps (max_flow_depth max_flow_nodes : Z) : FlowLimits :=
  flow_service_full max_flow_depth max_flow_nodes DEFAULT_MAX_FLOW_BULK.
Definition flow_service : FlowLimits :=
  flow_service_with_caps DEFAULT_MAX_FLOW_DEPTH DEFAULT_MAX_FLOW_NODES.

Definition no_fields : FlowFields := mkFlowFields "" [] 0 0 0 "" 0 0 f64_zero "" false.
#[local] Instance FlowFields_eta : Eta FlowFields := λ f,
  mkFlowFields (fj_name f) (fj_payload f) (fj_priority f) (fj_max_attempts f) (fj_delay_ms f)
    (fj_rate_limit_facet f) (fj_retry_backoff_ms f) (fj_retry_backoff_max_ms f)
    (fj_retry_jitter f) (fj_idempotency_key f) (fj_fail_parent_on_failure f).
Definition parent (name : string) (children : list FlowJob) : FlowJob :=
  mkFlow (no_fields <| fj_name := name |>) children.
Definition leaf (name : string) : FlowJob := parent name [].
Definition keyed (name key : string) : FlowJob :=
  mkFlow (no_fields <| fj_name := name |> <| fj_idempotency_key := key |>) [].
Definition with_children (f : FlowJob) (cs : list FlowJob) : FlowJob := mkFlow (fields f) cs.
(** [node.fail_parent_on_failure = true] *)
Definition flagged (f : FlowJob) : FlowJob :=
  mkFlow (fields f <| fj_fail_parent_on_failure := true |>) (children f).
Definition add (name key : string) : Test :=
  let? _ := enqueue MainTests.service_limits
    (mkReq name [] 0 None 0 0 "" 0 0 key f64_zero false) in mret tt.

Definition node_in (nodes : list FlowNode) (name : string) : M Status string :=
  match base.filter (λ n, fn_name n = name) nodes with
  | n :: _ => mret (fn_id n)
  | [] => fail (mkStatus Internal "node not in response")
  end.
Definition node_id (resp : AddFlowResponse) : string → M Status string := node_in (fr_nodes resp).
Definition node_id_merge (resp : AddFlowMergeResponse) : string → M Status string :=
  node_in (mr_attached resp).
Definition gate_is (id : string) (state : JobState) (pending : Z) : Test :=
  row_is id (λ j, is_state (j_state j) state && (j_pending_children j =? pending)).
Definition node_is (id : string) (state : JobState) (pending : Z) (up : option string)
    (tree : string) (depth : Z) : Test :=
  row_is id (λ j, is_state (j_state j) state && (j_pending_children j =? pending)
    && bool_decide (j_parent_id j = up) && bool_decide (j_tree_id j = Some tree)
    && (j_tree_depth j =? depth)).
Definition history_state (id : string) (state : JobState) : Test :=
  let? h := map_err internal (query (λ d, h_state <$> job_history d !! id)) in
  assert (bool_decide (h = Some state)).
Definition first_id (name : string) : M Status string :=
  let? rows := map_err internal (query (λ d, rows_where (λ _ j, String.eqb (j_name j) name) (jobs d))) in
  match rows with (id, _) :: _ => mret id | [] => fail (mkStatus Internal "no row") end.

Definition claim : M Status GetNextJobResponse := MainTests.claim [].
Definition complete_with_result (id : string) (result : bytes) : Test :=
  let? _ := complete_job id "worker" 1 result in mret tt.
Definition claim_and_complete : M Status (option string) :=
  let? job := claim in
  if n_found job then do? complete_with_result (n_id job) [] in mret (Some (n_id job))
  else mret None.
Definition fail_terminal (id : string) : M Status bool := fail_job id "worker" "boom" 1 true.

(** ** AddFlow *)
Definition tree : FlowJob :=
  parent "root" [parent "childA" [leaf "gcA1"]; parent "childB" [leaf "gcB1"]].

Definition add_flow_creates_the_whole_tree_atomically : Test :=
  let? resp := add_flow flow_service (Some tree) in
  do? assert (length (fr_nodes resp) =? 5)%nat in
  do? assert (bool_decide (fn_name <$> head (fr_nodes resp) = Some "root")) in
  let? root := node_id resp "root" in
  do? assert (String.eqb (fr_root_id resp) root) in
  do? node_is root WaitingChildren 2 None root 0 in
  let? child_a := node_id resp "childA" in
  do? node_is child_a WaitingChildren 1 (Some root) root 1 in
  let? gc_a1 := node_id resp "gcA1" in
  do? node_is gc_a1 Waiting 0 (Some child_a) root 2 in
  do? jobs_left 5 in
  counts (λ j, bool_decide (j_tree_id j ≠ None) && (j_execution_depth j =? j_tree_depth j)) 5.

Definition waiting_children_parents_are_never_claimed : Test :=
  let? resp := add_flow flow_service
    (Some (parent "root" [parent "childA" [leaf "gcA1"]; leaf "childB"])) in
  let? root := node_id resp "root" in
  let? child_a := node_id resp "childA" in
  let? first := claim in
  do? assert (n_found first) in
  let? second := claim in
  do? assert (n_found second) in
  let? third := claim in
  do? assert (negb (n_found third)) in
  each (λ id, assert (negb (String.eqb id root) && negb (String.eqb id child_a)))
    [n_id first; n_id second].

(** [while let Some(id) = claim_and_complete(..)]: at most [n] times. *)
Fixpoint drain (n : nat) : M Status (list string) :=
  match n with
  | O => mret []
  | S n =>
      let? done := claim_and_complete in
      match done with
      | Some id => let? rest := drain n in mret (id :: rest)
      | None => mret []
      end
  end.
Fixpoint before (a b : string) (l : list string) : bool :=
  match l with
  | [] => false
  | x :: l => if String.eqb x a then bool_decide (b ∈ l) else before a b l
  end.
Definition completing_children_releases_parents_bottom_up : Test :=
  let? resp := add_flow flow_service (Some tree) in
  let? root := node_id resp "root" in
  let? child_a := node_id resp "childA" in
  let? gc_a1 := node_id resp "gcA1" in
  do? row_is child_a (λ j, is_state (j_state j) WaitingChildren) in
  let? order := drain 10 in
  do? assert (length order =? 5)%nat in
  do? assert (before gc_a1 child_a order && before child_a root order) in
  do? assert (bool_decide (list.last order = Some root)) in
  do? jobs_left 0 in
  history_state root Completed.

Definition pending_children_decrements_exactly_once : Test :=
  let? resp := add_flow flow_service (Some (parent "root" [leaf "child"])) in
  let? root := node_id resp "root" in
  let? child := node_id resp "child" in
  let? claimed := claim in
  do? assert (String.eqb (n_id claimed) child) in
  do? complete_with_result child [] in
  do? gate_is root Waiting 0 in
  do? complete_with_result child [] in
  gate_is root Waiting 0.

Definition fail_parent_on_failure_cascades_to_root_while_siblings_continue : Test :=
  let? resp := add_flow flow_service
    (Some (parent "root" [flagged (leaf "childFail"); leaf "childOk"])) in
  let? root := node_id resp "root" in
  let? child_fail := node_id resp "childFail" in
  let? child_ok := node_id resp "childOk" in
  let? _ := claim in
  let? _ := claim in
  let? moved := fail_terminal child_fail in
  do? assert moved in
  do? history_state child_fail Failed in
  do? history_state root Failed in
  let? row := map_err internal (query (λ d, jobs d !! root)) in
  do? assert (match row with None => true | Some _ => false end) in
  do? complete_with_result child_ok [] in
  history_state child_ok Completed.

Definition fail_parent_cascades_through_flagged_ancestors_only : Test :=
  let? resp := add_flow flow_service
    (Some (parent "root" [flagged (parent "child" [flagged (leaf "grandchild")])])) in
  let? root := node_id resp "root" in
  let? child := node_id resp "child" in
  let? grandchild := node_id resp "grandchild" in
  let? _ := claim in
  let? moved := fail_terminal grandchild in
  do? assert moved in
  do? each (λ id, history_state id Failed) [grandchild; child; root] in
  jobs_left 0.

Definition unflagged_failure_leaves_parent_blocked : Test :=
  let? resp := add_flow flow_service (Some (parent "root" [leaf "child"])) in
  let? root := node_id resp "root" in
  let? child := node_id resp "child" in
  let? _ := claim in
  let? moved := fail_terminal child in
  do? assert moved in
  do? history_state child Failed in
  gate_is root WaitingChildren 1.

Definition get_children_values_returns_completed_child_results : Test :=
  let? resp := add_flow flow_service (Some (parent "root" [leaf "childA"; leaf "childB"])) in
  let? root := node_id resp "root" in
  let? child_a := node_id resp "childA" in
  let? child_b := node_id resp "childB" in
  let? _ := claim in
  let? _ := claim in
  do? complete_with_result child_a [x01; x02; x03] in
  do? complete_with_result child_b [x04; x05] in
  let? values := get_children_values root in
  do? assert (size values =? 2)%nat in
  do? assert (bool_decide (values !! child_a = Some [x01; x02; x03])) in
  assert (bool_decide (values !! child_b = Some [x04; x05])).

Definition flow_depth_cap_rejects_and_rolls_back : Test :=
  do? refused (add_flow (flow_service_with_caps 1 1000)
                 (Some (parent "root" [parent "child" [leaf "grandchild"]]))) InvalidArgument in
  jobs_left 0.
Definition flow_nodes_cap_rejects_and_rolls_back : Test :=
  do? refused (add_flow (flow_service_with_caps 10 2)
                 (Some (parent "root" [leaf "a"; leaf "b"; leaf "c"]))) InvalidArgument in
  jobs_left 0.
Definition add_flow_rejects_replayed_idempotency_key : Test :=
  do? add "childA" "k1" in
  do? refused (add_flow flow_service (Some (parent "root" [keyed "childA" "k1"])))
        FailedPrecondition in
  jobs_left 1.

(** ** AddFlowBulk *)
Definition add_flow_bulk_creates_all_trees : Test :=
  let? created := read_metric flows_created in
  let? results := add_flow_bulk flow_service
    [parent "r1" [leaf "a1"]; leaf "r2"; parent "r3" [leaf "a3"; leaf "b3"]] in
  do? assert (bool_decide ((λ r, fn_name <$> head (fr_nodes r)) <$> results
                           = [Some "r1"; Some "r2"; Some "r3"])) in
  do? assert (bool_decide ((λ r, length (fr_nodes r)) <$> results = [2; 1; 3]%nat)) in
  do? assert (match results !! 1%nat with
              | Some r => bool_decide (fn_id <$> head (fr_nodes r) = Some (fr_root_id r))
              | None => false
              end) in
  do? jobs_left 6 in
  meter_is flows_created (created + 3).

Definition add_flow_bulk_rolls_back_whole_batch_on_cap_violation : Test :=
  do? refused (add_flow_bulk (flow_service_with_caps 10 2)
        [parent "r1" [leaf "a1"]; parent "r2" [leaf "a2"; leaf "b2"; leaf "c2"]]) InvalidArgument in
  jobs_left 0.
Definition add_flow_bulk_rejects_cross_tree_key_collision : Test :=
  do? refused (add_flow_bulk flow_service
        [parent "r1" [keyed "x" "k"]; parent "r2" [keyed "x" "k"]]) InvalidArgument in
  jobs_left 0.
Definition add_flow_bulk_enforces_batch_count_cap : Test :=
  do? refused (add_flow_bulk (flow_service_full 10 1000 2) [leaf "a"; leaf "b"; leaf "c"])
        InvalidArgument in
  do? jobs_left 0 in
  refused (add_flow_bulk (flow_service_full 10 1000 2) []) InvalidArgument.
Definition add_flow_bulk_rejects_preexisting_key_and_rolls_back : Test :=
  do? add "pre" "pk" in
  do? refused (add_flow_bulk flow_service
        [parent "r1" [leaf "ok"]; parent "r2" [keyed "pre" "pk"]]) FailedPrecondition in
  jobs_left 1.

(** ** AddFlowMerge *)
Definition merge (l : FlowLimits) (root : FlowJob) (cs : list FlowJob)
  : M Status AddFlowMergeResponse :=
  add_flow_merge l (Some (with_children root cs)).

Definition add_flow_merge_attaches_children_and_regates_target : Test :=
  let? created := add_flow flow_service (Some (keyed "target" "jobkey")) in
  let target := fr_root_id created in
  do? row_is target (λ j, is_state (j_state j) Waiting) in
  let? before_gauge := read_metric flow_waiting_children in
  let? before_merges := read_metric flow_merges in
  let? resp := merge flow_service (keyed "target" "jobkey") [leaf "newA"; leaf "newB"] in
  do? assert (String.eqb (mr_parent_id resp) target) in
  do? assert (length (mr_attached resp) =? 2)%nat in
  do? each (λ n, assert (String.eqb (fn_parent_id n) target && (fn_depth n =? 1)
                         && is_state (fn_state n) Waiting)) (mr_attached resp) in
  do? gate_is target WaitingChildren 2 in
  do? meter_is flow_waiting_children (before_gauge + 1) in
  do? meter_is flow_merges (before_merges + 1) in
  do? meter_is flow_merge_nodes_total 2 in
  let? new_a := node_id_merge resp "newA" in
  row_is new_a (λ j, bool_decide (j_tree_id j = Some target)).

Definition add_flow_merge_onto_waiting_children_target_keeps_state : Test :=
  let? created := add_flow flow_service
    (Some (with_children (keyed "target" "jk") [leaf "origChild"])) in
  let target := fr_root_id created in
  do? row_is target (λ j, is_state (j_state j) WaitingChildren) in
  let? before_gauge := read_metric flow_waiting_children in
  let? _ := merge flow_service (keyed "target" "jk") [leaf "newA"] in
  do? gate_is target WaitingChildren 2 in
  meter_is flow_waiting_children before_gauge.

(** A job is claimed and completed; its id. *)
Definition next_done : M Status string :=
  let? done := claim_and_complete in
  match done with Some id => mret id | None => fail (mkStatus Internal "nothing to claim") end.
Definition add_flow_merge_parent_released_after_all_children_complete : Test :=
  let? created := add_flow flow_service
    (Some (with_children (keyed "target" "jk") [leaf "origChild"])) in
  let target := fr_root_id created in
  let? _ := merge flow_service (keyed "target" "jk") [leaf "newA"] in
  let? first := next_done in
  do? assert (negb (String.eqb first target)) in
  do? row_is target (λ j, is_state (j_state j) WaitingChildren) in
  let? second := next_done in
  do? assert (negb (String.eqb second target)) in
  do? gate_is target Waiting 0 in
  let? third := next_done in
  do? assert (String.eqb third target) in
  let? rest := claim_and_complete in
  do? assert (bool_decide (rest = None)) in
  do? jobs_left 0 in
  history_state target Completed.

Definition add_flow_merge_locate_and_validation_errors : Test :=
  do? refused (merge flow_service (keyed "nope" "missingkey") [leaf "x"]) NotFound in
  do? refused (add_flow_merge flow_service (Some (parent "t" [leaf "x"]))) InvalidArgument in
  refused (merge flow_service (keyed "t" "k") []) InvalidArgument.

Definition add_flow_merge_rejects_active_and_terminal_targets : Test :=
  let? _ := add_flow flow_service (Some (keyed "active" "ak")) in
  let? claimed := claim in
  do? assert (n_found claimed) in
  do? refused (merge flow_service (keyed "active" "ak") [leaf "x"]) FailedPrecondition in
  let? _ := add_flow flow_service (Some (keyed "done" "dk")) in
  let? job := claim in
  do? complete_with_result (n_id job) [] in
  refused (merge flow_service (keyed "done" "dk") [leaf "y"]) FailedPrecondition.

Definition add_flow_merge_rejects_nonroot_existing_key : Test :=
  let? _ := add_flow flow_service (Some (keyed "target" "tk")) in
  do? add "childX" "ck" in
  do? refused (merge flow_service (keyed "target" "tk") [keyed "childX" "ck"]) FailedPrecondition in
  do? counts (λ j, String.eqb (j_name j) "target") 1 in
  let? target := first_id "target" in
  gate_is target Waiting 0.

(** The two services of the test are two runs. *)
Definition add_flow_merge_enforces_depth_cap : Test :=
  let service := flow_service_with_caps 2 1000 in
  let? _ := add_flow service (Some (keyed "t" "k")) in
  do? refused (merge service (keyed "t" "k") [parent "c1" [parent "c2" [leaf "c3"]]])
        InvalidArgument in
  let? target := first_id "t" in
  gate_is target Waiting 0.
Definition add_flow_merge_enforces_size_cap : Test :=
  let service := flow_service_with_caps 10 2 in
  let? _ := add_flow service (Some (keyed "t" "k")) in
  do? refused (merge service (keyed "t" "k") [leaf "a"; leaf "b"]) InvalidArgument in
  jobs_left 1.

Definition add_flow_merge_rejects_within_request_duplicate_key : Test :=
  let? _ := add_flow flow_service (Some (keyed "t" "k")) in
  do? refused (merge flow_service (keyed "t" "k") [keyed "dup" "d"; keyed "dup" "d"])
        InvalidArgument in
  jobs_left 1.

Definition all : list Test :=
  [add_flow_creates_the_whole_tree_atomically; waiting_children_parents_are_never_claimed;
   completing_children_releases_parents_bottom_up; pending_children_decrements_exactly_once;
   fail_parent_on_failure_cascades_to_root_while_siblings_continue;
   fail_parent_cascades_through_flagged_ancestors_only; unflagged_failure_leaves_parent_blocked;
   get_children_values_returns_completed_child_results; flow_depth_cap_rejects_and_rolls_back;
   flow_nodes_cap_rejects_and_rolls_back; add_flow_rejects_replayed_idempotency_key;
   add_flow_bulk_creates_all_trees; add_flow_bulk_rolls_back_whole_batch_on_cap_violation;
   add_flow_bulk_rejects_cross_tree_key_collision; add_flow_bulk_enforces_batch_count_cap;
   add_flow_bulk_rejects_preexisting_key_and_rolls_back;
   add_flow_merge_attaches_children_and_regates_target;
   add_flow_merge_onto_waiting_children_target_keeps_state;
   add_flow_merge_parent_released_after_all_children_complete;
   add_flow_merge_locate_and_validation_errors;
   add_flow_merge_rejects_active_and_terminal_targets;
   add_flow_merge_rejects_nonroot_existing_key; add_flow_merge_enforces_depth_cap;
   add_flow_merge_enforces_size_cap; add_flow_merge_rejects_within_request_duplicate_key].
End FlowTests.

(** The tests of the flows pass on the model. *)
Theorem flow_tests_pass : forallb passes FlowTests.all = true.
Proof. by vm_compute. Qed.
