(* ===== verification/EnqueueSuite.v ===== *)
(** * The repository's tests, run on the model: enqueueing

    The tests of src/enqueue_tests.rs and src/ancestry_tests.rs, which drive the service
    through its handlers, as runs of the model.  The sixteen concurrent calls of one test
    come in the order in which they get the writer's lock; a new service on the file of an
    earlier one is a restart; and a trigger that makes a statement fail is an environment in
    which that statement fails. *)
From Stdlib Require Import Ascii String.
From Stdlib Require Import Strings.Byte.
From Stdlib Require Import SpecFloat.
From S2P Require Import Prelude Text Query F64 Scheduling Db Migrations Pressure Telemetry Broker.
From S2P Require Import Lifecycle RateLimit Ingress Enqueue Leases Claim Finish Flow FlowTree.
From S2P Require Import FlowSim Retention Schedulers Config Backup System Examples Suite FlowSuite.
Local Open Scope string_scope.
Local Open Scope Z_scope.
#[local] Existing Instance steady_env.

(** A stand-in for prost that writes every field. *)
Definition field_text (r : AddJobRequest) : string :=
  let meta := default (mkMeta "" "" 0) (q_metadata r) in
  String.concat "," [q_name r; fmt_Z (q_priority r); m_parent_id meta; m_trace_id meta;
    fmt_Z (m_execution_depth meta); fmt_Z (q_max_attempts r); fmt_Z (q_delay_ms r);
    q_rate_limit_facet r; fmt_Z (q_retry_backoff_ms r); fmt_Z (q_retry_backoff_max_ms r);
    q_idempotency_key r; if q_release_on_finish r then "1" else "0"].
#[local] Instance text_prost : Prost := λ r,
  (list_byte_of_string (field_text r) ++ [x00] ++ q_payload r)%list.

Definition bytes_of : string → bytes := list_byte_of_string.
Definition no_job : AddJobRequest := mkReq "" [] 0 None 0 0 "" 0 0 "" f64_zero false.
(** A handler's call that must succeed. *)
Definition succeeds {A} (m : M Status A) : Test := let? _ := m in mret tt.
Fixpoint times (n : nat) (t : Test) : Test :=
  match n with O => mret tt | S n => do? t in times n t end.

(** ** src/enqueue_tests.rs *)
Module EnqueueTests.
Definition input : AddJobRequest :=
  no_job <| q_name := "invoices" |> <| q_payload := bytes_of "invoice-123" |>
         <| q_idempotency_key := "generate:123:v1" |>.
Definition service : Limits := mkLimits 10 0.
Definition add (req : AddJobRequest) : M Status AddJobResponse := enqueue service req.
Definition add_bulk (reqs : list AddJobRequest) : M Status (list AddJobResponse) :=
  enqueue_bulk service reqs.
Definition receipts_left (n : nat) : Test :=
  let? k := sql_count (λ d, size (enqueue_receipts d)) in assert (k =? n)%nat.
Definition nth_metric (l : Metrics → list Z) (i : nat) (m : Metrics) : Z := default 0 (l m !! i).

Definition concurrent_enqueues_create_one_job_and_receipt : Test :=
  let? rs := fold_m (λ rs _, let? r := add input in mret (r :: rs)) [] (seq 0 16) in
  do? assert (bool_decide (length (remove_dups (rp_id <$> rs)) = 1%nat)) in
  do? assert (bool_decide (length (base.filter (λ r, rp_replayed r = false) rs) = 1%nat)) in
  do? meter_is (nth_metric states 0) 1 in
  do? meter_is (nth_metric events 0) 1 in
  do? meter_is Telemetry.enqueue_replays 15 in
  meter_is enqueue_receipts_gauge 1.

Definition changed : list AddJobRequest :=
  [input <| q_payload ::= λ p, (p ++ [x00])%list |>; input <| q_priority := 1 |>;
   input <| q_delay_ms := 1 |>; input <| q_max_attempts := 4 |>; input <| q_retry_backoff_ms := 1 |>;
   input <| q_retry_backoff_max_ms := 60001 |>; input <| q_rate_limit_facet := "tenant" |>;
   input <| q_metadata := Some (mkMeta "" "trace" 0) |>;
   input <| q_metadata := Some (mkMeta "" "" 1) |>].
Fixpoint repeated (n : nat) (s : string) : string :=
  match n with O => "" | S n => s ++ repeated n s end.
Definition e_acute : string := String (ascii_of_nat 195) (String (ascii_of_nat 169) "").

Definition conflicts_cover_payload_and_options_but_defaults_are_normalized : Test :=
  let? original := add input in
  let? normalized := add (input <| q_max_attempts := 3 |> <| q_retry_backoff_max_ms := 60000 |>
                                <| q_metadata := Some default_metadata |>) in
  do? assert (String.eqb (rp_id normalized) (rp_id original)) in
  do? each (λ req, refused (add req) AlreadyExists) changed in
  let? other_queue := add (input <| q_name := "other" |>) in
  do? assert (negb (String.eqb (rp_id other_queue) (rp_id original))) in
  let no_key := input <| q_idempotency_key := "" |> in
  let? a := add no_key in
  let? b := add no_key in
  do? assert (negb (String.eqb (rp_id a) (rp_id b))) in
  do? each (λ key, refused (add (input <| q_idempotency_key := key |>)) InvalidArgument)
        [" "; repeated 257 "x"; repeated 129 e_acute] in
  meter_is Telemetry.enqueue_conflicts 9.

Definition jitter_of (x : f64) : AddJobRequest :=
  input <| q_idempotency_key := "" |> <| q_retry_jitter := x |>.
Definition retry_jitter_out_of_range_is_rejected_and_zero_is_default : Test :=
  do? each (λ x, refused (add (jitter_of x)) InvalidArgument)
        [SchedulingTests.milli 1500; SchedulingTests.milli (-100); S754_nan] in
  do? each (λ x, succeeds (add (jitter_of x))) [f64_zero; f64_one] in
  do? jobs_left 2 in
  do? counts (λ j, bool_decide (j_retry_jitter j = f64_zero)) 1 in
  counts (λ j, bool_decide (j_retry_jitter j = f64_one)) 1.

(** A new service on the same file. *)
Definition reopen : Test := λ w, (Ok tt, restart sv0 w).
Definition claim : M Status GetNextJobResponse := MainTests.claim [].
Definition receipt_survives_completion_and_restart_without_rescheduling : Test :=
  let? original := add input in
  let? job := claim in
  do? succeeds (complete_job (n_id job) "worker" 1 []) in
  do? reopen in
  let? replay := add input in
  do? assert (String.eqb (rp_id replay) (rp_id original) && is_state (rp_state replay) Waiting
              && rp_replayed replay) in
  let? next := claim in
  do? assert (negb (n_found next)) in
  meter_is enqueue_receipts_gauge 1.

Definition receipt_insert_failure_rolls_back_job_and_metrics `{Env} : Test :=
  do? refused (enqueue service input) Internal in
  do? meter_is (nth_metric states 0) 0 in
  do? jobs_left 0 in
  do? receipts_left 0 in
  let? r := enqueue service input in
  assert (negb (rp_replayed r)).

(** ** Ingress limits *)
Definition facet_req (name facet : string) : AddJobRequest :=
  no_job <| q_name := name |> <| q_payload := bytes_of name |> <| q_rate_limit_facet := facet |>.
Definition set_ingress (facet : string) (max_jobs window_ms : Z) : Test :=
  succeeds (ingress_upsert (mkUpsertRule facet max_jobs window_ms)).
Definition ingress_estimate (facet : string) (n : Z) : Test :=
  let? status := ingress_status facet in assert (is_estimated_count status =? n).

Definition ingress_admits_up_to_limit_then_rejects_and_counts_metric : Test :=
  do? set_ingress "tenant" 2 60000 in
  do? succeeds (add (facet_req "a" "tenant")) in
  do? succeeds (add (facet_req "b" "tenant")) in
  do? refused (add (facet_req "c" "tenant")) ResourceExhausted in
  meter_is ingress_rejections 1.
Definition ingress_facet_without_rule_is_unrestricted : Test :=
  do? each (λ i, succeeds (add (facet_req ("j" ++ pretty i) "free"))) (seq 0 50) in
  let? status := ingress_status "free" in
  assert (negb (is_rule_exists status)).
Definition ingress_upsert_resets_usage : Test :=
  do? set_ingress "t" 1 60000 in
  do? succeeds (add (facet_req "a" "t")) in
  do? refused (add (facet_req "b" "t")) ResourceExhausted in
  do? set_ingress "t" 1 60000 in
  succeeds (add (facet_req "c" "t")).
Definition ingress_delete_removes_rule : Test :=
  do? set_ingress "t" 1 60000 in
  do? succeeds (add (facet_req "a" "t")) in
  do? refused (add (facet_req "b" "t")) ResourceExhausted in
  let? deleted := ingress_delete "t" in
  do? assert deleted in
  succeeds (add (facet_req "c" "t")).
Definition ingress_max_jobs_zero_pauses : Test :=
  do? set_ingress "t" 0 60000 in
  refused (add (facet_req "a" "t")) ResourceExhausted.
Definition ingress_replay_does_not_consume_quota : Test :=
  do? set_ingress "t" 1 60000 in
  let keyed := facet_req "a" "t" <| q_idempotency_key := "dedup:1" |> in
  let? r := add keyed in
  do? assert (negb (rp_replayed r)) in
  do? ingress_estimate "t" 1 in
  do? times 5 (let? r := add keyed in assert (rp_replayed r)) in
  ingress_estimate "t" 1.
Definition ingress_admissions_resume_after_window_elapses : Test :=
  do? set_ingress "t" 1 60000 in
  do? succeeds (add (facet_req "a" "t")) in
  do? refused (add (facet_req "b" "t")) ResourceExhausted in
  do? sql_exec (λ d, d <| ingress_limit_counters ::= fmap (λ b,
        mkBucket (b_start b - 180000) (b_current b) (b_previous b)) |>) in
  succeeds (add (facet_req "c" "t")).

(** ** Bulk *)
Definition bulk_happy_path_inserts_all_jobs_in_order : Test :=
  let delayed i := negb (Nat.even i) in
  let request i :=
    no_job <| q_name := "job-" ++ pretty i |> <| q_payload := bytes_of ("payload-" ++ pretty i) |>
           <| q_delay_ms := if delayed i then 1000 else 0 |> in
  let? responses := add_bulk (request <$> seq 0 100) in
  do? assert (bool_decide (length responses = 100%nat)) in
  do? assert (bool_decide (NoDup (rp_id <$> responses))) in
  do? each (λ '(i, r), assert (negb (rp_replayed r)
        && is_state (rp_state r) (if delayed i then Delayed else Waiting)))
        (zip (seq 0 100) responses) in
  do? jobs_left 100 in
  counts (λ j, is_state (j_state j) Delayed) 50.

Definition bulk_empty_and_oversized_are_rejected : Test :=
  do? refused (add_bulk []) InvalidArgument in
  do? refused (add_bulk (replicate (Z.to_nat (MAX_BULK_BATCH_SIZE + 1)) (no_job <| q_name := "x" |>))) InvalidArgument in
  jobs_left 0.

Definition bulk_rolls_back_entirely_when_one_job_is_rejected : Test :=
  let request i :=
    no_job <| q_name := "job-" ++ pretty i |> <| q_payload := bytes_of ("p-" ++ pretty i) |> in
  let requests :=
    alter (λ r, r <| q_metadata := Some (mkMeta "does-not-exist" "" 0) |>) 2%nat
      (request <$> seq 0 5) in
  let? r := attempt (add_bulk requests) in
  do? assert (match (r : result Status _) with
              | Err s => bool_decide (code s = FailedPrecondition)
                         && String.prefix "bulk job 2:" (message s)
              | Ok _ => false
              end) in
  do? jobs_left 0 in
  let? k := sql_count (λ d, length (rows_where (λ _ r, String.eqb (rj_kind r) "parent_not_found")
                                      (enqueue_rejections d))) in
  assert (k =? 1)%nat.

Definition invoice (key : string) : AddJobRequest :=
  no_job <| q_name := "invoices" |> <| q_idempotency_key := key |>.
Definition bulk_intra_batch_duplicate_replays_within_one_transaction : Test :=
  let job := invoice "dedup:1" <| q_payload := bytes_of "same-bytes" |> in
  let? responses := add_bulk [job; job] in
  do? assert (bool_decide (rp_replayed <$> responses = [false; true])) in
  do? assert (bool_decide (length (remove_dups (rp_id <$> responses)) = 1%nat)) in
  do? jobs_left 1 in
  receipts_left 1.
Definition bulk_intra_batch_conflict_rolls_back_whole_batch : Test :=
  let first := invoice "dedup:1" <| q_payload := bytes_of "original" |> in
  do? refused (add_bulk [first; first <| q_payload := bytes_of "different" |>]) AlreadyExists in
  do? jobs_left 0 in
  receipts_left 0.

Definition release_on_finish_requires_an_idempotency_key : Test :=
  do? refused (add (invoice "" <| q_release_on_finish := true |>)) InvalidArgument in
  jobs_left 0.
Definition release_on_finish_flag_is_part_of_receipt_match : Test :=
  let req := input <| q_release_on_finish := true |> in
  let? original := add req in
  let? again := add req in
  do? assert (String.eqb (rp_id again) (rp_id original)) in
  refused (add (req <| q_release_on_finish := false |>)) AlreadyExists.
Definition release_flag (key : string) : M Status (option bool) :=
  map_err internal (query (λ d, rc_release_on_finish <$> enqueue_receipts d !! ("invoices", key))).
Definition bulk_persists_release_on_finish_flag_per_job : Test :=
  let? responses := add_bulk
    [invoice "released:1" <| q_release_on_finish := true |>; invoice "retained:1"] in
  do? assert (length responses =? 2)%nat in
  let? released := release_flag "released:1" in
  do? assert (bool_decide (released = Some true)) in
  let? retained := release_flag "retained:1" in
  assert (bool_decide (retained = Some false)).

Definition all : list Test :=
  [concurrent_enqueues_create_one_job_and_receipt;
   conflicts_cover_payload_and_options_but_defaults_are_normalized;
   retry_jitter_out_of_range_is_rejected_and_zero_is_default;
   receipt_survives_completion_and_restart_without_rescheduling;
   ingress_admits_up_to_limit_then_rejects_and_counts_metric;
   ingress_facet_without_rule_is_unrestricted; ingress_upsert_resets_usage;
   ingress_delete_removes_rule; ingress_max_jobs_zero_pauses;
   ingress_replay_does_not_consume_quota; ingress_admissions_resume_after_window_elapses;
   bulk_happy_path_inserts_all_jobs_in_order; bulk_empty_and_oversized_are_rejected;
   bulk_rolls_back_entirely_when_one_job_is_rejected;
   bulk_intra_batch_duplicate_replays_within_one_transaction;
   bulk_intra_batch_conflict_rolls_back_whole_batch;
   release_on_finish_requires_an_idempotency_key;
   release_on_finish_flag_is_part_of_receipt_match;
   bulk_persists_release_on_finish_flag_per_job].
End EnqueueTests.

(** ** src/ancestry_tests.rs *)
Module AncestryTests.
Definition service_with (max_chain_size : Z) : Limits := mkLimits 10 max_chain_size.
Definition job (name : string) : AddJobRequest :=
  no_job <| q_name := name |> <| q_payload := bytes_of "x" |>.
Definition meta (parent_id trace_id : string) (depth : Z) : option JobMetadata :=
  Some (mkMeta parent_id trace_id depth).
(** A job added to a lineage; its id. *)
Definition add_under (max_chain_size : Z) (name parent_id trace_id : string) (depth : Z)
  : M Status string :=
  let? r := enqueue (service_with max_chain_size)
              (job name <| q_metadata := meta parent_id trace_id depth |>) in
  mret (rp_id r).
Definition read_trace (id : string) : M Status (string * Z) :=
  let? row := map_err internal (query (λ d, jobs d !! id)) in
  match row with
  | Some j => mret (j_trace_id j, j_execution_depth j)
  | None => fail (mkStatus Internal "no row")
  end.
Definition lineage_is (id trace : string) (depth : Z) : Test :=
  let? r := read_trace id in assert (String.eqb r.1 trace && (r.2 =? depth)).
(** A refusal: its code, and a text its message contains. *)
Definition refused_saying {A} (m : M Status A) (c : Code) (text : string) : Test :=
  let? r := attempt m in
  assert (match (r : result Status A) with
          | Err s => bool_decide (code s = c) && str_contains text (message s)
          | Ok _ => false
          end).

Definition valid_parent_with_correct_depth_succeeds_and_inherits_trace : Test :=
  let? root := add_under 0 "emails" "" "" 0 in
  let? '(root_trace, root_depth) := read_trace root in
  do? assert ((root_depth =? 0) && negb (is_empty root_trace)) in
  let? child := add_under 0 "emails" root "spoofed-trace" 1 in
  do? lineage_is child root_trace 1 in
  meter_is ancestry_rejections 0.
Definition inconsistent_depth_is_rejected : Test :=
  let? root := add_under 0 "emails" "" "" 0 in
  do? each (λ bad_depth, refused_saying (add_under 0 "emails" root "" bad_depth) InvalidArgument
                           "execution_depth") [2; 7] in
  meter_is ancestry_rejections 2.
Definition missing_parent_is_rejected : Test :=
  do? refused_saying (add_under 0 "emails" "does-not-exist" "" 1) FailedPrecondition "parent" in
  meter_is ancestry_rejections 1.
Definition parentless_enqueue_is_unchanged : Test :=
  let? r := enqueue (service_with 0) (job "emails") in
  let? '(trace, depth) := read_trace (rp_id r) in
  do? assert ((depth =? 0) && negb (is_empty trace)) in
  meter_is ancestry_rejections 0.
Definition parent_resolved_from_history_validates : Test :=
  let? root := add_under 0 "emails" "" "hist-trace" 0 in
  let? claim := get_next_job (mkClaimCfg false LEASE_DURATION_MS) (mkGetNext "w" []) in
  do? succeeds (complete_job (n_id claim) "w" 1 []) in
  let? child := add_under 0 "emails" root "" 1 in
  lineage_is child "hist-trace" 1.
Definition chain_quarantine_bounds_a_lineage : Test :=
  let? root := add_under 3 "fanout" "" "" 0 in
  let? c1 := add_under 3 "fanout" root "" 1 in
  let? _ := add_under 3 "fanout" c1 "" 2 in
  do? refused_saying (add_under 3 "fanout" c1 "" 2) ResourceExhausted "chain quarantined" in
  do? succeeds (add_under 3 "fanout" "" "" 0) in
  meter_is chain_quarantines 1.
Definition chain_cap_zero_disables_quarantine : Test :=
  do? times 50 (succeeds (add_under 0 "fanout" "" "shared" 0)) in
  meter_is chain_quarantines 0.
Definition omitted_depth_is_derived_from_parent_and_inherits_trace : Test :=
  let? root := add_under 0 "emails" "" "" 0 in
  let? '(root_trace, _) := read_trace root in
  let? child := add_under 0 "emails" root "" 0 in
  do? lineage_is child root_trace 1 in
  meter_is ancestry_rejections 0.
(** A chain of jobs, each under the one before; the last one. *)
Definition chain (depths : list Z) (root : string) : M Status string :=
  fold_m (λ parent depth, add_under 0 "chain" parent "" depth) root depths.
Definition derived_depth_trips_circuit_breaker : Test :=
  let? root := add_under 0 "chain" "" "" 0 in
  let? parent := chain (Z.of_nat <$> seq 1 10) root in
  let? '(_, parent_depth) := read_trace parent in
  do? assert (parent_depth =? 10) in
  refused_saying (add_under 0 "chain" parent "" 0) ResourceExhausted "Circuit breaker tripped".
Definition multi_level_derivation_increments_and_shares_trace : Test :=
  let? root := add_under 0 "chain" "" "" 0 in
  let? '(root_trace, _) := read_trace root in
  let? _ := fold_m (λ parent expected_depth,
              let? child := add_under 0 "chain" parent "" 0 in
              do? lineage_is child root_trace expected_depth in
              mret child) root [1; 2; 3; 4] in
  mret tt.

Definition read_rejections : M Status (list RejRow) :=
  map_err internal (query (λ d,
    (order_by (λ r : Z * RejRow, ([r.1], "")) (map_to_list (enqueue_rejections d))).*2)).
Definition circuit_breaker_rejection_is_durably_recorded_with_lineage : Test :=
  let? root := add_under 0 "chain" "" "" 0 in
  let? parent := chain (replicate 10 0) root in
  let? before := sql_count (λ d, size (jobs d)) in
  do? refused_saying (add_under 0 "chain" parent "" 0) ResourceExhausted
        "Circuit breaker tripped" in
  do? jobs_left before in
  let? rows := read_rejections in
  do? assert (match rows with
              | [r] => String.eqb (rj_kind r) "circuit_breaker" && String.eqb (rj_name r) "chain"
                       && bool_decide (rj_trace_id r ≠ None)
                       && bool_decide (rj_parent_id r = Some parent)
              | _ => false
              end) in
  meter_is (λ m, match position "circuit_breaker" REJECTION_KINDS with
                 | Some i => default 0 (enqueue_rejections_by_kind m !! i)
                 | None => 0
                 end) 1.
Definition missing_parent_rejection_is_durably_recorded : Test :=
  do? refused (add_under 0 "emails" "does-not-exist" "" 0) FailedPrecondition in
  do? jobs_left 0 in
  let? rows := read_rejections in
  assert (match rows with
          | [r] => String.eqb (rj_kind r) "parent_not_found" && String.eqb (rj_name r) "emails"
                   && bool_decide (rj_parent_id r = Some "does-not-exist")
          | _ => false
          end).

Definition all : list Test :=
  [valid_parent_with_correct_depth_succeeds_and_inherits_trace; inconsistent_depth_is_rejected;
   missing_parent_is_rejected; parentless_enqueue_is_unchanged;
   parent_resolved_from_history_validates; chain_quarantine_bounds_a_lineage;
   chain_cap_zero_disables_quarantine; omitted_depth_is_derived_from_parent_and_inherits_trace;
   derived_depth_trips_circuit_breaker; multi_level_derivation_increments_and_shares_trace;
   circuit_breaker_rejection_is_durably_recorded_with_lineage;
   missing_parent_rejection_is_durably_recorded].
End AncestryTests.

(** ** All of them *)
Definition enqueue_tests : list Test := (EnqueueTests.all ++ AncestryTests.all)%list.
(** The statements of the enqueue in [receipt_insert_failure_rolls_back_job_and_metrics]; the
    two effects between them are new identifiers. *)
Definition enqueue_statements : list nat := [0; 1; 2; 5; 6; 7]%nat.

(** The tests of enqueueing pass on the model; the one that makes an enqueue fail passes
    whichever of its statements fails. *)
Theorem enqueue_tests_pass :
  forallb passes enqueue_tests = true
  ∧ forallb (λ n, passes (@EnqueueTests.receipt_insert_failure_rolls_back_job_and_metrics
                            (MainTests.failing n))) enqueue_statements = true.
Proof. by vm_compute. Qed.
