(* ===== verification/LifecycleSuite.v ===== *)
(** * The repository's tests, run on the model: the life of a job

    The tests of src/lifecycle_tests.rs as runs of the model: acknowledgements, leases and
    recovery, retries and delays, rate limits, fairness, release on finish, results.  Two
    calls that a test joins come in one order; where the test allows both, both are run.  A
    trigger that makes a statement fail is an environment in which the [k]-th effect from
    there fails, for each statement of the handler. *)
From Stdlib Require Import Ascii String.
From Stdlib Require Import Strings.Byte.
From S2P Require Import Prelude Text Query F64 Scheduling Db Pressure Telemetry Broker.
From S2P Require Import Lifecycle RateLimit Ingress Enqueue Leases Claim Finish Flow FlowTree.
From S2P Require Import FlowSim Retention Schedulers Config System Examples Suite FlowSuite.
From S2P Require Import EnqueueSuite.
Local Open Scope string_scope.
Local Open Scope Z_scope.
#[local] Existing Instance steady_env.

Module LifecycleTests.
(** ** The service *)
Definition limits : Limits := mkLimits 10 0.
Definition add (req : AddJobRequest) : M Status string :=
  let? r := enqueue limits req in mret (rp_id r).
Definition setup (max_attempts : Z) : M Status string :=
  add (no_job <| q_name := "email" |> <| q_payload := [x01; x02] |>
              <| q_max_attempts := max_attempts |> <| q_rate_limit_facet := "tenant:a" |>).

Definition poll_as (fairness : bool) : M Status GetNextJobResponse :=
  get_next_job (mkClaimCfg fairness LEASE_DURATION_MS) (mkGetNext "worker" []).
Definition claim : M Status GetNextJobResponse := poll_as false.
Definition claims : Test := succeeds claim.
Definition finds_none : Test := let? job := claim in assert (negb (n_found job)).
Definition claims_attempt (n : Z) : Test := let? job := claim in assert (n_attempts job =? n).
Definition complete (id worker : string) (attempt : Z) : M Status bool :=
  complete_job id worker attempt [].
Definition fail (id worker : string) (attempt : Z) : M Status bool :=
  fail_job id worker ("failure " ++ fmt_Z attempt) attempt false.
Definition fail_non_retryable (id worker : string) (attempt : Z) : M Status bool :=
  fail_job id worker ("failure " ++ fmt_Z attempt) attempt true.
Definition heartbeat (id worker : string) (attempt : Z) : M Status Z :=
  renew_lease LEASE_DURATION_MS (mkHeartbeat id worker attempt).
Definition recovers (n : nat) : Test :=
  let? k := recover_expired DEFAULT_RECOVERY_BATCH_SIZE in assert (k =? n)%nat.
Definition answers (b : bool) (m : M Status bool) : Test := let? r := m in assert (Bool.eqb r b).
Definition reopen : Test := λ w, (Ok tt, restart sv0 w).

(** [UPDATE jobs SET ..] *)
Definition each_job (f : Job → Job) : Test := sql_exec (λ d, d <| jobs ::= fmap f |>).
Definition lease_at (t : option Z) : Test := each_job (λ j, j <| j_lease_expires_at_ms := t |>).
Definition delayed_due : Test :=
  each_job (λ j, if is_state (j_state j) Delayed then j <| j_available_at := Some 0 |> else j).

(** The one job there is, live or archived: state, worker, attempts, error, facet, time. *)
Record Stored := mkStored {
  st_state : JobState; st_worker : option string; st_attempts : Z; st_error : option string;
  st_facet : option string; st_time : Z }.
#[local] Instance Stored_eq_dec : EqDecision Stored.
Proof. solve_decision. Defined.
Definition stored_live (j : Job) : Stored :=
  mkStored (j_state j) (j_worker_id j) (j_attempts j) (j_last_error j) (j_rate_limit_facet j)
    (j_updated_at j).
Definition stored_past (h : HistRow) : Stored :=
  mkStored (h_state h) (h_worker_id h) (h_attempts h) (h_last_error h) (h_rate_limit_facet h)
    (h_finished_at h).
Definition all_stored (d : Db) : list Stored :=
  ((stored_live <$> (map_to_list (jobs d)).*2) ++ (stored_past <$> (map_to_list (job_history d)).*2))%list.
Definition snapshot : M Status Stored :=
  let? l := map_err internal (query all_stored) in
  match l with s :: _ => mret s | [] => Broker.fail (mkStatus Internal "no row") end.
Definition stored_is (P : Stored → bool) : Test := let? s := snapshot in assert (P s).
Definition state_is (state : JobState) : Test := stored_is (λ s, is_state (st_state s) state).
Definition history_count (n : nat) : Test :=
  let? k := sql_count (λ d, size (job_history d)) in assert (k =? n)%nat.
Definition history_result (id : string) (result : option bytes) : Test :=
  let? r := map_err internal (query (λ d, h_result <$> job_history d !! id)) in
  assert (bool_decide (r = Some result)).

(** A handler in which the [k]-th effect from here fails. *)
Definition fails_at (n : nat) : Env := {|
  clock := clock; new_v4 := new_v4; rand_f64 := rand_f64; scan := @scan _;
  fault k := if (k =? n)%nat then Some (SqlFailure "injected") else None;
|}.
Definition injected {A} (k : nat) (m : Env → M Status A) : M Status A := λ w,
  m (fails_at (w_step w + k)) w.

(** ** Acknowledgements *)
Definition completion_replay_requires_the_successful_claim_and_is_mutation_free : Test :=
  let? id := setup 2 in
  do? claims in
  do? succeeds (fail id "worker" 1) in
  do? claims in
  do? succeeds (complete id "worker" 2) in
  do? succeeds (complete id "worker" 2) in
  let? before := map_err internal (query all_stored) in
  do? succeeds (complete id "worker" 2) in
  let? after := map_err internal (query all_stored) in
  do? assert (bool_decide (after = before)) in
  do? finds_none in
  do? each (λ '(worker, attempt), refused (complete id worker attempt) FailedPrecondition)
        [("other", 2); ("worker", 0); ("worker", 1); ("worker", 3)] in
  refused (fail id "worker" 2) FailedPrecondition.
Definition failed_job_cannot_be_completed : Test :=
  let? id := setup 1 in
  do? claims in
  do? succeeds (fail id "worker" 1) in
  refused (complete id "worker" 1) FailedPrecondition.

Definition completion_receipt_survives_reopening_database : Test :=
  let? id := add (no_job <| q_name := "receipt" |>) in
  do? claims in
  do? succeeds (complete id "worker" 0) in
  do? reopen in
  do? succeeds (complete id "worker" 1) in
  do? succeeds (complete id "worker" 0) in
  finds_none.

(** Both orders of the two calls. *)
Definition concurrent_completion_and_failure_commit_only_one_outcome (completed : bool) : Test :=
  let? id := setup 1 in
  do? claims in
  do? (if completed
       then do? succeeds (complete id "worker" 1) in refused (fail id "worker" 1) FailedPrecondition
       else do? succeeds (fail id "worker" 1) in refused (complete id "worker" 1) FailedPrecondition) in
  do? jobs_left 0 in
  history_count 1.

Definition completion_archives_replays_duplicate_and_rejects_conflicting_ack : Test :=
  let? id := setup 3 in
  do? claims in
  do? answers true (complete id "worker" 0) in
  do? stored_is (λ s, is_state (st_state s) Completed && bool_decide (st_worker s = Some "worker")
        && (st_attempts s =? 1) && bool_decide (st_facet s = Some "tenant:a") && (0 <? st_time s)) in
  do? succeeds (complete id "worker" 1) in
  do? refused (fail id "worker" 1) FailedPrecondition in
  finds_none.

Definition retries_exhaust_limit_and_preserve_error : Test :=
  let? id := setup 2 in
  do? claims_attempt 1 in
  do? answers false (fail id "worker" 1) in
  do? stored_is (λ s, is_state (st_state s) Waiting && bool_decide (st_worker s = None)
        && (st_attempts s =? 1) && bool_decide (st_error s = Some "failure 1")) in
  do? refused (fail id "worker" 1) FailedPrecondition in
  do? claims_attempt 2 in
  do? each (λ stale, do? refused (complete id "worker" stale) FailedPrecondition in
                     refused (fail id "worker" stale) FailedPrecondition) [0; 1] in
  do? answers true (fail id "worker" 2) in
  do? stored_is (λ s, is_state (st_state s) Failed && (st_attempts s =? 2)
        && bool_decide (st_error s = Some "failure 2")) in
  do? finds_none in
  refused (fail id "worker" 2) FailedPrecondition.

Definition non_retryable_failure_moves_straight_to_failed_with_attempts_remaining : Test :=
  let? id := setup 3 in
  do? claims_attempt 1 in
  do? answers true (fail_non_retryable id "worker" 1) in
  do? jobs_left 0 in
  let? row := map_err internal (query (λ d, job_history d !! id)) in
  do? assert (match row with
              | Some h => is_state (h_state h) Failed && (h_attempts h =? 1)
              | None => false
              end) in
  finds_none.

Definition retryable_failure_with_attempts_remaining_still_reschedules : Test :=
  let? id := setup 3 in
  do? claims_attempt 1 in
  do? answers false (fail id "worker" 1) in
  stored_is (λ s, is_state (st_state s) Waiting && (st_attempts s =? 1)).

Definition validates_input_state_and_ownership_for_both_handlers : Test :=
  let? id := setup 1 in
  do? each (λ '(job, worker, c), do? refused (complete job worker 1) c in
                                 refused (fail job worker 1) c)
        [("", "worker", InvalidArgument); (id, " ", InvalidArgument); ("missing", "worker", NotFound);
         (id, "worker", FailedPrecondition)] in
  do? claims in
  do? refused (complete id "other" 1) PermissionDenied in
  do? refused (fail id "other" 1) PermissionDenied in
  do? state_is Active in
  answers true (fail id "worker" 1).

Definition terminal_transfer_rolls_back_history_insert_when_delete_fails (failure : bool) (k : nat)
  : Test :=
  let? id := setup 1 in
  let ack E := if failure then @fail_job E id "worker" "failure 1" 1 false
               else @complete_job E id "worker" 1 [] in
  do? claims in
  do? refused (injected k ack) Internal in
  do? state_is Active in
  do? history_count 0 in
  succeeds (ack steady_env).

Definition failed_retry_update_rolls_back_and_completion_preserves_prior_error (k : nat) : Test :=
  let? id := setup 0 in
  do? claims in
  do? refused (injected k (λ E, @fail_job E id "worker" "failure 1" 1 false)) Internal in
  do? stored_is (λ s, is_state (st_state s) Active && bool_decide (st_worker s = Some "worker")
        && bool_decide (st_error s = None)) in
  do? succeeds (fail id "worker" 1) in
  do? claims_attempt 2 in
  do? succeeds (complete id "worker" 2) in
  stored_is (λ s, is_state (st_state s) Completed && (st_attempts s =? 2)
    && bool_decide (st_error s = Some "failure 1")).

(** ** Leases *)
Definition heartbeat_renews_only_valid_claims : Test :=
  let? id := setup 3 in
  let? job := claim in
  do? assert (0 <? n_lease_expires_at_ms job) in
  do? refused (heartbeat id "worker" 0) InvalidArgument in
  do? refused (heartbeat id "other" 1) PermissionDenied in
  do? refused (heartbeat id "worker" 2) FailedPrecondition in
  do? each_job (λ j, j <| j_lease_expires_at_ms ::= fmap (λ t, t - 10000) |>) in
  let? renewed := heartbeat id "worker" 1 in
  do? assert (n_lease_expires_at_ms job <=? renewed) in
  do? recovers 0 in
  do? succeeds (complete id "worker" 1) in
  refused (heartbeat id "worker" 1) FailedPrecondition.

(** The late completion comes before or after the recovery. *)
Definition expiration_requeues_and_fences_previous_attempt (late_first : bool) : Test :=
  let? id := setup 2 in
  let late := refused (complete id "worker" 1) FailedPrecondition in
  do? claims in
  do? lease_at (Some 0) in
  do? refused (heartbeat id "worker" 1) FailedPrecondition in
  do? late in
  do? refused (fail id "worker" 1) FailedPrecondition in
  do? (if late_first then do? late in recovers 1 else do? recovers 1 in late) in
  do? stored_is (λ s, is_state (st_state s) Waiting && bool_decide (st_worker s = None)
        && (st_attempts s =? 1)) in
  do? claims_attempt 2 in
  do? refused (heartbeat id "worker" 1) FailedPrecondition in
  do? late in
  do? lease_at (Some 0) in
  do? recovers 1 in
  do? recovers 0 in
  stored_is (λ s, is_state (st_state s) Failed && (st_attempts s =? 2)
    && bool_decide (st_error s = Some "Worker lease expired")).

Definition recovery_and_heartbeat_serialize_without_losing_renewal (renewal_first : bool) : Test :=
  let? id := setup 2 in
  let renewal := succeeds (heartbeat id "worker" 1) in
  do? claims in
  do? (if renewal_first then do? renewal in recovers 0 else do? recovers 0 in renewal) in
  state_is Active.

Definition recovery_transfer_rolls_back_on_failure (k : nat) : Test :=
  let? _ := setup 1 in
  do? claims in
  do? lease_at (Some 0) in
  do? refused (injected k (λ E, @recover_expired E DEFAULT_RECOVERY_BATCH_SIZE)) Internal in
  do? state_is Active in
  do? recovers 1 in
  state_is Failed.

Definition persisted_leases_survive_reopen_and_legacy_claims_recover : Test :=
  let? id := add (no_job <| q_name := "email" |> <| q_max_attempts := 2 |>) in
  let? job := claim in
  do? reopen in
  do? recovers 0 in
  let? renewed := heartbeat id "worker" 1 in
  do? assert (n_lease_expires_at_ms job <=? renewed) in
  do? lease_at None in
  do? reopen in
  do? recovers 1 in
  do? claims_attempt 2 in
  succeeds (complete id "worker" 2).

(** ** Delays *)
Definition delay_is (P : Z → bool) : Test :=
  let? rows := map_err internal (query (λ d,
    rows_where (λ _ j, is_state (j_state j) Delayed) (jobs d))) in
  assert (match rows with
          | [(_, j)] => match j_available_at j with Some t => P (t - j_updated_at j) | None => false end
          | _ => false
          end).
Definition delayed_jobs_and_backoff_wait_until_due : Test :=
  let? _ := setup 1 in
  do? claims in
  let? id := add (no_job <| q_name := "scheduled" |> <| q_delay_ms := 60000 |> <| q_max_attempts := 3 |>
                         <| q_retry_backoff_ms := 10000 |> <| q_retry_backoff_max_ms := 15000 |>) in
  do? finds_none in
  do? delayed_due in
  let? job := claim in
  do? assert (String.eqb (n_id job) id) in
  do? succeeds (fail id "worker" 1) in
  do? finds_none in
  do? delay_is (λ t, (9900 <=? t) && (t <=? 10000)) in
  do? delayed_due in
  do? claims_attempt 2 in
  do? each_job (λ j, if String.eqb (j_name j) "scheduled"
                     then j <| j_lease_expires_at_ms := Some 0 |> else j) in
  do? succeeds (recover_expired DEFAULT_RECOVERY_BATCH_SIZE) in
  do? finds_none in
  do? delay_is (Z.eqb 15000) in
  do? delayed_due in
  do? claims_attempt 3 in
  answers true (fail id "worker" 3).

Definition invalid_schedules_are_rejected : Test :=
  let? _ := setup 1 in
  each (λ '(delay, base, cap),
    refused (add (no_job <| q_delay_ms := delay |> <| q_retry_backoff_ms := base |>
                         <| q_retry_backoff_max_ms := cap |>)) InvalidArgument)
    [(-1, 0, 0); (0, -1, 0); (0, 0, -1); (0, 100, 50); (i64_max, 0, 0)].

Definition schedule_and_policy_survive_restart : Test :=
  let? id := add (no_job <| q_name := "later" |> <| q_delay_ms := 60000 |>
                         <| q_retry_backoff_ms := 1000 |> <| q_retry_backoff_max_ms := 5000 |>) in
  do? reopen in
  do? finds_none in
  do? row_is id (λ j, (j_retry_backoff_ms j =? 1000) && (j_retry_backoff_max_ms j =? 5000)
        && bool_decide (j_available_at j = Some (j_created_at j + 60000))) in
  do? each_job (λ j, j <| j_available_at := Some 0 |>) in
  let? job := claim in
  assert (n_found job).

(** ** Metrics: the gauges and counters of the page *)
Definition gauge_of (state : JobState) (m : Metrics) : Z :=
  match position (state_name state) STATES with
  | Some i => default 0 (states m !! i)
  | None => 0
  end.
Definition event_count (e : string) (m : Metrics) : Z :=
  match position e EVENTS with Some i => default 0 (events m !! i) | None => 0 end.
Definition metrics_follow_commits_not_rollbacks (k : nat) : Test :=
  let counters m := (states m, events m) in
  let read : M Status _ := λ w, (Ok (counters (w_metrics w)), w) in
  let? id := setup 2 in
  do? meter_is (gauge_of Waiting) 1 in
  do? claims in
  let? before := read in
  do? refused (injected k (λ E, @complete_job E id "worker" 1 [])) Internal in
  let? after := read in
  do? assert (bool_decide (after = before)) in
  do? succeeds (fail id "worker" 1) in
  do? meter_is (event_count "retried") 1 in
  do? claims in
  do? succeeds (complete id "worker" 2) in
  do? meter_is (gauge_of Completed) 1 in
  meter_is (gauge_of Active) 0.

(** ** Rate limits *)
Definition set_rule (facet : string) (max_jobs window : Z) : M Status bool :=
  rate_limit_upsert (mkUpsertRule facet max_jobs window).
Definition add_to (name facet : string) (priority : Z) : Test :=
  succeeds (add (no_job <| q_name := name |> <| q_rate_limit_facet := facet |>
                        <| q_priority := priority |>)).
Definition claims_name (name : string) : Test :=
  let? job := claim in assert (String.eqb (n_name job) name).
Definition usage_is (facet : string) (count : Z) (throttled : bool) : Test :=
  let? s := rate_limit_status facet in
  assert ((rs_current_count s =? count) && Bool.eqb (rs_is_throttled s) throttled).
Definition rate_limits_skip_blocked_facets_and_reset_windows : Test :=
  let? _ := setup 1 in
  do? claims in
  do? succeeds (set_rule "tenant:a" 1 60000) in
  do? add_to "limited" "tenant:a" 0 in
  do? add_to "limited" "tenant:a" 0 in
  do? add_to "other" "tenant:b" 10 in
  do? claims_name "limited" in
  do? claims_name "other" in
  do? finds_none in
  do? usage_is "tenant:a" 1 true in
  do? sql_exec (λ d, d <| rate_limit_counters ::=
        fmap (λ c, mkRateCounter (c_current_count c) 0) |>) in
  do? usage_is "tenant:a" 0 false in
  do? claims_name "limited" in
  meter_is throttled_polls 2.

Definition concurrent_claims_do_not_exceed_quota_and_failed_claim_refunds (k : nat) : Test :=
  let? _ := setup 1 in
  do? claims in
  do? succeeds (set_rule "limited" 2 60000) in
  do? times 8 (add_to "limited" "limited" 0) in
  do? refused (injected k (λ E, @get_next_job E (mkClaimCfg false LEASE_DURATION_MS)
                                  (mkGetNext "worker" []))) Internal in
  let? s := rate_limit_status "limited" in
  do? assert (rs_current_count s =? 0) in
  let? claimed := fold_m (λ n _, let? job := claim in mret (if n_found job then S n else n))
                    0%nat (seq 0 8) in
  assert (claimed =? 2)%nat.

Definition rate_rule_validation_pause_update_and_delete : Test :=
  let? _ := setup 1 in
  do? each (λ '(key, duration), refused (set_rule key 1 duration) InvalidArgument)
        [("", 1000); ("a*", 1000); (" a", 1000); ("a", 0); ("a", i64_max)] in
  do? succeeds (set_rule "tenant:a" 0 1000) in
  do? finds_none in
  do? succeeds (set_rule "tenant:a" 1 60000) in
  let? job := claim in
  do? assert (n_found job) in
  do? answers true (rate_limit_delete "tenant:a") in
  do? answers false (rate_limit_delete "tenant:a") in
  let? s := rate_limit_status "tenant:a" in
  assert (negb (rs_rule_exists s)).

Definition rate_limit_usage_survives_restart_and_rule_update_resets_it : Test :=
  do? succeeds (set_rule "a" 1 60000) in
  do? add_to "one" "a" 0 in
  do? add_to "two" "a" 0 in
  do? claims in
  do? reopen in
  do? finds_none in
  let? s := rate_limit_status "a" in
  do? assert (rs_current_count s =? 1) in
  do? succeeds (set_rule "a" 1 60000) in
  let? job := claim in
  assert (n_found job).

(** ** Fairness *)
Definition older (name : string) : Test :=
  each_job (λ j, j <| j_created_at := if String.eqb (j_name j) name then 1 else 2 |>).
Definition order_is (fairness : bool) (names : list string) : Test :=
  let? served := fold_m (λ l _, let? job := poll_as fairness in mret (l ++ [n_name job])%list)
                   [] names in
  assert (bool_decide (served = names)).
Definition facet_dispatch_keys (keys : list string) : Test :=
  let? l := map_err internal (query (λ d, merge_sort str_le (map_to_list (facet_dispatch d)).*1)) in
  assert (bool_decide (l = keys)).

Definition fairness_rotates_equal_priority_jobs_across_facets : Test :=
  do? times 3 (add_to "a" "tenant:a" 0) in
  do? times 3 (add_to "b" "tenant:b" 0) in
  do? older "a" in
  order_is true ["a"; "b"; "a"; "b"; "a"; "b"].
Definition priority_is_a_hard_tier_over_fairness : Test :=
  do? add_to "a-seed" "tenant:a" 5 in
  do? order_is true ["a-seed"] in
  do? add_to "a-hi" "tenant:a" 0 in
  do? add_to "b-lo" "tenant:b" 5 in
  order_is true ["a-hi"; "b-lo"].
Definition unfaceted_jobs_rotate_as_a_single_tenant : Test :=
  do? times 2 (add_to "u" "" 0) in
  do? times 2 (add_to "a" "tenant:a" 0) in
  do? older "u" in
  order_is true ["u"; "a"; "u"; "a"].
Definition never_served_facet_is_picked_promptly : Test :=
  do? add_to "a-seed" "tenant:a" 0 in
  do? order_is true ["a-seed"] in
  do? add_to "a-old" "tenant:a" 0 in
  do? add_to "new" "tenant:new" 0 in
  do? older "a-old" in
  order_is true ["new"].
Definition rate_limit_blocked_facet_is_skipped_and_takes_no_turn : Test :=
  do? succeeds (set_rule "tenant:a" 0 60000) in
  do? add_to "a" "tenant:a" 0 in
  do? add_to "b" "tenant:b" 0 in
  do? order_is true ["b"] in
  facet_dispatch_keys ["tenant:b"].
Definition fairness_disabled_preserves_priority_fifo_and_writes_nothing : Test :=
  do? times 3 (add_to "a" "tenant:a" 0) in
  do? times 3 (add_to "b" "tenant:b" 0) in
  do? older "a" in
  do? order_is false ["a"; "a"; "a"; "b"; "b"; "b"] in
  facet_dispatch_keys [].

(** ** Release on finish *)
Definition dedup_job (release : bool) (max_attempts : Z) : AddJobRequest :=
  no_job <| q_name := "dedup" |> <| q_payload := [x07] |> <| q_idempotency_key := "singleton:1" |>
         <| q_release_on_finish := release |> <| q_max_attempts := max_attempts |>.
Definition receipt_count (n : nat) : Test :=
  let? k := sql_count (λ d, length (rows_where (λ key _, String.eqb key.2 "singleton:1")
                                      (enqueue_receipts d))) in
  assert (k =? n)%nat.
(** The job enqueued again is a replay of the first one, or a new one. *)
Definition again_is (replayed : bool) (req : AddJobRequest) (first : string) : Test :=
  let? r := enqueue limits req in
  assert (Bool.eqb (rp_replayed r) replayed && Bool.eqb (String.eqb (rp_id r) first) replayed).

Definition release_on_finish_frees_the_slot_on_completion : Test :=
  let? first := add (dedup_job true 3) in
  do? claims in
  do? succeeds (complete first "worker" 1) in
  do? receipt_count 0 in
  do? again_is false (dedup_job true 3) first in
  do? receipt_count 1 in
  meter_is dedup_released_total 1.
Definition retain_default_preserves_receipt_after_completion : Test :=
  let? first := add (dedup_job false 3) in
  do? claims in
  do? succeeds (complete first "worker" 1) in
  do? receipt_count 1 in
  do? again_is true (dedup_job false 3) first in
  meter_is dedup_released_total 0.
Definition release_on_finish_frees_the_slot_on_terminal_failure : Test :=
  let? first := add (dedup_job true 1) in
  do? claims in
  do? succeeds (fail first "worker" 1) in
  do? receipt_count 0 in
  again_is false (dedup_job true 1) first.
Definition release_on_finish_holds_the_slot_across_retry : Test :=
  let? first := add (dedup_job true 2) in
  do? claims in
  do? succeeds (fail first "worker" 1) in
  do? receipt_count 1 in
  again_is true (dedup_job true 2) first.
Definition release_on_finish_frees_the_slot_on_lease_expiry_exhaustion : Test :=
  let? first := add (dedup_job true 1) in
  do? claims in
  do? lease_at (Some 0) in
  do? recovers 1 in
  do? receipt_count 0 in
  do? again_is false (dedup_job true 1) first in
  meter_is dedup_released_total 1.

(** ** Results *)
Definition completion_persists_json_result_and_counts_it : Test :=
  let result := bytes_of "{answer:42}" in
  let? id := setup 3 in
  do? claims in
  do? succeeds (complete_job id "worker" 0 result) in
  do? history_result id (Some result) in
  do? state_is Completed in
  meter_is results_stored 1.
Definition oversize_result_is_rejected_and_job_stays_active : Test :=
  let? id := setup 3 in
  do? claims in
  do? refused (complete_job id "worker" 0 (replicate (S (Z.to_nat MAX_RESULT_BYTES)) x00))
        InvalidArgument in
  do? state_is Active in
  do? history_count 0 in
  meter_is results_stored 0.
Definition empty_result_is_stored_as_null_and_not_counted : Test :=
  let? id := setup 3 in
  do? claims in
  do? succeeds (complete_job id "worker" 0 []) in
  do? history_result id None in
  meter_is results_stored 0.
Definition failed_job_stores_no_result : Test :=
  let? id := setup 1 in
  do? claims in
  do? answers true (fail_non_retryable id "worker" 1) in
  history_result id None.
Definition replayed_completion_keeps_the_original_result : Test :=
  let result := bytes_of "{v:1}" in
  let? id := setup 3 in
  do? claims in
  do? succeeds (complete_job id "worker" 1 result) in
  do? succeeds (complete_job id "worker" 1 (bytes_of "different")) in
  do? history_result id (Some result) in
  meter_is results_stored 1.

(** The tests without a failure, then those with one, for each statement of the handler; the
    sixth effect of a retry is the random number of its jitter. *)
Definition quiet : list Test :=
  [completion_replay_requires_the_successful_claim_and_is_mutation_free;
   failed_job_cannot_be_completed; completion_receipt_survives_reopening_database;
   concurrent_completion_and_failure_commit_only_one_outcome true;
   concurrent_completion_and_failure_commit_only_one_outcome false;
   completion_archives_replays_duplicate_and_rejects_conflicting_ack;
   retries_exhaust_limit_and_preserve_error;
   non_retryable_failure_moves_straight_to_failed_with_attempts_remaining;
   retryable_failure_with_attempts_remaining_still_reschedules;
   validates_input_state_and_ownership_for_both_handlers; heartbeat_renews_only_valid_claims;
   expiration_requeues_and_fences_previous_attempt true;
   expiration_requeues_and_fences_previous_attempt false;
   recovery_and_heartbeat_serialize_without_losing_renewal true;
   recovery_and_heartbeat_serialize_without_losing_renewal false;
   persisted_leases_survive_reopen_and_legacy_claims_recover;
   delayed_jobs_and_backoff_wait_until_due; invalid_schedules_are_rejected;
   schedule_and_policy_survive_restart; rate_limits_skip_blocked_facets_and_reset_windows;
   rate_rule_validation_pause_update_and_delete;
   rate_limit_usage_survives_restart_and_rule_update_resets_it;
   fairness_rotates_equal_priority_jobs_across_facets; priority_is_a_hard_tier_over_fairness;
   unfaceted_jobs_rotate_as_a_single_tenant; never_served_facet_is_picked_promptly;
   rate_limit_blocked_facet_is_skipped_and_takes_no_turn;
   fairness_disabled_preserves_priority_fifo_and_writes_nothing;
   release_on_finish_frees_the_slot_on_completion;
   retain_default_preserves_receipt_after_completion;
   release_on_finish_frees_the_slot_on_terminal_failure;
   release_on_finish_holds_the_slot_across_retry;
   release_on_finish_frees_the_slot_on_lease_expiry_exhaustion;
   completion_persists_json_result_and_counts_it; oversize_result_is_rejected_and_job_stays_active;
   empty_result_is_stored_as_null_and_not_counted; failed_job_stores_no_result;
   replayed_completion_keeps_the_original_result].
Definition faulty : list Test :=
  ((terminal_transfer_rolls_back_history_insert_when_delete_fails true <$> seq 0 8)
   ++ (terminal_transfer_rolls_back_history_insert_when_delete_fails false <$> seq 0 8)
   ++ (failed_retry_update_rolls_back_and_completion_preserves_prior_error
         <$> [0; 1; 2; 3; 4; 6; 7]%nat)
   ++ (recovery_transfer_rolls_back_on_failure <$> seq 0 7)
   ++ (metrics_follow_commits_not_rollbacks <$> seq 0 8)
   ++ (concurrent_claims_do_not_exceed_quota_and_failed_claim_refunds <$> seq 0 10))%list.
End LifecycleTests.

(** The tests of the life of a job pass on the model, whichever statement fails. *)
Theorem lifecycle_tests_pass :
  forallb passes LifecycleTests.quiet = true ∧ forallb passes LifecycleTests.faulty = true.
Proof. by vm_compute. Qed.
