(* ===== verification/JobRuns.v ===== *)
(** * Sample runs: jobs

    Runs of the job handlers in the environment of Examples.v that meet the hypotheses of
    the theorems on claims, leases, acknowledgements, enqueueing and quotas. *)
From Stdlib Require Import Ascii String.
From Stdlib Require Import Strings.Byte.
From S2P Require Import Prelude Text Query F64 Scheduling Db Pressure Telemetry Broker.
From S2P Require Import Lifecycle RateLimit Ingress Enqueue Leases Claim Finish Flow FlowTree.
From S2P Require Import FlowSim Retention Schedulers Config System Quotas Fairness Drain Serve Chains.
From S2P Require Import Keys Examples.
Local Open Scope string_scope.
Local Open Scope Z_scope.

(** The row of a live job. *)
Definition no_row : Job :=
  mkJob "" Failed 0 [] None "" 0 0 0 0 0 None None None None None 0 0 f64_zero 0 false None 0.
Definition row_of (w : World) (id : string) : Job := default no_row (jobs (w_db w) !! id).
Lemma row_of_live w id :
  bool_decide (is_Some (jobs (w_db w) !! id)) = true → jobs (w_db w) !! id = Some (row_of w id).
Proof. unfold row_of. by destruct (jobs (w_db w) !! id). Qed.
Lemma row_of_unique w id j : jobs (w_db w) !! id = Some j → j = row_of w id.
Proof. unfold row_of. by intros ->. Qed.
Lemma answer_unique {E A} (m : M E A) w a w1 b w2 :
  m w = (Ok a, w1) → m w = (Ok b, w2) → b = a.
Proof. congruence. Qed.
Lemma row2_live : jobs (w_db world2) !! job1 = Some (row_of world2 job1).
Proof. apply row_of_live. by vm_compute. Qed.
Lemma row4_live : jobs (w_db world4) !! job1 = Some (row_of world4 job1).
Proof. apply row_of_live. by vm_compute. Qed.
Lemma sample_calm w : calm w.
Proof. done. Qed.

(** ** Leases *)
Definition beat : HeartbeatRequest := mkHeartbeat job1 "worker" 1.
Definition beat_expiry : Z := answer 0 (renew_lease 30000 beat) world2.
Lemma beat_run :
  renew_lease 30000 beat world2 = (Ok beat_expiry, after (renew_lease 30000 beat) world2).
Proof. unfold beat_expiry, after. apply answer_run. by vm_compute. Qed.
Lemma heartbeat_extends_own_lease_witness :
  ∃ j lease, jobs (w_db world2) !! job1 = Some j ∧ j_lease_expires_at_ms j = Some lease
             ∧ lease ≤ beat_expiry.
Proof.
  destruct (heartbeat_extends_own_lease _ _ _ _ _ beat_run)
    as (j & lease & Hj & _ & _ & _ & Hl & _ & -> & _).
  exists j, lease. split; [exact Hj|]. split; [exact Hl|apply Z.le_max_l].
Defined.

(** The worker goes silent: time passes while schedulers are listed. *)
Definition world_late : World := Nat.iter 40 (perform sv0 ListJobSchedulers) world2.
Definition recovered1 : nat := answer 0%nat (recover_expired 100) world_late.
Lemma recovered1_run :
  recover_expired 100 world_late = (Ok recovered1, after (recover_expired 100) world_late).
Proof. unfold recovered1, after. apply answer_run. by vm_compute. Qed.
Lemma recovery_pass_witness : recovered1 = 1%nat ∧ Z.of_nat recovered1 ≤ 100.
Proof.
  split; [by vm_compute|].
  apply (recovery_pass 100 world_late (Ok recovered1) (after (recover_expired 100) world_late)).
  - split; by vm_compute.
  - exact recovered1_run.
Defined.

Lemma world_late_reachable : reachable sv0 world_late.
Proof.
  unfold world_late. generalize 40%nat. intros n. induction n as [|n IH].
  - apply world2_reachable.
  - apply (reachable_call sv0 ListJobSchedulers); [exact IH|exact I].
Qed.
Definition world_drained : World := Nat.iter 1 (perform sv0 RecoverTick) world_late.
Lemma recovery_drains_witness :
  expired (clock (w_step world_late)) job1 (row_of world_late job1) = true
  ∧ expired (clock (w_step world_late)) job1 (row_of world_drained job1) = false.
Proof.
  split; [by vm_compute|].
  apply (recovery_drains sv0 1 world_late world_late_reachable (sample_calm _)).
  - intros n m Hnm. simpl. lia.
  - split; by vm_compute.
  - by vm_compute.
  - apply row_of_live. by vm_compute.
Defined.

Lemma backoff_doubles_witness :
  retry_delay 1000 60000 3 = Z.min (1000 * 2 ^ (3 - 1)) 60000
  ∧ retry_delay 1000 60000 3 ≤ retry_delay 1000 60000 (3 + 1) ≤ 60000.
Proof. apply (backoff_doubles 1000 60000 3); [lia|by vm_compute|lia]. Defined.

(** ** Acknowledgements *)
Definition ack_done : Ack := mkAck job1 "worker" 2 None false (Some [x01]).
Definition ack_fail : Ack := mkAck job1 "worker" 1 (Some "boom") false None.
Lemma answer_is {E A} (a0 a : A) (m : M E A) w :
  is_ok (m w).1 = true → answer a0 m w = a → m w = (Ok a, after m w).
Proof. intros Hok <-. by apply answer_run. Qed.
Lemma ack_done_run : finish_job ack_done world4 = (Ok false, after (finish_job ack_done) world4).
Proof. apply (answer_is true); by vm_compute. Qed.
Lemma ack_fail_run : finish_job ack_fail world2 = (Ok false, after (finish_job ack_fail) world2).
Proof. apply (answer_is true); by vm_compute. Qed.

Lemma acknowledgement_fenced_witness :
  ∃ j, jobs (w_db world4) !! job1 = Some j ∧ holds_claim ack_done (clock (S (S (w_step world4)))) j.
Proof.
  destruct (acknowledgement_fenced _ _ _ _ ack_done_run) as [Hc|[(_ & Hn & _) _]]; [exact Hc|].
  discriminate (eq_trans (eq_sym row4_live) Hn).
Defined.
Lemma attempt_settled_witness :
  job_history (w_db (after (finish_job ack_fail) world2)) = job_history (w_db world2)
  ∧ jobs (w_db (after (finish_job ack_done) world4)) !! job1 = None.
Proof.
  split.
  - pose proof (attempt_settled ack_fail world2 false _ (row_of world2 job1) ack_fail_run
                  row2_live ltac:(split; by vm_compute)) as Hs.
    replace (will_retry ack_fail (row_of world2 job1)) with true in Hs by (by vm_compute).
    exact (proj1 (proj2 Hs)).
  - pose proof (attempt_settled ack_done world4 false _ (row_of world4 job1) ack_done_run
                  row4_live ltac:(split; by vm_compute)) as Hs.
    replace (will_retry ack_done (row_of world4 job1)) with false in Hs by (by vm_compute).
    exact (proj1 (proj2 Hs)).
Defined.

Definition world4' : World := perform sv0 (CompleteJob job1 "worker" 2 [x01]) world4.
Lemma complete_run : complete_job job1 "worker" 2 [x01] world4 = (Ok true, world4').
Proof. unfold world4', perform. apply (answer_is false); by vm_compute. Qed.
Definition world7 : World := perform sv0 (AddJob mail) (restart sv0 world4').
Lemma run_4'_7 : rtc (sys_step sv0) world4' world7.
Proof. apply run_call; [|done]. apply rtc_once, SRestart. Qed.
Lemma completion_replay_safe_witness :
  ∃ w, complete_job job1 "worker" 2 [x01] world7 = (Ok true, w) ∧ w_db w = w_db world7.
Proof.
  destruct (completion_replay_safe sv0 world4 job1 "worker" 2 [x01] world4' world7
    world4_reachable) as (w & Hr & Hd & _).
  - lia.
  - exact complete_run.
  - exact run_4'_7.
  - by vm_compute.
  - apply sample_calm.
  - exists w. exact (conj Hr Hd).
Defined.

Lemma poll_finds_work_witness :
  ∃ r w, get_next_job (sv_claim sv0) poll world1 = (Ok r, w) ∧ n_found r = true.
Proof.
  apply (poll_finds_work (sv_claim sv0) poll world1 job1 (row_of world1 job1)
           (sample_calm world1)).
  - by vm_compute.
  - by vm_compute.
  - intros id j Hj _. revert id j Hj.
    apply (bool_decide_unpack (map_Forall (λ _ j, j_attempts j < u32_max) (jobs (w_db world1)))).
    by vm_compute.
  - apply row_of_live. by vm_compute.
  - by vm_compute.
Defined.

(** An urgent job overtakes the first one: the second poll gets it. *)
Definition urgent : AddJobRequest := mkReq "mail" [] 1 None 3 0 "" 0 0 "other" f64_zero false.
Definition world_two : World := perform sv0 (AddJob urgent) world1.
Lemma world_two_reachable : reachable sv0 world_two.
Proof. apply reachable_call; [apply world1_reachable|done]. Qed.
Lemma polls_serve_due_witness :
  j_state (row_of (perform sv0 (GetNextJob poll) world_two) job1) = Waiting
  ∧ ∃ now lease, jobs (w_db (Nat.iter 2 (perform sv0 (GetNextJob poll)) world_two)) !! job1
      = Some (claim_row "worker" (j_attempts (row_of world_two job1) + 1) now lease
                (row_of world_two job1)).
Proof.
  split; [by vm_compute|].
  apply (polls_serve_due sv0 poll 2 world_two world_two_reachable (sample_calm _)).
  - intros n m Hnm. simpl. lia.
  - by vm_compute.
  - by vm_compute.
  - by vm_compute; repeat constructor.
  - apply row_of_live. by vm_compute.
  - by vm_compute.
  - assert (j_rate_limit_facet (row_of world_two job1) = None) as Hf by (by vm_compute).
    unfold unruled. rewrite Hf. intros f Hx. discriminate Hx.
Defined.

(** ** Enqueueing *)
Definition no_response : AddJobResponse := mkResp "" Failed false.
Definition lim0 : Limits := sv_limits sv0.
Definition resp1 : AddJobResponse := answer no_response (enqueue lim0 mail) (initial sv0).
Lemma mail_run : enqueue lim0 mail (initial sv0) = (Ok resp1, world1).
Proof. unfold resp1, world1, perform, after. apply answer_run. by vm_compute. Qed.

(** The same request again, after the job is done, and another one under its key. *)
Definition mail_other : AddJobRequest := mkReq "mail" [x02] 5 None 3 0 "" 0 0 "key" f64_zero false.
Lemma mail_on_wire p : on_wire (mail <| q_payload := p |>).
Proof. by constructor; simpl; unfold u32_max, i64_min, i64_max; try lia. Qed.
Lemma after_run {E A} (m : M E A) w : m w = ((m w).1, after m w).
Proof. unfold after. by destruct (m w). Qed.
Lemma world5_unswept : rtc (unswept sv0) world1 world5.
Proof.
  apply (rtc_l _ world1 world2).
  { exact (UnsweptCall sv0 (GetNextJob poll) world1 eq_refl). }
  apply (rtc_l _ world2 world3).
  { exact (UnsweptCall sv0 (FailJob job1 "worker" "boom" 1 false) world2 eq_refl). }
  apply (rtc_l _ world3 world4).
  { exact (UnsweptCall sv0 (GetNextJob poll) world3 eq_refl). }
  apply (rtc_l _ world4 world5).
  { exact (UnsweptCall sv0 (CompleteJob job1 "worker" 2 []) world4 eq_refl). }
  apply rtc_refl.
Qed.
Lemma enqueue_keys_witness :
  w_db (after (enqueue (sv_limits sv0) mail) world5) = w_db world5
  ∧ w_db (after (enqueue (sv_limits sv0) mail_other) world1) = w_db world1
  ∧ enqueue_receipts (w_db world5) !! (q_name mail, q_idempotency_key mail)
    = enqueue_receipts (w_db world1) !! (q_name mail, q_idempotency_key mail).
Proof.
  destruct (enqueue_keys sv0 mail (initial sv0) resp1 world1 (mail_on_wire []) ltac:(discriminate) mail_run)
    as (Ha & Hb & Hc). cbv beta in Ha, Hb, Hc.
  pose proof (Hc ltac:(by vm_compute) eq_refl world5 world5_unswept) as Hkept.
  split; [|split; [|exact Hkept]].
  - exact (proj1 (Ha world5 _ _ Hkept (after_run (enqueue (sv_limits sv0) mail) world5))).
  - refine (proj1 (Hb mail_other world1 _ _ (mail_on_wire [x02]) eq_refl eq_refl _ eq_refl
      (after_run (enqueue (sv_limits sv0) mail_other) world1))).
    intros [[=] _].
Defined.

Definition batch1 : list AddJobRequest := [mail; mail_other <| q_idempotency_key := "k2" |>].
Definition bulk1 : list AddJobResponse := answer [] (enqueue_bulk lim0 batch1) (initial sv0).
Lemma bulk1_run : enqueue_bulk lim0 batch1 (initial sv0)
                  = (Ok bulk1, after (enqueue_bulk lim0 batch1) (initial sv0)).
Proof. unfold bulk1, after. apply answer_run. by vm_compute. Qed.
Lemma bulk_all_or_nothing_witness :
  length bulk1 = 2%nat
  ∧ Forall2 (created (w_db (initial sv0)) (w_db (after (enqueue_bulk lim0 batch1) (initial sv0))))
      batch1 bulk1.
Proof.
  split; [by vm_compute|]. exact (proj2 (bulk_all_or_nothing _ _ _ _ _ bulk1_run)).
Defined.

(** A job enqueued under the first one. *)
Definition reply : AddJobRequest :=
  mkReq "reply" [] 5 (Some (mkMeta job1 "" 0)) 3 0 "" 0 0 "" f64_zero false.
Definition resp2 : AddJobResponse := answer no_response (enqueue lim0 reply) world1.
Lemma reply_run : enqueue lim0 reply world1 = (Ok resp2, after (enqueue lim0 reply) world1).
Proof. unfold resp2, after. apply answer_run. by vm_compute. Qed.
Lemma enqueue_lineage_witness :
  ∃ j, jobs (w_db (after (enqueue lim0 reply) world1)) = <[rp_id resp2 := j]> (jobs (w_db world1))
       ∧ j_execution_depth j ≤ 10 ∧ default "" (j_parent_id j) = job1.
Proof.
  destruct (enqueue_lineage lim0 reply world1 resp2 _ reply_run)
    as (j & _ & Hj & _ & _ & _ & _ & Hp & _ & Hd & _).
  - by vm_compute.
  - exists j. exact (conj Hj (conj Hd Hp)).
Defined.

(** ** Quotas *)
Definition rule1 : UpsertRuleRequest := mkUpsertRule "tenant" 2 60000.
Definition paid : AddJobRequest := mkReq "paid" [] 1 None 3 0 "tenant" 0 0 "" f64_zero false.
Definition world_rule : World := perform sv0 (UpsertRateLimitRule rule1) (initial sv0).
Definition world_paid : World := perform sv0 (AddJob paid) world_rule.
Definition world_served : World := perform sv0 (GetNextJob poll) world_paid.
Lemma world_served_reachable : reachable sv0 world_served.
Proof.
  apply reachable_call; [|exact I]. apply reachable_call; [|by split; vm_compute].
  apply reachable_call; [apply reachable_initial|]. by split; vm_compute.
Qed.

Definition trace1 : string := j_trace_id (row_of world1 job1).
(** The first job of a lineage, from the start of the broker. *)
Definition entered1 : nat := entered trace1 (initial sv0) world1.
Lemma lineage1_run : lineage_run sv0 trace1 (initial sv0) (0 + entered1) world1.
Proof.
  apply (LineageCall sv0 trace1 (initial sv0) 0 (initial sv0) (AddJob mail)).
  - constructor.
  - simpl. unfold typed, u32_max. simpl. lia.
  - intros [=].
Qed.
Lemma chain_size_capped_witness :
  admitted trace1 (w_db world1) = 1 ∧ admitted trace1 (w_db world1) ≤ 100.
Proof.
  assert (0 < max_chain_size (sv_limits sv0) ≤ i64_max) as Hcap by (by vm_compute).
  destruct (chain_size_capped sv0 trace1 Hcap (initial sv0) (0 + entered1) world1
              (reachable_initial sv0) lineage1_run) as (Hn & _ & Hc).
  split; [|exact Hc]. etransitivity; [exact Hn|]. by vm_compute.
Defined.

Definition no_status : RateLimitStatus := mkRateStatus "" 0 0 0 false false 0.
Definition status1 : RateLimitStatus := answer no_status (rate_limit_status "tenant") world_served.
Lemma status1_run : rate_limit_status "tenant" world_served
                    = (Ok status1, after (rate_limit_status "tenant") world_served).
Proof. unfold status1, after. apply answer_run. by vm_compute. Qed.
Lemma rate_windows_never_exceeded_witness :
  0 ≤ window_used (w_db world_served) "tenant" 1000000 ≤ 2
  ∧ rs_current_count status1 = window_used (w_db world_served) "tenant" (clock (w_step world_served)).
Proof.
  destruct (rate_windows_never_exceeded sv0 world_served world_served_reachable)
    as (Hw & _ & Hs). split.
  - apply (Hw "tenant" (mkRule 2 60000) 1000000). by vm_compute.
  - apply (Hs "tenant" status1 (after (rate_limit_status "tenant") world_served) status1_run).
    by vm_compute.
Defined.

(** ** Fairness: two tenants with two jobs each *)
Definition tenant (f : string) : AddJobRequest := mkReq "mail" [] 1 None 3 0 f 0 0 "" f64_zero false.
Definition world_tenants : World :=
  perform sv0 (AddJobBulk [tenant "a"; tenant "a"; tenant "b"; tenant "b"]) (initial sv0).
Definition world_turns : World := Nat.iter 2 (perform sv0 (GetNextJob poll)) world_tenants.
Definition turn3 : GetNextJobResponse :=
  answer default_next (get_next_job (sv_claim sv0) poll) world_turns.
Definition second_a : string := new_v4 9.
Lemma world_tenants_reachable : reachable sv0 world_tenants.
Proof. apply reachable_call; [apply reachable_initial|]. by repeat constructor. Qed.
Lemma turn3_run : get_next_job (sv_claim sv0) poll world_turns
                  = (Ok turn3, after (get_next_job (sv_claim sv0) poll) world_turns).
Proof. unfold turn3, after. apply answer_run. by vm_compute. Qed.
Lemma world_turns_dispatches : dispatches sv0 world_tenants ["b"; "a"] world_turns.
Proof.
  assert (["b"; "a"] = (option_list (served sv0 (GetNextJob poll) world_tenants)
    ++ option_list (served sv0 (GetNextJob poll) (perform sv0 (GetNextJob poll) world_tenants)) ++ [])%list)
    as -> by (by vm_compute).
  do 2 (apply DCall; [exact I|done|]). apply DDone.
Qed.
Lemma facets_take_turns_witness :
  served sv0 (GetNextJob poll) world_turns = Some "b" ∧ "a" ∈ ["a"].
Proof.
  split; [by vm_compute|].
  apply (facets_take_turns sv0 world_tenants ["b"; "a"] world_turns poll "b" second_a
           (row_of world_turns second_a)) with (xs := []).
  - by vm_compute.
  - exact world_tenants_reachable.
  - exact world_turns_dispatches.
  - by vm_compute.
  - apply row_of_live. by vm_compute.
  - by vm_compute.
  - intros r w j Hr Hj. rewrite (answer_unique _ _ _ _ _ _ turn3_run Hr) in Hj.
    rewrite (row_of_unique _ _ _ Hj). by vm_compute.
  - by vm_compute.
  - reflexivity.
Defined.

Definition world_ingress : World := perform sv0 (UpsertIngressLimitRule rule1) (initial sv0).
(** One submission, and a second one ten seconds into the next minute. *)
Definition world_admitted : World := after (ingress_admit "tenant" 2000000) world_ingress.
Definition admit2 : bool := answer false (ingress_admit "tenant" 2070000) world_admitted.
Lemma admit2_run : ingress_admit "tenant" 2070000 world_admitted
                   = (Ok admit2, after (ingress_admit "tenant" 2070000) world_admitted).
Proof. unfold admit2, after. apply answer_run. by vm_compute. Qed.
Lemma admission_outcome_witness :
  admit2 = true
  ∧ ∃ b, rolled (Some (mkBucket 2000000 1 0)) 2070000 60000 b
         ∧ (2 ^ 49 - 1) * load b 2070000 60000 < 2 ^ 49 * (2 * 60000).
Proof.
  assert (admit2 = true) as Hadm by (by vm_compute). split; [exact Hadm|].
  pose proof (admission_outcome _ _ _ _ _ admit2_run) as Ha.
  replace (ingress_limit_rules (w_db world_admitted) !! "tenant") with (Some (mkRule 2 60000)) in Ha
    by (by vm_compute).
  replace (ingress_limit_counters (w_db world_admitted) !! "tenant")
    with (Some (mkBucket 2000000 1 0)) in Ha by (by vm_compute).
  destruct Ha as (_ & _ & Ha).
  cbn [r_window_duration_ms r_max_jobs] in Ha. destruct Ha as (b & Hb & _ & Hl & _).
  - lia.
  - by split.
  - unfold i64_max. lia.
  - intros o [= <-]. unfold countable. simpl. lia.
  - exists b. split; [exact Hb|exact (Hl Hadm)].
Defined.
