(* ===== verification/FlowRuns.v ===== *)
(** * Sample runs: flows and maintenance

    Runs of the flow handlers, the retention sweep, the schedulers and the sampler in the
    environment of Examples.v, and three runs that show how flows interact badly with the
    rest of the broker: a job outside a flow opens a gate of the flow, a child lost to an
    expired lease strands its parent, and a cascade releases a receipt its gauge keeps. *)
From Stdlib Require Import Ascii String.
From Stdlib Require Import Strings.Byte.
From S2P Require Import Prelude Text Query F64 Scheduling Db Pressure Telemetry Broker.
From S2P Require Import Lifecycle RateLimit Ingress Enqueue Leases Claim Finish Flow FlowTree.
From S2P Require Import FlowSim FlowSpec Retention Schedulers Config System Quotas Examples.
From S2P Require Import Gates Work Gauges Ledgers JobRuns.
Local Open Scope string_scope.
Local Open Scope Z_scope.

(** ** Flows: a report that waits for one part. *)
Definition part : FlowJob :=
  mkFlow (mkFlowFields "part" [] 1 1 0 "" 0 0 f64_zero "" true) [].
Definition report : FlowJob :=
  mkFlow (mkFlowFields "report" [] 1 3 0 "" 0 0 f64_zero "report-key" false) [part].
Definition flim : FlowLimits := sv_flow sv0.
Definition world_flow : World := perform sv0 (AddFlow (Some report)) (initial sv0).
Definition root_id : string := new_v4 0.
Definition part_id : string := new_v4 1.

Definition prep1 : Prep :=
  answer (∅, []) (prepare_node report None 0 (max_flow_depth flim) (max_flow_nodes flim) (∅, []))
    (initial sv0).
Lemma prep1_run :
  prepare_node report None 0 (max_flow_depth flim) (max_flow_nodes flim) (∅, []) (initial sv0)
  = (Ok (prep1.1, prep1.2),
     after (prepare_node report None 0 (max_flow_depth flim) (max_flow_nodes flim) (∅, []))
       (initial sv0)).
Proof. rewrite <-surjective_pairing. unfold prep1, after. apply answer_run. by vm_compute. Qed.

Definition flow1 : AddFlowResponse :=
  answer (mkFlowResp "" []) (add_flow flim (Some report)) (initial sv0).
Lemma flow1_run : add_flow flim (Some report) (initial sv0) = (Ok flow1, world_flow).
Proof. unfold flow1, world_flow, perform, after. apply answer_run. by vm_compute. Qed.
Lemma add_flow_creates_tree_witness :
  flow1 = mkFlowResp root_id (flow_node <$> flatten report None 0 (w_step (initial sv0)))
  ∧ NoDup (p_id <$> flatten report None 0 (w_step (initial sv0))).
Proof.
  assert (0 ≤ max_flow_nodes flim ≤ u32_max) as Hmax by (split; by vm_compute).
  destruct (add_flow_creates_tree _ _ _ _ _ flow1_run Hmax) as (Hr & Hshape & _).
  exact (conj Hr (ts_distinct _ _ _ _ Hshape)).
Defined.

(** Another part is merged into the report. *)
Definition more : FlowJob := mkFlow (fields report) [part].
Definition merge1 : AddFlowMergeResponse :=
  answer (mkMergeResp "" []) (add_flow_merge flim (Some more)) world_flow.
Lemma merge1_run : add_flow_merge flim (Some more) world_flow
                   = (Ok merge1, after (add_flow_merge flim (Some more)) world_flow).
Proof. unfold merge1, after. apply answer_run. by vm_compute. Qed.
Lemma add_flow_merge_attaches_witness :
  mr_parent_id merge1 = root_id
  ∧ ∃ t t', jobs (w_db world_flow) !! mr_parent_id merge1 = Some t
            ∧ j_pending_children t' = j_pending_children t + 1.
Proof.
  split; [by vm_compute|].
  destruct (proj2 (add_flow_merge_attaches _ _ _ _ _ _ merge1_run)) as (t & t' & Ht & _ & Hg & _).
  exists t, t'. exact (conj Ht (rg_pending _ _ _ _ Hg)).
Defined.

(** The part completes: the gate opens. *)
Definition open1 : option JobState := answer None (child_completed 0 root_id) world_flow.
Lemma open1_run : child_completed 0 root_id world_flow
                  = (Ok open1, after (child_completed 0 root_id) world_flow).
Proof. unfold open1, after. apply answer_run. by vm_compute. Qed.
Lemma root_live : jobs (w_db world_flow) !! root_id = Some (row_of world_flow root_id).
Proof. apply row_of_live. by vm_compute. Qed.
Lemma parent_gate_opens_at_zero_witness :
  open1 = Some Delayed
  ∧ job_history (w_db (after (child_completed 0 root_id) world_flow))
    = job_history (w_db world_flow).
Proof.
  split; [by vm_compute|].
  exact (proj2 (parent_gate_opens_at_zero 0 root_id _ _ _ _ open1_run root_live)).
Defined.

(** The part fails for good: the report fails with it. *)
Definition fallen : nat * nat := answer (0, 0)%nat (cascade 3 part_id true (Some root_id)) world_flow.
Lemma fallen_run : cascade 3 part_id true (Some root_id) world_flow
                   = (Ok (fallen.1, fallen.2), after (cascade 3 part_id true (Some root_id)) world_flow).
Proof. rewrite <-surjective_pairing. unfold fallen, after. apply answer_run. by vm_compute. Qed.
Lemma cascade_fails_flagged_line_witness :
  fallen.1 = 1%nat ∧ ∃ ids, fallen.1 = length ids
    ∧ line_failed part_id ids (w_db world_flow)
        (w_db (after (cascade 3 part_id true (Some root_id)) world_flow)).
Proof.
  split; [by vm_compute|].
  destruct (cascade_fails_flagged_line 3 part_id true (Some root_id) world_flow fallen.1 fallen.2
    (after (cascade 3 part_id true (Some root_id)) world_flow)) as (ids & _ & Hl & Hf).
  - apply Nat.ltb_lt. by vm_compute.
  - exact fallen_run.
  - exists ids. exact (conj Hl Hf).
Defined.

(** ** Retention: completed jobs older than a millisecond. *)
Definition keep1 : RetentionConfig :=
  mkRetention 1 0 604800000 0 60000 1000 604800000 604800000 604800000 MIN_AGE_MS.
Definition no_sweep : SweepOutcome := mkSweep 0 0 0 0 0 0 0 0.
Definition swept : SweepOutcome := answer no_sweep (sweep keep1) world5.
Lemma swept_run : sweep keep1 world5 = (Ok swept, after (sweep keep1) world5).
Proof. unfold swept, after. apply answer_run. by vm_compute. Qed.
Lemma sweep_outcome_witness :
  o_completed_age swept = 1%nat ∧ jobs (w_db (after (sweep keep1) world5)) = jobs (w_db world5)
  ∧ Z.of_nat (total swept) ≤ 8 * 1000.
Proof.
  destruct (sweep_outcome _ _ _ _ swept_run) as (Hj & _ & _ & Hb).
  split; [by vm_compute|]. split; [exact Hj|]. apply Hb. by vm_compute.
Defined.

Definition no_vars : string → option string := λ _, None.
Definition cfg1 : RetentionConfig := default default_retention
  (match from_env no_vars 30000 with Ok c => Some c | Err _ => None end).

(** ** Schedulers *)
Definition nightly : UpsertSchedulerRequest :=
  mkUpsertSched "nightly" (Some (mkTemplate "clean" [] None None None None None None))
    (Some (mkRepeat "* * * * *" "UTC")).
Definition sched1 : string * Z := answer ("", 0) (scheduler_upsert nightly) (initial sv0).
Definition world_sched : World := perform sv0 (UpsertJobScheduler nightly) (initial sv0).
Lemma sched1_run :
  scheduler_upsert nightly (initial sv0) = (Ok (sched1.1, sched1.2), world_sched).
Proof.
  rewrite <-surjective_pairing. unfold sched1, world_sched, perform, after. apply answer_run.
  by vm_compute.
Qed.

Definition sched_row : JobSchedulerRow :=
  mkSched "clean" [] "* * * * *" (Some "UTC") 0 (Some 0) None None None None None None None 0 0.
Definition fired : unit := answer tt (fire_one lim0 ("nightly", sched_row)) world_sched.
Lemma fired_run : fire_one lim0 ("nightly", sched_row) world_sched
                  = (Ok fired, after (fire_one lim0 ("nightly", sched_row)) world_sched).
Proof. unfold fired, after. apply answer_run. by vm_compute. Qed.
Lemma scheduler_fire_atomic_witness :
  ∃ jid job, jobs (w_db (after (fire_one lim0 ("nightly", sched_row)) world_sched))
             = <[jid := job]> (jobs (w_db world_sched)) ∧ j_name job = "clean".
Proof.
  destruct (scheduler_fire_atomic _ _ _ _ _ _ fired_run)
    as (jid & job & next & _ & _ & _ & Hj & _ & Hn & _).
  exists jid, job. exact (conj Hj Hn).
Defined.

Definition nightly_template : JobTemplate := mkTemplate "clean" [] None None None None None None.
Lemma scheduler_upsert_outcome_witness :
  ∃ row r, w_db world_sched = w_db (initial sv0) <| job_schedulers ::= insert sched1.1 row |>
           ∧ s_next_run_at row = Some sched1.2
           ∧ validate_and_prepare (build_request (advance_row 60000 "7" 50000 row)) 10 = Ok (r, None).
Proof.
  destruct (scheduler_upsert_outcome _ _ _ _ sched1_run)
    as (t & job & cron & tz & row & _ & _ & Hd & Hn & _ & _ & _ & _ & _ & Hf).
  destruct (Hf [(60000, "7", 50000)] 10) as [r Hr]; [lia|].
  exists row, r. split; [exact Hd|]. split; [exact Hn|]. exact Hr.
Defined.

(** ** Settings and the sampler *)

Definition gauges : Pressure := default default_pressure (configured "mail,report").
Lemma sample_counts_jobs_witness :
  pr_all (sample (w_db world1) 2000000 gauges)
  = publish 2000000 (group_counts 2000000 (map_to_list (jobs (w_db world1))).*2).
Proof.
  apply (sample_counts_jobs "mail,report" gauges (w_db world1) 2000000). by vm_compute.
Defined.

(** ** Runs within flows: the gate and the gauges *)

(** The report is a flow; its part is claimed and completed. *)
Definition world_part_done : World :=
  perform sv0 (CompleteJob part_id "worker" 1 [])
    (perform sv0 (GetNextJob (mkGetNext "worker" ["part"])) world_flow).
Lemma world_flow_within : flow_reachable true sv0 world_flow.
Proof.
  apply flow_reachable_call; [apply rtc_refl| |done..]. intros t [= <-]. simpl. unfold u32_max. lia.
Qed.
Lemma world_part_done_within : flow_reachable true sv0 world_part_done.
Proof. do 2 (apply flow_reachable_call; [|done..]). apply world_flow_within. Qed.

Lemma children_complete_first_witness :
  (∃ q x, rtc (child_of (jobs (w_db world_flow))) root_id q
          ∧ jobs (w_db world_flow) !! q = Some x ∧ j_state x ≠ WaitingChildren)
  ∧ (∀ id h, job_history (w_db world_part_done) !! id = Some h →
       h_parent_id h = Some root_id → h_state h = Completed).
Proof.
  assert (jobs (w_db world_flow) !! root_id = Some (row_of world_flow root_id)) as Hw
    by (apply row_of_live; by vm_compute).
  assert (jobs (w_db world_part_done) !! root_id = Some (row_of world_part_done root_id)) as Hd
    by (apply row_of_live; by vm_compute).
  split.
  - destruct (children_complete_first _ _ _ _ _ world_flow_within Hw) as [_ Hc].
    destruct Hc as (q & x & Hq & Hx & [Hs|(id & h & Hh & _)]);
      [reflexivity|exact (ex_intro _ q (ex_intro _ x (conj Hq (conj Hx Hs))))|].
    exfalso. assert (job_history (w_db world_flow) = ∅) as He by (by vm_compute). by rewrite He in Hh.
  - apply (children_complete_first _ _ _ _ _ world_part_done_within Hd). by vm_compute.
Defined.

(** A scheduler and a keyed job: one scheduler ahead, one receipt. *)
Definition world_ledger : World := perform sv0 (AddJob mail) world_sched.
Lemma typed_mail : typed_call (AddJob mail).
Proof. simpl. unfold typed, u32_max. simpl. lia. Qed.
Lemma world_ledger_reached : reachable sv0 world_ledger ∧ uncascaded sv0 world_ledger.
Proof.
  split.
  - apply (reachable_call sv0 (AddJob mail)); [|apply typed_mail].
    by apply (reachable_call sv0 (UpsertJobScheduler nightly)); [apply reachable_initial|].
  - eapply rtc_r; [|by apply (QCall sv0 (AddJob mail)); [apply typed_mail|]].
    eapply rtc_r; [apply rtc_refl|by apply (QCall sv0 (UpsertJobScheduler nightly))].
Qed.

(** The bound on the receipts: a keyed job that releases its key gets a flagged child by a
    merge; the child fails for good, the cascade fails the job and deletes its receipt, and
    the gauge still counts it. *)
Definition freed : AddJobRequest := mkReq "mail" [] 5 None 3 0 "" 0 0 "key" f64_zero true.
Definition attachment : FlowJob :=
  mkFlow (mkFlowFields "mail" [] 1 3 0 "" 0 0 f64_zero "key" false) [part].
Definition attachment_id : string := new_v4 10.
Definition world_attached : World :=
  perform sv0 (AddFlowMerge (Some attachment)) (perform sv0 (AddJob freed) (initial sv0)).
Definition world_cascaded : World :=
  perform sv0 (FailJob attachment_id "worker" "boom" 1 true)
    (perform sv0 (GetNextJob (mkGetNext "worker" ["part"])) world_attached).
Example cascaded_receipt_stays_counted :
  reachable sv0 world_cascaded ∧ jobs (w_db world_cascaded) = ∅
  ∧ size (enqueue_receipts (w_db world_cascaded)) = 0%nat
  ∧ wrap_i64 (enqueue_receipts_gauge (w_metrics world_cascaded)) = 1.
Proof.
  split; [|by vm_compute].
  apply (reachable_call sv0 (FailJob _ _ _ _ _)); [|done].
  apply (reachable_call sv0 (GetNextJob _)); [|done].
  apply (reachable_call sv0 (AddFlowMerge _)); [apply (reachable_call sv0 (AddJob _))|].
  - apply reachable_initial.
  - simpl. unfold typed, u32_max. simpl. lia.
  - simpl. constructor; [|done]. simpl. unfold u32_max. lia.
Qed.

(** Two rounds of work finish the report: its part first. *)
Lemma sample_lease n m :
  (n ≤ m ≤ n + 8)%nat → clock m < wrap_i64 (clock n + lease_duration_ms (sv_claim sv0)).
Proof.
  intros Hnm. rewrite wrap_i64_id; simpl; [lia|]. unfold in_i64, i64_min, i64_max. lia.
Qed.

(** ** A job from outside opens the gate of a flow *)

(** [AddJob] under the root of a flow, claimed and completed before the part is. *)
Definition side : AddJobRequest :=
  mkReq "side" [] 1 (Some (mkMeta root_id "" 0)) 3 0 "" 0 0 "" f64_zero false.
Definition side_id : string := rp_id (answer no_response (enqueue lim0 side) world_flow).
Definition world_side : World :=
  perform sv0 (CompleteJob side_id "worker" 1 [])
    (perform sv0 (GetNextJob (mkGetNext "worker" ["side"]))
       (perform sv0 (AddJob side) world_flow)).
Lemma world_flow_reachable : reachable sv0 world_flow.
Proof.
  apply reachable_call; [apply reachable_initial|]. intros t [= <-]. simpl. unfold u32_max. lia.
Qed.
Lemma world_side_reachable : reachable sv0 world_side.
Proof.
  do 2 (apply reachable_call; [|exact I]). apply reachable_call; [apply world_flow_reachable|].
  by split; vm_compute.
Qed.

(** The gate of a flow parent can open before its children are done.  A job that
    [AddJob] enqueues under the parent is not counted by the gate, yet its completion
    counts the gate down: here the parent becomes claimable while the only child of its
    flow has not even been claimed. *)
Theorem outside_child_opens_gate :
  ∃ w p c, reachable sv0 w
    ∧ jobs (w_db w) !! root_id = Some p ∧ runnable (j_state p) = true
    ∧ jobs (w_db w) !! part_id = Some c ∧ j_state c = Waiting ∧ j_attempts c = 0
    ∧ j_parent_id c = Some root_id ∧ j_tree_id c = Some root_id.
Proof.
  exists world_side, (row_of world_side root_id), (row_of world_side part_id).
  split; [exact world_side_reachable|].
  split; [apply row_of_live; by vm_compute|]. split; [by vm_compute|].
  split; [apply row_of_live; by vm_compute|]. by vm_compute.
Qed.

(** The part then fails and takes the report with it. *)
Definition world_drift : World :=
  perform sv0 (FailJob part_id "worker" "broken" 1 false)
    (perform sv0 (GetNextJob (mkGetNext "worker" ["part"])) world_side).
(** Such a job also sets a gauge off.  The cascade moves the gauge of waiting parents only
    for an ancestor in WaitingChildren and no other gauge down: here it fails a parent that
    a job from outside had released, and the gauge of Waiting keeps counting it. *)
Theorem outside_child_drifts_gauge :
  reachable sv0 world_drift
  ∧ level (w_metrics world_drift) Waiting = 1 ∧ count_state Waiting (w_db world_drift) = 0
  ∧ level (w_metrics world_drift) Failed = count_state Failed (w_db world_drift).
Proof.
  split; [|by vm_compute]. do 2 (apply reachable_call; [|exact I]). apply world_side_reachable.
Qed.

(** ** A lost worker strands the parent of a flow *)
Definition world_claimed : World :=
  perform sv0 (GetNextJob (mkGetNext "worker" ["part"])) world_flow.
Definition world_silent : World := Nat.iter 40 (perform sv0 ListJobSchedulers) world_claimed.
Definition world_stranded : World := perform sv0 RecoverTick world_silent.
Lemma world_silent_reachable : reachable sv0 world_silent.
Proof.
  unfold world_silent. generalize 40%nat. intros n. induction n as [|n IH].
  - apply reachable_call; [apply world_flow_reachable|exact I].
  - apply reachable_call; [exact IH|exact I].
Qed.

Definition no_hist : HistRow :=
  mkHist "" Waiting 0 [] None "" 0 0 0 0 0 None None None None false None 0.
Definition part_hist : HistRow := default no_hist (job_history (w_db world_stranded) !! part_id).

(** A final failure by an expired lease does not reach the parent.  The child sets
    [fail_parent_on_failure] and has spent its attempts; recovery archives it as Failed,
    but without that flag and without the cascade that an acknowledged failure runs: the
    parent keeps waiting, with no child left that could open its gate. *)
Theorem expired_child_strands_parent :
  ∃ w c p h, reachable sv0 w
    ∧ jobs (w_db w) !! part_id = Some c
    ∧ j_parent_id c = Some root_id ∧ j_fail_parent_on_failure c = true
    ∧ let w' := perform sv0 RecoverTick w in
      job_history (w_db w') !! part_id = Some h ∧ h_state h = Failed
      ∧ h_fail_parent_on_failure h = false
      ∧ jobs (w_db w') !! root_id = Some p ∧ j_state p = WaitingChildren
      ∧ map_Forall (λ _ j, j_parent_id j ≠ Some root_id) (jobs (w_db w')).
Proof.
  exists world_silent, (row_of world_silent part_id), (row_of world_stranded root_id), part_hist.
  split; [exact world_silent_reachable|]. split; [apply row_of_live; by vm_compute|].
  split; [by vm_compute|]. split; [by vm_compute|].
  change (perform sv0 RecoverTick world_silent) with world_stranded. cbv zeta.
  split; [by vm_compute|]. split; [by vm_compute|]. split; [by vm_compute|].
  split; [apply row_of_live; by vm_compute|]. split; [by vm_compute|].
  apply (bool_decide_unpack (map_Forall (λ _ j, j_parent_id j ≠ Some root_id)
           (jobs (w_db world_stranded)))). by vm_compute.
Qed.
