(* ===== verification/DaemonRuns.v ===== *)
(** * Sample runs: the daemon

    Runs of the process of Daemon.v in the environment of Examples.v: a stop by signal, a
    signal that is lost because it arrives before the servers listen for it, and a pass of
    the recovery loop that writes after the checkpoint of the shutdown. *)
From Stdlib Require Import Ascii String.
From S2P Require Import Prelude Text Query F64 Scheduling Db Pressure Telemetry Broker.
From S2P Require Import Lifecycle RateLimit Ingress Enqueue Leases Claim Finish Flow FlowTree.
From S2P Require Import FlowSim Retention Schedulers Config System Reader Backup Startup Daemon.
From S2P Require Import Examples JobRuns.
Local Open Scope string_scope.
Local Open Scope Z_scope.

Definition daemon0 : Daemon :=
  mkDaemon ":memory:" Normal sv0 (mkReader ":memory:" 4 500) false "127.0.0.1:9090"
    "[::1]:50051" 5000 1000 None.
Definition main_steps (n : nat) : list Event := replicate n (EMain Grpc).

(** The actions of [main] up to [select!], with one optional loop. *)
Definition startup : list Event := main_steps 7.
(** A job is added; then the daemon is told to stop and stops. *)
Definition stop_events : list Event :=
  ([ESignal; ENotify Http; ENotify Grpc; ERun 0; EDrained Grpc; EDrained Http]
   ++ main_steps 9)%list.
Definition working : option Process :=
  run sv0 (startup ++ [ERpc 0 (AddJob mail)]) (launch daemon0 (initial sv0)).
Definition no_process : Process := launch daemon0 (initial sv0).
Definition process1 : Process := default no_process working.
Definition stopped : Process := default no_process (run sv0 stop_events process1).

Lemma some_default {A} (d : A) (o : option A) :
  match o with Some _ => true | None => false end = true → o = Some (default d o).
Proof. by destruct o. Qed.
Lemma process1_run :
  run sv0 (startup ++ [ERpc 0 (AddJob mail)]) (launch daemon0 (initial sv0)) = Some process1.
Proof. apply (some_default no_process). by vm_compute. Qed.

Lemma run_app sv es es' p p1 p2 :
  run sv es p = Some p1 → run sv es' p1 = Some p2 → run sv (es ++ es') p = Some p2.
Proof.
  revert p. induction es as [|e es IH]; intros p; simpl; [by intros [= ->]|].
  intros (p3 & Hs & Hr)%bind_Some Hr'. rewrite Hs. by apply IH.
Qed.
Lemma stopped_run : run sv0 stop_events process1 = Some stopped.
Proof. apply (some_default no_process). by vm_compute. Qed.

Lemma daemon_runs_broker_witness :
  reachable sv0 (p_world stopped) ∧ p_exit stopped = Some (Ok tt)
  ∧ p_loops stopped = [] ∧ p_open stopped = [].
Proof.
  pose proof (daemon_runs_broker sv0 daemon0 (initial sv0) _ stopped
    (run_app sv0 _ _ _ _ _ process1_run stopped_run)) as Hd.
  assert (p_exit stopped = Some (Ok tt)) as He by (by vm_compute).
  destruct Hd as [Hr Hx].
  - by repeat constructor.
  - apply reachable_initial.
  - destruct (Hx _ He) as (_ & Hl & Ho). auto.
Defined.

(** The signal in time: the process can return.  The signal too early: it does not. *)
Definition signalled : Process := default no_process (step sv0 ESignal process1).
Lemma signalled_step : step sv0 ESignal process1 = Some signalled.
Proof. apply (some_default no_process). by vm_compute. Qed.
Definition early : Process := default no_process (run sv0 (main_steps 2) (launch daemon0 (initial sv0))).
Lemma early_run : run sv0 (main_steps 2) (launch daemon0 (initial sv0)) = Some early.
Proof. apply (some_default no_process). by vm_compute. Qed.
Definition unheard : Process := default no_process (step sv0 ESignal early).
Lemma unheard_step : step sv0 ESignal early = Some unheard.
Proof. apply (some_default no_process). by vm_compute. Qed.

Lemma signal_stops_daemon_witness :
  leads sv0 signalled (λ q, is_Some (p_exit q))
  ∧ ∀ n p, run sv0 (main_steps n) unheard = Some p → p_exit p = None.
Proof.
  pose proof (signal_stops_daemon sv0 daemon0 (initial sv0) _ _ _ process1_run signalled_step) as H1.
  pose proof (signal_stops_daemon sv0 daemon0 (initial sv0) _ _ _ early_run unheard_step) as H2.
  rewrite decide_False in H1 by (by vm_compute). rewrite decide_True in H2 by (by vm_compute).
  split; [by apply (H1 [])|]. intros n p. apply H2. by apply Forall_replicate.
Defined.

(** ** A write after the checkpoint *)

(** The recovery loop submits a pass; the daemon stops; a thread runs the pass between the
    checkpoint and the end of the process. *)
Definition stopping : list Event :=
  (startup ++ [ETick Recovery; ESignal; ENotify Http; ENotify Grpc; EDrained Grpc; EDrained Http]
   ++ main_steps 8)%list.
Definition checkpointed : Process := default no_process (run sv0 stopping (launch daemon0 world_late)).
Lemma checkpointed_run : run sv0 stopping (launch daemon0 world_late) = Some checkpointed.
Proof. apply (some_default no_process). by vm_compute. Qed.
Definition late : Process := default no_process (step sv0 (ERun 0) checkpointed).

(** The shutdown stops the loops so that nothing writes after the checkpoint.  Aborting a
    loop does not recall a pass that it has handed to the blocking pool: here the pass
    takes the lock after the checkpoint and puts a job back to work. *)
Theorem write_after_checkpoint :
  run sv0 stopping (launch daemon0 world_late) = Some checkpointed
  ∧ p_todo checkpointed = [Return] ∧ p_loops checkpointed = []
  ∧ step sv0 (ERun 0) checkpointed = Some late
  ∧ j_state <$> jobs (w_db (p_world checkpointed)) !! job1 = Some Active
  ∧ j_state <$> jobs (w_db (p_world late)) !! job1 = Some Waiting.
Proof.
  split; [exact checkpointed_run|]. split; [by vm_compute|]. split; [by vm_compute|].
  split; [|by vm_compute]. apply (some_default no_process). by vm_compute.
Qed.
