(* ===== verification/ReadRuns.v ===== *)
(** * Sample runs of the read side, backups, migrations and the start

    The worlds of Examples.v seen through the HTTP endpoints, a full-text index, a backup
    directory and an old database file; they show that the hypotheses of the theorems can be
    met, and two runs that go wrong. *)
From Stdlib Require Import Ascii String.
From Stdlib Require Import Strings.Byte.
From S2P Require Import Prelude Text Query F64 Scheduling Db Encoding Reader Fts Migrations ReadApi.
From S2P Require Import Pressure Telemetry Broker Lifecycle RateLimit Ingress Enqueue Leases Claim.
From S2P Require Import Finish Flow FlowTree FlowSim Retention Schedulers Config Backup System.
From S2P Require Import Exposition Render Samples Startup MetricsPage ReadSpec Http Examples JobRuns.
Local Open Scope string_scope.
Local Open Scope Z_scope.

(** ** Stand-ins for FTS5 and serde_json *)
#[export] Instance sample_fts : Fts5 := {|
  fts_query expr docs :=
    match fts_parse expr with
    | Some ts =>
        Ok (rows_where (λ _ doc, forallb (λ t : string * bool, contains_ci t.1 (fd_name doc)) ts)
              docs).*1
    | None => Err (OtherError "fts5: syntax error")
    end;
  fts_hit ts doc := forallb (λ t : string * bool, contains_ci t.1 (fd_name doc)) ts;
|}.
#[export] Instance sample_fts_law : FtsLaw.
Proof.
  intros expr terms docs Hp _. simpl. rewrite Hp. eexists. split; [done|]. intros r.
  rewrite list_elem_of_fmap. split.
  - intros ([k doc] & -> & [Hk Hh]%elem_of_rows_where). by exists doc.
  - intros (doc & Hd & Hh). exists (r, doc). split; [done|]. by apply elem_of_rows_where.
Qed.
#[export] Instance sample_json : Json := {|
  Value := string;
  json_from_str s := if String.eqb s "{}" then Some s else None;
  json_string s := s;
|}.

(** ** A stand-in for axum: the first route that matches *)
Fixpoint first_match {A} (table : list (string * A)) (path : string) : option (A * list string) :=
  match table with
  | [] => None
  | (pat, a) :: table =>
      match match_path pat path with Some args => Some (a, args) | None => first_match table path end
  end.
Lemma first_match_in {A} (table : list (string * A)) path a args :
  first_match table path = Some (a, args) →
  ∃ pat, (pat, a) ∈ table ∧ match_path pat path = Some args.
Proof.
  induction table as [|[pat x] table IH]; simpl; [done|].
  destruct (match_path pat path) as [l|] eqn:Hm.
  - intros [= -> ->]. exists pat. split; [by left|done].
  - intros (p & Hp & Hl)%IH. exists p. split; [by right|done].
Qed.
Lemma first_match_some {A} (table : list (string * A)) path pat a args :
  (pat, a) ∈ table → match_path pat path = Some args → is_Some (first_match table path).
Proof.
  induction table as [|[p x] table IH]; simpl; intros Hin Hm; [by apply not_elem_of_nil in Hin|].
  destruct (match_path p path) eqn:Hp; [eauto|].
  apply elem_of_cons in Hin as [[= -> ->]|Hin]; [congruence|auto].
Qed.
#[export] Instance sample_axum : Axum := {|
  matched := @first_match;
  percent_decode s := if contains_char (Ascii.eqb "%"%char) s then None else Some s;
  query_failures _ := Some (mkFailuresParams None None None);
  query_rejections _ := Some (mkRejectionsParams None None None None None);
  query_search _ := None;
|}.
#[export] Instance sample_axum_law : AxumLaw.
Proof.
  split; simpl; [|by intros s ->]. intros A table path a args Hu.
  split; [apply first_match_in|]. intros (pat & Hin & Hm).
  destruct (first_match_some _ _ _ _ _ Hin Hm) as [[b args'] Hf].
  destruct (first_match_in _ _ _ _ Hf) as (pat' & Hin' & Hm').
  pose proof (Hu path (pat, a) (pat', b) _ _ Hin Hin' Hm Hm') as [= <- <-]. congruence.
Qed.

(** ** Connections to the worlds of the sample run *)
Definition empty_archive : Archive := mkArchive ∅ ∅ ∅ true.
Lemma empty_archive_wf : archive_wf empty_archive.
Proof.
  split; simpl; [done|..]; try done; intros *; rewrite lookup_empty; done.
Qed.
Lemma empty_archive_synced : synced empty_archive.
Proof. split; [done|]. intros id h r. simpl. by rewrite lookup_empty. Qed.

Definition hist1 : HistRow := Eval vm_compute in
  default (finish_row Completed None None 0 (row_of world4 job1)) (job_history (w_db world5) !! job1).
Lemma history5 : job_history (w_db world5) = <[job1 := hist1]> ∅.
Proof. by vm_compute. Qed.
Definition archive5 : Archive :=
  match archive_insert job1 hist1 empty_archive with Ok a => a | Err _ => empty_archive end.
Lemma archive5_run : archive_insert job1 hist1 empty_archive = Ok archive5.
Proof. by vm_compute. Qed.

Definition snap (w : World) (a : Archive) : Snapshot := mkSnapshot (w_db w) a.
Definition conn_to (first later : Snapshot) : Conn Snapshot :=
  mkConn (λ _, None) (λ n, match n with O => first | _ => later end) (λ _ _ l, l).
#[export] Instance conn_to_law first later : ConnLaw (conn_to first later).
Proof. by intros n A l. Qed.
Definition attempt_on (c : Conn Snapshot) : Attempt Snapshot := mkAttempt true (Some c) None None Reader.Finished.
Lemma attempt_on_healthy first later :
  healthy (attempt_on (conn_to first later)) (conn_to first later).
Proof. done. Qed.

Definition snap5 : Snapshot := snap world5 archive5.
Lemma snap5_indexed : indexed snap5.
Proof.
  destruct (archive_insert_wf _ _ _ _ empty_archive_wf archive5_run) as (_ & Hr & Hwf & Hs).
  split; [exact Hwf|]. split; [exact (Hs empty_archive_synced)|].
  etrans; [exact Hr|symmetry; exact history5].
Qed.

Definition find_mail : SearchParams := mkSearchParams (Some " MAI* ") None None None None None.

Lemma feeds_answer_witness :
  ∃ sel, failures (attempt_on (conn_to snap5 snap5)) (mkFailuresParams None None None)
         = Ok (failure_row <$> sel).
Proof.
  destruct (feeds_answer sv0 world5 (attempt_on (conn_to snap5 snap5)) (conn_to snap5 snap5)
              (mkFailuresParams None None None) (mkRejectionsParams None None None None None))
    as [(sel & Hsel & _) _].
  - exact world5_reachable.
  - exact (attempt_on_healthy snap5 snap5).
  - exact (conn_to_law snap5 snap5).
  - reflexivity.
  - intros n [=].
  - intros n [=].
  - exists sel. exact Hsel.
Defined.

(** The job completes between the two statements of the lookup, and is found. *)
Definition conn45 : Conn Snapshot := conn_to (snap world4 empty_archive) snap5.
Lemma run_4_5 : rtc (sys_step sv0) world4 world5.
Proof. apply run_call; [apply rtc_refl|done]. Qed.
Definition app45 : App :=
  mkApp (registry (launched world5)) (attempt_on conn45) (mkProbe true true true true true true)
    true "".
Lemma job_page_finds_witness :
  ∃ d, router app45 (mkRequest GET ("/v1/jobs/" ++ job1) "") = Answered (mkResponse OK None (JsonJob d))
       ∧ rw_source (jd_raw d) = Live.
Proof.
  destruct (job_page_finds sv0 world4 world5 conn45 app45 job1 "" world4_reachable run_4_5
    (attempt_on_healthy _ _) eq_refl eq_refl eq_refl eq_refl eq_refl) as (r & Hr & Hc).
  destruct Hc as [(d & Hd & [(j & _ & Hj)|(h & Hn & _)])|[[_ Hb]|(_ & _ & [[Hu _]|[_ Hu]])]].
  - exists d. split; [rewrite Hr, Hd; reflexivity|rewrite Hj; reflexivity].
  - by vm_compute in Hn.
  - by vm_compute in Hb.
  - by vm_compute in Hu.
  - by vm_compute in Hu.
Defined.

Lemma sanitized_query_witness :
  ∃ m, sanitize_match "boom* NEAR(x" = Some m
       ∧ fts_parse m = Some [("boom", true); ("NEAR(x", false)].
Proof.
  assert (nul_free "boom* NEAR(x" = true) as Hn by (by vm_compute).
  destruct (sanitized_query _ Hn) as (ts & _ & Hu & H).
  assert (ts = [Some ("boom", true); Some ("NEAR(x", false)]) as ->.
  { symmetry. apply Hu. assert (split_whitespace "boom* NEAR(x" = ["boom*"; "NEAR(x"]) as -> by done.
    constructor; [|constructor; [|constructor]].
    - apply (AsksFor _ "boom" 1); [done| |done].
      intros s E. by repeat (destruct s as [|? s]; simpl in E; try discriminate E; injection E as _ E).
    - apply (AsksFor _ "NEAR(x" 0); [done| |done].
      intros s E. by repeat (destruct s as [|? s]; simpl in E; try discriminate E; injection E as _ E). }
  revert H. destruct (sanitize_match "boom* NEAR(x") as [m|] eqn:E; [|by vm_compute in E].
  intros [Hm _]. exists m. split; [reflexivity|exact Hm].
Defined.

(** An archive whose row was written before the index existed. *)
Definition unindexed : Archive :=
  mkArchive {[job1 := hist1]} {[job1 := 1]} ∅ false.
Lemma unindexed_wf : archive_wf unindexed.
Proof.
  split; simpl.
  - by rewrite !dom_singleton_L.
  - intros i j r [<- <-]%lookup_singleton_Some [<- _]%lookup_singleton_Some. done.
  - intros r doc. by rewrite lookup_empty.
  - done.
Qed.
Lemma index_follows_broker_witness :
  ∃ r a1, enable_fts (λ _ l, l) (λ _, None) 0 1000 unindexed = Some (r, a1)
    ∧ ∃ a', index_run sv0 world5 a1 world6 a' ∧ ar_rows a' = job_history (w_db world6).
Proof.
  destruct (index_follows_broker (λ _ l, l) (λ _ l, reflexivity l) (λ _, None) sv0 world5 world6
              0 1000 unindexed world5_reachable run_5_6 unindexed_wf (eq_sym history5))
    as (r & a1 & Hr & _ & _ & [a' Ha] & Hall & _).
  exists r, a1. split; [exact Hr|]. exists a'. split; [exact Ha|]. apply (Hall a' Ha).
Defined.

(** ** Backups *)
Definition fs_at (t : Z) : FsEnv := {|
  fs_fault _ := false;
  fs_vacuum _ := VacuumDone;
  fs_listing _ l := l;
  unix_ms _ := t;
  elapsed_ms _ := 5;
  file_len _ := 4096;
|}.
#[export] Instance fs_at_listing t : ListingLaw (fs_at t).
Proof. by intros n l. Qed.
Definition keep_one : BackupConfig := mkBackup true 120000 "backups" 1.
Definition earlier : Fs :=
  mkFs {[snapshot_name 1600000000000 := Whole (w_db world1)]} 0 [].
Definition backup_at (t : Z) : result BackupError (option BackupOutcome) * Fs :=
  @run_blocking (fs_at t) "anvil.db" keep_one (w_db world5) earlier.

Lemma earlier_whole : always_whole earlier.
Proof.
  constructor; [|constructor]. simpl. intros name f [_ <-]%lookup_singleton_Some _. eauto.
Qed.
Lemma snapshots_always_whole_witness : always_whole (backup_at 1700000000000).2.
Proof.
  destruct (backup_at 1700000000000) as [r s'] eqn:Hr.
  exact (proj1 (@snapshots_always_whole (fs_at 1700000000000) "anvil.db" keep_one (w_db world5)
                  earlier r s' Hr earlier_whole)).
Defined.

Lemma published_earlier x :
  x ∈ published (fs_dir earlier) → x = snapshot_name 1600000000000.
Proof.
  intros [_ [f Hf]]%elem_of_published. simpl in Hf. by apply lookup_singleton_Some in Hf as [<- _].
Qed.
Lemma backup_keeps_latest_witness :
  ∃ o, (backup_at 1700000000000).1 = Ok (Some o) ∧ bo_timestamp_ms o = 1700000000000
       ∧ fs_dir (backup_at 1700000000000).2 !! bo_path o = Some (Whole (w_db world5)).
Proof.
  exists (mkOutcome (snapshot_name 1700000000000) 1700000000000 5 4096 1).
  split; [by vm_compute|]. split; [reflexivity|].
  apply (@backup_keeps_latest (fs_at 1700000000000) (fs_at_listing _) "anvil.db" keep_one
           (w_db world5) earlier _ (backup_at 1700000000000).2).
  - by vm_compute.
  - by vm_compute.
  - intros x ->%published_earlier. exists 1600000000000. split; [reflexivity|]. simpl. lia.
Defined.

(** When the clock has gone back since the last snapshot, a run that reports success has
    deleted the snapshot it wrote: its name is not among the latest. *)
Theorem clock_back_drops_new_snapshot :
  match backup_at 1500000000000 with
  | (Ok (Some o), s) => bo_pruned o = 1 ∧ fs_dir s !! bo_path o = None
                        ∧ fs_dir s !! snapshot_name 1600000000000 = Some (Whole (w_db world1))
  | _ => False
  end.
Proof. vm_compute. split_and!; reflexivity. Qed.

(** ** Migrations: a database from before workers, leases and flows *)
Definition old_jobs : Table :=
  mkTable
    [text "id"; text_nn "name"; text_nn "state"; integer_nn "priority"; blob_nn "payload";
     text "parent_id"; text_nn "trace_id"; integer_nn "execution_depth";
     integer_dflt "attempts" 0; integer_dflt "max_attempts" 3; integer_nn "created_at";
     integer_nn "updated_at"; text "rate_limit_facet"]
    [{["id" := Txt "existing"; "state" := Txt "Active"; "created_at" := Int 1]}].
Definition old_schema : Schema := mkSchema {["jobs" := old_jobs]} ∅.
Lemma old_schema_legacy : legacy old_schema.
Proof.
  split.
  - simpl. intros t tb c [<- <-]%lookup_singleton_Some Hc.
    assert (Forall (λ c, c ∈ col_names old_jobs) (base_columns "jobs")) as H
      by (apply (bool_decide_unpack _); by vm_compute).
    rewrite list.Forall_forall in H. exact (H c Hc).
  - simpl. intros tb r [_ <-]%lookup_singleton_Some ->%list_elem_of_singleton. by vm_compute.
Qed.
Lemma migrations_upgrade_witness :
  ∃ s, run_migrations no_fault old_schema = (Ok tt, s) ∧ current s
       ∧ (λ r, field r "lease_expires_at_ms") <$> rows_of s "jobs" = [Int 0].
Proof.
  destruct (migrations_upgrade old_schema old_schema_legacy) as [(s & Hs & Hc & _) _].
  exists s. split; [exact Hs|]. split; [exact Hc|].
  assert (s = (run_migrations no_fault old_schema).2) as -> by (by rewrite Hs). by vm_compute.
Defined.

(** ** The start *)
Definition host0 : Host := mkHost true "wal" 2 true true (λ _, true) true.
Definition vars0 (key : string) : option string :=
  if String.eqb key "ANVILMQ_DURABILITY" then Some "full"
  else if String.eqb key "ANVILMQ_LEASE_DURATION_MS" then Some " 2500 " else None.
Definition started : option Daemon :=
  match start host0 vars0 with Ok dm => Some dm | Err _ => None end.
Lemma daemon_settings_witness :
  match started with
  | Some dm => lease_duration_ms (sv_claim (dm_service dm)) = 2500
               ∧ config_ok (sv_retention (dm_service dm)) ∧ dm_durability dm = Full
  | None => False
  end.
Proof.
  unfold started. destruct (start host0 vars0) as [dm|e] eqn:Hs; [|by vm_compute in Hs].
  destruct (daemon_settings host0 vars0 dm Hs) as ((Hl & _) & _ & _ & _ & (_ & Hret & _) & _ & _ & Hd & _).
  split_and!; [|exact Hret|].
  - destruct Hl as [_ Hv]. unfold reads in Hv.
    change (parse_i64 (trim " 2500 ") = Some (lease_duration_ms (sv_claim (dm_service dm)))) in Hv.
    assert (parse_i64 (trim " 2500 ") = Some 2500) as Hp by (by vm_compute).
    congruence.
  - destruct (dm_durability dm); [|reflexivity]. destruct Hd as [_ Hd]. discriminate Hd.
Defined.

(** ** The metrics page of a running daemon *)
Definition vars1 (key : string) : option string :=
  if String.eqb key "ANVILMQ_METRICS_QUEUES" then Some "mail,a b" else None.
Definition host1 : Host := mkHost true "wal" 1 true true (λ _, true) true.
Definition fallback_daemon : Daemon :=
  mkDaemon "" Normal sv0 (mkReader "" 4 500) false "" "" 0 0 None.
Definition daemon1 : Daemon :=
  match start host1 vars1 with Ok dm => dm | Err _ => fallback_daemon end.
Lemma daemon1_starts : start host1 vars1 = Ok daemon1.
Proof. unfold daemon1. destruct (start host1 vars1) eqn:E; [done|by vm_compute in E]. Qed.
Definition process1 : Process :=
  sampled (Some 1600000000500) 250
    (serve (dm_service daemon1) (AddJob mail) 1500
       (launched (restart (dm_service daemon1) (initial sv0)))).
Lemma metrics_page_witness :
  exposition (render (registry process1)) = Some (samples (registry process1))
  ∧ mkSample "anvilmq_backlog_jobs" [("scope", "queue"); ("queue", "mail"); ("kind", "waiting")] "1"
    ∈ samples (registry process1).
Proof.
  destruct (metrics_page host1 vars1 daemon1 (initial sv0) process1 daemon1_starts) as [Hr _].
  - eapply rtc_l; [apply (PServe _ (AddJob mail) 1500); done|]. apply rtc_once. apply PSample.
  - split; [exact Hr|]. apply (bool_decide_unpack _). by vm_compute.
Defined.

(** Ten connections are open with the default limit of four, and nobody awaits them. *)
Lemma reader_concurrency_witness :
  ∃ p, rtc (pool_step 512) (new_pool (mkReader "q.db" 4 500)) p
       ∧ awaited p = 0 ∧ open_tasks p = 10 ∧ pl_stale p = 3.
Proof.
  destruct (reader_concurrency 512 (λ _, None) "q.db" ltac:(lia)) as [_ H].
  destruct (H (mkReader "q.db" 4 500) eq_refl) as (_ & _ & Hopen).
  exact (Hopen 10%nat 3%nat ltac:(lia)).
Defined.
