(* ===== verification/ReadSuite.v ===== *)
(** * The repository's tests, run on the model: the read side

    The unit tests of src/telemetry.rs, src/fts.rs, src/backup.rs, src/reader.rs and
    src/db.rs, each as the value of its assertions.  A database that a test seeds is a [Snapshot], read through
    a connection that meets no failure.  FTS5 and serde_json are stand-ins: the first
    compares the words of a document, the second keeps a JSON object as its text. *)
From Stdlib Require Import Ascii String.
From Stdlib Require Import Strings.Byte.
From S2P Require Import Prelude Text Query F64 Scheduling Db Encoding Exposition Reader Fts ReadApi.
From S2P Require Import Migrations.
From S2P Require Import Pressure Telemetry Config Backup Render Examples ReadRuns.
Local Open Scope string_scope.
Local Open Scope Z_scope.

(** ** Stand-ins *)
Definition word_char (a : ascii) : bool := byte_in 65 90 a || byte_in 97 122 a || is_ascii_digit a.
Definition words (s : string) : list string :=
  split_whitespace (to_ascii_lowercase (str_map (λ a, if word_char a then a else " "%char) s)).
(** A phrase at the start of a text: its words in a row, the last one perhaps a prefix. *)
Fixpoint phrase_at (is_prefix : bool) (phrase text : list string) : bool :=
  match phrase, text with
  | [], _ => true
  | [p], t :: _ => if is_prefix then String.prefix p t else String.eqb p t
  | p :: phrase, t :: text => String.eqb p t && phrase_at is_prefix phrase text
  | _ :: _, [] => false
  end.
Fixpoint phrase_in (is_prefix : bool) (phrase text : list string) : bool :=
  phrase_at is_prefix phrase text
  || match text with [] => false | _ :: text => phrase_in is_prefix phrase text end.
Definition doc_columns (doc : FtsDoc) : list string :=
  [fd_id doc; fd_name doc; fd_trace_id doc; default "" (fd_last_error doc)].
Definition word_hit (terms : list (string * bool)) (doc : FtsDoc) : bool :=
  let terms := base.filter (λ t : string * bool, words t.1 ≠ []) terms in
  negb (bool_decide (terms = []))
  && forallb (λ t : string * bool, existsb (phrase_in t.2 (words t.1)) (words <$> doc_columns doc)) terms.
#[local] Instance word_fts : Fts5 := {|
  fts_query expr docs :=
    match fts_parse expr with
    | Some terms => Ok (rows_where (λ _ doc, word_hit terms doc) docs).*1
    | None => Err (OtherError "fts5: syntax error")
    end;
  fts_hit := word_hit;
|}.

(** JSON and label texts, written with single quotes. *)
Definition dq : string → string := str_map (λ a, if Ascii.eqb a "'" then quote else a).
#[local] Instance object_json : Json := {|
  Value := string;
  json_from_str s := if String.prefix "{" s && ends_with "}" s then Some s else None;
  json_string s := String quote (s ++ String quote "");
|}.

(** ** Databases *)
Definition no_rows : Snapshot := mkSnapshot empty_db (mkArchive ∅ ∅ ∅ false).
(** [INSERT INTO job_history]: the row, its rowid and what the triggers add to the index. *)
Definition insert_history (id : string) (h : HistRow) (s : Snapshot) : Snapshot :=
  mkSnapshot (sn_db s <| job_history ::= insert id h |>)
    (match archive_insert id h (sn_archive s) with Ok a => a | Err _ => sn_archive s end).
Definition delete_history (id : string) (s : Snapshot) : Snapshot :=
  mkSnapshot (sn_db s <| job_history ::= delete id |>) (archive_delete id (sn_archive s)).
Definition insert_job (id : string) (j : Job) (s : Snapshot) : Snapshot :=
  mkSnapshot (sn_db s <| jobs ::= insert id j |>) (sn_archive s).
(** What a test passes to a handler: a connection to the database. *)
Definition state_for (s : Snapshot) : Attempt Snapshot := attempt_on (conn_to s s).

Definition holds {E A} (r : result E A) (P : A → bool) : bool :=
  match r with Ok a => P a | Err _ => false end.
Definition rejected_with {A} (r : result StatusCode A) (code : StatusCode) : bool :=
  match r with Ok _ => false | Err e => bool_decide (e = code) end.
Definition is_err {E A} (r : result E A) : bool := negb (holds r (λ _, true)).
Definition same (xs ys : list string) : bool := bool_decide (xs = ys).

(** The metrics with no backup made and no call timed. *)
Definition registry (m : Metrics) : Registry :=
  mkRegistry m (mkBackupMetrics 0 0 0 0 0) (replicate (length METHODS) empty_latency).

(** ** Readiness and the failures feed (src/telemetry.rs) *)
Module FeedTests.
Definition readiness_fails_fast_under_contention_and_metrics_remain_available : bool :=
  bool_decide ((ready (mkProbe true true true true true true)).1 = OK)
  && bool_decide ((ready (mkProbe false true true true true true)).1 = SERVICE_UNAVAILABLE)
  && str_contains "# TYPE anvilmq_jobs gauge"
       (render (registry default_metrics)).

Definition failed_row (row : string * string * JobState * Z * Z) : Snapshot → Snapshot :=
  let '(id, name, state, attempts, finished) := row in
  insert_history id
    (mkHist name state 0 [] None "trace" 0 attempts 3 0 finished None None (Some "boom") None
       false None 0).
Definition feed : Snapshot :=
  foldl (λ s row, failed_row row s) no_rows
    [("f1", "email", Failed, 3, 100); ("f2", "email", Failed, 5, 300);
     ("f3", "sms", Failed, 2, 200); ("c1", "email", Completed, 1, 400)].
Definition feed_ids (rows : list FailureRow) : list string := fr_id <$> rows.

Definition failures_feed_filters_orders_and_caps : bool :=
  let app := state_for feed in
  holds (failures app (mkFailuresParams None None None)) (λ all,
    same (feed_ids all) ["f2"; "f3"; "f1"]
    && forallb (λ r, negb (String.eqb (fr_name r) "email") || negb (String.eqb (fr_id r) "c1")) all
    && bool_decide ((all !! 0%nat) ≫= fr_last_error = Some "boom"))
  && holds (failures app (mkFailuresParams (Some "email") None None))
       (λ rows, same (feed_ids rows) ["f2"; "f1"])
  && holds (failures app (mkFailuresParams None (Some 200) None))
       (λ rows, same (feed_ids rows) ["f2"; "f3"])
  && holds (failures app (mkFailuresParams None None (Some 1)))
       (λ rows, same (feed_ids rows) ["f2"])
  && holds (failures app (mkFailuresParams None None (Some 50000)))
       (λ rows, (length rows =? 3)%nat).

Definition all : list bool :=
  [readiness_fails_fast_under_contention_and_metrics_remain_available;
   failures_feed_filters_orders_and_caps].
End FeedTests.

(** ** Search (src/telemetry.rs) *)
Module SearchTests.
Definition search_history_row (row : string * string * JobState * string * option string * Z * Z)
  : Snapshot → Snapshot :=
  let '(id, name, state, trace, err, created, finished) := row in
  insert_history id
    (mkHist name state 0 [] None trace 0 3 3 created finished None None err None false None 0).
Definition seed_search_history (rows : list (string * string * JobState * string * option string * Z * Z))
    (s : Snapshot) : Snapshot :=
  foldl (λ s row, search_history_row row s) s rows.
Definition ids (rows : list SearchRow) : list string := sr_id <$> rows.
Definition finds (fts : bool) (s : Snapshot) (p : SearchParams) (expected : list string) : bool :=
  holds (search fts (state_for s) p) (λ rows, same (ids rows) expected).
Definition for_q (q : string) : SearchParams := mkSearchParams (Some q) None None None None None.

Definition search_like_matches_across_columns_and_filters_narrow : bool :=
  let s := seed_search_history
    [("job-alpha", "email", Failed, "trace-1", Some "timeout talking to smtp", 10, 100);
     ("job-beta", "sms", Completed, "trace-2", None, 20, 200);
     ("gamma-id", "email", Failed, "alpha-trace", Some "boom", 30, 300)] no_rows in
  let by_trace := mkSearchParams None None None (Some "trace-2") None None in
  finds false s (for_q "alpha") ["gamma-id"; "job-alpha"]
  && finds false s (for_q "smtp") ["job-alpha"]
  && finds false s (for_q "sms") ["job-beta"]
  && finds false s (mkSearchParams None (Some "email") (Some "Failed") None None None)
       ["gamma-id"; "job-alpha"]
  && finds false s by_trace ["job-beta"]
  && finds false s (mkSearchParams None None None None (Some 200) None) ["gamma-id"; "job-beta"]
  && holds (search false (state_for s) by_trace)
       (λ rows, bool_decide ((rows !! 0%nat) ≫= sr_last_error = None)).

Definition search_escapes_like_metacharacters : bool :=
  let s := seed_search_history
    [("id-100pct", "email", Failed, "t1", Some "100% failure", 10, 100);
     ("id-plain", "email", Failed, "t2", Some "50 percent", 20, 200);
     ("id_under", "email", Failed, "t3", Some "has_underscore", 30, 300);
     ("idXunder", "email", Failed, "t4", Some "noUnderscore", 40, 400)] no_rows in
  finds false s (for_q "100%") ["id-100pct"] && finds false s (for_q "id_under") ["id_under"].

Definition search_orders_caps_and_requires_predicate : bool :=
  let s := seed_search_history
    [("s1", "email", Failed, "t", Some "e", 10, 100);
     ("s2", "email", Failed, "t", Some "e", 20, 300);
     ("s3", "email", Failed, "t", Some "e", 30, 200)] no_rows in
  let email limit := mkSearchParams None (Some "email") None None None limit in
  finds false s (email None) ["s2"; "s3"; "s1"]
  && finds false s (email (Some 1)) ["s2"]
  && holds (search false (state_for s) (email (Some 50000))) (λ rows, (length rows =? 3)%nat)
  && rejected_with (search false (state_for s) (for_q "   ")) BAD_REQUEST.

(** [enable_fts] on a database: the rows it backfilled, and the database. *)
Definition enable (s : Snapshot) : option (nat * Snapshot) :=
  match enable_fts (λ _ l, l) (λ _, None) 0 DEFAULT_BACKFILL_BATCH (sn_archive s) with
  | Some (Ok n, a) => Some (n, mkSnapshot (sn_db s) a)
  | _ => None
  end.
Definition enabled (s : Snapshot) (P : nat → Snapshot → bool) : bool :=
  match enable s with Some (n, s) => P n s | None => false end.

Definition fts_matches_tokenized_terms_and_combines_filters : bool :=
  let s := seed_search_history
    [("job-alpha", "email", Failed, "trace-1", Some "timeout talking to smtp", 10, 100);
     ("job-beta", "sms", Completed, "trace-2", None, 20, 200);
     ("job-gamma", "email", Failed, "trace-3", Some "connection refused by smtp", 30, 300)]
    no_rows in
  enabled s (λ n s,
    (n =? 3)%nat
    && finds true s (for_q "smtp") ["job-gamma"; "job-alpha"]
    && finds true s (mkSearchParams (Some "smtp") None (Some "Completed") None None None) []
    && finds true s
         (mkSearchParams (Some "smtp") (Some "email") (Some "Failed") None (Some 250) None)
         ["job-gamma"]).

Definition fts_delete_trigger_drops_row_from_results : bool :=
  enabled no_rows (λ _ s,
    let s := seed_search_history
      [("doomed", "email", Failed, "trace-1", Some "boom", 10, 100)] s in
    finds true s (for_q "boom") ["doomed"]
    && finds true (delete_history "doomed" s) (for_q "boom") []).

Definition hostile : list string :=
  ["a AND ( OR *:^"; dq "'''"; "NOT refused -foo"; "((("].
Definition fts_hostile_query_does_not_500 : bool :=
  enabled no_rows (λ _ s,
    let s := seed_search_history
      [("job-1", "email", Failed, "trace-1", Some "connection refused", 10, 100)] s in
    forallb (λ q, holds (search true (state_for s) (for_q q)) (λ _, true)) hostile
    && finds true s (for_q "refused") ["job-1"]).

Definition fts_prefix_wildcard_matches_stem_but_exact_is_unchanged : bool :=
  let s := seed_search_history
    [("job-up", "upstream", Failed, "trace-1", None, 10, 100);
     ("job-down", "downstream", Failed, "trace-2", None, 20, 200)] no_rows in
  enabled s (λ _ s,
    finds true s (for_q "upstrea*") ["job-up"]
    && finds true s (for_q "upstream") ["job-up"]
    && finds true s (for_q "upstrea") []).

Definition search_falls_back_to_like_when_fts_disabled : bool :=
  let s := seed_search_history
    [("job-1", "email", Failed, "trace-1", Some "connection refused", 10, 100)] no_rows in
  negb (ar_installed (sn_archive s)) && finds false s (for_q "fused") ["job-1"].

Definition all : list bool :=
  [search_like_matches_across_columns_and_filters_narrow; search_escapes_like_metacharacters;
   search_orders_caps_and_requires_predicate; fts_matches_tokenized_terms_and_combines_filters;
   fts_delete_trigger_drops_row_from_results; fts_hostile_query_does_not_500;
   fts_prefix_wildcard_matches_stem_but_exact_is_unchanged;
   search_falls_back_to_like_when_fts_disabled].
End SearchTests.

(** ** Job detail (src/telemetry.rs) *)
Module DetailTests.
Definition text (s : string) : bytes := list_byte_of_string (dq s).
Definition insert_live_job (id : string) (state : JobState) (payload : bytes)
    (worker_id : option string) (lease_expires_at_ms available_at : option Z)
  : Snapshot → Snapshot :=
  insert_job id
    (mkJob "email" state 7 payload None "trace" 0 1 3 5 6 None worker_id None lease_expires_at_ms
       available_at 0 60000 f64_zero 0 false None 0).
Definition insert_history_job_with_result (id : string) (state : JobState) (payload : bytes)
    (last_error : option string) (result : option bytes) : Snapshot → Snapshot :=
  insert_history id
    (mkHist "email" state 0 payload (Some "root") "trace" 2 3 3 5 900 result (Some "w-1")
       last_error (Some "facet-a") false None 0).
Definition insert_history_job (id : string) (state : JobState) (payload : bytes)
    (last_error : option string) : Snapshot → Snapshot :=
  insert_history_job_with_result id state payload last_error None.

Definition source_eqb (a b : Source) : bool :=
  match a, b with Live, Live | History, History => true | _, _ => false end.
Definition encoding (e : Encoded) : string :=
  match e with AsJson => "json" | AsBase64 => "base64" end.
(** An encoded blob: its value and the name of its encoding. *)
Definition blob_is (v : string * Encoded) (value enc : string) : bool :=
  String.eqb v.1 value && String.eqb (encoding v.2) enc.
Definition detail (s : Snapshot) (id : string) (P : JobDetail → bool) : bool :=
  holds (job_detail (state_for s) id) P.
Definition no_result (d : JobDetail) : bool := bool_decide (jd_result d = None).
Definition result_is (d : JobDetail) (value enc : string) : bool :=
  match jd_result d with Some v => blob_is v value enc | None => false end.
Definition binary : bytes := [xff; xfe; x00; x01].

Definition job_detail_surfaces_stored_result_and_encodings : bool :=
  let ok := text "{'ok':true}" in
  let s := insert_history_job_with_result "res-none" Completed ok None None
    (insert_history_job_with_result "res-bin" Completed ok None (Some binary)
      (insert_history_job_with_result "res-json" Completed ok None (Some (text "{'answer':42}"))
         no_rows)) in
  detail s "res-json" (λ json,
    source_eqb (rw_source (jd_raw json)) History
    && bool_decide (rw_state (jd_raw json) = Completed)
    && result_is json (dq "{'answer':42}") "json")
  && detail s "res-bin" (λ bin, result_is bin (json_string (base64_encode binary)) "base64")
  && detail s "res-none" no_result.

Definition job_detail_live_job_has_no_result : bool :=
  let s := insert_live_job "live" Active (text "{'n':1}") (Some "w-1") (Some 1) None no_rows in
  detail s "live" (λ d, source_eqb (rw_source (jd_raw d)) Live && no_result d).

Definition job_detail_returns_live_active_and_delayed : bool :=
  let s := insert_live_job "live-delayed" Delayed (text "{'n':1}") None None (Some 555)
    (insert_live_job "live-active" Active (text "{'hello':'world'}") (Some "w-9") (Some 1234) None
       no_rows) in
  detail s "live-active" (λ d,
    let active := jd_raw d in
    source_eqb (rw_source active) Live
    && bool_decide (rw_state active = Active)
    && (rw_priority active =? 7)
    && bool_decide (rw_worker_id active = Some "w-9")
    && bool_decide (rw_lease_expires_at_ms active = Some 1234)
    && bool_decide (rw_available_at active = None)
    && bool_decide (rw_finished_at active = None)
    && bool_decide (rw_last_error active = None)
    && blob_is (jd_payload d) (dq "{'hello':'world'}") "json")
  && detail s "live-delayed" (λ d,
       let delayed := jd_raw d in
       source_eqb (rw_source delayed) Live
       && bool_decide (rw_state delayed = Delayed)
       && bool_decide (rw_available_at delayed = Some 555)
       && blob_is (jd_payload d) (dq "{'n':1}") "json").

Definition job_detail_returns_history_completed_and_failed : bool :=
  let s := insert_history_job "hist-fail" Failed (text "{'x':1}") (Some "kaboom")
    (insert_history_job "hist-done" Completed (text "{'ok':true}") None no_rows) in
  detail s "hist-done" (λ d,
    let finished := jd_raw d in
    source_eqb (rw_source finished) History
    && bool_decide (rw_state finished = Completed)
    && bool_decide (rw_finished_at finished = Some 900)
    && bool_decide (rw_last_error finished = None)
    && bool_decide (rw_parent_id finished = Some "root")
    && bool_decide (rw_worker_id finished = Some "w-1")
    && bool_decide (rw_rate_limit_facet finished = Some "facet-a")
    && (rw_execution_depth finished =? 2)
    && bool_decide (rw_lease_expires_at_ms finished = None)
    && bool_decide (rw_available_at finished = None)
    && blob_is (jd_payload d) (dq "{'ok':true}") "json")
  && detail s "hist-fail" (λ d,
       let failed := jd_raw d in
       source_eqb (rw_source failed) History
       && bool_decide (rw_state failed = Failed)
       && bool_decide (rw_last_error failed = Some "kaboom")
       && blob_is (jd_payload d) (dq "{'x':1}") "json").

Definition job_detail_unknown_is_404_and_blank_is_400 : bool :=
  rejected_with (job_detail (state_for no_rows) "nope") NOT_FOUND
  && rejected_with (job_detail (state_for no_rows) "   ") BAD_REQUEST.

Definition job_detail_non_json_payload_is_base64 : bool :=
  let s := insert_live_job "binary" Active binary (Some "w-1") (Some 1) None no_rows in
  detail s "binary" (λ d,
    blob_is (jd_payload d) (json_string "//4AAQ==") "base64"
    && String.eqb (jd_payload d).1 (json_string (base64_encode binary))).

Definition all : list bool :=
  [job_detail_surfaces_stored_result_and_encodings; job_detail_live_job_has_no_result;
   job_detail_returns_live_active_and_delayed; job_detail_returns_history_completed_and_failed;
   job_detail_unknown_is_404_and_blank_is_400; job_detail_non_json_payload_is_base64].
End DetailTests.

(** ** The metrics by name and their settings (src/telemetry.rs) *)
Module NamedTests.
(** [Metrics { named, ..Default::default() }.render()] *)
Definition page (n : NamedLifecycle) : string := render (registry (default_metrics <| named := n |>)).
Definition shows (output needle : string) : bool := str_contains (dq needle) output.

Definition named_lifecycle_is_bounded_to_allowlist_and_renders_series : bool :=
  let named := named_observe_duration "Unlisted" 5 (named_event "Unlisted" "completed"
    (named_event "Stress" "failed" (named_observe_duration "ProcessActivity" 42
      (named_event "ProcessActivity" "completed" (named_event "ProcessActivity" "enqueued"
        (named_configured ["ProcessActivity"; "Stress"])))))) in
  let output := page named in
  shows output "anvilmq_jobs_by_name_total{name='ProcessActivity',event='completed'} 1"
  && shows output "anvilmq_jobs_by_name_total{name='ProcessActivity',event='enqueued'} 1"
  && shows output "anvilmq_jobs_by_name_total{name='Stress',event='failed'} 1"
  && shows output "anvilmq_job_duration_seconds_count{name='ProcessActivity'} 1"
  && shows output "anvilmq_job_duration_seconds_bucket{name='ProcessActivity',le='0.1'} 1"
  && negb (shows output "Unlisted").

Definition named_lifecycle_renders_nothing_without_allowlist : bool :=
  negb (shows (page (Bounded [])) "anvilmq_jobs_by_name_total").

Definition named_lifecycle_all_mode_auto_registers_unlisted_names : bool :=
  let output := page (named_observe_duration "Unlisted" 5
                        (named_event "Unlisted" "completed" (named_all 10 []))) in
  shows output "anvilmq_jobs_by_name_total{name='Unlisted',event='completed'} 1"
  && shows output "anvilmq_job_duration_seconds_count{name='Unlisted'} 1"
  && shows output "anvilmq_named_series 1"
  && shows output "anvilmq_jobs_by_name_dropped_total 0".

Definition named_lifecycle_all_mode_enforces_cap_and_counts_dropped : bool :=
  let output := page (named_observe_duration "c" 9 (named_event "c" "enqueued"
    (named_event "b" "enqueued" (named_event "a" "enqueued" (named_all 2 []))))) in
  shows output "anvilmq_jobs_by_name_total{name='a',event='enqueued'} 1"
  && shows output "anvilmq_jobs_by_name_total{name='b',event='enqueued'} 1"
  && negb (shows output "name='c'")
  && shows output "anvilmq_named_series 2"
  && shows output "anvilmq_jobs_by_name_dropped_total 2".

Definition named_lifecycle_all_mode_preseeds_allowlist : bool :=
  let named := named_all 3 ["seeded"] in
  shows (page named) "anvilmq_jobs_by_name_total{name='seeded',event='enqueued'} 0"
  && shows (page named) "anvilmq_named_series 1"
  && shows (page (named_event "later" "enqueued" named))
       "anvilmq_jobs_by_name_total{name='later',event='enqueued'} 1".

(** [output.find(needle)] *)
Fixpoint find (needle s : string) : option nat :=
  if String.prefix needle s then Some 0%nat else
  match s with String _ s => S <$> find needle s | EmptyString => None end.
Definition named_lifecycle_all_mode_renders_names_in_sorted_order : bool :=
  let named := foldl (λ n name, named_event name "enqueued" n) (named_all 10 [])
                 ["gamma"; "alpha"; "beta"] in
  let output := print_items (named_render named) in
  match find (dq "name='alpha'") output, find (dq "name='beta'") output,
        find (dq "name='gamma'") output with
  | Some a, Some b, Some g => (a <? b)%nat && (b <? g)%nat
  | _, _, _ => false
  end.

Definition mode_is (value : string) (mode : MetricsMode) : bool :=
  holds (MetricsMode_parse value) (λ m, match m, mode with
    | Allowlist, Allowlist | All, All => true | _, _ => false end).
Definition metrics_mode_parses_case_insensitively_and_rejects_unknown : bool :=
  mode_is "" Allowlist && mode_is " Allowlist " Allowlist && mode_is "ALL" All
  && is_err (MetricsMode_parse "everything").

Definition max_names_parse_applies_bounds : bool :=
  holds (parse_max_names "250") (Z.eqb 250)
  && holds (parse_max_names (fmt_Z METRICS_MAX_NAMES_CEILING)) (Z.eqb METRICS_MAX_NAMES_CEILING)
  && is_err (parse_max_names "0") && is_err (parse_max_names "1001")
  && is_err (parse_max_names "lots").

Definition all : list bool :=
  [named_lifecycle_is_bounded_to_allowlist_and_renders_series;
   named_lifecycle_renders_nothing_without_allowlist;
   named_lifecycle_all_mode_auto_registers_unlisted_names;
   named_lifecycle_all_mode_enforces_cap_and_counts_dropped;
   named_lifecycle_all_mode_preseeds_allowlist;
   named_lifecycle_all_mode_renders_names_in_sorted_order;
   metrics_mode_parses_case_insensitively_and_rejects_unknown; max_names_parse_applies_bounds].
End NamedTests.

(** ** The index (src/fts.rs) *)
Module IndexTests.
Definition is_truthy_accepts_only_recognized_values : bool :=
  forallb is_truthy ["1"; "true"; "TRUE"; "Yes"; " yes "; "tRuE"]
  && forallb (λ no, negb (is_truthy no)) [""; "0"; "false"; "no"; "off"; "2"; "enabled"; "y"].

(** The tests' table has the columns that the index reads. *)
Definition bare_table : Archive := mkArchive ∅ ∅ ∅ false.
Definition setup : Archive := setup_blocking bare_table.
Definition insert (id name trace : string) (err : option string) (a : Archive) : Archive :=
  let h := mkHist name Completed 0 [] None trace 0 0 0 0 0 None None err None false None 0 in
  match archive_insert id h a with Ok a => a | Err _ => a end.
(** [SELECT h.id ... WHERE job_history_fts MATCH ?1 ORDER BY h.id] *)
Definition match_ids (a : Archive) (expr : string) : result RusqliteError (list string) :=
  fts_query expr (ar_fts a) ≫= λ l,
  Ok (merge_sort str_le (rows_where (λ _ r, bool_decide (r ∈ l)) (ar_rowid a)).*1).
Definition matches (a : Archive) (query : string) (expected : list string) : bool :=
  match sanitize_match query with
  | Some expr => holds (match_ids a expr) (λ ids, same ids expected)
  | None => false
  end.
(** How many rows a query finds, when it names a token; it must not fail. *)
Definition runs (a : Archive) (query : string) (P : nat → bool) : bool :=
  match sanitize_match query with
  | Some expr => holds (match_ids a expr) (λ ids, P (length ids))
  | None => P 0%nat
  end.
Definition sanitizes (query : string) (expected : option string) : bool :=
  bool_decide (sanitize_match query = dq <$> expected).

Definition insert_trigger_indexes_tokens_in_columns : bool :=
  let a := insert "job-2" "sms" "trace-b" None
    (insert "job-1" "email" "trace-a" (Some "timeout talking to smtp") setup) in
  matches a "smtp" ["job-1"] && matches a "sms" ["job-2"] && matches a "trace-a" ["job-1"].

Definition delete_trigger_removes_row_from_index : bool :=
  let a := insert "job-1" "email" "trace-a" (Some "boom") setup in
  matches a "boom" ["job-1"] && matches (archive_delete "job-1" a) "boom" [].

Definition backfill (batch : Z) (a : Archive) : option (nat * Archive) :=
  match backfill_blocking (λ _ l, l) (λ _, None) 0 batch a with
  | Some (Ok n, a) => Some (n, a)
  | _ => None
  end.
Definition backfill_is_idempotent_and_bounded : bool :=
  let seeded := foldl (λ a i, insert ("job-" ++ fmt_Z (Z.of_nat i)) "email" "trace"
                                (Some "preexisting failure") a) bare_table (seq 0 5) in
  match backfill 2 (setup_blocking seeded) with
  | Some (n, a) =>
      (n =? 5)%nat && runs a "preexisting" (Nat.eqb 5)
      && match backfill 2 a with
         | Some (n, a) => (n =? 0)%nat && (size (ar_fts a) =? 5)%nat
         | None => false
         end
  | None => false
  end.

Definition sanitize_neutralizes_operators_and_never_errors : bool :=
  let a := insert "job-1" "email" "trace" (Some "connection refused") setup in
  forallb (λ q, runs a q (λ _, true)) SearchTests.hostile
  && sanitizes (dq "''") None && sanitizes "   " None
  && runs a "refused" (Nat.eqb 1).

Definition sanitize_prefix_wildcard_string_forms : bool :=
  sanitizes "upstrea*" (Some "'upstrea'*") && sanitizes "foo" (Some "'foo'")
  && sanitizes "*" None && sanitizes "**" None
  && sanitizes "foo*bar" (Some "'foo*bar'") && sanitizes "word**" (Some "'word'*")
  && sanitizes "connection upstrea*" (Some "'connection' 'upstrea'*").

Definition sanitize_prefix_wildcard_live_matches : bool :=
  let a := insert "job-3" "downstream" "trace-c" None
    (insert "job-2" "upstreamer" "trace-b" None
      (insert "job-1" "upstream" "trace-a" (Some "boom") setup)) in
  let b := insert "job-4" "email" "trace-d" (Some "connection to upstream") a in
  matches a "upstrea*" ["job-1"; "job-2"] && matches a "upstream" ["job-1"]
  && matches a "upstrea" []
  && matches b "connection upstrea*" ["job-4"]
  && forallb (λ q, runs b q (Nat.eqb 0)) ["*"; dq "'*"; "up*stream"].

Definition all : list bool :=
  [is_truthy_accepts_only_recognized_values; insert_trigger_indexes_tokens_in_columns;
   delete_trigger_removes_row_from_index; backfill_is_idempotent_and_bounded;
   sanitize_neutralizes_operators_and_never_errors; sanitize_prefix_wildcard_string_forms;
   sanitize_prefix_wildcard_live_matches].
End IndexTests.

(** ** Backups and the reader (src/backup.rs, src/reader.rs) *)
Module BackupTests.
Definition unset : string → option string := λ _, None.
Definition set_var (key value : string) : string → option string := λ k,
  if String.eqb k key then Some value else None.
Definition cfg_eqb (a b : BackupConfig) : bool :=
  Bool.eqb (bk_enabled a) (bk_enabled b) && (bk_interval_ms a =? bk_interval_ms b)
  && String.eqb (bk_dir a) (bk_dir b) && (bk_retain a =? bk_retain b).
Definition env_driven_config : bool :=
  let key := "ANVILMQ_BACKUP_ENABLED" in
  holds (backup_from_env unset) (λ cfg, negb (bk_enabled cfg) && cfg_eqb cfg default_backup)
  && forallb (λ value, env_bool (set_var key value) key false) ["1"; "true"; "TRUE"; "Yes"; " yes "]
  && forallb (λ value, negb (env_bool (set_var key value) key true)) ["0"; "false"; "no"; ""; "maybe"]
  && is_err (backup_from_env (set_var "ANVILMQ_BACKUP_INTERVAL_MS" "notanumber"))
  && is_err (backup_from_env (set_var "ANVILMQ_BACKUP_RETAIN" "-1")).

Definition valid (enabled : bool) (interval_ms : Z) (dir : string) (retain : Z) : bool :=
  holds (backup_validate (mkBackup enabled interval_ms dir retain)) (λ _, true).
Definition interval_must_be_positive : bool :=
  let d := default_backup in
  negb (valid (bk_enabled d) 0 (bk_dir d) (bk_retain d))
  && valid (bk_enabled d) 1 (bk_dir d) (bk_retain d).
Definition retain_must_be_at_least_one : bool :=
  let d := default_backup in
  negb (valid (bk_enabled d) (bk_interval_ms d) (bk_dir d) 0)
  && valid (bk_enabled d) (bk_interval_ms d) (bk_dir d) 1.
Definition dir_must_be_non_empty_when_enabled : bool :=
  let d := default_backup in
  negb (valid true (bk_interval_ms d) "   " (bk_retain d))
  && valid false (bk_interval_ms d) "" (bk_retain d).

(** The file that the runs copy holds three rows with a note; here they are jobs, with the
    note as their payload. *)
Definition probe_row (id note : string) : Snapshot → Snapshot :=
  DetailTests.insert_live_job id Waiting (DetailTests.text note) None None None.
Definition seed_file_db : Db :=
  sn_db (probe_row "3" "gamma" (probe_row "2" "beta" (probe_row "1" "alpha" no_rows))).
Definition snapshot_files (s : Fs) : list string :=
  merge_sort str_le (base.filter is_snapshot (elements (dom (fs_dir s)))).
Definition no_temp_files (s : Fs) : bool :=
  forallb (λ name, negb (ends_with ".tmp" name)) (elements (dom (fs_dir s))).
Definition cfg : BackupConfig := mkBackup true 1000 "anvil-backups" 3.
(** [run_once] at a time of the clock; the test expects an outcome. *)
Definition run_once (t : Z) (s : Fs) : option (BackupOutcome * Fs) :=
  match @run_blocking (fs_at t) "anvil-backup.db" cfg seed_file_db s with
  | (Ok (Some o), s) => Some (o, s)
  | _ => None
  end.
Definition is_copy (s : Fs) (name : string) : bool :=
  match fs_dir s !! name with
  | Some (Whole d) =>
      (size (jobs d) =? 3)%nat
      && bool_decide (j_payload <$> jobs d !! "2" = Some (DetailTests.text "beta"))
  | _ => false
  end.
Definition snapshot_writes_valid_copy_and_prunes : bool :=
  let t0 := 1700000000000 in
  match run_once t0 (mkFs ∅ 0 []) with
  | None => false
  | Some (outcome, s) =>
      (length (snapshot_files s) =? 1)%nat && forallb (is_copy s) (snapshot_files s)
      && (0 <? bo_size_bytes outcome)
      && no_temp_files s
      && match foldl (λ s i, s ≫= λ s, snd <$> run_once (t0 + 2 * Z.of_nat i) s) (Some s) (seq 1 5) with
         | Some s => same (snapshot_files s) (snapshot_name <$> [t0 + 6; t0 + 8; t0 + 10])
                     && no_temp_files s
         | None => false
         end
  end.
Definition in_memory_database_is_a_no_op : bool :=
  holds (@run_blocking (fs_at 0) ":memory:" default_backup seed_file_db (mkFs ∅ 0 [])).1
    (λ outcome, match outcome with None => true | Some _ => false end).

(** src/reader.rs *)
Definition count_history : Q Snapshot nat := select (λ _ s, Ok (size (job_history (sn_db s)))).
Definition reads_seeded_rows_read_only : bool :=
  let s := FeedTests.failed_row ("a", "email", Failed, 3, 100) no_rows in
  holds (reader_query (state_for s) count_history) (Nat.eqb 1).
Definition from_env_normalizes_invalid_concurrency : bool :=
  match reader_from_env unset "anvil.db" with Some r => 1 <=? rd_max_concurrency r | None => false end.

Definition all : list bool :=
  [env_driven_config; interval_must_be_positive; retain_must_be_at_least_one;
   dir_must_be_non_empty_when_enabled; snapshot_writes_valid_copy_and_prunes;
   in_memory_database_is_a_no_op; reads_seeded_rows_read_only;
   from_env_normalizes_invalid_concurrency].
End BackupTests.

(** ** Migrations (src/db.rs) *)
Module MigrationTests.
(** [ALTER TABLE .. DROP COLUMN], [DROP TABLE] and [DROP INDEX]; a row inserted with some
    columns takes the defaults of the others. *)
Definition drop_column (t c : string) (s : Schema) : Schema :=
  mkSchema
    (alter (λ tb, mkTable (base.filter (λ col, col_name col ≠ c) (tb_cols tb))
                    (delete c <$> tb_rows tb)) t (sc_tables s))
    (sc_indexes s).
Definition drop_table (t : string) (s : Schema) : Schema :=
  mkSchema (delete t (sc_tables s)) (sc_indexes s).
Definition drop_index (i : string) (s : Schema) : Schema :=
  mkSchema (sc_tables s) (delete i (sc_indexes s)).
Definition insert_row (t : string) (values : list (string * SqlValue)) (s : Schema) : Schema :=
  let row tb : Row :=
    list_to_map (values ++ ((λ col, (col_name col, col_default col)) <$> tb_cols tb))%list in
  mkSchema (alter (λ tb, mkTable (tb_cols tb) (tb_rows tb ++ [row tb])%list) t (sc_tables s))
    (sc_indexes s).

(** [SELECT c FROM t WHERE key = value]; the column must exist. *)
Definition select_column (s : Schema) (t key value c : string) : option SqlValue :=
  tb ← sc_tables s !! t;
  if has_columns tb [key; c] then
    (λ r, field r c) <$> head (base.filter (λ r, field r key = Txt value) (tb_rows tb))
  else None.
Definition reads (s : Schema) (t key value : string) (c : string) (v : SqlValue) : bool :=
  bool_decide (select_column s t key value c = Some v).
(** [conn.prepare] of a SELECT: it names columns of the table. *)
Definition prepares (s : Schema) (t : string) (cs : list string) : bool :=
  match sc_tables s !! t with Some tb => has_columns tb cs | None => false end.
Definition migrated (s : Schema) (P : Schema → bool) : bool :=
  match run_migrations no_fault s with (Ok _, s) => P s | (Err _, _) => false end.

(** The statements that take a current database back to an early one. *)
Definition roll_back (s : Schema) : Schema :=
  let s := drop_column "jobs" "worker_id" s in
  let s := foldr drop_index s
    ["idx_jobs_pressure"; "idx_jobs_active_lease"; "idx_chain_counters_updated";
     "idx_facet_dispatch_seq"; "idx_facet_dispatch_served_at"; "idx_receipts_release";
     "idx_jobs_parent"] in
  let s := foldr drop_table s ["facet_dispatch"; "chain_counters"] in
  let s := drop_column "enqueue_receipts" "release_on_finish" s in
  let s := foldr (drop_column "jobs") s
    ["lease_expires_at_ms"; "last_error"; "pending_children"; "fail_parent_on_failure"; "tree_id";
     "tree_depth"] in
  foldr (drop_column "job_history") s
    ["worker_id"; "last_error"; "rate_limit_facet"; "result"; "fail_parent_on_failure"; "tree_id";
     "tree_depth"].
Definition legacy_rows (s : Schema) : Schema :=
  let s := insert_row "jobs"
    [("id", Txt "existing"); ("name", Txt "email"); ("state", Txt "Waiting"); ("priority", Int 0);
     ("payload", Blob [x01]); ("trace_id", Txt "trace"); ("execution_depth", Int 0);
     ("created_at", Int 1); ("updated_at", Int 1)] s in
  let s := insert_row "job_history"
    [("id", Txt "legacy-done"); ("name", Txt "email"); ("state", Txt "Completed");
     ("priority", Int 0); ("payload", Blob [x03]); ("trace_id", Txt "trace");
     ("execution_depth", Int 0); ("attempts", Int 1); ("max_attempts", Int 3);
     ("created_at", Int 1); ("finished_at", Int 2)] s in
  insert_row "enqueue_receipts"
    [("queue_name", Txt "email"); ("idempotency_key", Txt "legacy-key"); ("request", Blob [x02]);
     ("job_id", Txt "existing"); ("initial_state", Txt "Waiting"); ("created_at", Int 1)] s.

Definition migration_preserves_legacy_jobs_and_is_repeatable : bool :=
  migrated (mkSchema ∅ ∅) (λ s,
    migrated (legacy_rows (roll_back s)) (λ s, migrated s (λ s,
      let job := reads s "jobs" "id" "existing" in
      let done := reads s "job_history" "id" "legacy-done" in
      reads s "enqueue_receipts" "idempotency_key" "legacy-key" "release_on_finish" (Int 0)
      && job "state" (Txt "Waiting") && job "worker_id" Null && job "last_error" Null
      && prepares s "job_history" ["worker_id"; "last_error"; "rate_limit_facet"]
      && done "result" Null
      && job "pending_children" (Int 0) && job "fail_parent_on_failure" (Int 0)
      && job "tree_id" Null && job "tree_depth" (Int 0)
      && done "fail_parent_on_failure" (Int 0) && done "tree_id" Null && done "tree_depth" (Int 0)
      && prepares s "chain_counters" ["trace_id"; "job_count"; "updated_at"]
      && prepares s "facet_dispatch" ["facet_key"; "last_served_seq"; "last_served_at"]
      && prepares s "enqueue_rejections"
           ["id"; "rejected_at"; "kind"; "name"; "trace_id"; "parent_id"; "execution_depth";
            "rate_limit_facet"; "detail"]))).

(** The settings of [durability_is_validated_and_applied_on_each_open]; what the PRAGMAs do
    is SQLite's. *)
Definition durability_is_validated : bool :=
  holds (Durability_parse "full") (λ d, match d with Full => true | Normal => false end)
  && holds (Durability_parse "NORMAL") (λ d, match d with Normal => true | Full => false end)
  && forallb (λ invalid, is_err (Durability_parse invalid)) [""; "OFF"; "EXTRA"; "1"; "typo"].

Definition all : list bool :=
  [migration_preserves_legacy_jobs_and_is_repeatable; durability_is_validated].
End MigrationTests.

(** ** All of them *)
Definition read_tests : list bool :=
  (FeedTests.all ++ SearchTests.all ++ DetailTests.all ++ NamedTests.all ++ IndexTests.all
   ++ BackupTests.all ++ MigrationTests.all)%list.

(** The tests of the read side pass on the model. *)
Theorem read_tests_pass : forallb id read_tests = true.
Proof. by vm_compute. Qed.
